(* ===== verification/_CoqProject ===== *)
-Q . S2P
Prelude.v
Mechanism.v
SnapshotModel.v
Traversal.v
MemorySnapshot.v
MemoryParts.v
LocalSnapshot.v
LocalParts.v
Rules.v
Workflow.v
Executor.v
Text.v
Pipeline.v
Stage.v
Mux.v
Disconnect.v
Enrich.v
Wire.v
Sse.v
Redis.v
Semaphore.v
Bucket.v
Quota.v
TaskDb.v
Effects.v
TaskStorage.v
Lifecycle.v
RefStore.v
TaskExecution.v
Orchestrator.v
Governance.v
Budget.v
GovernedCall.v
Manifest.v
Runner.v
UiReader.v
Actions.v
DepTools.v
Schedulers.v
OpenAi.v
Lineage.v
Limits.v
Conformance.v
Conforms.v
ResultStores.v
DeadLetters.v
