(* ===== verification/Prelude.v ===== *)
(** * A verification library for Orditect

    Orditect (src/packages) is a governance ecosystem for AI workflows: storage
    contracts with reference adapters, an orchestration layer, and a streaming
    layer.  This library models its mechanisms as executable definitions,
    component by component, and proves what makes each of them correct.

    ** How the files correspond to the code

    - [Prelude]: results and exceptions ([res], [let?]), JSON-like values,
      Python dictionaries in insertion order ([dget], [dset], [ddel]), the
      stable sort, pagination, and the lemmas and tactics the files share.
    - [Mechanism], [SnapshotModel]: the protocol package (protocol/models,
      protocol/errors.py, protocol/mechanism.py): the contract models, their
      dict form and its validation, [idempotent_payload_equal] and
      [fold_snapshot_rows].
    - [Traversal]: tree, children and ancestor reads over the interface
      [SnapshotRow], which the memory adapter instantiates with records and the
      local adapter with payload dicts.
    - [MemorySnapshot], [MemoryParts]: adapter-memory/parts/*.py, a state record
      per part, one definition per method.
    - [LocalSnapshot], [LocalParts]: adapter-local/parts/*.py and _common.py:
      the append-only envelope streams folded on every read.  ISO text of
      instants is the parameter [IsoTime], the content digest and the order in
      which Python iterates a set are parameters too.
    - [Rules]: protocol/rules/*.py, the data rules over envelope streams.
    - [Workflow], [Executor]: flow/workflow/*.py and flow/retry: the dependency
      graph, its orderings, the retry policy, sequential and parallel execution
      with saga compensation.
    - [Text]: strings as lists of code points, with what the streaming code
      uses of [str].
    - [Pipeline], [Stage]: stream/pipeline/*.py and stream/stages/stage.py: the
      text middleware and the stage that runs it.
    - [Wire]: what the code uses of Python's UTF-8 codec, of [str.splitlines] and
      of text files, and the class [JsonText] of the laws of [json.dumps] and
      [json.loads].
    - [Mux], [Disconnect], [Enrich], [Sse]: stream/mux, stream/disconnect,
      stream/enrich, stream/sse and stream/client: the multiplexer, the policy
      for clients that go away, the placeholders of rich media, and the wire
      format with its parser, from bytes to bytes.

    - [Redis]: what the core package uses of a Redis server, as a class of
      commands with their laws, and a map that implements it.
    - [Semaphore], [Bucket], [Quota], [TaskDb]: the core package
      (core/limiter/*.py, core/redis/*.py, core/lua/*.lua, core/task/status.py):
      a script is one atomic function on the database, a client method is the
      sequence of its scripts.
    - [Effects]: coroutines as trees of calls, with exceptions, [try]/[finally],
      the relation [runs] and the weakest precondition [wp].
    - [TaskStorage]: flow/protocols/storage.py as a class of promises with other
      clients running between any two calls; flow/storage/factory.py, and the
      proof that the Redis store keeps the promises.  [RefStore]: the same
      protocol on plain maps, for one client at a time.
    - [Lifecycle], [TaskExecution], [Orchestrator], [Governance]:
      flow/core/state_machine.py and lifecycle.py, executor.py, orchestrator.py,
      flow/governance/dependency.py, written as programs over that protocol.
    - [Budget], [GovernedCall]: flow/governor/budget.py over [Quota], and
      flow/governor/client.py and call.py: governed calls and streams, with the
      caller's handler and functions as calls that may fail or be cancelled.
    - [Manifest], [Runner]: stream/events/payloads.py, finalizer/manifest.py and
      client/resolver.py; stream/runner/runner.py and stream.py: the producer of
      the substreams, the consumer loop, cancellation.
    - [UiReader], [Actions]: adapter-ui/reader.py, the read views over the text
      of a trace bundle, with the local adapter's way to the same text and back
      (adapter-local/_common.py); adapter-ui/action.py and queue.py with flow/actions/*.py and
      flow/recovery/service.py, the way of a command from the user interface to
      the tasks it cancels or runs again.
    - [DepTools], [Lineage]: flow/governance/tools.py, the offline scan for
      cycles and the rebuilding of the counters that [Governance] keeps;
      flow/core/lineage.py, the trees of tasks that operators look at.
    - [DeadLetters]: flow/retry/dlq.py over [Redis].
    - [Schedulers]: flow/scheduler/*.py, a Module per scheduler; the next instant
      of a cron expression is a parameter.
    - [Limits]: core/limiter/registry.py and decorators.py, core/task/cancel.py,
      flow/governor/manager.py, factory.py and unlimited.py.
    - [OpenAi]: bridge-openai/client.py, what it sends and how it reads a stream
      of server-sent events; [json.loads] is a parameter.
    - [Conformance], [Conforms]: protocol/capabilities.py and
      protocol/conformance: the kit that tests adapters, against an interface;
      the parts of the memory, local and user-interface adapters as its
      instances, those of the memory adapter run under it.
    - [ResultStores]: stream/protocols/store.py as a class with its promise, and
      its three stores: stream/store/memory.py, stream/store/adapter.py
      over [MemoryParts], stream/adapters/taskflow.py over [TaskDb].

    ** How state, effects and time are modelled

    An object's attributes are the fields of a Record and a method is a function
    from the state (and the clock reading, when it reads the clock) to the new
    state and a result; an exception is a value of [res].  Code whose pieces
    interleave (the multiplexer, the placeholder manager, the disconnect
    monitor, parallel groups of a workflow) is a step relation whose steps are
    the pieces of code between two awaits.  Coroutines of the flow package are
    programs ([Effects.prog]) whose calls are answered by a step relation: every
    call may raise, be cancelled, or come after any number of steps of other
    clients, so a theorem on [runs] or [wp] quantifies over all interleavings;
    theorems on whole trees of tasks use [RefStore].  Instants are integers
    (microseconds); floats that are only stored are opaque.  Text that is
    searched and cut is a list of code points, identifiers are [string].

    ** What the theorems show

    - Snapshots: a terminal status of a generation never changes and each write
      does what the contract says on every branch ([terminal_irreversible],
      [mem_save_spec], [mem_save_terminal_spec]); folding rows is a
      field-by-field merge ([fold_snapshot_rows_spec]); reads return exactly the
      alive rows they promise ([mem_query_spec], [mem_get_tree_sound],
      [mem_get_tree_complete], [mem_get_ancestors_spec]).
    - The local adapter refines the memory adapter on what it has written
      ([local_save_refines], [local_save_terminal_refines],
      [local_tree_equiv], [local_get_equiv], [local_append_refines],
      [local_dependency_refines]), and contents and results round-trip.
    - What the adapters write passes the data rules
      ([local_stream_passes_snapshot_rules], [local_audit_passes_rule]), and a
      rule finds exactly the violations it describes ([dr_snp_002_spec]).
    - Workflows: a valid graph is acyclic and closed, the orderings respect it,
      a failed run compensates what it completed in reverse order, retries are
      bounded.
    - Streaming: the middleware does not depend on how a source is cut into
      chunks; a stage's content and marker positions are faithful to its source,
      it releases its resource once and delivers nothing after a cancellation
      was seen; the multiplexer numbers each stream without gaps and loses
      nothing unless closed by force; placeholders end in one final state; what
      the server sends the client reads back.

    - Core: a semaphore never has more live leases than its limit and hands
      out a slot when one is free ([sem_refines_leases]), a refreshed lease
      lasts ([watchdog_keeps_lease]), an acquisition ends and leaks nothing
      ([acquire_terminates], [acquire_no_leak]); a bucket grants no more than
      its rate ([bucket_rate]); a quota never exceeds its limit
      ([quota_reserve_spec]); terminal statuses are final and the status index
      lists what the records say ([terminal_status_kept], [task_listing]); of
      concurrent reopenings one wins ([reopen_single_winner]).
    - Tasks: [cancel] tells the truth about every race ([cancel_spec]); an
      execution takes at most one slot and gives it back exactly once
      ([slot_discipline]), settles its record unless it is cancelled twice or the
      store is out ([executed_task_settles]) and returns what its task returned
      ([execute_returns]); a cancellation reaches every live descendant
      ([cancel_cascades]); waiting ends ([wait_terminal_ends]).
    - Dependencies: a registered task is ready exactly when its parents are over
      ([readiness]), it is cancelled by votes exactly when all its parents have
      failed or voted ([votes_decide]), and the cycle check is exact on
      ancestries of bounded size ([cycle_check_exact]).
    - Governed calls: a call and a stream take one slot and give it back once
      ([call_slot], [stream_slot]), a stream leaves one audit record that tells
      its charge ([stream_observed]), and a charge that is retried is booked
      once ([charge_once]).
    - Streams as a whole: the producer ends every substream in order and closes
      it whatever happens ([produce_delivers], [produce_discipline]), the
      consumer gets every event unless its stream was cancelled
      ([run_forwards]), a manifest tells what the stages produced, field by
      field ([manifest_faithful]), its pending media resolve within a bounded
      number of queries ([pending_resolves]), and the envelopes reach a client
      through bytes and chunks ([envelope_stream_roundtrip]).
    - Recovery and actions: commands are carried out at most once within the
      window of the dispatcher and do what their type says
      ([dispatch_at_most_once]), a recovery runs again exactly the nodes that
      need it ([recovery_spec]), and the views of the UI answer what the local
      adapter answers on the same files, unless a text has one of the characters
      at which the two cut lines differently ([snapshot_view_refines]).
    - Operations: the offline scan finds a cycle whenever there is one and
      reports only cycles ([scan_cycles_exact]), lost counters are rebuilt to what
      the records say ([rebuild_exact]), trees and paths of tasks are faithful
      ([lineage_tree], [lineage_path]), each scheduler hands out what is due in
      its order ([priority_line], [dependency_scheduler_ready], [cron_due]), a
      function behind a limiter runs only with its slot and gives it back
      ([limited_discipline]), a polled token misses no cancellation
      ([token_never_misses]), the status of all limiters is complete
      ([all_resources], [first_registration_wins]), a dead letter is kept for its
      lifetime ([dead_letters]).
    - The report of the conformance kit has the outcome of every case of the
      profile, each on the adapter as the one before left it
      ([conformance_report]); what is written to a result store is read back
      until its time is over, in each of the three stores ([manifests_kept]).
    - The bridge: a stream of an endpoint is complete or raises
      ([openai_stream_discipline]), and a request carries what the caller gave
      ([openai_payload]).

    ** Fuel

    Recursions that are not structural take fuel and return [None] without
    it: the depth-first search of a graph (the number of names), Kahn's loop
    and the parallel groups (the number of steps), the breadth-first search of
    the dependency domain (the number of endpoints), the marker and line loops
    (the length of the buffer).  The definitions start them with that much and
    the theorems show that a result is always returned.  The traversal depth
    [_MAX_TRAVERSAL_DEPTH] is the code's own bound and is kept as it is, and so
    are [_MAX_CASCADE_DEPTH] and [_MAX_LINEAGE_DEPTH].  The wait loop, the
    acquisition loop and the search for cycles take fuel too: the theorems give
    a number of rounds, from the deadline or from the number of ancestors, that
    is enough.  Polling a placeholder and waiting for the previous generation
    of a task take as many rounds as fit between the start and the deadline.
    The offline scan takes two rounds per task of the graph.

    ** What is not modelled

    The files of the local adapter are text (their UTF-8 form is not modelled),
    and JSON text is a parameter with its laws.  File replacement and directory creation, HTTP and Redis connections,
    logging, hooks and human-readable messages are left out as input and
    output, and so are the web framework glue and the delivery of callbacks.  The
    progress reports and the snapshot sink of the flow package compute on floats
    or pass records on and are not modelled. *)
From stdpp Require Import prelude gmap strings list sorting.
From Stdlib Require Import ZArith Lia Sorting.Permutation Sorting.Sorted.

(** * Results: the value a Python call returns or the exception it raises *)

Declare Scope py_scope.
Delimit Scope py_scope with py.

Inductive res (E A : Type) : Type :=
| Ok (a : A)
| Err (e : E).
Arguments Ok {E A} a.
Arguments Err {E A} e.

Definition res_bind {E A B} (r : res E A) (k : A → res E B) : res E B :=
  match r with Ok a => k a | Err e => Err e end.

Definition res_map {E A B} (f : A → B) (r : res E A) : res E B :=
  match r with Ok a => Ok (f a) | Err e => Err e end.

Notation "'let?' x := r 'in' k" := (res_bind r (λ x, k))
  (at level 10, x pattern, r at level 100, k at level 200) : py_scope.

Definition is_ok {E A} (r : res E A) : bool :=
  match r with Ok _ => true | Err _ => false end.

(** * JSON-like values: what crosses every dict-shaped boundary of the code.

    Floats are opaque 64-bit patterns ([JFloat]); aware datetimes are
    microseconds since the epoch ([JTime]). Objects are finite maps, so that
    equality of dicts ignores key order, as in Python. *)

#[local] Set Warnings "-register-all".
Inductive json : Type :=
| JNull
| JBool (b : bool)
| JNum (z : Z)
| JFloat (bits : Z)
| JTime (us : Z)
| JStr (s : string)
| JArr (l : list json)
| JObj (m : gmap string json).

#[global] Instance json_eq_dec : EqDecision json.
Proof.
  refine (fix go j1 j2 :=
    let _ : EqDecision json := @go in
    match j1, j2 with
    | JNull, JNull => left eq_refl
    | JBool b1, JBool b2 => cast_if (decide (b1 = b2))
    | JNum z1, JNum z2 => cast_if (decide (z1 = z2))
    | JFloat z1, JFloat z2 => cast_if (decide (z1 = z2))
    | JTime z1, JTime z2 => cast_if (decide (z1 = z2))
    | JStr s1, JStr s2 => cast_if (decide (s1 = s2))
    | JArr l1, JArr l2 => cast_if (decide (l1 = l2))
    | JObj m1, JObj m2 => cast_if (decide (m1 = m2))
    | _, _ => right _
    end); repeat match goal with x := _ |- _ => clear x end; clear go; abstract congruence.
Defined.

(** Python truthiness of a value. *)
Definition truthy (j : json) : bool :=
  match j with
  | JNull => false
  | JBool b => b
  | JNum z => bool_decide (z ≠ 0%Z)
  | JFloat z => bool_decide (z ≠ 0%Z)
  | JTime _ => true
  | JStr s => bool_decide (s ≠ ""%string)
  | JArr l => bool_decide (l ≠ [])
  | JObj m => bool_decide (m ≠ ∅)
  end.

Abbreviation row := (gmap string json).

(** [if b: p[k] = v] and [if o is not None: p[k] = f(o)] *)
Definition when (b : bool) (k : string) (v : json) (p : row) : row := if b then <[k := v]> p else p.
Definition when_some {A} (o : option A) (k : string) (f : A → json) (p : row) : row := match o with Some a => <[k := f a]> p | None => p end.

Lemma lookup_when b k v (p : row) k' : when b k v p !! k' = if b && bool_decide (k = k') then Some v else p !! k'.
Proof.
  unfold when. destruct b; [|done]. case_bool_decide as E; simpl; [subst; by rewrite lookup_insert_eq|by rewrite lookup_insert_ne].
Qed.

Lemma lookup_when_some {A} (o : option A) k f (p : row) k' :
  when_some o k f p !! k' = match o with Some a => if bool_decide (k = k') then Some (f a) else p !! k' | None => p !! k' end.
Proof.
  unfold when_some. destruct o; [|done]. case_bool_decide as E; [subst; by rewrite lookup_insert_eq|by rewrite lookup_insert_ne].
Qed.

Example json_dict_eq_unordered :
  bool_decide (JObj (<["a"%string := JNum 1]> {["b"%string := JArr [JNull]]})
             = JObj (<["b"%string := JArr [JNull]]> {["a"%string := JNum 1]})) = true.
Proof. vm_compute. reflexivity. Qed.

(** * Insertion-ordered dictionaries

    A Python [dict] iterates in insertion order and an assignment to an
    existing key keeps the key's position. [pydict] is the association list of
    its items in that order; well-formed dictionaries have distinct keys. *)

Section PyDict.
Context {K V : Type} `{EqDecision K}.
Implicit Types (d : list (K * V)) (k : K) (v : V).

Fixpoint dget (d : list (K * V)) (k : K) : option V :=
  match d with
  | [] => None
  | (k', v) :: d' => if decide (k' = k) then Some v else dget d' k
  end.

Fixpoint dset (d : list (K * V)) (k : K) (v : V) : list (K * V) :=
  match d with
  | [] => [(k, v)]
  | (k', v') :: d' => if decide (k' = k) then (k', v) :: d' else (k', v') :: dset d' k v
  end.

Definition ddel (d : list (K * V)) (k : K) : list (K * V) :=
  filter (λ kv, kv.1 ≠ k) d.

Definition dmem (d : list (K * V)) (k : K) : bool :=
  match dget d k with Some _ => true | None => false end.

Definition dkeys (d : list (K * V)) : list K := d.*1.
Definition dvalues (d : list (K * V)) : list V := d.*2.

Lemma dget_dset d k k' v :
  dget (dset d k v) k' = if decide (k = k') then Some v else dget d k'.
Proof.
  induction d as [|[k0 v0] d IH]; simpl; [done|].
  repeat (case_decide; simpl; subst; try congruence; try done).
Qed.

Lemma dget_dset_eq d k v : dget (dset d k v) k = Some v.
Proof. rewrite dget_dset. by case_decide. Qed.

Lemma dget_dset_ne d k k' v : k ≠ k' → dget (dset d k v) k' = dget d k'.
Proof. intros. rewrite dget_dset. by case_decide. Qed.

Lemma dget_ddel d k k' :
  dget (ddel d k) k' = if decide (k = k') then None else dget d k'.
Proof.
  unfold ddel. induction d as [|[k0 v0] d IH]; simpl; [by case_decide|].
  rewrite filter_cons. simpl.
  repeat (case_decide; simpl; subst; try congruence; try done).
Qed.

Lemma dget_elem d k v : dget d k = Some v → (k, v) ∈ d.
Proof.
  induction d as [|[k0 v0] d IH]; simpl; [done|].
  case_decide; intros; simplify_eq; [by left|right; auto].
Qed.

Lemma dget_None d k : dget d k = None ↔ k ∉ dkeys d.
Proof.
  unfold dkeys in *. induction d as [|[k0 v0] d IH]; simpl.
  - split; [|done]. set_solver.
  - case_decide; subst; rewrite ?IH; set_solver.
Qed.

Lemma elem_dget d k v : NoDup (dkeys d) → (k, v) ∈ d → dget d k = Some v.
Proof.
  induction d as [|[k0 v0] d IH]; simpl; intros Hnd Hin; [set_solver|].
  apply NoDup_cons in Hnd as [Hk Hnd].
  apply elem_of_cons in Hin as [[= -> ->]|Hin]; [by case_decide|].
  case_decide; subst; [|auto].
  exfalso. apply Hk. unfold dkeys. apply list_elem_of_fmap. by exists (k, v).
Qed.

Lemma dkeys_dset_in d k v : k ∈ dkeys d → dkeys (dset d k v) = dkeys d.
Proof.
  unfold dkeys. induction d as [|[k0 v0] d IH]; simpl; [set_solver|].
  case_decide as H0; subst; simpl; [done|]. intros Hin. f_equal. apply IH. set_solver.
Qed.

Lemma dkeys_dset_notin d k v : k ∉ dkeys d → dkeys (dset d k v) = dkeys d ++ [k].
Proof.
  unfold dkeys. induction d as [|[k0 v0] d IH]; simpl; [done|].
  case_decide as H0; subst; simpl; [set_solver|]. intros Hin. f_equal. apply IH. set_solver.
Qed.

Lemma dset_NoDup d k v : NoDup (dkeys d) → NoDup (dkeys (dset d k v)).
Proof.
  intros. destruct (decide (k ∈ dkeys d)); [by rewrite dkeys_dset_in|].
  rewrite dkeys_dset_notin by done.
  apply NoDup_app; repeat split; [done| |apply NoDup_singleton].
  intros x Hx ->%list_elem_of_singleton. done.
Qed.

Lemma dset_fresh d k v : dget d k = None → dset d k v = d ++ [(k, v)].
Proof.
  induction d as [|[k' v'] d IH]; simpl; [done|]. destruct (decide (k' = k)); [done|].
  intros Hd. by rewrite IH.
Qed.

Lemma ddel_NoDup d k : NoDup (dkeys d) → NoDup (dkeys (ddel d k)).
Proof.
  unfold dkeys, ddel. induction d as [|[k0 v0] d IH]; simpl; [done|].
  intros [Hk Hnd]%NoDup_cons. rewrite filter_cons. case_decide; simpl; [|auto].
  constructor; [|auto]. contradict Hk.
  apply list_elem_of_fmap in Hk as [[k1 v1] [-> Hin]].
  apply list_elem_of_filter in Hin as [_ Hin].
  apply list_elem_of_fmap. by exists (k1, v1).
Qed.

Lemma NoDup_keys_filter_short d k (P : K * V → Prop) `{∀ x, Decision (P x)} :
  NoDup (dkeys d) → (∀ k' v, P (k', v) → k' = k) → (length (filter P d) ≤ 1)%nat.
Proof.
  intros Hnd HP. induction d as [|[k0 v0] d IH]; [simpl; lia|].
  apply NoDup_cons in Hnd as [Hk Hnd]. rewrite filter_cons. destruct (decide _) as [Hp|]; [|auto].
  apply HP in Hp as ->. simpl. assert (filter P d = []) as ->; [|done].
  destruct (filter P d) as [|[k1 v1] l] eqn:E; [done|].
  assert (Hin : (k1, v1) ∈ filter P d) by (rewrite E; left).
  apply list_elem_of_filter in Hin as [Hp1 Hin]. exfalso. apply Hk.
  rewrite <- (HP _ _ Hp1). apply list_elem_of_fmap. by exists (k1, v1).
Qed.

(** [dict_of]: the dict built by assigning the items in order. *)
Definition dict_of (l : list (K * V)) : list (K * V) :=
  fold_left (λ d kv, dset d kv.1 kv.2) l [].

Lemma dict_of_NoDup l : NoDup (dkeys (dict_of l)).
Proof.
  unfold dict_of. assert (Hnd : NoDup (dkeys (@nil (K * V)))) by constructor.
  revert Hnd. generalize (@nil (K * V)) as d.
  induction l as [|[k v] l IH]; simpl; intros d Hd; [done|]. by apply IH, dset_NoDup.
Qed.
End PyDict.

(** A filter through a map. *)
Lemma filter_fmap_comm {A B} (f : A → B) (P : A → Prop) (Q : B → Prop)
  `{∀ a, Decision (P a)} `{∀ b, Decision (Q b)} (l : list A) :
  (∀ a, Q (f a) ↔ P a) → filter Q (f <$> l) = f <$> filter P l.
Proof.
  intros HPQ. induction l as [|a l IH]; [done|]. cbn [fmap list_fmap]. rewrite !filter_cons.
  destruct (decide (Q (f a))) as [HQ|HQ], (decide (P a)) as [HP|HP].
  - cbn [fmap list_fmap]. f_equal. apply IH.
  - by apply HPQ in HQ.
  - by apply HPQ in HP.
  - apply IH.
Qed.

Lemma list_filter_none_in {A} (P : A → Prop) `{∀ x, Decision (P x)} (l : list A) :
  (∀ x, x ∈ l → ¬ P x) → filter P l = [].
Proof.
  induction l as [|x l IH]; intros Hl; [done|]. rewrite filter_cons, decide_False by (apply Hl; left).
  apply IH. intros y Hy. apply Hl. by right.
Qed.

Lemma list_filter_all_in {A} (P : A → Prop) `{∀ x, Decision (P x)} (l : list A) :
  (∀ x, x ∈ l → P x) → filter P l = l.
Proof.
  induction l as [|x l IH]; intros Hl; [done|]. rewrite filter_cons, decide_True by (apply Hl; left).
  f_equal. apply IH. intros y Hy. apply Hl. by right.
Qed.

Lemma filter_reverse' {A} (P : A → Prop) `{∀ x, Decision (P x)} (l : list A) :
  filter P (reverse l) = reverse (filter P l).
Proof.
  induction l as [|x l IH]; [done|]. rewrite reverse_cons, filter_app, IH, !filter_cons.
  destruct (decide (P x)); [by rewrite reverse_cons|]. by rewrite filter_nil, app_nil_r.
Qed.

(** * Stable sorting: Python's [list.sort(key=..., reverse=...)]

    [isort le l] is the stable sort of [l] for the total preorder [le]; with
    [reverse=True] Python keeps equal elements in their original order, which
    is [isort] for the flipped comparison. *)

Section StableSort.
Context {A : Type} (le : A → A → bool).

Fixpoint insert_by (x : A) (l : list A) : list A :=
  match l with
  | [] => [x]
  | y :: l' => if le x y then x :: y :: l' else y :: insert_by x l'
  end.

Definition isort (l : list A) : list A := foldr insert_by [] l.

Lemma insert_by_perm x l : insert_by x l ≡ₚ x :: l.
Proof.
  induction l as [|y l IH]; simpl; [done|].
  destruct (le x y); [done|]. rewrite IH. apply Permutation_swap.
Qed.

Lemma isort_perm l : isort l ≡ₚ l.
Proof. induction l as [|x l IH]; simpl; [done|]. by rewrite insert_by_perm, IH. Qed.

Lemma elem_of_isort l x : x ∈ isort l ↔ x ∈ l.
Proof. by rewrite isort_perm. Qed.

Lemma isort_length l : length (isort l) = length l.
Proof. apply Permutation_length, isort_perm. Qed.

Context (le_total : ∀ x y, le x y = false → le y x = true).
Context (le_trans : ∀ x y z, le x y = true → le y z = true → le x z = true).

Lemma insert_by_sorted x l :
  StronglySorted (λ a b, le a b = true) l →
  StronglySorted (λ a b, le a b = true) (insert_by x l).
Proof.
  induction 1 as [|y l Hs IH Hall]; simpl; [repeat constructor|].
  destruct (le x y) eqn:E.
  - constructor; [by constructor|]. constructor; [done|].
    eapply Forall_impl; [exact Hall|]. simpl. eauto.
  - constructor; [done|]. rewrite insert_by_perm. constructor; auto.
Qed.

Lemma isort_sorted l : StronglySorted (λ a b, le a b = true) (isort l).
Proof. induction l; simpl; [constructor|by apply insert_by_sorted]. Qed.
End StableSort.

(** [sorted(xs)] on strings. Python compares code points, which for UTF-8
    text is the byte order of [String.leb]. *)
Definition sorted_strings (l : list string) : list string := isort String.leb l.

Lemma ascii_compare_trans_lt a b c :
  Ascii.compare a b = Lt → Ascii.compare b c = Lt → Ascii.compare a c = Lt.
Proof. unfold Ascii.compare. rewrite !N.compare_lt_iff. lia. Qed.

Lemma string_compare_lt_trans a b c :
  String.compare a b = Lt → String.compare b c = Lt → String.compare a c = Lt.
Proof.
  revert b c. induction a as [|x a IH]; intros [|y b] [|z c]; simpl; try done.
  destruct (Ascii.compare x y) eqn:E1; try done; destruct (Ascii.compare y z) eqn:E2; try done.
  - apply Ascii.compare_eq_iff in E1 as ->, E2 as ->.
    unfold Ascii.compare. rewrite N.compare_refl. apply IH.
  - apply Ascii.compare_eq_iff in E1 as ->. by rewrite E2.
  - apply Ascii.compare_eq_iff in E2 as ->. by rewrite E1.
  - by rewrite (ascii_compare_trans_lt _ _ _ E1 E2).
Qed.

Lemma string_leb_total a b : String.leb a b = false → String.leb b a = true.
Proof.
  unfold String.leb. rewrite (String.compare_antisym b a). by destruct (String.compare a b).
Qed.

Lemma string_leb_trans a b c :
  String.leb a b = true → String.leb b c = true → String.leb a c = true.
Proof.
  unfold String.leb. destruct (String.compare a b) eqn:E1; try done;
    destruct (String.compare b c) eqn:E2; try done; intros _ _.
  - apply String.compare_eq_iff in E1 as ->. by rewrite E2.
  - apply String.compare_eq_iff in E1 as ->. by rewrite E2.
  - apply String.compare_eq_iff in E2 as ->. by rewrite E1.
  - by rewrite (string_compare_lt_trans _ _ _ E1 E2).
Qed.

Lemma str_app_assoc (a b c : string) : ((a +:+ b) +:+ c = a +:+ (b +:+ c))%string.
Proof. induction a as [|x a IH]; [done|]. exact (f_equal (String x) IH). Qed.

(** Sizes of finite sets of strings. *)
Lemma size_union_le (X Y : gset string) : (size (X ∪ Y) ≤ size X + size Y)%nat.
Proof. rewrite size_union_alt. pose proof (subseteq_size (Y ∖ X) Y). set_solver by lia. Qed.

Lemma size_list_to_set_le (l : list string) : (size (list_to_set l : gset string) ≤ length l)%nat.
Proof.
  induction l as [|x l IH]; [done|]. cbn [list_to_set length].
  pose proof (size_union_le {[x]} (list_to_set l)). rewrite size_singleton in *. lia.
Qed.

(** Python slicing [xs[offset : offset + limit]] with non-negative bounds. *)
Definition page_slice {A} (offset limit : Z) (l : list A) : list A :=
  take (Z.to_nat limit) (drop (Z.to_nat offset) l).

(** * Automation *)

Create HintDb orditect.
#[export] Hint Resolve dset_NoDup ddel_NoDup dict_of_NoDup : orditect.
#[export] Hint Rewrite @dget_dset_eq @dget_dset_ne using done : orditect.

(** Case analysis on every [match]/[if] of the goal or of [H], closing the
    contradictory branches. *)
Ltac split_match :=
  repeat (case_match; simplify_eq/=; try done).

Ltac inv_ok H := unfold res_bind in H; repeat (case_match; simplify_eq/=; try done).

(** Decide a closed goal (membership of literals in literal lists) by
    evaluation. *)
Ltac by_compute := apply (bool_decide_unpack _); vm_compute; exact I.
