(* ===== verification/Mechanism.v ===== *)
(** The data contract of [packages/protocol]: the models of
    [protocol/models/*.py], the error taxonomy of [protocol/errors.py] and the
    executable merge and idempotency semantics of [protocol/mechanism.py]. *)
From S2P Require Import Prelude.
From stdpp Require Import prelude gmap strings list.
From Stdlib Require Import ZArith Lia.
Local Open Scope string_scope.
Local Open Scope list_scope.

(** * Errors (protocol/errors.py) *)
Inductive ContractError : Type :=
| UnsupportedCapabilityError
| ContentNotFoundError (key : string)
| SnapshotNotFoundError
| TerminalStateViolationError
| IdempotencyConflictError
| InvalidQueryError.

#[global] Instance ContractError_eq_dec : EqDecision ContractError.
Proof. solve_decision. Defined.

(** * Models (protocol/models) *)

(** TaskPointer (models/pointer.py). *)
Record TaskPointer := mkPointer {
  tp_backend : string;
  tp_key : string;
  tp_metadata : option row;
}.

(** TaskSnapshot (models/snapshot.py); cost values are float bit patterns,
    instants are microseconds since the epoch. *)
Record TaskSnapshot := mkSnapshot {
  ts_task_id : string;
  ts_step : string;
  ts_execution_id : string;
  ts_parent_task_id : option string;
  ts_status : string;
  ts_input_pointer : option TaskPointer;
  ts_output_pointer : option TaskPointer;
  ts_error : option string;
  ts_cost : option (gmap string Z);
  ts_model : option string;
  ts_created_at : Z;
  ts_updated_at : Z;
  ts_expire_at : option Z;
}.

(** AuditEvent (models/audit.py). *)
Record AuditEvent := mkAudit {
  ae_event_id : string;
  ae_task_id : string;
  ae_scope : option string;
  ae_event_type : string;
  ae_source : string;
  ae_payload : row;
  ae_created_at : Z;
}.

(** DependencyEdge / DependencyGraph (models/edge.py). *)
Record DependencyEdge := mkEdge {
  de_child_id : string;
  de_parent_id : string;
  de_is_primary : bool;
  de_registered_at : Z;
}.

Record DependencyGraph := mkGraph {
  dg_root_task_id : string;
  dg_task_ids : list string;
  dg_edges : list DependencyEdge;
}.

(** Query parameters (models/query.py). *)
Inductive SortDirection := ASC | DESC.
Record Page := mkPage { pg_limit : Z; pg_offset : Z }.
Record Sort := mkSort { so_field : string; so_direction : SortDirection }.
Record TimeRange := mkRange { tr_start : option Z; tr_end : option Z }.

Definition default_page : Page := mkPage 100 0.
Definition default_sort : Sort := mkSort "created_at" DESC.

#[global] Instance TaskPointer_eq_dec : EqDecision TaskPointer.
Proof. solve_decision. Defined.
#[global] Instance TaskSnapshot_eq_dec : EqDecision TaskSnapshot.
Proof. solve_decision. Defined.
#[global] Instance AuditEvent_eq_dec : EqDecision AuditEvent.
Proof. solve_decision. Defined.
#[global] Instance DependencyEdge_eq_dec : EqDecision DependencyEdge.
Proof. solve_decision. Defined.
#[global] Instance SortDirection_eq_dec : EqDecision SortDirection.
Proof. solve_decision. Defined.

(** * Dict forms of the models: [model_dump()] keeps every field, [None]
    included; [model_validate] fills absent fields with their defaults. *)

Definition jopt {A} (f : A → json) (o : option A) : json :=
  match o with Some a => f a | None => JNull end.

Definition pointer_dump (p : TaskPointer) : json :=
  JObj (<["backend" := JStr (tp_backend p)]>
       (<["key" := JStr (tp_key p)]>
       {["metadata" := jopt JObj (tp_metadata p)]})).

Definition audit_dump (e : AuditEvent) : row :=
  <["event_id" := JStr (ae_event_id e)]>
  (<["task_id" := JStr (ae_task_id e)]>
  (<["scope" := jopt JStr (ae_scope e)]>
  (<["event_type" := JStr (ae_event_type e)]>
  (<["source" := JStr (ae_source e)]>
  (<["payload" := JObj (ae_payload e)]>
  {["created_at" := JTime (ae_created_at e)]}))))).

(** Readers of one field of a dict: required string, optional string, ... *)
Definition fld_str (r : row) (k : string) : option string :=
  match r !! k with Some (JStr s) => Some s | _ => None end.

Definition fld_opt {A} (f : json → option A) (r : row) (k : string) : option (option A) :=
  match r !! k with
  | None | Some JNull => Some None
  | Some j => match f j with Some a => Some (Some a) | None => None end
  end.

Definition as_str (j : json) : option string :=
  match j with JStr s => Some s | _ => None end.
Definition as_time (j : json) : option Z :=
  match j with JTime t => Some t | _ => None end.
Definition as_float (j : json) : option Z :=
  match j with JFloat z => Some z | _ => None end.
Definition as_obj (j : json) : option row :=
  match j with JObj m => Some m | _ => None end.

Definition as_pointer (j : json) : option TaskPointer :=
  m ← as_obj j; b ← fld_str m "backend"; k ← fld_str m "key";
  meta ← fld_opt as_obj m "metadata"; Some (mkPointer b k meta).

Definition as_cost (j : json) : option (gmap string Z) :=
  match j with
  | JObj m =>
      if decide (map_Forall (λ (_ : string) v, is_Some (as_float v)) m)
      then Some (omap as_float m) else None
  | _ => None
  end.

Definition with_default {A} (d : A) (o : option A) : A :=
  match o with Some a => a | None => d end.

(** * mechanism.py: contract tables *)

Definition SORT_FIELDS_audit : list string := ["created_at"; "event_id"].
Definition SORT_FIELDS_snapshot : list string := ["created_at"; "updated_at"; "expire_at"].
Definition GROUP_BY_FIELDS_snapshot : list string := ["status"; "model"].
Definition IDEMPOTENCY_EXCLUDED_FIELDS : list string :=
  ["created_at"; "updated_at"; "registered_at"].
Definition SNAPSHOT_MERGE_FIELDS : list string :=
  ["parent_task_id"; "input_pointer"; "output_pointer"; "error"; "cost"; "model"; "expire_at"].

(** * mechanism.py: idempotent_payload_equal *)

Definition strip (d : row) : row :=
  filter (λ kv, kv.1 ∉ IDEMPOTENCY_EXCLUDED_FIELDS) d.

Definition idempotent_payload_equal (a b : row) : bool :=
  bool_decide (strip a = strip b).

(** * mechanism.py: fold_snapshot_rows *)

Definition drop_none (r : row) : row := filter (λ kv, kv.2 ≠ JNull) r.

Definition merge_field (r : row) (record : row) (field : string) : row :=
  match r !! field with
  | Some v => if decide (v = JNull) then record else <[field := v]> record
  | None => record
  end.

Definition merge_row (record : row) (r : row) : row :=
  let record := fold_left (merge_field r) SNAPSHOT_MERGE_FIELDS record in
  let record :=
    match r !! "status" with
    | Some s => if truthy s then <["status" := s]> record else record
    | None => record
    end in
  match r !! "updated_at" with
  | Some v => if decide (v = JNull) then record else <["updated_at" := v]> record
  | None => record
  end.

Definition fold_snapshot_rows (rows : list row) : option row :=
  match rows with
  | [] => None
  | r0 :: rest => Some (fold_left merge_row rest (drop_none r0))
  end.

(** * Lemmas *)

(** What a later row contributes to key [k] of the record. *)
Definition override (r : row) (k : string) : option json :=
  if decide (k = "status") then
    match r !! k with Some s => if truthy s then Some s else None | None => None end
  else if decide (k ∈ "updated_at" :: SNAPSHOT_MERGE_FIELDS) then
    match r !! k with
    | Some v => if decide (v = JNull) then None else Some v
    | None => None
    end
  else None.

Definition or_else {A} (o : option A) (d : option A) : option A :=
  match o with Some _ => o | None => d end.

Lemma lookup_merge_field r record f k :
  merge_field r record f !! k =
  if decide (k = f)
  then or_else (match r !! f with
                | Some v => if decide (v = JNull) then None else Some v
                | None => None end) (record !! k)
  else record !! k.
Proof.
  unfold merge_field. case_decide as Hk; [subst k|].
  - repeat case_match; simplify_map_eq; done.
  - repeat case_match; simplify_map_eq; done.
Qed.

Lemma lookup_merge_fields r fs record k :
  fold_left (merge_field r) fs record !! k =
  if decide (k ∈ fs)
  then or_else (match r !! k with
                | Some v => if decide (v = JNull) then None else Some v
                | None => None end) (record !! k)
  else record !! k.
Proof.
  revert record. induction fs as [|f fs IH]; intros record.
  - by rewrite decide_False by set_solver.
  - cbn [fold_left]. rewrite IH, lookup_merge_field.
    destruct (decide (k = f)) as [->|Hne].
    + rewrite (decide_True (P:=f ∈ f :: fs)) by set_solver.
      destruct (decide (f ∈ fs)); [|done].
      unfold or_else. repeat case_match; done.
    + destruct (decide (k ∈ fs)).
      * by rewrite decide_True by set_solver.
      * by rewrite decide_False by set_solver.
Qed.

(** One merge step, key by key. *)
Lemma lookup_merge_row record r k :
  merge_row record r !! k = or_else (override r k) (record !! k).
Proof.
  unfold merge_row, override.
  set (rec1 := fold_left _ _ _).
  assert (Hs : (match r !! "status" with
                | Some s => if truthy s then <["status" := s]> rec1 else rec1
                | None => rec1 end) !! k
     = or_else (if decide (k = "status") then
                  match r !! k with
                  | Some s => if truthy s then Some s else None | None => None end
                else None) (rec1 !! k)).
  { destruct (decide (k = "status")) as [->|]; repeat case_match; simplify_map_eq; done. }
  assert (H1 : rec1 !! k = _) by apply lookup_merge_fields.
  destruct (decide (k = "updated_at")) as [->|Hu].
  - rewrite decide_False by done. rewrite decide_True by set_solver.
    rewrite decide_False in Hs by done. rewrite decide_False in H1 by set_solver.
    simpl in Hs. repeat case_match; simplify_map_eq; rewrite ?Hs, ?H1; done.
  - trans ((match r !! "status" with
            | Some s => if truthy s then <["status" := s]> rec1 else rec1
            | None => rec1 end) !! k).
    { destruct (r !! "updated_at") as [j|]; [|done]. destruct (decide (j = JNull)); [done|]. by rewrite lookup_insert_ne by congruence. }
    rewrite Hs, H1. destruct (decide (k = "status")) as [->|].
    + rewrite decide_False by set_solver. done.
    + destruct (decide (k ∈ SNAPSHOT_MERGE_FIELDS)).
      * by rewrite decide_True by set_solver.
      * by rewrite decide_False by set_solver.
Qed.

(** The last element of a list of optional contributions. *)
Definition last_some {A B} (f : A → option B) (l : list A) : option B :=
  fold_left (λ acc a, or_else (f a) acc) l None.

Lemma fold_or_else {A B} (f : A → option B) l d :
  fold_left (λ acc a, or_else (f a) acc) l d = or_else (last_some f l) d.
Proof.
  unfold last_some. induction l as [|a l IH] using rev_ind; [done|].
  rewrite !fold_left_app. simpl. rewrite IH. unfold or_else. by destruct (f a).
Qed.

Lemma last_some_snoc {A B} (f : A → option B) l a :
  last_some f (l ++ [a]) = or_else (f a) (last_some f l).
Proof. unfold last_some. by rewrite fold_left_app. Qed.

Lemma lookup_fold_merge rs record k :
  fold_left merge_row rs record !! k = or_else (last_some (λ r, override r k) rs) (record !! k).
Proof.
  rewrite <- fold_or_else. revert record.
  induction rs as [|r rs IH]; intros record; simpl; [done|].
  rewrite IH. by rewrite lookup_merge_row.
Qed.

Definition no_null (r : row) : Prop := map_Forall (λ _ v, v ≠ JNull) r.

Lemma override_not_null r k v : override r k = Some v → v ≠ JNull.
Proof. unfold override. repeat case_match; intros; simplify_eq; try done. by intros ->. Qed.

Lemma no_null_drop_none r : no_null (drop_none r).
Proof. intros k v [_ H]%map_lookup_filter_Some. done. Qed.

Lemma drop_none_id r : no_null r → drop_none r = r.
Proof. intros H. apply map_filter_id. exact H. Qed.

Lemma no_null_merge_row record r : no_null record → no_null (merge_row record r).
Proof.
  intros H k v. rewrite lookup_merge_row. unfold or_else.
  destruct (override r k) eqn:E; intros; simplify_eq.
  - by eapply override_not_null.
  - by eapply H.
Qed.

Lemma no_null_fold rs record : no_null record → no_null (fold_left merge_row rs record).
Proof. revert record. induction rs; simpl; auto using no_null_merge_row. Qed.

Lemma fold_no_null rows record : fold_snapshot_rows rows = Some record → no_null record.
Proof.
  destruct rows as [|r0 rs]; simpl; intros; simplify_eq.
  apply no_null_fold, no_null_drop_none.
Qed.
#[export] Hint Resolve fold_no_null no_null_merge_row no_null_drop_none : orditect.

Lemma fold_snapshot_rows_snoc rows r record :
  fold_snapshot_rows rows = Some record →
  fold_snapshot_rows (rows ++ [r]) = Some (merge_row record r).
Proof.
  destruct rows as [|r0 rs]; simpl; intros; simplify_eq.
  by rewrite fold_left_app.
Qed.

Lemma lookup_strip a k :
  strip a !! k = if decide (k ∈ IDEMPOTENCY_EXCLUDED_FIELDS) then None else a !! k.
Proof.
  unfold strip. rewrite map_lookup_filter.
  destruct (a !! k) as [v|]; simpl; destruct (decide (k ∈ IDEMPOTENCY_EXCLUDED_FIELDS)); simpl.
  - by rewrite option_guard_False by (simpl; naive_solver).
  - by rewrite option_guard_True by done.
  - done.
  - done.
Qed.

(** * Properties *)

Definition nonempty_status (r : row) : option json :=
  match r !! "status" with Some s => if truthy s then Some s else None | None => None end.
Definition present (k : string) (r : row) : option json :=
  match r !! k with Some v => if decide (v = JNull) then None else Some v | None => None end.

(** The record rebuilt from one generation's rows has, as its status, the
    last non-empty status (the first row's when no later row has one); as its
    creation instant, the first row's; as its update instant and as every
    merge field, the last non-None value; any other field is the first row's.
    An empty status never regresses the record and [None] never erases. *)
Theorem fold_snapshot_rows_spec (r0 : row) (rs : list row) :
  ∃ record, fold_snapshot_rows (r0 :: rs) = Some record
  ∧ record !! "status" = or_else (last_some nonempty_status rs) (present "status" r0)
  ∧ record !! "created_at" = present "created_at" r0
  ∧ record !! "updated_at" = or_else (last_some (present "updated_at") rs) (present "updated_at" r0)
  ∧ (∀ f, f ∈ SNAPSHOT_MERGE_FIELDS →
       record !! f = or_else (last_some (present f) rs) (present f r0))
  ∧ (∀ f, f ∉ "status" :: "updated_at" :: SNAPSHOT_MERGE_FIELDS →
       record !! f = present f r0).
Proof.
  eexists; split; [done|].
  assert (Hd : ∀ k, drop_none r0 !! k = present k r0).
  { intros k. unfold drop_none, present. rewrite map_lookup_filter.
    destruct (r0 !! k) as [v|]; simpl; [|done].
    destruct (decide (v = JNull)); [by rewrite option_guard_False by naive_solver|].
    by rewrite option_guard_True. }
  assert (Hl : ∀ k f, (∀ r, override r k = f r) →
    fold_left merge_row rs (drop_none r0) !! k = or_else (last_some f rs) (present k r0)).
  { intros k f Hf. rewrite lookup_fold_merge, Hd. f_equal. unfold last_some.
    clear -Hf. generalize (@None json) as d.
    induction rs as [|r rs IH]; intros d; simpl; [done|]. by rewrite Hf. }
  assert (Hn : ∀ k, (∀ r, override r k = None) →
    fold_left merge_row rs (drop_none r0) !! k = present k r0).
  { intros k Hk. rewrite (Hl k (λ _, None)) by done. clear.
    by induction rs as [|r rs IH] using rev_ind; [|rewrite last_some_snoc]. }
  repeat split; [apply Hl|apply Hn|apply Hl|intros f Hf; apply Hl|intros f Hf; apply Hn];
    intros r; unfold override, nonempty_status, present.
  - done.
  - done.
  - by rewrite decide_False, decide_True by set_solver.
  - rewrite decide_False by set_solver. by rewrite decide_True by set_solver.
  - rewrite decide_False by set_solver. by rewrite decide_False by set_solver.
Qed.

(** Folding the materialised record of a generation with one more row is
    folding the whole row stream: a store may keep the merged record and
    apply rows one at a time. *)
Theorem fold_incremental (rows : list row) (record r : row)
  (Hrec : fold_snapshot_rows rows = Some record) :
  fold_snapshot_rows [record; r] = fold_snapshot_rows (rows ++ [r]).
Proof.
  rewrite (fold_snapshot_rows_snoc _ _ _ Hrec). simpl.
  rewrite drop_none_id; [done|]. eauto with orditect.
Qed.

Lemma fold_incremental_witness :
  fold_snapshot_rows [ {["status" := JStr "running"]}; {["status" := JStr ""]} ]
  = fold_snapshot_rows ([ {["status" := JStr "running"]} ] ++ [ {["status" := JStr ""]} ]).
Proof.
  apply (fold_incremental [ {["status" := JStr "running"]} ] {["status" := JStr "running"]}).
  vm_compute. reflexivity.
Defined.

(** Two payloads are the same write exactly when they agree on every field
    that is not a producer clock (created_at, updated_at, registered_at). *)
Theorem idempotent_payload_equal_spec (a b : row) :
  idempotent_payload_equal a b = true ↔
  ∀ k, k ∉ ["created_at"; "updated_at"; "registered_at"] → a !! k = b !! k.
Proof.
  unfold idempotent_payload_equal. rewrite bool_decide_eq_true. split.
  - intros Heq k Hk. assert (strip a !! k = strip b !! k) as H by by rewrite Heq.
    rewrite !lookup_strip in H. by rewrite !decide_False in H by done.
  - intros H. apply map_eq. intros k. rewrite !lookup_strip.
    destruct (decide (k ∈ IDEMPOTENCY_EXCLUDED_FIELDS)); [done|]. by apply H.
Qed.
