(* ===== verification/SnapshotModel.v ===== *)
(** TaskSnapshot as a typed record and as a dict: [model_validate] inverts
    [model_dump], and the dict-level merge of [fold_snapshot_rows] is a
    field-by-field merge of the typed records. Both snapshot adapters use
    these facts. *)
From S2P Require Import Prelude Mechanism.
From stdpp Require Import prelude gmap strings list.
From Stdlib Require Import ZArith Lia.
Local Open Scope string_scope.
Local Open Scope list_scope.

Abbreviation snapshot_key := (string * string * string)%type.

Definition snap_key (s : TaskSnapshot) : snapshot_key :=
  (ts_task_id s, ts_step s, ts_execution_id s).

(** Typed merge of a later row into a record of the same generation. *)
Definition merge_snapshot (e s : TaskSnapshot) : TaskSnapshot := {|
  ts_task_id := ts_task_id e;
  ts_step := ts_step e;
  ts_execution_id := ts_execution_id e;
  ts_parent_task_id := or_else (ts_parent_task_id s) (ts_parent_task_id e);
  ts_status := if decide (ts_status s = "") then ts_status e else ts_status s;
  ts_input_pointer := or_else (ts_input_pointer s) (ts_input_pointer e);
  ts_output_pointer := or_else (ts_output_pointer s) (ts_output_pointer e);
  ts_error := or_else (ts_error s) (ts_error e);
  ts_cost := or_else (ts_cost s) (ts_cost e);
  ts_model := or_else (ts_model s) (ts_model e);
  ts_created_at := ts_created_at e;
  ts_updated_at := ts_updated_at s;
  ts_expire_at := or_else (ts_expire_at s) (ts_expire_at e);
|}.

(** The keys of a dumped snapshot. *)
Definition snapshot_fields : list string :=
  ["task_id"; "step"; "execution_id"; "parent_task_id"; "status"; "input_pointer";
   "output_pointer"; "error"; "cost"; "model"; "created_at"; "updated_at"; "expire_at"].

(** How a snapshot is written as a dict: [model_dump()] keeps datetimes and
    full pointers, [to_payload()] (JSON mode) writes ISO strings and compact
    pointers; validation reads either form back. *)
Class SnapshotCodec := {
  enc_time : Z → json;
  enc_pointer : TaskPointer → json;
  dec_time : json → option Z;
  dec_enc_time : ∀ t, dec_time (enc_time t) = Some t;
  enc_time_null : ∀ t, enc_time t ≠ JNull;
  as_enc_pointer : ∀ p, as_pointer (enc_pointer p) = Some p;
  enc_pointer_null : ∀ p, enc_pointer p ≠ JNull;
}.

Definition snapshot_dict `{SnapshotCodec} (s : TaskSnapshot) : row :=
  <["task_id" := JStr (ts_task_id s)]>
  (<["step" := JStr (ts_step s)]>
  (<["execution_id" := JStr (ts_execution_id s)]>
  (<["parent_task_id" := jopt JStr (ts_parent_task_id s)]>
  (<["status" := JStr (ts_status s)]>
  (<["input_pointer" := jopt enc_pointer (ts_input_pointer s)]>
  (<["output_pointer" := jopt enc_pointer (ts_output_pointer s)]>
  (<["error" := jopt JStr (ts_error s)]>
  (<["cost" := jopt (λ c, JObj (JFloat <$> c)) (ts_cost s)]>
  (<["model" := jopt JStr (ts_model s)]>
  (<["created_at" := enc_time (ts_created_at s)]>
  (<["updated_at" := enc_time (ts_updated_at s)]>
  {["expire_at" := jopt enc_time (ts_expire_at s)]}))))))))))).

(** TaskSnapshot.model_validate(record); [now] is the default_factory clock. *)
Definition snapshot_validate_with `{SnapshotCodec} (now : Z) (r : row) : option TaskSnapshot :=
  tid ← fld_str r "task_id"; step ← fld_str r "step"; eid ← fld_str r "execution_id";
  parent ← fld_opt as_str r "parent_task_id";
  status ← (match r !! "status" with None => Some "" | Some j => as_str j end);
  inp ← fld_opt as_pointer r "input_pointer";
  out ← fld_opt as_pointer r "output_pointer";
  err ← fld_opt as_str r "error";
  cost ← fld_opt as_cost r "cost";
  model ← fld_opt as_str r "model";
  created ← (match r !! "created_at" with None => Some now | Some j => dec_time j end);
  updated ← (match r !! "updated_at" with None => Some now | Some j => dec_time j end);
  expire ← fld_opt dec_time r "expire_at";
  Some (mkSnapshot tid step eid parent status inp out err cost model created updated expire).

Lemma as_pointer_dump p : as_pointer (pointer_dump p) = Some p.
Proof.
  destruct p as [b k m]. unfold as_pointer, pointer_dump. simpl.
  unfold fld_str, fld_opt. simplify_map_eq. by destruct m.
Qed.

Lemma JTime_null t : JTime t ≠ JNull.
Proof. done. Qed.

Lemma pointer_dump_null p : pointer_dump p ≠ JNull.
Proof. done. Qed.

(** [model_dump()] and [model_validate] on Python values. *)
Definition python_codec : SnapshotCodec := {|
  enc_time := JTime; enc_pointer := pointer_dump; dec_time := as_time;
  dec_enc_time t := eq_refl; enc_time_null := JTime_null;
  as_enc_pointer := as_pointer_dump; enc_pointer_null := pointer_dump_null;
|}.

Definition snapshot_dump (s : TaskSnapshot) : row := @snapshot_dict python_codec s.
Definition snapshot_validate (now : Z) (r : row) : option TaskSnapshot :=
  @snapshot_validate_with python_codec now r.

Section Codec.
Context `{C : SnapshotCodec}.

Lemma snapshot_dict_other s k : k ∉ snapshot_fields → snapshot_dict s !! k = None.
Proof.
  intros Hk. unfold snapshot_dict. apply not_elem_of_cons in Hk as [? Hk].
  repeat (apply not_elem_of_cons in Hk as [? Hk]).
  rewrite !lookup_insert_ne by congruence. by apply lookup_singleton_ne.
Qed.

Lemma snapshot_dict_total s k : k ∈ snapshot_fields → is_Some (snapshot_dict s !! k).
Proof.
  intros Hin. unfold snapshot_fields in Hin. unfold snapshot_dict.
  repeat (apply elem_of_cons in Hin as [->|Hin]; [eexists; by simplify_map_eq|]).
  by apply elem_of_nil in Hin.
Qed.

Lemma lookup_drop_none r k : drop_none r !! k = present k r.
Proof.
  unfold drop_none, present. rewrite map_lookup_filter.
  destruct (r !! k) as [v|]; simpl; [|done].
  destruct (decide (v = JNull)); [by rewrite option_guard_False by naive_solver|].
  by rewrite option_guard_True.
Qed.

Lemma present_jopt {A} (f : A → json) (o : option A) (r : row) k :
  (∀ a, f a ≠ JNull) → r !! k = Some (jopt f o) → present k r = f <$> o.
Proof.
  intros Hf Hk. unfold present. rewrite Hk. destruct o as [a|]; simpl.
  - by rewrite decide_False by apply Hf.
  - done.
Qed.

Lemma present_Some_intro (r : row) k v : v ≠ JNull → r !! k = Some v → present k r = Some v.
Proof. intros Hv Hk. unfold present. rewrite Hk. by rewrite decide_False. Qed.

Lemma as_cost_dump (c : gmap string Z) : as_cost (JObj (JFloat <$> c)) = Some c.
Proof.
  unfold as_cost. rewrite decide_True.
  - f_equal. apply map_eq. intros k. rewrite lookup_omap, lookup_fmap.
    by destruct (c !! k).
  - intros k v. rewrite lookup_fmap. intros (z & _ & ->)%fmap_Some. by eexists.
Qed.

Lemma present_Some k r v : present k r = Some v → r !! k = Some v.
Proof. unfold present. repeat case_match; naive_solver. Qed.

Lemma present_None k r : present k r = None → r !! k = None ∨ r !! k = Some JNull.
Proof. unfold present. repeat case_match; naive_solver. Qed.

Lemma fld_opt_present {A} (f : json → option A) (g : A → json) (o : option A) (r : row) k :
  (∀ a, f (g a) = Some a) → (∀ a, g a ≠ JNull) → present k r = g <$> o →
  fld_opt f r k = Some o.
Proof.
  intros Hf Hg Hk. unfold fld_opt. destruct o as [a|]; simpl in Hk.
  - rewrite (present_Some _ _ _ Hk). specialize (Hf a). specialize (Hg a).
    destruct (g a); simpl in *; try done; by rewrite Hf.
  - by destruct (present_None _ _ Hk) as [-> | ->].
Qed.

(** The fields of the dump that are present (not [None]), one by one. *)
Lemma snapshot_dict_present s :
  present "task_id" (snapshot_dict s) = Some (JStr (ts_task_id s))
  ∧ present "step" (snapshot_dict s) = Some (JStr (ts_step s))
  ∧ present "execution_id" (snapshot_dict s) = Some (JStr (ts_execution_id s))
  ∧ present "parent_task_id" (snapshot_dict s) = JStr <$> ts_parent_task_id s
  ∧ present "status" (snapshot_dict s) = Some (JStr (ts_status s))
  ∧ present "input_pointer" (snapshot_dict s) = enc_pointer <$> ts_input_pointer s
  ∧ present "output_pointer" (snapshot_dict s) = enc_pointer <$> ts_output_pointer s
  ∧ present "error" (snapshot_dict s) = JStr <$> ts_error s
  ∧ present "cost" (snapshot_dict s) = (λ c, JObj (JFloat <$> c)) <$> ts_cost s
  ∧ present "model" (snapshot_dict s) = JStr <$> ts_model s
  ∧ present "created_at" (snapshot_dict s) = Some (enc_time (ts_created_at s))
  ∧ present "updated_at" (snapshot_dict s) = Some (enc_time (ts_updated_at s))
  ∧ present "expire_at" (snapshot_dict s) = enc_time <$> ts_expire_at s.
Proof.
  unfold snapshot_dict. repeat split;
    first [ apply present_jopt; [first [done|apply enc_time_null|apply enc_pointer_null]
                                |by simplify_map_eq]
          | apply present_Some_intro; [first [done|apply enc_time_null]|by simplify_map_eq] ].
Qed.

(** [TaskSnapshot.model_validate] reads back the compact dump. *)
Lemma snapshot_validate_present now (r : row) s :
  (∀ k, present k r = present k (snapshot_dict s)) → snapshot_validate_with now r = Some s.
Proof.
  intros Hl. unfold snapshot_validate_with, fld_str.
  destruct (snapshot_dict_present s)
    as (H1 & H2 & H3 & H4 & H5 & H6 & H7 & H8 & H9 & H10 & H11 & H12 & H13).
  rewrite <- Hl in *. apply present_Some in H1, H2, H3, H5, H11, H12.
  rewrite H1; simpl. rewrite H2; simpl. rewrite H3; simpl.
  rewrite (fld_opt_present as_str JStr _ _ _ ltac:(done) ltac:(done) H4); simpl.
  rewrite H5; simpl.
  rewrite (fld_opt_present _ _ _ _ _ as_enc_pointer enc_pointer_null H6); simpl.
  rewrite (fld_opt_present _ _ _ _ _ as_enc_pointer enc_pointer_null H7); simpl.
  rewrite (fld_opt_present as_str JStr _ _ _ ltac:(done) ltac:(done) H8); simpl.
  rewrite (fld_opt_present _ _ _ _ _ as_cost_dump ltac:(done) H9); simpl.
  rewrite (fld_opt_present as_str JStr _ _ _ ltac:(done) ltac:(done) H10); simpl.
  rewrite H11; simpl. rewrite dec_enc_time; simpl. rewrite H12; simpl.
  rewrite dec_enc_time; simpl.
  rewrite (fld_opt_present _ _ _ _ _ dec_enc_time enc_time_null H13); simpl.
  by destruct s.
Qed.

Lemma no_null_present (r : row) k o : no_null r → r !! k = o → present k r = o.
Proof.
  intros Hn <-. unfold present. destruct (r !! k) as [v|] eqn:E; [|done].
  destruct (decide (v = JNull)) as [->|]; [|done]. by apply Hn in E.
Qed.

Lemma snapshot_validate_compact now s :
  snapshot_validate_with now (drop_none (snapshot_dict s)) = Some s.
Proof.
  apply snapshot_validate_present. intros k.
  apply no_null_present; [apply no_null_drop_none|apply lookup_drop_none].
Qed.

Local Opaque snapshot_dict.

Lemma override_field r k :
  k ∈ "updated_at" :: SNAPSHOT_MERGE_FIELDS → override r k = present k r.
Proof.
  intros Hk. unfold override, present.
  rewrite decide_False by set_solver. by rewrite decide_True.
Qed.

Lemma override_none r k :
  k ∉ "status" :: "updated_at" :: SNAPSHOT_MERGE_FIELDS → override r k = None.
Proof.
  intros Hk. unfold override. rewrite decide_False by set_solver.
  by rewrite decide_False by set_solver.
Qed.

Lemma override_status_dict s :
  override (snapshot_dict s) "status"
  = if decide (ts_status s = "") then None else Some (JStr (ts_status s)).
Proof.
  unfold override. rewrite decide_True by done.
  assert (H : snapshot_dict s !! "status" = Some (JStr (ts_status s)))
    by (pose proof (snapshot_dict_present s) as (_ & _ & _ & _ & H & _);
        unfold present in H; by repeat case_match; simplify_eq).
  rewrite H. simpl. case_bool_decide; case_decide; naive_solver.
Qed.

Lemma or_else_fmap {A B} (f : A → B) o1 o2 :
  or_else (f <$> o1) (f <$> o2) = f <$> or_else o1 o2.
Proof. by destruct o1. Qed.

(** Dict-level merge = typed merge. *)
Lemma merge_row_dict e s k :
  merge_row (drop_none (snapshot_dict e)) (snapshot_dict s) !! k
  = present k (snapshot_dict (merge_snapshot e s)).
Proof.
  rewrite lookup_merge_row, lookup_drop_none.
  destruct (snapshot_dict_present e)
    as (E1 & E2 & E3 & E4 & E5 & E6 & E7 & E8 & E9 & E10 & E11 & E12 & E13).
  destruct (snapshot_dict_present s)
    as (_ & _ & _ & S4 & _ & S6 & S7 & S8 & S9 & S10 & _ & S12 & S13).
  destruct (snapshot_dict_present (merge_snapshot e s))
    as (M1 & M2 & M3 & M4 & M5 & M6 & M7 & M8 & M9 & M10 & M11 & M12 & M13).
  destruct (decide (k ∈ snapshot_fields)) as [Hin|Hout].
  - unfold snapshot_fields in Hin.
    apply elem_of_cons in Hin as [->|Hin]; [rewrite override_none by by_compute; by rewrite E1, M1|].
    apply elem_of_cons in Hin as [->|Hin]; [rewrite override_none by by_compute; by rewrite E2, M2|].
    apply elem_of_cons in Hin as [->|Hin]; [rewrite override_none by by_compute; by rewrite E3, M3|].
    apply elem_of_cons in Hin as [->|Hin];
      [rewrite override_field, S4, E4, M4 by by_compute; apply or_else_fmap|].
    apply elem_of_cons in Hin as [->|Hin];
      [rewrite override_status_dict, E5, M5; simpl; by case_decide|].
    apply elem_of_cons in Hin as [->|Hin];
      [rewrite override_field, S6, E6, M6 by by_compute; apply or_else_fmap|].
    apply elem_of_cons in Hin as [->|Hin];
      [rewrite override_field, S7, E7, M7 by by_compute; apply or_else_fmap|].
    apply elem_of_cons in Hin as [->|Hin];
      [rewrite override_field, S8, E8, M8 by by_compute; apply or_else_fmap|].
    apply elem_of_cons in Hin as [->|Hin];
      [rewrite override_field, S9, E9, M9 by by_compute; apply or_else_fmap|].
    apply elem_of_cons in Hin as [->|Hin];
      [rewrite override_field, S10, E10, M10 by by_compute; apply or_else_fmap|].
    apply elem_of_cons in Hin as [->|Hin]; [rewrite override_none by by_compute; by rewrite E11, M11|].
    apply elem_of_cons in Hin as [->|Hin]; [by rewrite override_field, S12, M12 by by_compute|].
    apply elem_of_cons in Hin as [->|Hin];
      [rewrite override_field, S13, E13, M13 by by_compute; apply or_else_fmap|].
    by apply elem_of_nil in Hin.
  - rewrite override_none by (contradict Hout; revert Hout; clear; unfold snapshot_fields,
      SNAPSHOT_MERGE_FIELDS; set_solver).
    unfold present. by rewrite !snapshot_dict_other.
Qed.

(** Re-materialisation of a generation. *)
Lemma dict_fold_merge now e s :
  (r ← fold_snapshot_rows [snapshot_dict e; snapshot_dict s]; snapshot_validate_with now r)
  = Some (merge_snapshot e s).
Proof.
  simpl. apply snapshot_validate_present. intros k.
  apply no_null_present; [|apply merge_row_dict].
  apply no_null_merge_row, no_null_drop_none.
Qed.

Lemma merge_snapshot_key e s : snap_key (merge_snapshot e s) = snap_key e.
Proof. done. Qed.

(** Equal payloads (clocks aside) are equal field by field. *)
Lemma idempotent_dict_present a b k :
  idempotent_payload_equal (snapshot_dict a) (snapshot_dict b) = true →
  k ∉ IDEMPOTENCY_EXCLUDED_FIELDS → present k (snapshot_dict a) = present k (snapshot_dict b).
Proof.
  unfold idempotent_payload_equal. rewrite bool_decide_eq_true. intros Heq Hk.
  assert (H : strip (snapshot_dict a) !! k = strip (snapshot_dict b) !! k) by by rewrite Heq.
  rewrite !lookup_strip, !decide_False in H by done. unfold present. by rewrite H.
Qed.

Lemma idempotent_dict_status a b :
  idempotent_payload_equal (snapshot_dict a) (snapshot_dict b) = true →
  ts_status a = ts_status b.
Proof.
  intros H. apply (idempotent_dict_present _ _ "status") in H; [|by_compute].
  destruct (snapshot_dict_present a) as (_ & _ & _ & _ & Ha & _).
  destruct (snapshot_dict_present b) as (_ & _ & _ & _ & Hb & _). congruence.
Qed.

(** [set_clocks]: the same content reported with other producer clocks. *)
Definition set_clocks (created updated : Z) (s : TaskSnapshot) : TaskSnapshot :=
  mkSnapshot (ts_task_id s) (ts_step s) (ts_execution_id s) (ts_parent_task_id s)
    (ts_status s) (ts_input_pointer s) (ts_output_pointer s) (ts_error s) (ts_cost s)
    (ts_model s) created updated (ts_expire_at s).

Lemma JStr_fmap_inj (o1 o2 : option string) : JStr <$> o1 = JStr <$> o2 → o1 = o2.
Proof. destruct o1, o2; naive_solver. Qed.

Lemma enc_time_inj (o1 o2 : option Z) : enc_time <$> o1 = enc_time <$> o2 → o1 = o2.
Proof.
  intros H. apply (f_equal (λ o, o ≫= dec_time)) in H.
  destruct o1 as [p|], o2 as [q|]; cbn [fmap option_fmap option_map mbind option_bind] in H;
    rewrite ?dec_enc_time in H; done.
Qed.

Lemma enc_pointer_inj (o1 o2 : option TaskPointer) :
  enc_pointer <$> o1 = enc_pointer <$> o2 → o1 = o2.
Proof.
  intros H. apply (f_equal (λ o, o ≫= as_pointer)) in H.
  destruct o1 as [p|], o2 as [q|]; cbn [fmap option_fmap option_map mbind option_bind] in H;
    rewrite ?as_enc_pointer in H; done.
Qed.

Lemma cost_dump_inj (o1 o2 : option (gmap string Z)) :
  (λ c, JObj (JFloat <$> c)) <$> o1 = (λ c, JObj (JFloat <$> c)) <$> o2 → o1 = o2.
Proof.
  intros H. apply (f_equal (λ o, o ≫= as_cost)) in H.
  destruct o1 as [p|], o2 as [q|]; cbn [fmap option_fmap option_map mbind option_bind] in H;
    rewrite ?as_cost_dump in H; done.
Qed.

(** The idempotency test on typed snapshots: equal up to the two clocks. *)
Lemma idempotent_dict_iff a b :
  idempotent_payload_equal (snapshot_dict a) (snapshot_dict b) = true ↔
  b = set_clocks (ts_created_at b) (ts_updated_at b) a.
Proof.
  split.
  - intros H.
    assert (Hk : ∀ k, k ∉ IDEMPOTENCY_EXCLUDED_FIELDS → present k (snapshot_dict a) =
      present k (snapshot_dict b)) by (intros; by apply idempotent_dict_present).
    destruct (snapshot_dict_present a)
      as (E1 & E2 & E3 & E4 & E5 & E6 & E7 & E8 & E9 & E10 & _ & _ & E13).
    destruct (snapshot_dict_present b)
      as (S1 & S2 & S3 & S4 & S5 & S6 & S7 & S8 & S9 & S10 & _ & _ & S13).
    rewrite Hk, S1 in E1 by by_compute. rewrite Hk, S2 in E2 by by_compute.
    rewrite Hk, S3 in E3 by by_compute. rewrite Hk, S4 in E4 by by_compute.
    rewrite Hk, S5 in E5 by by_compute. rewrite Hk, S6 in E6 by by_compute.
    rewrite Hk, S7 in E7 by by_compute. rewrite Hk, S8 in E8 by by_compute.
    rewrite Hk, S9 in E9 by by_compute. rewrite Hk, S10 in E10 by by_compute.
    rewrite Hk, S13 in E13 by by_compute.
    apply JStr_fmap_inj in E4, E8, E10. apply enc_pointer_inj in E6, E7.
    apply cost_dump_inj in E9. apply enc_time_inj in E13. clear Hk H.
    apply (inj Some) in E1, E2, E3, E5. injection E1 as E1. injection E2 as E2.
    injection E3 as E3. injection E5 as E5.
    clear S1 S2 S3 S4 S5 S6 S7 S8 S9 S10 S13.
    destruct a, b. unfold set_clocks. cbn in *. congruence.
  - intros ->. unfold idempotent_payload_equal. apply bool_decide_eq_true.
    apply map_eq. intros k. rewrite !lookup_strip.
    destruct (decide (k ∈ IDEMPOTENCY_EXCLUDED_FIELDS)) as [|Hk]; [done|].
    Local Transparent snapshot_dict. unfold snapshot_dict, set_clocks; simpl.
    apply not_elem_of_cons in Hk as [? Hk]. apply not_elem_of_cons in Hk as [? Hk].
    destruct (decide (k ∈ snapshot_fields)) as [Hin|Hout].
    + unfold snapshot_fields in Hin.
      repeat (apply elem_of_cons in Hin as [->|Hin]; [by simplify_map_eq|]).
      by apply elem_of_nil in Hin.
    + unfold snapshot_fields in Hout. repeat (apply not_elem_of_cons in Hout as [? Hout]).
      by rewrite !lookup_insert_ne by congruence.
Qed.

End Codec.

(** The same facts for [model_dump()]. *)
Lemma validate_fold_merge now e s :
  (r ← fold_snapshot_rows [snapshot_dump e; snapshot_dump s]; snapshot_validate now r)
  = Some (merge_snapshot e s).
Proof. apply (dict_fold_merge (C:=python_codec)). Qed.

Lemma idempotent_payload_equal_status a b :
  idempotent_payload_equal (snapshot_dump a) (snapshot_dump b) = true →
  ts_status a = ts_status b.
Proof. apply (idempotent_dict_status (C:=python_codec)). Qed.

Lemma idempotent_dump_iff a b :
  idempotent_payload_equal (snapshot_dump a) (snapshot_dump b) = true ↔
  b = set_clocks (ts_created_at b) (ts_updated_at b) a.
Proof. apply (idempotent_dict_iff (C:=python_codec)). Qed.

(** A snapshot survives the dict form: [model_validate] of [model_dump]
    gives the snapshot back, whether or not [None] fields were dropped, and
    whatever clock the default factories read. *)
Theorem snapshot_dump_validate (now : Z) (s : TaskSnapshot) :
  snapshot_validate now (snapshot_dump s) = Some s ∧
  snapshot_validate now (drop_none (snapshot_dump s)) = Some s.
Proof.
  split; [|apply snapshot_validate_compact].
  by apply snapshot_validate_present.
Qed.
