(* ===== verification/Traversal.v ===== *)
(** Tree, ancestor and latest-per-node traversals over the rows of a snapshot
    store. [adapter-memory/parts/snapshot.py] runs them over TaskSnapshot
    objects and [adapter-local/parts/snapshot.py] over the folded payload
    dicts; the algorithms are the same, so they are stated once against the
    interface [SnapshotRow] of what they read of a row. *)
From S2P Require Import Prelude Mechanism.
From stdpp Require Import prelude gmap strings list.
From Stdlib Require Import ZArith Lia.
Local Open Scope string_scope.
Local Open Scope list_scope.
Local Open Scope Z_scope.

Definition _MAX_TRAVERSAL_DEPTH : Z := 32.

(** What the traversals read of a row. [newer_eq a b] is the comparison
    [a.created_at >= b.created_at] of the adapter (instants in memory, ISO
    strings in the local files). *)
Class SnapshotRow (A : Type) := {
  task_of : A → string;
  step_of : A → string;
  parent_of : A → option string;
  newer_eq : A → A → bool;
}.

Class SnapshotRowLaws (A : Type) `{SnapshotRow A} := {
  newer_eq_refl : ∀ a : A, newer_eq a a = true;
  newer_eq_trans : ∀ a b c : A, newer_eq a b = true → newer_eq b c = true → newer_eq a c = true;
  newer_eq_total : ∀ a b : A, newer_eq a b = false → newer_eq b a = true;
}.

Section Traversal.
Context {A : Type} `{ARow : SnapshotRow A}.

(** The loop body shared by [_latest_per_node] (keyed by task and step) and
    get_ancestors' [by_id] (keyed by task): keep the record with the greatest
    creation instant, the later one on a tie. *)
Definition keep_latest {K} `{EqDecision K} (key_of : A → K)
  (latest : list (K * A)) (s : A) : list (K * A) :=
  let key := key_of s in
  match dget latest key with
  | None => dset latest key s
  | Some cur => if newer_eq s cur then dset latest key s else latest
  end.

Definition node_of (s : A) : string * string := (task_of s, step_of s).

Definition _latest_per_node (snaps : list A) : list A :=
  dvalues (fold_left (keep_latest node_of) snaps []).

(** [walk] of get_tree. [fuel] is [depth_limit - depth + 1]: the test
    [depth > depth_limit] is [fuel = 0]. *)
Fixpoint walk (alive : list A) (fuel : nat) (task_id : string)
  (acc : gset string * list A) : gset string * list A :=
  match fuel with
  | O => acc
  | S fuel' =>
      if decide (task_id ∈ acc.1) then acc
      else
        let acc := ({[task_id]} ∪ acc.1,
                    acc.2 ++ filter (λ s, task_of s = task_id) alive) in
        fold_left (λ acc child, walk alive fuel' (task_of child) acc)
          (filter (λ s, parent_of s = Some task_id) alive) acc
  end.

(** The while loop of get_ancestors; [fuel] is [_MAX_TRAVERSAL_DEPTH - depth]. *)
Fixpoint ancestor_chain (by_id : list (string * A)) (fuel : nat)
  (current : A) (visited : gset string) (chain : list A)
  : list A :=
  match parent_of current with
  | None => chain
  | Some parent_id =>
      match fuel with
      | O => chain
      | S fuel' =>
          if decide (parent_id ∈ visited) then chain
          else
            match dget by_id parent_id with
            | None => chain
            | Some parent =>
                ancestor_chain by_id fuel' parent ({[parent_id]} ∪ visited) (chain ++ [parent])
            end
      end
  end.

(** get_tree, list_children and get_ancestors over the alive rows. *)
Definition tree_rows (alive : list A) (root_task_id : string) (max_depth : option Z)
  (latest_only : bool) : list A :=
  let depth_limit := with_default _MAX_TRAVERSAL_DEPTH max_depth in
  let out := (walk alive (Z.to_nat (depth_limit + 1)) root_task_id (∅, [])).2 in
  if latest_only then _latest_per_node out else out.

Definition children_rows (alive : list A) (parent_task_id : string) (latest_only : bool)
  : list A :=
  let rows := filter (λ s, parent_of s = Some parent_task_id) alive in
  if latest_only then _latest_per_node rows else rows.

Definition ancestors_rows (alive : list A) (task_id : string) (include_self : bool) : list A :=
  let by_id := fold_left (keep_latest task_of) alive [] in
  match dget by_id task_id with
  | None => []
  | Some current =>
      reverse (ancestor_chain by_id (Z.to_nat _MAX_TRAVERSAL_DEPTH) current
                 (if include_self then {[task_id]} else ∅)
                 (if include_self then [current] else []))
  end.

(** * Tree traversal *)

(** [c] is the task of an alive snapshot whose parent is [p]. *)
Definition child_of (alive : list A) (p c : string) : Prop :=
  ∃ s, s ∈ alive ∧ parent_of s = Some p ∧ task_of s = c.

Definition children (alive : list A) (p : string) : list string :=
  task_of <$> filter (λ s, parent_of s = Some p) alive.

Lemma elem_of_children alive p c : c ∈ children alive p ↔ child_of alive p c.
Proof.
  unfold children, child_of. rewrite list_elem_of_fmap.
  setoid_rewrite list_elem_of_filter. naive_solver.
Qed.

Section Walk.
Context (alive : list A).

Abbreviation nodes t := (filter (λ s, task_of s = t) alive).
Abbreviation wfold fuel cs acc := (fold_left (λ a0 c0, walk alive fuel c0 a0) cs acc).

Lemma walk_S fuel t acc :
  walk alive (S fuel) t acc =
  if decide (t ∈ acc.1) then acc
  else wfold fuel (children alive t) ({[t]} ∪ acc.1, acc.2 ++ nodes t).
Proof.
  cbn [walk]. destruct (decide _); [done|]. unfold children.
  generalize ({[t]} ∪ acc.1, acc.2 ++ nodes t) as a.
  induction (filter (λ s, parent_of s = Some t) alive) as [|s l IH]; intros a;
    [done|]. simpl. apply IH.
Qed.

(** Every property of states kept by visiting one fresh task that is
    reachable from [root] is kept by the traversal. *)
Lemma walk_ind (P : gset string * list A → Prop) (R : string → Prop) :
  (∀ p c, R p → child_of alive p c → R c) →
  (∀ t acc, R t → t ∉ acc.1 → P acc → P ({[t]} ∪ acc.1, acc.2 ++ nodes t)) →
  ∀ fuel t acc, R t → P acc → P (walk alive fuel t acc).
Proof.
  intros HR HP. induction fuel as [|fuel IH]; intros t acc Ht Hacc; [done|].
  rewrite walk_S. destruct (decide (t ∈ acc.1)) as [|Hn]; [done|].
  assert (Hc : ∀ c, c ∈ children alive t → R c).
  { intros c Hc%elem_of_children. eauto. }
  generalize (HP t acc Ht Hn Hacc). generalize ({[t]} ∪ acc.1, acc.2 ++ nodes t) as a.
  revert Hc. induction (children alive t) as [|c cs IHc]; intros Hc a Ha; simpl; [done|].
  apply IHc; [set_solver|]. apply IH; [apply Hc; set_solver|done].
Qed.

Lemma walk_mono fuel t acc : acc.1 ⊆ (walk alive fuel t acc).1.
Proof.
  apply (walk_ind (λ a, acc.1 ⊆ a.1) (λ _, True)); [done| |done|done].
  intros ??; simpl. set_solver.
Qed.

Lemma wfold_mono fuel cs acc : acc.1 ⊆ (wfold fuel cs acc).1.
Proof.
  revert acc. induction cs as [|c cs IH]; intros acc; simpl; [done|].
  etrans; [apply (walk_mono fuel c)|apply IH].
Qed.

(** With as much fuel as unvisited tasks of the universe [U], the start is
    visited and everything newly visited has all its children visited. *)
Definition closed_new (v v' : gset string) : Prop :=
  ∀ p c, p ∈ v' → p ∉ v → child_of alive p c → c ∈ v'.

Lemma walk_closed (U : gset string) :
  (∀ p c, p ∈ U → child_of alive p c → c ∈ U) →
  ∀ fuel t acc, t ∈ U → (size (U ∖ acc.1) ≤ fuel)%nat →
    t ∈ (walk alive fuel t acc).1 ∧ closed_new acc.1 (walk alive fuel t acc).1.
Proof.
  intros HU. induction fuel as [|fuel IH]; intros t acc Ht Hf.
  { assert (U ∖ acc.1 ≡ ∅) as He by (apply size_empty_inv; lia).
    simpl. split; [set_solver|]. intros p c ?? _. done. }
  rewrite walk_S. destruct (decide (t ∈ acc.1)) as [Hin|Hn].
  { split; [done|]. intros p c ?? _. done. }
  assert (Ha0 : ({[t]} ∪ acc.1, acc.2 ++ nodes t).1 = {[t]} ∪ acc.1) by done.
  revert Ha0. generalize ({[t]} ∪ acc.1, acc.2 ++ nodes t) as a0. intros a0 Ha0.
  assert (Hsz : ∀ a : gset string * list A, a0.1 ⊆ a.1 →
    (size (U ∖ a.1) ≤ fuel)%nat).
  { intros a Ha. assert (U ∖ a.1 ⊂ U ∖ acc.1) as Hs%subset_size.
    { split; [set_solver|]. intros Hbad. specialize (Hbad t). set_solver. }
    lia. }
  assert (Hcs : ∀ cs a, a0.1 ⊆ a.1 → (∀ c, c ∈ cs → c ∈ U) →
    (∀ c, c ∈ cs → c ∈ (wfold fuel cs a).1) ∧ closed_new a.1 (wfold fuel cs a).1).
  { induction cs as [|c cs IHc]; intros a Ha Hc; simpl.
    { split; [set_solver|]. intros p c ?? _. done. }
    destruct (IH c a) as [Hv Hcl]; [set_solver|by apply Hsz|].
    pose proof (walk_mono fuel c a) as Hm.
    destruct (IHc (walk alive fuel c a)) as [Hv' Hcl']; [set_solver|set_solver|].
    pose proof (wfold_mono fuel cs (walk alive fuel c a)) as Hm'.
    split.
    - intros c' [->|]%elem_of_cons; [by apply Hm'|auto].
    - intros p c' Hp Hpa Hpc.
      destruct (decide (p ∈ (walk alive fuel c a).1)) as [|Hnw].
      + apply Hm'. eapply Hcl; eauto.
      + eapply Hcl'; eauto. }
  destruct (Hcs (children alive t) a0) as [Hv Hcl]; [done| |].
  { intros c Hc%elem_of_children. eauto. }
  pose proof (wfold_mono fuel (children alive t) a0) as Hm.
  split; [apply Hm; set_solver|]. intros p c Hp Hpa Hpc.
  destruct (decide (p = t)) as [->|]; [by apply Hv, elem_of_children|].
  eapply Hcl; eauto. set_solver.
Qed.
End Walk.

Context `{!SnapshotRowLaws A}.

Section KeepLatest.
Context {K : Type} `{EqDecision K} (key_of : A → K).

Lemma dkeys_keep_latest d s k :
  k ∈ dkeys (keep_latest key_of d s) ↔ k ∈ dkeys d ∨ k = key_of s.
Proof.
  unfold keep_latest.
  destruct (dget d (key_of s)) as [cur|] eqn:E.
  - assert (key_of s ∈ dkeys d).
    { destruct (decide (key_of s ∈ dkeys d)) as [|Hn]; [done|].
      apply dget_None in Hn. congruence. }
    destruct (newer_eq _ _); [rewrite dkeys_dset_in by done|]; set_solver.
  - rewrite dkeys_dset_notin by by apply dget_None. set_solver.
Qed.

(** One record per key, with the greatest creation instant among the key's
    records. *)
Record latest_of (l : list A) (d : list (K * A)) : Prop := {
  lo_nodup : NoDup (dkeys d);
  lo_keys : ∀ k, k ∈ dkeys d ↔ k ∈ key_of <$> l;
  lo_max : ∀ k s, dget d k = Some s → key_of s = k ∧ s ∈ l ∧
             ∀ s', s' ∈ l → key_of s' = k → newer_eq s s' = true;
}.

Lemma latest_of_fold l : latest_of l (fold_left (keep_latest key_of) l []).
Proof.
  induction l as [|s l IH] using rev_ind.
  { simpl. split; [constructor|done|done]. }
  rewrite fold_left_app. cbn [fold_left]. destruct IH as [Hnd Hk Hm].
  split.
  - unfold keep_latest. destruct (dget _ _); [destruct (newer_eq _ _)|]; auto with orditect.
  - intros k. rewrite dkeys_keep_latest, Hk, fmap_app. set_solver.
  - assert (Hold : ∀ k s0, dget (fold_left (keep_latest key_of) l []) k = Some s0 →
      (key_of s = k → newer_eq s0 s = true) → key_of s0 = k ∧ s0 ∈ l ++ [s] ∧
      ∀ s', s' ∈ l ++ [s] → key_of s' = k → newer_eq s0 s' = true).
    { intros k s0 Hs0 Hns. destruct (Hm _ _ Hs0) as (?&?&H3). split; [done|].
      split; [set_solver|].
      intros s' [Hin| ->%list_elem_of_singleton]%elem_of_app Hs'; auto. }
    assert (Hnew : (∀ s', s' ∈ l → key_of s' = key_of s → newer_eq s s' = true) →
      ∀ s', s' ∈ l ++ [s] → key_of s' = key_of s → newer_eq s s' = true).
    { intros Hs s' [Hin| ->%list_elem_of_singleton]%elem_of_app; [auto|].
      intros _. apply newer_eq_refl. }
    intros k s0. unfold keep_latest. destruct (dget _ (key_of s)) as [cur|] eqn:E.
    + destruct (Hm _ _ E) as (_ & _ & Hc). destruct (newer_eq s cur) eqn:Hge.
      * rewrite dget_dset. destruct (decide (key_of s = k)) as [<-|Hne]; [|by auto].
        intros [= <-]. split; [done|]. split; [set_solver|]. apply Hnew.
        eauto using newer_eq_trans.
      * intros Hs0. apply Hold; [done|]. intros <-. rewrite E in Hs0. simplify_eq.
        by apply newer_eq_total.
    + rewrite dget_dset. destruct (decide (key_of s = k)) as [<-|Hne]; [|by auto].
      intros [= <-]. split; [done|]. split; [set_solver|]. apply Hnew.
      intros s' Hin Hs'. apply dget_None in E. destruct E. apply Hk, list_elem_of_fmap. eauto.
Qed.
End KeepLatest.

Lemma elem_of_latest l s :
  s ∈ _latest_per_node l ↔ dget (fold_left (keep_latest node_of) l []) (node_of s) = Some s.
Proof.
  pose proof (latest_of_fold node_of l) as [Hnd Hk Hm]. unfold _latest_per_node, dvalues.
  rewrite list_elem_of_fmap. split.
  - intros [[k s'] [-> Hin]]. apply elem_dget in Hin; [|done]. simpl.
    by destruct (Hm _ _ Hin) as [-> _].
  - intros H. exists (node_of s, s). split; [done|]. by apply dget_elem.
Qed.

Lemma latest_per_node_spec l :
  (∀ s, s ∈ _latest_per_node l → s ∈ l ∧
     ∀ s', s' ∈ l → node_of s' = node_of s → newer_eq s s' = true) ∧
  (∀ s, s ∈ l → ∃ s', s' ∈ _latest_per_node l ∧ node_of s' = node_of s) ∧
  NoDup (node_of <$> _latest_per_node l).
Proof.
  pose proof (latest_of_fold node_of l) as [Hnd Hk Hm]. split_and!.
  - intros s Hs%elem_of_latest. destruct (Hm _ _ Hs) as (_ & ? & H). eauto.
  - intros s Hs. destruct (dget (fold_left (keep_latest node_of) l []) (node_of s)) as [s'|] eqn:E.
    + destruct (Hm _ _ E) as [Hn _]. exists s'. split; [|done].
      apply elem_of_latest. by rewrite Hn.
    + apply dget_None in E. destruct E. apply Hk, list_elem_of_fmap. eauto.
  - unfold _latest_per_node. replace (node_of <$> _) with (dkeys (fold_left (keep_latest node_of) l []));
      [done|].
    unfold dkeys, dvalues. rewrite <- list_fmap_compose. apply list_fmap_ext.
    intros i [k s] Hi%list_elem_of_lookup_2. simpl.
    by destruct (Hm k s (elem_dget _ _ _ Hnd Hi)) as [-> _].
Qed.

(** The raw traversal collects exactly the records of the visited tasks. *)
Lemma walk_collects alive fuel t :
  let r := walk alive fuel t (∅, []) in
  (∀ s, s ∈ r.2 ↔ s ∈ alive ∧ task_of s ∈ r.1) ∧
  (∀ u, u ∈ r.1 → rtc (child_of alive) t u) ∧
  (NoDup alive → NoDup r.2).
Proof.
  simpl. apply (walk_ind alive (λ r, (∀ s, s ∈ r.2 ↔ s ∈ alive ∧ task_of s ∈ r.1) ∧
    (∀ u, u ∈ r.1 → rtc (child_of alive) t u) ∧ (NoDup alive → NoDup r.2))
    (rtc (child_of alive) t)).
  - intros p c Hp Hc. by eapply rtc_r.
  - intros u acc Hu Hn (H1 & H2 & H3). simpl. split_and!.
    + intros s. rewrite elem_of_app, H1, list_elem_of_filter. set_solver.
    + set_solver.
    + intros Hnd. apply NoDup_app. split_and!; [auto| |by apply NoDup_filter].
      intros s Hs [Hs' _]%list_elem_of_filter. apply H1 in Hs as [_ Hs]. congruence.
  - done.
  - simpl. split_and!; [set_solver|set_solver|constructor].
Qed.

(** The tasks of the alive records, with the root. *)
Definition task_universe (alive : list A) (root : string) : gset string :=
  {[root]} ∪ list_to_set (task_of <$> alive).

Lemma walk_complete alive fuel root u :
  (size (task_universe alive root) ≤ fuel)%nat →
  rtc (child_of alive) root u → u ∈ (walk alive fuel root (∅, [])).1.
Proof.
  intros Hf Hr. set (U := task_universe alive root).
  assert (HU : ∀ p c, p ∈ U → child_of alive p c → c ∈ U).
  { intros p c _ (s & Hs & _ & <-). unfold U, task_universe.
    rewrite elem_of_union, elem_of_list_to_set, list_elem_of_fmap. eauto. }
  destruct (walk_closed alive U HU fuel root (∅, [])) as [Hv Hcl].
  { unfold U, task_universe. set_solver. }
  { cbn [fst]. rewrite difference_empty_L. done. }
  revert u Hr. apply rtc_ind_r; [done|]. intros y z _ Hyz Hy.
  eapply Hcl; [done|set_solver|done].
Qed.

(** * Ancestors *)

(** Consecutive elements are parent and child, the parent first. *)
Definition linked (l : list A) : Prop :=
  ∀ i a b, l !! i = Some a → l !! S i = Some b → parent_of b = Some (task_of a).

Lemma linked_cons a l :
  linked l → (∀ b, head l = Some b → parent_of b = Some (task_of a)) →
  linked (a :: l).
Proof.
  intros Hl Hh [|i] x y; simpl; [|apply Hl]. intros [= <-] Hy. apply Hh. by destruct l.
Qed.

Section Ancestors.
Context (by_id : list (string * A)).
Context (Hkey : ∀ t s, dget by_id t = Some s → task_of s = t).

Lemma ancestor_chain_spec fuel current visited chain :
  (∀ b, head (reverse chain) = Some b → b = current) →
  linked (reverse chain) → (∀ s, s ∈ chain → dget by_id (task_of s) = Some s) →
  (∀ s, s ∈ chain → task_of s ∈ visited) → NoDup (task_of <$> chain) →
  ∃ up, ancestor_chain by_id fuel current visited chain = chain ++ up
  ∧ (length up ≤ fuel)%nat ∧ linked (reverse (chain ++ up))
  ∧ (∀ s, s ∈ chain ++ up → dget by_id (task_of s) = Some s)
  ∧ NoDup (task_of <$> chain ++ up)
  ∧ (∀ a, head up = Some a → parent_of current = Some (task_of a)).
Proof.
  revert current visited chain. induction fuel as [|fuel IH];
    intros current visited chain Hh Hl Hs Hv Hnd; simpl;
    destruct (parent_of current) as [pid|] eqn:Ep;
    try (exists []; rewrite app_nil_r; split_and!; [done|simpl; lia|done|done|done|done]).
  destruct (decide (pid ∈ visited)) as [|Hn];
    [exists []; rewrite app_nil_r; split_and!; [done|simpl; lia|done|done|done|done]|].
  destruct (dget by_id pid) as [par|] eqn:Ed;
    [|exists []; rewrite app_nil_r; split_and!; [done|simpl; lia|done|done|done|done]].
  pose proof (Hkey _ _ Ed) as Hpid.
  destruct (IH par ({[pid]} ∪ visited) (chain ++ [par])) as (up & -> & Hlen & H1 & H2 & H3 & _).
  - rewrite reverse_snoc. simpl. naive_solver.
  - rewrite reverse_snoc. apply linked_cons; [done|]. intros b Hb. by rewrite (Hh b Hb), Hpid.
  - intros s [?| ->%list_elem_of_singleton]%elem_of_app; [auto|by rewrite Hpid].
  - intros s [Hin| ->%list_elem_of_singleton]%elem_of_app; [apply Hv in Hin|]; set_solver.
  - rewrite fmap_app. apply NoDup_app. split_and!; [done| |apply NoDup_singleton].
    intros t [s [-> Hin]]%list_elem_of_fmap Ht%list_elem_of_singleton.
    apply Hv in Hin. rewrite Hpid in Ht. congruence.
  - exists (par :: up). rewrite <- app_assoc in *. simpl in *.
    split_and!; [done|lia|done|done|done|]. naive_solver.
Qed.
End Ancestors.

(** The alive rows of a task that are not older than any other. *)
Definition latest_row (alive : list A) (t : string) (s : A) : Prop :=
  s ∈ alive ∧ task_of s = t ∧ ∀ s', s' ∈ alive → task_of s' = t → newer_eq s s' = true.

Lemma ancestors_rows_spec alive task_id include_self :
  let chain := ancestors_rows alive task_id include_self in
  (chain = [] ∧ ∀ s, s ∈ alive → task_of s ≠ task_id) ∨
  ∃ self, latest_row alive task_id self ∧ linked chain ∧ NoDup (task_of <$> chain) ∧
    (∀ s, s ∈ chain → latest_row alive (task_of s) s) ∧
    Z.of_nat (length chain) <= _MAX_TRAVERSAL_DEPTH + (if include_self then 1 else 0) ∧
    (if include_self then last chain = Some self
     else ∀ a, last chain = Some a → parent_of self = Some (task_of a)).
Proof.
  unfold ancestors_rows. cbn zeta.
  destruct (latest_of_fold task_of alive) as [Hnd Hk Hm].
  set (by_id := fold_left _ _ _) in *.
  assert (Hlat : ∀ t s, dget by_id t = Some s → latest_row alive t s).
  { intros t s Hs. destruct (Hm _ _ Hs) as (?&?&?). by split_and!. }
  destruct (dget by_id task_id) as [self|] eqn:E.
  2: { left. split; [done|]. intros s Hs Ht. apply dget_None in E. apply E, Hk.
       apply list_elem_of_fmap. eauto. }
  right. exists self. split; [by apply Hlat|].
  assert (Hself : task_of self = task_id) by by apply Hlat.
  destruct (ancestor_chain_spec by_id ltac:(intros; by apply Hlat)
    (Z.to_nat _MAX_TRAVERSAL_DEPTH) self (if include_self then {[task_id]} else ∅)
    (if include_self then [self] else [])) as (up & -> & Hlen & H1 & H2 & H3 & H4).
  - destruct include_self; simpl; naive_solver.
  - by destruct include_self; intros [|i] a b.
  - destruct include_self; intros s Hs; [|set_solver].
    apply list_elem_of_singleton in Hs as ->. by rewrite Hself.
  - destruct include_self; set_solver.
  - destruct include_self; simpl; [apply NoDup_singleton|constructor].
  - split; [done|]. split; [by rewrite fmap_reverse, reverse_Permutation|].
    split; [intros s Hs; rewrite elem_of_reverse in Hs; auto|].
    rewrite length_reverse, last_reverse.
    destruct include_self; simpl; [split; [|done]|split; [|done]];
      unfold _MAX_TRAVERSAL_DEPTH in *; lia.
Qed.

Lemma tree_rows_sound alive root max_depth latest_only s :
  s ∈ tree_rows alive root max_depth latest_only →
  s ∈ alive ∧ rtc (child_of alive) root (task_of s).
Proof.
  unfold tree_rows. set (fuel := Z.to_nat _).
  destruct (walk_collects alive fuel root) as (H1 & H2 & _).
  destruct (latest_per_node_spec (walk alive fuel root (∅, [])).2) as (L1 & _ & _).
  assert (Hraw : ∀ s, s ∈ (walk alive fuel root (∅, [])).2 →
    s ∈ alive ∧ rtc (child_of alive) root (task_of s)) by (intros ? [??]%H1; eauto).
  destruct latest_only; [|apply Hraw]. intros Hs. by apply Hraw, L1.
Qed.

Lemma tree_rows_nodup alive root max_depth :
  (NoDup alive → NoDup (tree_rows alive root max_depth false)) ∧
  NoDup (node_of <$> tree_rows alive root max_depth true).
Proof.
  split; [apply walk_collects|]. apply latest_per_node_spec.
Qed.

Lemma tree_rows_latest alive root max_depth s :
  s ∈ tree_rows alive root max_depth false →
  ∃ s', s' ∈ tree_rows alive root max_depth true ∧ node_of s' = node_of s
        ∧ newer_eq s' s = true.
Proof.
  unfold tree_rows. set (out := (walk _ _ _ _).2). intros Hs.
  destruct (latest_per_node_spec out) as (L1 & L2 & _).
  destruct (L2 s Hs) as (s' & Hs' & Hn). exists s'. split; [done|]. split; [done|].
  by apply L1.
Qed.

Lemma tree_rows_complete alive root max_depth s :
  Z.of_nat (size (task_universe alive root)) <= with_default _MAX_TRAVERSAL_DEPTH max_depth + 1 →
  s ∈ tree_rows alive root max_depth false ↔
  s ∈ alive ∧ rtc (child_of alive) root (task_of s).
Proof.
  intros Hb. split; [apply tree_rows_sound|]. intros [Hs Hr].
  unfold tree_rows. set (fuel := Z.to_nat _).
  apply walk_collects. split; [done|]. apply walk_complete; [unfold fuel; lia|done].
Qed.
End Traversal.

(** The raw traversals commute with a change of row representation that
    keeps what they read. *)
Section Natural.
Context {A B : Type} `{SnapshotRow A} `{SnapshotRow B} (f : A → B).
Context (f_task : ∀ a, task_of (f a) = task_of a).
Context (f_parent : ∀ a, parent_of (f a) = parent_of a).

Lemma filter_fmap_parent (l : list A) p :
  filter (λ s : B, parent_of s = Some p) (f <$> l)
  = f <$> filter (λ s : A, parent_of s = Some p) l.
Proof.
  apply filter_fmap_comm. intros a. by rewrite f_parent.
Qed.

Lemma filter_fmap_task (l : list A) t :
  filter (λ s : B, task_of s = t) (f <$> l) = f <$> filter (λ s : A, task_of s = t) l.
Proof.
  apply filter_fmap_comm. intros a. by rewrite f_task.
Qed.

Lemma walk_fmap alive fuel t v out :
  walk (f <$> alive) fuel t (v, f <$> out)
  = prod_map id (fmap f) (walk alive fuel t (v, out)).
Proof.
  revert t v out. induction fuel as [|fuel IH]; intros t v out; [done|]. cbn [walk fst snd].
  destruct (decide (t ∈ v)); [done|]. rewrite filter_fmap_parent, filter_fmap_task, <- fmap_app.
  generalize ({[t]} ∪ v) as v'. generalize (out ++ filter (λ s : A, task_of s = t) alive) as out'.
  induction (filter (λ s : A, parent_of s = Some t) alive) as [|c cs IHc]; intros out' v'; [done|].
  cbn [fmap list_fmap fold_left]. rewrite f_task, IH.
  destruct (walk alive fuel (task_of c) (v', out')) as [v2 out2]. apply IHc.
Qed.

Lemma tree_rows_fmap alive root max_depth :
  tree_rows (f <$> alive) root max_depth false = f <$> tree_rows alive root max_depth false.
Proof. unfold tree_rows. by rewrite (walk_fmap alive _ root ∅ []). Qed.

Lemma children_rows_fmap alive p :
  children_rows (f <$> alive) p false = f <$> children_rows alive p false.
Proof. apply filter_fmap_parent. Qed.
End Natural.
