(* ===== verification/MemorySnapshot.v ===== *)
(** The in-memory snapshot domain ([adapter-memory/parts/snapshot.py]):
    writer (save, save_terminal) and reader (get, list_versions, get_tree,
    list_children, get_ancestors, query, aggregate) over an insertion-ordered
    dict of records and the set of terminal keys. *)
From S2P Require Import Prelude Mechanism SnapshotModel Traversal.
From stdpp Require Import prelude gmap strings list.
From Stdlib Require Import ZArith Lia Sorting.Permutation Sorting.Sorted.
Local Open Scope string_scope.
Local Open Scope list_scope.
Local Open Scope Z_scope.

(** MemorySnapshotPart.__init__: the two containers (the asyncio lock makes
    each writer one atomic step). *)
Record MemorySnapshotPart := mkMem {
  m_snaps : list (snapshot_key * TaskSnapshot);
  m_terminal : gset snapshot_key;
}.

Definition mem_init : MemorySnapshotPart := mkMem [] ∅.

(** What a writer may raise: a contract error, or pydantic's validation of
    the folded record. *)
Inductive write_error : Type :=
| Contract (e : ContractError)
| PydanticValidationError.

(** MemorySnapshotPart.save *)
Definition mem_save (now : Z) (st : MemorySnapshotPart) (s : TaskSnapshot)
  : res write_error MemorySnapshotPart :=
  let key := snap_key s in
  let existing := dget (m_snaps st) key in
  let violation :=
    match existing with
    | Some e => bool_decide (key ∈ m_terminal st)
                && bool_decide (ts_status s ≠ "")
                && bool_decide (ts_status s ≠ ts_status e)
    | None => false
    end in
  if violation then Err (Contract TerminalStateViolationError)
  else
    match existing with
    | Some e =>
        match fold_snapshot_rows [snapshot_dump e; snapshot_dump s] with
        | Some record =>
            match snapshot_validate now record with
            | Some merged => Ok (mkMem (dset (m_snaps st) key merged) (m_terminal st))
            | None => Err PydanticValidationError
            end
        | None => Err PydanticValidationError
        end
    | None => Ok (mkMem (dset (m_snaps st) key s) (m_terminal st))
    end.

(** MemorySnapshotPart.save_terminal *)
Definition mem_save_terminal (st : MemorySnapshotPart) (s : TaskSnapshot)
  : res write_error MemorySnapshotPart :=
  let key := snap_key s in
  match dget (m_snaps st) key, bool_decide (key ∈ m_terminal st) with
  | Some e, true =>
      if idempotent_payload_equal (snapshot_dump e) (snapshot_dump s)
      then Ok st else Err (Contract TerminalStateViolationError)
  | _, _ => Ok (mkMem (dset (m_snaps st) key s) ({[key]} ∪ m_terminal st))
  end.

(** Optional equality filter: [x is None or got == x]. *)
Definition opt_match {A} `{EqDecision A} (want : option A) (got : A) : bool :=
  match want with None => true | Some w => bool_decide (got = w) end.

(** * Readers. [now] is [datetime.now(UTC)] at the call. *)

Definition _alive (now : Z) (s : TaskSnapshot) : bool :=
  match ts_expire_at s with None => true | Some t => t >? now end.

Definition mem_get (now : Z) (st : MemorySnapshotPart) (task_id step : string)
  (execution_id : option string) : option TaskSnapshot :=
  let rows := filter (λ s, _alive now s = true)
    (filter (λ kv : snapshot_key * TaskSnapshot,
       kv.1.1.1 = task_id ∧ kv.1.1.2 = step ∧
       opt_match execution_id kv.1.2 = true) (m_snaps st)).*2 in
  last (isort (λ a b, ts_created_at a <=? ts_created_at b) rows).

(** [_key]: the mechanism sort key; a missing expiry sorts as infinitely far. *)
Definition datetime_max : Z := 253402300799999999.

Definition sort_key (field : string) (s : TaskSnapshot) : bool * Z :=
  if decide (field = "expire_at") then
    match ts_expire_at s with None => (true, datetime_max) | Some t => (false, t) end
  else if decide (field = "updated_at") then (false, ts_updated_at s)
  else (false, ts_created_at s).

Definition key_le (a b : bool * Z) : bool :=
  match a, b with
  | (false, x), (false, y) => x <=? y
  | (false, _), (true, _) => true
  | (true, _), (false, _) => false
  | (true, x), (true, y) => x <=? y
  end.

Definition sort_rows (sort : Sort) (rows : list TaskSnapshot) : list TaskSnapshot :=
  match so_direction sort with
  | ASC => isort (λ a b, key_le (sort_key (so_field sort) a) (sort_key (so_field sort) b)) rows
  | DESC => isort (λ a b, key_le (sort_key (so_field sort) b) (sort_key (so_field sort) a)) rows
  end.

Definition sort_page (page : option Page) (sort : option Sort) (rows : list TaskSnapshot)
  : res ContractError (list TaskSnapshot) :=
  let sort := with_default default_sort sort in
  if decide (so_field sort ∈ SORT_FIELDS_snapshot) then
    let page := with_default default_page page in
    Ok (page_slice (pg_offset page) (pg_limit page) (sort_rows sort rows))
  else Err InvalidQueryError.

Definition mem_list_versions (now : Z) (st : MemorySnapshotPart) (task_id step : string)
  (page : option Page) (sort : option Sort) : res ContractError (list TaskSnapshot) :=
  let rows := filter (λ s, _alive now s = true)
    (filter (λ kv : snapshot_key * TaskSnapshot,
       kv.1.1.1 = task_id ∧ kv.1.1.2 = step) (m_snaps st)).*2 in
  sort_page page sort rows.

(** Rows of this adapter are snapshots, compared by instant. *)
#[export] Instance snapshot_row : SnapshotRow TaskSnapshot := {
  task_of := ts_task_id;
  step_of := ts_step;
  parent_of := ts_parent_task_id;
  newer_eq a b := ts_created_at a >=? ts_created_at b;
}.

Definition alive_rows (now : Z) (st : MemorySnapshotPart) : list TaskSnapshot :=
  filter (λ s, _alive now s = true) (dvalues (m_snaps st)).

Definition mem_get_tree (now : Z) (st : MemorySnapshotPart) (root_task_id : string)
  (max_depth : option Z) (latest_only : bool) : list TaskSnapshot :=
  tree_rows (alive_rows now st) root_task_id max_depth latest_only.

Definition mem_list_children (now : Z) (st : MemorySnapshotPart) (parent_task_id : string)
  (latest_only : bool) : list TaskSnapshot :=
  children_rows (alive_rows now st) parent_task_id latest_only.

Definition mem_get_ancestors (now : Z) (st : MemorySnapshotPart) (task_id : string)
  (include_self : bool) : list TaskSnapshot :=
  ancestors_rows (alive_rows now st) task_id include_self.

Definition in_range (tr : option TimeRange) (t : Z) : bool :=
  match tr with
  | None => true
  | Some r => (match tr_start r with None => true | Some a => t >=? a end)
              && (match tr_end r with None => true | Some b => t <? b end)
  end.

Definition mem_query (now : Z) (st : MemorySnapshotPart) (status parent : option string)
  (tr : option TimeRange) (page : option Page) (sort : option Sort)
  : res ContractError (list TaskSnapshot) :=
  let rows := _latest_per_node (alive_rows now st) in
  let rows := filter (λ s, opt_match status (ts_status s) = true) rows in
  let rows := filter (λ s, opt_match (Some <$> parent) (ts_parent_task_id s) = true) rows in
  let rows := filter (λ s, in_range tr (ts_created_at s) = true) rows in
  sort_page page sort rows.

(** aggregate. Float addition is a parameter: [fadd], with [fzero] for 0.0. *)
Record agg_bucket := mkBucket { b_count : Z; b_cost : gmap string Z }.

Section Aggregate.
Variables (fadd : Z → Z → Z) (fzero : Z).

Definition add_cost (acc : gmap string Z) (kv : string * Z) : gmap string Z :=
  <[kv.1 := fadd (with_default fzero (acc !! kv.1)) kv.2]> acc.

Definition group_value (group_by : string) (s : TaskSnapshot) : string :=
  if decide (group_by = "status") then ts_status s
  else with_default "None" (ts_model s).

Definition agg_step (group_by : string) (out : list (string * agg_bucket)) (s : TaskSnapshot)
  : list (string * agg_bucket) :=
  let gval := group_value group_by s in
  let bucket := with_default (mkBucket 0 ∅) (dget out gval) in
  let cost := fold_left add_cost (map_to_list (with_default ∅ (ts_cost s))) (b_cost bucket) in
  dset out gval (mkBucket (b_count bucket + 1) cost).

Definition mem_aggregate (now : Z) (st : MemorySnapshotPart) (group_by : string)
  (parent : option string) (tr : option TimeRange)
  : res ContractError (list (string * agg_bucket)) :=
  if decide (group_by ∈ GROUP_BY_FIELDS_snapshot) then
    let rows := _latest_per_node (alive_rows now st) in
    let rows := filter (λ s, opt_match (Some <$> parent) (ts_parent_task_id s) = true) rows in
    let rows := filter (λ s, in_range tr (ts_created_at s) = true) rows in
    Ok (fold_left (agg_step group_by) rows [])
  else Err InvalidQueryError.
End Aggregate.

(** * Writers: invariant and behaviour *)

(** Well-formed state: dict keys are distinct and are the keys of the records
    they hold; a terminal key has a record. *)
Record mem_wf (st : MemorySnapshotPart) : Prop := {
  wf_nodup : NoDup (dkeys (m_snaps st));
  wf_key : ∀ k s, dget (m_snaps st) k = Some s → snap_key s = k;
  wf_terminal : ∀ k, k ∈ m_terminal st → is_Some (dget (m_snaps st) k);
}.

(** One accepted call of a writer. *)
Inductive mem_step (st st' : MemorySnapshotPart) : Prop :=
| step_save now s : mem_save now st s = Ok st' → mem_step st st'
| step_save_terminal s : mem_save_terminal st s = Ok st' → mem_step st st'.

(** The record [save] stores for a snapshot. *)
Definition saved_record (existing : option TaskSnapshot) (s : TaskSnapshot) : TaskSnapshot :=
  match existing with Some e => merge_snapshot e s | None => s end.

Definition terminal_conflict (st : MemorySnapshotPart) (s : TaskSnapshot) : Prop :=
  snap_key s ∈ m_terminal st ∧ ts_status s ≠ "" ∧
  ∃ e, dget (m_snaps st) (snap_key s) = Some e ∧ ts_status s ≠ ts_status e.

Local Opaque fold_snapshot_rows snapshot_validate snapshot_dump idempotent_payload_equal.

Lemma mem_save_cases now st s :
  (terminal_conflict st s ∧ mem_save now st s = Err (Contract TerminalStateViolationError))
  ∨ (¬ terminal_conflict st s ∧
     mem_save now st s = Ok (mkMem (dset (m_snaps st) (snap_key s)
       (saved_record (dget (m_snaps st) (snap_key s)) s)) (m_terminal st))).
Proof.
  unfold mem_save, terminal_conflict.
  destruct (dget (m_snaps st) (snap_key s)) as [e|] eqn:E; simpl.
  2: { right. split; [naive_solver|done]. }
  pose proof (validate_fold_merge now e s) as Hv.
  destruct (bool_decide _ && _ && _) eqn:B.
  - left. rewrite !andb_true_iff, !bool_decide_eq_true in B. naive_solver.
  - right. split.
    + rewrite !andb_false_iff, !bool_decide_eq_false in B. naive_solver.
    + destruct (fold_snapshot_rows _) as [r|]; simpl in Hv; [|done]. by rewrite Hv.
Qed.

Lemma mem_save_terminal_cases st s :
  (snap_key s ∈ m_terminal st ∧ ∃ e, dget (m_snaps st) (snap_key s) = Some e ∧
     mem_save_terminal st s =
       if idempotent_payload_equal (snapshot_dump e) (snapshot_dump s)
       then Ok st else Err (Contract TerminalStateViolationError))
  ∨ ((snap_key s ∈ m_terminal st → dget (m_snaps st) (snap_key s) = None) ∧
     mem_save_terminal st s =
       Ok (mkMem (dset (m_snaps st) (snap_key s) s) ({[snap_key s]} ∪ m_terminal st))).
Proof.
  unfold mem_save_terminal. destruct (dget _ _) as [e|] eqn:E; [|by right].
  case_bool_decide; [left; eauto|right; naive_solver].
Qed.

Lemma mem_init_wf : mem_wf mem_init.
Proof. split; simpl; [constructor|done|set_solver]. Qed.

Lemma mem_step_wf st st' : mem_wf st → mem_step st st' → mem_wf st'.
Proof.
  intros [Hnd Hk Ht] [now s H|s H].
  - destruct (mem_save_cases now st s) as [[_ E]|[_ E]]; rewrite E in H; simplify_eq.
    split; simpl; [auto with orditect| |].
    + intros k s'. rewrite dget_dset. destruct (decide (snap_key s = k)) as [<-|]; [|eauto].
      intros [= <-]. destruct (dget _ _) as [e|] eqn:Ee; simpl; [|done].
      rewrite merge_snapshot_key. eauto.
    + intros k Hin. rewrite dget_dset. destruct (decide _); eauto.
  - destruct (mem_save_terminal_cases st s) as [(_ & e & _ & E)|[_ E]]; rewrite E in H.
    { destruct (idempotent_payload_equal _ _); simplify_eq. by split. }
    simplify_eq. split; simpl; [auto with orditect| |].
    + intros k s'. rewrite dget_dset. destruct (decide _); naive_solver.
    + intros k Hin. rewrite dget_dset. destruct (decide (snap_key s = k)); [eauto|].
      apply Ht. set_solver.
Qed.

Lemma wf_values st s : mem_wf st → s ∈ dvalues (m_snaps st) →
  dget (m_snaps st) (snap_key s) = Some s.
Proof.
  intros [Hnd Hk _] [[k s'] [-> Hin]]%list_elem_of_fmap. simpl.
  apply elem_dget in Hin; [|done]. by rewrite (Hk _ _ Hin).
Qed.

Lemma wf_values_NoDup st : mem_wf st → NoDup (dvalues (m_snaps st)).
Proof.
  intros [Hnd Hk _]. apply (NoDup_fmap_1 snap_key).
  replace (snap_key <$> dvalues (m_snaps st)) with (dkeys (m_snaps st)); [done|].
  unfold dkeys, dvalues. rewrite <- list_fmap_compose. apply list_fmap_ext.
  intros i [k s] Hi%list_elem_of_lookup_2. simpl. symmetry. by apply Hk, elem_dget.
Qed.

(** The status and the creation instant of a terminal generation. *)
Definition settled (k : snapshot_key) (status : string) (created : Z)
  (st : MemorySnapshotPart) : Prop :=
  k ∈ m_terminal st ∧ ∃ e, dget (m_snaps st) k = Some e
    ∧ ts_status e = status ∧ ts_created_at e = created.

Lemma mem_step_settled k status created st st' :
  settled k status created st → mem_step st st' → settled k status created st'.
Proof.
  intros (Hin & e & He & Hst & Hcr) [now s H|s H].
  - destruct (mem_save_cases now st s) as [[_ E]|[Hn E]]; rewrite E in H; simplify_eq.
    split; [done|]. simpl. rewrite dget_dset.
    destruct (decide (snap_key s = k)) as [<-|]; [|eauto].
    rewrite He. simpl. eexists; split; [done|]. simpl. split; [|done].
    destruct (decide (ts_status s = "")); [done|].
    destruct (decide (ts_status s = ts_status e)); [done|].
    exfalso. apply Hn. unfold terminal_conflict. eauto.
  - destruct (mem_save_terminal_cases st s) as [(_ & e' & _ & E)|[Hn E]]; rewrite E in H.
    { destruct (idempotent_payload_equal _ _); simplify_eq. by split; eauto. }
    simplify_eq. split; simpl; [set_solver|]. rewrite dget_dset.
    destruct (decide (snap_key s = k)) as [<-|]; [|eauto].
    rewrite Hn in He by done. done.
Qed.

Lemma mem_steps_wf st st' : mem_wf st → rtc mem_step st st' → mem_wf st'.
Proof. intros Hwf Hs. revert Hwf. induction Hs; eauto using mem_step_wf. Qed.

(** C22: terminal irreversibility. Once [save_terminal] has closed a
    generation, every later sequence of accepted writer calls keeps the
    generation terminal, present, and with the status and the creation instant
    of the terminal record; the store stays well-formed. *)
Theorem terminal_irreversible (st1 st2 st3 : MemorySnapshotPart) (s : TaskSnapshot)
  (H0 : rtc mem_step mem_init st1)
  (H1 : mem_save_terminal st1 s = Ok st2)
  (H2 : rtc mem_step st2 st3) :
  mem_wf st3 ∧ snap_key s ∈ m_terminal st3 ∧
  ∃ e, dget (m_snaps st3) (snap_key s) = Some e ∧ snap_key e = snap_key s
    ∧ ts_status e = ts_status s
    ∧ (snap_key s ∉ m_terminal st1 → ts_created_at e = ts_created_at s).
Proof.
  assert (Hwf3 : mem_wf st3).
  { apply (mem_steps_wf st2); [|done]. apply (mem_step_wf st1); [|by econstructor].
    by apply (mem_steps_wf mem_init); [apply mem_init_wf|]. }
  assert (Hset : ∃ c, settled (snap_key s) (ts_status s) c st2
                 ∧ (snap_key s ∉ m_terminal st1 → c = ts_created_at s)).
  { destruct (mem_save_terminal_cases st1 s) as [(Hin & e & He & E)|[_ E]]; rewrite E in H1.
    - destruct (idempotent_payload_equal (snapshot_dump e) (snapshot_dump s)) eqn:Hi;
        [injection H1 as <-|done].
      apply idempotent_payload_equal_status in Hi. exists (ts_created_at e).
      split; [|intros Hn; destruct (Hn Hin)]. split; [done|]. exists e. done.
    - simplify_eq. eexists; split; [|done]. split; simpl; [set_solver|].
      rewrite dget_dset_eq. eauto. }
  destruct Hset as (c & Hset & Hc). clear H1.
  assert (Hfin : settled (snap_key s) (ts_status s) c st3).
  { induction H2 as [|a b d Hs ? IH]; [done|]. eauto using mem_step_settled. }
  destruct Hfin as (Hin & e & He & Hst & Hcr).
  split; [done|]. split; [done|]. exists e. split; [done|].
  split; [by eapply wf_key|]. split; [done|]. intros Hn. rewrite Hcr. auto.
Qed.

(** A sample generation and its store after each call. *)
Definition demo_snapshot (status : string) (created : Z) (parent : option string) : TaskSnapshot :=
  mkSnapshot "t1" "s" "e1" parent status None None None None None created created None.

Definition demo_closed : MemorySnapshotPart :=
  mkMem [(("t1", "s", "e1"), demo_snapshot "succeeded" 5 None)] {[ ("t1", "s", "e1") ]}.

Definition demo_closed' : MemorySnapshotPart :=
  mkMem [(("t1", "s", "e1"),
          merge_snapshot (demo_snapshot "succeeded" 5 None) (demo_snapshot "" 9 (Some "p")))]
    {[ ("t1", "s", "e1") ]}.

Lemma terminal_irreversible_witness :
  mem_wf demo_closed' ∧ snap_key (demo_snapshot "succeeded" 5 None) ∈ m_terminal demo_closed' ∧
  ∃ e, dget (m_snaps demo_closed') (snap_key (demo_snapshot "succeeded" 5 None)) = Some e
    ∧ snap_key e = snap_key (demo_snapshot "succeeded" 5 None)
    ∧ ts_status e = ts_status (demo_snapshot "succeeded" 5 None)
    ∧ (snap_key (demo_snapshot "succeeded" 5 None) ∉ m_terminal mem_init →
       ts_created_at e = ts_created_at (demo_snapshot "succeeded" 5 None)).
Proof.
  apply (terminal_irreversible mem_init demo_closed demo_closed' (demo_snapshot "succeeded" 5 None)).
  - apply rtc_refl.
  - vm_compute. reflexivity.
  - apply rtc_once, (step_save _ _ 0 (demo_snapshot "" 9 (Some "p"))). vm_compute. reflexivity.
Defined.

(** [save] on any state, whatever clock validation reads. It raises
    TerminalStateViolationError exactly when the generation is terminal and
    the snapshot carries a non-empty status that differs from the recorded one
    (then nothing is written); otherwise the generation's record becomes the
    merge of the existing record with the snapshot (the snapshot itself for a
    new generation), and no other generation, and no terminal mark, changes.
    Re-validation of the merged record never fails. *)
Theorem mem_save_spec (now : Z) (st : MemorySnapshotPart) (s : TaskSnapshot) :
  (mem_save now st s = Err (Contract TerminalStateViolationError) ↔ terminal_conflict st s) ∧
  (¬ terminal_conflict st s → ∃ st', mem_save now st s = Ok st' ∧
     m_terminal st' = m_terminal st ∧
     dget (m_snaps st') (snap_key s)
       = Some (saved_record (dget (m_snaps st) (snap_key s)) s) ∧
     ∀ k, k ≠ snap_key s → dget (m_snaps st') k = dget (m_snaps st) k).
Proof.
  destruct (mem_save_cases now st s) as [[Hc E]|[Hn E]]; rewrite E.
  - split; [done|]. intros Hn. by destruct Hn.
  - split; [done|]. intros _. eexists. split; [done|]. simpl. split; [done|].
    split; [apply dget_dset_eq|]. intros k Hk. by apply dget_dset_ne.
Qed.

(** [save_terminal] is idempotent up to the producer clocks. On a closed
    generation it accepts, and leaves the store untouched, exactly the
    snapshots that agree with the recorded one on every field but created_at
    and updated_at; any other is a TerminalStateViolationError. On an open or
    new generation it is accepted, stores the snapshot and closes it. *)
Theorem mem_save_terminal_spec (st : MemorySnapshotPart) (s : TaskSnapshot)
  (Hwf : mem_wf st) :
  (snap_key s ∉ m_terminal st →
     mem_save_terminal st s
     = Ok (mkMem (dset (m_snaps st) (snap_key s) s) ({[snap_key s]} ∪ m_terminal st)))
  ∧ (snap_key s ∈ m_terminal st → ∃ e,
       dget (m_snaps st) (snap_key s) = Some e ∧
       mem_save_terminal st s =
         if decide (s = set_clocks (ts_created_at s) (ts_updated_at s) e)
         then Ok st else Err (Contract TerminalStateViolationError)).
Proof.
  destruct (mem_save_terminal_cases st s) as [(Hin & e & He & E)|[Hn E]]; rewrite E.
  - split; [intros Hn; destruct (Hn Hin)|]. intros _. exists e. split; [done|].
    pose proof (idempotent_dump_iff e s) as Hi.
    destruct (idempotent_payload_equal _ _), (decide _) as [Hd|Hd]; try done.
    + destruct Hd. by apply Hi.
    + by apply Hi in Hd.
  - split; [done|]. intros Hin. destruct (wf_terminal _ Hwf _ Hin) as [e He].
    by rewrite Hn in He.
Qed.

Lemma mem_save_terminal_spec_witness :
  snap_key (demo_snapshot "succeeded" 77 None) ∈ m_terminal demo_closed ∧ ∃ e,
    dget (m_snaps demo_closed) (snap_key (demo_snapshot "succeeded" 77 None)) = Some e ∧
    mem_save_terminal demo_closed (demo_snapshot "succeeded" 77 None) =
      if decide (demo_snapshot "succeeded" 77 None
                 = set_clocks (ts_created_at (demo_snapshot "succeeded" 77 None))
                     (ts_updated_at (demo_snapshot "succeeded" 77 None)) e)
      then Ok demo_closed else Err (Contract TerminalStateViolationError).
Proof.
  assert (Hin : snap_key (demo_snapshot "succeeded" 77 None) ∈ m_terminal demo_closed)
    by (by_compute).
  split; [exact Hin|].
  refine (proj2 (mem_save_terminal_spec demo_closed (demo_snapshot "succeeded" 77 None) _) Hin).
  split.
  - apply NoDup_singleton.
  - intros k s H. simpl in H. destruct (decide _) as [E|]; [|done]. injection H as <-. exact E.
  - intros k Hk. unfold demo_closed in Hk. cbn in Hk.
    apply elem_of_singleton in Hk as ->. by eexists.
Defined.

#[export] Instance snapshot_row_laws : SnapshotRowLaws TaskSnapshot.
Proof. split; simpl; intros *; rewrite ?Z.geb_le, ?Z.geb_leb, ?Z.leb_gt; lia. Qed.

Lemma elem_of_alive_rows now st s :
  s ∈ alive_rows now st ↔ _alive now s = true ∧ s ∈ dvalues (m_snaps st).
Proof. unfold alive_rows. by rewrite list_elem_of_filter. Qed.

(** [get_tree] is sound at every depth bound. It returns only alive
    stored records of tasks reachable from the root along parent links, each
    at most once, also on cyclic parent graphs; with [latest_only] it keeps
    one record per (task, step), one with the greatest creation instant among
    those collected. *)
Theorem mem_get_tree_sound (now : Z) (st : MemorySnapshotPart) (root : string)
  (max_depth : option Z) (Hwf : mem_wf st) :
  (∀ latest_only s, s ∈ mem_get_tree now st root max_depth latest_only →
     _alive now s = true ∧ dget (m_snaps st) (snap_key s) = Some s ∧
     rtc (child_of (alive_rows now st)) root (ts_task_id s)) ∧
  NoDup (mem_get_tree now st root max_depth false) ∧
  NoDup (node_of <$> mem_get_tree now st root max_depth true) ∧
  (∀ s, s ∈ mem_get_tree now st root max_depth false →
     ∃ s', s' ∈ mem_get_tree now st root max_depth true ∧ node_of s' = node_of s
           ∧ ts_created_at s <= ts_created_at s').
Proof.
  set (alive := alive_rows now st). split_and!.
  - intros lo s Hs. apply tree_rows_sound in Hs as [Hs Hr].
    apply elem_of_alive_rows in Hs as [Ha Hv]. split; [done|]. split; [by apply wf_values|done].
  - apply tree_rows_nodup, NoDup_filter, wf_values_NoDup, Hwf.
  - apply tree_rows_nodup.
  - intros s Hs. destruct (tree_rows_latest _ _ _ _ Hs) as (s' & ? & ? & Hc).
    exists s'. split_and!; [done..|]. apply Z.geb_le in Hc. lia.
Qed.

(** [get_tree] is complete when the depth bound cannot bind. If the alive
    store has at most [depth_limit + 1] distinct task ids (33 for the default
    bound), the raw tree is exactly the alive records of every task reachable
    from the root along parent links, cycles included. *)
Theorem mem_get_tree_complete (now : Z) (st : MemorySnapshotPart) (root : string)
  (max_depth : option Z) (s : TaskSnapshot)
  (Hbound : Z.of_nat (size (task_universe (alive_rows now st) root))
            <= with_default _MAX_TRAVERSAL_DEPTH max_depth + 1) :
  s ∈ mem_get_tree now st root max_depth false ↔
  s ∈ alive_rows now st ∧ rtc (child_of (alive_rows now st)) root (ts_task_id s).
Proof.
  exact (tree_rows_complete (alive_rows now st) root max_depth s Hbound).
Qed.

Definition demo_tree : MemorySnapshotPart :=
  mkMem [(("r", "s", "e"), mkSnapshot "r" "s" "e" (Some "c") "running" None None None None None 1 1 None);
         (("c", "s", "e"), mkSnapshot "c" "s" "e" (Some "r") "running" None None None None None 2 2 None)]
    ∅.

Lemma demo_tree_wf : mem_wf demo_tree.
Proof.
  split.
  - by_compute.
  - intros k s H. simpl in H. repeat destruct (decide _) as [E|]; [..|done];
      injection H as <-; exact E.
  - intros k Hk. by apply elem_of_empty in Hk.
Qed.

Lemma mem_get_tree_sound_witness :
  (∀ latest_only s, s ∈ mem_get_tree 0 demo_tree "r" None latest_only →
     _alive 0 s = true ∧ dget (m_snaps demo_tree) (snap_key s) = Some s ∧
     rtc (child_of (alive_rows 0 demo_tree)) "r" (ts_task_id s)) ∧
  NoDup (mem_get_tree 0 demo_tree "r" None false) ∧
  NoDup (node_of <$> mem_get_tree 0 demo_tree "r" None true) ∧
  (∀ s, s ∈ mem_get_tree 0 demo_tree "r" None false →
     ∃ s', s' ∈ mem_get_tree 0 demo_tree "r" None true ∧ node_of s' = node_of s
           ∧ ts_created_at s <= ts_created_at s').
Proof. exact (mem_get_tree_sound 0 demo_tree "r" None demo_tree_wf). Defined.

Lemma mem_get_tree_complete_witness :
  let c := mkSnapshot "c" "s" "e" (Some "r") "running" None None None None None 2 2 None in
  c ∈ mem_get_tree 0 demo_tree "r" None false ↔
  c ∈ alive_rows 0 demo_tree ∧ rtc (child_of (alive_rows 0 demo_tree)) "r" (ts_task_id c).
Proof.
  intros c. apply (mem_get_tree_complete 0 demo_tree "r" None c). vm_compute. discriminate.
Defined.

(** * Query and point reads *)

Lemma key_le_total a b : key_le a b = false → key_le b a = true.
Proof. destruct a as [[] ?], b as [[] ?]; simpl; try done; lia. Qed.

Lemma key_le_trans a b c : key_le a b = true → key_le b c = true → key_le a c = true.
Proof. destruct a as [[] ?], b as [[] ?], c as [[] ?]; simpl; try done; lia. Qed.

(** The order a [Sort] asks for. *)
Definition sort_le (sort : Sort) (a b : TaskSnapshot) : bool :=
  match so_direction sort with
  | ASC => key_le (sort_key (so_field sort) a) (sort_key (so_field sort) b)
  | DESC => key_le (sort_key (so_field sort) b) (sort_key (so_field sort) a)
  end.

Lemma sort_rows_spec sort rows :
  sort_rows sort rows ≡ₚ rows ∧
  StronglySorted (λ a b, sort_le sort a b = true) (sort_rows sort rows).
Proof.
  unfold sort_rows, sort_le. destruct (so_direction sort); split;
    try apply isort_perm; apply isort_sorted; intros *;
    eauto using key_le_total, key_le_trans.
Qed.

(** The rows a query selects, before sorting and paging. *)
Definition query_matches (status parent : option string) (tr : option TimeRange)
  (s : TaskSnapshot) : Prop :=
  (∀ x, status = Some x → ts_status s = x) ∧
  (∀ p, parent = Some p → ts_parent_task_id s = Some p) ∧
  (∀ r a, tr = Some r → tr_start r = Some a → a <= ts_created_at s) ∧
  (∀ r b, tr = Some r → tr_end r = Some b → ts_created_at s < b).

Lemma in_range_iff tr t :
  in_range tr t = true ↔
  (∀ r a, tr = Some r → tr_start r = Some a → a <= t) ∧
  (∀ r b, tr = Some r → tr_end r = Some b → t < b).
Proof.
  destruct tr as [[[a|] [b|]]|]; simpl; rewrite ?andb_true_iff, ?Z.geb_le, ?Z.ltb_lt; naive_solver.
Qed.

Lemma opt_match_iff {A} `{EqDecision A} (want : option A) got :
  opt_match want got = true ↔ ∀ x, want = Some x → got = x.
Proof. destruct want; simpl; rewrite ?bool_decide_eq_true; naive_solver. Qed.

(** [query]. A sort field outside the mechanism whitelist is an
    InvalidQueryError; otherwise the answer is the requested page of a list
    sorted as asked, whose elements are exactly the alive records that are the
    latest of their node and satisfy every given filter (status, parent, and
    the half-open creation range). *)
Theorem mem_query_spec (now : Z) (st : MemorySnapshotPart) (status parent : option string)
  (tr : option TimeRange) (page : option Page) (sort : option Sort) :
  let srt := with_default default_sort sort in
  let pg := with_default default_page page in
  match mem_query now st status parent tr page sort with
  | Err e => e = InvalidQueryError ∧ so_field srt ∉ SORT_FIELDS_snapshot
  | Ok rows => so_field srt ∈ SORT_FIELDS_snapshot ∧ ∃ all,
      rows = take (Z.to_nat (pg_limit pg)) (drop (Z.to_nat (pg_offset pg)) all) ∧
      StronglySorted (λ a b, sort_le srt a b = true) all ∧
      ∀ s, s ∈ all ↔ s ∈ _latest_per_node (alive_rows now st)
                     ∧ query_matches status parent tr s
  end.
Proof.
  intros srt pg. unfold mem_query, sort_page. fold srt pg.
  destruct (decide (so_field srt ∈ SORT_FIELDS_snapshot)) as [Hin|Hn]; [|done].
  split; [done|]. set (rows := filter _ _).
  destruct (sort_rows_spec srt rows) as [Hp Hs]. eexists; split; [done|]. split; [done|].
  intros s. rewrite Hp. unfold rows, query_matches.
  rewrite !list_elem_of_filter, in_range_iff, !opt_match_iff.
  assert (Hpar : (∀ x, Some <$> parent = Some x → ts_parent_task_id s = x) ↔
    (∀ p, parent = Some p → ts_parent_task_id s = Some p)).
  { destruct parent; simpl; naive_solver. }
  rewrite Hpar. tauto.
Qed.

Lemma last_sorted {A} (le : A → A → bool) l x :
  StronglySorted (λ a b, le a b = true) l → last l = Some x → ∀ y, y ∈ l → y = x ∨ le y x = true.
Proof.
  intros Hs. induction Hs as [|a l Hs IH Hall]; [done|].
  destruct l as [|b l]; simpl.
  - intros [= ->] y Hy. left. by apply list_elem_of_singleton in Hy.
  - intros Hl y [->|Hy]%elem_of_cons; [|by apply IH].
    right. rewrite Forall_forall in Hall. apply Hall. by apply last_Some_elem_of.
Qed.

(** [get] answers [None] exactly when no alive record matches the task,
    the step and the requested generation; otherwise it answers an alive
    matching stored record with the greatest creation instant of those. *)
Theorem mem_get_spec (now : Z) (st : MemorySnapshotPart) (task_id step : string)
  (execution_id : option string) (Hwf : mem_wf st) :
  let matches s := dget (m_snaps st) (snap_key s) = Some s ∧ _alive now s = true
    ∧ ts_task_id s = task_id ∧ ts_step s = step
    ∧ (∀ e, execution_id = Some e → ts_execution_id s = e) in
  match mem_get now st task_id step execution_id with
  | None => ∀ s, ¬ matches s
  | Some s => matches s ∧ ∀ s', matches s' → ts_created_at s' <= ts_created_at s
  end.
Proof.
  intros matches. unfold mem_get. set (rows := filter _ _).
  assert (Hrows : ∀ s, s ∈ rows ↔ matches s).
  { intros s. unfold rows, matches. rewrite list_elem_of_filter, list_elem_of_fmap.
    setoid_rewrite list_elem_of_filter. setoid_rewrite opt_match_iff. split.
    - intros (Ha & [[[t e] x] s'] & -> & (H1 & H2 & H3) & Hin). simpl in *.
      apply elem_dget in Hin; [|apply Hwf]. pose proof (wf_key _ Hwf _ _ Hin) as Hk.
      unfold snap_key in *. simplify_eq. done.
    - intros (Hd & Ha & <- & <- & He). split; [done|]. exists (snap_key s, s). simpl.
      split; [done|]. split; [done|]. by apply dget_elem. }
  destruct (last _) as [s|] eqn:El.
  - assert (Hin : s ∈ rows). { apply last_Some_elem_of in El. by apply elem_of_isort in El. }
    split; [by apply Hrows|]. intros s' Hs'%Hrows.
    assert (Hs : StronglySorted (λ a b, (ts_created_at a <=? ts_created_at b) = true)
      (isort (λ a b, ts_created_at a <=? ts_created_at b) rows))
      by (apply isort_sorted; intros *; lia).
    destruct (last_sorted _ _ _ Hs El s') as [->|]; [by apply elem_of_isort|lia|lia].
  - intros s Hs%Hrows. apply last_None in El.
    assert (Hs' : s ∈ isort (λ a b, ts_created_at a <=? ts_created_at b) rows)
      by by apply elem_of_isort.
    rewrite El in Hs'. by apply elem_of_nil in Hs'.
Qed.

Lemma mem_get_spec_witness :
  let matches s := dget (m_snaps demo_tree) (snap_key s) = Some s ∧ _alive 0 s = true
    ∧ ts_task_id s = "c" ∧ ts_step s = "s"
    ∧ (∀ e, None = Some e → ts_execution_id s = e) in
  match mem_get 0 demo_tree "c" "s" None with
  | None => ∀ s, ¬ matches s
  | Some s => matches s ∧ ∀ s', matches s' → ts_created_at s' <= ts_created_at s
  end.
Proof. exact (mem_get_spec 0 demo_tree "c" "s" None demo_tree_wf). Defined.

(** [get_ancestors] is empty for an unknown or expired task; otherwise it
    is a chain listed root first: consecutive records are parent and child,
    every record is the alive latest one of its task, no task occurs twice
    (cycle safety), the chain ends with the task's own record when
    [include_self] and with its parent otherwise, and at most 32 ancestors are
    listed. *)
Theorem mem_get_ancestors_spec (now : Z) (st : MemorySnapshotPart) (task_id : string)
  (include_self : bool) :
  let latest t s := s ∈ alive_rows now st ∧ ts_task_id s = t ∧
    ∀ s', s' ∈ alive_rows now st → ts_task_id s' = t → ts_created_at s' <= ts_created_at s in
  let chain := mem_get_ancestors now st task_id include_self in
  (chain = [] ∧ ∀ s, s ∈ alive_rows now st → ts_task_id s ≠ task_id) ∨
  ∃ self, latest task_id self ∧ linked chain ∧ NoDup (ts_task_id <$> chain) ∧
    (∀ s, s ∈ chain → latest (ts_task_id s) s) ∧
    Z.of_nat (length chain) <= _MAX_TRAVERSAL_DEPTH + (if include_self then 1 else 0) ∧
    (if include_self then last chain = Some self
     else ∀ a, last chain = Some a → ts_parent_task_id self = Some (ts_task_id a)).
Proof.
  intros latest. assert (Hl : ∀ t s, latest_row (alive_rows now st) t s → latest t s).
  { intros t s (H1 & H2 & H3). split_and!; [done..|]. intros s' Hs' Ht.
    specialize (H3 s' Hs' Ht). apply Z.geb_le in H3. lia. }
  destruct (ancestors_rows_spec (alive_rows now st) task_id include_self)
    as [?|(self & H1 & H2 & H3 & H4 & H5 & H6)]; [by left|right].
  exists self. split_and!; auto.
Qed.
