(* ===== verification/MemoryParts.v ===== *)
(** The other four domains of the in-memory adapter ([adapter-memory/parts]):
    audit events (audit.py), content blobs (content.py), stream results with
    lazy expiry (result.py) and dependency edges (dependency.py), and the
    facade that composes the five parts (store.py). *)
From S2P Require Import Prelude Mechanism SnapshotModel Traversal MemorySnapshot.
From stdpp Require Import prelude gmap strings list pretty.
From Stdlib Require Import ZArith Lia Sorting.Permutation Sorting.Sorted.
Local Open Scope string_scope.
Local Open Scope list_scope.
Local Open Scope Z_scope.

(** * Audit domain *)
Module Audit.

(** MemoryAuditPart._events *)
Definition MemoryAuditPart : Type := list (string * AuditEvent).

(** MemoryAuditPart.append *)
Definition audit_append (st : MemoryAuditPart) (event : AuditEvent)
  : res ContractError MemoryAuditPart :=
  match dget st (ae_event_id event) with
  | None => Ok (dset st (ae_event_id event) event)
  | Some existing =>
      if idempotent_payload_equal (audit_dump existing) (audit_dump event)
      then Ok st else Err IdempotencyConflictError
  end.

(** [getattr(e, sort.field)] for the two whitelisted fields. *)
Definition field_le (field : string) (a b : AuditEvent) : bool :=
  if decide (field = "event_id") then String.leb (ae_event_id a) (ae_event_id b)
  else ae_created_at a <=? ae_created_at b.

Definition audit_sort_le (sort : Sort) (a b : AuditEvent) : bool :=
  match so_direction sort with
  | ASC => field_le (so_field sort) a b
  | DESC => field_le (so_field sort) b a
  end.

(** The conjunction of the optional filters of query. *)
Definition selected (task_id scope event_type : option string) (tr : option TimeRange)
  (e : AuditEvent) : bool :=
  opt_match task_id (ae_task_id e) && opt_match (Some <$> scope) (ae_scope e)
  && opt_match event_type (ae_event_type e) && in_range tr (ae_created_at e).

(** MemoryAuditPart.query *)
Definition audit_query (st : MemoryAuditPart) (task_id scope event_type : option string)
  (tr : option TimeRange) (page : option Page) (sort : option Sort)
  : res ContractError (list AuditEvent) :=
  let rows := filter (λ e, selected task_id scope event_type tr e = true) (dvalues st) in
  let sort := with_default default_sort sort in
  if decide (so_field sort ∈ SORT_FIELDS_audit) then
    let page := with_default default_page page in
    Ok (page_slice (pg_offset page) (pg_limit page) (isort (audit_sort_le sort) rows))
  else Err InvalidQueryError.

(** ** Lemmas *)

Lemma audit_field_le_total f a b : field_le f a b = false → field_le f b a = true.
Proof. unfold field_le. destruct (decide _); [apply string_leb_total|lia]. Qed.

Lemma audit_field_le_trans f a b c :
  field_le f a b = true → field_le f b c = true → field_le f a c = true.
Proof. unfold field_le. destruct (decide _); [apply string_leb_trans|lia]. Qed.

Lemma audit_sort_le_spec sort l :
  isort (audit_sort_le sort) l ≡ₚ l ∧
  StronglySorted (λ a b, audit_sort_le sort a b = true) (isort (audit_sort_le sort) l).
Proof.
  split; [apply isort_perm|]. apply isort_sorted; unfold audit_sort_le;
    destruct (so_direction sort); intros *;
    eauto using audit_field_le_total, audit_field_le_trans.
Qed.

Definition audit_fields : list string :=
  ["event_id"; "task_id"; "scope"; "event_type"; "source"; "payload"; "created_at"].

Lemma lookup_audit_dump e :
  audit_dump e !! "event_id" = Some (JStr (ae_event_id e))
  ∧ audit_dump e !! "task_id" = Some (JStr (ae_task_id e))
  ∧ audit_dump e !! "scope" = Some (jopt JStr (ae_scope e))
  ∧ audit_dump e !! "event_type" = Some (JStr (ae_event_type e))
  ∧ audit_dump e !! "source" = Some (JStr (ae_source e))
  ∧ audit_dump e !! "payload" = Some (JObj (ae_payload e)).
Proof. unfold audit_dump. split_and!; by simplify_map_eq. Qed.

(** The same event reported with another clock. *)
Definition set_created (t : Z) (e : AuditEvent) : AuditEvent :=
  mkAudit (ae_event_id e) (ae_task_id e) (ae_scope e) (ae_event_type e) (ae_source e)
    (ae_payload e) t.

Lemma audit_dump_set_created t e :
  strip (audit_dump (set_created t e)) = strip (audit_dump e).
Proof.
  apply map_eq. intros k. rewrite !lookup_strip.
  destruct (decide (k ∈ IDEMPOTENCY_EXCLUDED_FIELDS)) as [|Hk]; [done|].
  apply not_elem_of_cons in Hk as [Hk _]. unfold audit_dump, set_created; cbn.
  destruct (decide (k ∈ audit_fields)) as [Hin|Hout].
  - unfold audit_fields in Hin.
    repeat (apply elem_of_cons in Hin as [->|Hin]; [by simplify_map_eq|]).
    by apply elem_of_nil in Hin.
  - unfold audit_fields in Hout. repeat (apply not_elem_of_cons in Hout as [? Hout]).
    rewrite !lookup_insert_ne by congruence. by rewrite !lookup_singleton_ne by congruence.
Qed.

Lemma idempotent_audit_iff a b :
  idempotent_payload_equal (audit_dump a) (audit_dump b) = true ↔
  b = set_created (ae_created_at b) a.
Proof.
  unfold idempotent_payload_equal. rewrite bool_decide_eq_true. split.
  - intros Heq.
    assert (Hk : ∀ k, k ∉ IDEMPOTENCY_EXCLUDED_FIELDS → audit_dump a !! k = audit_dump b !! k).
    { intros k Hk. assert (E : strip (audit_dump a) !! k = strip (audit_dump b) !! k)
        by by rewrite Heq.
      by rewrite !lookup_strip, !decide_False in E by done. }
    destruct (lookup_audit_dump a) as (A1 & A2 & A3 & A4 & A5 & A6).
    destruct (lookup_audit_dump b) as (B1 & B2 & B3 & B4 & B5 & B6).
    rewrite Hk, B1 in A1 by by_compute. rewrite Hk, B2 in A2 by by_compute.
    rewrite Hk, B3 in A3 by by_compute. rewrite Hk, B4 in A4 by by_compute.
    rewrite Hk, B5 in A5 by by_compute. rewrite Hk, B6 in A6 by by_compute.
    clear Hk Heq B1 B2 B3 B4 B5 B6. destruct a as [? ? sa ? ? ? ?], b as [? ? sb ? ? ? ?].
    unfold set_created; cbn in *.
    injection A1 as <-. injection A2 as <-. injection A4 as <-. injection A5 as <-.
    injection A6 as <-. destruct sa, sb; simpl in A3; congruence.
  - intros ->. by rewrite audit_dump_set_created.
Qed.

Local Opaque audit_dump idempotent_payload_equal.

(** The audit trail is append-only and idempotent. A new event id is
    appended at the end; a known id is accepted, leaving the trail as it is,
    exactly when the event agrees with the stored one on everything but its
    creation instant; otherwise it is an IdempotencyConflictError. Stored
    events are never changed, reordered or removed. *)
Theorem audit_append_spec (st : MemoryAuditPart) (event : AuditEvent) :
  match audit_append st event, dget st (ae_event_id event) with
  | Ok st', None => st' = st ++ [(ae_event_id event, event)]
  | Ok st', Some existing =>
      st' = st ∧ event = set_created (ae_created_at event) existing
  | Err e, Some existing =>
      e = IdempotencyConflictError ∧ event ≠ set_created (ae_created_at event) existing
  | Err _, None => False
  end.
Proof.
  unfold audit_append. destruct (dget st (ae_event_id event)) as [x|] eqn:E.
  - pose proof (idempotent_audit_iff x event) as Hi.
    destruct (idempotent_payload_equal _ _).
    + split; [done|]. by apply Hi.
    + split; [done|]. intros Hx. by apply Hi in Hx.
  - by apply dset_fresh.
Qed.

(** The audit query answers the requested page of the selected events
    sorted as asked (a whitelisted field, ascending or descending), or
    InvalidQueryError for any other field; every filter left out selects all
    events and the time range is half-open. *)
Theorem audit_query_spec (st : MemoryAuditPart) (task_id scope event_type : option string)
  (tr : option TimeRange) (page : option Page) (sort : option Sort) :
  let srt := with_default default_sort sort in
  let pg := with_default default_page page in
  match audit_query st task_id scope event_type tr page sort with
  | Err e => e = InvalidQueryError ∧ so_field srt ∉ SORT_FIELDS_audit
  | Ok rows => so_field srt ∈ SORT_FIELDS_audit ∧ ∃ all,
      rows = take (Z.to_nat (pg_limit pg)) (drop (Z.to_nat (pg_offset pg)) all) ∧
      StronglySorted (λ a b, audit_sort_le srt a b = true) all ∧
      ∀ e, e ∈ all ↔ e ∈ dvalues st
        ∧ (∀ t, task_id = Some t → ae_task_id e = t)
        ∧ (∀ x, scope = Some x → ae_scope e = Some x)
        ∧ (∀ t, event_type = Some t → ae_event_type e = t)
        ∧ (∀ r a, tr = Some r → tr_start r = Some a → a <= ae_created_at e)
        ∧ (∀ r b, tr = Some r → tr_end r = Some b → ae_created_at e < b)
  end.
Proof.
  intros srt pg. unfold audit_query. fold srt pg.
  destruct (decide (so_field srt ∈ SORT_FIELDS_audit)) as [Hf|]; [|done]. split; [done|].
  set (rows := filter _ _). destruct (audit_sort_le_spec srt rows) as [Hp Hs].
  eexists; split; [done|]. split; [done|]. intros e. rewrite Hp. unfold rows, selected.
  rewrite list_elem_of_filter, !andb_true_iff, !opt_match_iff, in_range_iff.
  assert (Hsc : (∀ x, Some <$> scope = Some x → ae_scope e = x) ↔
    (∀ x, scope = Some x → ae_scope e = Some x)) by (destruct scope; simpl; naive_solver).
  rewrite Hsc. tauto.
Qed.

End Audit.

(** * Content domain *)
Module Content.

(** MemoryContentPart: blobs (bytes as a string of octets) and a counter. *)
Record MemoryContentPart := mkContent {
  c_data : list (string * (string * row));
  c_seq : N;
}.

Definition content_init : MemoryContentPart := mkContent [] 0%N.

Definition content_key (seq : N) : string := "mem://content/" +:+ pretty seq.

Definition put_meta (content_type : option string) (metadata : option row) : row :=
  let meta := with_default ∅ metadata in
  match content_type with Some t => <["content_type" := JStr t]> meta | None => meta end.

(** MemoryContentPart.put *)
Definition content_put (st : MemoryContentPart) (content : string) (content_type : option string)
  (metadata : option row) : MemoryContentPart * TaskPointer :=
  let seq := (c_seq st + 1)%N in
  let key := content_key seq in
  let meta := put_meta content_type metadata in
  (mkContent (dset (c_data st) key (content, meta)) seq,
   mkPointer "memory" key (if decide (meta = ∅) then None else Some meta)).

(** MemoryContentPart.delete *)
Definition content_delete (st : MemoryContentPart) (p : TaskPointer) : MemoryContentPart * bool :=
  (mkContent (ddel (c_data st) (tp_key p)) (c_seq st), dmem (c_data st) (tp_key p)).

(** MemoryContentPart.get *)
Definition content_get (st : MemoryContentPart) (p : TaskPointer) : res ContractError string :=
  match dget (c_data st) (tp_key p) with
  | Some (content, _) => Ok content
  | None => Err (ContentNotFoundError (tp_key p))
  end.

(** MemoryContentPart.exists *)
Definition content_exists (st : MemoryContentPart) (p : TaskPointer) : bool :=
  dmem (c_data st) (tp_key p).

(** MemoryContentPart.get_metadata *)
Definition content_get_metadata (st : MemoryContentPart) (p : TaskPointer) : res ContractError row :=
  match dget (c_data st) (tp_key p) with
  | Some (_, meta) => Ok meta
  | None => Err (ContentNotFoundError (tp_key p))
  end.

(** ** Lemmas *)

(** The calls that change the part. *)
Inductive content_op : Type :=
| Put (content : string) (content_type : option string) (metadata : option row)
| Delete (p : TaskPointer).

Definition content_do (st : MemoryContentPart) (op : content_op) : MemoryContentPart :=
  match op with
  | Put c t m => (content_put st c t m).1
  | Delete p => (content_delete st p).1
  end.

Definition content_run (st : MemoryContentPart) (ops : list content_op) : MemoryContentPart :=
  fold_left content_do ops st.

(** Keys in use were issued by the counter. *)
Definition issued (st : MemoryContentPart) : Prop :=
  ∀ k, dmem (c_data st) k = true → ∃ n, (n ≤ c_seq st)%N ∧ k = content_key n.

Lemma content_key_inj m n : content_key m = content_key n → m = n.
Proof. unfold content_key. intros H. apply (inj (String.append _)) in H. by apply (inj pretty). Qed.

Lemma issued_do st op : issued st → issued (content_do st op).
Proof.
  unfold issued, dmem. intros H k. destruct op as [c t m|p]; simpl.
  - rewrite dget_dset. destruct (decide _) as [<-|]; intros Hk; [eexists; split; [|done]; lia|].
    destruct (H k Hk) as (n1 & ? & ->). exists n1. split; [lia|done].
  - rewrite dget_ddel. destruct (decide _); [done|]. apply H.
Qed.

Lemma issued_run st ops : issued st → issued (content_run st ops).
Proof.
  revert st. induction ops as [|op ops IH]; intros st H; simpl; [done|].
  by apply IH, issued_do.
Qed.

Definition deletes (key : string) (op : content_op) : bool :=
  match op with Delete p => bool_decide (tp_key p = key) | Put _ _ _ => false end.

(** A key at or below the counter is never written again. *)
Lemma content_run_old st ops n :
  (n ≤ c_seq st)%N →
  dget (c_data (content_run st ops)) (content_key n) =
  if existsb (deletes (content_key n)) ops then None else dget (c_data st) (content_key n).
Proof.
  revert st. induction ops as [|op ops IH]; intros st Hn; [done|]. simpl.
  destruct op as [c t m|p]; simpl.
  - rewrite IH by (simpl; lia). simpl. destruct (existsb _ _); [done|].
    rewrite dget_dset_ne; [done|]. intros E%content_key_inj. lia.
  - rewrite IH by done. simpl. rewrite dget_ddel.
    case_bool_decide; case_decide; simpl; try done; by destruct (existsb _ _).
Qed.

(** Content is immutable and keys are never reused. In every reachable
    store a put issues a key not in use; after any further puts and deletes
    the blob and its metadata read back unchanged through the issued pointer,
    unless some delete named its key, in which case every later read is
    ContentNotFoundError, even if other content was put since. *)
Theorem content_put_get (ops1 ops2 : list content_op) (content : string)
  (content_type : option string) (metadata : option row) :
  let st := content_run content_init ops1 in
  let (st1, p) := content_put st content content_type metadata in
  let st2 := content_run st1 ops2 in
  content_exists st p = false ∧
  if existsb (deletes (tp_key p)) ops2 then
    content_get st2 p = Err (ContentNotFoundError (tp_key p)) ∧
    content_get_metadata st2 p = Err (ContentNotFoundError (tp_key p)) ∧
    content_exists st2 p = false
  else
    content_get st2 p = Ok content ∧
    content_get_metadata st2 p = Ok (put_meta content_type metadata) ∧
    content_exists st2 p = true.
Proof.
  intros st. unfold content_put. cbn zeta. set (st1 := mkContent _ _).
  assert (Hi : issued st) by by apply issued_run.
  split.
  - unfold content_exists. simpl. destruct (dmem _ _) eqn:E; [|done].
    destruct (Hi _ E) as (n & ? & Heq%content_key_inj). lia.
  - unfold content_get, content_get_metadata, content_exists, dmem. cbn [tp_key].
    rewrite (content_run_old st1) by (simpl; lia).
    destruct (existsb _ ops2); [done|]. unfold st1. simpl. by rewrite dget_dset_eq.
Qed.

End Content.

(** * Result domain *)
Module Result.

(** MemoryResultPart._data *)
Definition MemoryResultPart : Type := list (string * (row * Z)).

(** MemoryResultPart.save *)
Definition result_save (st : MemoryResultPart) (stream_id : string) (manifest : row) (expire_at : Z)
  : MemoryResultPart := dset st stream_id (manifest, expire_at).

(** MemoryResultPart.get; [now] is the clock at the call. *)
Definition result_get (now : Z) (st : MemoryResultPart) (stream_id : string) : option row :=
  match dget st stream_id with
  | None => None
  | Some (manifest, expire_at) => if now >? expire_at then None else Some manifest
  end.

End Result.

(** * Dependency domain *)
Module Dependency.

(** MemoryDependencyPart._edges *)
Definition MemoryDependencyPart : Type := list ((string * string) * DependencyEdge).

Definition edge_key (e : DependencyEdge) : string * string := (de_child_id e, de_parent_id e).

(** MemoryDependencyPart.write_dependency *)
Definition write_dependency (st : MemoryDependencyPart) (edge : DependencyEdge)
  : res ContractError MemoryDependencyPart :=
  match dget st (edge_key edge) with
  | None => Ok (dset st (edge_key edge) edge)
  | Some existing =>
      if bool_decide (de_is_primary existing ≠ de_is_primary edge)
      then Err IdempotencyConflictError else Ok st
  end.

(** The bidirectional adjacency: [adjacency.setdefault(a, set()).add(b)]. *)
Definition add_adj (m : gmap string (gset string)) (a b : string) : gmap string (gset string) :=
  <[a := {[b]} ∪ with_default ∅ (m !! a)]> m.

Definition adjacency (keys : list (string * string)) : gmap string (gset string) :=
  fold_left (λ m k, add_adj (add_adj m k.1 k.2) k.2 k.1) keys ∅.

(** The body of the loop over one node's neighbours. *)
Definition visit (acc : gset string * list string) (nxt : string) : gset string * list string :=
  if decide (nxt ∈ acc.1) then acc else ({[nxt]} ∪ acc.1, acc.2 ++ [nxt]).

Section Bfs.
(** [iter_set]: the iteration order of a Python set, which the language leaves
    open. *)
Variable iter_set : gset string → list string.

(** The [while queue] loop; [None] when the fuel runs out. *)
Fixpoint bfs (adj : gmap string (gset string)) (fuel : nat)
  (visited : gset string) (queue : list string) : option (gset string) :=
  match queue with
  | [] => Some visited
  | node :: queue' =>
      match fuel with
      | O => None
      | S fuel' =>
          let acc := fold_left visit (iter_set (with_default ∅ (adj !! node))) (visited, queue') in
          bfs adj fuel' acc.1 acc.2
      end
  end.

(** read_graph over the edge keys and the edges of the store: at most
    [2 * edges + 1] tasks are ever queued. *)
Definition graph_of (keys : list (string * string)) (edges : list DependencyEdge)
  (root_task_id : string) : option DependencyGraph :=
  let adj := adjacency keys in
  match bfs adj (2 * length keys + 1) {[root_task_id]} [root_task_id] with
  | None => None
  | Some visited =>
      Some (mkGraph root_task_id (sorted_strings (elements visited))
        (filter (λ e, de_child_id e ∈ visited) edges))
  end.

(** MemoryDependencyPart.read_graph *)
Definition read_graph (st : MemoryDependencyPart) (root_task_id : string)
  : option DependencyGraph := graph_of (dkeys st) (dvalues st) root_task_id.
End Bfs.

(** MemoryDependencyPart.all_edges, children_of, parents_of *)
Definition all_edges (st : MemoryDependencyPart) : list DependencyEdge := dvalues st.

Definition children_of (st : MemoryDependencyPart) (parent_task_id : string) : list string :=
  sorted_strings (filter (λ k : string * string, k.2 = parent_task_id) (dkeys st)).*1.

Definition parents_of (st : MemoryDependencyPart) (child_task_id : string) : list string :=
  sorted_strings (filter (λ k : string * string, k.1 = child_task_id) (dkeys st)).*2.

(** ** Reachability *)

(** [a] and [b] are the two ends of a stored edge. *)
Definition neighbour (keys : list (string * string)) (a b : string) : Prop :=
  (a, b) ∈ keys ∨ (b, a) ∈ keys.

Lemma elem_of_add_adj m a b x y :
  y ∈ with_default ∅ (add_adj m a b !! x) ↔ y ∈ with_default ∅ (m !! x) ∨ (x = a ∧ y = b).
Proof.
  unfold add_adj. destruct (decide (x = a)) as [->|].
  - rewrite lookup_insert_eq. simpl. set_solver.
  - rewrite lookup_insert_ne by done. naive_solver.
Qed.

Lemma elem_of_adjacency keys x y :
  y ∈ with_default ∅ (adjacency keys !! x) ↔ neighbour keys x y.
Proof.
  unfold adjacency, neighbour. induction keys as [|[c p] keys IH] using rev_ind.
  { simpl. rewrite lookup_empty. set_solver. }
  rewrite fold_left_app. simpl. rewrite !elem_of_add_adj, IH, !elem_of_app,
    !list_elem_of_singleton. naive_solver.
Qed.

Lemma fold_visit l v q :
  ∃ new, fold_left visit l (v, q) = (v ∪ list_to_set l, q ++ new)
  ∧ size (v ∪ list_to_set l) = (size v + length new)%nat
  ∧ (∀ x, x ∈ new ↔ x ∈ l ∧ x ∉ v).
Proof.
  revert v q. induction l as [|x l IH]; intros v q; cbn [fold_left].
  - exists []. rewrite app_nil_r. simpl. rewrite (right_id_L ∅ (∪)).
    split; [done|]. split; [lia|set_solver].
  - unfold visit at 2. cbn [fst snd]. destruct (decide (x ∈ v)) as [Hx|Hx].
    + destruct (IH v q) as (new & -> & Hs & Hn). exists new.
      replace (v ∪ list_to_set (x :: l)) with (v ∪ list_to_set l) by set_solver.
      split; [done|]. split; [done|]. intros y. rewrite Hn. set_solver.
    + destruct (IH ({[x]} ∪ v) (q ++ [x])) as (new & -> & Hs & Hn). exists (x :: new).
      replace (v ∪ list_to_set (x :: l)) with ({[x]} ∪ v ∪ list_to_set l) by set_solver.
      rewrite <- app_assoc. split; [done|]. split.
      * rewrite Hs, size_union by set_solver. rewrite size_singleton. simpl. lia.
      * intros y. rewrite !elem_of_cons, Hn, not_elem_of_union, not_elem_of_singleton.
        destruct (decide (y = x)) as [->|]; naive_solver.
Qed.

(** The search invariant: [v] is visited, [q] waits. *)
Record bfs_inv (keys : list (string * string)) (root : string) (v : gset string)
  (q : list string) : Prop := {
  bi_root : root ∈ v;
  bi_queue : ∀ x, x ∈ q → x ∈ v;
  bi_done : ∀ x y, x ∈ v → x ∉ q → neighbour keys x y → y ∈ v;
  bi_reach : ∀ x, x ∈ v → rtc (neighbour keys) root x;
}.

Definition endpoints (keys : list (string * string)) (root : string) : gset string :=
  {[root]} ∪ list_to_set keys.*1 ∪ list_to_set keys.*2.

Lemma neighbour_endpoints keys root x y : neighbour keys x y → y ∈ endpoints keys root.
Proof.
  unfold neighbour, endpoints. rewrite !elem_of_union, !elem_of_list_to_set, !list_elem_of_fmap.
  intros [?|?]; [right; exists (x, y)|left; right; exists (y, x)]; done.
Qed.

Lemma reach_endpoints keys root x : rtc (neighbour keys) root x → x ∈ endpoints keys root.
Proof.
  revert x. apply rtc_ind_r; [unfold endpoints; set_solver|]. eauto using neighbour_endpoints.
Qed.

Lemma endpoints_size keys root : (size (endpoints keys root) ≤ 2 * length keys + 1)%nat.
Proof.
  unfold endpoints.
  pose proof (size_union_le ({[root]} ∪ list_to_set keys.*1 : gset string) (list_to_set keys.*2)).
  pose proof (size_union_le ({[root]} : gset string) (list_to_set keys.*1)).
  pose proof (size_list_to_set_le keys.*1). pose proof (size_list_to_set_le keys.*2).
  rewrite size_singleton, !length_fmap in *. lia.
Qed.

Section BfsCorrect.
Context (iter_set : gset string → list string).
Context (iter_set_spec : ∀ X x, x ∈ iter_set X ↔ x ∈ X).

Lemma bfs_correct keys root fuel v q :
  bfs_inv keys root v q →
  (size (endpoints keys root ∖ v) + length q ≤ fuel)%nat →
  ∃ v', bfs iter_set (adjacency keys) fuel v q = Some v' ∧
        ∀ x, x ∈ v' ↔ rtc (neighbour keys) root x.
Proof.
  revert v q. induction fuel as [|fuel IH]; intros v q [Hr Hq Hd Hre] Hf;
    (destruct q as [|x q]; simpl;
     [exists v; split; [done|]; intros y; split; [by apply Hre|]; revert y; apply rtc_ind_r;
      [done|intros y z _ Hyz Hy; exact (Hd y z Hy (not_elem_of_nil y) Hyz)]|]).
  { simpl in Hf. lia. }
  set (nb := iter_set _).
  assert (Hnb : ∀ y, y ∈ nb ↔ neighbour keys x y)
    by (intros y; unfold nb; by rewrite iter_set_spec, elem_of_adjacency).
  destruct (fold_visit nb v q) as (new & -> & Hs & Hn). cbn [fst snd]. apply IH.
  - split.
    + set_solver.
    + intros y [?|[??]%Hn]%elem_of_app; set_solver.
    + intros y z Hy Hyq Hyz. rewrite elem_of_app, Hn in Hyq.
      apply elem_of_union in Hy as [Hy|Hy%elem_of_list_to_set].
      * destruct (decide (y = x)) as [->|].
        -- apply elem_of_union_r, elem_of_list_to_set, Hnb, Hyz.
        -- apply elem_of_union_l. eapply Hd; [exact Hy| |exact Hyz]. set_solver.
      * destruct (decide (y ∈ v)) as [Hyv|]; [|naive_solver].
        destruct (decide (y = x)) as [->|].
        -- apply elem_of_union_r, elem_of_list_to_set, Hnb, Hyz.
        -- apply elem_of_union_l. eapply Hd; [exact Hyv| |exact Hyz]. set_solver.
    + intros y [Hy|Hy%elem_of_list_to_set%Hnb]%elem_of_union; [by apply Hre|].
      eapply rtc_r; [|exact Hy]. apply Hre, Hq. set_solver.
  - rewrite length_app. simpl in Hf.
    assert (size (endpoints keys root ∖ v)
      = (size (endpoints keys root ∖ (v ∪ list_to_set nb)) + length new)%nat); [|lia].
    set (U := endpoints keys root) in *.
    assert (HvU : v ⊆ U) by (intros y Hy; apply reach_endpoints; auto).
    assert (HnU : list_to_set nb ⊆ U)
      by (intros y Hy%elem_of_list_to_set%Hnb; by eapply neighbour_endpoints).
    rewrite !size_difference by set_solver.
    assert (size (v ∪ list_to_set nb) ≤ size U)%nat by (apply subseteq_size; set_solver).
    assert (size v ≤ size U)%nat by (by apply subseteq_size). lia.
Qed.

Lemma bfs_inv_init keys root : bfs_inv keys root {[root]} [root].
Proof. split; [set_solver..|]. intros x ->%elem_of_singleton. done. Qed.

Lemma graph_of_spec keys edges root :
  ∃ g, graph_of iter_set keys edges root = Some g ∧ dg_root_task_id g = root
  ∧ StronglySorted (λ a b, String.leb a b = true) (dg_task_ids g) ∧ NoDup (dg_task_ids g)
  ∧ (∀ t, t ∈ dg_task_ids g ↔ rtc (neighbour keys) root t)
  ∧ (∀ e, e ∈ dg_edges g ↔ e ∈ edges ∧ rtc (neighbour keys) root (de_child_id e)).
Proof.
  unfold graph_of.
  destruct (bfs_correct keys root (2 * length keys + 1) {[root]} [root]) as (v & -> & Hv).
  - apply bfs_inv_init.
  - pose proof (endpoints_size keys root).
    rewrite size_difference by (unfold endpoints; set_solver).
    rewrite size_singleton. simpl. lia.
  - eexists. split; [done|]. simpl. split; [done|]. unfold sorted_strings.
    split; [apply isort_sorted; [apply string_leb_total|apply string_leb_trans]|].
    split; [by rewrite isort_perm; apply NoDup_elements|]. split.
    + intros t. by rewrite elem_of_isort, elem_of_elements.
    + intros e. rewrite list_elem_of_filter, Hv. tauto.
Qed.
End BfsCorrect.

(** [read_graph] terminates and returns the connected component of the
    root in the undirected graph of the stored edges: task_ids is sorted,
    duplicate-free and lists exactly the tasks linked to the root by a path of
    edges in either direction (the root itself included), and the edges are
    exactly the stored ones whose child is in it; whatever order Python
    iterates its sets in, and on cyclic graphs too. *)
Theorem read_graph_spec (iter_set : gset string → list string)
  (iter_set_spec : ∀ X x, x ∈ iter_set X ↔ x ∈ X)
  (st : MemoryDependencyPart) (root : string) :
  ∃ g, read_graph iter_set st root = Some g ∧ dg_root_task_id g = root
  ∧ StronglySorted (λ a b, String.leb a b = true) (dg_task_ids g) ∧ NoDup (dg_task_ids g)
  ∧ (∀ t, t ∈ dg_task_ids g ↔ rtc (neighbour (dkeys st)) root t)
  ∧ (∀ e, e ∈ dg_edges g ↔ e ∈ dvalues st ∧ rtc (neighbour (dkeys st)) root (de_child_id e)).
Proof. by apply graph_of_spec. Qed.

Definition demo_edges : MemoryDependencyPart :=
  [(("b", "a"), mkEdge "b" "a" true 0); (("a", "b"), mkEdge "a" "b" false 1);
   (("y", "x"), mkEdge "y" "x" true 2)].

Lemma read_graph_spec_witness :
  ∃ g, read_graph elements demo_edges "a" = Some g ∧ dg_root_task_id g = "a"
  ∧ StronglySorted (λ a b, String.leb a b = true) (dg_task_ids g) ∧ NoDup (dg_task_ids g)
  ∧ (∀ t, t ∈ dg_task_ids g ↔ rtc (neighbour (dkeys demo_edges)) "a" t)
  ∧ (∀ e, e ∈ dg_edges g ↔ e ∈ dvalues demo_edges
          ∧ rtc (neighbour (dkeys demo_edges)) "a" (de_child_id e)).
Proof.
  apply (read_graph_spec elements). intros X x. apply elem_of_elements.
Defined.

Example demo_graph :
  dg_task_ids <$> read_graph elements demo_edges "a" = Some ["a"; "b"].
Proof. vm_compute. reflexivity. Qed.

(** Dependency edges are append-only facts keyed by (child, parent). A new
    pair is appended; a known pair is accepted without any change when the
    primary flag agrees and is an IdempotencyConflictError when it differs. *)
Theorem write_dependency_spec (st : MemoryDependencyPart) (edge : DependencyEdge) :
  match write_dependency st edge, dget st (edge_key edge) with
  | Ok st', None => st' = st ++ [(edge_key edge, edge)]
  | Ok st', Some existing => st' = st ∧ de_is_primary existing = de_is_primary edge
  | Err e, Some existing =>
      e = IdempotencyConflictError ∧ de_is_primary existing ≠ de_is_primary edge
  | Err _, None => False
  end.
Proof.
  unfold write_dependency. destruct (dget st (edge_key edge)) as [x|] eqn:E.
  - case_bool_decide as Hp; [done|]. split; [done|]. by destruct (decide (de_is_primary x = de_is_primary edge)).
  - by apply dset_fresh.
Qed.

End Dependency.

(** MemoryStore: the five parts side by side. *)
Record MemoryStore := mkStore {
  ms_content : Content.MemoryContentPart;
  ms_audit : Audit.MemoryAuditPart;
  ms_result : Result.MemoryResultPart;
  ms_snapshot : MemorySnapshotPart;
  ms_dependency : Dependency.MemoryDependencyPart;
}.

Definition store_init : MemoryStore := mkStore Content.content_init [] [] mem_init [].
