(* ===== verification/LocalSnapshot.v ===== *)
(** The local-file snapshot domain ([adapter-local/parts/snapshot.py]): an
    append-only stream of op envelopes (snapshots.ndjson, [_common.py]
    append_envelope / iter_envelopes), folded on every read. The ISO text form
    of instants is pydantic's and datetime's: a parameter [IsoTime]. *)
From S2P Require Import Prelude Mechanism SnapshotModel Traversal MemorySnapshot.
From stdpp Require Import prelude gmap strings list.
From Stdlib Require Import ZArith Lia Sorting.Permutation Sorting.Sorted.
From Stdlib Require Import Ascii.
Local Open Scope string_scope.
Local Open Scope list_scope.
Local Open Scope Z_scope.

(** ISO-8601 text of an aware instant: [iso] writes it (pydantic JSON mode),
    [from_iso] is [datetime.fromisoformat]. *)
Class IsoTime := {
  iso : Z → string;
  from_iso : string → option Z;
  from_iso_iso : ∀ t, from_iso (iso t) = Some t;
}.

(** _common.py parse_dt *)
Definition parse_dt `{IsoTime} (value : json) : option Z :=
  match value with JStr s => from_iso s | _ => None end.

(** to_payload of a pointer: [metadata] is left out when it is None. *)
Definition pointer_payload (p : TaskPointer) : json :=
  JObj (drop_none (<["backend" := JStr (tp_backend p)]>
       (<["key" := JStr (tp_key p)]>
       {["metadata" := jopt JObj (tp_metadata p)]}))).

Lemma as_pointer_payload p : as_pointer (pointer_payload p) = Some p.
Proof.
  destruct p as [b k m]. unfold as_pointer, pointer_payload. cbn [as_obj mbind option_bind].
  unfold fld_str, fld_opt. rewrite !lookup_drop_none. unfold present.
  simplify_map_eq. by destruct m.
Qed.

Lemma JStr_iso_null `{IsoTime} t : JStr (iso t) ≠ JNull.
Proof. done. Qed.

Lemma pointer_payload_null p : pointer_payload p ≠ JNull.
Proof. done. Qed.

(** JSON mode: datetimes are ISO strings. *)
#[export] Instance json_codec `{IsoTime} : SnapshotCodec := {|
  enc_time t := JStr (iso t); enc_pointer := pointer_payload; dec_time := parse_dt;
  dec_enc_time := from_iso_iso; enc_time_null := JStr_iso_null;
  as_enc_pointer := as_pointer_payload; enc_pointer_null := pointer_payload_null;
|}.

Section Local.
Context `{IsoTime}.

(** ContractModel.to_payload on a snapshot. *)
Definition to_payload (s : TaskSnapshot) : row := drop_none (snapshot_dict s).

(** One line of the stream: [{"v": 1, "op": op, "ts": ..., "data": data}]; the
    writer's timestamp is not read back. *)
Record envelope := mkEnv { env_op : string; env_data : row }.

(** snapshots.ndjson: the envelopes in file order. *)
Definition LocalSnapshotPart : Type := list envelope.

(** append_envelope *)
Definition append_envelope (file : LocalSnapshotPart) (op : string) (data : row)
  : LocalSnapshotPart := file ++ [mkEnv op data].

(** [d.get(k, default)] of a string field. *)
Definition get_str (d : row) (k default : string) : string :=
  match d !! k with Some (JStr s) => s | _ => default end.

Definition row_key (d : row) : snapshot_key :=
  (get_str d "task_id" "", get_str d "step" "", get_str d "execution_id" "").

(** LocalSnapshotPart._fold *)
Definition group_step (grouped : list (snapshot_key * list row)) (env : envelope)
  : list (snapshot_key * list row) :=
  let key := row_key (env_data env) in
  dset grouped key (with_default [] (dget grouped key) ++ [env_data env]).

Definition terminal_step (terminal : gset snapshot_key) (env : envelope) : gset snapshot_key :=
  if decide (env_op env = "save_terminal") then {[row_key (env_data env)]} ∪ terminal
  else terminal.

Definition fold_group (kv : snapshot_key * list row) : option (snapshot_key * row) :=
  match fold_snapshot_rows kv.2 with Some record => Some (kv.1, record) | None => None end.

Definition _fold (file : LocalSnapshotPart) : list (snapshot_key * row) * gset snapshot_key :=
  (omap fold_group (fold_left group_step file []), fold_left terminal_step file ∅).

(** LocalSnapshotPart.save *)
Definition local_save (file : LocalSnapshotPart) (s : TaskSnapshot)
  : res write_error LocalSnapshotPart :=
  let (rows, terminal) := _fold file in
  let key := snap_key s in
  let violation :=
    match dget rows key with
    | Some e => bool_decide (key ∈ terminal) && bool_decide (ts_status s ≠ "")
                && bool_decide (ts_status s ≠ get_str e "status" "")
    | None => false
    end in
  if violation then Err (Contract TerminalStateViolationError)
  else Ok (append_envelope file "save" (to_payload s)).

(** LocalSnapshotPart.save_terminal *)
Definition local_save_terminal (file : LocalSnapshotPart) (s : TaskSnapshot)
  : res write_error LocalSnapshotPart :=
  let (rows, terminal) := _fold file in
  let key := snap_key s in
  match dget rows key, bool_decide (key ∈ terminal) with
  | Some e, true =>
      if idempotent_payload_equal e (to_payload s) then Ok file
      else Err (Contract TerminalStateViolationError)
  | _, _ => Ok (append_envelope file "save_terminal" (to_payload s))
  end.

(** * Readers *)

(** LocalSnapshotPart._alive *)
Definition local_alive (now : Z) (data : row) : bool :=
  match data !! "expire_at" with
  | None | Some JNull => true
  | Some expire => match parse_dt expire with None => true | Some dt => dt >? now end
  end.

(** The rows of this adapter are payload dicts, compared by ISO text. *)
#[export] Instance payload_row : SnapshotRow row := {
  task_of d := get_str d "task_id" "";
  step_of d := get_str d "step" "";
  parent_of d := match d !! "parent_task_id" with Some (JStr p) => Some p | _ => None end;
  newer_eq a b := String.leb (get_str b "created_at" "") (get_str a "created_at" "");
}.

(** [[TaskSnapshot.model_validate(d) for d in rows]] *)
Definition validate_all (now : Z) (rows : list row) : res write_error (list TaskSnapshot) :=
  match mapM (snapshot_validate_with now) rows with
  | Some l => Ok l
  | None => Err PydanticValidationError
  end.

Definition local_alive_rows (now : Z) (file : LocalSnapshotPart) : list row :=
  filter (λ d, local_alive now d = true) (dvalues (_fold file).1).

(** LocalSnapshotPart.get *)
Definition local_get (now : Z) (file : LocalSnapshotPart) (task_id step : string)
  (execution_id : option string) : res write_error (option TaskSnapshot) :=
  let candidates := filter (λ d, local_alive now d = true)
    (filter (λ kv : snapshot_key * row,
       kv.1.1.1 = task_id ∧ kv.1.1.2 = step ∧
       opt_match execution_id kv.1.2 = true) (_fold file).1).*2 in
  match last (isort (λ a b, String.leb (get_str a "created_at" "") (get_str b "created_at" ""))
                candidates) with
  | None => Ok None
  | Some d => match snapshot_validate_with now d with
              | Some s => Ok (Some s)
              | None => Err PydanticValidationError
              end
  end.

(** LocalSnapshotPart._validate_sort and _sort_key *)
Definition _validate_sort (sort : option Sort) : res write_error Sort :=
  let sort := with_default default_sort sort in
  if decide (so_field sort ∈ SORT_FIELDS_snapshot) then Ok sort
  else Err (Contract InvalidQueryError).

Definition _sort_key (d : row) (field : string) : bool * string :=
  if decide (field = "expire_at") then
    match d !! field with
    | None | Some JNull => (true, "")
    | Some _ => (false, get_str d field "")
    end
  else (false, get_str d field "").

Definition row_key_le (a b : bool * string) : bool :=
  match a, b with
  | (false, _), (true, _) => true
  | (true, _), (false, _) => false
  | (_, x), (_, y) => String.leb x y
  end.

Definition sort_candidates (sort : Sort) (rows : list row) : list row :=
  match so_direction sort with
  | ASC => isort (λ a b, row_key_le (_sort_key a (so_field sort)) (_sort_key b (so_field sort))) rows
  | DESC => isort (λ a b, row_key_le (_sort_key b (so_field sort)) (_sort_key a (so_field sort))) rows
  end.

(** LocalSnapshotPart.list_versions *)
Definition local_list_versions (now : Z) (file : LocalSnapshotPart) (task_id step : string)
  (page : option Page) (sort : option Sort) : res write_error (list TaskSnapshot) :=
  (let? sort := _validate_sort sort in
   let candidates := filter (λ d, local_alive now d = true)
     (filter (λ kv : snapshot_key * row, kv.1.1.1 = task_id ∧ kv.1.1.2 = step)
        (_fold file).1).*2 in
   let page := with_default default_page page in
   validate_all now (page_slice (pg_offset page) (pg_limit page) (sort_candidates sort candidates)))%py.

(** LocalSnapshotPart.get_tree, list_children, get_ancestors *)
Definition local_get_tree (now : Z) (file : LocalSnapshotPart) (root_task_id : string)
  (max_depth : option Z) (latest_only : bool) : res write_error (list TaskSnapshot) :=
  validate_all now (tree_rows (local_alive_rows now file) root_task_id max_depth latest_only).

Definition local_list_children (now : Z) (file : LocalSnapshotPart) (parent_task_id : string)
  (latest_only : bool) : res write_error (list TaskSnapshot) :=
  validate_all now (children_rows (local_alive_rows now file) parent_task_id latest_only).

Definition local_get_ancestors (now : Z) (file : LocalSnapshotPart) (task_id : string)
  (include_self : bool) : res write_error (list TaskSnapshot) :=
  validate_all now (ancestors_rows (local_alive_rows now file) task_id include_self).

(** The time-range filter on rows: an unreadable instant is left out. *)
Definition row_in_range (tr : option TimeRange) (d : row) : bool :=
  match tr with
  | None | Some (mkRange None None) => true
  | Some r => match parse_dt (with_default JNull (d !! "created_at")) with
              | None => false
              | Some t => in_range (Some r) t
              end
  end.

(** LocalSnapshotPart.query *)
Definition local_query (now : Z) (file : LocalSnapshotPart) (status parent : option string)
  (tr : option TimeRange) (page : option Page) (sort : option Sort)
  : res write_error (list TaskSnapshot) :=
  (let? sort := _validate_sort sort in
   let rows := _latest_per_node (local_alive_rows now file) in
   let rows := filter (λ d, opt_match (JStr <$> status)
                              (with_default JNull (d !! "status")) = true) rows in
   let rows := filter (λ d, opt_match (Some <$> parent) (parent_of d) = true) rows in
   let rows := filter (λ d, row_in_range tr d = true) rows in
   let page := with_default default_page page in
   validate_all now (page_slice (pg_offset page) (pg_limit page) (sort_candidates sort rows)))%py.

(** LocalSnapshotPart.aggregate; float addition is [fadd], 0.0 is [fzero]. *)
Definition row_group_value (group_by : string) (d : row) : string :=
  get_str d group_by "unknown".

Definition row_cost (d : row) : gmap string Z :=
  match d !! "cost" with Some j => with_default ∅ (as_cost j) | None => ∅ end.

Definition local_agg_step (fadd : Z → Z → Z) (fzero : Z) (group_by : string)
  (out : list (string * agg_bucket)) (d : row) : list (string * agg_bucket) :=
  let gval := row_group_value group_by d in
  let bucket := with_default (mkBucket 0 ∅) (dget out gval) in
  let cost := fold_left (add_cost fadd fzero) (map_to_list (row_cost d)) (b_cost bucket) in
  dset out gval (mkBucket (b_count bucket + 1) cost).

Definition local_aggregate (fadd : Z → Z → Z) (fzero : Z) (now : Z) (file : LocalSnapshotPart)
  (group_by : string) (parent : option string) (tr : option TimeRange)
  : res write_error (list (string * agg_bucket)) :=
  if decide (group_by ∈ GROUP_BY_FIELDS_snapshot) then
    let rows := _latest_per_node (local_alive_rows now file) in
    let rows := filter (λ d, opt_match (Some <$> parent) (parent_of d) = true) rows in
    let rows := filter (λ d, row_in_range tr d = true) rows in
    Ok (fold_left (local_agg_step fadd fzero group_by) rows [])
  else Err (Contract InvalidQueryError).

(** * The folded stream as a memory store *)

(** The view readers have of the file: each generation's record, validated,
    and the terminal marks. *)
Definition view_record (now : Z) (kv : snapshot_key * row) : option (snapshot_key * TaskSnapshot) :=
  match snapshot_validate_with now kv.2 with Some s => Some (kv.1, s) | None => None end.

Definition local_view (now : Z) (file : LocalSnapshotPart) : MemorySnapshotPart :=
  mkMem (omap (view_record now) (_fold file).1) (_fold file).2.

(** Files the part writes: accepted calls, starting with no file. *)
Inductive local_written : LocalSnapshotPart → Prop :=
| written_nil : local_written []
| written_save file file' s :
    local_written file → local_save file s = Ok file' → local_written file'
| written_terminal file file' s :
    local_written file → local_save_terminal file s = Ok file' → local_written file'.

(** Such a file is a list of operations on snapshots. *)
Definition encode_log (es : list (string * TaskSnapshot)) : LocalSnapshotPart :=
  (λ e, mkEnv e.1 (to_payload e.2)) <$> es.

Definition typed_step (d : list (snapshot_key * TaskSnapshot)) (e : string * TaskSnapshot)
  : list (snapshot_key * TaskSnapshot) :=
  dset d (snap_key e.2) (saved_record (dget d (snap_key e.2)) e.2).

Definition typed_fold (es : list (string * TaskSnapshot)) : list (snapshot_key * TaskSnapshot) :=
  fold_left typed_step es [].

Lemma encode_log_snoc es op s :
  encode_log (es ++ [(op, s)]) = append_envelope (encode_log es) op (to_payload s).
Proof. unfold encode_log. by rewrite fmap_app. Qed.

Lemma local_written_encode file : local_written file → ∃ es, file = encode_log es.
Proof.
  induction 1 as [|file file' s _ [es ->] Hs|file file' s _ [es ->] Hs]; [by exists []| |].
  - unfold local_save in Hs. destruct (_fold _) as [rows terminal].
    repeat case_match; simplify_eq; exists (es ++ [("save", s)]); by rewrite encode_log_snoc.
  - unfold local_save_terminal in Hs. destruct (_fold _) as [rows terminal].
    repeat case_match; simplify_eq; eauto;
      exists (es ++ [("save_terminal", s)]); by rewrite encode_log_snoc.
Qed.

Local Opaque snapshot_dict.

(** Fields of a payload. *)
Lemma lookup_to_payload s k : to_payload s !! k = present k (snapshot_dict s).
Proof. apply lookup_drop_none. Qed.

Lemma row_key_payload s : row_key (to_payload s) = snap_key s.
Proof.
  destruct (snapshot_dict_present s) as (H1 & H2 & H3 & _).
  unfold row_key, get_str. rewrite !lookup_to_payload, H1, H2, H3. done.
Qed.

Lemma payload_status s : get_str (to_payload s) "status" "" = ts_status s.
Proof.
  destruct (snapshot_dict_present s) as (_ & _ & _ & _ & H5 & _).
  unfold get_str. by rewrite lookup_to_payload, H5.
Qed.

Lemma override_drop_none r k : override (drop_none r) k = override r k.
Proof.
  unfold override. rewrite lookup_drop_none. unfold present.
  destruct (r !! k) as [v|]; [|done].
  destruct (decide (k = _)), (decide (v = JNull)) as [->|]; try done;
    by repeat destruct (decide _).
Qed.

Lemma merge_row_payload e s :
  merge_row (to_payload e) (to_payload s) = to_payload (merge_snapshot e s).
Proof.
  apply map_eq. intros k. rewrite (lookup_to_payload (merge_snapshot e s)), <- merge_row_dict, !lookup_merge_row.
  unfold to_payload. by rewrite override_drop_none.
Qed.

Lemma fold_payload_snoc seq e s :
  fold_snapshot_rows seq = Some (to_payload e) →
  fold_snapshot_rows (seq ++ [to_payload s]) = Some (to_payload (merge_snapshot e s)).
Proof. intros He. by rewrite (fold_snapshot_rows_snoc _ _ _ He), merge_row_payload. Qed.

Lemma fold_payload_one s : fold_snapshot_rows [to_payload s] = Some (to_payload s).
Proof.
  change (Some (drop_none (to_payload s)) = Some (to_payload s)). f_equal.
  apply drop_none_id, no_null_drop_none.
Qed.

(** The grouped rows against the typed records, position by position. *)
Definition group_rel (kg : snapshot_key * list row) (kd : snapshot_key * TaskSnapshot) : Prop :=
  kg.1 = kd.1 ∧ fold_snapshot_rows kg.2 = Some (to_payload kd.2).

Lemma group_rel_get g d k :
  Forall2 group_rel g d →
  match dget g k, dget d k with
  | Some seq, Some s => fold_snapshot_rows seq = Some (to_payload s)
  | None, None => True
  | _, _ => False
  end.
Proof.
  induction 1 as [|[k1 seq] [k2 s] g d [Hk Hf] _ IH]; simpl in *; [done|]. subst.
  by destruct (decide (k2 = k)).
Qed.

Lemma group_rel_set g d k seq s :
  Forall2 group_rel g d → fold_snapshot_rows seq = Some (to_payload s) →
  Forall2 group_rel (dset g k seq) (dset d k s).
Proof.
  intros Hg Hs. induction Hg as [|[k1 q1] [k2 s2] g d [Hk Hf] Hg IH]; simpl in *; subst.
  - by repeat constructor.
  - destruct (decide (k2 = k)); constructor; done.
Qed.

Lemma group_typed es :
  Forall2 group_rel (fold_left group_step (encode_log es) []) (typed_fold es).
Proof.
  unfold typed_fold. induction es as [|[op s] es IH] using rev_ind; [constructor|].
  rewrite encode_log_snoc. unfold append_envelope. rewrite !fold_left_app. cbn [fold_left].
  unfold group_step at 1, typed_step at 1. cbn [env_data fst snd]. rewrite row_key_payload.
  apply group_rel_set; [done|]. pose proof (group_rel_get _ _ (snap_key s) IH) as Hg.
  destruct (dget _ (snap_key s)) as [seq|] eqn:E1, (dget (fold_left typed_step _ _) _) as [e|];
    try done; simpl.
  - by apply fold_payload_snoc.
  - apply fold_payload_one.
Qed.

Lemma fold_rows es : (_fold (encode_log es)).1 = prod_map id to_payload <$> typed_fold es.
Proof.
  unfold _fold. cbn [fst]. pose proof (group_typed es) as Hg. revert Hg.
  generalize (typed_fold es) as d. generalize (fold_left group_step (encode_log es) []) as g.
  induction 1 as [|[k1 q] [k2 s] g d [Hk Hf] _ IH]; [done|]. simpl in *. subst.
  unfold fold_group at 1. cbn [fst snd]. rewrite Hf. f_equal. exact IH.
Qed.

Lemma dget_fmap_payload (d : list (snapshot_key * TaskSnapshot)) k :
  dget (prod_map id to_payload <$> d) k = to_payload <$> dget d k.
Proof.
  induction d as [|[k' s] d IH]; simpl; [done|]. by destruct (decide (k' = k)).
Qed.

Lemma validate_payload now s : snapshot_validate_with now (to_payload s) = Some s.
Proof. apply snapshot_validate_compact. Qed.

Lemma view_payload now (d : list (snapshot_key * TaskSnapshot)) :
  omap (view_record now) (prod_map id to_payload <$> d) = d.
Proof.
  induction d as [|[k s] d IH]; simpl; [done|]. unfold view_record at 1. cbn [fst snd prod_map].
  rewrite validate_payload. f_equal. exact IH.
Qed.

Lemma local_view_typed now es :
  local_view now (encode_log es) = mkMem (typed_fold es) (_fold (encode_log es)).2.
Proof. unfold local_view. by rewrite fold_rows, view_payload. Qed.

Lemma typed_fold_NoDup es : NoDup (dkeys (typed_fold es)).
Proof.
  unfold typed_fold. induction es as [|e es IH] using rev_ind; [constructor|].
  rewrite fold_left_app. simpl. by apply dset_NoDup.
Qed.

Lemma typed_fold_snoc es e : typed_fold (es ++ [e]) = typed_step (typed_fold es) e.
Proof. unfold typed_fold. by rewrite fold_left_app. Qed.

Lemma terminal_snoc es op s :
  (_fold (encode_log (es ++ [(op, s)]))).2 =
  if decide (op = "save_terminal") then {[snap_key s]} ∪ (_fold (encode_log es)).2
  else (_fold (encode_log es)).2.
Proof.
  unfold _fold. cbn [snd]. rewrite encode_log_snoc. unfold append_envelope.
  rewrite fold_left_app. cbn [fold_left]. unfold terminal_step at 1. cbn [env_op env_data fst].
  by rewrite row_key_payload.
Qed.

Lemma idempotent_payload a b :
  idempotent_payload_equal (to_payload a) (to_payload b)
  = idempotent_payload_equal (snapshot_dict a) (snapshot_dict b).
Proof.
  unfold idempotent_payload_equal. apply bool_decide_ext. split; intros Heq; apply map_eq; intros k;
    rewrite !lookup_strip; destruct (decide (k ∈ IDEMPOTENCY_EXCLUDED_FIELDS)) as [|Hk];
    [reflexivity| |reflexivity|].
  - assert (Hp : strip (to_payload a) !! k = strip (to_payload b) !! k) by by rewrite Heq.
    rewrite !lookup_strip, !decide_False, !lookup_to_payload in Hp by done.
    unfold present in Hp. destruct (decide (k ∈ snapshot_fields)) as [Hin|Hout].
    + destruct (snapshot_dict_total a k Hin) as [va Ha], (snapshot_dict_total b k Hin) as [vb Hb].
      rewrite Ha, Hb in *. destruct (decide (va = JNull)), (decide (vb = JNull)); congruence.
    + by rewrite !snapshot_dict_other.
  - assert (Hp : strip (snapshot_dict a) !! k = strip (snapshot_dict b) !! k) by by rewrite Heq.
    rewrite !lookup_strip, !decide_False in Hp by done.
    rewrite !lookup_to_payload. unfold present. by rewrite Hp.
Qed.

Local Opaque fold_snapshot_rows idempotent_payload_equal.

(** Both idempotency tests decide equality up to the clocks. *)
Lemma idempotent_payload_dump a b :
  idempotent_payload_equal (to_payload a) (to_payload b)
  = idempotent_payload_equal (snapshot_dump a) (snapshot_dump b).
Proof.
  rewrite idempotent_payload. apply eq_true_iff_eq.
  by rewrite (idempotent_dict_iff a b), (idempotent_dump_iff a b).
Qed.

(** C23: the file adapter's [save] refines the memory adapter's. On every file
    written by the part, accepting, rejecting (with the same error) and the
    folded view of the file after the append are those of the in-memory
    [save] on the folded view before it. *)
Theorem local_save_refines (now : Z) (file : LocalSnapshotPart) (s : TaskSnapshot)
  (Hw : local_written file) :
  mem_save now (local_view now file) s = res_map (local_view now) (local_save file s).
Proof.
  destruct (local_written_encode file Hw) as [es ->].
  unfold local_save. rewrite (surjective_pairing (_fold (encode_log es))), fold_rows, dget_fmap_payload.
  destruct (mem_save_cases now (local_view now (encode_log es)) s) as [[Hc ->]|[Hn ->]];
    rewrite local_view_typed in *; unfold terminal_conflict in *; cbn [m_snaps m_terminal] in *.
  - destruct Hc as (Ht & Hs & e & -> & Hne). cbn [fmap option_fmap option_map].
    rewrite payload_status, !bool_decide_true by done. done.
  - assert (Hv : match to_payload <$> dget (typed_fold es) (snap_key s) with
      | Some e => bool_decide (snap_key s ∈ (_fold (encode_log es)).2)
                  && bool_decide (ts_status s ≠ "")
                  && bool_decide (ts_status s ≠ get_str e "status" "")
      | None => false end = false).
    { destruct (dget (typed_fold es) (snap_key s)) as [e|]; simpl; [|done].
      rewrite payload_status, !andb_false_iff, !bool_decide_eq_false.
      destruct (decide (snap_key s ∈ (_fold (encode_log es)).2)); [|by auto].
      destruct (decide (ts_status s ≠ "")); [|by auto]. right. naive_solver. }
    rewrite Hv. simpl. f_equal.
    rewrite <- encode_log_snoc, local_view_typed, typed_fold_snoc, terminal_snoc.
    done.
Qed.

(** The file adapter's [save_terminal] refines the memory adapter's on a
    generation that is new or already closed: same acceptance, same error,
    same view afterwards. *)
Theorem local_save_terminal_refines (now : Z) (file : LocalSnapshotPart) (s : TaskSnapshot)
  (Hw : local_written file)
  (Hgen : dget (m_snaps (local_view now file)) (snap_key s) = None
          ∨ snap_key s ∈ m_terminal (local_view now file)) :
  mem_save_terminal (local_view now file) s
  = res_map (local_view now) (local_save_terminal file s).
Proof.
  destruct (local_written_encode file Hw) as [es ->].
  unfold local_save_terminal, mem_save_terminal.
  rewrite (surjective_pairing (_fold (encode_log es))), fold_rows, dget_fmap_payload.
  rewrite local_view_typed in *. cbn [m_snaps m_terminal] in *.
  assert (Happ : dget (typed_fold es) (snap_key s) = None →
    local_view now (append_envelope (encode_log es) "save_terminal" (to_payload s))
    = mkMem (dset (typed_fold es) (snap_key s) s) ({[snap_key s]} ∪ (_fold (encode_log es)).2)).
  { intros E. rewrite <- encode_log_snoc, local_view_typed,
      typed_fold_snoc, terminal_snoc. unfold typed_step. cbn [fst snd]. by rewrite E. }
  destruct (dget (typed_fold es) (snap_key s)) as [e|] eqn:E; cbn [fmap option_fmap option_map].
  - destruct Hgen as [?|Ht]; [done|]. rewrite bool_decide_true by done.
    rewrite idempotent_payload_dump. destruct (idempotent_payload_equal _ _); [|reflexivity].
    simpl. by rewrite local_view_typed.
  - cbn [res_map]. by rewrite Happ.
Qed.

(** Closing a generation that already has an open record differs between
    the adapters. The file adapter folds the terminal snapshot into the open
    record (the creation instant and absent fields are kept) and later accepts
    the same terminal snapshot again only if the open record contributed
    nothing; the memory adapter replaces the record by the snapshot. *)
Theorem save_terminal_open_generation (now : Z) (file : LocalSnapshotPart)
  (e s : TaskSnapshot) (Hw : local_written file)
  (He : dget (m_snaps (local_view now file)) (snap_key s) = Some e)
  (Hopen : snap_key s ∉ m_terminal (local_view now file)) :
  ∃ file' st',
    local_save_terminal file s = Ok file' ∧
    dget (m_snaps (local_view now file')) (snap_key s) = Some (merge_snapshot e s) ∧
    snap_key s ∈ m_terminal (local_view now file') ∧
    local_save_terminal file' s
      = (if decide (s = set_clocks (ts_created_at s) (ts_updated_at s) (merge_snapshot e s))
         then Ok file' else Err (Contract TerminalStateViolationError)) ∧
    mem_save_terminal (local_view now file) s = Ok st' ∧
    dget (m_snaps st') (snap_key s) = Some s.
Proof.
  destruct (local_written_encode file Hw) as [es ->].
  rewrite local_view_typed in *. cbn [m_snaps m_terminal] in *.
  set (es' := es ++ [("save_terminal", s)]).
  assert (Htyped : dget (typed_fold es') (snap_key s) = Some (merge_snapshot e s)).
  { unfold es'. rewrite typed_fold_snoc. unfold typed_step. cbn [snd]. rewrite He.
    apply dget_dset_eq. }
  assert (Hterm : snap_key s ∈ (_fold (encode_log es')).2)
    by (unfold es'; rewrite terminal_snoc, decide_True by done; set_solver).
  exists (encode_log es'). eexists. split_and!.
  - unfold local_save_terminal. rewrite (surjective_pairing (_fold (encode_log es))), fold_rows,
      dget_fmap_payload, He. cbn [fmap option_fmap option_map].
    rewrite bool_decide_false by done. unfold es'. by rewrite encode_log_snoc.
  - by rewrite local_view_typed.
  - by rewrite local_view_typed.
  - unfold local_save_terminal. rewrite (surjective_pairing (_fold (encode_log es'))), fold_rows,
      dget_fmap_payload, Htyped. cbn [fmap option_fmap option_map].
    rewrite bool_decide_true by done. rewrite idempotent_payload_dump.
    pose proof (idempotent_dump_iff (merge_snapshot e s) s) as Hi.
    destruct (idempotent_payload_equal _ _), (decide _) as [Hd|Hd]; try reflexivity.
    + destruct Hd. by apply Hi.
    + by apply Hi in Hd.
  - unfold mem_save_terminal. cbn [m_snaps m_terminal]. rewrite He, bool_decide_false by done.
    reflexivity.
  - cbn [m_snaps]. apply dget_dset_eq.
Qed.

(** * Readers on the view *)

Lemma local_alive_payload now s : local_alive now (to_payload s) = _alive now s.
Proof.
  destruct (snapshot_dict_present s) as (_&_&_&_&_&_&_&_&_&_&_&_& H13).
  unfold local_alive, _alive. rewrite lookup_to_payload, H13.
  destruct (ts_expire_at s) as [t|]; simpl; [|done]. by rewrite from_iso_iso.
Qed.

Lemma task_of_payload s : task_of (to_payload s) = task_of s.
Proof.
  destruct (snapshot_dict_present s) as (H1 & _). simpl. unfold get_str.
  by rewrite lookup_to_payload, H1.
Qed.

Lemma parent_of_payload s : parent_of (to_payload s) = parent_of s.
Proof.
  destruct (snapshot_dict_present s) as (_ & _ & _ & H4 & _). simpl.
  rewrite lookup_to_payload, H4. by destruct (ts_parent_task_id s).
Qed.

Lemma local_alive_rows_view now es :
  local_alive_rows now (encode_log es) = to_payload <$> alive_rows now (local_view now (encode_log es)).
Proof.
  rewrite local_view_typed. unfold local_alive_rows, alive_rows, dvalues. cbn [m_snaps].
  rewrite fold_rows, <- list_fmap_compose, (list_fmap_ext _ (to_payload ∘ snd)) by done.
  rewrite (list_fmap_compose snd to_payload). apply filter_fmap_comm.
  intros s. by rewrite local_alive_payload.
Qed.

Lemma validate_all_payload now l : validate_all now (to_payload <$> l) = Ok l.
Proof.
  unfold validate_all. assert (E : mapM (snapshot_validate_with now) (to_payload <$> l) = Some l).
  { apply mapM_Some_2. induction l; constructor; [apply validate_payload|done]. }
  by rewrite E.
Qed.

(** Both adapters answer the same subtrees and children. On every file
    written by the part, the unreduced [get_tree] and [list_children] of the
    file adapter never fail validation and return exactly the records, in the
    same order, that the memory adapter returns on the folded view. *)
Theorem local_tree_equiv (now : Z) (file : LocalSnapshotPart) (root : string)
  (max_depth : option Z) (Hw : local_written file) :
  local_get_tree now file root max_depth false
    = Ok (mem_get_tree now (local_view now file) root max_depth false) ∧
  local_list_children now file root false
    = Ok (mem_list_children now (local_view now file) root false).
Proof.
  destruct (local_written_encode file Hw) as [es ->].
  unfold local_get_tree, mem_get_tree, local_list_children, mem_list_children.
  rewrite local_alive_rows_view.
  rewrite (tree_rows_fmap to_payload task_of_payload parent_of_payload).
  rewrite (children_rows_fmap to_payload parent_of_payload).
  by rewrite !validate_all_payload.
Qed.

Lemma last_isort_short {A} (le : A → A → bool) (l : list A) :
  (length l ≤ 1)%nat → last (isort le l) = last l.
Proof. by destruct l as [|a [|b l]]; simpl; [| |lia]. Qed.

(** Reading one named generation from the file gives what the memory
    adapter gives on the folded view, expiry included. *)
Theorem local_get_equiv (now : Z) (file : LocalSnapshotPart) (task_id step execution_id : string)
  (Hw : local_written file) :
  local_get now file task_id step (Some execution_id)
  = Ok (mem_get now (local_view now file) task_id step (Some execution_id)).
Proof.
  destruct (local_written_encode file Hw) as [es ->].
  unfold local_get, mem_get. rewrite fold_rows, local_view_typed. cbn [m_snaps].
  rewrite (filter_fmap_comm (prod_map id to_payload)
    (λ kv : snapshot_key * TaskSnapshot, kv.1.1.1 = task_id ∧ kv.1.1.2 = step
       ∧ opt_match (Some execution_id) kv.1.2 = true)
    (λ kv : snapshot_key * row, kv.1.1.1 = task_id ∧ kv.1.1.2 = step
       ∧ opt_match (Some execution_id) kv.1.2 = true)) by done.
  set (m := filter _ (typed_fold es)).
  assert (Hm : (length m ≤ 1)%nat).
  { apply (NoDup_keys_filter_short _ (task_id, step, execution_id)); [apply typed_fold_NoDup|].
    intros [[t st] e] v (? & ? & He); cbn in *. apply bool_decide_eq_true in He. by subst. }
  rewrite <- list_fmap_compose, (list_fmap_ext _ (to_payload ∘ snd)) by done.
  rewrite (list_fmap_compose snd to_payload).
  rewrite (filter_fmap_comm to_payload (λ s, _alive now s = true) (λ d, local_alive now d = true))
    by (intros s; by rewrite local_alive_payload).
  assert (Hl : (length (filter (λ s, _alive now s = true) m.*2) ≤ 1)%nat)
    by (etrans; [apply length_filter|by rewrite length_fmap]).
  rewrite !last_isort_short by (by rewrite ?length_fmap).
  rewrite fmap_last. destruct (last _) as [s|]; simpl; [|done]. by rewrite validate_payload.
Qed.

End Local.

(** * Witnesses: a concrete text form of instants (unary, with a sign) *)

Fixpoint ticks (n : nat) : string := match n with O => "" | S n => String "1"%char (ticks n) end.

Definition demo_iso_text (t : Z) : string :=
  if t <? 0 then String "-"%char (ticks (Z.to_nat (- t))) else ticks (Z.to_nat t).

Definition demo_from_iso (s : string) : option Z :=
  match s with
  | String "-"%char r => Some (- Z.of_nat (String.length r))
  | _ => Some (Z.of_nat (String.length s))
  end.

Lemma length_ticks n : String.length (ticks n) = n.
Proof. induction n; simpl; congruence. Qed.

Lemma demo_from_iso_iso t : demo_from_iso (demo_iso_text t) = Some t.
Proof.
  unfold demo_iso_text. destruct (Z.ltb_spec t 0).
  - simpl. rewrite length_ticks. f_equal. lia.
  - assert (E : demo_from_iso (ticks (Z.to_nat t)) = Some (Z.of_nat (String.length (ticks (Z.to_nat t))))).
    { by destruct (Z.to_nat t). }
    rewrite E, length_ticks. f_equal. lia.
Qed.

Definition demo_iso : IsoTime := {|
  iso := demo_iso_text; from_iso := demo_from_iso; from_iso_iso := demo_from_iso_iso |}.

(** One open generation, saved once. *)
Definition demo_open : TaskSnapshot :=
  mkSnapshot "t1" "s" "e1" None "running" None None None None (Some "m") 1 1 None.

Definition demo_file : LocalSnapshotPart :=
  [mkEnv "save" (@to_payload demo_iso demo_open)].

Lemma demo_file_written : @local_written demo_iso demo_file.
Proof.
  eapply (@written_save demo_iso [] demo_file demo_open); [constructor|].
  vm_compute. reflexivity.
Qed.

Lemma local_save_refines_witness :
  mem_save 0 (@local_view demo_iso 0 demo_file) (demo_snapshot "succeeded" 5 None)
  = res_map (@local_view demo_iso 0)
      (@local_save demo_iso demo_file (demo_snapshot "succeeded" 5 None)).
Proof. exact (@local_save_refines demo_iso 0 demo_file _ demo_file_written). Defined.

Definition demo_other : TaskSnapshot :=
  mkSnapshot "t2" "s" "e1" None "succeeded" None None None None None 1 1 None.

Lemma local_save_terminal_refines_witness :
  mem_save_terminal (@local_view demo_iso 0 demo_file) demo_other
  = res_map (@local_view demo_iso 0) (@local_save_terminal demo_iso demo_file demo_other).
Proof.
  apply (@local_save_terminal_refines demo_iso 0 demo_file demo_other demo_file_written).
  left. vm_compute. reflexivity.
Defined.

Lemma save_terminal_open_generation_witness :
  let s := demo_snapshot "succeeded" 5 None in
  ∃ file' st',
    @local_save_terminal demo_iso demo_file s = Ok file' ∧
    dget (m_snaps (@local_view demo_iso 0 file')) (snap_key s) = Some (merge_snapshot demo_open s) ∧
    snap_key s ∈ m_terminal (@local_view demo_iso 0 file') ∧
    @local_save_terminal demo_iso file' s
      = (if decide (s = set_clocks (ts_created_at s) (ts_updated_at s) (merge_snapshot demo_open s))
         then Ok file' else Err (Contract TerminalStateViolationError)) ∧
    mem_save_terminal (@local_view demo_iso 0 demo_file) s = Ok st' ∧
    dget (m_snaps st') (snap_key s) = Some s.
Proof.
  intros s. apply (@save_terminal_open_generation demo_iso 0 demo_file demo_open s demo_file_written).
  - vm_compute. reflexivity.
  - by_compute.
Defined.

Lemma local_tree_equiv_witness :
  @local_get_tree demo_iso 0 demo_file "t1" None false
    = Ok (mem_get_tree 0 (@local_view demo_iso 0 demo_file) "t1" None false) ∧
  @local_list_children demo_iso 0 demo_file "t1" false
    = Ok (mem_list_children 0 (@local_view demo_iso 0 demo_file) "t1" false).
Proof. exact (@local_tree_equiv demo_iso 0 demo_file "t1" None demo_file_written). Defined.

Lemma local_get_equiv_witness :
  @local_get demo_iso 0 demo_file "t1" "s" (Some "e1")
  = Ok (mem_get 0 (@local_view demo_iso 0 demo_file) "t1" "s" (Some "e1")).
Proof. exact (@local_get_equiv demo_iso 0 demo_file "t1" "s" "e1" demo_file_written). Defined.
