(* ===== verification/LocalParts.v ===== *)
(** The other four domains of the local-file adapter ([adapter-local/parts]):
    audit and dependency streams (audit.ndjson, deps.ndjson), content-addressed
    blobs, and one JSON document per stream result; with their relation to the
    in-memory adapter. *)
From S2P Require Import Prelude Mechanism SnapshotModel Traversal MemorySnapshot MemoryParts.
From S2P Require Import LocalSnapshot.
From stdpp Require Import prelude gmap strings list.
From Stdlib Require Import ZArith Lia Ascii Sorting.Permutation Sorting.Sorted.
Local Open Scope string_scope.
Local Open Scope list_scope.
Local Open Scope Z_scope.

(** * Audit stream *)
Module LocalAudit.
Import Audit.
Section Parts.
Context `{IsoTime}.

(** AuditEvent.to_payload and model_validate. *)
Definition audit_payload (e : AuditEvent) : row :=
  drop_none (<["event_id" := JStr (ae_event_id e)]>
  (<["task_id" := JStr (ae_task_id e)]>
  (<["scope" := jopt JStr (ae_scope e)]>
  (<["event_type" := JStr (ae_event_type e)]>
  (<["source" := JStr (ae_source e)]>
  (<["payload" := JObj (ae_payload e)]>
  {["created_at" := JStr (iso (ae_created_at e))]})))))).

Definition audit_validate (now : Z) (r : row) : option AuditEvent :=
  eid ← fld_str r "event_id"; tid ← fld_str r "task_id";
  scope ← fld_opt as_str r "scope";
  ty ← fld_str r "event_type"; src ← fld_str r "source";
  payload ← (match r !! "payload" with None => Some ∅ | Some j => as_obj j end);
  created ← (match r !! "created_at" with None => Some now | Some j => parse_dt j end);
  Some (mkAudit eid tid scope ty src payload created).

(** audit.ndjson: the data of each envelope, in file order. *)
Definition LocalAuditPart : Type := list row.

(** LocalAuditPart._find *)
Fixpoint audit_find (rows : LocalAuditPart) (event_id : string) : option row :=
  match rows with
  | [] => None
  | d :: rows' => if decide (d !! "event_id" = Some (JStr event_id)) then Some d
                  else audit_find rows' event_id
  end.

(** LocalAuditPart.append *)
Definition local_append (file : LocalAuditPart) (event : AuditEvent)
  : res ContractError LocalAuditPart :=
  match audit_find file (ae_event_id event) with
  | Some existing =>
      if idempotent_payload_equal existing (audit_payload event) then Ok file
      else Err IdempotencyConflictError
  | None => Ok (file ++ [audit_payload event])
  end.

(** The filters of query on rows. *)
Definition row_selected (task_id scope event_type : option string) (tr : option TimeRange)
  (d : row) : bool :=
  opt_match (Some <$> (JStr <$> task_id)) (d !! "task_id")
  && opt_match (Some <$> (JStr <$> scope)) (d !! "scope")
  && opt_match (Some <$> (JStr <$> event_type)) (d !! "event_type")
  && row_in_range tr d.

Definition row_le (sort : Sort) (a b : row) : bool :=
  let key d := get_str d (so_field sort) "" in
  match so_direction sort with
  | ASC => String.leb (key a) (key b)
  | DESC => String.leb (key b) (key a)
  end.

(** LocalAuditPart.query *)
Definition local_audit_query (now : Z) (file : LocalAuditPart)
  (task_id scope event_type : option string) (tr : option TimeRange) (page : option Page)
  (sort : option Sort) : res write_error (list AuditEvent) :=
  let rows := filter (λ d, row_selected task_id scope event_type tr d = true) file in
  let sort := with_default default_sort sort in
  if decide (so_field sort ∈ SORT_FIELDS_audit) then
    let page := with_default default_page page in
    match mapM (audit_validate now)
            (page_slice (pg_offset page) (pg_limit page) (isort (row_le sort) rows)) with
    | Some l => Ok l
    | None => Err PydanticValidationError
    end
  else Err (Contract InvalidQueryError).

(** The stream as the memory adapter's dict. *)
Definition audit_entry (now : Z) (d : row) : option (string * AuditEvent) :=
  match audit_validate now d with Some e => Some (ae_event_id e, e) | None => None end.

Definition audit_view (now : Z) (file : LocalAuditPart) : MemoryAuditPart :=
  omap (audit_entry now) file.

(** Files the part writes. *)
Inductive audit_written : LocalAuditPart → Prop :=
| audit_written_nil : audit_written []
| audit_written_append file file' e :
    audit_written file → local_append file e = Ok file' → audit_written file'.

(** ** Lemmas *)

Lemma lookup_audit_payload e k :
  audit_payload e !! k =
  present k (<["event_id" := JStr (ae_event_id e)]>
  (<["task_id" := JStr (ae_task_id e)]>
  (<["scope" := jopt JStr (ae_scope e)]>
  (<["event_type" := JStr (ae_event_type e)]>
  (<["source" := JStr (ae_source e)]>
  (<["payload" := JObj (ae_payload e)]>
  {["created_at" := JStr (iso (ae_created_at e))]})))))).
Proof. apply lookup_drop_none. Qed.

Lemma audit_payload_fields e :
  audit_payload e !! "event_id" = Some (JStr (ae_event_id e))
  ∧ audit_payload e !! "task_id" = Some (JStr (ae_task_id e))
  ∧ audit_payload e !! "scope" = JStr <$> ae_scope e
  ∧ audit_payload e !! "event_type" = Some (JStr (ae_event_type e))
  ∧ audit_payload e !! "source" = Some (JStr (ae_source e))
  ∧ audit_payload e !! "payload" = Some (JObj (ae_payload e))
  ∧ audit_payload e !! "created_at" = Some (JStr (iso (ae_created_at e))).
Proof.
  rewrite !lookup_audit_payload. unfold present.
  split_and!; simplify_map_eq; try done. by destruct (ae_scope e).
Qed.

Lemma audit_payload_other e k : k ∉ audit_fields → audit_payload e !! k = None.
Proof.
  intros Hk. rewrite lookup_audit_payload. unfold present, audit_fields in *.
  repeat (apply not_elem_of_cons in Hk as [? Hk]).
  rewrite !lookup_insert_ne by congruence. by rewrite lookup_singleton_ne.
Qed.

Local Opaque audit_payload.

Lemma audit_validate_payload now e : audit_validate now (audit_payload e) = Some e.
Proof.
  destruct (audit_payload_fields e) as (H1 & H2 & H3 & H4 & H5 & H6 & H7).
  unfold audit_validate, fld_str, fld_opt. rewrite H1; simpl. rewrite H2; simpl.
  rewrite H3. destruct e as [? ? sc ? ? ? ?]; simpl in *.
  destruct sc; simpl; rewrite H4; simpl; rewrite H5; simpl; rewrite H6; simpl; rewrite H7; simpl;
    by rewrite from_iso_iso.
Qed.

Lemma idempotent_audit_payload a b :
  idempotent_payload_equal (audit_payload a) (audit_payload b) = true ↔
  b = set_created (ae_created_at b) a.
Proof.
  unfold idempotent_payload_equal. rewrite bool_decide_eq_true.
  destruct (audit_payload_fields a) as (A1 & A2 & A3 & A4 & A5 & A6 & _).
  destruct (audit_payload_fields b) as (B1 & B2 & B3 & B4 & B5 & B6 & _).
  split.
  - intros Heq.
    assert (Hk : ∀ k, k ∉ IDEMPOTENCY_EXCLUDED_FIELDS → audit_payload a !! k = audit_payload b !! k).
    { intros k Hk. assert (E : strip (audit_payload a) !! k = strip (audit_payload b) !! k)
        by by rewrite Heq.
      by rewrite !lookup_strip, !decide_False in E by done. }
    rewrite Hk, B1 in A1 by by_compute. rewrite Hk, B2 in A2 by by_compute.
    rewrite Hk, B3 in A3 by by_compute. rewrite Hk, B4 in A4 by by_compute.
    rewrite Hk, B5 in A5 by by_compute. rewrite Hk, B6 in A6 by by_compute.
    apply JStr_fmap_inj in A3. clear Hk Heq B1 B2 B3 B4 B5 B6.
    destruct a as [a1 a2 a3 a4 a5 a6 a7], b as [b1 b2 b3 b4 b5 b6 b7].
    cbn [ae_event_id ae_task_id ae_scope ae_event_type ae_source ae_payload] in *.
    injection A1 as <-. injection A2 as <-. subst. injection A4 as <-. injection A5 as <-.
    injection A6 as <-. reflexivity.
  - intros Hb. apply map_eq. intros k. rewrite !lookup_strip.
    destruct (decide (k ∈ IDEMPOTENCY_EXCLUDED_FIELDS)) as [|Hk]; [reflexivity|].
    apply not_elem_of_cons in Hk as [Hk _].
    destruct (decide (k ∈ audit_fields)) as [Hin|Hout]; [|by rewrite !audit_payload_other].
    unfold audit_fields in Hin.
    assert (E : ∀ A (f : AuditEvent → A), f b = f (set_created (ae_created_at b) a))
      by (intros A f; by rewrite <- Hb).
    apply elem_of_cons in Hin as [->|Hin]; [rewrite A1, B1; by rewrite (E _ ae_event_id)|].
    apply elem_of_cons in Hin as [->|Hin]; [rewrite A2, B2; by rewrite (E _ ae_task_id)|].
    apply elem_of_cons in Hin as [->|Hin]; [rewrite A3, B3; by rewrite (E _ ae_scope)|].
    apply elem_of_cons in Hin as [->|Hin]; [rewrite A4, B4; by rewrite (E _ ae_event_type)|].
    apply elem_of_cons in Hin as [->|Hin]; [rewrite A5, B5; by rewrite (E _ ae_source)|].
    apply elem_of_cons in Hin as [->|Hin]; [rewrite A6, B6; by rewrite (E _ ae_payload)|].
    apply elem_of_cons in Hin as [->|Hin]; [destruct (Hk eq_refl)|].
    destruct (not_elem_of_nil _ Hin).
Qed.

Lemma idempotent_audit_agree a b :
  idempotent_payload_equal (audit_payload a) (audit_payload b)
  = idempotent_payload_equal (audit_dump a) (audit_dump b).
Proof.
  apply eq_true_iff_eq. by rewrite idempotent_audit_payload, idempotent_audit_iff.
Qed.

(** A file written by the part is the payloads of events with distinct ids. *)
Lemma audit_find_payload es id :
  audit_find (audit_payload <$> es) id
  = audit_payload <$> dget ((λ e, (ae_event_id e, e)) <$> es) id.
Proof.
  induction es as [|e es IH]; [done|]. cbn [fmap list_fmap audit_find dget].
  destruct (audit_payload_fields e) as (H1 & _). rewrite H1.
  destruct (decide (ae_event_id e = id)) as [->|Hne]; [by rewrite decide_True|].
  rewrite decide_False by congruence. exact IH.
Qed.

Lemma audit_view_payload now es :
  audit_view now (audit_payload <$> es) = (λ e, (ae_event_id e, e)) <$> es.
Proof.
  induction es as [|e es IH]; [done|]. unfold audit_view in *. cbn [fmap list_fmap].
  cbn [omap list_omap]. unfold audit_entry at 1. rewrite audit_validate_payload.
  f_equal. exact IH.
Qed.

Lemma audit_written_events file : audit_written file → ∃ es, file = audit_payload <$> es.
Proof.
  induction 1 as [|file file' e _ [es ->] Ha]; [by exists []|].
  unfold local_append in Ha. destruct (audit_find _ _).
  - destruct (idempotent_payload_equal _ _); [|done]. injection Ha as <-. eauto.
  - injection Ha as <-. exists (es ++ [e]). by rewrite fmap_app.
Qed.

Local Opaque idempotent_payload_equal audit_dump.

(** The file adapter's audit append refines the memory adapter's: on every
    file the part has written, acceptance, the conflict error and the trail
    read back afterwards agree. *)
Theorem local_append_refines (now : Z) (file : LocalAuditPart) (event : AuditEvent)
  (Hw : audit_written file) :
  audit_append (audit_view now file) event
  = res_map (audit_view now) (local_append file event).
Proof.
  destruct (audit_written_events file Hw) as [es ->].
  unfold local_append, audit_append. rewrite audit_find_payload, audit_view_payload.
  destruct (dget _ _) as [x|] eqn:E; cbn [fmap option_fmap option_map].
  - rewrite idempotent_audit_agree. destruct (idempotent_payload_equal _ _); [|reflexivity].
    cbn [res_map]. by rewrite audit_view_payload.
  - cbn [res_map]. change [audit_payload event] with (audit_payload <$> [event]).
    rewrite <- fmap_app, audit_view_payload, fmap_app. f_equal. by apply dset_fresh.
Qed.

Lemma opt_match_str (o : option string) x :
  opt_match (Some <$> (JStr <$> o)) (Some (JStr x)) = opt_match o x.
Proof. destruct o as [y|]; simpl; [|done]. apply bool_decide_ext. split; congruence. Qed.

Lemma opt_match_opt_str (o y : option string) :
  opt_match (Some <$> (JStr <$> o)) (JStr <$> y) = opt_match (Some <$> o) y.
Proof.
  destruct o as [x|]; [|done]. cbn. apply bool_decide_ext.
  destruct y; cbn; split; congruence.
Qed.

Lemma row_selected_payload task_id scope event_type tr e :
  row_selected task_id scope event_type tr (audit_payload e)
  = selected task_id scope event_type tr e.
Proof.
  destruct (audit_payload_fields e) as (_ & H2 & H3 & H4 & _ & _ & H7).
  unfold row_selected, selected. rewrite H2, H3, H4, !opt_match_str, opt_match_opt_str.
  f_equal. unfold row_in_range. rewrite H7. cbn [with_default parse_dt]. rewrite from_iso_iso.
    by destruct tr as [[[?|] [?|]]|].
Qed.

Lemma isort_fmap {A B} (f : A → B) (le : A → A → bool) (le' : B → B → bool) l :
  (∀ a b, le' (f a) (f b) = le a b) → isort le' (f <$> l) = f <$> isort le l.
Proof.
  intros Hle. assert (Hins : ∀ x m, insert_by le' (f x) (f <$> m) = f <$> insert_by le x m).
  { intros x m. induction m as [|y m IH]; [reflexivity|]. cbn [fmap list_fmap insert_by].
    rewrite Hle. destruct (le x y); [reflexivity|]. cbn [fmap list_fmap]. by f_equal. }
  induction l as [|x l IH]; [reflexivity|].
  change (insert_by le' (f x) (isort le' (f <$> l)) = f <$> insert_by le x (isort le l)).
  by rewrite IH, Hins.
Qed.

(** Audit queries ordered by event id give the same pages from the file as
    from memory, whatever the filters, the time range and the page. *)
Theorem local_audit_query_equiv (now : Z) (file : LocalAuditPart)
  (task_id scope event_type : option string) (tr : option TimeRange) (page : option Page)
  (dir : SortDirection) (Hw : audit_written file) :
  ∃ rows,
    local_audit_query now file task_id scope event_type tr page (Some (mkSort "event_id" dir))
      = Ok rows ∧
    audit_query (audit_view now file) task_id scope event_type tr page
      (Some (mkSort "event_id" dir)) = Ok rows.
Proof.
  destruct (audit_written_events file Hw) as [es ->].
  unfold local_audit_query, audit_query. cbn [with_default so_field].
  rewrite !decide_True by by_compute.
  rewrite audit_view_payload. unfold dvalues.
  rewrite <- list_fmap_compose, (list_fmap_ext _ id) by done. rewrite list_fmap_id.
  rewrite (filter_fmap_comm audit_payload
    (λ e, selected task_id scope event_type tr e = true)
    (λ d, row_selected task_id scope event_type tr d = true))
    by (intros e; by rewrite row_selected_payload).
  rewrite (isort_fmap audit_payload (audit_sort_le (mkSort "event_id" dir))).
  2: { intros a b. unfold row_le, audit_sort_le, field_le. cbn [so_field so_direction].
       rewrite decide_True by done. unfold get_str.
       destruct (audit_payload_fields a) as (A1 & _), (audit_payload_fields b) as (B1 & _).
       by rewrite A1, B1. }
  unfold page_slice. rewrite <- fmap_drop, <- fmap_take.
  set (out := take _ _). exists out. split; [|reflexivity].
  assert (E : mapM (audit_validate now) (audit_payload <$> out) = Some out).
  { apply mapM_Some_2. clear. induction out; constructor; [apply audit_validate_payload|done]. }
  by rewrite E.
Qed.

End Parts.
End LocalAudit.

(** * Dependency stream *)
Module LocalDependency.
Import Dependency.
Section Parts.
Context `{IsoTime}.

(** DependencyEdge.to_payload and model_validate. *)
Definition edge_payload (e : DependencyEdge) : row :=
  <["child_id" := JStr (de_child_id e)]>
  (<["parent_id" := JStr (de_parent_id e)]>
  (<["is_primary" := JBool (de_is_primary e)]>
  {["registered_at" := JStr (iso (de_registered_at e))]})).

Definition edge_validate (now : Z) (r : row) : option DependencyEdge :=
  c ← fld_str r "child_id"; p ← fld_str r "parent_id";
  prim ← (match r !! "is_primary" with
          | None => Some false | Some (JBool b) => Some b | _ => None end);
  reg ← (match r !! "registered_at" with None => Some now | Some j => parse_dt j end);
  Some (mkEdge c p prim reg).

(** deps.ndjson *)
Definition LocalDependencyPart : Type := list row.

Inductive dep_error : Type :=
| DepContract (e : ContractError)
| DepValidationError.

(** LocalDependencyPart._find *)
Fixpoint dep_find (now : Z) (rows : LocalDependencyPart) (child_id parent_id : string)
  : res dep_error (option DependencyEdge) :=
  match rows with
  | [] => Ok None
  | d :: rows' =>
      if decide (d !! "child_id" = Some (JStr child_id) ∧ d !! "parent_id" = Some (JStr parent_id))
      then match edge_validate now d with Some e => Ok (Some e) | None => Err DepValidationError end
      else dep_find now rows' child_id parent_id
  end.

(** LocalDependencyPart.write_dependency *)
Definition local_write_dependency (now : Z) (file : LocalDependencyPart) (edge : DependencyEdge)
  : res dep_error LocalDependencyPart :=
  match dep_find now file (de_child_id edge) (de_parent_id edge) with
  | Err e => Err e
  | Ok (Some existing) =>
      if bool_decide (de_is_primary existing ≠ de_is_primary edge)
      then Err (DepContract IdempotencyConflictError) else Ok file
  | Ok None => Ok (file ++ [edge_payload edge])
  end.

(** LocalDependencyPart._all; [None] is a validation error. *)
Definition dep_all (now : Z) (file : LocalDependencyPart) : option (list DependencyEdge) :=
  mapM (edge_validate now) file.

(** LocalDependencyPart.read_graph, children_of, parents_of *)
Definition local_read_graph (iter_set : gset string → list string) (now : Z)
  (file : LocalDependencyPart) (root_task_id : string) : option DependencyGraph :=
  match dep_all now file with
  | None => None
  | Some edges => graph_of iter_set (edge_key <$> edges) edges root_task_id
  end.

Definition local_children_of (now : Z) (file : LocalDependencyPart) (parent_task_id : string)
  : option (list string) :=
  match dep_all now file with
  | None => None
  | Some edges =>
      Some (sorted_strings (de_child_id <$> filter (λ e, de_parent_id e = parent_task_id) edges))
  end.

Definition local_parents_of (now : Z) (file : LocalDependencyPart) (child_task_id : string)
  : option (list string) :=
  match dep_all now file with
  | None => None
  | Some edges =>
      Some (sorted_strings (de_parent_id <$> filter (λ e, de_child_id e = child_task_id) edges))
  end.

(** The stream as the memory adapter's dict. *)
Definition dep_entry (now : Z) (d : row) : option ((string * string) * DependencyEdge) :=
  match edge_validate now d with Some e => Some (edge_key e, e) | None => None end.

Definition dep_view (now : Z) (file : LocalDependencyPart) : MemoryDependencyPart :=
  omap (dep_entry now) file.

Inductive dep_written (now : Z) : LocalDependencyPart → Prop :=
| dep_written_nil : dep_written now []
| dep_written_write file file' e :
    dep_written now file → local_write_dependency now file e = Ok file' → dep_written now file'.

Lemma edge_validate_payload now e : edge_validate now (edge_payload e) = Some e.
Proof.
  destruct e. unfold edge_validate, edge_payload, fld_str. simplify_map_eq.
  by rewrite from_iso_iso.
Qed.

Lemma edge_payload_key e :
  edge_payload e !! "child_id" = Some (JStr (de_child_id e)) ∧
  edge_payload e !! "parent_id" = Some (JStr (de_parent_id e)).
Proof. unfold edge_payload. split; by simplify_map_eq. Qed.

Local Opaque edge_payload.

Definition keyed (es : list DependencyEdge) : MemoryDependencyPart :=
  (λ e, (edge_key e, e)) <$> es.

Lemma dep_find_payload now es c p :
  dep_find now (edge_payload <$> es) c p = Ok (dget (keyed es) (c, p)).
Proof.
  unfold keyed. induction es as [|e es IH]; [done|].
  cbn [fmap list_fmap dep_find dget]. destruct (edge_payload_key e) as [-> ->].
  destruct (decide (edge_key e = (c, p))) as [Hk|Hk]; unfold edge_key in Hk.
  - injection Hk as <- <-. rewrite decide_True by done. by rewrite edge_validate_payload.
  - rewrite decide_False by naive_solver. exact IH.
Qed.

Lemma dep_all_payload now es : dep_all now (edge_payload <$> es) = Some es.
Proof. apply mapM_Some_2. induction es; constructor; [apply edge_validate_payload|done]. Qed.

Lemma dep_view_payload now es : dep_view now (edge_payload <$> es) = keyed es.
Proof.
  unfold dep_view, keyed. induction es as [|e es IH]; [done|].
  cbn [fmap list_fmap omap list_omap]. unfold dep_entry at 1. rewrite edge_validate_payload.
  f_equal. exact IH.
Qed.

Lemma dep_written_edges now file : dep_written now file → ∃ es, file = edge_payload <$> es.
Proof.
  induction 1 as [|file file' e _ [es ->] Hw]; [by exists []|].
  unfold local_write_dependency in Hw. rewrite dep_find_payload in Hw.
  destruct (dget _ _); [destruct (bool_decide _); [done|]|]; injection Hw as <-; [by exists es|].
  exists (es ++ [e]). by rewrite fmap_app.
Qed.

(** The file adapter's dependency domain refines the memory adapter's. On
    every file the part has written, a write is accepted, deduplicated or
    refused as in memory and leaves the same edges, and [read_graph] returns
    the same graph. *)
Theorem local_dependency_refines (iter_set : gset string → list string) (now : Z)
  (file : LocalDependencyPart) (edge : DependencyEdge) (root : string)
  (Hw : dep_written now file) :
  local_read_graph iter_set now file root = read_graph iter_set (dep_view now file) root ∧
  match local_write_dependency now file edge with
  | Ok file' => write_dependency (dep_view now file) edge = Ok (dep_view now file')
  | Err e => e = DepContract IdempotencyConflictError ∧
             write_dependency (dep_view now file) edge = Err IdempotencyConflictError
  end.
Proof.
  destruct (dep_written_edges now file Hw) as [es ->].
  rewrite dep_view_payload. split.
  - unfold local_read_graph, read_graph. rewrite dep_all_payload.
    unfold keyed, dkeys, dvalues. rewrite <- !list_fmap_compose.
    rewrite (list_fmap_ext (snd ∘ _) id) by done. by rewrite list_fmap_id.
  - unfold local_write_dependency, write_dependency. rewrite dep_find_payload.
    fold (edge_key edge).
    destruct (dget _ _) as [x|] eqn:E; [destruct (bool_decide _); [done|]|].
    + by rewrite dep_view_payload.
    + change [edge_payload edge] with (edge_payload <$> [edge]).
      rewrite <- fmap_app, dep_view_payload. unfold keyed at 2. rewrite fmap_app.
      f_equal. by apply dset_fresh.
Qed.

End Parts.
End LocalDependency.

(** * Content-addressed blobs *)
Module LocalContent.
Section Parts.
(** hashlib.sha256(...).hexdigest() *)
Variable hexdigest : string → string.

(** The files under content/sha256: the blob and the metadata document of a
    digest (both live in the directory named by the digest's first two
    characters). *)
Record LocalContentPart := mkLocalContent {
  lc_blobs : gmap string string;
  lc_metas : gmap string row;
}.

(** [_key] and [_digest_of] (the text after the last slash). *)
Definition _key (digest : string) : string :=
  "sha256/" +:+ String.substring 0 2 digest +:+ "/" +:+ digest.

Fixpoint after_slash (acc s : string) : string :=
  match s with
  | EmptyString => acc
  | String c s' => if decide (c = "/"%char) then after_slash s' s' else after_slash acc s'
  end.

Definition _digest_of (p : TaskPointer) : string := after_slash (tp_key p) (tp_key p).

(** LocalContentPart.put *)
Definition local_put (st : LocalContentPart) (content : string) (content_type : option string)
  (metadata : option row) : LocalContentPart * TaskPointer :=
  let digest := hexdigest content in
  let meta := Content.put_meta content_type metadata in
  let blobs := match lc_blobs st !! digest with
               | Some _ => lc_blobs st
               | None => <[digest := content]> (lc_blobs st)
               end in
  let metas := if bool_decide (meta ≠ ∅) || bool_decide (lc_metas st !! digest = None)
               then <[digest := meta]> (lc_metas st) else lc_metas st in
  (mkLocalContent blobs metas,
   mkPointer "localfile" (_key digest) (if decide (meta = ∅) then None else Some meta)).

(** LocalContentPart.delete, get, exists, get_metadata *)
Definition local_delete (st : LocalContentPart) (p : TaskPointer) : LocalContentPart * bool :=
  let digest := _digest_of p in
  (mkLocalContent (delete digest (lc_blobs st)) (delete digest (lc_metas st)),
   bool_decide (is_Some (lc_blobs st !! digest))).

Definition local_content_get (st : LocalContentPart) (p : TaskPointer) : res ContractError string :=
  match lc_blobs st !! _digest_of p with
  | Some b => Ok b
  | None => Err (ContentNotFoundError (tp_key p))
  end.

Definition local_exists (st : LocalContentPart) (p : TaskPointer) : bool :=
  bool_decide (is_Some (lc_blobs st !! _digest_of p)).

Definition local_get_metadata (st : LocalContentPart) (p : TaskPointer) : res ContractError row :=
  match lc_blobs st !! _digest_of p with
  | None => Err (ContentNotFoundError (tp_key p))
  | Some _ => Ok (with_default ∅ (lc_metas st !! _digest_of p))
  end.

Definition local_content_do (st : LocalContentPart) (op : Content.content_op) : LocalContentPart :=
  match op with
  | Content.Put c t m => (local_put st c t m).1
  | Content.Delete p => (local_delete st p).1
  end.

Definition local_content_run (ops : list Content.content_op) : LocalContentPart :=
  fold_left local_content_do ops (mkLocalContent ∅ ∅).

(** The contents put along a sequence of calls. *)
Definition contents_put (ops : list Content.content_op) : list string :=
  omap (λ op, match op with Content.Put c _ _ => Some c | Content.Delete _ => None end) ops.

Lemma after_slash_none s : (∀ i, String.get i s ≠ Some "/"%char) → ∀ acc, after_slash acc s = acc.
Proof.
  induction s as [|c s IH]; intros Hs acc; [done|]. simpl.
  rewrite decide_False by (intros ->; exact (Hs 0%nat eq_refl)).
  apply IH. intros i. exact (Hs (S i)).
Qed.

Lemma after_slash_app s d acc :
  (∀ i, String.get i d ≠ Some "/"%char) → after_slash acc (s +:+ "/" +:+ d) = d.
Proof.
  intros Hd. revert acc. induction s as [|c s IH]; intros acc; simpl.
  - by apply after_slash_none.
  - destruct (decide (c = "/"%char)); apply IH.
Qed.

Lemma digest_of_key d meta backend :
  (∀ i, String.get i d ≠ Some "/"%char) → _digest_of (mkPointer backend (_key d) meta) = d.
Proof.
  intros Hd. unfold _digest_of, _key. cbn [tp_key].
  set (tl := String.substring 0 2 d +:+ "/" +:+ d).
  trans (after_slash tl tl); [reflexivity|]. by apply after_slash_app.
Qed.

(** A stored blob was put and is filed under its digest. *)
Lemma local_content_blobs ops d b :
  lc_blobs (local_content_run ops) !! d = Some b → b ∈ contents_put ops ∧ hexdigest b = d.
Proof.
  unfold local_content_run. revert d b. induction ops as [|op ops IH] using rev_ind; intros d b.
  { simpl. by rewrite lookup_empty. }
  rewrite fold_left_app. cbn [fold_left]. unfold contents_put in *. rewrite omap_app, elem_of_app.
  destruct op as [c t m|p]; simpl.
  - destruct (lc_blobs _ !! hexdigest c) eqn:E; intros Hd.
    + destruct (IH _ _ Hd). auto.
    + destruct (decide (d = hexdigest c)) as [->|].
      * rewrite lookup_insert_eq in Hd. injection Hd as <-. split; [right; left|done].
      * rewrite lookup_insert_ne in Hd by done. destruct (IH _ _ Hd). auto.
  - intros [_ Hd]%lookup_delete_Some. destruct (IH _ _ Hd). auto.
Qed.

(** Content addressing. After any history of puts and deletes, putting a
    content whose digest no different earlier content shares makes it readable
    through the returned pointer, byte for byte, and the same content always
    gets the same key; deleting through that pointer makes it unreadable and
    reports that it existed. *)
Theorem local_put_get (hex_no_slash : ∀ c i, String.get i (hexdigest c) ≠ Some "/"%char)
  (ops : list Content.content_op) (content : string) (content_type : option string)
  (metadata : option row)
  (no_collision : ∀ c, c ∈ contents_put ops → hexdigest c = hexdigest content → c = content) :
  let (st, p) := local_put (local_content_run ops) content content_type metadata in
  local_content_get st p = Ok content ∧ local_exists st p = true ∧
  tp_key p = _key (hexdigest content) ∧
  (Content.put_meta content_type metadata ≠ ∅ →
     local_get_metadata st p = Ok (Content.put_meta content_type metadata)) ∧
  local_content_get (local_delete st p).1 p = Err (ContentNotFoundError (tp_key p)) ∧
  (local_delete st p).2 = true.
Proof.
  unfold local_put. cbn zeta.
  set (st0 := local_content_run ops). set (meta := Content.put_meta content_type metadata).
  set (blobs := match lc_blobs st0 !! hexdigest content with Some _ => _ | None => _ end).
  assert (Hb : blobs !! hexdigest content = Some content).
  { unfold blobs. destruct (lc_blobs st0 !! hexdigest content) as [b|] eqn:E.
    - destruct (local_content_blobs ops _ _ E) as [Hin Hd]. by rewrite E, (no_collision b Hin Hd).
    - apply lookup_insert_eq. }
  unfold local_content_get, local_exists, local_get_metadata, local_delete.
  rewrite !digest_of_key by apply hex_no_slash. cbn [lc_blobs lc_metas fst snd tp_key].
  rewrite Hb. split_and!; try done.
  - intros Hm. rewrite bool_decide_true by done. simpl. by rewrite lookup_insert_eq.
  - by rewrite lookup_delete_eq.
Qed.

End Parts.
End LocalContent.

(** * Stream results *)
Module LocalResult.
Section Parts.
Context `{IsoTime}.

(** A character of [_SAFE_ID]: letters, digits, dot, underscore, hyphen. *)
Definition safe_char (c : ascii) : bool :=
  let n := N_of_ascii c in
  ((65 <=? n) && (n <=? 90) || (97 <=? n) && (n <=? 122) || (48 <=? n) && (n <=? 57)
   || (n =? 46) || (n =? 95) || (n =? 45))%N.

(** [_SAFE_ID.match(s)]: one or more safe characters up to the end or up to a
    final newline (the [$] anchor). *)
Fixpoint safe_rest (s : string) : bool :=
  match s with
  | EmptyString => true
  | String c EmptyString => safe_char c || bool_decide (c = "010"%char)
  | String c s' => safe_char c && safe_rest s'
  end.

Definition safe_id (s : string) : bool :=
  match s with EmptyString => false | String c s' => safe_char c && safe_rest s' end.

(** Errors: [ValueError] for an unsafe id. *)
Inductive result_error : Type := UnsafeStreamId.

(** The documents under results/: expiry text and manifest. *)
Abbreviation LocalResultPart := (gmap string (string * row)).

(** LocalResultPart._path: the file name. *)
Definition _path (stream_id : string) : res result_error string :=
  if safe_id stream_id then Ok (stream_id +:+ ".json") else Err UnsafeStreamId.

(** LocalResultPart.save *)
Definition local_result_save (st : LocalResultPart) (stream_id : string) (manifest : row)
  (expire_at : Z) : res result_error LocalResultPart :=
  (let? path := _path stream_id in Ok (<[path := (iso expire_at, manifest)]> st))%py.

(** LocalResultPart.get *)
Definition local_result_get (now : Z) (st : LocalResultPart) (stream_id : string)
  : res result_error (option row) :=
  (let? path := _path stream_id in
   match st !! path with
   | None => Ok None
   | Some (expire, manifest) =>
       match from_iso expire with
       | None => Ok None
       | Some expire_at => if now >? expire_at then Ok None else Ok (Some manifest)
       end
   end)%py.

(** The characters of a string. *)
Fixpoint chars (s : string) : list ascii :=
  match s with EmptyString => [] | String c s' => c :: chars s' end.

Lemma safe_rest_chars s : safe_rest s = true →
  ∀ c, c ∈ chars s → safe_char c = true ∨ c = "010"%char.
Proof.
  induction s as [|c s IH]; intros Hs x Hx; [by apply elem_of_nil in Hx|].
  cbn [chars] in Hx. apply elem_of_cons in Hx as [->|Hx].
  - destruct s; simpl in Hs.
    + apply orb_true_iff in Hs as [?|?%bool_decide_eq_true]; auto.
    + apply andb_true_iff in Hs as [? _]. by left.
  - destruct s; [by apply elem_of_nil in Hx|]. apply andb_true_iff in Hs as [_ Hs]. auto.
Qed.

Lemma length_append a b : String.length (a +:+ b) = (String.length a + String.length b)%nat.
Proof. induction a as [|c a IH]; [done|]. simpl. f_equal. exact IH. Qed.

Lemma json_suffix_inj a b : a +:+ ".json" = b +:+ ".json" → a = b.
Proof.
  revert b. induction a as [|x a IH]; intros [|y b] E; simpl in E; [done| | |].
  - exfalso. apply (f_equal String.length) in E. simpl in E. rewrite length_append in E.
    simpl in E. lia.
  - exfalso. apply (f_equal String.length) in E. simpl in E. rewrite length_append in E.
    simpl in E. lia.
  - injection E as -> E. f_equal. auto.
Qed.

(** Stream results. An accepted id has no path separator, so the document
    stays inside the results directory; a saved manifest reads back until its
    expiry instant (inclusive) and is absent afterwards; a later save of the
    same id replaces it; other ids are not affected. *)
Theorem local_result_roundtrip (st : LocalResultPart) (stream_id other : string) (manifest : row)
  (expire_at now : Z) :
  match local_result_save st stream_id manifest expire_at with
  | Err UnsafeStreamId => safe_id stream_id = false
  | Ok st' =>
      (∀ c, c ∈ chars stream_id → c ≠ "/"%char) ∧
      local_result_get now st' stream_id
        = Ok (if now <=? expire_at then Some manifest else None) ∧
      (other ≠ stream_id → local_result_get now st' other = local_result_get now st other)
  end.
Proof.
  unfold local_result_save, local_result_get, _path, res_bind.
  destruct (safe_id stream_id) eqn:Hs; [|done]. split_and!.
  - intros c Hc ->. destruct stream_id as [|x s]; [done|]. cbn in Hs.
    apply andb_true_iff in Hs as [Hx Hs]. cbn [chars] in Hc.
    apply elem_of_cons in Hc as [<-|Hc]; [done|].
    by destruct (safe_rest_chars s Hs _ Hc).
  - rewrite lookup_insert_eq, from_iso_iso.
    destruct (Z.leb_spec now expire_at); destruct (now >? expire_at) eqn:E; try done; lia.
  - intros Hne. destruct (safe_id other); [|done].
    rewrite lookup_insert_ne; [done|]. intros E. apply json_suffix_inj in E. congruence.
Qed.
End Parts.
End LocalResult.

(** LocalFileStore: the five parts of one root directory. *)
Record LocalFileStore := mkLocalStore {
  ls_content : LocalContent.LocalContentPart;
  ls_audit : LocalAudit.LocalAuditPart;
  ls_result : gmap string (string * row);
  ls_snapshot : LocalSnapshotPart;
  ls_dependency : LocalDependency.LocalDependencyPart;
}.

(** * Witnesses *)

Definition demo_event : AuditEvent := mkAudit "e1" "t1" None "created" "flow" ∅ 3.

Definition demo_audit_file : LocalAudit.LocalAuditPart :=
  [@LocalAudit.audit_payload demo_iso demo_event].

Lemma demo_audit_written : @LocalAudit.audit_written demo_iso demo_audit_file.
Proof.
  eapply (@LocalAudit.audit_written_append demo_iso [] _ demo_event); [constructor|].
  vm_compute. reflexivity.
Qed.

Lemma local_append_refines_witness :
  Audit.audit_append (@LocalAudit.audit_view demo_iso 0 demo_audit_file) demo_event
  = res_map (@LocalAudit.audit_view demo_iso 0)
      (@LocalAudit.local_append demo_iso demo_audit_file demo_event).
Proof.
  exact (@LocalAudit.local_append_refines demo_iso 0 demo_audit_file demo_event demo_audit_written).
Defined.

Lemma local_audit_query_equiv_witness :
  ∃ rows,
    @LocalAudit.local_audit_query demo_iso 0 demo_audit_file None None None None None
      (Some (mkSort "event_id" ASC)) = Ok rows ∧
    Audit.audit_query (@LocalAudit.audit_view demo_iso 0 demo_audit_file) None None None None None
      (Some (mkSort "event_id" ASC)) = Ok rows.
Proof.
  exact (@LocalAudit.local_audit_query_equiv demo_iso 0 demo_audit_file None None None None None
    ASC demo_audit_written).
Defined.

Definition demo_dep_file : LocalDependency.LocalDependencyPart :=
  [@LocalDependency.edge_payload demo_iso (mkEdge "b" "a" true 0)].

Lemma demo_dep_written : @LocalDependency.dep_written demo_iso 0 demo_dep_file.
Proof.
  eapply (@LocalDependency.dep_written_write demo_iso 0 [] _ (mkEdge "b" "a" true 0));
    [constructor|]. vm_compute. reflexivity.
Qed.

Lemma local_dependency_refines_witness :
  @LocalDependency.local_read_graph demo_iso elements 0 demo_dep_file "a"
    = Dependency.read_graph elements (@LocalDependency.dep_view demo_iso 0 demo_dep_file) "a" ∧
  match @LocalDependency.local_write_dependency demo_iso 0 demo_dep_file (mkEdge "b" "a" false 7) with
  | Ok file' =>
      Dependency.write_dependency (@LocalDependency.dep_view demo_iso 0 demo_dep_file)
        (mkEdge "b" "a" false 7) = Ok (@LocalDependency.dep_view demo_iso 0 file')
  | Err e => e = LocalDependency.DepContract IdempotencyConflictError ∧
      Dependency.write_dependency (@LocalDependency.dep_view demo_iso 0 demo_dep_file)
        (mkEdge "b" "a" false 7) = Err IdempotencyConflictError
  end.
Proof.
  exact (@LocalDependency.local_dependency_refines demo_iso elements 0 demo_dep_file
    (mkEdge "b" "a" false 7) "a" demo_dep_written).
Defined.

(** A stand-in digest: the length of the content, in unary. *)
Definition demo_digest (c : string) : string := ticks (String.length c).

Lemma demo_digest_no_slash c i : String.get i (demo_digest c) ≠ Some "/"%char.
Proof.
  unfold demo_digest. revert i. induction (String.length c) as [|n IH]; intros [|i]; simpl; [done..|].
  apply IH.
Qed.

Lemma local_put_get_witness :
  let (st, p) := LocalContent.local_put demo_digest
    (LocalContent.local_content_run demo_digest [Content.Put "xy" None None]) "abc" (Some "text") None in
  LocalContent.local_content_get st p = Ok "abc" ∧ LocalContent.local_exists st p = true ∧
  tp_key p = LocalContent._key (demo_digest "abc") ∧
  (Content.put_meta (Some "text") None ≠ ∅ →
     LocalContent.local_get_metadata st p = Ok (Content.put_meta (Some "text") None)) ∧
  LocalContent.local_content_get (LocalContent.local_delete st p).1 p
    = Err (ContentNotFoundError (tp_key p)) ∧
  (LocalContent.local_delete st p).2 = true.
Proof.
  apply (LocalContent.local_put_get demo_digest demo_digest_no_slash
    [Content.Put "xy" None None] "abc" (Some "text") None).
  intros c Hc%list_elem_of_singleton Hd. subst c. discriminate Hd.
Defined.
