(* ===== verification/Rules.v ===== *)
(** The data rules of [protocol/rules]: structural checks over envelope
    streams (DR-SNP, DR-AUD, DR-CTT, DR-ALL, DR-DEP), their runner and report,
    and what they say of the streams the local adapter writes. A finding's
    human-readable message is not modelled. *)
From S2P Require Import Prelude Mechanism SnapshotModel Traversal MemorySnapshot MemoryParts.
From S2P Require Import LocalSnapshot LocalParts.
From stdpp Require Import prelude gmap strings list pretty.
From Stdlib Require Import ZArith Lia Ascii.
Local Open Scope string_scope.
Local Open Scope list_scope.
Local Open Scope py_scope.

(** * Types (rules/_types.py) *)

Inductive Level : Type := violation | warning.

#[global] Instance Level_eq_dec : EqDecision Level.
Proof. solve_decision. Defined.

Record Finding := mkFinding {
  f_rule : string;
  f_level : Level;
  f_location : string;
  f_term : string;
  f_degraded : bool;
}.

Record RuleReport := mkReport { findings : list Finding }.

Definition level_count (lv : Level) (r : RuleReport) : nat :=
  length (filter (λ f, f_level f = lv) (findings r)).
Definition violation_count (r : RuleReport) : nat := level_count violation r.
Definition warning_count (r : RuleReport) : nat := level_count warning r.
Definition report_ok (r : RuleReport) : bool := bool_decide (violation_count r = 0%nat).

(** What a rule raises on rows it cannot read: [.get] on a non-dict, or an
    unhashable or non-iterable value. *)
Inductive rule_error : Type := AttributeError | TypeError.

(** * Helpers (rules/common.py) *)

Definition is_digit (c : ascii) : bool :=
  let n := N_of_ascii c in ((48 <=? n) && (n <=? 57))%N.

(** The reversed text starts with the reversed offset. *)
Definition offset_rev (l : list ascii) : bool :=
  match l with
  | "Z"%char :: _ => true
  | d1 :: d2 :: ":"%char :: d3 :: d4 :: sign :: _ =>
      is_digit d1 && is_digit d2 && is_digit d3 && is_digit d4
      && (bool_decide (sign = "+"%char) || bool_decide (sign = "-"%char))
  | _ => false
  end.

(** has_explicit_offset: [$] also matches before a final newline. *)
Definition has_explicit_offset (value : json) : bool :=
  match value with
  | JStr s =>
      let l := reverse (LocalResult.chars s) in
      offset_rev l || match l with "010"%char :: l' => offset_rev l' | _ => false end
  | _ => false
  end.

(** [line.get("data", {})], and [.get] on it. *)
Definition line_data (line : row) : json := with_default (JObj ∅) (line !! "data").

Definition as_dict (j : json) : res rule_error row :=
  match j with JObj m => Ok m | _ => Err AttributeError end.

Definition jget (d : row) (k : string) : json := with_default JNull (d !! k).

Definition op_in (line : row) (ops : list string) : bool :=
  match line !! "op" with Some (JStr op) => bool_decide (op ∈ ops) | _ => false end.

Definition data_has (line : row) (k : string) : bool :=
  match line_data line with JObj m => bool_decide (is_Some (m !! k)) | _ => false end.

Definition in_domain (domain : string) (line : row) : bool :=
  if decide (domain = "snapshot") then
    op_in line ["save"; "save_terminal"] || data_has line "execution_id"
  else if decide (domain = "audit") then op_in line ["append"] || data_has line "event_id"
  else if decide (domain = "edge") then
    op_in line ["edge_write"] || (data_has line "child_id" && data_has line "parent_id")
  else false.

(** [enumerate(lines)] *)
Fixpoint enumerate_from {A} (i : N) (l : list A) : list (N * A) :=
  match l with [] => [] | x :: l' => (i, x) :: enumerate_from (i + 1) l' end.

(** Lines that are dicts without a "meta" key, with their index. *)
Definition body_rows (lines : list json) : list (N * row) :=
  omap (λ il : N * json,
          match il.2 with
          | JObj line => if decide (line !! "meta" = None) then Some (il.1, line) else None
          | _ => None
          end) (enumerate_from 0 lines).

Definition iter_domain_rows (lines : list json) (domain : string) : list (N * row) :=
  filter (λ il : N * row, in_domain domain il.2 = true) (body_rows lines).

(** A loop over rows that threads a state and may raise. *)
Fixpoint for_rows {A S} (f : S → A → res rule_error S) (l : list A) (s : S) : res rule_error S :=
  match l with
  | [] => Ok s
  | x :: l' => let? s' := f s x in for_rows f l' s'
  end.

(** A value used as a dict or set key must be hashable. *)
Definition hashable (j : json) : bool := match j with JArr _ | JObj _ => false | _ => true end.

(** * Snapshot rules (rules/snapshot.py) *)

Abbreviation gen_key := (json * json * json)%type.

Definition generation (data : row) : res rule_error gen_key :=
  let key := (jget data "task_id", jget data "step", jget data "execution_id") in
  if hashable key.1.1 && hashable key.1.2 && hashable key.2 then Ok key else Err TypeError.

Definition row_status (data : row) : json := with_default (JStr "") (data !! "status").

Definition _SNAPSHOT_OPS : list string := ["save"; "save_terminal"].

(** [key in d and status and status != d[key]] *)
Definition drifts (d : list (gen_key * json)) (key : gen_key) (status : json) : bool :=
  match dget d key with
  | Some base => truthy status && bool_decide (status ≠ base)
  | None => false
  end.

Definition at_data (i : N) (suffix : string) : string := "snapshots[" +:+ pretty i +:+ "]" +:+ suffix.

Record snp_state := mkSnp {
  sp_findings : list Finding;
  sp_terminal : list (gen_key * json);
  sp_seen : list (gen_key * json);
}.

Definition snp_001_step (st : snp_state) (il : N * row) : res rule_error snp_state :=
  let (i, line) := il in
  let? data := as_dict (line_data line) in
  let? key := generation data in
  let status := row_status data in
  if op_in line _SNAPSHOT_OPS then
    let found :=
      if drifts (sp_terminal st) key status
      then [mkFinding "DR-SNP-001" violation (at_data i ".data") "T3" false] else [] in
    let terminal :=
      if op_in line ["save_terminal"] && truthy status
      then dset (sp_terminal st) key status else sp_terminal st in
    Ok (mkSnp (sp_findings st ++ found) terminal (sp_seen st))
  else
    let found :=
      if drifts (sp_seen st) key status
      then [mkFinding "DR-SNP-001" violation (at_data i ".data") "T3" true] else [] in
    let seen := if truthy status then dset (sp_seen st) key status else sp_seen st in
    Ok (mkSnp (sp_findings st ++ found) (sp_terminal st) seen).

Definition dr_snp_001 (lines : list json) : res rule_error (list Finding) :=
  let? st := for_rows snp_001_step (iter_domain_rows lines "snapshot") (mkSnp [] [] []) in
  Ok (sp_findings st).

Definition snp_002_step (st : list Finding * list (gen_key * json)) (il : N * row)
  : res rule_error (list Finding * list (gen_key * json)) :=
  let (i, line) := il in
  if op_in line _SNAPSHOT_OPS then
    let? data := as_dict (line_data line) in
    let? key := generation data in
    let status := row_status data in
    let found :=
      if drifts st.2 key status
      then [mkFinding "DR-SNP-002" violation (at_data i "") "T3" false] else [] in
    let terminal :=
      if op_in line ["save_terminal"] && truthy status then dset st.2 key status else st.2 in
    Ok (st.1 ++ found, terminal)
  else Ok st.

Definition dr_snp_002 (lines : list json) : res rule_error (list Finding) :=
  let rows := iter_domain_rows lines "snapshot" in
  if existsb (λ il : N * row, op_in il.2 _SNAPSHOT_OPS) rows then
    let? st := for_rows snp_002_step rows ([], []) in Ok st.1
  else Ok [].

Definition dr_snp_003 (lines : list json) : res rule_error (list Finding) :=
  for_rows (λ acc il,
    let? data := as_dict (line_data il.2) in
    if truthy (jget data "execution_id") then Ok acc
    else Ok (acc ++ [mkFinding "DR-SNP-003" violation (at_data il.1 ".data") "T11" false]))
    (iter_domain_rows lines "snapshot") [].

(** * Audit rule (rules/audit.py) *)

(** _canonical_payload: the canonical JSON text of the stripped row, here the
    stripped row itself. *)
Definition _canonical_payload (data : row) : row := strip data.

Definition aud_001_step (st : list Finding * list (json * row)) (il : N * row)
  : res rule_error (list Finding * list (json * row)) :=
  let? data := as_dict (line_data il.2) in
  let event_id := jget data "event_id" in
  if truthy event_id then
    if hashable event_id then
      let canonical := _canonical_payload data in
      match dget st.2 event_id with
      | Some seen =>
          if bool_decide (seen ≠ canonical) then
            Ok (st.1 ++ [mkFinding "DR-AUD-001" violation
                           ("audit[" +:+ pretty il.1 +:+ "].data") "T4" false], st.2)
          else Ok st
      | None => Ok (st.1, dset st.2 event_id canonical)
      end
    else Err TypeError
  else Ok st.

Definition dr_aud_001 (lines : list json) : res rule_error (list Finding) :=
  let? st := for_rows aud_001_step (iter_domain_rows lines "audit") ([], []) in Ok st.1.

(** * Content rule (rules/content.py) *)

Definition _POINTER_FIELDS : list string := ["input_pointer"; "output_pointer"].

(** [set.update(line.get("keys", []))]: the elements of an iterable. *)
Definition iterate (j : json) : res rule_error (list json) :=
  match j with
  | JArr l => Ok l
  | JStr s => Ok ((λ c, JStr (String c "")) <$> LocalResult.chars s)
  | JObj m => Ok (JStr <$> (map_to_list m).*1)
  | _ => Err TypeError
  end.

Definition hashable_all (l : list json) : res rule_error (list json) :=
  if forallb hashable l then Ok l else Err TypeError.

(** Content keys and registered dangling keys of the stream. *)
Definition ctt_step (st : list json * list json) (line : json)
  : res rule_error (list json * list json) :=
  match line with
  | JObj line =>
      if decide (jget line "meta" = JStr "dangling_pointers") then
        let? keys := iterate (with_default (JArr []) (line !! "keys")) in
        let? keys := hashable_all keys in
        Ok (st.1, st.2 ++ keys)
      else if op_in line ["put"] then
        match line_data line with
        | JObj data =>
            let key := jget data "key" in
            if truthy key then
              if hashable key then Ok (st.1 ++ [key], st.2) else Err TypeError
            else Ok st
        | _ => Ok st
        end
      else Ok st
  | _ => Ok st
  end.

Definition ctt_check (content_keys dangling : list json) (i : N) (data : row)
  (acc : list Finding) (field_name : string) : res rule_error (list Finding) :=
  match jget data field_name with
  | JObj pointer =>
      let key := jget pointer "key" in
      if truthy key then
        if hashable key then
          if bool_decide (key ∉ content_keys) && bool_decide (key ∉ dangling) then
            Ok (acc ++ [mkFinding "DR-CTT-001" violation (at_data i (".data." +:+ field_name)) "T5" false])
          else Ok acc
        else Err TypeError
      else Ok acc
  | _ => Ok acc
  end.

Definition dr_ctt_001 (lines : list json) : res rule_error (list Finding) :=
  let? st := for_rows ctt_step lines ([], []) in
  for_rows (λ acc il,
    let? data := as_dict (line_data il.2) in
    for_rows (ctt_check st.1 st.2 il.1 data) _POINTER_FIELDS acc)
    (iter_domain_rows lines "snapshot") [].

(** * Cross-domain rules (rules/all.py) *)

Definition _DATETIME_FIELDS : list string :=
  ["created_at"; "updated_at"; "expire_at"; "timestamp"; "registered_at"; "ts"].

(** [line.get("data", line)] when it is a dict. *)
Definition data_or_line (line : row) : option row :=
  match with_default (JObj line) (line !! "data") with JObj d => Some d | _ => None end.

Definition offset_findings (i : N) (data : row) : list Finding :=
  omap (λ field_name,
    let value := jget data field_name in
    if decide (value = JNull) then None
    else if has_explicit_offset value then None
    else Some (mkFinding "DR-ALL-001" violation
                 ("rows[" +:+ pretty i +:+ "].data." +:+ field_name) "T7" false)) _DATETIME_FIELDS.

Definition dr_all_001 (lines : list json) : res rule_error (list Finding) :=
  Ok (mjoin ((λ il : N * row,
    match data_or_line il.2 with Some data => offset_findings il.1 data | None => [] end)
    <$> body_rows lines)).

(** {line.get("data", {}).get("task_id") for snapshot rows} *)
Definition snapshot_tasks (lines : list json) : res rule_error (list json) :=
  for_rows (λ acc il,
    let? data := as_dict (line_data il.2) in
    let t := jget data "task_id" in
    if hashable t then Ok (acc ++ [t]) else Err TypeError)
    (iter_domain_rows lines "snapshot") [].

(** One reference check, reporting each unknown task once. *)
Definition dangling_ref (rule location term : string) (tasks : list json)
  (st : list Finding * list json) (task_id : json) : res rule_error (list Finding * list json) :=
  if truthy task_id then
    if hashable task_id then
      if bool_decide (task_id ∉ tasks) && bool_decide (task_id ∉ st.2)
      then Ok (st.1 ++ [mkFinding rule warning location term false], st.2 ++ [task_id])
      else Ok st
    else Err TypeError
  else Ok st.

Definition dr_all_002 (lines : list json) : res rule_error (list Finding) :=
  let? tasks := snapshot_tasks lines in
  let? st := for_rows (λ st il,
    let? data := as_dict (line_data il.2) in
    dangling_ref "DR-ALL-002" ("audit[" +:+ pretty il.1 +:+ "].data") "T6" tasks st
      (jget data "task_id"))
    (iter_domain_rows lines "audit") ([], []) in
  Ok st.1.

Definition dr_dep_001 (lines : list json) : res rule_error (list Finding) :=
  let? tasks := snapshot_tasks lines in
  let? st := for_rows (λ st il,
    let? data := as_dict (line_data il.2) in
    for_rows (λ st field_name,
      dangling_ref "DR-DEP-001" ("edges[" +:+ pretty il.1 +:+ "].data." +:+ field_name) "T12"
        tasks st (jget data field_name)) ["child_id"; "parent_id"] st)
    (iter_domain_rows lines "edge") ([], []) in
  Ok st.1.

Definition ends_with (s suffix : string) : bool :=
  bool_decide (reverse (LocalResult.chars suffix) `prefix_of` reverse (LocalResult.chars s)).

(** One placeholder of a manifest: the task_ref must end with its id. *)
Definition ph_step (i : N) (acc : list Finding) (ph : json) : res rule_error (list Finding) :=
  match ph with
  | JObj ph =>
      let pid := jget ph "placeholder_id" in
      if truthy pid then
        match with_default (JStr "") (ph !! "task_ref") with
        | JStr ref =>
            if decide (ref = "") then Ok acc
            else match pid with
                 | JStr pid =>
                     if ends_with ref pid then Ok acc
                     else Ok (acc ++ [mkFinding "DR-ALL-003" warning
                            ("rows[" +:+ pretty i +:+ "].data.placeholders") "T1" false])
                 | _ => Err TypeError
                 end
        | _ => Ok acc
        end
      else Ok acc
  | _ => Ok acc
  end.

Definition dr_all_003 (lines : list json) : res rule_error (list Finding) :=
  for_rows (λ acc il,
    match data_or_line il.2 with
    | None => Ok acc
    | Some data =>
        let phs := jget data "placeholders" in
        if truthy phs then
          let? l := iterate phs in for_rows (ph_step il.1) l acc
        else Ok acc
    end) (body_rows lines) [].

(** * Runner (rules/runner.py) *)

Definition RULES : list (string * (list json → res rule_error (list Finding))) :=
  [("DR-SNP-001", dr_snp_001); ("DR-SNP-002", dr_snp_002); ("DR-SNP-003", dr_snp_003);
   ("DR-AUD-001", dr_aud_001); ("DR-CTT-001", dr_ctt_001); ("DR-ALL-001", dr_all_001);
   ("DR-ALL-002", dr_all_002); ("DR-DEP-001", dr_dep_001); ("DR-ALL-003", dr_all_003)].

Definition run_rules (lines : list json) (select : option (list string))
  : res rule_error RuleReport :=
  let chosen := match select with
                | None => RULES
                | Some ids => filter (λ r, r.1 ∈ ids) RULES
                end in
  let? found := for_rows (λ acc r, let? fs := r.2 lines in Ok (acc ++ fs)) chosen [] in
  Ok (mkReport found).

(** * Terminal-drift scan *)

(** What the snapshot rules read of a row with an op: generation, status and
    whether it closes the generation. *)
Record entry := mkEntry { en_key : gen_key; en_status : json; en_terminal : bool }.

Definition entry_of (line : row) : res rule_error entry :=
  let? data := as_dict (line_data line) in
  let? key := generation data in
  Ok (mkEntry key (row_status data) (op_in line ["save_terminal"])).

Definition close_step (d : list (gen_key * json)) (e : entry) : list (gen_key * json) :=
  if en_terminal e && truthy (en_status e) then dset d (en_key e) (en_status e) else d.

Definition baseline (es : list entry) : list (gen_key * json) := fold_left close_step es [].

(** No entry drifts from the baseline of the entries before it. *)
Fixpoint no_drift (d : list (gen_key * json)) (es : list entry) : bool :=
  match es with
  | [] => true
  | e :: es' => negb (drifts d (en_key e) (en_status e)) && no_drift (close_step d e) es'
  end.

(** Terms T3 for two rows, the first one before the second. *)
Definition t3_pair (a b : entry) : Prop :=
  en_key a = en_key b → en_terminal a = true → truthy (en_status a) = true →
  truthy (en_status b) = true → en_status b = en_status a.

Lemma ForallOrdPairs_snoc {A} (R : A → A → Prop) l x :
  ForallOrdPairs R (l ++ [x]) ↔ ForallOrdPairs R l ∧ ∀ a, a ∈ l → R a x.
Proof.
  induction l as [|y l IH]; simpl.
  - split; [intros _; split; [constructor|set_solver]|intros _; repeat constructor].
  - split.
    + inversion_clear 1 as [|? ? Hy Hl]. apply IH in Hl as [Hl Hx]. rewrite Forall_app in Hy.
      destruct Hy as [Hy Hyx]. inversion_clear Hyx. split; [by constructor|].
      intros a [->|Ha]%elem_of_cons; auto.
    + intros [Hl Hx]. inversion_clear Hl as [|? ? Hy Hl']. constructor.
      * apply Forall_app. split; [done|]. repeat constructor. apply Hx. left.
      * apply IH. split; [done|]. intros a Ha. apply Hx. by right.
Qed.

Lemma no_drift_snoc d es e :
  no_drift d (es ++ [e]) = no_drift d es
    && negb (drifts (fold_left close_step es d) (en_key e) (en_status e)).
Proof.
  revert d. induction es as [|x es IH]; intros d; simpl; [by rewrite andb_true_r|].
  by rewrite IH, andb_assoc.
Qed.

Lemma baseline_Some es k s :
  dget (baseline es) k = Some s →
  ∃ a, a ∈ es ∧ en_key a = k ∧ en_terminal a = true ∧ truthy (en_status a) = true ∧ en_status a = s.
Proof.
  unfold baseline. induction es as [|e es IH] using rev_ind; [done|].
  rewrite fold_left_app. cbn [fold_left]. unfold close_step at 1.
  assert (Hold : dget (fold_left close_step es []) k = Some s → ∃ a, a ∈ es ++ [e] ∧
    en_key a = k ∧ en_terminal a = true ∧ truthy (en_status a) = true ∧ en_status a = s).
  { intros Hd. destruct (IH Hd) as (a & Ha & ?). exists a. split; [|done].
    apply elem_of_app. by left. }
  destruct (en_terminal e && truthy (en_status e)) eqn:E; [|done].
  rewrite dget_dset. apply andb_true_iff in E as [E1 E2].
  destruct (decide (en_key e = k)) as [<-|]; [|done].
  intros [= <-]. exists e. split; [|done]. apply elem_of_app. right. left.
Qed.

Lemma baseline_is_Some es a :
  a ∈ es → en_terminal a = true → truthy (en_status a) = true →
  is_Some (dget (baseline es) (en_key a)).
Proof.
  unfold baseline. induction es as [|e es IH] using rev_ind; [set_solver|].
  intros Hin Ht Hs. rewrite fold_left_app. cbn [fold_left]. unfold close_step at 1.
  apply elem_of_app in Hin as [Hin| ->%list_elem_of_singleton].
  - destruct (en_terminal e && truthy (en_status e)); [rewrite dget_dset; destruct (decide _); [done|]|];
      by apply IH.
  - rewrite Ht, Hs. simpl. rewrite dget_dset_eq. done.
Qed.

Lemma and_iff_compat_l_dep (P Q R : Prop) : (P → Q ↔ R) → (P ∧ Q) ↔ (P ∧ R).
Proof. tauto. Qed.

(** Under the term, closing rows of one generation agree on the status. *)
Lemma ForallOrdPairs_terminal es a b :
  ForallOrdPairs t3_pair es → a ∈ es → b ∈ es → en_key a = en_key b →
  en_terminal a = true → en_terminal b = true →
  truthy (en_status a) = true → truthy (en_status b) = true → en_status a = en_status b.
Proof.
  induction 1 as [|x l Hx _ IH]; [set_solver|].
  rewrite Forall_forall in Hx. unfold t3_pair in Hx.
  intros [->|Ha]%elem_of_cons [->|Hb]%elem_of_cons Hk Hta Htb Hsa Hsb; [done| | |auto].
  - symmetry. by apply Hx.
  - by apply Hx.
Qed.

(** The scan finds no drift exactly when every pair satisfies the term. *)
Lemma no_drift_iff es : no_drift [] es = true ↔ ForallOrdPairs t3_pair es.
Proof.
  induction es as [|e es IH] using rev_ind; [split; [constructor|done]|].
  rewrite no_drift_snoc, ForallOrdPairs_snoc, andb_true_iff, IH, negb_true_iff.
  fold (baseline es). apply and_iff_compat_l_dep. intros Hp. unfold drifts.
  destruct (dget (baseline es) (en_key e)) as [s|] eqn:E.
  - destruct (baseline_Some _ _ _ E) as (a & Ha & Hk & Ht & Hs & <-). split.
    + intros Hd b Hb Hbk Hbt Hbs Hes. rewrite Hes in Hd. simpl in Hd.
      apply bool_decide_eq_false in Hd.
      assert (en_status e = en_status a) as -> by (destruct (decide (en_status e = en_status a)); [done|tauto]).
      apply (ForallOrdPairs_terminal es a b Hp); try done. congruence.
    + intros Hall. specialize (Hall a Ha Hk Ht Hs). destruct (truthy (en_status e)); [|done].
      simpl. apply bool_decide_eq_false. rewrite Hall by done. tauto.
  - split; [|done]. intros _ b Hb Hbk Hbt Hbs _.
    destruct (baseline_is_Some es b Hb Hbt Hbs) as [s Hs]. rewrite Hbk, E in Hs. done.
Qed.

Definition has_op (il : N * row) : Prop := op_in il.2 _SNAPSHOT_OPS = true.

#[global] Instance has_op_dec il : Decision (has_op il).
Proof. unfold has_op. apply _. Defined.

Abbreviation entries rows es := (Forall2 (λ (il : N * row) e, entry_of il.2 = Ok e) rows es).

Lemma nil_app_iff {A} (l1 l2 : list A) : l1 ++ l2 = [] ↔ l1 = [] ∧ l2 = [].
Proof. destruct l1, l2; simpl; naive_solver. Qed.

Lemma found_nil {A} (b : bool) (x : A) : (if b then [x] else []) = [] ↔ b = false.
Proof. by destruct b. Qed.

Lemma for_rows_002 rows fs d fs' d' :
  for_rows snp_002_step rows (fs, d) = Ok (fs', d') →
  ∃ es, entries (filter has_op rows) es ∧ (fs' = [] ↔ fs = [] ∧ no_drift d es = true).
Proof.
  revert fs d. induction rows as [|[i line] rows IH]; intros fs d; cbn [for_rows].
  { intros [= <- <-]. exists []. split; [constructor|]. simpl. tauto. }
  rewrite filter_cons. unfold snp_002_step at 1.
  destruct (decide (has_op (i, line))) as [Hop|Hop]; unfold has_op in Hop; cbn [snd] in Hop.
  2: { apply not_true_is_false in Hop. rewrite Hop. apply IH. }
  rewrite Hop. destruct (as_dict _) as [data|] eqn:Ed; [|done]. cbn [res_bind].
  destruct (generation data) as [key|] eqn:Eg; [|done]. cbn [res_bind fst snd].
  intros Hf. apply IH in Hf as (es & Hes & Hiff).
  exists (mkEntry key (row_status data) (op_in line ["save_terminal"]) :: es). split.
  - constructor; [|done]. cbn [snd]. unfold entry_of. rewrite Ed. simpl. by rewrite Eg.
  - rewrite Hiff, nil_app_iff, found_nil. cbn [no_drift en_key en_status].
    rewrite andb_true_iff, negb_true_iff. unfold close_step. cbn [en_terminal en_status en_key].
    tauto.
Qed.

(** Rule DR-SNP-002 decides terminal legality. When it can read the
    stream, it reports nothing exactly when, among the rows that carry a
    snapshot op, every row of a generation that comes after a closing row with
    a non-empty status has either an empty status or that same status. *)
Theorem dr_snp_002_spec (lines : list json) (fs : list Finding)
  (H : dr_snp_002 lines = Ok fs) :
  ∃ es, entries (filter has_op (iter_domain_rows lines "snapshot")) es ∧
        (fs = [] ↔ ForallOrdPairs t3_pair es).
Proof.
  unfold dr_snp_002 in H. set (rows := iter_domain_rows lines "snapshot") in *.
  destruct (existsb _ rows) eqn:Hex.
  - destruct (for_rows snp_002_step rows ([], [])) as [[fs' d']|] eqn:Ef; [|done].
    injection H as <-. apply for_rows_002 in Ef as (es & Hes & Hiff).
    exists es. split; [done|]. rewrite Hiff, <- no_drift_iff. tauto.
  - injection H as <-. exists []. split.
    + assert (filter has_op rows = []) as ->; [|constructor].
      destruct (filter has_op rows) as [|il l] eqn:E; [done|].
      assert (Hin : il ∈ filter has_op rows) by (rewrite E; left).
      apply list_elem_of_filter in Hin as [Ho Hin].
      assert (existsb (λ il, op_in il.2 _SNAPSHOT_OPS) rows = true); [|congruence].
      apply existsb_exists. exists il. split; [|done]. by apply list_elem_of_In.
    + split; [constructor|done].
Qed.

Lemma for_rows_001 rows fs d seen st :
  Forall has_op rows → for_rows snp_001_step rows (mkSnp fs d seen) = Ok st →
  ∃ es, entries rows es ∧ (sp_findings st = [] ↔ fs = [] ∧ no_drift d es = true).
Proof.
  revert fs d seen. induction rows as [|[i line] rows IH]; intros fs d seen Hall; cbn [for_rows].
  { intros [= <-]. exists []. split; [constructor|]. simpl. tauto. }
  inversion_clear Hall as [|? ? Hop Hrows]. unfold has_op in Hop. cbn [snd] in Hop.
  unfold snp_001_step at 1. destruct (as_dict _) as [data|] eqn:Ed; [|done]. cbn [res_bind].
  destruct (generation data) as [key|] eqn:Eg; [|done]. cbn [res_bind]. rewrite Hop.
  cbn [res_bind sp_findings sp_terminal sp_seen].
  intros Hf. apply IH in Hf as (es & Hes & Hiff); [|done].
  exists (mkEntry key (row_status data) (op_in line ["save_terminal"]) :: es). split.
  - constructor; [|done]. cbn [snd]. unfold entry_of. rewrite Ed. simpl. by rewrite Eg.
  - rewrite Hiff, nil_app_iff, found_nil. cbn [no_drift en_key en_status].
    rewrite andb_true_iff, negb_true_iff. unfold close_step. cbn [en_terminal en_status en_key].
    tauto.
Qed.

(** * Streams written by the local adapter *)

Section LocalStreams.
Context `{IsoTime}.

(** The JSON line of an envelope; [ts] is the writer's clock text. *)
Definition env_line (ts : string) (op : string) (data : row) : json :=
  JObj (<["v" := JNum 1]> (<["op" := JStr op]> (<["ts" := JStr ts]> {["data" := JObj data]}))).

Definition stream_lines (ts : string) (file : LocalSnapshotPart) : list json :=
  (λ e, env_line ts (env_op e) (env_data e)) <$> file.

Definition t3_typed (a b : string * TaskSnapshot) : Prop :=
  snap_key a.2 = snap_key b.2 → a.1 = "save_terminal" → ts_status a.2 ≠ "" →
  ts_status b.2 ≠ "" → ts_status b.2 = ts_status a.2.

(** What accepted calls keep: legal pairs, and the closing status stays the
    recorded one. *)
Record t3_file (es : list (string * TaskSnapshot)) : Prop := {
  tf_ops : ∀ e, e ∈ es → e.1 ∈ _SNAPSHOT_OPS;
  tf_pairs : ForallOrdPairs t3_typed es;
  tf_closed : ∀ a, a ∈ es → a.1 = "save_terminal" →
    snap_key a.2 ∈ (_fold (encode_log es)).2 ∧
    ∃ r, dget (typed_fold es) (snap_key a.2) = Some r ∧
         (ts_status a.2 ≠ "" → ts_status r = ts_status a.2);
}.

Lemma t3_file_save es s :
  t3_file es →
  (∀ r, snap_key s ∈ (_fold (encode_log es)).2 → dget (typed_fold es) (snap_key s) = Some r →
        ts_status s ≠ "" → ts_status s = ts_status r) →
  t3_file (es ++ [("save", s)]).
Proof.
  intros [Ho Hp Hc] Hs. split.
  - intros e [?| ->%list_elem_of_singleton]%elem_of_app; [auto|]. simpl. left.
  - apply ForallOrdPairs_snoc. split; [done|]. intros a Ha Hk Hop Hsa Hsb. cbn [snd] in *.
    destruct (Hc a Ha Hop) as (Hin & r & Hr & Hst). rewrite Hk in *. rewrite (Hs r); auto.
  - intros a [Ha| ->%list_elem_of_singleton]%elem_of_app Hop; [|done].
    destruct (Hc a Ha Hop) as (Hin & r & Hr & Hst).
    rewrite terminal_snoc, decide_False by done. split; [done|].
    rewrite typed_fold_snoc. unfold typed_step. cbn [snd]. rewrite dget_dset.
    destruct (decide (snap_key s = snap_key a.2)) as [Hk|]; [|eauto].
    rewrite Hk, Hr. eexists. split; [done|]. intros Hne. cbn [saved_record merge_snapshot ts_status].
    destruct (decide (ts_status s = "")); [auto|]. rewrite <- Hk in Hin, Hr.
    rewrite (Hs r Hin Hr) by done. auto.
Qed.

Lemma t3_file_terminal es s :
  t3_file es →
  ¬ (snap_key s ∈ (_fold (encode_log es)).2 ∧ is_Some (dget (typed_fold es) (snap_key s))) →
  t3_file (es ++ [("save_terminal", s)]).
Proof.
  intros [Ho Hp Hc] Hs.
  assert (Hfresh : ∀ a, a ∈ es → a.1 = "save_terminal" → snap_key a.2 ≠ snap_key s).
  { intros a Ha Hop Hk. destruct (Hc a Ha Hop) as (Hin & r & Hr & _). rewrite Hk in *. eauto. }
  split.
  - intros e [?| ->%list_elem_of_singleton]%elem_of_app; [auto|]. simpl. right. left.
  - apply ForallOrdPairs_snoc. split; [done|]. intros a Ha Hk Hop. destruct (Hfresh a Ha Hop Hk).
  - rewrite terminal_snoc, decide_True, typed_fold_snoc by done. unfold typed_step. cbn [snd].
    intros a [Ha| ->%list_elem_of_singleton]%elem_of_app Hop.
    + destruct (Hc a Ha Hop) as (Hin & r & Hr & Hst). split; [set_solver|].
      rewrite dget_dset_ne; [eauto|]. intros Hk. by apply (Hfresh a Ha Hop).
    + cbn [snd]. split; [set_solver|]. rewrite dget_dset_eq. eexists. split; [done|].
      intros Hne. destruct (dget _ _) as [e|]; simpl; [|done].
      destruct (decide (ts_status s = "")); [|done]. by rewrite e0 in Hne.
Qed.

Lemma local_written_t3 file : local_written file → ∃ es, file = encode_log es ∧ t3_file es.
Proof.
  induction 1 as [|file file' s _ (es & -> & Ht) Hs|file file' s _ (es & -> & Ht) Hs].
  - exists []. split; [done|]. split; [set_solver|constructor|set_solver].
  - exists (es ++ [("save", s)]). unfold local_save in Hs.
    rewrite (surjective_pairing (_fold (encode_log es))), fold_rows, dget_fmap_payload in Hs.
    split; [rewrite encode_log_snoc; by repeat case_match; simplify_eq|].
    apply t3_file_save; [done|]. intros r Hin Hr Hne. rewrite Hr in Hs.
    cbn [fmap option_fmap option_map] in Hs. rewrite payload_status in Hs.
    rewrite !bool_decide_true in Hs by done. simpl in Hs.
    destruct (decide (ts_status s = ts_status r)); [done|].
    by rewrite bool_decide_true in Hs by done.
  - unfold local_save_terminal in Hs.
    rewrite (surjective_pairing (_fold (encode_log es))), fold_rows, dget_fmap_payload in Hs.
    destruct (decide (snap_key s ∈ (_fold (encode_log es)).2 ∧
      is_Some (dget (typed_fold es) (snap_key s)))) as [[Hin [r Hr]]|Hn].
    + exists es. split; [|done]. rewrite Hr, bool_decide_true in Hs by done. cbn in Hs.
      destruct (idempotent_payload_equal _ _); [|done]. by injection Hs as <-.
    + exists (es ++ [("save_terminal", s)]). split; [|by apply t3_file_terminal].
      rewrite encode_log_snoc. destruct (dget (typed_fold es) (snap_key s)) as [r|] eqn:Hr.
      * rewrite bool_decide_false in Hs by naive_solver. cbn in Hs. by injection Hs as <-.
      * cbn in Hs. by injection Hs as <-.
Qed.

(** The rows the rules see of such a stream. *)
Definition line_row (ts : string) (e : string * TaskSnapshot) : row :=
  <["v" := JNum 1]> (<["op" := JStr e.1]> (<["ts" := JStr ts]> {["data" := JObj (to_payload e.2)]})).

Definition typed_entry (e : string * TaskSnapshot) : entry :=
  mkEntry (JStr (ts_task_id e.2), JStr (ts_step e.2), JStr (ts_execution_id e.2))
    (JStr (ts_status e.2)) (bool_decide (e.1 = "save_terminal")).

Lemma stream_lines_encode ts es : stream_lines ts (encode_log es) = JObj <$> (line_row ts <$> es).
Proof. unfold stream_lines, encode_log. by rewrite <- !list_fmap_compose. Qed.

Lemma body_rows_clean (i : N) (rows : list row) :
  (∀ r, r ∈ rows → r !! "meta" = None) →
  omap (λ il : N * json,
          match il.2 with
          | JObj line => if decide (line !! "meta" = None) then Some (il.1, line) else None
          | _ => None
          end) (enumerate_from i (JObj <$> rows)) = enumerate_from i rows.
Proof.
  revert i. induction rows as [|r rows IH]; intros i Hm; [done|].
  cbn [fmap list_fmap enumerate_from omap list_omap snd fst].
  rewrite decide_True by (apply Hm; left). f_equal. apply IH. intros x Hx. apply Hm. by right.
Qed.

Lemma enumerate_filter (P : N * row → Prop) `{∀ x, Decision (P x)} (i : N) (rows : list row) :
  (∀ j r, r ∈ rows → P (j, r)) → filter P (enumerate_from i rows) = enumerate_from i rows.
Proof.
  revert i. induction rows as [|r rows IH]; intros i HP; [done|]. cbn [enumerate_from].
  rewrite filter_cons, decide_True by (apply HP; left). f_equal. apply IH.
  intros j x Hx. apply HP. by right.
Qed.

Lemma line_row_op ts e ops : op_in (line_row ts e) ops = bool_decide (e.1 ∈ ops).
Proof. unfold op_in, line_row. by simplify_map_eq. Qed.

Lemma line_row_meta ts e : line_row ts e !! "meta" = None.
Proof. unfold line_row. by simplify_map_eq. Qed.

Lemma line_row_data ts e : line_data (line_row ts e) = JObj (to_payload e.2).
Proof. unfold line_data, line_row. by simplify_map_eq. Qed.

Lemma entry_of_line_row ts e : entry_of (line_row ts e) = Ok (typed_entry e).
Proof.
  unfold entry_of. rewrite line_row_data, line_row_op. cbn [as_dict res_bind].
  destruct (snapshot_dict_present e.2) as (H1 & H2 & H3 & _ & H5 & _).
  unfold generation, jget, row_status. rewrite !lookup_to_payload, H1, H2, H3, H5.
  cbn [with_default hashable fst snd andb res_bind]. unfold typed_entry. do 2 f_equal.
  apply bool_decide_ext. by rewrite list_elem_of_singleton.
Qed.

Lemma snapshot_rows_stream ts es :
  (∀ e, e ∈ es → e.1 ∈ _SNAPSHOT_OPS) →
  iter_domain_rows (stream_lines ts (encode_log es)) "snapshot"
  = enumerate_from 0 (line_row ts <$> es).
Proof.
  intros Ho. rewrite stream_lines_encode. unfold iter_domain_rows, body_rows.
  rewrite body_rows_clean.
  - apply enumerate_filter. intros j r [e [-> He]]%list_elem_of_fmap. cbn [snd].
    unfold in_domain. rewrite decide_True by done. rewrite line_row_op, bool_decide_true; [done|].
    by apply Ho.
  - intros r [e [-> He]]%list_elem_of_fmap. apply line_row_meta.
Qed.

Lemma entries_stream ts i es es' :
  entries (enumerate_from i (line_row ts <$> es)) es' → es' = typed_entry <$> es.
Proof.
  revert i es'. induction es as [|e es IH]; intros i es' Hf; inversion_clear Hf; [done|].
  cbn [fmap list_fmap]. f_equal; [|by eapply IH].
  cbn [snd] in *. rewrite entry_of_line_row in *. congruence.
Qed.

Lemma typed_entry_t3 es : ForallOrdPairs t3_typed es → ForallOrdPairs t3_pair (typed_entry <$> es).
Proof.
  assert (Ht : ∀ x : string, truthy (JStr x) = true → x ≠ "").
  { intros x Hx. by apply bool_decide_eq_true in Hx. }
  induction 1 as [|a l Ha _ IH]; [constructor|]. cbn [fmap list_fmap]. constructor; [|done].
  apply Forall_fmap. eapply Forall_impl; [exact Ha|]. intros b Hab Hk Hop Hsa Hsb.
  cbn in *. apply bool_decide_eq_true in Hop. f_equal.
  apply Hab; auto. unfold snap_key. congruence.
Qed.

(** A rule scan that can read every row returns. *)
Lemma for_rows_ok {A S} (f : S → A → res rule_error S) l s :
  (∀ s x, x ∈ l → ∃ s', f s x = Ok s') → ∃ s', for_rows f l s = Ok s'.
Proof.
  revert s. induction l as [|x l IH]; intros s Hf; cbn [for_rows]; [eauto|].
  destruct (Hf s x ltac:(left)) as [s' ->]. cbn [res_bind]. apply IH.
  intros s0 y Hy. apply Hf. by right.
Qed.

Lemma enumerate_elem {A} (i : N) (l : list A) il : il ∈ enumerate_from i l → il.2 ∈ l.
Proof.
  revert i. induction l as [|x l IH]; intros i Hil; cbn [enumerate_from] in Hil.
  - by apply elem_of_nil in Hil.
  - apply elem_of_cons in Hil as [->|Hil]; [left|right; eauto].
Qed.

(** C39: what the local adapter writes obeys its own data rules. The stream of
    every sequence of accepted save and save_terminal calls passes DR-SNP-001
    and DR-SNP-002 with no finding. *)
Theorem local_stream_passes_snapshot_rules (ts : string) (file : LocalSnapshotPart)
  (Hw : local_written file) :
  dr_snp_001 (stream_lines ts file) = Ok [] ∧ dr_snp_002 (stream_lines ts file) = Ok [].
Proof.
  destruct (local_written_t3 file Hw) as (es & -> & [Ho Hp _]).
  unfold dr_snp_001, dr_snp_002. rewrite (snapshot_rows_stream ts es Ho).
  set (rows := enumerate_from 0 (line_row ts <$> es)).
  assert (Hrow : ∀ il, il ∈ rows → ∃ e, e ∈ es ∧ il.2 = line_row ts e).
  { intros il Hil. apply enumerate_elem in Hil. apply list_elem_of_fmap in Hil as (e & ? & ?). eauto. }
  assert (Hops : Forall has_op rows).
  { apply Forall_forall. intros il Hil. destruct (Hrow il Hil) as (e & He & E).
    unfold has_op. rewrite E, line_row_op, bool_decide_true; [done|]. by apply Ho. }
  assert (Hnd : no_drift [] (typed_entry <$> es) = true) by (by apply no_drift_iff, typed_entry_t3).
  assert (Hent : ∀ il, il ∈ rows → ∃ data key, as_dict (line_data il.2) = Ok data ∧ generation data = Ok key).
  { intros il Hil. destruct (Hrow il Hil) as (e & _ & E). pose proof (entry_of_line_row ts e) as Hen.
    rewrite <- E in Hen. unfold entry_of in Hen. destruct (as_dict _) as [data|]; [|done].
    cbn [res_bind] in Hen. destruct (generation data) eqn:Eg; [|done]. eauto. }
  split.
  - destruct (for_rows_ok snp_001_step rows (mkSnp [] [] [])) as [st Hst].
    { intros st [i line] Hil. destruct (Hent _ Hil) as (data & key & H1 & H2). cbn [snd] in H1.
      unfold snp_001_step. rewrite H1. cbn [res_bind]. rewrite H2. cbn [res_bind].
      destruct (op_in _ _); eauto. }
    destruct (for_rows_001 _ _ _ _ _ Hops Hst) as (es' & Hes & Hiff).
    apply entries_stream in Hes as ->. rewrite Hst. cbn [res_bind]. f_equal. by apply Hiff.
  - destruct (existsb _ rows); [|done].
    destruct (for_rows_ok snp_002_step rows ([], [])) as [[fs d] Hst].
    { intros st [i line] Hil. destruct (Hent _ Hil) as (data & key & H1 & H2). cbn [snd] in H1.
      unfold snp_002_step. destruct (op_in _ _); [|eauto]. rewrite H1. cbn [res_bind].
      rewrite H2. cbn [res_bind]. eauto. }
    destruct (for_rows_002 _ _ _ _ _ Hst) as (es' & Hes & Hiff).
    unfold rows in Hes. rewrite (enumerate_filter has_op) in Hes.
    2: { intros j r Hr. apply list_elem_of_fmap in Hr as (e & -> & He). unfold has_op. cbn [snd].
         rewrite line_row_op, bool_decide_true; [done|]. by apply Ho. }
    apply entries_stream in Hes as ->. rewrite Hst. cbn [res_bind]. f_equal. by apply Hiff.
Qed.

End LocalStreams.

Lemma local_stream_passes_snapshot_rules_witness :
  dr_snp_001 (stream_lines "2024-01-01T00:00:00Z" demo_file) = Ok [] ∧
  dr_snp_002 (stream_lines "2024-01-01T00:00:00Z" demo_file) = Ok [].
Proof.
  exact (@local_stream_passes_snapshot_rules demo_iso "2024-01-01T00:00:00Z" demo_file demo_file_written).
Defined.

Definition demo_drift : list json :=
  [env_line "" "save_terminal" (<["task_id" := JStr "t"]> {["status" := JStr "ok"]});
   env_line "" "save" (<["task_id" := JStr "t"]> {["status" := JStr "ko"]})].

Lemma dr_snp_002_spec_witness :
  ∃ es, entries (filter has_op (iter_domain_rows demo_drift "snapshot")) es ∧
    ([mkFinding "DR-SNP-002" violation "snapshots[1]" "T3" false] = [] ↔ ForallOrdPairs t3_pair es).
Proof. apply (dr_snp_002_spec demo_drift). vm_compute. reflexivity. Defined.

(** * Audit streams *)

Section AuditStreams.
Context `{IsoTime}.
Import LocalAudit.
Local Opaque audit_payload idempotent_payload_equal strip.

Definition audit_lines (ts : string) (file : LocalAuditPart) : list json :=
  (λ d, env_line ts "append" d) <$> file.

Definition audit_row (ts : string) (e : AuditEvent) : row :=
  <["v" := JNum 1]> (<["op" := JStr "append"]> (<["ts" := JStr ts]>
    {["data" := JObj (audit_payload e)]})).

Lemma audit_written_nodup file :
  audit_written file → ∃ es, file = audit_payload <$> es ∧ NoDup (ae_event_id <$> es).
Proof.
  induction 1 as [|file file' e _ (es & -> & Hnd) Ha]; [exists []; split; [done|constructor]|].
  unfold local_append in Ha. rewrite audit_find_payload in Ha.
  destruct (dget _ _) as [x|] eqn:E; cbn in Ha.
  - destruct (idempotent_payload_equal _ _); [|done]. injection Ha as <-. eauto.
  - injection Ha as <-. exists (es ++ [e]). split; [by rewrite fmap_app|].
    rewrite fmap_app. apply NoDup_app. split_and!; [done| |apply NoDup_singleton].
    intros id Hid Hid'%list_elem_of_singleton. apply dget_None in E. apply E.
    unfold dkeys. rewrite <- list_fmap_compose. rewrite <- Hid'. exact Hid.
Qed.

Lemma audit_rows_stream ts es :
  iter_domain_rows (audit_lines ts (audit_payload <$> es)) "audit"
  = enumerate_from 0 (audit_row ts <$> es).
Proof.
  replace (audit_lines ts (audit_payload <$> es)) with (JObj <$> (audit_row ts <$> es))
    by (unfold audit_lines; by rewrite <- !list_fmap_compose).
  unfold iter_domain_rows, body_rows. rewrite body_rows_clean.
  - apply enumerate_filter. intros j r (e & -> & _)%list_elem_of_fmap. cbn [snd].
    unfold in_domain. rewrite decide_False, decide_True by done.
    unfold op_in, audit_row. by simplify_map_eq.
  - intros r (e & -> & _)%list_elem_of_fmap. unfold audit_row. by simplify_map_eq.
Qed.

Lemma audit_scan_clean ts es i seen :
  (∀ id, id ∈ ae_event_id <$> es → JStr id ∉ dkeys seen) → NoDup (ae_event_id <$> es) →
  ∃ seen', for_rows aud_001_step (enumerate_from i (audit_row ts <$> es)) ([], seen)
           = Ok ([], seen').
Proof.
  revert i seen. induction es as [|e es IH]; intros i seen Hs Hnd; cbn [fmap list_fmap enumerate_from for_rows].
  { eauto. }
  apply NoDup_cons in Hnd as [Hn Hnd]. unfold aud_001_step at 1. cbn [snd fst].
  assert (line_data (audit_row ts e) = JObj (audit_payload e)) as ->
    by (unfold line_data, audit_row; by simplify_map_eq).
  cbn [as_dict res_bind]. destruct (audit_payload_fields e) as (H1 & _).
  assert (jget (audit_payload e) "event_id" = JStr (ae_event_id e)) as ->
    by (unfold jget; by rewrite H1).
  destruct (truthy (JStr (ae_event_id e))).
  - cbn [hashable]. assert (Hn' : dget seen (JStr (ae_event_id e)) = None).
    { apply dget_None, Hs. cbn [fmap list_fmap]. left. }
    rewrite Hn'. cbn [res_bind]. apply IH; [|done].
    intros id Hid Hin. unfold dkeys in *. fold (dkeys (dset seen (JStr (ae_event_id e)) (_canonical_payload (audit_payload e)))) in Hin.
    rewrite dkeys_dset_notin in Hin by by apply dget_None.
    apply elem_of_app in Hin as [Hin|Heq%list_elem_of_singleton].
    + apply (Hs id); [cbn [fmap list_fmap]; right; exact Hid|exact Hin].
    + injection Heq as Heq. rewrite Heq in Hid. exact (Hn Hid).
  - cbn [res_bind]. apply IH; [|done]. intros id Hid. apply Hs. cbn [fmap list_fmap]. by right.
Qed.

(** The audit stream of every sequence of accepted appends passes
    DR-AUD-001: no event id occurs with two payloads. *)
Theorem local_audit_passes_rule (ts : string) (file : LocalAuditPart)
  (Hw : audit_written file) : dr_aud_001 (audit_lines ts file) = Ok [].
Proof.
  destruct (audit_written_nodup file Hw) as (es & -> & Hnd).
  unfold dr_aud_001. rewrite audit_rows_stream.
  destruct (audit_scan_clean ts es 0 []) as [seen Hs]; [|done|].
  - intros id _. apply not_elem_of_nil.
  - by rewrite Hs.
Qed.

End AuditStreams.

Lemma local_audit_passes_rule_witness :
  dr_aud_001 (audit_lines "2024-01-01T00:00:00Z" demo_audit_file) = Ok [].
Proof.
  exact (@local_audit_passes_rule demo_iso "2024-01-01T00:00:00Z" demo_audit_file demo_audit_written).
Defined.

(** * Severity *)

Definition all_warnings (fs : list Finding) : Prop := Forall (λ f, f_level f = warning) fs.

Lemma for_rows_inv_in {A S} (P : S → Prop) (f : S → A → res rule_error S) l s s' :
  (∀ s x s', x ∈ l → P s → f s x = Ok s' → P s') → P s → for_rows f l s = Ok s' → P s'.
Proof.
  revert s. induction l as [|x l IH]; intros s Hf Hs; cbn [for_rows].
  - by intros [= <-].
  - destruct (f s x) as [s1|] eqn:E; [|done]. cbn [res_bind]. apply IH.
    + intros s0 y s2 Hy. apply Hf. by right.
    + apply (Hf s x); [left|done|done].
Qed.

Lemma for_rows_inv {A S} (P : S → Prop) (f : S → A → res rule_error S) l s s' :
  (∀ s x s', P s → f s x = Ok s' → P s') → P s → for_rows f l s = Ok s' → P s'.
Proof. intros Hf. apply for_rows_inv_in. eauto. Qed.

Lemma dangling_ref_warns rule loc term tasks st x st' :
  all_warnings st.1 → dangling_ref rule loc term tasks st x = Ok st' → all_warnings st'.1.
Proof.
  intros Hst. unfold dangling_ref.
  destruct (truthy x); [|by intros [= <-]]. destruct (hashable x); [|done].
  destruct (_ && _); intros [= <-]; [|done]. apply Forall_app. split; [done|]. by repeat constructor.
Qed.

Lemma dr_all_002_warns lines fs : dr_all_002 lines = Ok fs → all_warnings fs.
Proof.
  unfold dr_all_002. destruct (snapshot_tasks lines) as [tasks|]; [|done]. cbn [res_bind].
  destruct (for_rows _ _ _) as [st|] eqn:E; [|done]. intros [= <-].
  refine (for_rows_inv (λ st, all_warnings st.1) _ _ _ _ _ _ E); [|by constructor].
  intros s il s' Hs. destruct (as_dict _) as [data|]; [|done]. by apply dangling_ref_warns.
Qed.

Lemma dr_dep_001_warns lines fs : dr_dep_001 lines = Ok fs → all_warnings fs.
Proof.
  unfold dr_dep_001. destruct (snapshot_tasks lines) as [tasks|]; [|done]. cbn [res_bind].
  destruct (for_rows _ _ _) as [st|] eqn:E; [|done]. intros [= <-].
  refine (for_rows_inv (λ st, all_warnings st.1) _ _ _ _ _ _ E); [|by constructor].
  intros s il s' Hs. destruct (as_dict _) as [data|]; [|done]. cbn [res_bind].
  apply (for_rows_inv (λ st, all_warnings st.1)); [|done].
  intros s0 x s1. apply dangling_ref_warns.
Qed.

Lemma dr_all_003_warns lines fs : dr_all_003 lines = Ok fs → all_warnings fs.
Proof.
  apply (for_rows_inv all_warnings); [|constructor].
  intros acc il acc' Hacc. destruct (data_or_line _) as [data|]; [|by intros [= <-]].
  cbn zeta. destruct (truthy (jget data "placeholders")); [|by intros [= <-]].
  destruct (iterate (jget data "placeholders")) as [l|]; [|done].
  cbn [res_bind]. apply (for_rows_inv all_warnings); [|done].
  intros a ph a' Ha. unfold ph_step.
  repeat case_match; intros; simplify_eq; try done.
  apply Forall_app. split; [done|]. by repeat constructor.
Qed.

(** Dangling references never fail a bundle. Whatever the stream, the
    three reference rules (DR-ALL-002, DR-DEP-001, DR-ALL-003) produce only
    warnings, so any report of a selection of them is ok. *)
Theorem reference_rules_never_fail (lines : list json) (ids : list string) (r : RuleReport)
  (Hids : ∀ id, id ∈ ids → id ∈ ["DR-ALL-002"; "DR-DEP-001"; "DR-ALL-003"])
  (Hrun : run_rules lines (Some ids) = Ok r) :
  report_ok r = true ∧ warning_count r = length (findings r).
Proof.
  unfold run_rules in Hrun. destruct (for_rows _ _ _) as [fs|] eqn:E; [|done].
  injection Hrun as <-.
  assert (Hw : all_warnings fs).
  { refine (for_rows_inv_in all_warnings _ _ _ _ _ _ E); [|by constructor].
    intros acc [id fn] acc' Hin Hacc. cbn [snd].
    destruct (fn lines) as [found|] eqn:Ef; [|done]. cbn [res_bind]. intros [= <-].
    apply Forall_app. split; [done|].
    apply list_elem_of_filter in Hin as [Hid Hin]. cbn [fst] in Hid. apply Hids in Hid.
    unfold RULES in Hin.
    repeat (apply elem_of_cons in Hin as [[= -> ->]|Hin]; [|]); [..|by apply elem_of_nil in Hin];
      first [ by apply dr_all_002_warns in Ef | by apply dr_dep_001_warns in Ef
            | by apply dr_all_003_warns in Ef
            | exfalso; revert Hid; clear; apply (bool_decide_unpack _); vm_compute; exact I ]. }
  unfold report_ok, violation_count, warning_count, level_count. cbn [findings].
  rewrite bool_decide_eq_true. clear -Hw. induction Hw as [|f fs Hf _ [IH1 IH2]]; [done|].
  rewrite !filter_cons, Hf, decide_False, decide_True by done. split; [done|].
  cbn [length]. by rewrite IH2.
Qed.

Lemma reference_rules_never_fail_witness :
  let r := mkReport [mkFinding "DR-ALL-002" warning "audit[0].data" "T6" false] in
  report_ok r = true ∧ warning_count r = length (findings r).
Proof.
  intros r. apply (reference_rules_never_fail
    [env_line "" "append" (<["event_id" := JStr "e"]> {["task_id" := JStr "t"]})] ["DR-ALL-002"]).
  - intros id ->%list_elem_of_singleton. left.
  - vm_compute. reflexivity.
Defined.
