(* ===== verification/Workflow.v ===== *)
(** Multi-step workflows ([flow/workflow]): the dependency graph with its
    validation and orderings (dag.py, step.py) and the retry policy
    ([flow/retry/policy.py], [backoff.py]). *)
From S2P Require Import Prelude.
From Stdlib Require Import ZArith Lia Sorting.Permutation.
From stdpp Require Import prelude gmap strings list.
Local Open Scope string_scope.
Local Open Scope list_scope.

(** WorkflowStep (workflow/step.py); handlers are parameters of the executor. *)
Record WorkflowStep := mkStep {
  ws_name : string;
  ws_dependencies : list string;
  ws_has_rollback : bool;
}.

Inductive workflow_error : Type :=
| EmptyStepName
| DependsOnMissing (step dep : string)
| CircularDependency
| WorkflowExecutionError.

(** WorkflowStep.__post_init__ *)
Definition step_post_init (s : WorkflowStep) : res workflow_error WorkflowStep :=
  if decide (ws_name s = "") then Err EmptyStepName else Ok s.

(** * DAG (workflow/dag.py) *)

(** [self.steps]: the steps by name, in definition order. *)
Definition DAG : Type := list (string * WorkflowStep).

Definition dag_steps (steps : list WorkflowStep) : DAG :=
  dict_of ((λ s, (ws_name s, s)) <$> steps).

Definition deps (d : DAG) (x : string) : list string :=
  match dget d x with Some s => ws_dependencies s | None => [] end.

(** First check of _validate: the first missing dependency. *)
Fixpoint find_missing (d : DAG) (s : WorkflowStep) (ds : list string) : option workflow_error :=
  match ds with
  | [] => None
  | dep :: ds' => if dmem d dep then find_missing d s ds'
                  else Some (DependsOnMissing (ws_name s) dep)
  end.

Fixpoint check_missing (d : DAG) (steps : list WorkflowStep) : option workflow_error :=
  match steps with
  | [] => None
  | s :: steps' =>
      match find_missing d s (ws_dependencies s) with
      | Some e => Some e
      | None => check_missing d steps'
      end
  end.

(** The depth-first search of _validate. A state is (visited, rec_stack);
    [None] when the fuel (the call depth) runs out. *)
Abbreviation dfs_state := (gset string * gset string)%type.

Fixpoint dep_loop (visit : string → dfs_state → option (bool * dfs_state)) (x : string)
  (ds : list string) (st : dfs_state) : option (bool * dfs_state) :=
  match ds with
  | [] => Some (false, (st.1, st.2 ∖ {[x]}))
  | dep :: ds' =>
      if decide (dep ∉ st.1) then
        match visit dep st with
        | None => None
        | Some (true, st') => Some (true, st')
        | Some (false, st') => dep_loop visit x ds' st'
        end
      else if decide (dep ∈ st.2) then Some (true, st)
      else dep_loop visit x ds' st
  end.

Fixpoint has_cycle (d : DAG) (fuel : nat) (x : string) (st : dfs_state)
  : option (bool * dfs_state) :=
  match fuel with
  | O => None
  | S fuel' => dep_loop (has_cycle d fuel') x (deps d x) ({[x]} ∪ st.1, {[x]} ∪ st.2)
  end.

Fixpoint any_cycle (d : DAG) (names : list string) (st : dfs_state) : option bool :=
  match names with
  | [] => Some false
  | x :: names' =>
      if decide (x ∉ st.1) then
        match has_cycle d (length d) x st with
        | None => None
        | Some (true, _) => Some true
        | Some (false, st') => any_cycle d names' st'
        end
      else any_cycle d names' st
  end.

(** DAG.__init__ and _validate; [None] when out of fuel. *)
Definition _validate (d : DAG) : option (res workflow_error DAG) :=
  match check_missing d (dvalues d) with
  | Some e => Some (Err e)
  | None =>
      match any_cycle d (dkeys d) (∅, ∅) with
      | None => None
      | Some true => Some (Err CircularDependency)
      | Some false => Some (Ok d)
      end
  end.

Definition dag_init (steps : list WorkflowStep) : option (res workflow_error DAG) :=
  _validate (dag_steps steps).

(** topological_sort. The degrees are a map from step names. *)
Definition initial_degrees (d : DAG) : gmap string Z :=
  fold_left (λ m s, <[ws_name s := (match m !! ws_name s with Some z => z | None => 0 end
                                    + Z.of_nat (length (ws_dependencies s)))%Z]> m)
    (dvalues d) (fold_left (λ m n, <[n := 0%Z]> m) (dkeys d) ∅).

Definition degree (m : gmap string Z) (n : string) : Z :=
  match m !! n with Some z => z | None => 0%Z end.

(** One step of "update adjacent steps' indegree". *)
Definition relax (current : string) (acc : gmap string Z * list string) (s : WorkflowStep)
  : gmap string Z * list string :=
  if decide (current ∈ ws_dependencies s) then
    let z := (degree acc.1 (ws_name s) - 1)%Z in
    (<[ws_name s := z]> acc.1, if decide (z = 0%Z) then acc.2 ++ [ws_name s] else acc.2)
  else acc.

Fixpoint kahn (d : DAG) (fuel : nat) (deg : gmap string Z) (queue result : list string)
  : option (list string) :=
  match queue with
  | [] => Some result
  | current :: queue' =>
      match fuel with
      | O => None
      | S fuel' =>
          let acc := fold_left (relax current) (dvalues d) (deg, queue') in
          kahn d fuel' acc.1 acc.2 (result ++ [current])
      end
  end.

Definition topological_sort (d : DAG) : option (res workflow_error (list WorkflowStep)) :=
  let deg := initial_degrees d in
  let queue := filter (λ n, degree deg n = 0%Z) (dkeys d) in
  match kahn d (length d) deg queue [] with
  | None => None
  | Some result =>
      if decide (length result = length d)
      then Some (Ok (omap (dget d) result)) else Some (Err CircularDependency)
  end.

(** get_ready_steps *)
Definition get_ready_steps (d : DAG) (completed : gset string) : list WorkflowStep :=
  filter (λ s, ws_name s ∉ completed ∧ Forall (λ dep, dep ∈ completed) (ws_dependencies s))
    (dvalues d).

(** get_parallel_groups; the loop runs at most once per step. *)
Fixpoint parallel_loop (d : DAG) (fuel : nat) (completed : gset string)
  (groups : list (list WorkflowStep)) : option (list (list WorkflowStep)) :=
  if decide (size completed < length d)%nat then
    match fuel with
    | O => None
    | S fuel' =>
        let ready := get_ready_steps d completed in
        match ready with
        | [] => Some groups
        | _ => parallel_loop d fuel' (completed ∪ list_to_set (ws_name <$> ready))
                 (groups ++ [ready])
        end
    end
  else Some groups.

Definition get_parallel_groups (d : DAG) : option (list (list WorkflowStep)) :=
  parallel_loop d (length d) ∅ [].

(** * Dependency order *)

Section Graph.
Context (d : DAG).

(** [x] depends on [y]. *)
Definition depends (x y : string) : Prop := y ∈ deps d x.

(** A list in which every step comes after all its dependencies. *)
Inductive ordered : list string → Prop :=
| ordered_nil : ordered []
| ordered_snoc fin x :
    ordered fin → x ∉ fin → (∀ y, depends x y → y ∈ fin) → ordered (fin ++ [x]).

Definition acyclic : Prop := ∀ x, ¬ tc depends x x.

Lemma ordered_closed fin x y : ordered fin → x ∈ fin → depends x y → y ∈ fin.
Proof. induction 1; set_solver. Qed.

Lemma ordered_closed_rtc fin x y : ordered fin → rtc depends x y → x ∈ fin → y ∈ fin.
Proof. intros Ho Hr. induction Hr; eauto using ordered_closed. Qed.

Lemma ordered_acyclic fin x : ordered fin → x ∈ fin → ¬ tc depends x x.
Proof.
  induction 1 as [|fin z Ho IH Hz Hd]; [set_solver|]. intros Hx Hc.
  destruct (decide (x ∈ fin)) as [Hin|Hn]; [by apply IH|].
  assert (x = z) as -> by set_solver.
  assert (∃ y, depends z y ∧ rtc depends y z) as (y & Hzy & Hyz)
    by (inversion Hc; eauto using tc_rtc). apply Hz.
  eapply ordered_closed_rtc; [done|exact Hyz|auto].
Qed.

Lemma ordered_NoDup fin : ordered fin → NoDup fin.
Proof.
  induction 1; [constructor|]. apply NoDup_app. split_and!; [done|set_solver|apply NoDup_singleton].
Qed.

(** ** The search *)

Definition names : gset string := list_to_set (dkeys d).

Context (closed : ∀ x y, x ∈ names → depends x y → y ∈ names).

Record dfs_inv (v r : gset string) (fin : list string) : Prop := {
  di_ordered : ordered fin;
  di_visited : ∀ z, z ∈ v ↔ z ∈ fin ∨ z ∈ r;
  di_disjoint : ∀ z, z ∈ fin → z ∉ r;
  di_names : v ⊆ names;
}.

Definition dfs_post (r : gset string) (fin : list string) (x : string)
  (res : bool * dfs_state) : Prop :=
  match res with
  | (true, _) => ∃ z, tc depends z z
  | (false, (v', r')) => r' = r ∧ ∃ new, dfs_inv v' r (fin ++ new) ∧ x ∈ fin ++ new
  end.

Lemma dep_loop_ok fuel x ds v r fin :
  (∀ y v r fin, dfs_inv v r fin → y ∉ v → y ∈ names → (∀ z, z ∈ r → tc depends z y) →
     (size (names ∖ v) ≤ fuel)%nat →
     ∃ res, has_cycle d fuel y (v, r) = Some res ∧ dfs_post r fin y res) →
  dfs_inv v ({[x]} ∪ r) fin → x ∈ names → x ∉ r →
  (∀ y, y ∈ ds → depends x y) → (∀ y, depends x y → y ∈ fin ∨ y ∈ ds) →
  (∀ z, z ∈ r → tc depends z x) → (size (names ∖ v) ≤ fuel)%nat →
  ∃ res, dep_loop (has_cycle d fuel) x ds (v, {[x]} ∪ r) = Some res ∧ dfs_post r fin x res.
Proof.
  intros Hrec. revert v fin. induction ds as [|dep ds IH]; intros v fin Hi Hx Hxr Hds Hall Hp Hf;
    cbn [dep_loop fst snd].
  - eexists; split; [done|]. destruct Hi as [Ho Hv Hd Hn]. split; [set_solver|].
    assert (x ∉ fin) by (intros Hin; apply (Hd x Hin); set_solver).
    exists [x]. split; [|set_solver]. split; [|set_solver|set_solver|done].
    constructor; [done..|]. intros y Hy. destruct (Hall y Hy) as [?|?%elem_of_nil]; done.
  - assert (Hdep : depends x dep) by (apply Hds; left).
    assert (Hpx : ∀ z, z ∈ {[x]} ∪ r → tc depends z dep).
    { intros z [->%elem_of_singleton|Hz]%elem_of_union; [by apply tc_once|].
      eapply tc_r; [by apply Hp|done]. }
    destruct (decide (dep ∉ v)) as [Hnv|Hv%dec_stable].
    + destruct (Hrec dep v ({[x]} ∪ r) fin Hi Hnv (closed _ _ Hx Hdep) Hpx Hf)
        as ([[] [v' r']] & -> & Hpost); [by eexists|].
      destruct Hpost as [-> (new & Hi' & Hin)].
      destruct (IH v' (fin ++ new) Hi') as (res & Hres & Hpost'); [done|done|set_solver| |done| |].
      * intros y Hy. destruct (Hall y Hy) as [?|[->|?]%elem_of_cons]; set_solver.
      * etrans; [|exact Hf]. apply subseteq_size. destruct Hi as [_ Hv _ _], Hi' as [_ Hv' _ _].
        intros z. rewrite !elem_of_difference, Hv, Hv'. set_solver.
      * exists res. split; [done|]. destruct res as [[] [v2 r2]]; [done|].
        destruct Hpost' as [-> (new2 & ? & ?)]. split; [done|]. exists (new ++ new2).
        by rewrite app_assoc.
    + destruct (decide (dep ∈ {[x]} ∪ r)) as [Hr|Hr].
      * eexists; split; [done|]. exists dep. by apply Hpx.
      * apply IH; [done|done|done|set_solver| |done|done].
        intros y Hy. destruct (Hall y Hy) as [?|[->|?]%elem_of_cons]; [by left| |by right].
        left. apply (di_visited _ _ _ Hi) in Hv as [?|?]; done.
Qed.

Lemma has_cycle_ok fuel x v r fin :
  dfs_inv v r fin → x ∉ v → x ∈ names → (∀ z, z ∈ r → tc depends z x) →
  (size (names ∖ v) ≤ fuel)%nat →
  ∃ res, has_cycle d fuel x (v, r) = Some res ∧ dfs_post r fin x res.
Proof.
  revert x v r fin. induction fuel as [|fuel IH]; intros x v r fin Hi Hx Hn Hp Hf.
  { assert (names ∖ v ≡ ∅) as He by (apply size_empty_inv; lia). set_solver. }
  cbn [has_cycle fst snd]. destruct Hi as [Ho Hv Hd Hvn].
  apply dep_loop_ok; [exact IH| |done| | |by right|done|].
  - split; [done| | |set_solver].
    + intros z. rewrite !elem_of_union, Hv. set_solver.
    + intros z Hz [->%elem_of_singleton|Hz']%elem_of_union; [|by eapply Hd].
      apply Hx, Hv. by left.
  - intros Hr. apply Hx, Hv. by right.
  - done.
  - assert (names ∖ ({[x]} ∪ v) ⊂ names ∖ v) as Hs%subset_size.
    { split; [set_solver|]. intros Hbad. specialize (Hbad x). set_solver. }
    lia.
Qed.

Lemma any_cycle_ok ns v fin :
  dfs_inv v ∅ fin → (∀ n, n ∈ ns → n ∈ names) → (size names ≤ length d)%nat →
  match any_cycle d ns (v, ∅) with
  | None => False
  | Some true => ∃ z, tc depends z z
  | Some false => ∃ fin', ordered fin' ∧ (∀ n, n ∈ ns ∨ n ∈ fin → n ∈ fin')
  end.
Proof.
  revert v fin. induction ns as [|x ns IH]; intros v fin Hi Hns Hsz; cbn [any_cycle fst].
  - exists fin. split; [apply Hi|set_solver].
  - destruct (decide (x ∉ v)) as [Hx|Hx%dec_stable].
    + destruct (has_cycle_ok (length d) x v ∅ fin Hi Hx) as ([[] [v' r']] & -> & Hpost);
        [apply Hns; left|set_solver| |exact Hpost|].
      { etrans; [|exact Hsz]. apply subseteq_size. set_solver. }
      destruct Hpost as [-> (new & Hi' & Hin)].
      specialize (IH v' (fin ++ new) Hi' ltac:(set_solver) Hsz).
      destruct (any_cycle d ns (v', ∅)) as [[]|]; [done| |done].
      destruct IH as (fin' & Ho & Hall). exists fin'. split; [done|]. set_solver.
    + specialize (IH v fin Hi ltac:(set_solver) Hsz).
      destruct (any_cycle d ns (v, ∅)) as [[]|]; [done| |done].
      destruct IH as (fin' & Ho & Hall). exists fin'. split; [done|].
      apply (di_visited _ _ _ Hi) in Hx as [?|?%elem_of_empty]; [|done]. set_solver.
Qed.
End Graph.

(** * Validation *)

(** The dict built from a list of steps: distinct keys, each the name of its
    step. *)
Record dag_wf (d : DAG) : Prop := {
  dw_nodup : NoDup (dkeys d);
  dw_name : ∀ k s, (k, s) ∈ d → ws_name s = k;
}.

Lemma dset_elem {K V} `{EqDecision K} (d : list (K * V)) k v k' v' :
  (k', v') ∈ dset d k v → (k', v') = (k, v) ∨ (k', v') ∈ d.
Proof.
  induction d as [|[k0 v0] d IH]; simpl; [set_solver|].
  destruct (decide (k0 = k)) as [->|]; rewrite !elem_of_cons; naive_solver.
Qed.

Lemma dag_steps_wf steps : dag_wf (dag_steps steps).
Proof.
  split; [apply dict_of_NoDup|]. unfold dag_steps, dict_of.
  assert (H0 : ∀ k s, (k, s) ∈ ([] : DAG) → ws_name s = k) by set_solver.
  revert H0. generalize ([] : DAG) as d.
  induction steps as [|s steps IH]; intros d Hd; [done|]. cbn [fmap list_fmap fold_left fst snd].
  apply IH. intros k s' [[= -> ->]|Hin]%dset_elem; [done|eauto].
Qed.

Section Valid.
Context (d : DAG) (Hwf : dag_wf d).

Lemma dget_value k s : dget d k = Some s ↔ s ∈ dvalues d ∧ ws_name s = k.
Proof.
  destruct Hwf as [Hnd Hn]. split.
  - intros H%dget_elem. split; [|by apply Hn]. apply list_elem_of_fmap. by exists (k, s).
  - intros [[[k' s'] [-> Hin]]%list_elem_of_fmap Hk]. simpl in *.
    rewrite (Hn _ _ Hin) in Hk. subst. by apply elem_dget.
Qed.

Lemma dkeys_names : dkeys d = ws_name <$> dvalues d.
Proof.
  destruct Hwf as [Hnd Hn]. unfold dkeys, dvalues. rewrite <- list_fmap_compose.
  apply list_fmap_ext. intros i [k s] Hi%list_elem_of_lookup_2. simpl. symmetry. by apply Hn.
Qed.

Lemma elem_of_names x : x ∈ names d ↔ x ∈ dkeys d.
Proof. unfold names. by rewrite elem_of_list_to_set. Qed.

Lemma value_of_name x : x ∈ dkeys d → ∃ s, dget d x = Some s ∧ s ∈ dvalues d ∧ ws_name s = x.
Proof.
  rewrite dkeys_names. intros (s & -> & Hs)%list_elem_of_fmap. exists s.
  split; [by apply dget_value|done].
Qed.

Lemma deps_value s : s ∈ dvalues d → deps d (ws_name s) = ws_dependencies s.
Proof. intros Hs. unfold deps. by rewrite (proj2 (dget_value _ s)). Qed.

Lemma depends_name x y : depends d x y → x ∈ dkeys d.
Proof.
  unfold depends, deps. destruct (dget d x) eqn:E; [|set_solver]. intros _.
  destruct (decide (x ∈ dkeys d)) as [|Hn]; [done|]. apply dget_None in Hn. congruence.
Qed.

Lemma size_names : size (names d) = length d.
Proof.
  unfold names. rewrite size_list_to_set by apply Hwf. unfold dkeys. by rewrite length_fmap.
Qed.

Lemma dmem_names y : dmem d y = true ↔ y ∈ dkeys d.
Proof.
  unfold dmem. pose proof (dget_None d y). destruct (dget d y); [|naive_solver].
  split; [|done]. intros _. destruct (decide (y ∈ dkeys d)); naive_solver.
Qed.

Lemma find_missing_spec s ds :
  match find_missing d s ds with
  | None => ∀ y, y ∈ ds → y ∈ dkeys d
  | Some e => ∃ y, e = DependsOnMissing (ws_name s) y ∧ y ∈ ds ∧ y ∉ dkeys d
  end.
Proof.
  induction ds as [|y ds IH]; simpl; [set_solver|]. pose proof (dmem_names y) as Hm.
  destruct (dmem d y).
  - destruct (find_missing d s ds) as [e|].
    + destruct IH as (z & -> & ? & ?). exists z. set_solver.
    + intros z [->|?]%elem_of_cons; naive_solver.
  - exists y. split; [done|]. split; [left|]. intros H. by apply Hm in H.
Qed.

Lemma check_missing_spec steps :
  match check_missing d steps with
  | None => ∀ s y, s ∈ steps → y ∈ ws_dependencies s → y ∈ dkeys d
  | Some e => ∃ s y, e = DependsOnMissing (ws_name s) y ∧ s ∈ steps ∧
                     y ∈ ws_dependencies s ∧ y ∉ dkeys d
  end.
Proof.
  induction steps as [|s steps IH]; simpl; [set_solver|].
  pose proof (find_missing_spec s (ws_dependencies s)) as Hf.
  destruct (find_missing d s (ws_dependencies s)) as [e|].
  - destruct Hf as (y & -> & ? & ?). exists s, y. set_solver.
  - destruct (check_missing d steps) as [e|].
    + destruct IH as (s' & y & -> & ? & ? & ?). exists s', y. set_solver.
    + intros s' y [->|?]%elem_of_cons; eauto.
Qed.

(** The outcome of validation, with the dependency order it establishes. *)
Lemma validate_cases :
  (∃ s y, _validate d = Some (Err (DependsOnMissing (ws_name s) y)) ∧ s ∈ dvalues d ∧
     y ∈ ws_dependencies s ∧ y ∉ dkeys d) ∨
  ((∀ x y, depends d x y → y ∈ dkeys d) ∧
   ((_validate d = Some (Err CircularDependency) ∧ ∃ z, tc (depends d) z z) ∨
    (_validate d = Some (Ok d) ∧ ∃ fin, ordered d fin ∧ ∀ n, n ∈ dkeys d → n ∈ fin))).
Proof.
  unfold _validate. pose proof (check_missing_spec (dvalues d)) as Hm.
  destruct (check_missing d (dvalues d)) as [e|].
  { left. destruct Hm as (s & y & -> & ? & ? & ?). by exists s, y. }
  right. assert (Hcl : ∀ x y, depends d x y → y ∈ dkeys d).
  { intros x y Hxy. destruct (value_of_name x (depends_name x y Hxy)) as (s & _ & Hs & <-).
    unfold depends in Hxy. rewrite deps_value in Hxy by done. eauto. }
  split; [done|].
  pose proof (any_cycle_ok d ltac:(intros x y _ Hxy; apply elem_of_names; by eapply Hcl)
    (dkeys d) ∅ []) as Hany.
  destruct (any_cycle d (dkeys d) (∅, ∅)) as [[]|].
  - left. split; [done|]. apply Hany; [split; [constructor|set_solver..]| |by rewrite size_names].
    intros n. by rewrite elem_of_names.
  - right. split; [done|]. destruct Hany as (fin & Ho & Hall);
      [split; [constructor|set_solver..]| |by rewrite size_names|exists fin; split; [done|]; auto].
    intros n. by rewrite elem_of_names.
  - destruct Hany; [split; [constructor|set_solver..]| |by rewrite size_names].
    intros n. by rewrite elem_of_names.
Qed.

Lemma ordered_all_acyclic fin :
  ordered d fin → (∀ n, n ∈ dkeys d → n ∈ fin) → acyclic d.
Proof.
  intros Ho Hall x Hc. apply (ordered_acyclic d fin x Ho); [|done]. apply Hall.
  assert (∃ y, depends d x y) as [y Hy] by (inversion Hc; eauto).
  by eapply depends_name.
Qed.
End Valid.

(** DAG validation decides legality. Building the graph of any list of
    steps terminates; it fails with the name of a missing dependency exactly
    when some step depends on a step that is not there, and otherwise fails
    with "circular dependency" exactly when some step depends, directly or
    not, on itself. *)
Theorem dag_init_spec (steps : list WorkflowStep) :
  let d := dag_steps steps in
  match dag_init steps with
  | None => False
  | Some (Ok d') => d' = d ∧ (∀ x y, depends d x y → y ∈ dkeys d) ∧ acyclic d
  | Some (Err (DependsOnMissing x y)) => depends d x y ∧ y ∉ dkeys d
  | Some (Err CircularDependency) => (∀ x y, depends d x y → y ∈ dkeys d) ∧ ¬ acyclic d
  | Some (Err _) => False
  end.
Proof.
  intros d. assert (Hwf : dag_wf d) by apply dag_steps_wf. unfold dag_init. fold d.
  destruct (validate_cases d Hwf) as [(s & y & -> & Hs & Hy & Hn)|[Hcl [[-> [z Hz]]|[-> (fin & Ho & Hall)]]]].
  - split; [|done]. unfold depends. by rewrite deps_value.
  - split; [done|]. intros Ha. by apply (Ha z).
  - split; [done|]. split; [done|]. by eapply ordered_all_acyclic.
Qed.

(** * Topological order *)

Lemma length_remove_dups `{EqDecision A} (l : list A) :
  (length (remove_dups l) ≤ length l)%nat ∧
  (length (remove_dups l) = length l → NoDup l).
Proof.
  induction l as [|x l [IH1 IH2]]; [split; [done|constructor]|]. cbn [remove_dups].
  destruct (decide_rel (∈) x l); cbn [length]; split; try lia.
  intros Hl. constructor; [done|]. apply IH2. lia.
Qed.

Lemma length_filter_full {A} (P : A → Prop) `{∀ x, Decision (P x)} (l : list A) :
  length (filter P l) = length l → ∀ x, x ∈ l → P x.
Proof.
  induction l as [|y l IH]; [set_solver|]. rewrite filter_cons.
  pose proof (length_filter P l). destruct (decide (P y)); cbn [length]; intros Hl; [|lia].
  intros x [->|Hx]%elem_of_cons; [done|]. apply IH; [lia|done].
Qed.

Lemma length_filter_snoc (l P : list string) c :
  NoDup l → c ∉ P →
  length (filter (λ y, y ∈ P ++ [c]) l)
  = (length (filter (λ y, y ∈ P) l) + if decide (c ∈ l) then 1 else 0)%nat.
Proof.
  intros Hnd Hc. induction Hnd as [|x l Hx Hnd IH].
  { rewrite decide_False by set_solver. done. }
  rewrite !filter_cons. destruct (decide (x ∈ P ++ [c])) as [Hin|Hn], (decide (x ∈ P)) as [Hp|Hnp].
  - cbn [length]. rewrite IH. assert (x ≠ c) by congruence.
    destruct (decide (c ∈ l)); [rewrite decide_True by set_solver|rewrite decide_False by set_solver]; lia.
  - assert (x = c) as -> by set_solver. cbn [length]. rewrite IH.
    rewrite decide_False by done. rewrite decide_True by set_solver. lia.
  - set_solver.
  - rewrite IH. assert (x ≠ c) by set_solver.
    destruct (decide (c ∈ l)); [rewrite decide_True by set_solver|rewrite decide_False by set_solver]; lia.
Qed.

Lemma degree_insert m n z k : degree (<[n := z]> m) k = if decide (k = n) then z else degree m k.
Proof.
  unfold degree. destruct (decide (k = n)) as [->|].
  - by rewrite lookup_insert_eq.
  - by rewrite lookup_insert_ne.
Qed.

Section Kahn.
Context (d : DAG) (Hwf : dag_wf d) (Hcl : ∀ x y, depends d x y → y ∈ dkeys d).

Lemma initial_degree n :
  degree (initial_degrees d) n = Z.of_nat (length (deps d n)).
Proof.
  unfold initial_degrees.
  assert (Hz : ∀ ks m, (∀ k, degree m k = 0%Z) → ∀ k,
    degree (fold_left (λ (m : gmap string Z) n, <[n := 0%Z]> m) ks m) k = 0%Z).
  { induction ks as [|k0 ks IH]; intros m Hm k; [done|]. apply IH. intros k'.
    rewrite degree_insert. by destruct (decide _). }
  specialize (Hz (dkeys d) ∅ ltac:(intros; done)).
  revert Hz. generalize (fold_left (λ (m : gmap string Z) n, <[n := 0%Z]> m) (dkeys d) ∅) as m.
  intros m Hm.
  assert (Hgen : ∀ vs m, NoDup (ws_name <$> vs) →
    (∀ s, s ∈ vs → degree m (ws_name s) = 0%Z) → ∀ k,
    degree (fold_left (λ (m : gmap string Z) s, <[ws_name s := (match m !! ws_name s with Some z => z | None => 0 end
      + Z.of_nat (length (ws_dependencies s)))%Z]> m) vs m) k
    = match list_find (λ s, ws_name s = k) vs with
      | Some (_, s) => Z.of_nat (length (ws_dependencies s)) | None => degree m k end).
  { clear. induction vs as [|s vs IH]; intros m Hnd Hm k; [done|]. cbn [fold_left].
    apply NoDup_cons in Hnd as [Hs Hnd]. rewrite IH; [|done|].
    - cbn [list_find]. fold (degree m (ws_name s)). rewrite (Hm s) by (left; done).
      destruct (decide (ws_name s = k)) as [<-|Hne].
      + destruct (list_find (λ s0, ws_name s0 = ws_name s) vs) as [[i s']|] eqn:E.
        * apply list_find_Some in E as (Hi & Heq & _). destruct Hs. rewrite <- Heq.
          apply list_elem_of_fmap. exists s'. split; [done|]. by eapply list_elem_of_lookup_2.
        * rewrite degree_insert, decide_True by done. lia.
      + destruct (list_find (λ s0, ws_name s0 = k) vs) as [[i s']|]; [done|]. simpl.
        rewrite degree_insert, decide_False by done. done.
    - intros s' Hs'. rewrite degree_insert. destruct (decide (ws_name s' = ws_name s)) as [Heq|].
      + destruct Hs. rewrite <- Heq. apply list_elem_of_fmap. eauto.
      + apply Hm. by right. }
  rewrite Hgen; [|rewrite <- dkeys_names by done; apply Hwf|auto].
  unfold deps. destruct (list_find (λ s, ws_name s = n) (dvalues d)) as [[i s]|] eqn:E.
  - apply list_find_Some in E as (Hi & <- & _). apply list_elem_of_lookup_2 in Hi.
    by rewrite (proj2 (dget_value d Hwf _ s)).
  - rewrite Hm. destruct (dget d n) as [s|] eqn:Ed; [|done].
    apply (dget_value d Hwf) in Ed as [Hs Hn]. apply list_find_None in E.
    rewrite Forall_forall in E. by destruct (E s Hs).
Qed.

Lemma relax_fold c vs deg q :
  NoDup (ws_name <$> vs) →
  let acc := fold_left (relax c) vs (deg, q) in
  acc.2 = q ++ (ws_name <$> filter (λ s, c ∈ ws_dependencies s ∧ degree deg (ws_name s) = 1%Z) vs)
  ∧ ∀ n, degree acc.1 n
      = (degree deg n - if decide (n ∈ ws_name <$> filter (λ s, c ∈ ws_dependencies s) vs)
                        then 1 else 0)%Z.
Proof.
  revert deg q. induction vs as [|s vs IH]; intros deg q Hnd; cbn zeta.
  { split; [by rewrite app_nil_r|]. intros n. rewrite decide_False by set_solver. simpl. lia. }
  apply NoDup_cons in Hnd as [Hs Hnd]. cbn [fold_left]. unfold relax at 2 4. cbn [fst snd].
  rewrite !filter_cons.
  destruct (decide (c ∈ ws_dependencies s)) as [Hc|Hc].
  - set (z := (degree deg (ws_name s) - 1)%Z).
    destruct (IH (<[ws_name s := z]> deg)
      (if decide (z = 0%Z) then q ++ [ws_name s] else q) Hnd) as [H1 H2].
    assert (Hne : ∀ s', s' ∈ vs → ws_name s' ≠ ws_name s).
    { intros s' Hs' Heq. apply Hs. rewrite <- Heq. apply list_elem_of_fmap. eauto. }
    assert (Hf : filter (λ s', c ∈ ws_dependencies s' ∧ degree (<[ws_name s := z]> deg) (ws_name s') = 1%Z) vs
      = filter (λ s', c ∈ ws_dependencies s' ∧ degree deg (ws_name s') = 1%Z) vs).
    { clear -Hne. induction vs as [|y vs IH]; [done|]. rewrite !filter_cons.
      rewrite degree_insert, (decide_False (P := ws_name y = ws_name s)) by (apply Hne; left).
      rewrite IH by (intros; apply Hne; by right). done. }
    rewrite Hf in H1. split.
    + rewrite H1. destruct (decide (z = 0%Z)).
      * rewrite decide_True by (unfold z in *; split; [done|lia]).
        cbn [fmap list_fmap]. by rewrite <- app_assoc.
      * by rewrite decide_False by (unfold z in *; intros [_ ?]; lia).
    + intros n. rewrite H2, degree_insert. destruct (decide (n = ws_name s)) as [->|Hn].
      * rewrite decide_False.
        2: { intros (s' & Heq & [_ Hs']%list_elem_of_filter)%list_elem_of_fmap. by apply (Hne s'). }
        rewrite decide_True by (cbn [fmap list_fmap]; left). unfold z. lia.
      * cbn [fmap list_fmap]. destruct (decide (n ∈ ws_name <$> filter _ vs)).
        -- by rewrite decide_True by by right.
        -- rewrite decide_False; [done|]. intros [?|?]%elem_of_cons; done.
  - rewrite decide_False by naive_solver. by apply IH.
Qed.

(** How many distinct dependencies of [n] have been processed. *)
Definition done_deps (n : string) (P : list string) : nat :=
  length (filter (λ y, y ∈ P) (remove_dups (deps d n))).

Lemma done_deps_le n P : (done_deps n P ≤ length (deps d n))%nat.
Proof.
  unfold done_deps. etrans; [apply length_filter|]. apply length_remove_dups.
Qed.

Lemma done_deps_full n P :
  done_deps n P = length (deps d n) → (∀ y, depends d n y → y ∈ P) ∧ NoDup (deps d n).
Proof.
  unfold done_deps. intros Hl. pose proof (length_filter (λ y, y ∈ P) (remove_dups (deps d n))).
  destruct (length_remove_dups (deps d n)) as [H1 H2].
  assert (Hf : length (filter (λ y, y ∈ P) (remove_dups (deps d n))) = length (remove_dups (deps d n))) by lia.
  split; [|apply H2; lia]. intros y Hy.
  apply (length_filter_full (λ y, y ∈ P) _ Hf). by apply elem_of_remove_dups.
Qed.

Record kahn_inv (deg : gmap string Z) (queue result : list string) : Prop := {
  ki_nodup : NoDup (result ++ queue);
  ki_names : ∀ x, x ∈ result ++ queue → x ∈ dkeys d;
  ki_degree : ∀ n, n ∈ dkeys d →
    degree deg n = (Z.of_nat (length (deps d n)) - Z.of_nat (done_deps n result))%Z;
  ki_zero : ∀ n, n ∈ dkeys d → n ∈ result ++ queue ↔ degree deg n = 0%Z;
  ki_ordered : ordered d result;
}.

Lemma kahn_inv_full deg queue result n :
  kahn_inv deg queue result → n ∈ result ++ queue →
  (∀ y, depends d n y → y ∈ result) ∧ NoDup (deps d n).
Proof.
  intros [_ Hn Hd Hz _] Hin. apply done_deps_full. pose proof (Hn n Hin) as Hk.
  apply (Hz n Hk) in Hin. rewrite (Hd n Hk) in Hin. lia.
Qed.

Lemma kahn_inv_step deg c queue result :
  kahn_inv deg (c :: queue) result →
  let acc := fold_left (relax c) (dvalues d) (deg, queue) in
  kahn_inv acc.1 acc.2 (result ++ [c]).
Proof.
  intros Hi. pose proof (kahn_inv_full _ _ _ c Hi ltac:(set_solver)) as [Hc Hcn].
  destruct (relax_fold c (dvalues d) deg queue) as [Hq Hdeg];
    [rewrite <- dkeys_names by done; apply Hwf|].
  cbn zeta. set (acc := fold_left _ _ _) in *.
  assert (Hnew : ∀ n, n ∈ dkeys d →
    (n ∈ ws_name <$> filter (λ s, c ∈ ws_dependencies s) (dvalues d) ↔ depends d n c)).
  { intros n Hn. rewrite list_elem_of_fmap. setoid_rewrite list_elem_of_filter. split.
    - intros (s & -> & Hs & Hv). unfold depends. by rewrite deps_value.
    - intros Hd. destruct (value_of_name d Hwf n Hn) as (s & _ & Hs & <-). exists s.
      unfold depends in Hd. by rewrite deps_value in Hd. }
  assert (Hnew1 : ∀ n, n ∈ ws_name <$> filter
      (λ s, c ∈ ws_dependencies s ∧ degree deg (ws_name s) = 1%Z) (dvalues d) ↔
      n ∈ dkeys d ∧ depends d n c ∧ degree deg n = 1%Z).
  { intros n. rewrite list_elem_of_fmap. setoid_rewrite list_elem_of_filter. split.
    - intros (s & -> & [Hs H1] & Hv). split; [rewrite dkeys_names by done; apply list_elem_of_fmap; eauto|].
      split; [|done]. unfold depends. by rewrite deps_value.
    - intros (Hn & Hd & H1). destruct (value_of_name d Hwf n Hn) as (s & _ & Hs & <-). exists s.
      unfold depends in Hd. by rewrite deps_value in Hd. }
  assert (Hold : ∀ n, n ∈ result ++ c :: queue → ¬ depends d n c).
  { intros n Hn Hd. apply (kahn_inv_full _ _ _ _ Hi Hn) in Hd.
    destruct Hi as [Hnd _ _ _ _]. apply NoDup_app in Hnd as (_ & Hnd & _).
    apply (Hnd c Hd). left. }
  assert (Hcr : c ∉ result).
  { destruct Hi as [Hnd _ _ _ _]. apply NoDup_app in Hnd as (_ & Hnd & _).
    intros Hd. apply (Hnd c Hd). left. }
  destruct Hi as [Hnd Hn Hd Hz Ho].
  assert (Hdeg' : ∀ n, n ∈ dkeys d → degree acc.1 n
    = (Z.of_nat (length (deps d n)) - Z.of_nat (done_deps n (result ++ [c])))%Z).
  { intros n Hk. rewrite Hdeg, Hd by done. unfold done_deps.
    rewrite length_filter_snoc by (done || apply NoDup_remove_dups).
    destruct (decide (n ∈ ws_name <$> _)) as [Hin|Hin]; rewrite Hnew in Hin by done.
    - rewrite decide_True by by apply elem_of_remove_dups. lia.
    - rewrite decide_False by by rewrite elem_of_remove_dups. lia. }
  rewrite Hq. split.
  - rewrite <- app_assoc. cbn [app]. rewrite app_comm_cons, app_assoc. apply NoDup_app.
    split; [done|]. split.
    + intros n Hin (Hk & Hdn & H1)%Hnew1. by apply (Hold n).
    + eapply sublist_NoDup; [exact (dw_nodup _ Hwf)|]. rewrite dkeys_names by done.
      apply fmap_sublist, sublist_filter.
  - intros x. rewrite !elem_of_app, Hnew1, list_elem_of_singleton. intros [[?| ->]|[?|?]].
    + apply Hn. set_solver.
    + apply Hn. set_solver.
    + apply Hn. set_solver.
    + tauto.
  - exact Hdeg'.
  - intros n Hk. rewrite Hdeg. rewrite !elem_of_app, Hnew1, list_elem_of_singleton.
    specialize (Hz n Hk). rewrite elem_of_app, elem_of_cons in Hz.
    specialize (Hd n Hk). pose proof (done_deps_le n result).
    destruct (decide (n ∈ ws_name <$> _)) as [Hin|Hin]; rewrite Hnew in Hin by done.
    + split.
      * intros [[Hr| ->]|[Hr|(_ & _ & H1)]]; [exfalso..|lia].
        -- by apply (Hold n); [set_solver|].
        -- by apply (Hold c); [set_solver|].
        -- by apply (Hold n); [set_solver|].
      * intros H0. right. right. split; [done|]. split; [done|]. lia.
    + rewrite Z.sub_0_r, <- Hz. naive_solver.
  - constructor; done.
Qed.

Lemma kahn_total fuel deg queue result :
  kahn_inv deg queue result → (length result + fuel = length d)%nat →
  ∃ deg' result', kahn d fuel deg queue result = Some result' ∧ kahn_inv deg' [] result'.
Proof.
  revert deg queue result. induction fuel as [|fuel IH]; intros deg queue result Hi Hl;
    (destruct queue as [|c queue]; [exists deg, result; done|]); cbn [kahn].
  - exfalso. destruct Hi as [Hnd Hn _ _ _].
    assert (length (result ++ c :: queue) ≤ length (dkeys d))%nat.
    { apply submseteq_length, NoDup_submseteq; [done|]. intros x. apply Hn. }
    rewrite length_app in *. unfold dkeys in *. rewrite length_fmap in *. simpl in *. lia.
  - apply IH; [by apply kahn_inv_step|]. rewrite length_app. simpl. lia.
Qed.

Lemma kahn_inv_init :
  kahn_inv (initial_degrees d) (filter (λ n, degree (initial_degrees d) n = 0%Z) (dkeys d)) [].
Proof.
  split; cbn [app].
  - apply NoDup_filter, Hwf.
  - by intros x [_ Hx]%list_elem_of_filter.
  - intros n _. rewrite initial_degree. unfold done_deps.
    assert (filter (λ y, y ∈ []) (remove_dups (deps d n)) = []) as ->; [|simpl; lia].
    induction (remove_dups (deps d n)) as [|y l IH]; [done|].
    rewrite filter_cons, decide_False by set_solver. exact IH.
  - intros n Hn. rewrite list_elem_of_filter. tauto.
  - constructor.
Qed.

Lemma topological_sort_cases fin :
  ordered d fin → (∀ n, n ∈ dkeys d → n ∈ fin) →
  (∃ order, topological_sort d = Some (Ok order) ∧ order ≡ₚ dvalues d ∧
     ordered d (ws_name <$> order) ∧ ∀ s, s ∈ dvalues d → NoDup (ws_dependencies s)) ∨
  (topological_sort d = Some (Err CircularDependency) ∧
     ∃ s, s ∈ dvalues d ∧ ¬ NoDup (ws_dependencies s)).
Proof.
  intros Ho Hall. unfold topological_sort.
  destruct (kahn_total (length d) _ _ [] kahn_inv_init) as (deg & result & -> & Hi); [done|].
  assert (Hres : NoDup result ∧ ∀ x, x ∈ result → x ∈ dkeys d).
  { destruct Hi as [Hnd Hn _ _ _]. rewrite app_nil_r in *. auto. }
  destruct Hres as [Hnd Hn].
  assert (Hdups : ∀ n, n ∈ result → NoDup (deps d n)).
  { intros n Hin. eapply (kahn_inv_full _ _ _ n Hi). by rewrite app_nil_r. }
  assert (Hcover : (∀ s, s ∈ dvalues d → NoDup (ws_dependencies s)) →
    ∀ n, n ∈ dkeys d → n ∈ result).
  { intros Hnds n Hk. pose proof (Hall n Hk) as Hf. clear Hall. revert n Hf Hk.
    induction Ho as [|fin x Ho IH Hx Hd]; [set_solver|]. intros n Hf Hk.
    apply elem_of_app in Hf as [Hf| ->%list_elem_of_singleton]; [by apply IH|].
    destruct Hi as [_ _ Hdeg Hz _]. specialize (Hz x Hk). rewrite app_nil_r in Hz. apply Hz.
    rewrite Hdeg by done. unfold done_deps.
    destruct (value_of_name d Hwf x Hk) as (s & _ & Hs & <-).
    assert (Hrd : remove_dups (deps d (ws_name s)) ≡ₚ deps d (ws_name s)).
    { apply NoDup_Permutation; [apply NoDup_remove_dups| |].
      - rewrite deps_value by done. auto.
      - intros y. apply elem_of_remove_dups. }
    rewrite list_filter_all_in.
    - rewrite Hrd. lia.
    - intros y Hy. rewrite elem_of_remove_dups in Hy. apply IH; [exact (Hd y Hy)|exact (Hcl _ y Hy)]. }
  destruct (decide (length result = length d)) as [Hlen|Hlen].
  - left. assert (Hperm : result ≡ₚ dkeys d).
    { apply submseteq_length_Permutation.
      - by apply NoDup_submseteq.
      - unfold dkeys. rewrite length_fmap. lia. }
    exists (omap (dget d) result). split; [done|].
    assert (Hnames : ∀ l : list string,
      (∀ x, x ∈ l → x ∈ dkeys d) → ws_name <$> omap (dget d) l = l).
    { clear -Hwf. intros l Hl. induction l as [|x l IH]; [done|].
      destruct (value_of_name d Hwf x (Hl x ltac:(left))) as (s & Hs & _ & <-).
      cbn [omap list_omap]. rewrite Hs. cbn [fmap list_fmap]. f_equal. apply IH.
      intros y Hy. apply Hl. by right. }
    split_and!.
    + rewrite Hperm. apply reflexive_eq. clear -Hwf. rewrite (dkeys_names d Hwf).
      assert (Hg : ∀ l : list WorkflowStep,
        (∀ s, s ∈ l → s ∈ dvalues d) → omap (dget d) (ws_name <$> l) = l).
      { intros l Hl. induction l as [|s l IH]; [done|]. cbn [fmap list_fmap omap list_omap].
        rewrite (proj2 (dget_value d Hwf (ws_name s) s)) by (split; [apply Hl; left|done]).
        f_equal. apply IH. intros s' Hs'. apply Hl. by right. }
      by apply Hg.
    + rewrite Hnames by done. apply Hi.
    + intros s Hs. rewrite <- (deps_value d Hwf s Hs). apply Hdups. rewrite Hperm.
      rewrite (dkeys_names d Hwf). apply list_elem_of_fmap. eauto.
  - right. split; [done|].
    destruct (decide (Forall (λ s, NoDup (ws_dependencies s)) (dvalues d))) as [Hf|Hf].
    + exfalso. rewrite Forall_forall in Hf. apply Hlen.
      assert (result ≡ₚ dkeys d) as Hp.
      { apply NoDup_Permutation; [done|apply Hwf|]. intros x. split; [apply Hn|by apply Hcover]. }
      rewrite Hp. unfold dkeys. by rewrite length_fmap.
    + apply not_Forall_Exists, Exists_exists in Hf as (s & ? & ?); [eauto|]. intros x. apply _.
Qed.
End Kahn.

(** C37: the execution order. On every graph that validation accepted,
    [topological_sort] terminates. If no step lists a dependency twice it
    returns each step exactly once, after all its dependencies; if some step
    does list one twice it raises "circular dependency", although the graph
    has no cycle. *)
Theorem topological_sort_spec (steps : list WorkflowStep) (d : DAG)
  (H : dag_init steps = Some (Ok d)) :
  (∃ order, topological_sort d = Some (Ok order) ∧ order ≡ₚ dvalues d ∧
     ordered d (ws_name <$> order) ∧ ∀ s, s ∈ dvalues d → NoDup (ws_dependencies s)) ∨
  (topological_sort d = Some (Err CircularDependency) ∧ acyclic d ∧
     ∃ s, s ∈ dvalues d ∧ ¬ NoDup (ws_dependencies s)).
Proof.
  unfold dag_init in H. pose proof (dag_steps_wf steps) as Hwf.
  destruct (validate_cases _ Hwf) as [(s & y & E & _)|[Hcl [[E _]|[E (fin & Ho & Hall)]]]];
    rewrite E in H; simplify_eq.
  destruct (topological_sort_cases _ Hwf Hcl fin Ho Hall) as [?|[? ?]]; [by left|right].
  split; [done|]. split; [|done]. by eapply ordered_all_acyclic.
Qed.

Definition demo_steps : list WorkflowStep :=
  [mkStep "c" ["b"; "a"] true; mkStep "b" ["a"] true; mkStep "a" [] true].

Lemma topological_sort_spec_witness :
  (∃ order, topological_sort (dag_steps demo_steps) = Some (Ok order) ∧
     order ≡ₚ dvalues (dag_steps demo_steps) ∧
     ordered (dag_steps demo_steps) (ws_name <$> order) ∧
     ∀ s, s ∈ dvalues (dag_steps demo_steps) → NoDup (ws_dependencies s)) ∨
  (topological_sort (dag_steps demo_steps) = Some (Err CircularDependency) ∧
     acyclic (dag_steps demo_steps) ∧
     ∃ s, s ∈ dvalues (dag_steps demo_steps) ∧ ¬ NoDup (ws_dependencies s)).
Proof. apply (topological_sort_spec demo_steps). vm_compute. reflexivity. Defined.

Example demo_order :
  topological_sort (dag_steps demo_steps)
  = Some (Ok [mkStep "a" [] true; mkStep "b" ["a"] true; mkStep "c" ["b"; "a"] true]).
Proof. vm_compute. reflexivity. Qed.

(** A dependency listed twice passes validation and defeats the sort. *)
Example demo_duplicate_dependency :
  let d := dag_steps [mkStep "b" ["a"; "a"] true; mkStep "a" [] true] in
  dag_init [mkStep "b" ["a"; "a"] true; mkStep "a" [] true] = Some (Ok d) ∧
  topological_sort d = Some (Err CircularDependency).
Proof. vm_compute. done. Qed.

(** * Parallel groups *)

Section Groups.
Context (d : DAG) (Hwf : dag_wf d) (Hcl : ∀ x y, depends d x y → y ∈ dkeys d).

(** Every dependency of a step lies in an earlier group. *)
Definition layered (groups : list (list WorkflowStep)) : Prop :=
  ∀ i g s y, groups !! i = Some g → s ∈ g → y ∈ ws_dependencies s →
    ∃ j h t, (j < i)%nat ∧ groups !! j = Some h ∧ t ∈ h ∧ ws_name t = y.

Lemma first_unfinished fin (P : gset string) :
  ordered d fin →
  (∀ n, n ∈ fin → n ∈ dkeys d → n ∈ P) ∨
  ∃ x, x ∈ fin ∧ x ∈ dkeys d ∧ x ∉ P ∧ ∀ y, depends d x y → y ∈ P.
Proof.
  induction 1 as [|fin x Ho IH Hx Hd]; [left; set_solver|].
  destruct IH as [IH|(z & ? & ? & ?)]; [|right; exists z; set_solver].
  destruct (decide (x ∈ P)) as [|HP]; [left; set_solver|].
  destruct (decide (x ∈ dkeys d)) as [Hk|Hk]; [|left; set_solver].
  right. exists x. split_and!; [set_solver|done|done|].
  intros y Hy. apply IH; [by apply Hd|]. by eapply Hcl.
Qed.

Lemma elem_of_ready s P :
  s ∈ get_ready_steps d P ↔
  s ∈ dvalues d ∧ ws_name s ∉ P ∧ ∀ y, y ∈ ws_dependencies s → y ∈ P.
Proof. unfold get_ready_steps. rewrite list_elem_of_filter, Forall_forall. tauto. Qed.

Record groups_inv (groups : list (list WorkflowStep)) : Prop := {
  gi_nodup : NoDup (ws_name <$> mjoin groups);
  gi_steps : ∀ s, s ∈ mjoin groups → s ∈ dvalues d;
  gi_layered : layered groups;
  gi_nonempty : ∀ g, g ∈ groups → g ≠ [];
}.

Definition completed_of (groups : list (list WorkflowStep)) : gset string :=
  list_to_set (ws_name <$> mjoin groups).

Lemma groups_inv_step groups :
  groups_inv groups → get_ready_steps d (completed_of groups) ≠ [] →
  groups_inv (groups ++ [get_ready_steps d (completed_of groups)]).
Proof.
  intros [Hnd Hs Hl Hne] Hr. set (ready := get_ready_steps d (completed_of groups)) in *.
  assert (Hready : ∀ s, s ∈ ready → s ∈ dvalues d ∧ ws_name s ∉ completed_of groups ∧
    ∀ y, y ∈ ws_dependencies s → y ∈ completed_of groups) by (intros s; apply elem_of_ready).
  assert (Hj : mjoin (groups ++ [ready]) = mjoin groups ++ ready).
  { rewrite join_app. simpl. by rewrite app_nil_r. }
  split.
  - rewrite Hj, fmap_app. apply NoDup_app. split; [done|]. split.
    + intros n Hn (s & -> & Hin)%list_elem_of_fmap. destruct (Hready s Hin) as (_ & Hc & _).
      apply Hc. unfold completed_of. by rewrite elem_of_list_to_set.
    + eapply sublist_NoDup; [exact (dw_nodup _ Hwf)|]. rewrite dkeys_names by done.
      apply fmap_sublist, sublist_filter.
  - intros s. rewrite Hj, elem_of_app. intros [?|Hin]; [auto|]. by apply Hready.
  - intros i g s y Hi Hg Hy. apply lookup_app_Some in Hi as [Hi|[Hi Hk]].
    + destruct (Hl i g s y Hi Hg Hy) as (j & h & t & Hj' & Hh & ? & ?). exists j, h, t.
      split; [done|]. split; [|done]. by apply lookup_app_l_Some.
    + apply list_lookup_singleton_Some in Hk as [Hk ->].
      destruct (Hready s Hg) as (_ & _ & Hdone). specialize (Hdone y Hy).
      unfold completed_of in Hdone. rewrite elem_of_list_to_set in Hdone.
      apply list_elem_of_fmap in Hdone as (t & -> & Ht).
      apply list_elem_of_join in Ht as (h & Ht & Hh).
      apply list_elem_of_lookup_1 in Hh as [j Hj']. exists j, h, t.
      pose proof (lookup_lt_Some _ _ _ Hj'). split; [lia|].
      split; [by apply lookup_app_l_Some|done].
  - intros g [Hg| ->%list_elem_of_singleton]%elem_of_app; auto.
Qed.

Lemma completed_of_snoc groups g :
  completed_of (groups ++ [g]) = completed_of groups ∪ list_to_set (ws_name <$> g).
Proof.
  unfold completed_of. rewrite join_app. simpl.
  by rewrite app_nil_r, fmap_app, list_to_set_app_L.
Qed.

Lemma parallel_loop_ok fin fuel groups :
  ordered d fin → (∀ n, n ∈ dkeys d → n ∈ fin) → groups_inv groups →
  (length d ≤ size (completed_of groups) + fuel)%nat →
  ∃ out, parallel_loop d fuel (completed_of groups) groups = Some out ∧ groups_inv out ∧
         (length d ≤ size (completed_of out))%nat.
Proof.
  intros Ho Hall. revert groups. induction fuel as [|fuel IH]; intros groups Hi Hf; cbn [parallel_loop];
    (destruct (decide _) as [Hlt|Hge]; [|exists groups; split; [done|]; split; [done|lia]]); [lia|].
  assert (Hready : get_ready_steps d (completed_of groups) ≠ []).
  { destruct (first_unfinished fin (completed_of groups) Ho) as [Hd|(x & Hx & Hk & Hnx & Hdx)].
    - exfalso. assert (names d ⊆ completed_of groups) as Hs%subseteq_size.
      { intros n Hn%elem_of_names. auto. }
      rewrite (size_names d Hwf) in Hs. lia.
    - destruct (value_of_name d Hwf x Hk) as (s & _ & Hs & <-).
      assert (Hin : s ∈ get_ready_steps d (completed_of groups)).
      { apply elem_of_ready. split; [done|]. split; [done|]. intros y Hy. apply Hdx.
        unfold depends. by rewrite deps_value. }
      intros E. rewrite E in Hin. by apply elem_of_nil in Hin. }
  pose proof (groups_inv_step groups Hi Hready) as Hi'.
  destruct (get_ready_steps d (completed_of groups)) as [|s0 ready] eqn:E; [done|].
  rewrite <- completed_of_snoc. apply IH; [done|].
  rewrite completed_of_snoc.
  assert (completed_of groups ⊂ completed_of groups ∪ list_to_set (ws_name <$> s0 :: ready)) as Hs%subset_size.
  { split; [set_solver|]. intros Hbad.
    assert (Hs0 : s0 ∈ get_ready_steps d (completed_of groups)) by (rewrite E; left).
    apply elem_of_ready in Hs0 as (_ & Hn & _). apply Hn, Hbad. cbn [fmap list_fmap]. set_solver. }
  lia.
Qed.
End Groups.

(** Parallel groups. On every graph that validation accepted (duplicated
    dependencies included) the grouping terminates, covers every step exactly
    once with non-empty groups, and puts each dependency of a step in an
    earlier group, so the steps of a group can run together. *)
Theorem parallel_groups_spec (steps : list WorkflowStep) (d : DAG)
  (H : dag_init steps = Some (Ok d)) :
  ∃ groups, get_parallel_groups d = Some groups ∧ mjoin groups ≡ₚ dvalues d ∧
    (∀ g, g ∈ groups → g ≠ []) ∧ layered groups.
Proof.
  unfold dag_init in H. pose proof (dag_steps_wf steps) as Hwf.
  destruct (validate_cases _ Hwf) as [(s & y & E & _)|[Hcl [[E _]|[E (fin & Ho & Hall)]]]];
    rewrite E in H; simplify_eq.
  set (d := dag_steps steps) in *.
  assert (Hi0 : groups_inv d []).
  { split; [constructor|set_solver|intros i g s y Hi; by rewrite lookup_nil in Hi|set_solver]. }
  destruct (parallel_loop_ok d Hwf Hcl fin (length d) [] Ho Hall Hi0) as (groups & Hg & [Hnd Hs Hl Hne] & Hsz);
    [lia|].
  exists groups. split; [exact Hg|]. split; [|done].
  assert (Hlen : length (dvalues d) = length d) by (unfold dvalues; by rewrite length_fmap).
  apply submseteq_length_Permutation.
  - apply NoDup_submseteq; [by eapply NoDup_fmap_1|exact Hs].
  - unfold completed_of in Hsz. rewrite size_list_to_set, length_fmap in Hsz by done. lia.
Qed.

Lemma parallel_groups_spec_witness :
  ∃ groups, get_parallel_groups (dag_steps demo_steps) = Some groups ∧
    mjoin groups ≡ₚ dvalues (dag_steps demo_steps) ∧
    (∀ g, g ∈ groups → g ≠ []) ∧ layered groups.
Proof. apply (parallel_groups_spec demo_steps). vm_compute. reflexivity. Defined.

(** * Retry (retry/policy.py) *)

(** What awaiting a handler gives: a value, an exception, or a BaseException
    such as CancelledError. *)
Inductive outcome (V E : Type) : Type :=
| Returned (v : V)
| Raised (e : E)
| Interrupted.
Arguments Returned {V E} v.
Arguments Raised {V E} e.
Arguments Interrupted {V E}.

(** What a retried call does, in order: attempts, waits, and the delivery to
    the dead letter queue. *)
Inductive retry_event (D : Type) : Type :=
| Attempt (n : nat)
| Sleep (delay : D)
| SendToDlq.
Arguments Attempt {D} n.
Arguments Sleep {D} delay.
Arguments SendToDlq {D}.

Section Retry.
Variables (V E W D : Type).
(** The handler over the state of the world, the retryable exceptions, and
    the backoff strategy. *)
Variables (func : W → outcome V E * W) (retryable : E → bool) (calculate : nat → D).

Record RetryPolicy := mkRetry {
  rp_max_attempts : nat;
  rp_dlq_enabled : bool;
  rp_dlq : bool;
}.

(** RetryPolicy.__init__ rejects [max_attempts < 1]. *)
Definition retry_init (max_attempts : Z) (dlq_enabled dlq : bool) : option RetryPolicy :=
  if (max_attempts <? 1)%Z then None
  else Some (mkRetry (Z.to_nat max_attempts) dlq_enabled dlq).

(** The loop of execute_with_retry from attempt [n], with [left] attempts. *)
Fixpoint retry_loop (p : RetryPolicy) (left n : nat) (w : W) (log : list (retry_event D))
  : outcome V E * W * list (retry_event D) :=
  match left with
  | O => (Interrupted, w, log)
  | S left' =>
      let (o, w') := func w in
      let log := log ++ [Attempt n] in
      match o with
      | Returned v => (Returned v, w', log)
      | Interrupted => (Interrupted, w', log)
      | Raised e =>
          if retryable e then
            if decide (n = rp_max_attempts p - 1)%nat then
              (Raised e, w', if rp_dlq_enabled p && rp_dlq p then log ++ [SendToDlq] else log)
            else retry_loop p left' (S n) w' (log ++ [Sleep (calculate n)])
          else (Raised e, w', log)
      end
  end.

Definition execute_with_retry (p : RetryPolicy) (w : W)
  : outcome V E * W * list (retry_event D) :=
  retry_loop p (rp_max_attempts p) 0 w [].

(** [n] failed retryable attempts from state [w]. *)
Inductive failed_attempts : nat → W → W → Prop :=
| failed_zero w : failed_attempts 0 w w
| failed_more n w w1 w2 e :
    failed_attempts n w w1 → func w1 = (Raised e, w2) → retryable e = true →
    failed_attempts (S n) w w2.

(** The log of [k] attempts with a wait between consecutive ones. *)
Definition attempts_log (k : nat) : list (retry_event D) :=
  mjoin ((λ i, [Attempt i; Sleep (calculate i)]) <$> seq 0 k).

Lemma attempts_log_S k :
  attempts_log (S k) = attempts_log k ++ [Attempt k; Sleep (calculate k)].
Proof.
  unfold attempts_log. rewrite seq_S, fmap_app, join_app. done.
Qed.

Lemma retry_loop_spec p left n w0 w :
  (n + left = rp_max_attempts p)%nat → (0 < left)%nat → failed_attempts n w0 w →
  ∃ k w1 o w2, (k < rp_max_attempts p)%nat ∧ failed_attempts k w0 w1 ∧ func w1 = (o, w2) ∧
    ((∀ e, o = Raised e → retryable e = true → S k = rp_max_attempts p) ∧
     retry_loop p left n w (attempts_log n) =
       (o, w2, attempts_log k ++ [Attempt k] ++
          match o with
          | Raised e => if retryable e && (rp_dlq_enabled p && rp_dlq p) then [SendToDlq] else []
          | _ => []
          end)).
Proof.
  revert n w. induction left as [|left IH]; intros n w Hn Hl Hf; [lia|]. cbn [retry_loop].
  destruct (func w) as [o w'] eqn:Ef. destruct o as [v|e|].
  - exists n, w, (Returned v), w'. split; [lia|]. split; [done|]. split; [done|]. split; [done|].
    by rewrite app_nil_r.
  - destruct (retryable e) eqn:Er.
    + destruct (decide (n = rp_max_attempts p - 1)%nat) as [Hlast|Hlast].
      * exists n, w, (Raised e), w'. split; [lia|]. split; [done|]. split; [done|].
        split; [intros; lia|]. rewrite Er. simpl.
        destruct (rp_dlq_enabled p && rp_dlq p); [by rewrite <- app_assoc|done].
      * destruct (IH (S n) w') as (k & w1 & o & w2 & ? & ? & ? & ? & Hr); [lia|lia|by econstructor|].
        exists k, w1, o, w2. split; [done|]. split; [done|]. split; [done|]. split; [done|].
        rewrite <- app_assoc. cbn [app]. rewrite <- attempts_log_S. exact Hr.
    + exists n, w, (Raised e), w'. split; [lia|]. split; [done|]. split; [done|].
      split; [intros e' [= <-]; congruence|]. rewrite Er. simpl. done.
  - exists n, w, Interrupted, w'. split; [lia|]. split; [done|]. split; [done|]. split; [done|].
    by rewrite app_nil_r.
Qed.

End Retry.

(** A retried call makes [k + 1 <= max_attempts] attempts: [k] retryable
    failures, each followed by the wait the backoff gives for its number, then
    a last attempt whose outcome is the call's outcome. The last attempt is a
    retryable failure only when all attempts are used up, and only then, with
    the dead letter queue enabled and present, is the call delivered to it,
    once; the policy's unreachable end is never reached. *)
Theorem execute_with_retry_spec (V E W D : Type) (func : W → outcome V E * W)
  (retryable : E → bool) (calculate : nat → D) (max_attempts : Z) (dlq_enabled dlq : bool)
  (p : RetryPolicy) (w : W) (Hp : retry_init max_attempts dlq_enabled dlq = Some p) :
  ∃ k w1 o w2, (Z.of_nat k < max_attempts)%Z ∧
    failed_attempts V E W func retryable k w w1 ∧ func w1 = (o, w2) ∧
    (∀ e, o = Raised e → retryable e = true → (Z.of_nat k + 1 = max_attempts)%Z) ∧
    execute_with_retry V E W D func retryable calculate p w =
      (o, w2, attempts_log D calculate k ++ [Attempt k] ++
         match o with
         | Raised e => if retryable e && (dlq_enabled && dlq) then [SendToDlq] else []
         | _ => []
         end).
Proof.
  unfold retry_init in Hp. destruct (max_attempts <? 1)%Z eqn:Hm; [done|]. injection Hp as <-.
  destruct (retry_loop_spec V E W D func retryable calculate
    (mkRetry (Z.to_nat max_attempts) dlq_enabled dlq) (Z.to_nat max_attempts) 0 w w)
    as (k & w1 & o & w2 & Hk & Hf & Ho & He & Hr); [done|lia|constructor|].
  exists k, w1, o, w2. cbn [rp_max_attempts rp_dlq_enabled rp_dlq] in *.
  split; [lia|]. split; [done|]. split; [done|]. split; [intros e E1 E2; specialize (He e E1 E2); lia|].
  exact Hr.
Qed.

(** A handler that fails twice, then succeeds. *)
Definition demo_flaky (w : nat) : outcome nat string * nat :=
  (if (w <? 2)%nat then Raised "down" else Returned w, S w).

Lemma execute_with_retry_spec_witness :
  ∃ k w1 o w2, (Z.of_nat k < 3)%Z ∧
    failed_attempts nat string nat demo_flaky (λ _, true) k 0%nat w1 ∧ demo_flaky w1 = (o, w2) ∧
    (∀ e, o = Raised e → true = true → (Z.of_nat k + 1 = 3)%Z) ∧
    execute_with_retry nat string nat nat demo_flaky (λ _, true) (λ n, n) (mkRetry 3 true true) 0%nat =
      (o, w2, attempts_log nat (λ n, n) k ++ [Attempt k] ++
         match o with
         | Raised e => if true && (true && true) then [SendToDlq] else []
         | _ => []
         end).
Proof.
  exact (execute_with_retry_spec nat string nat nat demo_flaky (λ _, true) (λ n, n) 3 true true
    (mkRetry 3 true true) 0%nat eq_refl).
Defined.

(** * Backoff strategies (retry/backoff.py); float arithmetic is a parameter. *)
Section Backoff.
Variables (F : Type) (fadd fmul fmin : F → F → F) (fpow : F → nat → F) (of_nat : nat → F).

Definition exponential_calculate (base multiplier max_delay : F) (attempt : nat) : F :=
  fmin (fmul base (fpow multiplier attempt)) max_delay.

Definition linear_calculate (base increment max_delay : F) (attempt : nat) : F :=
  fmin (fadd base (fmul increment (of_nat attempt))) max_delay.

Definition constant_calculate (delay : F) (attempt : nat) : F := delay.
End Backoff.
