(* ===== verification/Executor.v ===== *)
(** The workflow executor and its compensation ([flow/workflow/executor.py],
    [saga.py]). Handlers act on a state of the world and may return, raise or
    be interrupted by a BaseException (a cancellation); a step's retry policy
    and timeout are part of what awaiting its effective handler gives. *)
From S2P Require Import Prelude Workflow.
From Stdlib Require Import ZArith Lia Sorting.Permutation.
From stdpp Require Import prelude gmap strings list.
Local Open Scope string_scope.
Local Open Scope list_scope.

(** What the executor does to the outside, in order. *)
Inductive exec_event (V : Type) : Type :=
| Ran (step : string)
| RolledBack (step : string) (result : option V).
Arguments Ran {V} step.
Arguments RolledBack {V} step result.

(** How [execute] ends. *)
Inductive exec_result (V : Type) : Type :=
| Finished (results : list (string * V))
| ExecutionFailed
| CircularDependencyRaised
| BaseExceptionRaised.
Arguments Finished {V} results.
Arguments ExecutionFailed {V}.
Arguments CircularDependencyRaised {V}.
Arguments BaseExceptionRaised {V}.

Section Executor.
Variables (V E W : Type).
(** The effective handler of a step (on the results so far) and its rollback
    handler (on the step's result). *)
Variable handler : string → list (string * V) → W → outcome V E * W.
Variable rollback_handler : string → option V → W → outcome unit E * W.

Record exec_state := mkExec {
  ex_results : list (string * V);
  ex_completed : gset string;
  ex_world : W;
  ex_trace : list (exec_event V);
}.

Definition exec_init (w : W) : exec_state := mkExec [] ∅ w [].

(** _execute_step: [None] when the step succeeded. *)
Definition _execute_step (s : WorkflowStep) (st : exec_state) : exec_state * outcome unit E :=
  let (o, w) := handler (ws_name s) (ex_results st) (ex_world st) in
  let trace := ex_trace st ++ [Ran (ws_name s)] in
  match o with
  | Returned v => (mkExec (dset (ex_results st) (ws_name s) v)
                     ({[ws_name s]} ∪ ex_completed st) w trace, Returned tt)
  | Raised e => (mkExec (ex_results st) (ex_completed st) w trace, Raised e)
  | Interrupted => (mkExec (ex_results st) (ex_completed st) w trace, Interrupted)
  end.

(** _execute_sequential over the execution order. *)
Fixpoint run_steps (order : list WorkflowStep) (st : exec_state) : exec_state * outcome unit E :=
  match order with
  | [] => (st, Returned tt)
  | s :: order' =>
      match _execute_step s st with
      | (st', Returned _) => run_steps order' st'
      | (st', o) => (st', o)
      end
  end.

(** The loop of SagaPattern.rollback over the reversed order; the flag says
    that a BaseException stopped it. *)
Fixpoint rollback_steps (order : list WorkflowStep) (st : exec_state) : exec_state * bool :=
  match order with
  | [] => (st, false)
  | s :: order' =>
      if bool_decide (ws_name s ∈ ex_completed st) && ws_has_rollback s then
        let result := dget (ex_results st) (ws_name s) in
        let (o, w) := rollback_handler (ws_name s) result (ex_world st) in
        let st' := mkExec (ex_results st) (ex_completed st) w
                     (ex_trace st ++ [RolledBack (ws_name s) result]) in
        match o with
        | Interrupted => (st', true)
        | _ => rollback_steps order' st'
        end
      else rollback_steps order' st
  end.

(** WorkflowExecutor.execute after its [try] body ended in [st] with [o]: the
    [except] clause re-computes the order, rolls back and re-raises. *)
Definition conclude (d : DAG) (st : exec_state) (o : outcome unit E)
  : option (exec_state * exec_result V) :=
  match o with
  | Returned _ => Some (st, Finished (ex_results st))
  | Interrupted => Some (st, BaseExceptionRaised)
  | Raised _ =>
      match topological_sort d with
      | None => None
      | Some (Err _) => Some (st, CircularDependencyRaised)
      | Some (Ok order) =>
          match rollback_steps (reverse order) st with
          | (st', true) => Some (st', BaseExceptionRaised)
          | (st', false) => Some (st', ExecutionFailed)
          end
      end
  end.

(** execute(workflow, parallel=False); [None] only if a sort ran out of fuel. *)
Definition execute_sequential (d : DAG) (w : W) : option (exec_state * exec_result V) :=
  match topological_sort d with
  | None => None
  | Some (Err _) => Some (exec_init w, CircularDependencyRaised)
  | Some (Ok order) => let (st, o) := run_steps order (exec_init w) in conclude d st o
  end.

(** ** Parallel groups: one group's tasks finish in some order; after the
    first failure every other task is cancelled, and those that were past
    cancellation still finish before the exception is re-raised. *)
Inductive drain : list WorkflowStep → exec_state → exec_state → Prop :=
| drain_stop g st : drain g st st
| drain_step g s st st' st'' o :
    s ∈ g → _execute_step s st = (st', o) →
    drain (filter (λ t, ws_name t ≠ ws_name s) g) st' st'' → drain g st st''.

Inductive run_group : list WorkflowStep → exec_state → exec_state → outcome unit E → Prop :=
| group_done st : run_group [] st st (Returned tt)
| group_step g s st st' st'' o :
    s ∈ g → _execute_step s st = (st', Returned tt) →
    run_group (filter (λ t, ws_name t ≠ ws_name s) g) st' st'' o → run_group g st st'' o
| group_fail g s st st' st'' e :
    s ∈ g → _execute_step s st = (st', Raised e) →
    drain (filter (λ t, ws_name t ≠ ws_name s) g) st' st'' → run_group g st st'' (Raised e)
| group_interrupt g s st st' st'' :
    s ∈ g → _execute_step s st = (st', Interrupted) →
    drain (filter (λ t, ws_name t ≠ ws_name s) g) st' st'' → run_group g st st'' Interrupted.

Inductive run_groups : list (list WorkflowStep) → exec_state → exec_state → outcome unit E → Prop :=
| groups_done st : run_groups [] st st (Returned tt)
| groups_next g gs st st' st'' o :
    run_group g st st' (Returned tt) → run_groups gs st' st'' o → run_groups (g :: gs) st st'' o
| groups_fail g gs st st' o :
    run_group g st st' o → o ≠ Returned tt → run_groups (g :: gs) st st' o.

(** execute(workflow, parallel=True): a possible run. *)
Inductive execute_parallel (d : DAG) (w : W) : exec_state → exec_result V → Prop :=
| parallel_run groups st o st' r :
    get_parallel_groups d = Some groups → run_groups groups (exec_init w) st o →
    conclude d st o = Some (st', r) → execute_parallel d w st' r.

(** * Sequential runs *)

(** The first [k] steps of [order] succeeded from [st] with values [vs]. *)
Inductive succeeded : list WorkflowStep → list V → exec_state → exec_state → Prop :=
| succeeded_nil st : succeeded [] [] st st
| succeeded_cons s order v vs st st' w :
    handler (ws_name s) (ex_results st) (ex_world st) = (Returned v, w) →
    succeeded order vs
      (mkExec (dset (ex_results st) (ws_name s) v) ({[ws_name s]} ∪ ex_completed st) w
         (ex_trace st ++ [Ran (ws_name s)])) st' →
    succeeded (s :: order) (v :: vs) st st'.

(** A run over [order] that a step stopped: the steps before it succeeded, and
    its handler gave [x]. *)
Definition stopped_at (order : list WorkflowStep) (st st' : exec_state) (x : outcome V E) : Prop :=
  ∃ done s rest vs st1, order = done ++ s :: rest ∧ succeeded done vs st st1 ∧
    handler (ws_name s) (ex_results st1) (ex_world st1) = (x, ex_world st') ∧
    ex_results st' = ex_results st1 ∧ ex_completed st' = ex_completed st1 ∧
    ex_trace st' = ex_trace st1 ++ [Ran (ws_name s)].

Lemma stopped_cons s order v w st st' x :
  handler (ws_name s) (ex_results st) (ex_world st) = (Returned v, w) →
  stopped_at order (mkExec (dset (ex_results st) (ws_name s) v) ({[ws_name s]} ∪ ex_completed st) w
    (ex_trace st ++ [Ran (ws_name s)])) st' x →
  stopped_at (s :: order) st st' x.
Proof.
  intros Hh (done & s' & rest & vs & st1 & -> & Hs & H). exists (s :: done), s', rest, (v :: vs), st1.
  split; [done|]. split; [by econstructor|done].
Qed.

Lemma run_steps_cases order st :
  match run_steps order st with
  | (st', Returned _) => ∃ vs, succeeded order vs st st'
  | (st', Raised e) => stopped_at order st st' (Raised e)
  | (st', Interrupted) => stopped_at order st st' Interrupted
  end.
Proof.
  revert st. induction order as [|s order IH]; intros st; cbn [run_steps].
  { exists []. constructor. }
  unfold _execute_step. destruct (handler _ _ _) as [[v|e|] w] eqn:Eh.
  - specialize (IH (mkExec (dset (ex_results st) (ws_name s) v)
      ({[ws_name s]} ∪ ex_completed st) w (ex_trace st ++ [Ran (ws_name s)]))).
    destruct (run_steps order _) as [st' [[]|e|]]; [|by eapply stopped_cons|by eapply stopped_cons].
    destruct IH as [vs Hs]. exists (v :: vs). by econstructor.
  - exists [], s, order, [], st. split; [done|]. split; [constructor|done].
  - exists [], s, order, [], st. split; [done|]. split; [constructor|done].
Qed.

(** What the handlers of some steps did, one after the other, each on the
    results of the steps before it and on the world that they left. *)
Inductive returned : list (string * V) → W → list WorkflowStep → list V → W → Prop :=
| returned_nil results w : returned results w [] [] w
| returned_cons results w s steps v vs w1 w2 :
    handler (ws_name s) results w = (Returned v, w1) →
    returned (results ++ [(ws_name s, v)]) w1 steps vs w2 →
    returned results w (s :: steps) (v :: vs) w2.

Lemma succeeded_returned order vs st st' :
  succeeded order vs st st' → NoDup (ws_name <$> order) →
  (∀ n, n ∈ ws_name <$> order → n ∉ dkeys (ex_results st)) →
  returned (ex_results st) (ex_world st) order vs (ex_world st').
Proof.
  induction 1 as [st|s order v vs st st' w Hh Hs IH]; intros Hnd Hfresh; [constructor|].
  cbn [fmap list_fmap] in *. apply NoDup_cons in Hnd as [Hn Hnd].
  assert (Hk : ws_name s ∉ dkeys (ex_results st)) by (apply Hfresh; left).
  econstructor; [exact Hh|]. rewrite <- dset_fresh by by apply dget_None. apply IH; [done|].
  cbn [ex_results]. intros n Hin Hd. rewrite dkeys_dset_notin in Hd by done.
  apply elem_of_app in Hd as [Hd| ->%list_elem_of_singleton]; [|done]. by apply (Hfresh n); [right|].
Qed.

Lemma succeeded_spec order vs st st' :
  succeeded order vs st st' → NoDup (ws_name <$> order) →
  (∀ n, n ∈ ws_name <$> order → n ∉ dkeys (ex_results st)) →
  ex_results st' = ex_results st ++ zip (ws_name <$> order) vs ∧
  ex_completed st' = ex_completed st ∪ list_to_set (ws_name <$> order) ∧
  ex_trace st' = ex_trace st ++ (Ran <$> (ws_name <$> order)) ∧ length vs = length order.
Proof.
  induction 1 as [st|s order v vs st st' w Hh Hs IH]; intros Hnd Hfresh.
  { cbn. rewrite !app_nil_r. set_solver. }
  cbn [fmap list_fmap] in *. apply NoDup_cons in Hnd as [Hn Hnd].
  assert (Hk : ws_name s ∉ dkeys (ex_results st)) by (apply Hfresh; left).
  destruct IH as (H1 & H2 & H3 & H4); [done| |].
  { cbn [ex_results]. intros n Hin Hd. rewrite dkeys_dset_notin in Hd by done.
    apply elem_of_app in Hd as [Hd| ->%list_elem_of_singleton]; [|done].
    by apply (Hfresh n); [right|]. }
  cbn [ex_results ex_completed ex_trace] in *. split_and!.
  - rewrite H1, dset_fresh by by apply dget_None. by rewrite <- app_assoc.
  - rewrite H2. set_solver.
  - rewrite H3. by rewrite <- app_assoc.
  - cbn [length]. by rewrite H4.
Qed.

(** * Rollback *)

(** The compensations of a state along an order, first called first. *)
Definition compensations (order : list WorkflowStep) (st : exec_state) : list (exec_event V) :=
  (λ s, RolledBack (ws_name s) (dget (ex_results st) (ws_name s))) <$>
  filter (λ s, ws_name s ∈ ex_completed st ∧ ws_has_rollback s = true) order.

(** What the rollback handlers of some compensations did: each may raise. *)
Inductive compensated : list (exec_event V) → W → W → Prop :=
| compensated_nil w : compensated [] w w
| compensated_cons n r evs o w w1 w2 :
    rollback_handler n r w = (o, w1) → o ≠ Interrupted →
    compensated evs w1 w2 → compensated (RolledBack n r :: evs) w w2.

(** What the rollback of the compensations [all] did: all of them, or those
    before one that a BaseException left. *)
Definition rolled_back (all : list (exec_event V)) (stopped : bool) (w w' : W) (evs : list (exec_event V)) : Prop :=
  if stopped then
    ∃ before n r after w1, all = before ++ RolledBack n r :: after ∧ compensated before w w1 ∧
      rollback_handler n r w1 = (Interrupted, w') ∧ evs = before ++ [RolledBack n r]
  else compensated all w w' ∧ evs = all.

Lemma rolled_back_cons n r o all stopped w w1 w' evs :
  rollback_handler n r w = (o, w1) → o ≠ Interrupted → rolled_back all stopped w1 w' evs →
  rolled_back (RolledBack n r :: all) stopped w w' (RolledBack n r :: evs).
Proof.
  intros Hh Ho. destruct stopped; cbn.
  - intros (before & n' & r' & after & w2 & -> & Hb & Hr & ->).
    exists (RolledBack n r :: before), n', r', after, w2. split_and!; [done|by econstructor|done|done].
  - intros [Hc ->]. split; [by econstructor|done].
Qed.

Lemma rolled_back_prefix all stopped w w' evs :
  rolled_back all stopped w w' evs → evs `prefix_of` all ∧ (stopped = false → evs = all).
Proof.
  destruct stopped; cbn.
  - intros (before & n & r & after & w1 & -> & _ & _ & ->). split; [|done].
    exists after. by rewrite <- app_assoc.
  - by intros [_ ->].
Qed.

Lemma rollback_steps_spec order st :
  let (st', stopped) := rollback_steps order st in
  ex_results st' = ex_results st ∧ ex_completed st' = ex_completed st ∧
  ∃ evs, ex_trace st' = ex_trace st ++ evs ∧ rolled_back (compensations order st) stopped (ex_world st) (ex_world st') evs.
Proof.
  revert st. induction order as [|s order IH]; intros st; cbn [rollback_steps].
  { split; [done|]. split; [done|]. exists []. rewrite app_nil_r. split; [done|]. split; [constructor|done]. }
  unfold compensations. rewrite filter_cons.
  destruct (bool_decide (ws_name s ∈ ex_completed st) && ws_has_rollback s) eqn:Eb.
  - apply andb_true_iff in Eb as [Hc%bool_decide_eq_true Hr]. rewrite decide_True by done. cbn [fmap list_fmap].
    destruct (rollback_handler _ _ _) as [o w] eqn:Eo.
    set (ev := RolledBack (ws_name s) (dget (ex_results st) (ws_name s))).
    set (st1 := mkExec (ex_results st) (ex_completed st) w (ex_trace st ++ [ev])).
    assert (Hgo : o ≠ Interrupted → let (st', stopped) := rollback_steps order st1 in
      ex_results st' = ex_results st ∧ ex_completed st' = ex_completed st ∧
      ∃ evs, ex_trace st' = ex_trace st ++ evs ∧
        rolled_back (ev :: compensations order st) stopped (ex_world st) (ex_world st') evs).
    { intros Ho. specialize (IH st1). destruct (rollback_steps order st1) as [st' stopped].
      destruct IH as (H1 & H2 & evs & H3 & H4). split; [done|]. split; [done|].
      exists (ev :: evs). split; [rewrite H3; cbn [st1 ex_trace]; by rewrite <- app_assoc|].
      by eapply rolled_back_cons. }
    destruct o; [by apply Hgo|by apply Hgo|].
    split; [done|]. split; [done|]. exists [ev]. split; [done|].
    exists [], (ws_name s), (dget (ex_results st) (ws_name s)), (compensations order st), (ex_world st).
    split_and!; [done|constructor|done|done].
  - rewrite decide_False.
    + apply IH.
    + intros [Hc Hr]. rewrite bool_decide_true, Hr in Eb by done. done.
Qed.

Lemma dget_zip (order : list WorkflowStep) (vs : list V) i s v :
  NoDup (ws_name <$> order) → order !! i = Some s → vs !! i = Some v →
  dget (zip (ws_name <$> order) vs) (ws_name s) = Some v.
Proof.
  revert vs i. induction order as [|s0 order IH]; intros vs i Hnd Hi Hv; [done|].
  cbn [fmap list_fmap] in *. apply NoDup_cons in Hnd as [Hn Hnd].
  destruct vs as [|v0 vs]; [done|]. destruct i as [|i]; simpl in *.
  - injection Hi as ->. injection Hv as ->. by rewrite decide_True.
  - rewrite decide_False; [by eapply IH|]. intros Heq. apply Hn. rewrite Heq.
    apply list_elem_of_fmap. exists s. split; [done|]. by eapply list_elem_of_lookup_2.
Qed.

(** The compensations of a state whose completed steps are the first ones of
    the order, with the values they returned. *)
Definition undo (done : list WorkflowStep) (vs : list V) : list (exec_event V) :=
  (λ sv, RolledBack (ws_name sv.1) (Some sv.2)) <$>
  reverse (filter (λ sv : WorkflowStep * V, ws_has_rollback sv.1 = true) (zip done vs)).

Lemma compensations_undo done rest vs st :
  NoDup (ws_name <$> done ++ rest) → length vs = length done →
  ex_results st = zip (ws_name <$> done) vs →
  ex_completed st = list_to_set (ws_name <$> done) →
  compensations (reverse (done ++ rest)) st = undo done vs.
Proof.
  intros Hnd Hlen Hr Hc. unfold compensations, undo. rewrite Hr, Hc.
  rewrite fmap_app in Hnd. apply NoDup_app in Hnd as (Hnd & Hdis & _).
  rewrite reverse_app, filter_app, fmap_app.
  rewrite (list_filter_none_in _ (reverse rest)).
  2: { intros s Hs [Hin _]. rewrite elem_of_list_to_set in Hin. apply (Hdis _ Hin).
       apply list_elem_of_fmap. exists s. split; [done|]. by rewrite elem_of_reverse in Hs. }
  cbn [fmap list_fmap app]. rewrite filter_reverse', !fmap_reverse. f_equal.
  assert (Hg : ∀ l us, length us = length l → (∀ i s v, l !! i = Some s → us !! i = Some v →
      dget (zip (ws_name <$> done) vs) (ws_name s) = Some v ∧ ws_name s ∈ ws_name <$> done) →
    (λ s, RolledBack (ws_name s) (dget (zip (ws_name <$> done) vs) (ws_name s))) <$>
      filter (λ s, ws_name s ∈ (list_to_set (ws_name <$> done) : gset string)
                   ∧ ws_has_rollback s = true) l
    = (λ sv, RolledBack (ws_name sv.1) (Some sv.2)) <$>
      filter (λ sv : WorkflowStep * V, ws_has_rollback sv.1 = true) (zip l us)).
  { induction l as [|s l IH]; intros [|u us] Hl Hall; try done.
    cbn [zip zip_with]. rewrite !filter_cons. destruct (Hall 0%nat s u eq_refl eq_refl) as [Hd Hin].
    cbn [fst]. specialize (IH us ltac:(simpl in *; lia) ltac:(intros i; apply (Hall (S i)))).
    destruct (decide (ws_has_rollback s = true)) as [Hb|Hb].
    - rewrite decide_True by (split; [by rewrite elem_of_list_to_set|done]).
      cbn [fmap list_fmap fst snd]. rewrite Hd. f_equal. exact IH.
    - rewrite decide_False by naive_solver. exact IH. }
  apply Hg; [done|]. intros i s v Hs Hv. split; [by eapply dget_zip|].
  apply list_elem_of_fmap. exists s. split; [done|]. by eapply list_elem_of_lookup_2.
Qed.

(** C26: sequential execution and compensation. On an accepted graph whose
    order exists, [execute] runs the handlers of the steps in that order, each on
    the results of those before it, and stops at the first one that does not
    return. If all return, it gives every step's value and rolls nothing back. If
    one raises, exactly the steps before it that have a rollback handler are
    rolled back, last one first, each with the value its handler returned,
    whatever the rollback handlers raise, and the execution error is raised. A
    BaseException in a step leaves without any compensation, one in a rollback
    handler without further ones. The answer is tied to what the handlers did on
    the world: no other answer is possible. *)
Theorem execute_sequential_spec (d : DAG) (order : list WorkflowStep) (w : W)
  (Hsort : topological_sort d = Some (Ok order)) (Hord : ordered d (ws_name <$> order)) :
  ∃ st r, execute_sequential d w = Some (st, r) ∧
  match r with
  | Finished results => ∃ vs, returned [] w order vs (ex_world st) ∧
      results = zip (ws_name <$> order) vs ∧ ex_trace st = Ran <$> (ws_name <$> order)
  | CircularDependencyRaised => False
  | _ => ∃ done s rest vs w1 x w2 undone, order = done ++ s :: rest ∧ returned [] w done vs w1 ∧
      handler (ws_name s) (zip (ws_name <$> done) vs) w1 = (x, w2) ∧
      ex_trace st = (Ran <$> (ws_name <$> done ++ [s])) ++ undone ∧
      match r, x with
      | ExecutionFailed, Raised _ => rolled_back (undo done vs) false w2 (ex_world st) undone
      | BaseExceptionRaised, Raised _ => rolled_back (undo done vs) true w2 (ex_world st) undone
      | BaseExceptionRaised, Interrupted => undone = [] ∧ ex_world st = w2
      | _, _ => False
      end
  end.
Proof.
  apply ordered_NoDup in Hord as Hnd. unfold execute_sequential. rewrite Hsort.
  pose proof (run_steps_cases order (exec_init w)) as Hrun.
  destruct (run_steps order (exec_init w)) as [st o].
  assert (Hpre : ∀ x, stopped_at order (exec_init w) st x → ∃ done s rest vs w1, order = done ++ s :: rest ∧ returned [] w done vs w1 ∧
    handler (ws_name s) (zip (ws_name <$> done) vs) w1 = (x, ex_world st) ∧
    ex_results st = zip (ws_name <$> done) vs ∧ ex_completed st = list_to_set (ws_name <$> done) ∧
    ex_trace st = Ran <$> (ws_name <$> done ++ [s]) ∧ length vs = length done).
  { intros x (done & s & rest & vs & st1 & Eo & Hs & Hh & H1 & H2 & H3).
    assert (Hnd1 : NoDup (ws_name <$> done)) by (rewrite Eo, fmap_app in Hnd; by apply NoDup_app in Hnd as [? _]).
    exists done, s, rest, vs, (ex_world st1). split; [done|].
    split; [apply (succeeded_returned _ _ _ _ Hs Hnd1); intros n _; apply not_elem_of_nil|].
    apply succeeded_spec in Hs as (P1 & P2 & P3 & P4); [|done|intros n _; apply not_elem_of_nil]. cbn in P1, P2, P3.
    rewrite P1 in *. split_and!; [done|done| |by rewrite H3, P3, !fmap_app|done]. rewrite H2, P2. apply (left_id_L ∅ (∪)). }
  unfold conclude. destruct o as [[]|e|].
  - destruct Hrun as [vs Hs]. pose proof (succeeded_returned _ _ _ _ Hs Hnd ltac:(intros n _; apply not_elem_of_nil)) as Hret.
    apply succeeded_spec in Hs as (H1 & H2 & H3 & H4); [|done|intros n _; apply not_elem_of_nil].
    eexists _, _. split; [reflexivity|]. by exists vs.
  - destruct (Hpre _ Hrun) as (done & s & rest & vs & w1 & Eo & Hret & Hh & P1 & P2 & P3 & P4). rewrite Hsort.
    pose proof (rollback_steps_spec (reverse order) st) as Hroll.
    assert (Hcomp : compensations (reverse order) st = undo done vs).
    { rewrite Eo. apply compensations_undo; [by rewrite <- Eo|done..]. }
    rewrite Hcomp in Hroll. destruct (rollback_steps (reverse order) st) as [st' stopped].
    destruct Hroll as (_ & _ & evs & R3 & R4). rewrite P3 in R3.
    destruct stopped; eexists _, _; (split; [reflexivity|]); by exists done, s, rest, vs, w1, (Raised e), (ex_world st), evs.
  - destruct (Hpre _ Hrun) as (done & s & rest & vs & w1 & Eo & Hret & Hh & P1 & P2 & P3 & P4).
    eexists _, _. split; [reflexivity|]. exists done, s, rest, vs, w1, Interrupted, (ex_world st), []. by rewrite app_nil_r.
Qed.

(** * Parallel runs *)

(** Steps run only after all their dependencies have. *)
Inductive runs_ok (d : DAG) : list string → Prop :=
| runs_nil : runs_ok d []
| runs_snoc l x : runs_ok d l → (∀ y, depends d x y → y ∈ l) → runs_ok d (l ++ [x]).

Record par_inv (d : DAG) (st : exec_state) (l : list string) : Prop := {
  pi_trace : ex_trace st = Ran <$> l;
  pi_runs : runs_ok d l;
  pi_completed : ∀ n, n ∈ ex_completed st → n ∈ l;
}.

Section Parallel.
Context (d : DAG) (Hwf : dag_wf d).

Lemma execute_step_inv s st st' o l :
  s ∈ dvalues d → par_inv d st l → (∀ y, y ∈ ws_dependencies s → y ∈ ex_completed st) →
  _execute_step s st = (st', o) →
  par_inv d st' (l ++ [ws_name s]) ∧ ex_completed st ⊆ ex_completed st' ∧
  (o = Returned tt → ws_name s ∈ ex_completed st').
Proof.
  intros Hs [Ht Hr Hc] Hdeps. unfold _execute_step.
  assert (Hdep : ∀ y, depends d (ws_name s) y → y ∈ l).
  { intros y Hy. unfold depends in Hy. rewrite deps_value in Hy by done. auto. }
  assert (Hp : ∀ res c w, (∀ n, n ∈ c → n ∈ ex_completed st ∨ n = ws_name s) →
    par_inv d (mkExec res c w (ex_trace st ++ [Ran (ws_name s)])) (l ++ [ws_name s])).
  { intros res c w Hsub. split; cbn [ex_trace ex_completed].
    - by rewrite Ht, fmap_app.
    - by constructor.
    - intros n Hn. apply elem_of_app. destruct (Hsub n Hn) as [?| ->]; [left; auto|right; left]. }
  destruct (handler _ _ _) as [[v|e|] w]; intros [= <- <-]; cbn [ex_completed].
  - split; [apply Hp; set_solver|]. split; set_solver.
  - split; [apply Hp; auto|]. done.
  - split; [apply Hp; auto|]. done.
Qed.

Definition group_ready (g : list WorkflowStep) (st : exec_state) : Prop :=
  ∀ s, s ∈ g → s ∈ dvalues d ∧ ∀ y, y ∈ ws_dependencies s → y ∈ ex_completed st.

Lemma group_ready_rest g s st st' :
  group_ready g st → ex_completed st ⊆ ex_completed st' →
  group_ready (filter (λ t, ws_name t ≠ ws_name s) g) st'.
Proof.
  intros Hg Hsub t [_ Ht]%list_elem_of_filter. destruct (Hg t Ht) as [? Hd]. split; [done|].
  intros y Hy. apply Hsub, Hd, Hy.
Qed.

Lemma drain_inv g st st' l :
  drain g st st' → group_ready g st → par_inv d st l → ∃ l', par_inv d st' l'.
Proof.
  intros Hd. revert l. induction Hd as [|g s st st1 st2 o Hin Hx _ IH]; intros l Hg Hi; [eauto|].
  destruct (Hg s Hin) as [Hs Hdeps].
  destruct (execute_step_inv s st st1 o l Hs Hi Hdeps Hx) as (Hi' & Hsub & _).
  eapply IH; [|exact Hi']. by eapply group_ready_rest.
Qed.

Lemma run_group_inv g st st' o l :
  run_group g st st' o → group_ready g st → par_inv d st l →
  ∃ l', par_inv d st' l' ∧
    (o = Returned tt → ex_completed st ⊆ ex_completed st' ∧
       ∀ s, s ∈ g → ws_name s ∈ ex_completed st').
Proof.
  intros Hd. revert l. induction Hd as [st|g s st st1 st2 o Hin Hx _ IH|g s st st1 st2 e Hin Hx Hdr
    |g s st st1 st2 Hin Hx Hdr]; intros l Hg Hi.
  - exists l. split; [done|]. intros _. split; [done|]. intros s Hs. by apply elem_of_nil in Hs.
  - destruct (Hg s Hin) as [Hs Hdeps].
    destruct (execute_step_inv s st st1 _ l Hs Hi Hdeps Hx) as (Hi' & Hsub & Hdone).
    destruct (IH (l ++ [ws_name s])) as (l' & Hl' & Hret); [by eapply group_ready_rest|done|].
    exists l'. split; [done|]. intros Ho. destruct (Hret Ho) as [Hsub' Hall].
    split; [by etrans|]. intros t Ht. destruct (decide (ws_name t = ws_name s)) as [->|Hne].
    + apply Hsub', Hdone. done.
    + apply Hall. by apply list_elem_of_filter.
  - destruct (Hg s Hin) as [Hs Hdeps].
    destruct (execute_step_inv s st st1 _ l Hs Hi Hdeps Hx) as (Hi' & Hsub & _).
    destruct (drain_inv _ _ _ _ Hdr ltac:(by eapply group_ready_rest) Hi') as [l' Hl']. by exists l'.
  - destruct (Hg s Hin) as [Hs Hdeps].
    destruct (execute_step_inv s st st1 _ l Hs Hi Hdeps Hx) as (Hi' & Hsub & _).
    destruct (drain_inv _ _ _ _ Hdr ltac:(by eapply group_ready_rest) Hi') as [l' Hl']. by exists l'.
Qed.

Lemma run_groups_inv groups st st' o l pre :
  run_groups groups st st' o → layered (pre ++ groups) →
  (∀ s, s ∈ mjoin (pre ++ groups) → s ∈ dvalues d) →
  (∀ s, s ∈ mjoin pre → ws_name s ∈ ex_completed st) →
  par_inv d st l → ∃ l', par_inv d st' l'.
Proof.
  intros Hr. revert l pre. induction Hr as [st|g gs st st1 st2 o Hg _ IH|g gs st st1 o Hg Ho];
    intros l pre Hlay Hval Hpre Hi; [eauto| |].
  all: assert (Hready : group_ready g st).
  1, 3: (intros s Hs; split;
    [apply Hval; rewrite join_app, elem_of_app; right; simpl; set_solver|];
    intros y Hy; destruct (Hlay (length pre) g s y) as (j & h & t & Hj & Hh & Ht & <-);
    [by rewrite lookup_app_r, Nat.sub_diag by lia|done|done|];
    rewrite lookup_app_l in Hh by done; apply Hpre, list_elem_of_join; exists h;
    split; [done|]; by eapply list_elem_of_lookup_2).
  - destruct (run_group_inv g st st1 _ l Hg Hready Hi) as (l1 & Hi1 & Hret).
    destruct (Hret eq_refl) as [Hsub Hall].
    apply (IH l1 (pre ++ [g])); [by rewrite <- app_assoc|by rewrite <- app_assoc| |done].
    intros s. rewrite join_app. simpl. rewrite app_nil_r, elem_of_app.
    intros [Hs|Hs]; [apply Hsub; auto|auto].
  - destruct (run_group_inv g st st1 _ l Hg Hready Hi) as (l1 & Hi1 & _). eauto.
Qed.
End Parallel.

(** Parallel execution, for every interleaving of the steps of a group. A
    step runs only after all its dependencies have run, every compensation
    comes after the last step has stopped, and on a failure the compensations
    are those of all completed steps with a rollback handler, in reverse
    dependency order. If some step lists a dependency twice, a failure skips
    every compensation. *)
Theorem execute_parallel_spec (steps : list WorkflowStep) (d : DAG) (w : W)
  (st : exec_state) (r : exec_result V)
  (Hinit : dag_init steps = Some (Ok d)) (Hrun : execute_parallel d w st r) :
  ∃ ran undone, ex_trace st = (Ran <$> ran) ++ undone ∧ runs_ok d ran ∧
  match r with
  | Finished _ => undone = []
  | ExecutionFailed => ∃ order, topological_sort d = Some (Ok order) ∧
      ordered d (ws_name <$> order) ∧ undone = compensations (reverse order) st
  | CircularDependencyRaised =>
      undone = [] ∧ ∃ s, s ∈ dvalues d ∧ ¬ NoDup (ws_dependencies s)
  | BaseExceptionRaised => ∃ order, undone `prefix_of` compensations (reverse order) st
  end.
Proof.
  unfold dag_init in Hinit. pose proof (dag_steps_wf steps) as Hwf.
  destruct (validate_cases _ Hwf) as [(s & y & Eo & _)|[Hcl [[Eo _]|[Eo (fin & Ho & Hall)]]]];
    rewrite Eo in Hinit; simplify_eq.
  set (d := dag_steps steps) in *.
  destruct Hrun as [groups st0 o st r Hg Hr Hc].
  assert (Hi0 : groups_inv d []).
  { split; [constructor|set_solver|intros i g s y Hi; by rewrite lookup_nil in Hi|set_solver]. }
  destruct (parallel_loop_ok d Hwf Hcl fin (length d) [] Ho Hall Hi0)
    as (groups' & Hg' & [_ Hs Hl _] & _); [lia|].
  unfold get_parallel_groups in Hg. change (completed_of []) with (∅ : gset string) in Hg'.
  rewrite Hg in Hg'. injection Hg' as <-.
  destruct (run_groups_inv d Hwf groups (exec_init w) st0 o [] []) as (ran & [Ht Hok _]);
    [exact Hr|exact Hl|exact Hs|intros s Hin; by apply elem_of_nil in Hin| |].
  { split; [done|constructor|]. intros n Hn. by apply elem_of_empty in Hn. }
  unfold conclude in Hc. destruct o as [u|e|].
  - injection Hc as <- <-. exists ran, []. by rewrite app_nil_r.
  - destruct (topological_sort_cases d Hwf Hcl fin Ho Hall) as [(order & Es & _ & Hord & _)|[Es Hdup]];
      rewrite Es in Hc.
    + pose proof (rollback_steps_spec (reverse order) st0) as Hroll.
      destruct (rollback_steps (reverse order) st0) as [st' stopped].
      destruct Hroll as (R1 & R2 & evs & R3 & [R4 R5]%rolled_back_prefix).
      assert (Hcomp : compensations (reverse order) st' = compensations (reverse order) st0)
        by (unfold compensations; by rewrite R1, R2).
      destruct stopped; injection Hc as <- <-; exists ran, evs; rewrite R3, Ht;
        (split; [done|]; split; [done|]); exists order; rewrite Hcomp; auto.
    + injection Hc as <- <-. exists ran, []. by rewrite app_nil_r.
  - injection Hc as <- <-. exists ran, []. rewrite app_nil_r. split; [done|]. split; [done|].
    exists []. apply prefix_nil.
Qed.

End Executor.

(** * Witnesses *)

(** Step "c" fails, the others return the state of the world. *)
Definition demo_handler (name : string) (_ : list (string * nat)) (w : nat)
  : outcome nat string * nat :=
  if decide (name = "c") then (Raised "boom", S w) else (Returned w, S w).

Definition demo_rollback (_ : string) (_ : option nat) (w : nat) : outcome unit string * nat :=
  (Raised "ignored", w).

Definition demo_dag : DAG := dag_steps demo_steps.

Definition demo_steps_in_order : list WorkflowStep :=
  [mkStep "a" [] true; mkStep "b" ["a"] true; mkStep "c" ["b"; "a"] true].

Lemma demo_ordered : ordered demo_dag (ws_name <$> demo_steps_in_order).
Proof.
  apply (ordered_snoc demo_dag ["a"; "b"] "c").
  - apply (ordered_snoc demo_dag ["a"] "b").
    + apply (ordered_snoc demo_dag [] "a"); [constructor|by_compute|].
      intros y Hy. vm_compute in Hy. by apply elem_of_nil in Hy.
    + by_compute.
    + intros y Hy. exact Hy.
  - by_compute.
  - intros y Hy. change (y ∈ ["b"; "a"]) in Hy. set_solver.
Qed.

Example demo_execution :
  (ex_trace nat nat <$> (fst <$> execute_sequential nat string nat demo_handler demo_rollback demo_dag 0%nat))
  = Some [Ran "a"; Ran "b"; Ran "c"; RolledBack "b" (Some 1%nat); RolledBack "a" (Some 0%nat)].
Proof. vm_compute. reflexivity. Qed.

Lemma execute_sequential_spec_witness :
  ∃ st, execute_sequential nat string nat demo_handler demo_rollback demo_dag 0%nat = Some (st, ExecutionFailed) ∧
  ∃ done s rest vs w1 x w2 undone, demo_steps_in_order = done ++ s :: rest ∧
    returned nat string nat demo_handler [] 0%nat done vs w1 ∧
    demo_handler (ws_name s) (zip (ws_name <$> done) vs) w1 = (x, w2) ∧
    ex_trace nat nat st = (Ran <$> (ws_name <$> done ++ [s])) ++ undone.
Proof.
  destruct (execute_sequential_spec nat string nat demo_handler demo_rollback demo_dag
    demo_steps_in_order 0%nat) as (st & r & E & Hr); [vm_compute; reflexivity|exact demo_ordered|].
  exists st. assert (r = ExecutionFailed) as -> by (vm_compute in E; injection E as _ <-; reflexivity). split; [exact E|].
  destruct Hr as (done & s & rest & vs & w1 & x & w2 & undone & H1 & H2 & H3 & H4 & _).
  exists done, s, rest, vs, w1, x, w2, undone. split_and!; assumption.
Defined.

(** One parallel run: "a", then "b", then "c" fails. *)
Definition demo_after (n : nat) : exec_state nat nat :=
  fst (run_steps nat string nat demo_handler (take n demo_steps_in_order) (exec_init nat nat 0%nat)).

Definition demo_end : exec_state nat nat :=
  fst (rollback_steps nat string nat demo_rollback (reverse demo_steps_in_order) (demo_after 3)).

Lemma demo_parallel_run :
  execute_parallel nat string nat demo_handler demo_rollback demo_dag 0%nat demo_end ExecutionFailed.
Proof.
  econstructor; [vm_compute; reflexivity| |].
  - eapply groups_next.
    { eapply group_step; [left|vm_compute; reflexivity|]. vm_compute. apply group_done. }
    eapply groups_next.
    { eapply group_step; [left|vm_compute; reflexivity|]. vm_compute. apply group_done. }
    eapply groups_fail.
    { eapply group_fail; [left|vm_compute; reflexivity|apply drain_stop]. }
    discriminate.
  - vm_compute. reflexivity.
Qed.

Lemma execute_parallel_spec_witness :
  ∃ ran undone, ex_trace nat nat demo_end = (Ran <$> ran) ++ undone ∧ runs_ok demo_dag ran ∧
  ∃ order, topological_sort demo_dag = Some (Ok order) ∧
    ordered demo_dag (ws_name <$> order) ∧ undone = compensations nat nat (reverse order) demo_end.
Proof.
  refine (execute_parallel_spec nat string nat demo_handler demo_rollback demo_steps demo_dag 0%nat
    demo_end ExecutionFailed _ demo_parallel_run).
  vm_compute. reflexivity.
Defined.
