(* ===== verification/Text.v ===== *)
(** Python text: strings as lists of code points, with the operations the
    streaming code uses (find, startswith, endswith, strip, split, join,
    decimal integers) and their laws. *)
From S2P Require Import Prelude.
From Stdlib Require Import ZArith Lia ZifyBool ZifyN Ascii.
From stdpp Require Import prelude list strings.
Local Open Scope list_scope.

Abbreviation text := (list N).

(** A literal: the code points of an ASCII string. *)
Fixpoint lit (s : string) : text :=
  match s with EmptyString => [] | String c s' => N_of_ascii c :: lit s' end.

Definition CR : N := 13.
Definition LF : N := 10.

(** [str.isspace] of one character, which is also [\s] of [re]. *)
Definition is_space (c : N) : bool :=
  ((9 <=? c) && (c <=? 13) || (28 <=? c) && (c <=? 32) || (c =? 133) || (c =? 160)
   || (c =? 5760) || (8192 <=? c) && (c <=? 8202) || (c =? 8232) || (c =? 8233)
   || (c =? 8239) || (c =? 8287) || (c =? 12288))%N.

(** Drop the leading characters that satisfy [p] ([lstrip]); both ends
    ([strip]). *)
Fixpoint lstrip_by (p : N → bool) (s : text) : text :=
  match s with
  | [] => []
  | c :: s' => if p c then lstrip_by p s' else s
  end.

Definition rstrip_by (p : N → bool) (s : text) : text := reverse (lstrip_by p (reverse s)).
Definition strip (s : text) : text := rstrip_by is_space (lstrip_by is_space s).

Definition starts_with (p s : text) : bool := bool_decide (p `prefix_of` s).
Definition ends_with (s p : text) : bool := bool_decide (p `suffix_of` s).

(** [s.find(p)]: the first position where [p] occurs. *)
Fixpoint find (p s : text) : option nat :=
  if starts_with p s then Some 0%nat
  else match s with [] => None | _ :: s' => S <$> find p s' end.

(** [s.split(c)] on one character. *)
Fixpoint split_on (c : N) (s : text) : list text :=
  match s with
  | [] => [[]]
  | x :: s' =>
      if decide (x = c) then [] :: split_on c s'
      else match split_on c s' with [] => [[x]] | l :: ls => (x :: l) :: ls end
  end.

(** [sep.join(parts)] *)
Fixpoint join_with (sep : text) (parts : list text) : text :=
  match parts with
  | [] => []
  | [p] => p
  | p :: ps => p ++ sep ++ join_with sep ps
  end.

(** ** Laws *)

Lemma starts_with_true p s : starts_with p s = true ↔ ∃ r, s = p ++ r.
Proof. unfold starts_with. by rewrite bool_decide_eq_true. Qed.

Lemma find_Some p s i :
  find p s = Some i → ∃ a b, s = a ++ p ++ b ∧ length a = i ∧
    ∀ j, (j < i)%nat → starts_with p (drop j s) = false.
Proof.
  revert i. induction s as [|c s IH]; intros i; cbn [find].
  - destruct (starts_with p []) eqn:E; [|done]. intros [= <-].
    apply starts_with_true in E as [r E]. exists [], r. split; [done|]. split; [done|]. lia.
  - destruct (starts_with p (c :: s)) eqn:E.
    + intros [= <-]. apply starts_with_true in E as [r E]. exists [], r.
      split; [done|]. split; [done|]. lia.
    + intros (j & Hj & ->)%fmap_Some. destruct (IH j Hj) as (a & b & -> & Hl & Hmin).
      exists (c :: a), b. split; [done|]. split; [simpl; lia|].
      intros [|k] Hk; [done|]. apply Hmin. lia.
Qed.

Lemma find_None p s : find p s = None → ∀ j, starts_with p (drop j s) = false.
Proof.
  induction s as [|c s IH]; cbn [find].
  - destruct (starts_with p []) eqn:E; [done|]. intros _ [|j]; done.
  - destruct (starts_with p (c :: s)) eqn:E; [done|].
    intros Hn%fmap_None. intros [|j]; [done|]. by apply IH.
Qed.

Lemma split_on_nonempty c s : split_on c s ≠ [].
Proof. induction s as [|x s IH]; simpl; [done|]. destruct (decide _); [done|]. by destruct (split_on c s). Qed.

Lemma split_on_parts c s l : l ∈ split_on c s → c ∉ l.
Proof.
  revert l. induction s as [|x s IH]; intros l; simpl.
  - intros ->%list_elem_of_singleton. apply not_elem_of_nil.
  - destruct (decide (x = c)) as [->|Hne].
    + intros [->|Hl]%elem_of_cons; [apply not_elem_of_nil|auto].
    + destruct (split_on c s) as [|y ys] eqn:E.
      * intros ->%list_elem_of_singleton. set_solver.
      * intros [->|Hl]%elem_of_cons; [|apply IH; by right].
        intros [->|Hc]%elem_of_cons; [done|]. by apply (IH y); [left|].
Qed.

(** Splitting a text whose first part has no separator. *)
Lemma split_on_app c a s : c ∉ a → split_on c (a ++ c :: s) = a :: split_on c s.
Proof.
  induction a as [|x a IH]; intros Hc; simpl.
  - by rewrite decide_True.
  - rewrite decide_False by set_solver. rewrite IH by set_solver. done.
Qed.

Lemma split_on_none c a : c ∉ a → split_on c a = [a].
Proof.
  induction a as [|x a IH]; intros Hc; simpl; [done|].
  rewrite decide_False by set_solver. by rewrite IH by set_solver.
Qed.

Lemma join_split c s : join_with [c] (split_on c s) = s.
Proof.
  induction s as [|x s IH]; simpl; [done|]. destruct (decide (x = c)) as [->|].
  - destruct (split_on c s) as [|l ls] eqn:E; [by apply split_on_nonempty in E|]. simpl in *.
    by rewrite IH.
  - destruct (split_on c s) as [|l ls] eqn:E; [by apply split_on_nonempty in E|].
    destruct ls as [|l2 ls]; simpl in *; by rewrite IH.
Qed.

Lemma split_join c parts :
  parts ≠ [] → (∀ l, l ∈ parts → c ∉ l) → split_on c (join_with [c] parts) = parts.
Proof.
  induction parts as [|p ps IH]; intros Hne Hc; [done|].
  destruct ps as [|q ps]; [apply split_on_none, Hc; left|].
  change (join_with [c] (p :: q :: ps)) with (p ++ c :: join_with [c] (q :: ps)).
  rewrite split_on_app by (apply Hc; left). rewrite IH; [done|done|].
  intros l Hl. apply Hc. by right.
Qed.

Lemma lstrip_by_id p s : (∀ c, head s = Some c → p c = false) → lstrip_by p s = s.
Proof. destruct s as [|c s]; simpl; [done|]. intros H. by rewrite H. Qed.

Lemma rstrip_by_id p s : (∀ c, last s = Some c → p c = false) → rstrip_by p s = s.
Proof.
  intros H. unfold rstrip_by. rewrite lstrip_by_id; [apply reverse_involutive|].
  intros c Hc. apply H. rewrite <- (reverse_involutive s), last_reverse. done.
Qed.

(** ** Decimal integers: [str(n)] and [int(s)] *)

Fixpoint dec_digits (fuel : nat) (n : N) (acc : text) : text :=
  let acc' := (48 + n mod 10)%N :: acc in
  match fuel with
  | O => acc'
  | S fuel' => if (n <? 10)%N then acc' else dec_digits fuel' (n / 10)%N acc'
  end.

(** [str(n)] of a non-negative integer. *)
Definition str_of_N (n : N) : text := dec_digits (N.to_nat (N.log2 n)) n [].

(** [str(z)] *)
Definition str_of_Z (z : Z) : text :=
  if (z <? 0)%Z then 45%N :: str_of_N (Z.to_N (- z)) else str_of_N (Z.to_N z).

Definition is_dec (c : N) : bool := ((48 <=? c) && (c <=? 57))%N.

(** The digits of [int(s)], with single underscores between digits; [prev]
    says that the previous character was a digit. *)
Fixpoint int_digits (prev : bool) (acc : N) (s : text) : option N :=
  match s with
  | [] => if prev then Some acc else None
  | c :: s' =>
      if is_dec c then int_digits true (10 * acc + (c - 48))%N s'
      else if (c =? 95)%N && prev then int_digits false acc s'
      else None
  end.

(** [int(s)] on ASCII digits: surrounding whitespace, a sign, digits. *)
Definition py_int (s : text) : option Z :=
  match strip s with
  | 45%N :: s' => (λ n, (- Z.of_N n)%Z) <$> int_digits false 0 s'
  | 43%N :: s' => Z.of_N <$> int_digits false 0 s'
  | s' => Z.of_N <$> int_digits false 0 s'
  end.

Lemma is_dec_digit n : is_dec (48 + n mod 10)%N = true.
Proof. unfold is_dec. pose proof (N.mod_lt n 10 ltac:(done)) as Hm. revert Hm. generalize (N.modulo n 10). intros m Hm. lia. Qed.

Lemma dec_digits_spec fuel n acc :
  (n < 2 ^ N.of_nat (S fuel))%N → Forall (λ c, is_dec c = true) acc →
  let out := dec_digits fuel n acc in
  Forall (λ c, is_dec c = true) out ∧ out ≠ [] ∧
  ∀ a s, int_digits true a (out ++ s) = int_digits true (a * 10 ^ N.of_nat (length out - length acc) + n)%N (acc ++ s)
         ∧ int_digits false 0 (out ++ s) = int_digits true n (acc ++ s)
         ∧ (length acc < length out)%nat.
Proof.
  revert n acc. induction fuel as [|fuel IH]; intros n acc Hn Hacc; cbn [dec_digits].
  - assert (n < 10)%N by (change (N.of_nat 1) with 1%N in Hn; rewrite N.pow_1_r in Hn; lia). rewrite N.mod_small by done.
    assert (Hd : is_dec (48 + n)%N = true) by (unfold is_dec; lia).
    split; [by constructor|]. split; [done|]. intros a s. cbn [app int_digits length].
    rewrite Hd. replace (48 + n - 48)%N with n by lia.
    replace (S (length acc) - length acc)%nat with 1%nat by lia.
    split; [f_equal; lia|]. split; [f_equal; lia|lia].
  - assert (Hd : is_dec (48 + n mod 10)%N = true) by apply is_dec_digit.
    destruct (N.ltb_spec n 10).
    + rewrite N.mod_small in * by done. split; [by constructor|]. split; [done|].
      intros a s. cbn [app int_digits length]. rewrite Hd.
      replace (48 + n - 48)%N with n by lia.
      replace (S (length acc) - length acc)%nat with 1%nat by lia.
      split; [f_equal; lia|]. split; [f_equal; lia|lia].
    + assert (Hdiv : (n / 10 < 2 ^ N.of_nat (S fuel))%N).
      { apply N.Div0.div_lt_upper_bound. rewrite Nat2N.inj_succ, N.pow_succ_r' in Hn. lia. }
      destruct (IH (n / 10)%N ((48 + n mod 10)%N :: acc) Hdiv) as (H1 & H2 & H3); [by constructor|].
      split; [done|]. split; [done|]. intros a s. destruct (H3 a s) as (E1 & E2 & E3).
      cbn [length app int_digits] in *. rewrite Hd in *.
      pose proof (N.div_mod n 10 ltac:(lia)) as Hdm.
      replace (48 + n mod 10 - 48)%N with (n mod 10)%N in * by lia.
      rewrite E1, E2. set (L := length (dec_digits fuel _ _)) in *.
      replace (L - length acc)%nat with (S (L - S (length acc)))%nat by lia.
      rewrite Nat2N.inj_succ, N.pow_succ_r'. split; [f_equal; lia|]. split; [f_equal; lia|lia].
Qed.

Lemma str_of_N_spec n :
  Forall (λ c, is_dec c = true) (str_of_N n) ∧ str_of_N n ≠ [] ∧
  int_digits false 0 (str_of_N n) = Some n.
Proof.
  unfold str_of_N.
  destruct (dec_digits_spec (N.to_nat (N.log2 n)) n []) as (H1 & H2 & H3).
  - rewrite Nat2N.inj_succ, N2Nat.id. destruct (decide (n = 0%N)) as [->|]; [done|].
    apply N.log2_spec. lia.
  - constructor.
  - split; [done|]. split; [done|]. destruct (H3 0%N []) as (_ & E & _).
    rewrite !app_nil_r in E. rewrite E. done.
Qed.

Lemma dec_not_space c : is_dec c = true → is_space c = false.
Proof. unfold is_dec, is_space. lia. Qed.

(** [int(str(z)) = z] *)
Lemma py_int_str z : py_int (str_of_Z z) = Some z.
Proof.
  assert (Hstrip : ∀ s, (∀ c, c ∈ s → is_space c = false) → strip s = s).
  { intros s Hs. unfold strip. rewrite (lstrip_by_id _ s), rstrip_by_id; [done| |].
    - intros c Hc. apply Hs. by apply last_Some_elem_of.
    - intros c Hc. apply Hs. destruct s; [done|]. simpl in Hc. simplify_eq. left. }
  unfold py_int, str_of_Z. destruct (Z.ltb_spec z 0) as [Hz|Hz].
  - destruct (str_of_N_spec (Z.to_N (- z))) as (H1 & H2 & H3). rewrite Hstrip.
    + rewrite H3. simpl. f_equal. lia.
    + intros c [->|Hc]%elem_of_cons; [done|]. rewrite Forall_forall in H1. by apply dec_not_space, H1.
  - destruct (str_of_N_spec (Z.to_N z)) as (H1 & H2 & H3). rewrite Forall_forall in H1. rewrite Hstrip.
    + destruct (str_of_N (Z.to_N z)) as [|c s] eqn:E; [done|].
      assert (Hc : is_dec c = true) by (apply H1; left).
      assert (Hr : (match c :: s with
        | 45%N :: s' => (λ n, (- Z.of_N n)%Z) <$> int_digits false 0 s'
        | 43%N :: s' => Z.of_N <$> int_digits false 0 s'
        | s' => Z.of_N <$> int_digits false 0 s'
        end) = Z.of_N <$> int_digits false 0 (c :: s)).
      { clear -Hc. unfold is_dec in Hc. destruct c as [|p]; [done|].
        do 6 (destruct p as [p|p|]; try done). }
      rewrite Hr, H3. simpl. f_equal. lia.
    + intros c Hc. by apply dec_not_space, H1.
Qed.
