(* ===== verification/Pipeline.v ===== *)
(** The text middleware of the stream package
    (src/packages/stream/src/orditect/stream/pipeline/): newline
    normalisation, tail cleaning, chunk splitting, thinking demultiplexing and
    placeholder-marker detection.

    A middleware is an asynchronous generator; its model maps the list of the
    chunks it pulls to the list of the chunks it yields.  The clock that
    [MarkerDetector.process] reads after every text chunk is one more component
    of that input, and the comparison [now - last_flush > flush_timeout] of two
    clock readings is the parameter [expired]. *)
From Stdlib Require Import ZArith Lia ZifyBool.
From stdpp Require Import prelude gmap list strings.
From S2P Require Import Prelude Text.
Local Open Scope list_scope.

(** ** NewlineNormalizer (newline.py) *)
Module Newline.

(** [re.sub(r"\r\n|\r", "\n", chunk)] *)
Fixpoint crlf_sub (s : text) : text :=
  match s with
  | [] => []
  | c :: s' =>
      if decide (c = CR)
      then LF :: match s' with d :: s'' => if decide (d = LF) then crlf_sub s'' else crlf_sub s' | [] => [] end
      else c :: crlf_sub s'
  end.

(** [re.sub(r"\n+", "\n", t)]; [prev]: the previous character was a newline. *)
Fixpoint multi_nl_sub (prev : bool) (s : text) : text :=
  match s with
  | [] => []
  | c :: s' =>
      if decide (c = LF) then (if prev then [] else [LF]) ++ multi_nl_sub true s'
      else c :: multi_nl_sub false s'
  end.

(** One round of the loop: the pending flag, and the text yielded, if any. *)
Definition normalize_chunk (pending_nl : bool) (chunk : text) : bool * list text :=
  let t := multi_nl_sub false (crlf_sub chunk) in
  let t := if pending_nl then LF :: lstrip_by (λ c, bool_decide (c = LF)) t else t in
  let pending := ends_with t [LF] in
  let t := if pending then take (length t - 1) t else t in
  (pending, if decide (t = []) then [] else [t]).

Fixpoint newline_process (pending_nl : bool) (chunks : list text) : list text :=
  match chunks with
  | [] => []
  | chunk :: chunks' =>
      let '(pending, out) := normalize_chunk pending_nl chunk in
      out ++ newline_process pending chunks'
  end.

(** *** Specification: one pass over the whole text.

    Every maximal run of CR and LF becomes one LF; a run at the very end is
    dropped.  [pending]: a run has just been read. *)
Definition is_nl (c : N) : bool := bool_decide (c = CR) || bool_decide (c = LF).

Fixpoint squeeze (pending : bool) (s : text) : text :=
  match s with
  | [] => []
  | c :: s' =>
      if is_nl c then squeeze true s'
      else (if pending then [LF] else []) ++ c :: squeeze false s'
  end.

(** The flag after reading [s]. *)
Fixpoint pending_after (pending : bool) (s : text) : bool :=
  match s with [] => pending | c :: s' => pending_after (is_nl c) s' end.

Lemma squeeze_app p a b :
  squeeze p (a ++ b) = squeeze p a ++ squeeze (pending_after p a) b.
Proof.
  revert p. induction a as [|c a IH]; intros p; simpl; [done|].
  destruct (is_nl c); rewrite IH; [done|]. by rewrite <- !app_assoc.
Qed.

(** The two substitutions together, as one pass: a run becomes one LF, also at
    the end.  [prev]: inside a run whose LF has been written. *)
Fixpoint collapse (prev : bool) (s : text) : text :=
  match s with
  | [] => []
  | c :: s' =>
      if is_nl c then (if prev then [] else [LF]) ++ collapse true s'
      else c :: collapse false s'
  end.

Lemma is_nl_LF : is_nl LF = true. Proof. done. Qed.
Lemma is_nl_CR : is_nl CR = true. Proof. done. Qed.
Lemma is_nl_false c : c ≠ CR → c ≠ LF → is_nl c = false.
Proof. intros. unfold is_nl. by rewrite !bool_decide_eq_false_2. Qed.

Lemma subs_collapse n s prev :
  (length s ≤ n)%nat → multi_nl_sub prev (crlf_sub s) = collapse prev s.
Proof.
  revert s prev. induction n as [|n IH]; intros [|c s] prev Hl; simpl in Hl; try done; [lia|].
  cbn [crlf_sub collapse]. destruct (decide (c = CR)) as [->|Hc].
  - rewrite is_nl_CR. cbn [multi_nl_sub]. rewrite decide_True by done. f_equal.
    destruct s as [|d s]; [done|]. destruct (decide (d = LF)) as [->|].
    + rewrite IH by (simpl in Hl; lia). cbn [collapse]. by rewrite is_nl_LF.
    + by rewrite IH by lia.
  - cbn [multi_nl_sub]. destruct (decide (c = LF)) as [->|].
    + rewrite is_nl_LF. by rewrite IH by lia.
    + rewrite is_nl_false by done. by rewrite IH by lia.
Qed.

(** What [collapse] writes is what [squeeze] writes, then the pending LF. *)
Lemma collapse_squeeze s :
  collapse false s = squeeze false s ++ (if pending_after false s then [LF] else []) ∧
  collapse true s = drop 1 (squeeze true s ++ (if pending_after true s then [LF] else [])) ∧
  (∃ r, squeeze true s ++ (if pending_after true s then [LF] else []) = LF :: r).
Proof.
  induction s as [|c s (IH1 & IH2 & r & IH3)]; simpl; [by split_and!; eauto|].
  destruct (is_nl c) eqn:E.
  - rewrite IH2, IH3. simpl. split_and!; eauto.
  - rewrite IH1. simpl. split_and!; eauto.
Qed.

Lemma collapse_true_lstrip s :
  lstrip_by (λ c, bool_decide (c = LF)) (collapse false s) = collapse true s.
Proof.
  assert (Ht : ∀ s, lstrip_by (λ c, bool_decide (c = LF)) (collapse true s) = collapse true s).
  { clear. induction s as [|c s IH]; simpl; [done|]. destruct (is_nl c) eqn:E; simpl; [done|].
    rewrite bool_decide_eq_false_2; [done|]. intros ->. done. }
  destruct s as [|c s]; simpl; [done|]. destruct (is_nl c) eqn:E; simpl; [apply Ht|].
  rewrite bool_decide_eq_false_2; [done|]. intros ->. done.
Qed.

Lemma squeeze_last p s : last (squeeze p s) ≠ Some LF.
Proof.
  assert (H : ∀ s p, last (squeeze p s) ≠ Some LF ∧ ∀ c, c ≠ LF → last (c :: squeeze p s) ≠ Some LF).
  { clear. induction s as [|c s IH]; intros p; simpl.
    - split; [done|]. intros c Hc [= ->]. done.
    - destruct (is_nl c) eqn:E; [by apply IH|].
      assert (Hc : c ≠ LF) by (intros ->; done).
      destruct (IH false) as [_ H2]. split.
      + destruct p; simpl; [|by apply H2]. specialize (H2 c Hc).
        destruct (squeeze false s); done.
      + intros d Hd. specialize (H2 c Hc). destruct p; simpl; destruct (squeeze false s); done. }
  apply H.
Qed.

Lemma take_snoc {A} (l : list A) x : take (length (l ++ [x]) - 1) (l ++ [x]) = l.
Proof. rewrite length_app, Nat.add_sub. apply take_app_length. Qed.

Lemma normalize_chunk_spec p chunk :
  normalize_chunk p chunk =
  (pending_after p chunk, if decide (squeeze p chunk = []) then [] else [squeeze p chunk]).
Proof.
  unfold normalize_chunk. rewrite (subs_collapse (length chunk)) by done.
  destruct (collapse_squeeze chunk) as (H1 & H2 & r & H3).
  set (t := if p then _ else _).
  assert (Ht : t = squeeze p chunk ++ (if pending_after p chunk then [LF] else [])).
  { subst t. destruct p; [|done]. rewrite collapse_true_lstrip, H2, H3. done. }
  clearbody t. subst t. destruct (pending_after p chunk).
  - assert (Hs : ends_with (squeeze p chunk ++ [LF]) [LF] = true)
      by (unfold ends_with; rewrite bool_decide_eq_true; by eexists).
    by rewrite Hs, take_snoc.
  - rewrite app_nil_r.
    assert (Hs : ends_with (squeeze p chunk) [LF] = false).
    { unfold ends_with. rewrite bool_decide_eq_false. intros [k Hk].
      apply (squeeze_last p chunk). by rewrite Hk, last_snoc. }
    by rewrite Hs.
Qed.

(** [NewlineNormalizer.process] does not depend on how the source cuts the
    text into chunks: the concatenation of what it yields is the concatenation
    of its input with every maximal run of CR and LF replaced by one LF and
    the run at the end, if any, dropped; and no chunk it yields is empty. *)
Theorem newline_process_spec chunks :
  mjoin (newline_process false chunks) = squeeze false (mjoin chunks) ∧
  [] ∉ newline_process false chunks.
Proof.
  assert (H : ∀ p, mjoin (newline_process p chunks) = squeeze p (mjoin chunks) ∧
                   [] ∉ newline_process p chunks); [|apply H].
  induction chunks as [|c cs IH]; intros p; [split; [done|apply not_elem_of_nil]|].
  cbn [newline_process]. change (mjoin (c :: cs)) with (c ++ mjoin cs).
  rewrite normalize_chunk_spec, squeeze_app, join_app.
  destruct (IH (pending_after p c)) as [IH1 IH2]. rewrite IH1.
  destruct (decide (squeeze p c = [])) as [->|Hne]; simpl; [done|].
  rewrite app_nil_r. split; [done|]. rewrite elem_of_cons. intros [?|?]; [congruence|done].
Qed.

(** The normalised text has no CR, no two newlines in a row and no newline at
    its end. *)
Lemma squeeze_shape s :
  CR ∉ squeeze false s ∧ last (squeeze false s) ≠ Some LF ∧
  ∀ i, squeeze false s !! i = Some LF → squeeze false s !! S i ≠ Some LF.
Proof.
  split; [|split; [apply squeeze_last|]].
  - generalize false. induction s as [|c s IH]; intros p; simpl; [apply not_elem_of_nil|].
    destruct (is_nl c) eqn:E; [apply IH|]. assert (c ≠ CR) by (intros ->; done).
    specialize (IH false). destruct p; simpl; rewrite ?elem_of_cons; naive_solver.
  - assert (H : ∀ p i, squeeze p s !! i = Some LF → squeeze p s !! S i ≠ Some LF); [|apply H].
    induction s as [|c s IH]; intros p i; simpl; [by rewrite lookup_nil|].
    destruct (is_nl c) eqn:E; [apply IH|]. assert (c ≠ LF) by (intros ->; done).
    destruct p; simpl.
    + destruct i as [|[|i]]; simpl; [congruence..|apply IH].
    + destruct i as [|i]; simpl; [congruence|apply IH].
Qed.

End Newline.

(** ** TailCleaner (tail.py) *)
Module Tail.

(** [_WS_ONLY_RE.fullmatch(chunk)] *)
Definition ws_only (chunk : text) : bool := forallb is_space chunk.

Fixpoint tail_process (buffer chunks : list text) : list text :=
  match chunks with
  | [] => []
  | chunk :: chunks' =>
      if ws_only chunk then tail_process (buffer ++ [chunk]) chunks'
      else buffer ++ chunk :: tail_process [] chunks'
  end.

(** [TailCleaner.process] yields its input without the whitespace-only
    chunks at its end, unchanged and in order; and these are all the
    whitespace-only chunks at the end, so the last chunk it yields has text. *)
Theorem tail_process_spec chunks :
  ∃ tail, chunks = tail_process [] chunks ++ tail ∧
    Forall (λ c, ws_only c = true) tail ∧
    ∀ c, last (tail_process [] chunks) = Some c → ws_only c = false.
Proof.
  assert (H : ∀ buffer, Forall (λ c, ws_only c = true) buffer →
    ∃ tail, buffer ++ chunks = tail_process buffer chunks ++ tail ∧
      Forall (λ c, ws_only c = true) tail ∧
      ∀ c, last (tail_process buffer chunks) = Some c → ws_only c = false);
    [|by apply (H [])].
  induction chunks as [|c cs IH]; intros buffer Hb; simpl.
  - exists buffer. by rewrite app_nil_r.
  - destruct (ws_only c) eqn:E.
    + destruct (IH (buffer ++ [c])) as (tail & H1 & H2 & H3); [by apply Forall_app; auto|].
      exists tail. rewrite <- app_assoc in H1. done.
    + destruct (IH []) as (tail & H1 & H2 & H3); [done|]. exists tail.
      split; [by rewrite <- app_assoc; simpl in *; rewrite <- H1|]. split; [done|].
      intros d. rewrite last_app_cons. destruct (tail_process [] cs) as [|x xs] eqn:Et.
      * intros [= <-]. done.
      * intros Hd. apply H3. by rewrite last_cons_cons in Hd.
Qed.

End Tail.

(** ** Source chunks, ChunkSplitter and ThinkingDemux (protocols/source.py,
    thinking.py) *)

Record SourceChunk := { text_ : option text; thinking : option text;
                        references : option (list row); finish : bool }.

Definition chunk_empty : SourceChunk :=
  {| text_ := None; thinking := None; references := None; finish := false |}.
Definition text_chunk (t : text) : SourceChunk :=
  {| text_ := Some t; thinking := None; references := None; finish := false |}.
Definition thinking_chunk (t : text) : SourceChunk :=
  {| text_ := None; thinking := Some t; references := None; finish := false |}.
Definition references_chunk (r : list row) : SourceChunk :=
  {| text_ := None; thinking := None; references := Some r; finish := false |}.
Definition finish_chunk : SourceChunk :=
  {| text_ := None; thinking := None; references := None; finish := true |}.

(** [ChunkSplitter.process] on one chunk. *)
Definition split_chunk (c : SourceChunk) : list SourceChunk :=
  match references c with Some r => [references_chunk r] | None => [] end
  ++ match thinking c with Some t => [thinking_chunk t] | None => [] end
  ++ match text_ c with Some t => [text_chunk t] | None => [] end
  ++ if finish c then [finish_chunk] else [].

Definition split_process (chunks : list SourceChunk) : list SourceChunk :=
  mjoin (split_chunk <$> chunks).

Inductive ThinkingMode : Type := INLINE | SEPARATE | SUPPRESS.
#[global] Instance ThinkingMode_eq_dec : EqDecision ThinkingMode.
Proof. solve_decision. Defined.

(** [ThinkingDemux.process]: the chunks yielded and [_collected] after. *)
Fixpoint demux_process (mode : ThinkingMode) (collected : list text) (chunks : list SourceChunk)
  : list SourceChunk * list text :=
  match chunks with
  | [] => ([], collected)
  | c :: cs =>
      match thinking c with
      | Some t =>
          match mode with
          | INLINE => let '(out, col) := demux_process mode collected cs in (c :: out, col)
          | SEPARATE => demux_process mode (collected ++ [t]) cs
          | SUPPRESS => demux_process mode collected cs
          end
      | None => let '(out, col) := demux_process mode collected cs in (c :: out, col)
      end
  end.

(** [pop_collected]: the text and the cleared list. *)
Definition pop_collected (collected : list text) : text * list text := (mjoin collected, []).

(** A chunk with exactly one field. *)
Definition single_field (c : SourceChunk) : Prop :=
  (∃ t, c = text_chunk t) ∨ (∃ t, c = thinking_chunk t) ∨ (∃ r, c = references_chunk r) ∨ c = finish_chunk.

Lemma split_process_single chunks c : c ∈ split_process chunks → single_field c.
Proof.
  unfold split_process, single_field. rewrite list_elem_of_join.
  intros (l & Hl & (x & -> & _)%list_elem_of_fmap). revert Hl. unfold split_chunk.
  destruct (references x), (thinking x), (text_ x), (finish x); simpl; set_unfold; naive_solver.
Qed.

(** Splitting keeps every field in order. *)
Lemma split_process_fields chunks :
  omap text_ (split_process chunks) = omap text_ chunks ∧
  omap thinking (split_process chunks) = omap thinking chunks ∧
  omap references (split_process chunks) = omap references chunks.
Proof.
  unfold split_process. induction chunks as [|c cs (H1 & H2 & H3)]; [done|].
  change (mjoin (split_chunk <$> c :: cs)) with (split_chunk c ++ mjoin (split_chunk <$> cs)).
  rewrite !omap_app, H1, H2, H3. unfold split_chunk.
  change (omap text_ (c :: cs)) with (match text_ c with Some y => y :: omap text_ cs | None => omap text_ cs end).
  change (omap thinking (c :: cs)) with (match thinking c with Some y => y :: omap thinking cs | None => omap thinking cs end).
  change (omap references (c :: cs)) with (match references c with Some y => y :: omap references cs | None => omap references cs end).
  destruct (references c), (thinking c), (text_ c), (finish c); done.
Qed.

Lemma demux_process_spec mode collected chunks :
  demux_process mode collected chunks =
  (if decide (mode = INLINE) then chunks else filter (λ c, thinking c = None) chunks,
   collected ++ if decide (mode = SEPARATE) then omap thinking chunks else []).
Proof.
  assert (HI : ∀ chunks collected, demux_process INLINE collected chunks = (chunks, collected)).
  { clear. induction chunks as [|c cs IH]; intros col; simpl; [done|]. rewrite IH. by destruct (thinking c). }
  destruct mode; simpl.
  - rewrite HI. by rewrite app_nil_r.
  - revert collected. induction chunks as [|c cs IH]; intros col; simpl; [by rewrite app_nil_r|].
    rewrite filter_cons. destruct (thinking c) as [t|] eqn:E.
    + rewrite IH, decide_False by done. by rewrite <- app_assoc.
    + by rewrite IH, decide_True.
  - rewrite app_nil_r. induction chunks as [|c cs IH]; simpl; [done|].
    rewrite filter_cons. destruct (thinking c) as [t|] eqn:E.
    + by rewrite IH, decide_False.
    + by rewrite IH, decide_True.
Qed.

(** ** MarkerDetector (marker.py) *)

Record MarkerHit := { context_text : text; placeholder_id : option text; char_offset : Z }.
Record MarkedChunk := { mtext : option text; hits : list MarkerHit; mfinish : bool }.

Definition marked_text (t : text) : MarkedChunk := {| mtext := Some t; hits := []; mfinish := false |}.
Definition marked_hit (ctx : text) : MarkedChunk :=
  {| mtext := None; hits := [{| context_text := ctx; placeholder_id := None; char_offset := 0 |}];
     mfinish := false |}.
Definition marked_finish : MarkedChunk := {| mtext := None; hits := []; mfinish := true |}.

(** The three context strategies; any other word behaves as [paragraph]. *)
Inductive context_strategy : Type := FULL | HEADING | PARAGRAPH.

Definition HASH : N := 35.

(** [count_hash s]: the number of leading [#]. *)
Fixpoint count_hash (s : text) : nat :=
  match s with c :: s' => if decide (c = HASH) then S (count_hash s') else 0%nat | [] => 0%nat end.

(** [#{1,6}] and then a character of the class [p], at the start of [s]. *)
Definition heading_here (p : N → bool) (s : text) : bool :=
  let n := count_hash s in
  (1 <=? n)%nat && (n <=? 6)%nat && match drop n s with c :: _ => p c | [] => false end.

(** [list(re.finditer(r"^#{1,6}\s", text, MULTILINE))[-1].start()]: the last
    line start where a heading begins; [at_start]: a line starts here, [i]:
    the position, [best]: the last heading so far. *)
Fixpoint last_heading (at_start : bool) (i : nat) (best : option nat) (s : text) : option nat :=
  match s with
  | [] => best
  | c :: s' =>
      last_heading (bool_decide (c = LF)) (S i)
        (if at_start && heading_here is_space s then Some i else best) s'
  end.

(** [_FLUSH_TRIGGER_RE.search]: a newline character that is not followed by
    white space and then an exclamation mark and a bracket, or a heading
    marker and a space at the start of a line. *)
Fixpoint flush_trigger (at_start : bool) (s : text) : bool :=
  match s with
  | [] => false
  | c :: s' =>
      (Newline.is_nl c && negb (starts_with (lit "![") (lstrip_by is_space s')))
      || (at_start && heading_here (λ d, bool_decide (d = 32%N)) s)
      || flush_trigger (bool_decide (c = LF)) s'
  end.

(** [_extract_context]; an empty piece of the split is blank and goes with the
    blank paragraphs, so splitting at every newline is splitting at runs. *)
Definition _extract_context (strategy : context_strategy) (preceding : text) : text :=
  let t := strip preceding in
  if decide (t = []) then [] else
  match strategy with
  | FULL => t
  | HEADING =>
      match last_heading true 0 None t with
      | Some i => strip (drop i t)
      | None => t
      end
  | PARAGRAPH =>
      match last (filter (λ p, strip p ≠ []) (split_on LF t)) with
      | Some p => strip p
      | None => []
      end
  end.

Section Marker.

Context (marker : text) (flush_threshold : nat) (strategy : context_strategy).
Context {T : Type} (expired : T → T → bool).

(** The loop of [_rtrim_partial_marker], from [i] down to 1. *)
Fixpoint rtrim_loop (i : nat) (s : text) : text * text :=
  match i with
  | O => (s, [])
  | S j =>
      if ends_with s (take i marker) then (take (length s - i) s, drop (length s - i) s)
      else rtrim_loop j s
  end.

Definition _rtrim_partial_marker (s : text) : text * text := rtrim_loop (length marker - 1) s.

(** The loop that takes the complete markers out of the buffer: what it
    yields and the buffer it leaves; [None]: out of fuel. *)
Fixpoint take_markers (fuel : nat) (buffer : text) : option (list MarkedChunk * text) :=
  match find marker buffer with
  | None => Some ([], buffer)
  | Some pos =>
      match fuel with
      | O => None
      | S fuel' =>
          let preceding := take pos buffer in
          '(outs, rest) ← take_markers fuel' (drop (pos + length marker) buffer);
          Some ((if decide (preceding = []) then [] else [marked_text preceding])
                ++ marked_hit (_extract_context strategy preceding) :: outs, rest)
      end
  end.

Definition _drain_buffer (buffer : text) : option (list MarkedChunk) :=
  '(outs, rest) ← take_markers (length buffer) buffer;
  Some (outs ++ if decide (rest = []) then [] else [marked_text rest]).

(** The buffer and [last_flush] after one text chunk read at time [now]. *)
Definition marker_step (buffer : text) (last_flush now : T) (t : text)
  : option (list MarkedChunk * (text * T)) :=
  let buffer := buffer ++ t in
  '(outs, buffer') ← take_markers (length buffer) buffer;
  let last_flush := if decide (outs = []) then last_flush else now in
  if (flush_threshold <=? length buffer')%nat && flush_trigger true buffer' || expired now last_flush
  then
    let '(safe, pending) := _rtrim_partial_marker buffer' in
    if decide (safe = []) then Some (outs, (buffer', last_flush))
    else Some (outs ++ [marked_text safe], (pending, now))
  else Some (outs, (buffer', last_flush)).

(** [process], on the chunks with the clock readings made for them. *)
Fixpoint marker_process (buffer : text) (last_flush : T) (chunks : list (SourceChunk * T))
  : option (list MarkedChunk) :=
  match chunks with
  | [] =>
      outs ← _drain_buffer buffer; Some (outs ++ [marked_finish])
  | (c, now) :: cs =>
      if finish c then
        outs ← _drain_buffer buffer; Some (outs ++ [marked_finish])
      else
        match text_ c with
        | None => marker_process buffer last_flush cs
        | Some t =>
            '(outs, (buffer', last_flush')) ← marker_step buffer last_flush now t;
            outs' ← marker_process buffer' last_flush' cs;
            Some (outs ++ outs')
        end
  end.

(** *** Specification: the markers of the whole text, leftmost first. *)

Inductive item : Type := Char (c : N) | Hit.

(** [scan skip s]: [skip] characters belong to the marker just read. *)
Fixpoint scan (skip : nat) (s : text) : list item :=
  match s with
  | [] => []
  | c :: s' =>
      match skip with
      | S k => scan k s'
      | O => if starts_with marker s then Hit :: scan (length marker - 1) s' else Char c :: scan 0 s'
      end
  end.

(** The same view of what is yielded. *)
Definition items_of (m : MarkedChunk) : list item :=
  match mtext m with Some t => Char <$> t | None => [] end ++ ((λ _, Hit) <$> hits m).

Definition items (ms : list MarkedChunk) : list item := mjoin (items_of <$> ms).

(** The text of the chunks up to the first that finishes. *)
Fixpoint text_until_finish (chunks : list SourceChunk) : text :=
  match chunks with
  | [] => []
  | c :: cs => if finish c then [] else default [] (text_ c) ++ text_until_finish cs
  end.

Lemma scan_skip a r : scan (length a) (a ++ r) = scan 0 r.
Proof. induction a as [|c a IH]; simpl; [done|apply IH]. Qed.

Lemma scan_free a r :
  (∀ j, (j < length a)%nat → starts_with marker (drop j (a ++ r)) = false) →
  scan 0 (a ++ r) = (Char <$> a) ++ scan 0 r.
Proof.
  induction a as [|c a IH]; intros H; [done|].
  pose proof (H 0%nat ltac:(simpl; lia)) as H0. simpl in H0.
  cbn [app scan]. rewrite H0. cbn. f_equal. apply IH. intros j Hj. apply (H (S j)). simpl. lia.
Qed.

Lemma scan_hit r : marker ≠ [] → scan 0 (marker ++ r) = Hit :: scan 0 r.
Proof.
  intros Hm. destruct marker as [|c m] eqn:E; [done|]. cbn [app scan].
  assert (Hs : starts_with marker (c :: m ++ r) = true)
    by (rewrite starts_with_true; exists r; by rewrite E).
  rewrite Hs, E. f_equal. cbn [length]. rewrite Nat.sub_succ, Nat.sub_0_r. apply scan_skip.
Qed.

Lemma find_scan s r i :
  marker ≠ [] → find marker s = Some i →
  scan 0 (s ++ r) = (Char <$> take i s) ++ Hit :: scan 0 (drop (i + length marker) s ++ r) ∧
  (i + length marker ≤ length s)%nat.
Proof.
  intros Hm (a & b & -> & Hl & Hmin)%find_Some.
  split; [|rewrite !length_app; lia]. rewrite <- Hl at 1. rewrite take_app_length.
  replace (drop (i + length marker) (a ++ marker ++ b)) with b.
  2:{ rewrite <- Hl, <- drop_drop, drop_app_length, drop_app_length. done. }
  rewrite <- !app_assoc. rewrite scan_free; [by rewrite scan_hit|].
  intros j Hj. destruct (starts_with marker (drop j (a ++ marker ++ b ++ r))) eqn:E; [|done].
  exfalso. apply starts_with_true in E as [q Hq].
  assert (Hf := Hmin j ltac:(lia)). apply not_true_iff_false in Hf. apply Hf, starts_with_true.
  rewrite drop_app_le in Hq |- * by lia.
  set (x := drop j a ++ marker) in *.
  rewrite app_assoc in Hq. rewrite app_assoc.
  exists (drop (length marker) ((drop j a ++ marker) ++ b)).
  assert (Ht := f_equal (take (length marker)) Hq). rewrite take_app_length in Ht.
  rewrite take_app_le in Ht by (rewrite length_app; lia).
  rewrite <- Ht at 2. rewrite <- (take_app_le (drop j a ++ marker) b) by (rewrite length_app; lia).
  by rewrite take_drop.
Qed.

Lemma find_none_scan s : find marker s = None → scan 0 s = Char <$> s.
Proof.
  intros H. rewrite <- (app_nil_r s) at 1. rewrite scan_free; [by rewrite app_nil_r|].
  intros j _. rewrite app_nil_r. by apply find_None.
Qed.

Lemma items_app a b : items (a ++ b) = items a ++ items b.
Proof. unfold items. by rewrite fmap_app, join_app. Qed.

(** A piece of text, yielded when there is one. *)
Lemma items_text t : items (if decide (t = []) then [] else [marked_text t]) = Char <$> t.
Proof. destruct (decide (t = [])) as [->|]; [done|]. cbn. by rewrite !app_nil_r. Qed.

Definition not_finished (ms : list MarkedChunk) : Prop := Forall (λ m, mfinish m = false) ms.

Lemma not_finished_text t : not_finished (if decide (t = []) then [] else [marked_text t]).
Proof. destruct (decide _); repeat constructor. Qed.

Lemma take_markers_spec fuel buffer :
  marker ≠ [] → (length buffer ≤ fuel)%nat →
  ∃ outs rest, take_markers fuel buffer = Some (outs, rest) ∧
    (∀ r, scan 0 (buffer ++ r) = items outs ++ scan 0 (rest ++ r)) ∧
    find marker rest = None ∧ not_finished outs.
Proof.
  intros Hm. assert (Hlm : (0 < length marker)%nat) by (destruct marker; [done|simpl; lia]).
  revert buffer. induction fuel as [|fuel IH]; intros buffer Hl; cbn [take_markers].
  - destruct (find marker buffer) as [i|] eqn:E.
    + destruct (find_scan buffer [] i Hm E). lia.
    + exists [], buffer. repeat split; [done|constructor].
  - destruct (find marker buffer) as [i|] eqn:E; [|exists [], buffer; repeat split; [done|constructor]].
    destruct (find_scan buffer [] i Hm E) as [_ Hi].
    destruct (IH (drop (i + length marker) buffer)) as (outs & rest & Hr & Hs & Hn & Hf).
    { rewrite length_drop. lia. }
    rewrite Hr. cbn. eexists _, rest. split; [done|]. split; [|split; [done|]].
    + intros r. destruct (find_scan buffer r i Hm E) as [-> _]. rewrite Hs, items_app, items_text.
      by rewrite <- app_assoc.
    + apply Forall_app. split; [apply not_finished_text|]. by constructor.
Qed.

Lemma drain_spec buffer :
  marker ≠ [] → ∃ outs, _drain_buffer buffer = Some outs ∧ items outs = scan 0 buffer ∧ not_finished outs.
Proof.
  intros Hm. destruct (take_markers_spec (length buffer) buffer Hm) as (outs & rest & Hr & Hs & Hn & Hf); [done|].
  unfold _drain_buffer. rewrite Hr. cbn. eexists. split; [done|].
  rewrite items_app, items_text. specialize (Hs []). rewrite !app_nil_r in Hs.
  rewrite Hs, (find_none_scan rest Hn). split; [done|].
  apply Forall_app. split; [done|]. apply not_finished_text.
Qed.

(** The pending suffix is the longest proper prefix of the marker that ends the text. *)
Lemma rtrim_loop_spec i s :
  (i < length marker)%nat →
  let '(safe, pending) := rtrim_loop i s in
  s = safe ++ pending ∧
  ∀ j, (0 < j ≤ i)%nat → take j marker `suffix_of` s → (j ≤ length pending)%nat.
Proof.
  induction i as [|i IH]; intros Hi; cbn [rtrim_loop].
  - split; [by rewrite app_nil_r|]. lia.
  - destruct (ends_with s (take (S i) marker)) eqn:E.
    + split; [by rewrite take_drop|]. intros j Hj _.
      unfold ends_with in E. apply bool_decide_eq_true in E as [k ->].
      rewrite length_drop, !length_app, length_take. lia.
    + specialize (IH ltac:(lia)). destruct (rtrim_loop i s) as [safe pending].
      destruct IH as [IH1 IH2]. split; [done|]. intros j Hj Hs.
      destruct (decide (j = S i)) as [->|]; [|apply IH2; [lia|done]].
      unfold ends_with in E. by apply bool_decide_eq_false in E.
Qed.

(** No marker begins in the safe part, whatever follows. *)
Lemma rtrim_scan s r :
  marker ≠ [] → find marker s = None →
  let '(safe, pending) := _rtrim_partial_marker s in
  scan 0 (s ++ r) = (Char <$> safe) ++ scan 0 (pending ++ r).
Proof.
  intros Hm Hn. assert (Hlm : (0 < length marker)%nat) by (destruct marker; [done|simpl; lia]).
  unfold _rtrim_partial_marker. pose proof (rtrim_loop_spec (length marker - 1) s ltac:(lia)) as H.
  destruct (rtrim_loop _ s) as [safe pending]. destruct H as [Hs Hmax].
  rewrite Hs, <- app_assoc. apply scan_free. intros j Hj.
  destruct (starts_with marker (drop j (safe ++ pending ++ r))) eqn:E; [|done]. exfalso.
  apply starts_with_true in E as [q Hq]. rewrite app_assoc, <- Hs in Hq.
  assert (Hjs : (j < length s)%nat) by (rewrite Hs, length_app; lia).
  rewrite drop_app_le in Hq by lia.
  destruct (decide (length marker ≤ length s - j)%nat) as [Hle|Hgt].
  - pose proof (find_None marker s Hn j) as Hf. apply not_true_iff_false in Hf. apply Hf, starts_with_true.
    exists (drop (length marker) (drop j s)).
    assert (Ht := f_equal (take (length marker)) Hq). rewrite take_app_length in Ht.
    rewrite take_app_le in Ht by (rewrite length_drop; lia).
    rewrite <- Ht at 1. by rewrite take_drop.
  - assert (Ht := f_equal (take (length s - j)) Hq).
    rewrite (take_app_le marker) in Ht by lia.
    rewrite take_app_le in Ht by (rewrite length_drop; lia).
    rewrite take_ge in Ht by (rewrite length_drop; lia).
    assert (Hb := Hmax (length s - j)%nat ltac:(lia)).
    assert (length s - j ≤ length pending)%nat.
    { apply Hb. exists (take j s). rewrite <- Ht. by rewrite take_drop. }
    assert (length s = length safe + length pending)%nat by (rewrite Hs, length_app; done). lia.
Qed.

Lemma marker_step_spec buffer lf now t :
  marker ≠ [] →
  ∃ outs buffer' lf', marker_step buffer lf now t = Some (outs, (buffer', lf')) ∧
    not_finished outs ∧
    ∀ r, scan 0 ((buffer ++ t) ++ r) = items outs ++ scan 0 (buffer' ++ r).
Proof.
  intros Hm. unfold marker_step.
  destruct (take_markers_spec (length (buffer ++ t)) (buffer ++ t) Hm) as (outs & rest & -> & Hs & Hn & Hf); [done|].
  cbn. destruct (_ || _); [|by eauto 10].
  pose proof (λ r, rtrim_scan rest r Hm Hn) as Hr.
  destruct (_rtrim_partial_marker rest) as [safe pending].
  destruct (decide (safe = [])) as [Hsafe|Hsafe]; [by eauto 10|].
  eexists _, _, _. split; [done|]. split.
  - apply Forall_app. split; [done|]. repeat constructor.
  - intros r. rewrite Hs, Hr, items_app, <- app_assoc. do 2 f_equal. cbn. by rewrite !app_nil_r.
Qed.

Lemma marker_process_items buffer lf chunks :
  marker ≠ [] →
  ∃ outs, marker_process buffer lf chunks = Some (outs ++ [marked_finish]) ∧
    items outs = scan 0 (buffer ++ text_until_finish chunks.*1) ∧ not_finished outs.
Proof.
  intros Hm. revert buffer lf. induction chunks as [|[c now] cs IH]; intros buffer lf; cbn.
  - destruct (drain_spec buffer Hm) as (outs & -> & Hi & Hf). rewrite app_nil_r. by eauto.
  - destruct (finish c).
    + destruct (drain_spec buffer Hm) as (outs & -> & Hi & Hf). rewrite app_nil_r. by eauto.
    + destruct (text_ c) as [t|]; cbn; [|apply IH].
      destruct (marker_step_spec buffer lf now t Hm) as (outs & b & lf' & -> & Hf & Hs). cbn.
      destruct (IH b lf') as (outs' & -> & Hi & Hf'). cbn. exists (outs ++ outs').
      rewrite app_assoc. split; [done|]. rewrite items_app, Hi, <- Hs, app_assoc. split; [done|].
      by apply Forall_app.
Qed.

End Marker.

(** C38: [MarkerDetector.process] never loses text and never misses or splits a
    marker: however the source cuts the text into chunks, and whatever the
    clock says at each chunk, it terminates, and the text and the hits it
    yields are, in order, those of one scan of the whole text (up to the first
    finishing chunk) that replaces every occurrence of the marker, leftmost
    first, by a hit; its last chunk is the only one that finishes. *)
Theorem marker_process_spec (marker : text) (flush_threshold : nat) (strategy : context_strategy)
    {T : Type} (expired : T → T → bool) (start : T) (chunks : list (SourceChunk * T)) :
  marker ≠ [] →
  ∃ outs, marker_process marker flush_threshold strategy expired [] start chunks
          = Some (outs ++ [marked_finish]) ∧
    items outs = scan marker 0 (text_until_finish chunks.*1) ∧ not_finished outs.
Proof. apply marker_process_items. Qed.

(** A marker cut in two, with a flush after every chunk. *)
Definition demo_cut : list (SourceChunk * nat) :=
  [(text_chunk (lit "ab!"), 1); (text_chunk (lit "[img]c!["), 2); (thinking_chunk (lit "x"), 2);
   (text_chunk (lit "im"), 3)]%nat.

Example demo_cut_outs :
  marker_process (lit "![img]") 50 PARAGRAPH (λ now last, (last <? now)%nat) [] 0%nat demo_cut =
  Some [marked_text (lit "ab"); marked_hit []; marked_text (lit "c"); marked_text (lit "![im"); marked_finish].
Proof. vm_compute. reflexivity. Qed.

Lemma marker_process_spec_witness :
  lit "![img]" ≠ [] ∧
  ∃ outs, marker_process (lit "![img]") 50 PARAGRAPH (λ now last, (last <? now)%nat) [] 0%nat demo_cut
          = Some (outs ++ [marked_finish]) ∧
    items outs = scan (lit "![img]") 0 (text_until_finish demo_cut.*1) ∧ not_finished outs.
Proof.
  assert (H : lit "![img]" ≠ []) by done. split; [exact H|].
  exact (marker_process_spec (lit "![img]") 50 PARAGRAPH (λ now last, (last <? now)%nat) 0%nat demo_cut H).
Defined.
