(* ===== verification/Stage.v ===== *)
(** The single stage executor of the stream package
    (src/packages/stream/src/orditect/stream/stages/stage.py): sources,
    interception of thinking and references, aggregation with the position of
    every marker, cancellation with a bounded drain, and the governor token.

    The stage pulls its source one chunk at a time and everything a chunk
    causes happens before the next pull, so a run is a function of the source's
    chunks.  What the run observes of its environment is numbered by a tick:
    [cancelled n] is the answer of the [n]-th look at the cancellation token,
    [abandon n] says that the [n]-th bounded wait runs out, [fails n] is the
    exception of the callback called at tick [n], [clock n] the time read. *)
From Stdlib Require Import ZArith Lia.
From stdpp Require Import prelude gmap list strings.
From S2P Require Import Prelude Text Pipeline.
Local Open Scope list_scope.

Inductive SourceType : Type := LLM | PASSTHROUGH | REPLAY.

Inductive stage_event : Type :=
  | EvAcquire (resource : text)
  | EvText (t : text)
  | EvThinking (t : text)
  | EvReferences (r : list row)
  | EvHit (h : MarkerHit)
  | EvRelease (resource token : text).

(** The calls of the four callbacks of the runner. *)
Definition is_callback (e : stage_event) : bool :=
  match e with EvAcquire _ | EvRelease _ _ => false | _ => true end.

Record StageOutcome := { content : text; outcome_thinking : text; outcome_hits : list MarkerHit }.

Section Stage.

Context {E : Type}.

(** What the source yields, and the exception it ends with, if any. *)
Record StageConfig := {
  source_type : SourceType;
  source : option (list SourceChunk * option E);
  passthrough_content : option text;
  replay_chunks : option (list SourceChunk);
  resource : option text
}.

Inductive stage_error : Type :=
  | SourceError (e : E)
  | CallbackError (e : E)
  | GovernorError (e : E)
  | AssertionError.

(** [_source_chunks]: a finishing chunk is added to a source that ends without one. *)
Definition _source_chunks (cfg : StageConfig) : list SourceChunk * option stage_error :=
  match source_type cfg with
  | PASSTHROUGH => ([text_chunk (default [] (passthrough_content cfg)); finish_chunk], None)
  | REPLAY => (default [] (replay_chunks cfg) ++ [finish_chunk], None)
  | LLM =>
      match source cfg with
      | None => ([], Some AssertionError)
      | Some (cs, Some e) => (cs, Some (SourceError e))
      | Some (cs, None) => (cs ++ (if existsb finish cs then [] else [finish_chunk]), None)
      end
  end.

Context (marker : text) (flush_threshold : nat) (strategy : context_strategy) (mode : ThinkingMode).
Context {T : Type} (expired : T → T → bool).
Context (clock : nat → T) (cancelled abandon : nat → bool) (fails : nat → option E).

Record run_state := {
  rs_tick : nat;
  rs_content : text;
  rs_hits : list MarkerHit;
  rs_collected : list text;
  rs_buffer : text;
  rs_last : T;
  rs_drain : bool;
  rs_log : list (nat * stage_event)
}.

Inductive control : Type := Go | Break | Raise (e : stage_error) | Diverge.

(** One observation. *)
Definition tick (st : run_state) : run_state :=
  {| rs_tick := S (rs_tick st); rs_content := rs_content st; rs_hits := rs_hits st;
     rs_collected := rs_collected st; rs_buffer := rs_buffer st; rs_last := rs_last st;
     rs_drain := rs_drain st; rs_log := rs_log st |}.

(** A callback is called: it is logged, and it may raise. *)
Definition callback (e : stage_event) (st : run_state) : run_state * control :=
  let st' := tick st in
  ({| rs_tick := rs_tick st'; rs_content := rs_content st'; rs_hits := rs_hits st';
      rs_collected := rs_collected st'; rs_buffer := rs_buffer st'; rs_last := rs_last st';
      rs_drain := rs_drain st'; rs_log := rs_log st' ++ [(rs_tick st, e)] |},
   match fails (rs_tick st) with Some err => Raise (CallbackError err) | None => Go end).

Definition add_content (t : text) (st : run_state) : run_state :=
  {| rs_tick := rs_tick st; rs_content := rs_content st ++ t; rs_hits := rs_hits st;
     rs_collected := rs_collected st; rs_buffer := rs_buffer st; rs_last := rs_last st;
     rs_drain := rs_drain st; rs_log := rs_log st |}.

Definition add_hit (h : MarkerHit) (st : run_state) : run_state :=
  {| rs_tick := rs_tick st; rs_content := rs_content st; rs_hits := rs_hits st ++ [h];
     rs_collected := rs_collected st; rs_buffer := rs_buffer st; rs_last := rs_last st;
     rs_drain := rs_drain st; rs_log := rs_log st |}.

Definition collect (t : text) (st : run_state) : run_state :=
  {| rs_tick := rs_tick st; rs_content := rs_content st; rs_hits := rs_hits st;
     rs_collected := rs_collected st ++ [t]; rs_buffer := rs_buffer st; rs_last := rs_last st;
     rs_drain := rs_drain st; rs_log := rs_log st |}.

Definition set_buffer (b : text) (last : T) (st : run_state) : run_state :=
  {| rs_tick := rs_tick st; rs_content := rs_content st; rs_hits := rs_hits st;
     rs_collected := rs_collected st; rs_buffer := b; rs_last := last;
     rs_drain := rs_drain st; rs_log := rs_log st |}.

Definition start_drain (st : run_state) : run_state :=
  {| rs_tick := rs_tick st; rs_content := rs_content st; rs_hits := rs_hits st;
     rs_collected := rs_collected st; rs_buffer := rs_buffer st; rs_last := rs_last st;
     rs_drain := true; rs_log := rs_log st |}.

(** A wait that the drain deadline bounds, in drain mode. *)
Definition bounded_wait (st : run_state) : run_state * control :=
  if rs_drain st then (tick st, if abandon (rs_tick st) then Break else Go) else (st, Go).

(** A look at the cancellation token. *)
Definition is_cancelled (st : run_state) : run_state * bool := (tick st, cancelled (rs_tick st)).

Definition and_then (r : run_state * control) (k : run_state → run_state * control) : run_state * control :=
  match r with (st, Go) => k st | _ => r end.

Fixpoint deliver_hits (hs : list MarkerHit) (st : run_state) : run_state * control :=
  match hs with
  | [] => (st, Go)
  | h :: hs' =>
      let h := {| context_text := context_text h; placeholder_id := placeholder_id h;
                  char_offset := Z.of_nat (length (rs_content st)) |} in
      and_then (callback (EvHit h) (add_hit h st)) (deliver_hits hs')
  end.

(** The body of the loop of [run], on one chunk of the marker detector. *)
Definition deliver (m : MarkedChunk) (st : run_state) : run_state * control :=
  let '(st, c) := is_cancelled st in
  if c then (start_drain st, Go)
  else
    and_then
      (match mtext m with
       | Some t => if decide (t = []) then (st, Go) else callback (EvText t) (add_content t st)
       | None => (st, Go)
       end)
      (λ st, and_then (deliver_hits (hits m) st) (λ st, (st, if mfinish m then Break else Go))).

(** The chunks the detector yields for one source chunk; after each of them
    the next one is waited for. *)
Fixpoint deliver_all (ms : list MarkedChunk) (st : run_state) : run_state * control :=
  match ms with
  | [] => (st, Go)
  | m :: ms' => and_then (deliver m st) (λ st, and_then (bounded_wait st) (deliver_all ms'))
  end.

(** The detector drains its buffer and ends. *)
Definition finish_detector (st : run_state) : run_state * control :=
  match _drain_buffer marker strategy (rs_buffer st) with
  | None => (st, Diverge)
  | Some outs => and_then (deliver_all (outs ++ [marked_finish]) st) (λ st, (st, Break))
  end.

(** One single-field chunk through [ThinkingDemux],
    [_intercept_thinking_and_refs] and the detector. *)
Definition feed (c : SourceChunk) (st : run_state) : run_state * control :=
  match thinking c with
  | Some t =>
      match mode with
      | INLINE =>
          let '(st, cn) := is_cancelled st in
          if cn then (st, Go) else callback (EvThinking t) st
      | SEPARATE => (collect t st, Go)
      | SUPPRESS => (st, Go)
      end
  | None =>
      match references c with
      | Some r =>
          let '(st, cn) := is_cancelled st in
          if cn then (st, Go) else callback (EvReferences r) st
      | None =>
          if finish c then finish_detector st
          else match text_ c with
          | None => (st, Go)
          | Some t =>
              let now := clock (rs_tick st) in
              match marker_step marker flush_threshold strategy expired (rs_buffer st) (rs_last st) now t with
              | None => (st, Diverge)
              | Some (outs, (b, l)) => deliver_all outs (set_buffer b l (tick st))
              end
          end
      end
  end.

Fixpoint feed_all (cs : list SourceChunk) (st : run_state) : run_state * control :=
  match cs with
  | [] => (st, Go)
  | c :: cs' => and_then (feed c st) (feed_all cs')
  end.

(** The whole source: [ending] is the exception it ends with. *)
Fixpoint pull_all (ending : option stage_error) (cs : list SourceChunk) (st : run_state)
  : run_state * control :=
  match cs with
  | [] =>
      and_then (bounded_wait st)
        (λ st, match ending with Some e => (st, Raise e) | None => finish_detector st end)
  | c :: cs' =>
      and_then (bounded_wait st) (λ st, and_then (feed_all (split_chunk c) st) (pull_all ending cs'))
  end.

Definition run_init : run_state :=
  {| rs_tick := 0; rs_content := []; rs_hits := []; rs_collected := []; rs_buffer := [];
     rs_last := clock 0; rs_drain := false; rs_log := [] |}.

Definition stage_outcome (st : run_state) : StageOutcome :=
  {| content := rs_content st; outcome_thinking := (pop_collected (rs_collected st)).1;
     outcome_hits := rs_hits st |}.

(** The body of the [try]. [None]: the loop does not end. *)
Definition run_body (cfg : StageConfig) : option (run_state * res stage_error StageOutcome) :=
  let '(cs, ending) := _source_chunks cfg in
  match pull_all ending cs (tick run_init) with
  | (_, Diverge) => None
  | (st, Raise e) => Some (st, Err e)
  | (st, _) => Some (st, Ok (stage_outcome st))
  end.

(** [run]: [governor] is the answer of [governor.acquire], when there is a governor. *)
Definition stage_run (governor : option (text → res E text)) (cfg : StageConfig)
  : option (list stage_event * res stage_error StageOutcome) :=
  match resource cfg, governor with
  | Some r, Some acquire =>
      if decide (r = []) then '(st, o) ← run_body cfg; Some ((rs_log st).*2, o)
      else match acquire r with
      | Err e => Some ([EvAcquire r], Err (GovernorError e))
      | Ok token =>
          '(st, o) ← run_body cfg;
          Some (EvAcquire r :: (rs_log st).*2 ++ (if decide (token = []) then [] else [EvRelease r token]), o)
      end
  | _, _ => '(st, o) ← run_body cfg; Some ((rs_log st).*2, o)
  end.

(** *** Specification *)

(** The characters of a scan, and the position of every hit among them. *)
Definition chars (its : list item) : text := omap (λ i, match i with Char c => Some c | Hit => None end) its.

Fixpoint offsets (n : nat) (its : list item) : list Z :=
  match its with
  | [] => []
  | Char _ :: its' => offsets (S n) its'
  | Hit :: its' => Z.of_nat n :: offsets n its'
  end.

(** The chunks up to and with the first that finishes. *)
Fixpoint until_finish (cs : list SourceChunk) : list SourceChunk :=
  match cs with [] => [] | c :: cs' => if finish c then [c] else c :: until_finish cs' end.

Definition texts (log : list stage_event) : list text := omap (λ e, match e with EvText t => Some t | _ => None end) log.
Definition thoughts (log : list stage_event) : list text := omap (λ e, match e with EvThinking t => Some t | _ => None end) log.
Definition refs (log : list stage_event) : list (list row) := omap (λ e, match e with EvReferences r => Some r | _ => None end) log.
Definition hits_called (log : list stage_event) : list MarkerHit := omap (λ e, match e with EvHit h => Some h | _ => None end) log.

Lemma offsets_app n a b : offsets n (a ++ b) = offsets n a ++ offsets (n + length (chars a)) b.
Proof.
  revert n. induction a as [|[c|] a IH]; intros n; cbn.
  - by rewrite Nat.add_0_r.
  - rewrite IH. do 2 f_equal. unfold chars. lia.
  - by rewrite IH.
Qed.

Lemma chars_app a b : chars (a ++ b) = chars a ++ chars b.
Proof. apply omap_app. Qed.

Lemma chars_text (t : text) : chars (Char <$> t) = t.
Proof. induction t as [|c t IH]; [done|]. cbn. f_equal. exact IH. Qed.

Lemma offsets_text n (t : text) : offsets n (Char <$> t) = [].
Proof. revert n. induction t as [|c t IH]; intros n; [done|]. apply IH. Qed.

(** What the detector yields has text or one hit, never both. *)
Definition simple (m : MarkedChunk) : Prop :=
  (∃ t, t ≠ [] ∧ m = marked_text t) ∨ (∃ ctx, m = marked_hit ctx).

Lemma take_markers_simple fuel buffer outs rest :
  take_markers marker strategy fuel buffer = Some (outs, rest) → Forall simple outs.
Proof.
  revert buffer outs rest. induction fuel as [|fuel IH]; intros buffer outs rest; cbn [take_markers].
  - destruct (find marker buffer); [done|]. intros [= <- <-]. constructor.
  - destruct (find marker buffer) as [i|]; [|intros [= <- <-]; constructor].
    destruct (take_markers _ _ _ _) as [[outs' rest']|] eqn:Et; [|done]. cbn.
    intros [= <- <-]. apply Forall_app. split.
    + destruct (decide _); constructor; [|constructor]. left. by eexists.
    + constructor; [right; by eexists|]. by eapply IH.
Qed.

Lemma drain_simple buffer outs : _drain_buffer marker strategy buffer = Some outs → Forall simple outs.
Proof.
  unfold _drain_buffer. destruct (take_markers _ _ _ _) as [[outs' rest]|] eqn:Et; [|done]. cbn.
  intros [= <-]. apply Forall_app. split; [by eapply take_markers_simple|].
  destruct (decide _); constructor; [|constructor]. left. by eexists.
Qed.

Lemma marker_step_simple b l now t outs b' l' :
  marker_step marker flush_threshold strategy expired b l now t = Some (outs, (b', l')) → Forall simple outs.
Proof.
  unfold marker_step. destruct (take_markers _ _ _ _) as [[outs' rest]|] eqn:Et; [|done]. cbn.
  apply take_markers_simple in Et.
  destruct (_ || _); [|by intros [= <- <- <-]].
  destruct (_rtrim_partial_marker _ _) as [safe pending].
  destruct (decide (safe = [])); intros [= <- <- <-]; [done|].
  apply Forall_app. split; [done|]. constructor; [|constructor]. left. by eexists.
Qed.

(** *** Safety: what the log can hold *)

(** A callback runs right after a look at the token that found it not cancelled. *)
Definition allowed (ne : nat * stage_event) : Prop :=
  is_callback ne.2 = true ∧ ∃ k, ne.1 = S k ∧ cancelled k = false.

Definition log_ok (st : run_state) : Prop := Forall allowed (rs_log st).

Lemma and_then_ok r k :
  log_ok r.1 → (∀ st, log_ok st → log_ok (k st).1) → log_ok (and_then r k).1.
Proof. destruct r as [st [| |e|]]; simpl; auto. Qed.

Lemma callback_ok e st k :
  is_callback e = true → rs_tick st = S k → cancelled k = false → log_ok st → log_ok (callback e st).1.
Proof. intros. apply Forall_app. split; [done|]. repeat constructor; simpl; eauto. Qed.

Lemma bounded_wait_ok st : log_ok st → log_ok (bounded_wait st).1.
Proof. unfold bounded_wait. by destruct (rs_drain st). Qed.

Lemma deliver_ok m st : simple m ∨ m = marked_finish → log_ok st → log_ok (deliver m st).1.
Proof.
  intros Hm Hst. unfold deliver, is_cancelled. destruct (cancelled (rs_tick st)) eqn:Ec; [done|].
  destruct Hm as [[(t & Ht & ->)|(ctx & ->)]| ->]; cbn -[callback].
  - rewrite decide_False by done. apply and_then_ok; [|done].
    by apply (callback_ok _ _ (rs_tick st)).
  - apply and_then_ok; [|done]. apply and_then_ok; [|done].
    by apply (callback_ok _ _ (rs_tick st)).
  - done.
Qed.

Lemma deliver_all_ok ms st :
  Forall (λ m, simple m ∨ m = marked_finish) ms → log_ok st → log_ok (deliver_all ms st).1.
Proof.
  intros Hms. revert st. induction Hms as [|m ms Hm Hms IH]; intros st Hst; [done|]. cbn [deliver_all].
  apply and_then_ok; [by apply deliver_ok|]. intros st1 H1.
  apply and_then_ok; [by apply bounded_wait_ok|]. exact IH.
Qed.

Lemma finish_detector_ok st : log_ok st → log_ok (finish_detector st).1.
Proof.
  intros Hst. unfold finish_detector. destruct (_drain_buffer _ _ _) as [outs|] eqn:Ed; [|done].
  apply and_then_ok; [|done]. apply deliver_all_ok; [|done].
  apply Forall_app. split; [|by repeat constructor].
  apply drain_simple in Ed. eapply Forall_impl; [exact Ed|]. auto.
Qed.

Lemma feed_ok c st : log_ok st → log_ok (feed c st).1.
Proof.
  intros Hst. unfold feed, is_cancelled.
  destruct (thinking c) as [t|]; [destruct mode|destruct (references c) as [r|]].
  - destruct (cancelled (rs_tick st)) eqn:Ec; [done|]. by apply (callback_ok _ _ (rs_tick st)).
  - done.
  - done.
  - destruct (cancelled (rs_tick st)) eqn:Ec; [done|]. by apply (callback_ok _ _ (rs_tick st)).
  - destruct (finish c); [by apply finish_detector_ok|]. destruct (text_ c) as [t|]; [|done].
    destruct (marker_step _ _ _ _ _ _ _ _) as [[outs [b l]]|] eqn:Em; [|done].
    apply deliver_all_ok; [|done]. apply marker_step_simple in Em. eapply Forall_impl; [exact Em|]. auto.
Qed.

Lemma feed_all_ok cs st : log_ok st → log_ok (feed_all cs st).1.
Proof.
  revert st. induction cs as [|c cs IH]; intros st Hst; [done|].
  apply and_then_ok; [by apply feed_ok|exact IH].
Qed.

Lemma pull_all_ok ending cs st : log_ok st → log_ok (pull_all ending cs st).1.
Proof.
  revert st. induction cs as [|c cs IH]; intros st Hst; cbn [pull_all];
    (apply and_then_ok; [by apply bounded_wait_ok|]); intros st1 H1.
  - destruct ending; [done|]. by apply finish_detector_ok.
  - apply and_then_ok; [by apply feed_all_ok|exact IH].
Qed.

Lemma run_body_log cfg st o : run_body cfg = Some (st, o) → log_ok st.
Proof.
  unfold run_body. destruct (_source_chunks cfg) as [cs ending].
  pose proof (pull_all_ok ending cs (tick run_init) ltac:(constructor)) as H.
  destruct (pull_all _ _ _) as [st' [| |e|]]; [..|done]; by intros [= <- <-].
Qed.

(** *** Termination *)

Definition ends (r : run_state * control) : Prop := r.2 ≠ Diverge.

Lemma and_then_ends r k : ends r → (∀ st, ends (k st)) → ends (and_then r k).
Proof. destruct r as [st [| |e|]]; unfold ends; simpl; auto. Qed.

Lemma callback_ends e st : ends (callback e st).
Proof. unfold callback, ends. simpl. by destruct (fails _). Qed.

Lemma bounded_wait_ends st : ends (bounded_wait st).
Proof. unfold bounded_wait, ends. destruct (rs_drain st); [|done]. simpl. by destruct (abandon _). Qed.

Lemma deliver_hits_ends hs st : ends (deliver_hits hs st).
Proof.
  revert st. induction hs as [|h hs IH]; intros st; [done|].
  apply and_then_ends; [apply callback_ends|exact IH].
Qed.

Lemma deliver_ends m st : ends (deliver m st).
Proof.
  unfold deliver, is_cancelled. destruct (cancelled _); [done|].
  apply and_then_ends.
  - destruct (mtext m); [|done]. destruct (decide _); [done|]. apply callback_ends.
  - intros st1. apply and_then_ends; [apply deliver_hits_ends|]. intros st2. unfold ends. simpl.
    by destruct (mfinish m).
Qed.

Lemma deliver_all_ends ms st : ends (deliver_all ms st).
Proof.
  revert st. induction ms as [|m ms IH]; intros st; [done|]. cbn [deliver_all].
  apply and_then_ends; [apply deliver_ends|]. intros st1.
  apply and_then_ends; [apply bounded_wait_ends|exact IH].
Qed.

Lemma finish_detector_ends st : marker ≠ [] → ends (finish_detector st).
Proof.
  intros Hm. unfold finish_detector. destruct (drain_spec marker strategy (rs_buffer st) Hm) as (outs & -> & _).
  apply and_then_ends; [apply deliver_all_ends|done].
Qed.

Lemma feed_ends c st : marker ≠ [] → ends (feed c st).
Proof.
  intros Hm. unfold feed, is_cancelled.
  destruct (thinking c) as [t|]; [destruct mode|destruct (references c) as [r|]].
  - destruct (cancelled _); [done|apply callback_ends].
  - done.
  - done.
  - destruct (cancelled _); [done|apply callback_ends].
  - destruct (finish c); [by apply finish_detector_ends|]. destruct (text_ c) as [t|]; [|done].
    destruct (marker_step_spec marker flush_threshold strategy expired (rs_buffer st) (rs_last st)
                (clock (rs_tick st)) t Hm) as (outs & b & l & -> & _). apply deliver_all_ends.
Qed.

Lemma pull_all_ends ending cs st : marker ≠ [] → ends (pull_all ending cs st).
Proof.
  intros Hm. revert st. induction cs as [|c cs IH]; intros st; cbn [pull_all];
    (apply and_then_ends; [apply bounded_wait_ends|]); intros st1.
  - destruct ending; [done|]. by apply finish_detector_ends.
  - apply and_then_ends; [|exact IH]. clear IH. revert st1. induction (split_chunk c) as [|d ds IH]; intros st1; [done|].
    apply and_then_ends; [by apply feed_ends|exact IH].
Qed.

Lemma run_body_ends cfg : marker ≠ [] → ∃ st o, run_body cfg = Some (st, o).
Proof.
  intros Hm. unfold run_body. destruct (_source_chunks cfg) as [cs ending].
  pose proof (pull_all_ends ending cs (tick run_init) Hm) as H.
  destruct (pull_all _ _ _) as [st' [| |e|]]; unfold ends in H; simpl in H; [eauto..|done].
Qed.

(** *** A run that nobody cancels and no callback stops *)

Definition thoughts_of (cs : list SourceChunk) : list text :=
  if decide (mode = INLINE) then omap thinking cs else [].
Definition collected_of (cs : list SourceChunk) : list text :=
  if decide (mode = SEPARATE) then omap thinking cs else [].

(** The state has seen the items [its]; [cs] are the chunks fed so far. *)
Record seen (st : run_state) (its : list item) (cs : list SourceChunk) : Prop := {
  seen_drain : rs_drain st = false;
  seen_content : rs_content st = chars its;
  seen_offsets : char_offset <$> rs_hits st = offsets 0 its;
  seen_texts : mjoin (texts (rs_log st).*2) = chars its;
  seen_hits : hits_called (rs_log st).*2 = rs_hits st;
  seen_thoughts : thoughts (rs_log st).*2 = thoughts_of cs;
  seen_refs : refs (rs_log st).*2 = omap references cs;
  seen_collected : rs_collected st = collected_of cs
}.

Definition live (st : run_state) (cs : list SourceChunk) : Prop :=
  ∃ its, seen st its cs ∧
    ∀ r, scan marker 0 (mjoin (omap text_ cs) ++ r) = its ++ scan marker 0 (rs_buffer st ++ r).

Definition finished (st : run_state) (cs : list SourceChunk) : Prop :=
  seen st (scan marker 0 (mjoin (omap text_ cs))) cs.

Lemma omap_snoc {A B} (f : A → option B) l x :
  omap f (l ++ [x]) = omap f l ++ match f x with Some y => [y] | None => [] end.
Proof. rewrite omap_app. cbn. by destruct (f x). Qed.

Lemma thoughts_of_snoc cs c :
  thoughts_of (cs ++ [c]) =
  thoughts_of cs ++ match thinking c with Some t => if decide (mode = INLINE) then [t] else [] | None => [] end.
Proof. unfold thoughts_of. destruct (decide _); rewrite ?omap_snoc; by destruct (thinking c). Qed.

Lemma collected_of_snoc cs c :
  collected_of (cs ++ [c]) =
  collected_of cs ++ match thinking c with Some t => if decide (mode = SEPARATE) then [t] else [] | None => [] end.
Proof. unfold collected_of. destruct (decide _); rewrite ?omap_snoc; by destruct (thinking c). Qed.

(** A chunk without thinking and references changes nothing of this. *)
Lemma seen_plain st its cs c :
  thinking c = None → references c = None → seen st its cs → seen st its (cs ++ [c]).
Proof.
  intros Ht Hr [F1 F2 F3 F4 F5 F6 F7 F8].
  split; rewrite ?omap_snoc, ?thoughts_of_snoc, ?collected_of_snoc, ?Ht, ?Hr, ?app_nil_r; done.
Qed.

Lemma text_snoc cs c : mjoin (omap text_ (cs ++ [c])) = mjoin (omap text_ cs) ++ default [] (text_ c).
Proof. rewrite omap_snoc, join_app. destruct (text_ c); cbn; by rewrite ?app_nil_r. Qed.

Context (Hlive : ∀ n, cancelled n = false) (Hcalls : ∀ n, fails n = None).

Lemma callback_live e st :
  callback e st = ({| rs_tick := S (rs_tick st); rs_content := rs_content st; rs_hits := rs_hits st;
    rs_collected := rs_collected st; rs_buffer := rs_buffer st; rs_last := rs_last st;
    rs_drain := rs_drain st; rs_log := rs_log st ++ [(rs_tick st, e)] |}, Go).
Proof. unfold callback. by rewrite Hcalls. Qed.

Lemma log_snoc {A} (f : stage_event → option A) (log : list (nat * stage_event)) n e :
  omap f (log ++ [(n, e)]).*2 = omap f log.*2 ++ match f e with Some a => [a] | None => [] end.
Proof. rewrite fmap_app, omap_app. cbn. by destruct (f e). Qed.

Lemma deliver_live m st its cs :
  simple m → seen st its cs →
  ∃ st', deliver m st = (st', Go) ∧ seen st' (its ++ items_of m) cs ∧ rs_buffer st' = rs_buffer st.
Proof.
  intros Hm [H1 H2 H3 H4 H5 H6 H7 H8]. unfold deliver, is_cancelled. rewrite Hlive.
  destruct Hm as [(t & Ht & ->)|(ctx & ->)]; cbn -[callback].
  - rewrite decide_False by done. rewrite callback_live. cbn. eexists. split; [done|]. split; [|done].
    unfold items_of. cbn. rewrite app_nil_r.
    split; cbn; unfold texts, thoughts, refs, hits_called; rewrite ?log_snoc, ?join_app; cbn;
      rewrite ?app_nil_r; try done; rewrite ?chars_app, ?chars_text, ?offsets_app, ?offsets_text, ?app_nil_r.
    + by rewrite H2.
    + exact H3.
    + rewrite <- H4. done.
  - rewrite callback_live. cbn. eexists. split; [done|]. split; [|done].
    unfold items_of. cbn.
    split; cbn; unfold texts, thoughts, refs, hits_called; rewrite ?log_snoc, ?join_app; cbn;
      rewrite ?app_nil_r; try done; rewrite ?chars_app, ?offsets_app, ?app_nil_r, ?fmap_app; cbn;
      rewrite ?app_nil_r.
    + exact H2.
    + rewrite H3, H2. done.
    + exact H4.
    + rewrite <- H5. done.
Qed.

Lemma deliver_all_live ms st its cs :
  Forall simple ms → seen st its cs →
  ∃ st', deliver_all ms st = (st', Go) ∧ seen st' (its ++ items ms) cs ∧ rs_buffer st' = rs_buffer st.
Proof.
  intros Hms. revert st its. induction Hms as [|m ms Hm Hms IH]; intros st its Hs.
  - exists st. cbn. by rewrite app_nil_r.
  - cbn [deliver_all]. destruct (deliver_live m st its cs Hm Hs) as (st1 & -> & Hs1 & Hb1). cbn.
    unfold bounded_wait. rewrite (seen_drain _ _ _ Hs1). cbn.
    destruct (IH st1 _ Hs1) as (st2 & -> & Hs2 & Hb2). exists st2.
    rewrite <- app_assoc in Hs2. split; [done|]. split; [exact Hs2|congruence].
Qed.

Lemma deliver_all_app ms ms' st its cs :
  Forall simple ms → seen st its cs →
  ∃ st', deliver_all (ms ++ ms') st = deliver_all ms' st' ∧ seen st' (its ++ items ms) cs.
Proof.
  intros Hms. revert st its. induction Hms as [|m ms Hm Hms IH]; intros st its Hs.
  - exists st. cbn. by rewrite app_nil_r.
  - cbn [deliver_all app]. destruct (deliver_live m st its cs Hm Hs) as (st1 & -> & Hs1 & Hb1). cbn.
    unfold bounded_wait. rewrite (seen_drain _ _ _ Hs1). cbn.
    destruct (IH st1 _ Hs1) as (st2 & -> & Hs2). exists st2. by rewrite <- app_assoc in Hs2.
Qed.

Lemma finish_live st cs c :
  marker ≠ [] → live st cs → text_ c = None → thinking c = None → references c = None →
  ∃ st', finish_detector st = (st', Break) ∧ finished st' (cs ++ [c]) ∧ finished st' cs.
Proof.
  intros Hm (its & Hs & Hr) Ht Hth Hrf. unfold finish_detector.
  destruct (_drain_buffer marker strategy (rs_buffer st)) as [outs|] eqn:Ed;
    destruct (drain_spec marker strategy (rs_buffer st) Hm) as (outs' & Ed' & Hi & _); rewrite Ed in Ed'; [|done].
  injection Ed' as <-.
  destruct (deliver_all_app outs [marked_finish] st its cs (drain_simple _ _ Ed) Hs) as (st1 & -> & Hs1).
  cbn. unfold deliver, is_cancelled. rewrite Hlive. cbn. eexists. split; [done|].
  assert (Hf : scan marker 0 (mjoin (omap text_ cs)) = its ++ items outs).
  { specialize (Hr []). rewrite !app_nil_r in Hr. by rewrite Hr, Hi. }
  assert (Hfin : finished (tick st1) cs) by (unfold finished; rewrite Hf; by destruct Hs1).
  split; [|exact Hfin]. unfold finished. rewrite text_snoc, Ht. cbn [default]. rewrite app_nil_r.
  by apply seen_plain.
Qed.

Lemma feed_live c st cs :
  marker ≠ [] → single_field c → live st cs →
  (finish c = false → ∃ st', feed c st = (st', Go) ∧ live st' (cs ++ [c])) ∧
  (finish c = true → ∃ st', feed c st = (st', Break) ∧ finished st' (cs ++ [c])).
Proof.
  intros Hm Hc Hl. destruct Hc as [[t ->]|[[t ->]|[[r ->]| ->]]];
    (split; intros Hfin; [|]); try discriminate Hfin; unfold feed, is_cancelled; cbn -[callback finish_detector].
  - destruct Hl as (its & Hs & Hr).
    destruct (marker_step marker flush_threshold strategy expired (rs_buffer st) (rs_last st)
                (clock (rs_tick st)) t) as [[outs [b l]]|] eqn:Em;
      destruct (marker_step_spec marker flush_threshold strategy expired (rs_buffer st) (rs_last st)
                (clock (rs_tick st)) t Hm) as (outs' & b' & l' & Em' & _ & Hsc); rewrite Em in Em'; [|done].
    injection Em' as <- <- <-.
    destruct (deliver_all_live outs (set_buffer b l (tick st)) its cs) as (st1 & -> & Hs1 & Hb1).
    { by eapply marker_step_simple. } { by destruct Hs. }
    exists st1. split; [done|]. exists (its ++ items outs). split; [by apply seen_plain|].
    intros r. rewrite text_snoc, Hb1. cbn [default text_ text_chunk]. rewrite <- !app_assoc.
    rewrite Hr, app_assoc, Hsc. by rewrite ?app_assoc.
  - destruct Hl as (its & Hs & Hr).
    assert (Hr' : ∀ r, scan marker 0 (mjoin (omap text_ (cs ++ [thinking_chunk t])) ++ r)
                     = its ++ scan marker 0 (rs_buffer st ++ r))
      by (intros r; rewrite text_snoc; cbn [default text_ thinking_chunk]; by rewrite app_nil_r, Hr).
    destruct Hs as [F1 F2 F3 F4 F5 F6 F7 F8].
    pose proof (thoughts_of_snoc cs (thinking_chunk t)) as Ht.
    pose proof (collected_of_snoc cs (thinking_chunk t)) as Hcol. cbn [thinking thinking_chunk] in Ht, Hcol.
    destruct (decide (mode = INLINE)) as [Hmode|]; [|destruct (decide (mode = SEPARATE)) as [Hmode|]].
    + rewrite Hmode, Hlive, callback_live. rewrite decide_False in Hcol by congruence. rewrite app_nil_r in Hcol.
      cbn [and_then]. eexists. split; [done|]. exists its. split; [|exact Hr'].
      split; cbn -[thoughts_of collected_of]; unfold texts, thoughts, refs, hits_called in *;
        rewrite ?log_snoc, ?Ht, ?Hcol, ?omap_snoc; cbn -[thoughts_of collected_of];
        rewrite ?app_nil_r; try done. by rewrite F6.
    + rewrite Hmode. rewrite app_nil_r in Ht.
      cbn [and_then]. eexists. split; [done|]. exists its. split; [|exact Hr'].
      split; rewrite ?Ht, ?Hcol, ?omap_snoc; cbn -[thoughts_of collected_of]; rewrite ?app_nil_r; try done.
      by rewrite F8.
    + rewrite app_nil_r in Ht, Hcol. destruct mode; [done..|].
      cbn [and_then]. eexists. split; [done|]. exists its. split; [|exact Hr'].
      split; rewrite ?Ht, ?Hcol, ?omap_snoc; cbn -[thoughts_of collected_of]; rewrite ?app_nil_r; done.
  - destruct Hl as (its & Hs & Hr). destruct Hs as [F1 F2 F3 F4 F5 F6 F7 F8].
    rewrite Hlive, callback_live. cbn [and_then]. eexists. split; [done|]. exists its. split.
    + split; cbn -[thoughts_of collected_of]; unfold texts, thoughts, refs, hits_called in *;
        rewrite ?log_snoc, ?thoughts_of_snoc, ?collected_of_snoc, ?omap_snoc; cbn -[thoughts_of collected_of];
        rewrite ?app_nil_r; try done. by rewrite F7.
    + intros r'. rewrite text_snoc. cbn [default text_ references_chunk]. by rewrite app_nil_r, Hr.
  - destruct (finish_live st cs finish_chunk Hm Hl) as (st1 & -> & Hf & _); [done..|]. by exists st1.
Qed.

Lemma feed_all_live ds st cs :
  marker ≠ [] → Forall (λ d, single_field d ∧ finish d = false) ds → live st cs →
  ∃ st', feed_all ds st = (st', Go) ∧ live st' (cs ++ ds).
Proof.
  intros Hm Hds. revert st cs. induction Hds as [|d ds [Hd Hf] _ IH]; intros st cs Hl.
  - exists st. by rewrite app_nil_r.
  - destruct (feed_live d st cs Hm Hd Hl) as [H _]. destruct (H Hf) as (st1 & Hst1 & H1).
    cbn [feed_all]. rewrite Hst1. cbn [and_then]. destruct (IH st1 _ H1) as (st2 & -> & H2). exists st2.
    by rewrite <- app_assoc in H2.
Qed.

Lemma feed_all_app a b st : feed_all (a ++ b) st = and_then (feed_all a st) (feed_all b).
Proof.
  revert st. induction a as [|d a IH]; intros st; [done|]. cbn [feed_all app].
  destruct (feed d st) as [st1 [| |e|]]; cbn; [apply IH|done..].
Qed.

Lemma split_chunk_feed c st cs :
  marker ≠ [] → live st cs →
  (finish c = false → ∃ st', feed_all (split_chunk c) st = (st', Go) ∧ live st' (cs ++ split_chunk c)) ∧
  (finish c = true → ∃ st', feed_all (split_chunk c) st = (st', Break) ∧ finished st' (cs ++ split_chunk c)).
Proof.
  intros Hm Hl. unfold split_chunk. set (p1 := match references c with Some _ => _ | None => _ end).
  set (p2 := match thinking c with Some _ => _ | None => _ end).
  set (p3 := match text_ c with Some _ => _ | None => _ end).
  assert (Hp : Forall (λ d, single_field d ∧ finish d = false) (p1 ++ p2 ++ p3)).
  { subst p1 p2 p3. rewrite !Forall_app.
    split; [|split]; [destruct (references c)|destruct (thinking c)|destruct (text_ c)];
      try apply Forall_nil_2; (apply Forall_singleton; split; [|done]); unfold single_field; eauto. }
  destruct (feed_all_live _ st cs Hm Hp Hl) as (st1 & H1 & Hl1).
  replace (p1 ++ p2 ++ p3 ++ if finish c then [finish_chunk] else [])
    with ((p1 ++ p2 ++ p3) ++ if finish c then [finish_chunk] else []) by (by rewrite <- !app_assoc).
  split; intros ->; rewrite feed_all_app, H1; cbn [and_then].
  - exists st1. by rewrite app_nil_r.
  - destruct (feed_live finish_chunk st1 _ Hm ltac:(right; right; by right) Hl1) as [_ Hf].
    destruct (Hf eq_refl) as (st2 & Hst2 & H2). exists st2. cbn [feed_all]. rewrite Hst2. split; [done|].
    by rewrite <- app_assoc in H2.
Qed.

Lemma pull_all_live rest st cs :
  marker ≠ [] → live st cs →
  ∃ st', pull_all None rest st = (st', Break) ∧ finished st' (cs ++ split_process (until_finish rest)).
Proof.
  intros Hm. revert st cs. induction rest as [|c rest IH]; intros st cs Hl; cbn [pull_all until_finish].
  - destruct Hl as (its & Hs & Hr). unfold bounded_wait. rewrite (seen_drain _ _ _ Hs). cbn [and_then].
    destruct (finish_live st cs finish_chunk Hm ltac:(by exists its)) as (st1 & -> & _ & Hf); [done..|].
    exists st1. split; [done|]. cbn. by rewrite app_nil_r.
  - assert (Hw : bounded_wait st = (st, Go))
      by (destruct Hl as (its & Hs & _); unfold bounded_wait; by rewrite (seen_drain _ _ _ Hs)).
    rewrite Hw. cbn [and_then]. destruct (split_chunk_feed c st cs Hm Hl) as [Hgo Hbr].
    destruct (finish c).
    + destruct (Hbr eq_refl) as (st1 & -> & Hf). exists st1. split; [done|].
      unfold split_process. cbn. by rewrite app_nil_r.
    + destruct (Hgo eq_refl) as (st1 & -> & Hl1). cbn [and_then].
      destruct (IH st1 _ Hl1) as (st2 & -> & Hf). exists st2. split; [done|].
      change (split_process (c :: until_finish rest)) with (split_chunk c ++ split_process (until_finish rest)).
      by rewrite app_assoc.
Qed.

Lemma run_body_live cfg cs :
  marker ≠ [] → _source_chunks cfg = (cs, None) →
  ∃ st, run_body cfg = Some (st, Ok (stage_outcome st)) ∧ finished st (split_process (until_finish cs)).
Proof.
  intros Hm Hcs. unfold run_body. rewrite Hcs.
  destruct (pull_all_live cs (tick run_init) [] Hm) as (st & -> & Hf); [|by eauto].
  exists []. split; [|done]. split; try done; unfold thoughts_of, collected_of; by destruct (decide _).
Qed.

End Stage.

Section Claims.

Context {E T : Type} (marker : text) (flush_threshold : nat) (strategy : context_strategy)
        (mode : ThinkingMode) (expired : T → T → bool) (clock : nat → T)
        (cancelled abandon : nat → bool) (fails : nat → option E).

Abbreviation body cfg := (run_body marker flush_threshold strategy mode expired clock cancelled abandon fails cfg).
Abbreviation outcome_of st := (stage_outcome st).

(** C27: a stage that nobody cancels and whose callbacks and source do not fail
    returns an outcome faithful to the source, however the source cuts its
    text and whatever the clock says: its content is the whole text (up to
    the first finishing chunk) without the markers, there is one hit for each
    marker and its [char_offset] is the position of that marker in the content;
    the [on_text] calls concatenate to the content and the [on_hit] calls are
    the outcome's hits; thinking goes to [on_thinking] in INLINE mode, to the
    outcome in SEPARATE mode and nowhere in SUPPRESS mode; all references are
    delivered, in order. *)
Theorem stage_faithful cfg cs :
  marker ≠ [] → (∀ n, cancelled n = false) → (∀ n, fails n = None) → _source_chunks cfg = (cs, None) →
  ∃ st, body cfg = Some (st, Ok (outcome_of st)) ∧
    let fed := until_finish cs in
    let its := scan marker 0 (mjoin (omap text_ fed)) in
    let log := (rs_log st).*2 in
    content (outcome_of st) = chars its ∧
    char_offset <$> outcome_hits (outcome_of st) = offsets 0 its ∧
    mjoin (texts log) = content (outcome_of st) ∧
    hits_called log = outcome_hits (outcome_of st) ∧
    thoughts log = (if decide (mode = INLINE) then omap thinking fed else []) ∧
    outcome_thinking (outcome_of st) = (if decide (mode = SEPARATE) then mjoin (omap thinking fed) else []) ∧
    refs log = omap references fed.
Proof.
  intros Hm Hc Hf Hcs.
  destruct (run_body_live marker flush_threshold strategy mode expired clock cancelled abandon fails
              Hc Hf cfg cs Hm Hcs) as (st & Hst & [F1 F2 F3 F4 F5 F6 F7 F8]).
  exists st. split; [exact Hst|].
  destruct (split_process_fields (until_finish cs)) as (E1 & E2 & E3).
  unfold thoughts_of, collected_of in *. rewrite E1 in *. rewrite E2 in *. rewrite E3 in *. cbn.
  rewrite F2. split_and!; try done. rewrite F8. destruct (decide (mode = SEPARATE)); reflexivity.
Qed.

(** No callback runs once the stage has been seen cancelled: if the
    cancellation token answers true from the [k]-th look on, no text, thinking,
    references or hit is delivered after tick [k], whatever the source, the
    drain deadline and the callbacks do. *)
Theorem stage_cancel cfg st o k :
  body cfg = Some (st, o) → (∀ n, (k ≤ n)%nat → cancelled n = true) →
  ∀ n e, (n, e) ∈ rs_log st → is_callback e = true ∧ (n ≤ k)%nat.
Proof.
  intros Hb Hk n e Hin. apply run_body_log in Hb. unfold log_ok in Hb. rewrite Forall_forall in Hb.
  destruct (Hb _ Hin) as (He & j & Hj & Hc). cbn in He, Hj. split; [done|]. subst n.
  destruct (decide (k ≤ j)%nat) as [Hle|]; [|lia]. rewrite Hk in Hc by done. done.
Qed.

(** A stage with a resource always returns or raises, and it holds the
    resource for exactly the time it runs: it acquires the token once and
    first, and releases that token once and last, on success, on an exception
    of the source or of a callback, when cancelled and when the drain deadline
    passes; when the governor refuses, nothing runs. *)
Theorem stage_resource cfg r acquire :
  marker ≠ [] → resource cfg = Some r → r ≠ [] →
  ∃ log o, stage_run marker flush_threshold strategy mode expired clock cancelled abandon fails
             (Some acquire) cfg = Some (log, o) ∧
    match acquire r with
    | Err e => log = [EvAcquire r] ∧ o = Err (GovernorError e)
    | Ok token => ∃ mid, log = EvAcquire r :: mid ++ (if decide (token = []) then [] else [EvRelease r token])
                         ∧ Forall (λ e, is_callback e = true) mid
    end.
Proof.
  intros Hm Hr Hne. unfold stage_run. rewrite Hr, decide_False by done.
  destruct (acquire r) as [token|e]; [|by eauto].
  destruct (run_body_ends marker flush_threshold strategy mode expired clock cancelled abandon fails cfg Hm)
    as (st & o & Hb). rewrite Hb. cbn. eexists _, _. split; [done|]. eexists. split; [done|].
  apply run_body_log in Hb. apply Forall_fmap. eapply Forall_impl; [exact Hb|]. by intros [n e] [He _].
Qed.

End Claims.

(** A stage on a source cut inside a marker. *)
Definition demo_stage : @StageConfig string :=
  {| source_type := LLM;
     source := Some ([text_chunk (lit "ab!"); thinking_chunk (lit "hm");
                      {| text_ := Some (lit "[img]c"); thinking := None; references := Some []; finish := true |}], None);
     passthrough_content := None; replay_chunks := None; resource := Some (lit "llm") |}.

Definition demo_late (now last : nat) : bool := (last <? now)%nat.

Lemma stage_faithful_witness :
  _source_chunks demo_stage =
    ([text_chunk (lit "ab!"); thinking_chunk (lit "hm");
      {| text_ := Some (lit "[img]c"); thinking := None; references := Some []; finish := true |}], None) ∧
  ∃ st, run_body (lit "![img]") 50 PARAGRAPH SEPARATE demo_late (λ n, n) (λ _, false) (λ _, false)
          (λ _, None) demo_stage = Some (st, Ok (stage_outcome st)) ∧
    content (stage_outcome st) = lit "abc" ∧ char_offset <$> outcome_hits (stage_outcome st) = [2%Z].
Proof.
  split; [reflexivity|].
  destruct (stage_faithful (lit "![img]") 50 PARAGRAPH SEPARATE demo_late (λ n, n) (λ _, false) (λ _, false)
    (λ _, None) demo_stage _ ltac:(done) ltac:(reflexivity) ltac:(reflexivity) ltac:(reflexivity))
    as (st & H1 & H2 & H3 & _).
  exists st. split; [exact H1|]. split; [rewrite H2; vm_compute; reflexivity|rewrite H3; vm_compute; reflexivity].
Defined.

(** The token is cancelled at the second look, inside the first chunk. *)
Lemma stage_cancel_witness :
  ∃ st o, run_body (lit "![img]") 50 PARAGRAPH INLINE demo_late (λ n, n) (λ n, (3 <=? n)%nat) (λ _, false)
          (λ _, None) demo_stage = Some (st, o) ∧
    rs_log st ≠ [] ∧ ∀ n e, (n, e) ∈ rs_log st → is_callback e = true ∧ (n ≤ 3)%nat.
Proof.
  destruct (run_body (lit "![img]") 50 PARAGRAPH INLINE demo_late (λ n, n) (λ n, (3 <=? n)%nat) (λ _, false)
          (λ _, None) demo_stage) as [[st o]|] eqn:Hb; [|vm_compute in Hb; discriminate Hb].
  exists st, o. split; [reflexivity|]. split.
  - intros Hl. vm_compute in Hb. injection Hb as <- <-. discriminate Hl.
  - apply (stage_cancel _ _ _ _ _ _ _ _ _ _ _ _ 3 Hb). intros n Hn. by apply Nat.leb_le.
Defined.

Lemma stage_resource_witness :
  ∃ log o, stage_run (lit "![img]") 50 PARAGRAPH INLINE demo_late (λ n, n) (λ _, false) (λ _, false)
             (λ n, if (n =? 3)%nat then Some "gone"%string else None)
             (Some (λ _, Ok (lit "t"))) demo_stage = Some (log, o) ∧
    ∃ mid, log = EvAcquire (lit "llm") :: mid ++ [EvRelease (lit "llm") (lit "t")]
           ∧ Forall (λ e, is_callback e = true) mid.
Proof.
  exact (stage_resource (lit "![img]") 50 PARAGRAPH INLINE demo_late (λ n, n) (λ _, false) (λ _, false)
             (λ n, if (n =? 3)%nat then Some "gone"%string else None) demo_stage (lit "llm") (λ _, Ok (lit "t"))
             ltac:(done) ltac:(reflexivity) ltac:(done)).
Defined.
