(* ===== verification/Mux.v ===== *)
(** The delivery side of the stream package: event types and envelopes
    (src/packages/stream/src/orditect/stream/events/) and the multiplexer that
    merges the substreams and numbers their events (mux/multiplexer.py).

    The multiplexer is shared by concurrent producers and one consumer; its
    model is a step relation whose steps are the pieces of code between two
    awaits.  [pending] holds the puts that wait for room in the queue
    ([asyncio.Queue.put]): any of them may be the next to enter. *)
From Stdlib Require Import ZArith Lia.
From stdpp Require Import prelude gmap list strings relations.
From S2P Require Import Prelude.
Local Open Scope list_scope.

Inductive EventType : Type :=
  | STREAM_START | STREAM_DELTA | ENRICH_MARKER | ENRICH_PLACEHOLDER | ENRICH_RESOLVED
  | STAGE_END | STREAM_MANIFEST | STREAM_END | STREAM_ERROR | STREAM_CANCELLED.
#[global] Instance EventType_eq_dec : EqDecision EventType.
Proof. solve_decision. Defined.

(** [EventType.value] *)
Definition event_type_value (t : EventType) : string :=
  match t with
  | STREAM_START => "stream.start" | STREAM_DELTA => "stream.delta"
  | ENRICH_MARKER => "enrich.marker" | ENRICH_PLACEHOLDER => "enrich.placeholder"
  | ENRICH_RESOLVED => "enrich.resolved" | STAGE_END => "stage.end"
  | STREAM_MANIFEST => "stream.manifest" | STREAM_END => "stream.end"
  | STREAM_ERROR => "stream.error" | STREAM_CANCELLED => "stream.cancelled"
  end.

Definition PROTOCOL_VERSION : Z := 1.

Section Mux.

(** The payload of an event, and the [ts] an envelope takes at its creation. *)
Context {D TS : Type}.

Record EventEnvelope := { env_v : Z; env_stream_id : string; env_stage : option string;
                          env_seq : Z; env_ts : TS; env_data : D }.

Record QueuedItem := { q_stream_id : string; q_stage : option string; q_event_type : EventType; q_data : D }.

Inductive BackpressurePolicy : Type := BLOCK | FAIL.

(** Where the consumer is: before the exit test of [events], inside
    [queue.get], or gone. *)
Inductive consumer : Type := AtTop | InGet | Stopped.

Record StreamMux := {
  queue : list (option QueuedItem);
  maxsize : nat;
  backpressure : BackpressurePolicy;
  allocators : gmap string Z;
  open_streams : gset string;
  closed : bool;
  pending : list (option QueuedItem);
  reader : consumer
}.

Definition mux_init (maxsize : nat) (bp : BackpressurePolicy) : StreamMux :=
  {| queue := []; maxsize := maxsize; backpressure := bp; allocators := ∅; open_streams := ∅;
     closed := false; pending := []; reader := AtTop |}.

(** [asyncio.Queue.full] *)
Definition full (m : StreamMux) : bool := (0 <? maxsize m)%nat && (maxsize m <=? length (queue m))%nat.

Definition with_queue (q : list (option QueuedItem)) (m : StreamMux) : StreamMux :=
  {| queue := q; maxsize := maxsize m; backpressure := backpressure m; allocators := allocators m;
     open_streams := open_streams m; closed := closed m; pending := pending m; reader := reader m |}.
Definition with_pending (p : list (option QueuedItem)) (m : StreamMux) : StreamMux :=
  {| queue := queue m; maxsize := maxsize m; backpressure := backpressure m; allocators := allocators m;
     open_streams := open_streams m; closed := closed m; pending := p; reader := reader m |}.
Definition with_open (o : gset string) (c : bool) (m : StreamMux) : StreamMux :=
  {| queue := queue m; maxsize := maxsize m; backpressure := backpressure m; allocators := allocators m;
     open_streams := o; closed := c; pending := pending m; reader := reader m |}.
Definition with_allocators (a : gmap string Z) (m : StreamMux) : StreamMux :=
  {| queue := queue m; maxsize := maxsize m; backpressure := backpressure m; allocators := a;
     open_streams := open_streams m; closed := closed m; pending := pending m; reader := reader m |}.
Definition with_reader (r : consumer) (m : StreamMux) : StreamMux :=
  {| queue := queue m; maxsize := maxsize m; backpressure := backpressure m; allocators := allocators m;
     open_streams := open_streams m; closed := closed m; pending := pending m; reader := r |}.

Inductive mux_error : Type := MuxClosed | BackpressureError.

(** What can be seen of a step. *)
Inductive mux_event : Type :=
  | Put (it : option QueuedItem)
  | Drop (it : option QueuedItem)
  | Deliver (env : EventEnvelope) (ty : EventType).

(** [setdefault] of the stream's allocator. *)
Definition ensure_allocator (sid : string) (a : gmap string Z) : gmap string Z :=
  match a !! sid with Some _ => a | None => <[sid := 0%Z]> a end.

Definition register (sid : string) (m : StreamMux) : StreamMux :=
  with_open ({[sid]} ∪ open_streams m) (closed m) (with_allocators (ensure_allocator sid (allocators m)) m).

(** [emit], up to its wait for room. *)
Definition emit (it : QueuedItem) (m : StreamMux) : res mux_error (StreamMux * list mux_event) :=
  if closed m then Err MuxClosed
  else match backpressure m with
  | BLOCK => Ok (with_pending (pending m ++ [Some it]) m, [])
  | FAIL =>
      if full m then Err BackpressureError
      else Ok (with_queue (queue m ++ [Some it]) m, [Put (Some it)])
  end.

(** [close_stream], up to its wait for room. *)
Definition close_stream (sid : string) (m : StreamMux) : StreamMux :=
  let o := open_streams m ∖ {[sid]} in
  if bool_decide (o = ∅) && negb (closed m)
  then with_pending (pending m ++ [None]) (with_open o true m)
  else with_open o (closed m) m.

Definition force_close (m : StreamMux) : StreamMux * list mux_event :=
  if closed m then (m, [])
  else
    let m := with_open ∅ true m in
    if full m then
      match queue m with
      | [] => (m, [])
      | x :: q =>
          let m' := with_queue q m in
          if full m' then (m', [Drop x]) else (with_queue (q ++ [None]) m', [Drop x; Put None])
      end
    else (with_queue (queue m ++ [None]) m, [Put None]).

(** The consumer takes one item: the stream's allocator numbers it. *)
Definition deliver (ts : TS) (it : QueuedItem) (m : StreamMux) : StreamMux * list mux_event :=
  let a := ensure_allocator (q_stream_id it) (allocators m) in
  let seq := (default 0 (a !! q_stream_id it) + 1)%Z in
  (with_reader AtTop (with_allocators (<[q_stream_id it := seq]> a) m),
   [Deliver {| env_v := PROTOCOL_VERSION; env_stream_id := q_stream_id it; env_stage := q_stage it;
               env_seq := seq; env_ts := ts; env_data := q_data it |} (q_event_type it)]).

(** The steps, with whether a step is a forced close. *)
Inductive mux_step : bool → StreamMux → list mux_event → StreamMux → Prop :=
  | step_register m sid : mux_step false m [] (register sid m)
  | step_emit m it m' evs : emit it m = Ok (m', evs) → mux_step false m evs m'
  | step_emit_error m it e : emit it m = Err e → mux_step false m [] m
  | step_enter m p1 x p2 :
      pending m = p1 ++ x :: p2 → full m = false →
      mux_step false m [Put x] (with_queue (queue m ++ [x]) (with_pending (p1 ++ p2) m))
  | step_close m sid : mux_step false m [] (close_stream sid m)
  | step_force m : mux_step true m (force_close m).2 (force_close m).1
  | step_top_stop m :
      reader m = AtTop → closed m = true → queue m = [] → mux_step false m [] (with_reader Stopped m)
  | step_top_get m :
      reader m = AtTop → closed m && bool_decide (queue m = []) = false → mux_step false m [] (with_reader InGet m)
  | step_sentinel m q :
      reader m = InGet → queue m = None :: q → mux_step false m [] (with_reader Stopped (with_queue q m))
  | step_deliver m ts it q :
      reader m = InGet → queue m = Some it :: q →
      mux_step false m (deliver ts it (with_queue q m)).2 (deliver ts it (with_queue q m)).1.

Inductive mux_run : bool → StreamMux → list mux_event → StreamMux → Prop :=
  | run_nil m : mux_run false m [] m
  | run_snoc f f' m tr m' evs m'' :
      mux_run f m tr m' → mux_step f' m' evs m'' → mux_run (f || f') m (tr ++ evs) m''.

(** *** What a trace says *)

Definition puts (tr : list mux_event) : list (option QueuedItem) :=
  omap (λ e, match e with Put it => Some it | _ => None end) tr.

(** A delivered event without its number, version and time. *)
Definition delivered (tr : list mux_event) : list QueuedItem :=
  omap (λ e, match e with
             | Deliver env ty => Some {| q_stream_id := env_stream_id env; q_stage := env_stage env;
                                         q_event_type := ty; q_data := env_data env |}
             | _ => None end) tr.

(** The numbers of the events delivered for one stream. *)
Definition seqs (sid : string) (tr : list mux_event) : list Z :=
  omap (λ e, match e with
             | Deliver env _ => if decide (env_stream_id env = sid) then Some (env_seq env) else None
             | _ => None end) tr.

(** Items that left the queue unseen: dropped by a forced close, or the sentinel. *)
Definition drops (tr : list mux_event) : list (option QueuedItem) :=
  omap (λ e, match e with Drop it => Some it | _ => None end) tr.

Definition one_to (n : Z) : list Z := Z.of_nat <$> seq 1 (Z.to_nat n).

Lemma one_to_succ n : (0 ≤ n)%Z → one_to (n + 1) = one_to n ++ [(n + 1)%Z].
Proof.
  intros Hn. unfold one_to. replace (Z.to_nat (n + 1)) with (S (Z.to_nat n)) by lia.
  rewrite seq_S, fmap_app. cbn. do 2 f_equal. lia.
Qed.

Definition omap_events {B} (f : mux_event → option B) (a b : list mux_event) :
  omap f (a ++ b) = omap f a ++ omap f b := omap_app f a b.

(** *** Numbering *)

Definition numbered (tr : list mux_event) (m : StreamMux) : Prop :=
  ∀ sid, seqs sid tr = one_to (default 0%Z (allocators m !! sid)) ∧ (0 ≤ default 0 (allocators m !! sid))%Z.

Lemma ensure_default sid sid' a :
  default 0%Z (ensure_allocator sid a !! sid') = default 0%Z (a !! sid').
Proof.
  unfold ensure_allocator. destruct (a !! sid) eqn:E; [done|].
  destruct (decide (sid = sid')) as [->|]; [by rewrite lookup_insert_eq, E|by rewrite lookup_insert_ne].
Qed.

Lemma numbered_same tr evs m m' :
  numbered tr m → (∀ sid, seqs sid evs = []) →
  (∀ sid, default 0%Z (allocators m' !! sid) = default 0%Z (allocators m !! sid)) →
  numbered (tr ++ evs) m'.
Proof.
  intros Hn He Ha sid. unfold seqs. rewrite omap_events. fold (seqs sid tr) (seqs sid evs).
  rewrite He, app_nil_r, Ha. apply Hn.
Qed.

Lemma force_close_allocators m : allocators (force_close m).1 = allocators m.
Proof.
  unfold force_close. destruct (closed m); [done|]. destruct (full _); [|done].
  cbn. destruct (queue m); [done|]. by destruct (full _).
Qed.

Lemma force_close_seqs m sid : seqs sid (force_close m).2 = [].
Proof.
  unfold force_close. destruct (closed m); [done|]. destruct (full _); [|done].
  cbn. destruct (queue m); [done|]. by destruct (full _).
Qed.

Lemma numbered_step f m evs m' tr : mux_step f m evs m' → numbered tr m → numbered (tr ++ evs) m'.
Proof.
  intros Hs Hn. destruct Hs as [m sid|m it m' evs He|m it e He|m p1 x p2 Hp Hf|m sid|m|m Hr Hc Hq|m Hr Hc|m q Hr Hq|m ts it q Hr Hq].
  - eapply numbered_same; [done|done|]. intros s. apply ensure_default.
  - unfold emit in He. destruct (closed m); [done|]. destruct (backpressure m); [|destruct (full m); [done|]];
      injection He as <- <-; by eapply numbered_same.
  - by eapply numbered_same.
  - by eapply numbered_same.
  - eapply numbered_same; [done|done|]. unfold close_stream. by destruct (_ && _).
  - eapply numbered_same; [done|apply force_close_seqs|]. by rewrite force_close_allocators.
  - by eapply numbered_same.
  - by eapply numbered_same.
  - by eapply numbered_same.
  - intros sid. unfold seqs. rewrite omap_events. fold (seqs sid tr). cbn -[ensure_allocator].
    destruct (Hn sid) as [H1 H2]. destruct (decide (q_stream_id it = sid)) as [<-|Hne].
    + rewrite lookup_insert_eq, ensure_default. cbn. rewrite H1, one_to_succ by done. split; [done|lia].
    + rewrite lookup_insert_ne, ensure_default, app_nil_r by done. done.
Qed.

(** *** Order *)

(** Everything put is, in order, delivered, dropped or a read sentinel, or still queued. *)
Inductive accounted : list (option QueuedItem) → list QueuedItem → list (option QueuedItem) → Prop :=
  | acc_nil q : accounted q [] q
  | acc_deliver it ps ds q : accounted ps ds q → accounted (Some it :: ps) (it :: ds) q
  | acc_gone x ps ds q : accounted ps ds q → accounted (x :: ps) ds q.

Lemma accounted_put ps ds q x : accounted ps ds q → accounted (ps ++ [x]) ds (q ++ [x]).
Proof. induction 1; simpl; constructor; done. Qed.

Lemma accounted_deliver ps ds it q : accounted ps ds (Some it :: q) → accounted ps (ds ++ [it]) q.
Proof.
  remember (Some it :: q) as q' eqn:E. induction 1; subst; simpl; constructor; auto. constructor.
Qed.

Lemma accounted_gone ps ds x q : accounted ps ds (x :: q) → accounted ps ds q.
Proof. remember (x :: q) as q' eqn:E. induction 1; subst; simpl; constructor; auto. constructor. Qed.

Lemma accounted_sublist ps ds q : accounted ps ds q → (Some <$> ds) ++ q `sublist_of` ps.
Proof. induction 1; cbn; [done|by constructor|by constructor]. Qed.

Lemma queue_deliver ts it q m : queue (deliver ts it (with_queue q m)).1 = q.
Proof. done. Qed.

Lemma force_close_accounted m ps ds :
  accounted ps ds (queue m) → accounted (ps ++ puts (force_close m).2) ds (queue (force_close m).1).
Proof.
  intros H. unfold force_close. destruct (closed m); [by rewrite app_nil_r|].
  destruct (full (with_open ∅ true m)); cbn; [|by apply accounted_put].
  destruct (queue m) as [|x q] eqn:E; cbn; [by rewrite app_nil_r, E|].
  apply accounted_gone in H. destruct (full _); cbn; [by rewrite app_nil_r|by apply accounted_put].
Qed.

Lemma force_close_delivered m : delivered (force_close m).2 = [].
Proof.
  unfold force_close. destruct (closed m); [done|]. destruct (full _); [|done].
  cbn. destruct (queue m); [done|]. by destruct (full _).
Qed.

Lemma accounted_step f m evs m' ps ds :
  mux_step f m evs m' → accounted ps ds (queue m) →
  accounted (ps ++ puts evs) (ds ++ delivered evs) (queue m').
Proof.
  intros Hs Ha. destruct Hs as [m sid|m it m' evs He|m it e He|m p1 x p2 Hp Hf|m sid|m|m Hr Hc Hq|m Hr Hc|m q Hr Hq|m ts it q Hr Hq];
    try (cbn; by rewrite !app_nil_r).
  - unfold emit in He. destruct (closed m); [done|]. destruct (backpressure m); [|destruct (full m); [done|]];
      injection He as <- <-; cbn; rewrite ?app_nil_r; [done|by apply accounted_put].
  - cbn. rewrite app_nil_r. by apply accounted_put.
  - cbn. rewrite !app_nil_r. unfold close_stream. by destruct (_ && _).
  - rewrite force_close_delivered, app_nil_r. by apply force_close_accounted.
  - cbn. rewrite !app_nil_r. rewrite Hq in Ha. by apply accounted_gone in Ha.
  - rewrite queue_deliver. cbn. rewrite app_nil_r. rewrite Hq in Ha. apply accounted_deliver in Ha. by destruct it.
Qed.

(** Without a forced close the only thing that leaves the queue unseen is the
    sentinel that stops the consumer. *)
Definition in_order (ps : list (option QueuedItem)) (ds : list QueuedItem) (m : StreamMux) : Prop :=
  ∃ gone, ps = (Some <$> ds) ++ gone ++ queue m ∧
    (gone = [] ∨ gone = [None] ∧ reader m = Stopped).

Lemma in_order_keep ps ds m m' x :
  in_order ps ds m → reader m' = reader m → queue m' = queue m ++ x → in_order (ps ++ x) ds m'.
Proof. intros (g & -> & Hg) Hr Hq. exists g. rewrite Hr, Hq, <- !app_assoc. done. Qed.

Lemma in_order_step m evs m' ps ds :
  mux_step false m evs m' → in_order ps ds m → in_order (ps ++ puts evs) (ds ++ delivered evs) m'.
Proof.
  intros Hs Ho. remember false as f eqn:Hf.
  destruct Hs as [m sid|m it m' evs He|m it e He|m p1 x p2 Hp Hf'|m sid|m|m Hr Hc Hq|m Hr Hc|m q Hr Hq|m ts it q Hr Hq];
    try discriminate Hf; cbn -[deliver emit]; rewrite ?app_nil_r.
  - done.
  - unfold emit in He. destruct (closed m); [done|]. destruct (backpressure m); [|destruct (full m); [done|]];
      injection He as <- <-; cbn; rewrite ?app_nil_r; [done|]. by eapply in_order_keep.
  - done.
  - by eapply in_order_keep.
  - unfold close_stream. by destruct (_ && _).
  - destruct Ho as (g & -> & [->|[-> Hg]]); [|congruence]. exists []. split; [done|by left].
  - destruct Ho as (g & -> & [->|[-> Hg]]); [|congruence]. exists []. split; [done|by left].
  - destruct Ho as (g & -> & [->|[-> Hg]]); [|congruence]. exists [None]. rewrite Hq. split; [done|by right].
  - destruct Ho as (g & -> & [->|[-> Hg]]); [|congruence]. exists []. rewrite Hq, fmap_app, <- app_assoc.
    destruct it. split; [done|by left].
Qed.

Lemma mux_run_facts f m0 tr m :
  mux_run f m0 tr m → queue m0 = [] → allocators m0 = ∅ →
  numbered tr m ∧ accounted (puts tr) (delivered tr) (queue m) ∧
  (f = false → in_order (puts tr) (delivered tr) m).
Proof.
  intros Hrun Hq Ha. induction Hrun as [m|f f' m tr m' evs m'' Hrun IH Hs].
  - split; [|split].
    + intros sid. by rewrite Ha, lookup_empty.
    + rewrite Hq. constructor.
    + intros _. exists []. rewrite Hq. split; [done|by left].
  - destruct (IH Hq Ha) as (H1 & H2 & H3). split; [by eapply numbered_step|].
    assert (Hp : puts (tr ++ evs) = puts tr ++ puts evs) by apply omap_events.
    assert (Hd : delivered (tr ++ evs) = delivered tr ++ delivered evs) by apply omap_events.
    rewrite Hp, Hd. split; [by eapply accounted_step|].
    intros [-> ->]%orb_false_iff. by apply (in_order_step m'); [|apply H3].
Qed.

(** C28: the multiplexer numbers and orders what it delivers.  In every run of
    producers, closers and the consumer, in any interleaving, the events of
    each stream are delivered with the numbers 1, 2, 3, ... without a gap, and
    what is delivered, followed by what is still queued, is a subsequence of
    what entered the queue.  When nobody forces the close nothing is lost or
    reordered: the events put are exactly those delivered followed by those
    queued, except for the sentinel that stopped the consumer. *)
Theorem mux_order max bp f tr m :
  mux_run f (mux_init max bp) tr m →
  (∀ sid, ∃ n, seqs sid tr = one_to n ∧ default 0%Z (allocators m !! sid) = n) ∧
  (Some <$> delivered tr) ++ queue m `sublist_of` puts tr ∧
  (f = false → ∃ gone, puts tr = (Some <$> delivered tr) ++ gone ++ queue m ∧
                       (gone = [] ∨ gone = [None] ∧ reader m = Stopped)).
Proof.
  intros Hrun. destruct (mux_run_facts _ _ _ _ Hrun) as (H1 & H2 & H3); [done..|].
  split; [|split; [by apply accounted_sublist|exact H3]].
  intros sid. eexists. split; [apply H1|done].
Qed.

End Mux.

(** Two streams, one of them blocked on a full queue, and a normal close. *)
Definition demo_item (sid : string) (n : nat) : @QueuedItem nat :=
  {| q_stream_id := sid; q_stage := None; q_event_type := STREAM_DELTA; q_data := n |}.

Lemma demo_mux_run : ∃ tr m,
  mux_run (D := nat) (TS := nat) false (mux_init 1 BLOCK) tr m ∧ delivered tr = [demo_item "a" 1; demo_item "b" 2].
Proof.
  eexists _, _. split.
  { eapply (run_snoc false false);
    [eapply (run_snoc false false);
    [eapply (run_snoc false false);
    [eapply (run_snoc false false);
    [eapply (run_snoc false false);
    [eapply (run_snoc false false);
    [eapply (run_snoc false false);
    [eapply (run_snoc false false);
    [apply run_nil
    |eapply (step_emit _ (demo_item "a" 1)); reflexivity]
    |eapply (step_enter _ [] _ []); reflexivity]
    |eapply (step_emit _ (demo_item "b" 2)); reflexivity]
    |eapply step_top_get; reflexivity]
    |eapply (step_deliver _ 5%nat); reflexivity]
    |eapply (step_enter _ [] _ []); reflexivity]
    |eapply step_top_get; reflexivity]
    |eapply (step_deliver _ 7%nat); reflexivity]. }
  reflexivity.
Defined.

Lemma mux_order_witness :
  ∃ tr m, mux_run (D := nat) (TS := nat) false (mux_init 1 BLOCK) tr m ∧
    delivered tr = [demo_item "a" 1; demo_item "b" 2] ∧
    (Some <$> delivered tr) ++ queue m `sublist_of` puts tr.
Proof.
  destruct demo_mux_run as (tr & m & Hrun & Hd). exists tr, m. split; [exact Hrun|]. split; [exact Hd|].
  destruct (mux_order 1 BLOCK false tr m Hrun) as (_ & H & _). exact H.
Defined.
