(* ===== verification/Disconnect.v ===== *)
(** Disconnected clients (src/packages/stream/src/orditect/stream/disconnect/):
    the bounded buffer of the grace period and the monitor that runs the
    configured policy, with the cancellation token it leads to
    (core/cancellation.py). *)
From Stdlib Require Import ZArith Lia.
From stdpp Require Import prelude list strings relations.
From S2P Require Import Prelude.
Local Open Scope list_scope.

(** ** CancellationToken *)

Record CancellationToken := { token_set : bool; token_reason : option string; cancelled_at : option Z }.

Definition token_init : CancellationToken := {| token_set := false; token_reason := None; cancelled_at := None |}.

(** [cancel] at time [now]. *)
Definition token_cancel (now : Z) (reason : option string) (t : CancellationToken) : CancellationToken :=
  if token_set t then t else {| token_set := true; token_reason := reason; cancelled_at := Some now |}.

(** [throw_if_cancelled]: the message of the exception, if any. *)
Definition throw_if_cancelled (t : CancellationToken) : option string :=
  if token_set t
  then Some (match token_reason t with
             | Some r => if decide (r = ""%string) then "cancelled by user" else r
             | None => "cancelled by user" end)%string
  else None.

(** The first cancellation wins. *)
Lemma token_cancel_first now now' r r' t :
  token_cancel now' r' (token_cancel now r t) = token_cancel now r t ∧ token_set (token_cancel now r t) = true.
Proof. unfold token_cancel. destruct (token_set t) eqn:E; simpl; by rewrite ?E. Qed.

Section Grace.

(** A buffered event: an envelope and its type. *)
Context {B : Type}.

(** ** GraceBuffer: a [deque] of bounded length and the gap flag. *)
Record GraceBuffer := { buf : list B; maxlen : nat; gap : bool }.

Definition grace_init (n : nat) : GraceBuffer := {| buf := []; maxlen := n; gap := false |}.

(** [put]; a full [deque] drops its oldest element on [append], and one of
    length zero keeps nothing. *)
Definition grace_put (e : B) (g : GraceBuffer) : GraceBuffer :=
  {| buf := drop (length (buf g) + 1 - maxlen g) (buf g ++ [e]);
     maxlen := maxlen g;
     gap := gap g || bool_decide (length (buf g) = maxlen g) |}.

Definition grace_drain (g : GraceBuffer) : (list B * bool) * GraceBuffer :=
  ((buf g, gap g), {| buf := []; maxlen := maxlen g; gap := false |}).

(** The events put since the buffer was last empty. *)
Definition grace_puts (es : list B) (g : GraceBuffer) : GraceBuffer := fold_left (λ g e, grace_put e g) es g.

Lemma grace_puts_spec es g0 seen :
  buf g0 = drop (length seen - maxlen g0) seen →
  gap g0 = bool_decide (maxlen g0 < length seen) →
  let g := grace_puts es g0 in
  maxlen g = maxlen g0 ∧ buf g = drop (length (seen ++ es) - maxlen g0) (seen ++ es) ∧
  gap g = bool_decide (maxlen g0 < length (seen ++ es)).
Proof.
  revert g0 seen. induction es as [|e es IH]; intros g0 seen Hb Hg; cbn [grace_puts fold_left].
  - by rewrite app_nil_r.
  - destruct (IH (grace_put e g0) (seen ++ [e])) as (H1 & H2 & H3).
    + cbn. rewrite Hb, length_drop, length_app. cbn.
      destruct (decide (length seen ≤ maxlen g0)) as [Hle|Hgt].
      * replace (length seen - maxlen g0) with 0 by lia. rewrite drop_0. f_equal. lia.
      * destruct (decide (maxlen g0 = 0)) as [E0|Hn0].
        -- rewrite E0, !Nat.sub_0_r, drop_all. simpl.
           rewrite !drop_ge; [done| |]; rewrite ?length_app; simpl; lia.
        -- rewrite (drop_app_le (drop _ _)) by (rewrite length_drop; lia).
           rewrite (drop_app_le seen) by lia. rewrite drop_drop. f_equal. f_equal. lia.
    + cbn. rewrite Hg, Hb, length_drop, length_app. cbn.
      repeat case_bool_decide; simpl; try done; lia.
    + cbn in *. rewrite <- app_assoc in *. done.
Qed.

(** ** DisconnectMonitor *)

Inductive DisconnectPolicy : Type := CANCEL | GRACE | CONTINUE.
#[global] Instance DisconnectPolicy_eq_dec : EqDecision DisconnectPolicy.
Proof. solve_decision. Defined.

Record DisconnectMonitor := {
  on_disconnect : DisconnectPolicy;
  gbuf : GraceBuffer;
  disconnected : bool;
  timers : list (nat * bool);
  timer_task : option nat;
  cancelled : bool;
  on_cancel_calls : nat
}.

(** [timers]: every timer started, with whether it still runs; [timer_task]:
    the one the monitor refers to; [on_cancel_calls] counts the calls of the
    [on_cancel] callback. *)
Definition monitor_init (p : DisconnectPolicy) (n : nat) : DisconnectMonitor :=
  {| on_disconnect := p; gbuf := grace_init n; disconnected := false; timers := [];
     timer_task := None; cancelled := false; on_cancel_calls := 0 |}.

Definition is_disconnected (m : DisconnectMonitor) : bool := disconnected m.

Definition should_buffer (m : DisconnectMonitor) : bool :=
  disconnected m && bool_decide (on_disconnect m = GRACE) && negb (cancelled m).

Definition _do_cancel (m : DisconnectMonitor) : DisconnectMonitor :=
  if cancelled m then m
  else {| on_disconnect := on_disconnect m; gbuf := gbuf m; disconnected := disconnected m;
          timers := timers m; timer_task := timer_task m; cancelled := true;
          on_cancel_calls := S (on_cancel_calls m) |}.

Definition _start_grace_timer (m : DisconnectMonitor) : DisconnectMonitor :=
  let id := length (timers m) in
  {| on_disconnect := on_disconnect m; gbuf := gbuf m; disconnected := disconnected m;
     timers := timers m ++ [(id, true)]; timer_task := Some id; cancelled := cancelled m;
     on_cancel_calls := on_cancel_calls m |}.

(** Cancel the timer the monitor refers to. *)
Definition stop_timer (m : DisconnectMonitor) : DisconnectMonitor :=
  match timer_task m with
  | Some id =>
      {| on_disconnect := on_disconnect m; gbuf := gbuf m; disconnected := disconnected m;
         timers := (λ t, (t.1, t.2 && negb (bool_decide (t.1 = id)))) <$> timers m;
         timer_task := None; cancelled := cancelled m; on_cancel_calls := on_cancel_calls m |}
  | None => m
  end.

Definition set_disconnected (b : bool) (m : DisconnectMonitor) : DisconnectMonitor :=
  {| on_disconnect := on_disconnect m; gbuf := gbuf m; disconnected := b; timers := timers m;
     timer_task := timer_task m; cancelled := cancelled m; on_cancel_calls := on_cancel_calls m |}.

Definition set_gbuf (g : GraceBuffer) (m : DisconnectMonitor) : DisconnectMonitor :=
  {| on_disconnect := on_disconnect m; gbuf := g; disconnected := disconnected m; timers := timers m;
     timer_task := timer_task m; cancelled := cancelled m; on_cancel_calls := on_cancel_calls m |}.

Definition notify_disconnect (m : DisconnectMonitor) : DisconnectMonitor :=
  if disconnected m then m
  else
    let m := set_disconnected true m in
    match on_disconnect m with
    | CANCEL => _do_cancel m
    | GRACE => _start_grace_timer m
    | CONTINUE => m
    end.

Definition notify_reconnect (m : DisconnectMonitor) : DisconnectMonitor * (list B * bool) :=
  if negb (bool_decide (on_disconnect m = GRACE)) || cancelled m then (m, ([], false))
  else
    let m := stop_timer (set_disconnected false m) in
    let '(out, g) := grace_drain (gbuf m) in
    (set_gbuf g m, out).

Definition monitor_close (m : DisconnectMonitor) : DisconnectMonitor := stop_timer m.

(** A running timer whose grace period is over. *)
Definition timer_fires (id : nat) (m : DisconnectMonitor) : option DisconnectMonitor :=
  if bool_decide ((id, true) ∈ timers m)
  then Some (_do_cancel
         {| on_disconnect := on_disconnect m; gbuf := gbuf m; disconnected := disconnected m;
            timers := (λ t, (t.1, t.2 && negb (bool_decide (t.1 = id)))) <$> timers m;
            timer_task := timer_task m; cancelled := cancelled m; on_cancel_calls := on_cancel_calls m |})
  else None.

(** The consumer side: an event for a client that is away goes to the buffer. *)
Definition buffer_event (e : B) (m : DisconnectMonitor) : DisconnectMonitor :=
  if should_buffer m then set_gbuf (grace_put e (gbuf m)) m else m.

Inductive monitor_step (m : DisconnectMonitor) : DisconnectMonitor → Prop :=
  | m_disconnect : monitor_step m (notify_disconnect m)
  | m_reconnect : monitor_step m (notify_reconnect m).1
  | m_close : monitor_step m (monitor_close m)
  | m_fire id m' : timer_fires id m = Some m' → monitor_step m m'
  | m_event e : monitor_step m (buffer_event e m).

(** *** Invariant: under the grace policy a running timer means that the
    client is away; the cancel callback runs at most once. *)
Record monitor_ok (m : DisconnectMonitor) : Prop := {
  ok_calls : on_cancel_calls m = if cancelled m then 1%nat else 0%nat;
  ok_running : ∀ id, (id, true) ∈ timers m → on_disconnect m = GRACE ∧ timer_task m = Some id ∧ disconnected m = true;
  ok_ids : ∀ t, t ∈ timers m → (t.1 < length (timers m))%nat;
  ok_timer : ∀ id, timer_task m = Some id → disconnected m = true
}.

Lemma do_cancel_ok m : monitor_ok m → monitor_ok (_do_cancel m).
Proof.
  intros [H1 H2 H3 H4]. unfold _do_cancel. destruct (cancelled m) eqn:E; [by split; rewrite ?E|].
  split; simpl; auto.
Qed.

Lemma stop_elem (id0 : nat) id (ts : list (nat * bool)) :
  (id, true) ∈ ((λ t, (t.1, t.2 && negb (bool_decide (t.1 = id0)))) <$> ts) → (id, true) ∈ ts ∧ id ≠ id0.
Proof.
  intros ([i b] & Heq & Hin)%list_elem_of_fmap. simpl in Heq. injection Heq as -> Hb.
  symmetry in Hb. apply andb_true_iff in Hb as [-> Hb]. split; [done|].
  apply negb_true_iff, bool_decide_eq_false in Hb. done.
Qed.

Lemma stop_lt (id0 : nat) (ts : list (nat * bool)) t :
  (∀ t, t ∈ ts → (t.1 < length ts)%nat) →
  t ∈ ((λ t, (t.1, t.2 && negb (bool_decide (t.1 = id0)))) <$> ts) →
  (t.1 < length ((λ t : nat * bool, (t.1, t.2 && negb (bool_decide (t.1 = id0)))) <$> ts))%nat.
Proof. intros H (x & -> & Hx)%list_elem_of_fmap. rewrite length_fmap. simpl. auto. Qed.

Lemma stop_timer_none m id : monitor_ok m → (id, true) ∉ timers (stop_timer m).
Proof.
  intros Hok. unfold stop_timer. destruct (timer_task m) as [j|] eqn:Et; simpl.
  - intros [Hin Hne]%stop_elem. destruct (ok_running _ Hok _ Hin) as (_ & H & _). congruence.
  - intros Hin. destruct (ok_running _ Hok _ Hin) as (_ & H & _). congruence.
Qed.

Lemma stop_timer_ok m b : monitor_ok m → monitor_ok (set_disconnected b (stop_timer m)).
Proof.
  intros Hok. pose proof (λ id, stop_timer_none m id Hok) as Hn. destruct Hok as [H1 H2 H3 H4]. split; simpl.
  - unfold stop_timer. by destruct (timer_task m).
  - intros id Hin. by destruct (Hn id).
  - unfold stop_timer. destruct (timer_task m); [|done]. simpl. intros t. by apply stop_lt.
  - unfold stop_timer. destruct (timer_task m) eqn:Et; simpl; congruence.
Qed.

Lemma set_disconnected_stop b m : stop_timer (set_disconnected b m) = set_disconnected b (stop_timer m).
Proof. unfold stop_timer. simpl. by destruct (timer_task m). Qed.

Lemma monitor_step_ok m m' : monitor_step m m' → monitor_ok m → monitor_ok m'.
Proof.
  intros Hs Hok. destruct Hs as [| | |id m' Hf|e].
  - unfold notify_disconnect. destruct (disconnected m) eqn:Ed; [done|].
    assert (Hok' : monitor_ok (set_disconnected true m)).
    { destruct Hok as [H1 H2 H3 H4]. split; simpl; auto. intros id Hin. by destruct (H2 id Hin) as (? & ? & ?). }
    simpl. destruct (on_disconnect m) eqn:Ep; [by apply do_cancel_ok| |done].
    assert (Hno : ∀ id, (id, true) ∉ timers m).
    { intros id Hin. destruct (ok_running _ Hok id Hin) as (_ & _ & H). congruence. }
    destruct Hok' as [H1 H2 H3 H4]. split; simpl in *; [done| | |done].
    + intros id [Hin|Hin%list_elem_of_singleton]%elem_of_app; [by destruct (Hno id)|]. by simplify_eq.
    + intros t [Hin| ->%list_elem_of_singleton]%elem_of_app; rewrite length_app; simpl; [|lia].
      specialize (H3 _ Hin). lia.
  - unfold notify_reconnect. destruct (_ || _); [done|]. simpl. rewrite set_disconnected_stop.
    destruct (stop_timer_ok m false Hok). by split.
  - unfold monitor_close. pose proof (stop_timer_ok m (disconnected m) Hok) as [H1 H2 H3 H4].
    assert (Hd : disconnected (stop_timer m) = disconnected m) by (unfold stop_timer; by destruct (timer_task m)).
    split; simpl in *; auto; [|by rewrite Hd]. intros id Hin. by destruct (stop_timer_none m id Hok).
  - unfold timer_fires in Hf. case_bool_decide as Hin; [|done]. injection Hf as <-.
    apply do_cancel_ok. destruct Hok as [H1 H2 H3 H4]. split; simpl; [done| | |done].
    + intros j [Hj _]%stop_elem. auto.
    + intros t. by apply stop_lt.
  - unfold buffer_event. destruct (should_buffer m); [|done]. by destruct Hok; split.
Qed.

Lemma monitor_init_ok p n : monitor_ok (monitor_init p n).
Proof. split; simpl; [done|intros id Hin; by apply not_elem_of_nil in Hin|intros t Hin; by apply not_elem_of_nil in Hin|done]. Qed.

Lemma monitor_reach_ok p n m : rtc monitor_step (monitor_init p n) m → monitor_ok m.
Proof.
  intros Hr. assert (H : ∀ m0 m, rtc monitor_step m0 m → monitor_ok m0 → monitor_ok m).
  { clear. induction 1 as [|m0 m1 m2 Hs Hr IH]; [done|]. intros Hok. apply IH. by eapply monitor_step_ok. }
  by eapply H, monitor_init_ok.
Qed.

Definition buffer_events (es : list B) (m : DisconnectMonitor) : DisconnectMonitor :=
  fold_left (λ m e, buffer_event e m) es m.

Lemma buffer_events_gbuf es m :
  should_buffer m = true →
  buffer_events es m = set_gbuf (grace_puts es (gbuf m)) m.
Proof.
  revert m. induction es as [|e es IH]; intros m Hs; [by destruct m|].
  assert (He : buffer_event e m = set_gbuf (grace_put e (gbuf m)) m) by (unfold buffer_event; by rewrite Hs).
  change (buffer_events (e :: es) m) with (buffer_events es (buffer_event e m)).
  rewrite He. rewrite (IH (set_gbuf (grace_put e (gbuf m)) m)); [done|exact Hs].
Qed.

(** A client that comes back within the grace period gets what it missed.
    In every reachable state of the monitor the cancel callback has run at most
    once, and a running grace timer is the one the monitor refers to and its
    client is away; if the client is away under the grace policy with an empty
    buffer and not cancelled, then after any events [es] are buffered a
    reconnection returns the newest events that fit, all of them and in order,
    with the gap flag exactly when older ones were evicted, and leaves no timer
    running that could still cancel the stream. *)
Theorem grace_reconnect p n m es :
  rtc monitor_step (monitor_init p n) m →
  on_cancel_calls m = (if cancelled m then 1%nat else 0%nat) ∧
  (∀ id, (id, true) ∈ timers m → timer_task m = Some id ∧ disconnected m = true) ∧
  (should_buffer m = true → buf (gbuf m) = [] → gap (gbuf m) = false →
   let '(m', (out, missed)) := notify_reconnect (buffer_events es m) in
   out = drop (length es - maxlen (gbuf m)) es ∧ missed = bool_decide (maxlen (gbuf m) < length es)%nat ∧
   buf (gbuf m') = [] ∧ disconnected m' = false ∧ ∀ id, (id, true) ∉ timers m').
Proof.
  intros Hr. assert (Hok := monitor_reach_ok _ _ _ Hr).
  split; [apply Hok|]. split; [intros id Hin; by destruct (ok_running _ Hok id Hin) as (_ & ? & ?)|].
  intros Hs Hb Hg. rewrite buffer_events_gbuf by done.
  destruct (grace_puts_spec es (gbuf m) []) as (H1 & H2 & H3).
  { by rewrite Hb, drop_nil. } { rewrite Hg. symmetry. apply bool_decide_eq_false. simpl. lia. }
  unfold should_buffer in Hs. apply andb_true_iff in Hs as [[Hd Hp]%andb_true_iff Hc].
  unfold notify_reconnect. simpl. rewrite Hp. apply negb_true_iff in Hc. rewrite Hc. simpl.
  assert (Hgb : gbuf (stop_timer (set_disconnected false (set_gbuf (grace_puts es (gbuf m)) m)))
                = grace_puts es (gbuf m)) by (unfold stop_timer; simpl; by destruct (timer_task m)).
  rewrite Hgb, H2, H3. simpl. split_and!; try done.
  - unfold stop_timer. simpl. by destruct (timer_task m).
  - intros id Hin. apply (stop_timer_none m id Hok). revert Hin. unfold stop_timer. simpl.
    by destruct (timer_task m).
Qed.

End Grace.

Lemma grace_reconnect_witness :
  rtc monitor_step (monitor_init (B := nat) GRACE 2) (notify_disconnect (monitor_init GRACE 2)) ∧
  (notify_reconnect (buffer_events [1; 2; 3] (notify_disconnect (monitor_init GRACE 2)))).2 = ([2; 3], true).
Proof.
  assert (Hr : rtc monitor_step (monitor_init (B := nat) GRACE 2) (notify_disconnect (monitor_init GRACE 2)))
    by (apply rtc_once, m_disconnect).
  split; [exact Hr|]. destruct (grace_reconnect GRACE 2 _ [1; 2; 3] Hr) as (_ & _ & H).
  specialize (H eq_refl eq_refl eq_refl).
  destruct (notify_reconnect _) as [m' [out missed]]. destruct H as (-> & -> & _). reflexivity.
Defined.
