(* ===== verification/Enrich.v ===== *)
(** Rich-media placeholders of the stream package
    (src/packages/stream/src/orditect/stream/enrich/): the registry of
    placeholder records (placeholder.py) and the manager that creates them,
    dispatches the enricher and settles what is late (manager.py).

    The manager's coroutines (one per hit, one per dispatched placeholder, and
    [settle]) run concurrently; the model is a step relation whose steps are
    the pieces of code between two awaits that can suspend.  The registry's
    lock is never held across such an await, so its operations are atomic. *)
From Stdlib Require Import ZArith Lia.
From stdpp Require Import prelude gmap list strings relations.
From S2P Require Import Prelude.
Local Open Scope list_scope.

Inductive PlaceholderState : Type := PENDING | RESOLVED | FAILED.
#[global] Instance PlaceholderState_eq_dec : EqDecision PlaceholderState.
Proof. solve_decision. Defined.

Record PlaceholderRecord := {
  placeholder_id : string;
  stream_id : string;
  stage : option string;
  context_text : string;
  loading_url : string;
  task_ref : string;
  state : PlaceholderState;
  url : option string;
  fallback_url : option string;
  char_offset : Z;
  meta : row;
  created_at : Z;
  resolved_at : option Z;
  error : option string
}.

Definition elapsed (r : PlaceholderRecord) : option Z := (λ t, (t - created_at r)%Z) <$> resolved_at r.

(** ** PlaceholderRegistry: the records by id, in the order of registration. *)
Definition PlaceholderRegistry : Type := list (string * PlaceholderRecord).

Definition reg_register (rec : PlaceholderRecord) (g : PlaceholderRegistry) : PlaceholderRegistry :=
  dset g (placeholder_id rec) rec.

Definition reg_get (pid : string) (g : PlaceholderRegistry) : option PlaceholderRecord := dget g pid.
Definition reg_all (g : PlaceholderRegistry) : list PlaceholderRecord := dvalues g.
Definition reg_pending (g : PlaceholderRegistry) : list PlaceholderRecord :=
  filter (λ r, state r = PENDING) (dvalues g).

(** The record after [mark_resolved] at [now]. *)
Definition resolve_record (now : Z) (u : string) (m : row) (r : PlaceholderRecord) : PlaceholderRecord :=
  {| placeholder_id := placeholder_id r; stream_id := stream_id r; stage := stage r;
     context_text := context_text r; loading_url := loading_url r; task_ref := task_ref r;
     state := RESOLVED; url := Some u; fallback_url := fallback_url r; char_offset := char_offset r;
     meta := m ∪ meta r; created_at := created_at r; resolved_at := Some now; error := error r |}.

Definition fail_record (now : Z) (err : string) (fb : option string) (r : PlaceholderRecord) : PlaceholderRecord :=
  {| placeholder_id := placeholder_id r; stream_id := stream_id r; stage := stage r;
     context_text := context_text r; loading_url := loading_url r; task_ref := task_ref r;
     state := FAILED; url := url r; fallback_url := match fb with Some f => Some f | None => fallback_url r end;
     char_offset := char_offset r; meta := meta r; created_at := created_at r; resolved_at := Some now;
     error := Some err |}.

(** Update a record that is still pending. *)
Definition mark (f : PlaceholderRecord → PlaceholderRecord) (pid : string) (g : PlaceholderRegistry)
  : PlaceholderRegistry :=
  match dget g pid with
  | Some r => if decide (state r = PENDING) then dset g pid (f r) else g
  | None => g
  end.

Definition mark_resolved (now : Z) (pid u : string) (m : row) : PlaceholderRegistry → PlaceholderRegistry :=
  mark (resolve_record now u m) pid.

Definition mark_failed (now : Z) (pid err : string) (fb : option string) : PlaceholderRegistry → PlaceholderRegistry :=
  mark (fail_record now err fb) pid.

Lemma mark_get f pid g pid' :
  dget (mark f pid g) pid' =
  match dget g pid' with
  | Some r => Some (if decide (pid = pid' ∧ state r = PENDING) then f r else r)
  | None => None
  end.
Proof.
  unfold mark. destruct (decide (pid = pid')) as [<-|Hne].
  - destruct (dget g pid) as [r|] eqn:E; [|by rewrite E].
    destruct (decide (state r = PENDING)).
    + rewrite dget_dset_eq. by rewrite decide_True.
    + rewrite E, decide_False; naive_solver.
  - assert (Hd : ∀ r : PlaceholderRecord, (if decide (pid = pid' ∧ state r = PENDING) then f r else r) = r)
      by (intros r; by rewrite decide_False by naive_solver).
    destruct (dget g pid) as [r|]; [destruct (decide (state r = PENDING))|];
      rewrite ?(dget_dset_ne _ _ _ _ Hne); destruct (dget g pid'); by rewrite ?Hd.
Qed.

(** ** EnrichManager *)

Inductive EnrichMode : Type := LOCAL | TASKFLOW | AUTO.
#[global] Instance EnrichMode_eq_dec : EqDecision EnrichMode.
Proof. solve_decision. Defined.

Section Manager.

Context (enrich_mode : EnrichMode) (enrich_eager : bool) (loading : string).

Definition _make_task_ref (pid : string) : string :=
  if decide (enrich_mode = TASKFLOW) then "tf:enrich-" +:+ pid else "local:" +:+ pid.

(** The events emitted through the multiplexer. *)
Inductive enrich_event : Type :=
  | EnrichMarker (pid : string)
  | EnrichPlaceholder (pid : string)
  | EnrichResolved (pid u : string).

(** A hit on its way to the registry: the events it has emitted so far. *)
Inductive hit_phase : Type := MarkerSent | PlaceholderSent.

(** A dispatched task: created, inside the enricher, or waiting to emit its result. *)
Inductive task_phase : Type := Created | Resolving | Emitting (u : string).

Inductive settle_phase : Type :=
  | NotSettling
  | Waiting (todo : list string)
  | SettleEmitting (pid u : string) (todo : list string).

Record EnrichManager := {
  registry : PlaceholderRegistry;
  hitting : list (string * (hit_phase * PlaceholderRecord));
  enrich_tasks : list (string * task_phase);
  emitted_resolved : gset string;
  settling : settle_phase;
  log : list enrich_event
}.

Definition manager_init : EnrichManager :=
  {| registry := []; hitting := []; enrich_tasks := []; emitted_resolved := ∅; settling := NotSettling; log := [] |}.

Definition upd (g : PlaceholderRegistry) (h : list (string * (hit_phase * PlaceholderRecord)))
    (t : list (string * task_phase)) (e : gset string) (s : settle_phase) (l : list enrich_event) : EnrichManager :=
  {| registry := g; hitting := h; enrich_tasks := t; emitted_resolved := e; settling := s; log := l |}.

(** The record of a hit. *)
Definition hit_record (pid sid : string) (stg : option string) (ctx : string) (off created : Z) : PlaceholderRecord :=
  {| placeholder_id := pid; stream_id := sid; stage := stg; context_text := ctx; loading_url := loading;
     task_ref := _make_task_ref pid; state := PENDING; url := None; fallback_url := None; char_offset := off;
     meta := ∅; created_at := created; resolved_at := None; error := None |}.

(** [on_hit]: allocate the id and emit the marker event. *)
Definition hit_marker (pid : string) (rec : PlaceholderRecord) (m : EnrichManager) : EnrichManager :=
  upd (registry m) (dset (hitting m) pid (MarkerSent, rec)) (enrich_tasks m) (emitted_resolved m) (settling m)
      (log m ++ [EnrichMarker pid]).

(** [on_hit]: emit the placeholder event. *)
Definition hit_placeholder (pid : string) (rec : PlaceholderRecord) (m : EnrichManager) : EnrichManager :=
  upd (registry m) (dset (hitting m) pid (PlaceholderSent, rec)) (enrich_tasks m) (emitted_resolved m) (settling m)
      (log m ++ [EnrichPlaceholder pid]).

(** [on_hit]: register the record and start the task. *)
Definition hit_register (pid : string) (rec : PlaceholderRecord) (m : EnrichManager) : EnrichManager :=
  upd (reg_register rec (registry m)) (ddel (hitting m) pid) (dset (enrich_tasks m) pid Created)
      (emitted_resolved m) (settling m) (log m).

(** How the call of the enricher ends. *)
Inductive enrich_answer : Type :=
  | AnswerResolved (u : string) (mt : row)
  | AnswerOther
  | AnswerCancelled
  | AnswerRaised (e : string).

(** The event loop starts the task; a task cancelled before that never runs its body. *)
Definition dispatch_start (pid : string) (m : EnrichManager) : EnrichManager :=
  upd (registry m) (hitting m) (dset (enrich_tasks m) pid Resolving) (emitted_resolved m) (settling m) (log m).
Definition dispatch_never (pid : string) (m : EnrichManager) : EnrichManager :=
  upd (registry m) (hitting m) (ddel (enrich_tasks m) pid) (emitted_resolved m) (settling m) (log m).

(** [_dispatch_local], from the enricher's answer to its end or to its emit. *)
Definition dispatch_answer (now : Z) (pid : string) (a : enrich_answer) (m : EnrichManager) : EnrichManager :=
  let finished g := upd g (hitting m) (ddel (enrich_tasks m) pid) (emitted_resolved m) (settling m) (log m) in
  match a with
  | AnswerResolved u mt =>
      let g := mark_resolved now pid u mt (registry m) in
      if enrich_eager && negb (bool_decide (u = ""%string))
      then upd g (hitting m) (dset (enrich_tasks m) pid (Emitting u)) (emitted_resolved m) (settling m) (log m)
      else finished g
  | AnswerOther => finished (mark_failed now pid "enricher returned failed" (Some loading) (registry m))
  | AnswerCancelled => finished (mark_failed now pid "cancelled by user" (Some loading) (registry m))
  | AnswerRaised e => finished (mark_failed now pid e (Some loading) (registry m))
  end.

(** [_dispatch_local], the end of its emit: done, or an exception. *)
Definition dispatch_emitted (pid u : string) (m : EnrichManager) : EnrichManager :=
  upd (registry m) (hitting m) (ddel (enrich_tasks m) pid) ({[pid]} ∪ emitted_resolved m) (settling m)
      (log m ++ [EnrichResolved pid u]).

Definition dispatch_emit_failed (now : Z) (pid err : string) (m : EnrichManager) : EnrichManager :=
  upd (mark_failed now pid err (Some loading) (registry m)) (hitting m) (ddel (enrich_tasks m) pid)
      (emitted_resolved m) (settling m) (log m).

Definition set_settling (s : settle_phase) (m : EnrichManager) : EnrichManager :=
  upd (registry m) (hitting m) (enrich_tasks m) (emitted_resolved m) s (log m).

(** [settle]: the loop takes the placeholders that are pending at its start. *)
Definition settle_start (m : EnrichManager) : EnrichManager :=
  set_settling (Waiting (placeholder_id <$> reg_pending (registry m))) m.

(** [settle]: [wait_one] of the next placeholder has returned. *)
Definition settle_next (pid : string) (todo : list string) (m : EnrichManager) : EnrichManager :=
  match reg_get pid (registry m) with
  | Some r =>
      match state r, url r with
      | RESOLVED, Some u =>
          if bool_decide (u = ""%string) || bool_decide (pid ∈ emitted_resolved m)
          then set_settling (Waiting todo) m
          else set_settling (SettleEmitting pid u todo) m
      | _, _ => set_settling (Waiting todo) m
      end
  | None => set_settling (Waiting todo) m
  end.

Definition settle_emitted (pid u : string) (todo : list string) (m : EnrichManager) : EnrichManager :=
  upd (registry m) (hitting m) (enrich_tasks m) ({[pid]} ∪ emitted_resolved m) (Waiting todo)
      (log m ++ [EnrichResolved pid u]).

(** [settle]: after the loop, what is pending fails when there is no delegation. *)
Definition settle_end (now : Z) (m : EnrichManager) : EnrichManager :=
  let g := if decide (enrich_mode = TASKFLOW) then registry m
           else fold_left (λ g r, mark_failed now (placeholder_id r)
                  "settle timeout (no delegation channel in local mode)" (Some loading) g)
                  (reg_pending (registry m)) (registry m) in
  upd g (hitting m) (enrich_tasks m) (emitted_resolved m) NotSettling (log m).

(** The ids in use. *)
Definition known (pid : string) (m : EnrichManager) : Prop :=
  pid ∈ dkeys (registry m) ∨ pid ∈ dkeys (hitting m).

(** The steps.  A new placeholder id is fresh ([new_placeholder_id] draws it
    from a random uuid). *)
Inductive enrich_step (m : EnrichManager) : EnrichManager → Prop :=
  | e_hit pid sid stg ctx off created :
      ¬ known pid m → enrich_step m (hit_marker pid (hit_record pid sid stg ctx off created) m)
  | e_placeholder pid rec :
      dget (hitting m) pid = Some (MarkerSent, rec) → enrich_step m (hit_placeholder pid rec m)
  | e_register pid rec :
      dget (hitting m) pid = Some (PlaceholderSent, rec) → enrich_step m (hit_register pid rec m)
  | e_start pid :
      dget (enrich_tasks m) pid = Some Created → enrich_step m (dispatch_start pid m)
  | e_never pid :
      dget (enrich_tasks m) pid = Some Created → enrich_step m (dispatch_never pid m)
  | e_answer now pid a :
      dget (enrich_tasks m) pid = Some Resolving → enrich_step m (dispatch_answer now pid a m)
  | e_emitted pid u :
      dget (enrich_tasks m) pid = Some (Emitting u) → enrich_step m (dispatch_emitted pid u m)
  | e_emit_failed now pid u err :
      dget (enrich_tasks m) pid = Some (Emitting u) → enrich_step m (dispatch_emit_failed now pid err m)
  | e_settle : settling m = NotSettling → enrich_step m (settle_start m)
  | e_wait pid todo :
      settling m = Waiting (pid :: todo) → enrich_step m (settle_next pid todo m)
  | e_deadline todo :
      settling m = Waiting todo → enrich_step m (set_settling (Waiting []) m)
  | e_settle_emitted pid u todo :
      settling m = SettleEmitting pid u todo → enrich_step m (settle_emitted pid u todo m)
  | e_settle_end now :
      settling m = Waiting [] → enrich_step m (settle_end now m).

(** *** Records: identity and final states *)

Definition same_identity (r r' : PlaceholderRecord) : Prop :=
  placeholder_id r' = placeholder_id r ∧ stream_id r' = stream_id r ∧ stage r' = stage r ∧
  context_text r' = context_text r ∧ task_ref r' = task_ref r ∧ char_offset r' = char_offset r ∧
  created_at r' = created_at r.

(** Every record keeps its identity, and one in a final state keeps everything. *)
Definition evolves (g g' : PlaceholderRegistry) : Prop :=
  ∀ pid r, dget g pid = Some r →
    ∃ r', dget g' pid = Some r' ∧ same_identity r r' ∧ (state r ≠ PENDING → r' = r).

Lemma same_identity_refl r : same_identity r r.
Proof. unfold same_identity. naive_solver. Qed.

Lemma evolves_refl g : evolves g g.
Proof. intros pid r Hr. exists r. split; [done|]. split; [apply same_identity_refl|done]. Qed.

Lemma evolves_trans g1 g2 g3 : evolves g1 g2 → evolves g2 g3 → evolves g1 g3.
Proof.
  intros H1 H2 pid r Hr. destruct (H1 _ _ Hr) as (r1 & Hr1 & Hi1 & Hs1).
  destruct (H2 _ _ Hr1) as (r2 & Hr2 & Hi2 & Hs2). exists r2. split; [done|].
  split; [unfold same_identity in *; intuition congruence|]. intros Hs.
  specialize (Hs1 Hs). subst r1. by apply Hs2.
Qed.

Lemma evolves_mark f pid g : (∀ r, same_identity r (f r)) → evolves g (mark f pid g).
Proof.
  intros Hf pid' r Hr. rewrite mark_get, Hr. eexists. split; [done|].
  destruct (decide _) as [[_ Hp]|_]; [|split; [apply same_identity_refl|done]]. split; [apply Hf|done].
Qed.

Lemma resolve_identity now u mt r : same_identity r (resolve_record now u mt r).
Proof. done. Qed.
Lemma fail_identity now e fb r : same_identity r (fail_record now e fb r).
Proof. done. Qed.

Lemma evolves_register rec g : dget g (placeholder_id rec) = None → evolves g (reg_register rec g).
Proof.
  intros Hn pid r Hr. exists r. unfold reg_register. rewrite dget_dset_ne; [|intros <-; congruence].
  split; [done|]. split; [apply same_identity_refl|done].
Qed.

(** The records that [settle] fails at its end. *)
Definition fail_all (now : Z) (err : string) (rs : list PlaceholderRecord) (g : PlaceholderRegistry) : PlaceholderRegistry :=
  fold_left (λ g r, mark_failed now (placeholder_id r) err (Some loading) g) rs g.

Lemma evolves_fail_all now err rs g : evolves g (fail_all now err rs g).
Proof.
  revert g. induction rs as [|r rs IH]; intros g; [apply evolves_refl|].
  eapply evolves_trans; [|apply IH]. apply evolves_mark, fail_identity.
Qed.

Lemma mark_none f pid g pid' : dget (mark f pid g) pid' = None ↔ dget g pid' = None.
Proof. rewrite mark_get. by destruct (dget g pid'). Qed.

Lemma fail_all_none now err rs g pid : dget (fail_all now err rs g) pid = None ↔ dget g pid = None.
Proof.
  revert g. induction rs as [|r rs IH]; intros g; [done|]. etransitivity; [apply IH|apply mark_none].
Qed.

Lemma fail_all_pending now err rs g pid r :
  dget (fail_all now err rs g) pid = Some r → state r = PENDING → pid ∉ (placeholder_id <$> rs).
Proof.
  revert g. induction rs as [|r0 rs IH]; intros g Hr Hs; [apply not_elem_of_nil|].
  cbn [fmap list_fmap]. rewrite not_elem_of_cons. split; [|by eapply IH].
  intros ->. cbn [fail_all fold_left] in Hr.
  destruct (dget g (placeholder_id r0)) as [rg|] eqn:Eg.
  - set (g1 := mark_failed now (placeholder_id r0) err (Some loading) g) in *.
    assert (Hg1 : ∃ r1, dget g1 (placeholder_id r0) = Some r1 ∧ state r1 ≠ PENDING).
    { subst g1. unfold mark_failed. rewrite mark_get, Eg. eexists. split; [done|].
      destruct (decide _) as [_|Hn]; [done|]. intros Hp. apply Hn. done. }
    destruct Hg1 as (r1 & Hr1 & Hs1).
    destruct (evolves_fail_all now err rs g1 _ _ Hr1) as (r2 & Hr2 & _ & Hkeep).
    unfold fail_all in Hr2. rewrite Hr2 in Hr. injection Hr as ->. specialize (Hkeep Hs1). congruence.
  - assert (Hn : dget (fail_all now err rs (mark_failed now (placeholder_id r0) err (Some loading) g)) (placeholder_id r0) = None)
      by (apply fail_all_none, mark_none, Eg).
    unfold fail_all in Hn. congruence.
Qed.

(** *** Invariant *)

Definition settle_pids (s : settle_phase) : list string :=
  match s with NotSettling => [] | Waiting t => t | SettleEmitting p _ t => p :: t end.

(** The event [e] has been emitted before each [EnrichResolved] of the same placeholder. *)
Definition resolved_after_placeholder (l : list enrich_event) : Prop :=
  ∀ i pid u, l !! i = Some (EnrichResolved pid u) → ∃ j, (j < i)%nat ∧ l !! j = Some (EnrichPlaceholder pid).
Definition placeholder_after_marker (l : list enrich_event) : Prop :=
  ∀ i pid, l !! i = Some (EnrichPlaceholder pid) → ∃ j, (j < i)%nat ∧ l !! j = Some (EnrichMarker pid).

Record enrich_inv (m : EnrichManager) : Prop := {
  i_ids : ∀ pid r, dget (registry m) pid = Some r → placeholder_id r = pid;
  i_nodup : NoDup (dkeys (registry m));
  i_hit : ∀ pid ph r, dget (hitting m) pid = Some (ph, r) →
    placeholder_id r = pid ∧ dget (registry m) pid = None ∧
    match ph with MarkerSent => EnrichMarker pid ∈ log m | PlaceholderSent => EnrichPlaceholder pid ∈ log m end;
  i_reg : ∀ pid, dget (registry m) pid ≠ None → EnrichPlaceholder pid ∈ log m;
  i_tasks : ∀ pid ph, dget (enrich_tasks m) pid = Some ph → dget (registry m) pid ≠ None;
  i_settle : ∀ pid, pid ∈ settle_pids (settling m) → dget (registry m) pid ≠ None;
  i_resolved : resolved_after_placeholder (log m);
  i_placeholder : placeholder_after_marker (log m)
}.

Lemma dkeys_mark f pid g : dkeys (mark f pid g) = dkeys g.
Proof.
  unfold mark. destruct (dget g pid) as [r|] eqn:E; [|done]. destruct (decide _); [|done].
  apply dkeys_dset_in. destruct (decide (pid ∈ dkeys g)); [done|]. apply dget_None in n. congruence.
Qed.

Lemma dkeys_fail_all now err rs g : dkeys (fail_all now err rs g) = dkeys g.
Proof. revert g. induction rs as [|r rs IH]; intros g; [done|]. etransitivity; [apply IH|apply dkeys_mark]. Qed.

(** The log grows by an event whose predecessors are there. *)
Lemma resolved_snoc l e :
  resolved_after_placeholder l →
  (∀ pid u, e = EnrichResolved pid u → EnrichPlaceholder pid ∈ l) → resolved_after_placeholder (l ++ [e]).
Proof.
  intros Hl He i pid u Hi. apply lookup_app_Some in Hi as [Hi|[Hi Hx]].
  - destruct (Hl _ _ _ Hi) as (j & Hj & Hlj). exists j. split; [done|]. by apply lookup_app_l_Some.
  - destruct (i - length l)%nat as [|k]; [|by destruct k]. simpl in Hx. injection Hx as ->.
    destruct (proj1 (list_elem_of_lookup _ _) (He _ _ eq_refl)) as [j Hj]. exists j.
    pose proof (lookup_lt_Some _ _ _ Hj). split; [lia|]. by apply lookup_app_l_Some.
Qed.

Lemma placeholder_snoc l e :
  placeholder_after_marker l →
  (∀ pid, e = EnrichPlaceholder pid → EnrichMarker pid ∈ l) → placeholder_after_marker (l ++ [e]).
Proof.
  intros Hl He i pid Hi. apply lookup_app_Some in Hi as [Hi|[Hi Hx]].
  - destruct (Hl _ _ Hi) as (j & Hj & Hlj). exists j. split; [done|]. by apply lookup_app_l_Some.
  - destruct (i - length l)%nat as [|k]; [|by destruct k]. simpl in Hx. injection Hx as ->.
    destruct (proj1 (list_elem_of_lookup _ _) (He _ eq_refl)) as [j Hj]. exists j.
    pose proof (lookup_lt_Some _ _ _ Hj). split; [lia|]. by apply lookup_app_l_Some.
Qed.

Lemma manager_init_inv : enrich_inv manager_init.
Proof.
  split; simpl; try done; [constructor|intros pid []%not_elem_of_nil|..].
Qed.

(** A step that keeps the log, the hits and the known ids. *)
Lemma inv_quiet m m' :
  enrich_inv m → evolves (registry m) (registry m') → dkeys (registry m') = dkeys (registry m) →
  hitting m' = hitting m → log m' = log m →
  (∀ pid ph, dget (enrich_tasks m') pid = Some ph → dget (registry m) pid ≠ None) →
  (∀ pid, pid ∈ settle_pids (settling m') → dget (registry m) pid ≠ None) →
  enrich_inv m'.
Proof.
  intros [H1 H2 H3 H4 H5 H6 H7 H8] He Hk Hh Hl Ht Hs.
  assert (Hn : ∀ pid, dget (registry m') pid = None ↔ dget (registry m) pid = None)
    by (intros pid; rewrite !dget_None, Hk; done).
  split; rewrite ?Hk, ?Hh, ?Hl; try done.
  - intros pid r' Hr'. destruct (dget (registry m) pid) as [r|] eqn:Er; [|apply Hn in Er; congruence].
    destruct (He _ _ Er) as (r2 & Hr2 & Hid & _). rewrite Hr' in Hr2. injection Hr2 as <-.
    destruct Hid as [-> _]. by apply H1.
  - intros pid ph r Hr. rewrite Hn. by apply H3.
  - intros pid Hp. apply H4. by rewrite <- Hn.
  - intros pid ph Hp. rewrite Hn. by eapply Ht.
  - intros pid Hp. rewrite Hn. by apply Hs.
Qed.

Lemma tasks_ddel m pid : enrich_inv m →
  ∀ pid' ph, dget (ddel (enrich_tasks m) pid) pid' = Some ph → dget (registry m) pid' ≠ None.
Proof.
  intros Hm pid' ph. rewrite dget_ddel. destruct (decide _); [done|]. apply (i_tasks _ Hm).
Qed.

Lemma tasks_dset m pid ph0 : enrich_inv m → dget (registry m) pid ≠ None →
  ∀ pid' ph, dget (dset (enrich_tasks m) pid ph0) pid' = Some ph → dget (registry m) pid' ≠ None.
Proof.
  intros Hm Hp pid' ph. rewrite dget_dset. destruct (decide (pid = pid')) as [<-|]; [done|]. apply (i_tasks _ Hm).
Qed.

Lemma pending_known m pid : enrich_inv m →
  pid ∈ (placeholder_id <$> reg_pending (registry m)) → dget (registry m) pid ≠ None.
Proof.
  intros Hm (r & -> & Hr)%list_elem_of_fmap. apply list_elem_of_filter in Hr as [_ Hr].
  unfold dvalues in Hr. apply list_elem_of_fmap in Hr as ([pid0 r0] & -> & Hr). simpl.
  apply elem_dget in Hr; [|apply Hm]. pose proof (i_ids _ Hm _ _ Hr) as ->. congruence.
Qed.

Lemma enrich_step_inv m m' :
  enrich_step m m' → enrich_inv m → enrich_inv m' ∧ evolves (registry m) (registry m').
Proof.
  intros Hs Hm.
  destruct Hs as [pid sid stg ctx off created Hn|pid rec Hh|pid rec Hh|pid Ht|pid Ht|now pid a Ht|pid u Ht
    |now pid u err Ht|Hs|pid todo Hs|todo Hs|pid u todo Hs|now Hs].
  - split; [|apply evolves_refl].
    assert (Hg : dget (registry m) pid = None) by (apply dget_None; intros H; apply Hn; by left).
    destruct Hm as [H1 H2 H3 H4 H5 H6 H7 H8]. split; simpl; try done.
    + intros pid' ph r. rewrite dget_dset. destruct (decide (pid = pid')) as [<-|].
      * intros [= <- <-]. split; [done|]. split; [done|]. apply elem_of_app. right. left.
      * intros Hr. destruct (H3 _ _ _ Hr) as (? & ? & Hl). split; [done|]. split; [done|].
        destruct ph; apply elem_of_app; by left.
    + intros pid' Hp. apply elem_of_app. left. by apply H4.
    + by apply resolved_snoc.
    + by apply placeholder_snoc.
  - split; [|apply evolves_refl]. destruct (i_hit _ Hm _ _ _ Hh) as (Hid & Hg & Hl).
    destruct Hm as [H1 H2 H3 H4 H5 H6 H7 H8]. split; simpl; try done.
    + intros pid' ph r. rewrite dget_dset. destruct (decide (pid = pid')) as [<-|].
      * intros [= <- <-]. split; [done|]. split; [done|]. apply elem_of_app. right. left.
      * intros Hr. destruct (H3 _ _ _ Hr) as (? & ? & Hl'). split; [done|]. split; [done|].
        destruct ph; apply elem_of_app; by left.
    + intros pid' Hp. apply elem_of_app. left. by apply H4.
    + by apply resolved_snoc.
    + apply placeholder_snoc; [done|]. by intros pid' [= <-].
  - destruct (i_hit _ Hm _ _ _ Hh) as (Hid & Hg & Hl).
    split; [|simpl; apply evolves_register; by rewrite Hid].
    destruct Hm as [H1 H2 H3 H4 H5 H6 H7 H8].
    assert (Hreg : ∀ p, dget (reg_register rec (registry m)) p = if decide (pid = p) then Some rec else dget (registry m) p).
    { intros p. unfold reg_register. rewrite dget_dset, Hid. done. }
    split; cbn -[reg_register]; try done.
    + intros p r. rewrite Hreg. destruct (decide (pid = p)) as [<-|]; [by intros [= <-]|apply H1].
    + by apply dset_NoDup.
    + intros p ph r. rewrite dget_ddel. destruct (decide (pid = p)); [done|]. intros Hr. rewrite Hreg, decide_False by done.
      by apply H3.
    + intros p. rewrite Hreg. destruct (decide (pid = p)) as [<-|]; [done|apply H4].
    + intros p ph. rewrite dget_dset, Hreg. destruct (decide (pid = p)); [done|apply H5].
    + intros p Hp. rewrite Hreg. destruct (decide (pid = p)); [done|by apply H6].
  - split; [|apply evolves_refl]. eapply inv_quiet; try done; [apply evolves_refl| |apply Hm].
    apply tasks_dset; [done|]. by eapply i_tasks.
  - split; [|apply evolves_refl]. eapply inv_quiet; try done; [apply evolves_refl| |apply Hm].
    by apply tasks_ddel.
  - assert (Hp : dget (registry m) pid ≠ None) by (by eapply i_tasks).
    unfold dispatch_answer. destruct a as [u mt| | |e].
    + assert (He : evolves (registry m) (mark_resolved now pid u mt (registry m)))
        by apply evolves_mark, resolve_identity.
      destruct (enrich_eager && _); (split; [|exact He]);
        (eapply inv_quiet; [exact Hm|exact He|apply dkeys_mark|done|done| |apply Hm]).
      * by apply tasks_dset.
      * by apply tasks_ddel.
    + assert (He : evolves (registry m) (mark_failed now pid "enricher returned failed" (Some loading) (registry m)))
        by apply evolves_mark, fail_identity.
      split; [|exact He]. eapply inv_quiet; [exact Hm|exact He|apply dkeys_mark|done|done| |apply Hm]. by apply tasks_ddel.
    + assert (He : evolves (registry m) (mark_failed now pid "cancelled by user" (Some loading) (registry m)))
        by apply evolves_mark, fail_identity.
      split; [|exact He]. eapply inv_quiet; [exact Hm|exact He|apply dkeys_mark|done|done| |apply Hm]. by apply tasks_ddel.
    + assert (He : evolves (registry m) (mark_failed now pid e (Some loading) (registry m)))
        by apply evolves_mark, fail_identity.
      split; [|exact He]. eapply inv_quiet; [exact Hm|exact He|apply dkeys_mark|done|done| |apply Hm]. by apply tasks_ddel.
  - split; [|apply evolves_refl]. assert (Hp : dget (registry m) pid ≠ None) by (by eapply i_tasks).
    destruct Hm as [H1 H2 H3 H4 H5 H6 H7 H8]. split; simpl; try done.
    + intros p ph r Hr. destruct (H3 _ _ _ Hr) as (? & ? & Hl'). split; [done|]. split; [done|].
      destruct ph; apply elem_of_app; by left.
    + intros p Hp'. apply elem_of_app. left. by apply H4.
    + intros p ph. rewrite dget_ddel. destruct (decide _); [done|apply H5].
    + apply resolved_snoc; [done|]. intros p u' [= <- <-]. by apply H4.
    + by apply placeholder_snoc.
  - assert (He : evolves (registry m) (mark_failed now pid err (Some loading) (registry m)))
      by apply evolves_mark, fail_identity.
    split; [|exact He]. eapply inv_quiet; [exact Hm|exact He|apply dkeys_mark|done|done| |apply Hm]. by apply tasks_ddel.
  - split; [|apply evolves_refl]. eapply inv_quiet; try done; [apply evolves_refl|apply Hm|].
    simpl. intros pid. by apply pending_known.
  - assert (Hrest : ∀ p, p ∈ pid :: todo → dget (registry m) p ≠ None)
      by (intros p Hp; apply (i_settle _ Hm); rewrite Hs; exact Hp).
    unfold settle_next. set (m1 := set_settling (Waiting todo) m).
    assert (Hm1 : enrich_inv m1).
    { eapply inv_quiet; try done; [apply evolves_refl|apply Hm|]. simpl. intros p Hp. apply Hrest. by right. }
    destruct (reg_get pid (registry m)) as [r|]; [|split; [exact Hm1|apply evolves_refl]].
    destruct (state r), (url r) as [u|]; try (split; [exact Hm1|apply evolves_refl]).
    destruct (_ || _); [split; [exact Hm1|apply evolves_refl]|]. split; [|apply evolves_refl].
    eapply inv_quiet; try done; [apply evolves_refl|apply Hm].
  - split; [|apply evolves_refl]. eapply inv_quiet; try done; [apply evolves_refl|apply Hm|].
    intros p []%not_elem_of_nil.
  - split; [|apply evolves_refl].
    assert (Hrest : ∀ p, p ∈ pid :: todo → dget (registry m) p ≠ None)
      by (intros p Hp; apply (i_settle _ Hm); rewrite Hs; exact Hp).
    destruct Hm as [H1 H2 H3 H4 H5 H6 H7 H8]. split; simpl; try done.
    + intros p ph r Hr. destruct (H3 _ _ _ Hr) as (? & ? & Hl'). split; [done|]. split; [done|].
      destruct ph; apply elem_of_app; by left.
    + intros p Hp'. apply elem_of_app. left. by apply H4.
    + intros p Hp. apply Hrest. by right.
    + apply resolved_snoc; [done|]. intros p u' [= <- <-]. apply H4, Hrest. left.
    + by apply placeholder_snoc.
  - unfold settle_end. destruct (decide (enrich_mode = TASKFLOW)).
    + split; [|apply evolves_refl]. eapply inv_quiet; try done; [apply evolves_refl|apply Hm|]. intros p []%not_elem_of_nil.
    + split; [|apply (evolves_fail_all now)].
      eapply inv_quiet; [exact Hm|apply (evolves_fail_all now)|apply dkeys_fail_all|done|done|apply Hm|].
      intros p []%not_elem_of_nil.
Qed.

Lemma enrich_reach m0 m : rtc enrich_step m0 m → enrich_inv m0 → enrich_inv m ∧ evolves (registry m0) (registry m).
Proof.
  induction 1 as [|m0 m1 m2 Hs _ IH]; intros Hi; [split; [done|apply evolves_refl]|].
  destruct (enrich_step_inv _ _ Hs Hi) as [Hi1 He1]. destruct (IH Hi1) as [Hi2 He2].
  split; [done|]. by eapply evolves_trans.
Qed.

(** A placeholder's life is ordered and its final state is final.  From any
    reachable state on, whatever the hits, the enrichers, cancellations and
    [settle] do and in any interleaving: a registered record stays registered
    with its identity (stream, stage, position, task reference), and once it
    has left PENDING nothing changes it any more; on the event stream the
    marker event of a placeholder comes before its placeholder event, and that
    one before every resolution. *)
Theorem placeholder_life m m' :
  rtc enrich_step manager_init m → rtc enrich_step m m' →
  evolves (registry m) (registry m') ∧
  resolved_after_placeholder (log m') ∧ placeholder_after_marker (log m').
Proof.
  intros H0 H1. destruct (enrich_reach _ _ H0 manager_init_inv) as [Hi _].
  destruct (enrich_reach _ _ H1 Hi) as [Hi' He]. split; [done|]. split; apply Hi'.
Qed.

(** When [settle] ends in a mode without delegation (local or auto), no
    registered placeholder is left pending. *)
Theorem settle_leaves_no_pending now m pid r :
  rtc enrich_step manager_init m → enrich_mode ≠ TASKFLOW →
  dget (registry (settle_end now m)) pid = Some r → state r ≠ PENDING.
Proof.
  intros H0 Hmode Hr Hp. destruct (enrich_reach _ _ H0 manager_init_inv) as [Hi _].
  unfold settle_end in Hr. rewrite decide_False in Hr by done.
  cbn [registry upd] in Hr. pose proof (fail_all_pending _ _ _ _ _ _ Hr Hp) as Hno.
  apply Hno. apply list_elem_of_fmap.
  destruct (dget (registry m) pid) as [r0|] eqn:E.
  2:{ apply (fail_all_none now "settle timeout (no delegation channel in local mode)" (reg_pending (registry m))) in E.
      unfold fail_all in E. congruence. }
  exists r0. pose proof (i_ids _ Hi _ _ E). split; [done|].
  apply list_elem_of_filter. split.
  - destruct (decide (state r0 = PENDING)) as [|Hn]; [done|].
    destruct (evolves_fail_all now "settle timeout (no delegation channel in local mode)"
                (reg_pending (registry m)) _ _ _ E) as (r2 & Hr2 & _ & Hkeep).
    unfold fail_all in Hr2. rewrite Hr2 in Hr. injection Hr as ->. by rewrite (Hkeep Hn) in Hp.
  - apply dget_elem in E. apply list_elem_of_fmap. by exists (pid, r0).
Qed.

End Manager.

(** ** Concrete runs *)

(** A hit: its three steps. *)
Lemma demo_hit mode eager ld :
  rtc (enrich_step mode eager ld) manager_init
    (hit_register "p" (hit_record mode ld "p" "s" None "ctx" 2 0)
      (hit_placeholder "p" (hit_record mode ld "p" "s" None "ctx" 2 0)
        (hit_marker "p" (hit_record mode ld "p" "s" None "ctx" 2 0) manager_init))).
Proof.
  eapply rtc_l; [apply (e_hit _ _ _ _ "p" "s" None "ctx" 2 0); intros [[]%not_elem_of_nil|[]%not_elem_of_nil]|].
  eapply rtc_l; [apply (e_placeholder _ _ _ _ "p"); reflexivity|].
  eapply rtc_l; [apply (e_register _ _ _ _ "p"); reflexivity|]. apply rtc_refl.
Qed.

(** With eager resolution, an enricher that answers after [settle] has failed
    the placeholder still has its [enrich.resolved] event emitted: the event
    says resolved, the registry (and the manifest built from it) says failed. *)
Lemma late_resolution_event :
  ∃ m r, rtc (enrich_step LOCAL true "loading") manager_init m ∧
    EnrichResolved "p" "url" ∈ log m ∧ dget (registry m) "p" = Some r ∧ state r = FAILED.
Proof.
  eexists _, _. split.
  - etransitivity; [apply demo_hit|].
    eapply rtc_l; [apply (e_start _ _ _ _ "p"); reflexivity|].
    eapply rtc_l; [apply e_settle; reflexivity|].
    eapply rtc_l; [apply (e_wait _ _ _ _ "p" []); reflexivity|].
    eapply rtc_l; [apply (e_settle_end _ _ _ _ 5); reflexivity|].
    eapply rtc_l; [apply (e_answer _ _ _ _ 6 "p" (AnswerResolved "url" ∅)); reflexivity|].
    eapply rtc_l; [apply (e_emitted _ _ _ _ "p" "url"); reflexivity|]. apply rtc_refl.
  - split; [apply list_elem_of_lookup; exists 2%nat; reflexivity|]. split; reflexivity.
Qed.

(** With eager resolution, a dispatched task that waits for room in the queue
    and [settle] both emit the resolution of the same placeholder. *)
Lemma double_resolution_event :
  ∃ m, rtc (enrich_step LOCAL true "loading") manager_init m ∧
    log m = [EnrichMarker "p"; EnrichPlaceholder "p"; EnrichResolved "p" "url"; EnrichResolved "p" "url"].
Proof.
  eexists. split.
  - etransitivity; [apply demo_hit|].
    eapply rtc_l; [apply (e_start _ _ _ _ "p"); reflexivity|].
    eapply rtc_l; [apply e_settle; reflexivity|].
    eapply rtc_l; [apply (e_answer _ _ _ _ 6 "p" (AnswerResolved "url" ∅)); reflexivity|].
    eapply rtc_l; [apply (e_wait _ _ _ _ "p" []); reflexivity|].
    eapply rtc_l; [apply (e_settle_emitted _ _ _ _ "p" "url" []); reflexivity|].
    eapply rtc_l; [apply (e_emitted _ _ _ _ "p" "url"); reflexivity|]. apply rtc_refl.
  - reflexivity.
Qed.

Lemma placeholder_life_witness :
  ∃ m, rtc (enrich_step TASKFLOW false "loading") manager_init m ∧ log m ≠ [] ∧
    evolves (registry m) (registry m) ∧ resolved_after_placeholder (log m) ∧ placeholder_after_marker (log m).
Proof.
  eexists. split; [apply demo_hit|]. split; [discriminate|].
  exact (placeholder_life TASKFLOW false "loading" _ _ (demo_hit TASKFLOW false "loading") (rtc_refl _ _)).
Defined.

Lemma settle_leaves_no_pending_witness :
  ∃ m r, rtc (enrich_step LOCAL false "loading") manager_init m ∧
    dget (registry (settle_end LOCAL "loading" 9 m)) "p" = Some r ∧ state r ≠ PENDING.
Proof.
  eexists _, _. split; [apply (demo_hit LOCAL false "loading")|]. split; [reflexivity|].
  exact (settle_leaves_no_pending LOCAL false "loading" 9 _ "p" _ (demo_hit LOCAL false "loading") ltac:(discriminate) eq_refl).
Defined.
