(* ===== verification/Wire.v ===== *)
(** Text on the wire and in files: the UTF-8 codec of Python (encode, and
    decode with errors="replace"), the line boundaries of [str.splitlines] and
    of text files, and the text of a JSON document as a class with the laws
    that the code relies on of [json.dumps] and [json.loads].

    Used by the event stream (Sse.v), whose client decodes the bytes of the
    network chunk by chunk, and by the reader of a trace bundle (UiReader.v),
    which cuts a file into lines otherwise than the adapter that wrote it. *)
From Stdlib Require Import ZArith Lia ZifyBool ZifyN.
From stdpp Require Import prelude gmap list strings.
From S2P Require Import Prelude Text Pipeline.
Local Open Scope list_scope.

(** A byte is a number below 256. *)
Abbreviation bytes := (list N).

(** ** UTF-8 *)

(** The bytes of one code point; [None]: a surrogate, or no code point
    ([UnicodeEncodeError]). *)
Definition utf8_char (c : N) : option bytes :=
  (if c <? 128 then Some [c]
   else if c <? 2048 then Some [192 + c / 64; 128 + c mod 64]
   else if (55296 <=? c) && (c <=? 57343) then None
   else if c <? 65536 then Some [224 + c / 4096; 128 + c / 64 mod 64; 128 + c mod 64]
   else if c <? 1114112 then Some [240 + c / 262144; 128 + c / 4096 mod 64; 128 + c / 64 mod 64; 128 + c mod 64]
   else None)%N.

(** [s.encode("utf-8")] *)
Fixpoint utf8_encode (s : text) : option bytes :=
  match s with
  | [] => Some []
  | c :: s' => b ← utf8_char c; bs ← utf8_encode s'; Some (b ++ bs)
  end.

(** A character that has begun: the continuation bytes that it still needs
    after the next one, the range of the next one, and the bits read. *)
Record pending_char := { more : nat; low : N; high : N; bits : N }.

Definition REPLACEMENT : N := 65533.

(** The first byte of a character: what it writes, and the character it begins.
    The range of the second byte excludes overlong forms, surrogates and what
    lies above the last code point. *)
Definition utf8_start (b : N) : text * option pending_char :=
  (if b <? 128 then ([b], None)
   else if b <? 194 then ([REPLACEMENT], None)
   else if b <? 224 then ([], Some {| more := 0; low := 128; high := 191; bits := b - 192 |})
   else if b <? 240 then
     ([], Some {| more := 1; low := if b =? 224 then 160 else 128; high := if b =? 237 then 159 else 191; bits := b - 224 |})
   else if b <? 245 then
     ([], Some {| more := 2; low := if b =? 240 then 144 else 128; high := if b =? 244 then 143 else 191; bits := b - 240 |})
   else ([REPLACEMENT], None))%N.

(** [decode("utf-8", errors="replace")]: a character that is cut short or
    continued by a wrong byte is replaced by one U+FFFD, and the wrong byte is
    read again as a first byte. *)
Fixpoint utf8_run (st : option pending_char) (s : bytes) : text :=
  match s with
  | [] => match st with None => [] | Some _ => [REPLACEMENT] end
  | b :: s' =>
      match st with
      | None => (utf8_start b).1 ++ utf8_run (utf8_start b).2 s'
      | Some p =>
          if ((low p <=? b) && (b <=? high p))%N then
            let acc := (bits p * 64 + (b - 128))%N in
            match more p with
            | O => acc :: utf8_run None s'
            | S k => utf8_run (Some {| more := k; low := 128; high := 191; bits := acc |}) s'
            end
          else REPLACEMENT :: (utf8_start b).1 ++ utf8_run (utf8_start b).2 s'
      end
  end.

Definition utf8_decode (s : bytes) : text := utf8_run None s.

(** One step of the decoder: on a first byte, on a byte in range. *)
Lemma utf8_run_start b s : utf8_run None (b :: s) = (utf8_start b).1 ++ utf8_run (utf8_start b).2 s.
Proof. done. Qed.

Lemma utf8_run_more k lo hi acc b s :
  (lo ≤ b)%N → (b ≤ hi)%N →
  utf8_run (Some {| more := S k; low := lo; high := hi; bits := acc |}) (b :: s) =
  utf8_run (Some {| more := k; low := 128; high := 191; bits := acc * 64 + (b - 128) |}) s.
Proof. intros H1 H2. cbn [utf8_run low high more bits]. by rewrite (proj2 (N.leb_le _ _) H1), (proj2 (N.leb_le _ _) H2). Qed.

Lemma utf8_run_last lo hi acc b s :
  (lo ≤ b)%N → (b ≤ hi)%N →
  utf8_run (Some {| more := 0; low := lo; high := hi; bits := acc |}) (b :: s) = (acc * 64 + (b - 128))%N :: utf8_run None s.
Proof. intros H1 H2. cbn [utf8_run low high more bits]. by rewrite (proj2 (N.leb_le _ _) H1), (proj2 (N.leb_le _ _) H2). Qed.

(** Quotient and remainder by 64. *)
Lemma div_mod_64 c : (c = 64 * (c / 64) + c mod 64 ∧ c mod 64 < 64)%N.
Proof. split; [by apply N.div_mod|by apply N.mod_lt]. Qed.

Lemma utf8_char_back c bs s : utf8_char c = Some bs → utf8_decode (bs ++ s) = c :: utf8_decode s.
Proof.
  unfold utf8_char, utf8_decode. destruct (N.ltb_spec c 128) as [H1|H1].
  { intros [= <-]. cbn [app]. rewrite utf8_run_start. unfold utf8_start. by rewrite (proj2 (N.ltb_lt _ _) H1). }
  pose proof (div_mod_64 c) as [E0 L0]. pose proof (div_mod_64 (c / 64)) as [E1 L1]. pose proof (div_mod_64 (c / 64 / 64)) as [E2 L2].
  change 4096%N with (64 * 64)%N. change 262144%N with (64 * 64 * 64)%N. rewrite <- !N.Div0.div_div.
  revert E0 L0 E1 L1 E2 L2. generalize (c mod 64)%N as r0. generalize (c / 64)%N as q0. intros q0 r0.
  generalize (q0 mod 64)%N as r1. generalize (q0 / 64)%N as q1. intros q1 r1.
  generalize (q1 mod 64)%N as r2. generalize (q1 / 64)%N as q2. intros q2 r2 E0 L0 E1 L1 E2 L2.
  destruct (N.ltb_spec c 2048) as [H2|H2].
  { intros [= <-]. cbn [app]. rewrite utf8_run_start. unfold utf8_start.
    rewrite (proj2 (N.ltb_ge _ _)), (proj2 (N.ltb_ge _ _)), (proj2 (N.ltb_lt _ _)) by lia. cbn [fst snd app].
    rewrite utf8_run_last by lia. f_equal. lia. }
  destruct ((55296 <=? c) && (c <=? 57343))%N eqn:Hs; [done|].
  destruct (N.ltb_spec c 65536) as [H3|H3].
  { intros [= <-]. cbn [app]. rewrite utf8_run_start. unfold utf8_start.
    rewrite (proj2 (N.ltb_ge _ _)), (proj2 (N.ltb_ge _ _)), (proj2 (N.ltb_ge _ _)), (proj2 (N.ltb_lt _ _)) by lia. cbn [fst snd app].
    rewrite utf8_run_more by (repeat case_match; lia). rewrite utf8_run_last by lia. f_equal. lia. }
  destruct (N.ltb_spec c 1114112) as [H4|H4]; [|done].
  intros [= <-]. cbn [app]. rewrite utf8_run_start. unfold utf8_start.
  rewrite (proj2 (N.ltb_ge _ _)), (proj2 (N.ltb_ge _ _)), (proj2 (N.ltb_ge _ _)), (proj2 (N.ltb_ge _ _)), (proj2 (N.ltb_lt _ _)) by lia.
  cbn [fst snd app]. rewrite utf8_run_more by (repeat case_match; lia). rewrite utf8_run_more by lia. rewrite utf8_run_last by lia. f_equal. lia.
Qed.

(** The decoder reads back what the encoder writes, and then goes on afresh. *)
Lemma utf8_decode_encode t bs rest : utf8_encode t = Some bs → utf8_decode (bs ++ rest) = t ++ utf8_decode rest.
Proof.
  revert bs. induction t as [|c t IH]; intros bs; cbn [utf8_encode]; [by intros [= <-]|].
  intros (b & Hb & (bs' & Hbs & [= <-])%bind_Some)%bind_Some.
  rewrite <- app_assoc, (utf8_char_back _ _ _ Hb), IH by done. done.
Qed.

Lemma utf8_decode_whole t bs : utf8_encode t = Some bs → utf8_decode bs = t.
Proof. intros Ht. rewrite <- (app_nil_r bs), (utf8_decode_encode _ _ _ Ht). apply app_nil_r. Qed.

Lemma utf8_encode_app a b x y : utf8_encode a = Some x → utf8_encode b = Some y → utf8_encode (a ++ b) = Some (x ++ y).
Proof.
  revert x. induction a as [|c a IH]; intros x; cbn [utf8_encode app]; [by intros [= <-]|].
  intros (z & Hz & (zs & Hzs & [= <-])%bind_Some)%bind_Some Hb. rewrite Hz. cbn. rewrite (IH zs) by done. cbn. by rewrite app_assoc.
Qed.

Lemma utf8_encode_join ts bss : mapM utf8_encode ts = Some bss → utf8_encode (mjoin ts) = Some (mjoin bss).
Proof.
  rewrite mapM_Some. induction 1 as [|t bs ts bss Ht Hts IH]; [done|]. by apply utf8_encode_app.
Qed.

(** Chunks that are cut between characters are decoded to the pieces of the
    text. *)
Definition whole_chars (chunk : bytes) : Prop := ∃ t, utf8_encode t = Some chunk.

Lemma utf8_chunks chunks t :
  Forall whole_chars chunks → utf8_encode t = Some (mjoin chunks) → mjoin (utf8_decode <$> chunks) = t.
Proof.
  intros Hc Ht. rewrite <- (utf8_decode_whole _ _ Ht). clear Ht.
  induction Hc as [|c cs [u Hu] Hc IH]; [done|].
  change (utf8_decode c ++ mjoin (utf8_decode <$> cs) = utf8_decode (c ++ mjoin cs)). rewrite IH, (utf8_decode_encode _ _ _ Hu), (utf8_decode_whole _ _ Hu). done.
Qed.

(** A character cut in two is lost: both parts are replaced. *)
Example cut_character :
  utf8_encode [233%N] = Some [195; 169]%N ∧ utf8_decode [195; 169]%N = [233%N] ∧
  utf8_decode [195]%N ++ utf8_decode [169]%N = [REPLACEMENT; REPLACEMENT].
Proof. by vm_compute. Qed.

(** ** Lines *)

(** The line boundaries of [str.splitlines]. *)
Definition line_boundary (c : N) : bool :=
  ((10 <=? c) && (c <=? 13) || (28 <=? c) && (c <=? 30) || (c =? 133) || (c =? 8232) || (c =? 8233))%N.

Fixpoint splitlines_acc (acc : text) (s : text) : list text :=
  match s with
  | [] => if decide (acc = []) then [] else [acc]
  | c :: s' =>
      if line_boundary c
      then acc :: match s' with
                  | d :: s'' => if bool_decide (c = CR) && bool_decide (d = LF)
                                then splitlines_acc [] s'' else splitlines_acc [] s'
                  | [] => []
                  end
      else splitlines_acc (acc ++ [c]) s'
  end.

(** [str.splitlines] *)
Definition splitlines (s : text) : list text := splitlines_acc [] s.

(** Reading a file in text mode: universal newlines. *)
Definition read_text (s : text) : text := Newline.crlf_sub s.

(** A text of lines that end with a newline each. *)
Definition unlines (ls : list text) : text := mjoin ((λ l, l ++ [LF]) <$> ls).

Definition no_break (l : text) : Prop := CR ∉ l ∧ LF ∉ l.
Definition one_line (l : text) : Prop := ∀ c, c ∈ l → line_boundary c = false.

Lemma crlf_sub_id s : CR ∉ s → Newline.crlf_sub s = s.
Proof.
  induction s as [|c s IH]; intros Hs; [done|]. cbn [Newline.crlf_sub].
  rewrite decide_False by set_solver. by rewrite IH by set_solver.
Qed.

Lemma unlines_no_CR ls : (∀ l, l ∈ ls → CR ∉ l) → CR ∉ unlines ls.
Proof.
  unfold unlines. induction ls as [|l ls IH]; intros Hls; [apply not_elem_of_nil|].
  change (CR ∉ (l ++ [LF]) ++ unlines ls). rewrite !not_elem_of_app, list_elem_of_singleton. split_and!.
  - apply Hls. left.
  - done.
  - apply IH. intros l' Hl'. apply Hls. by right.
Qed.

Lemma read_unlines ls : (∀ l, l ∈ ls → no_break l) → read_text (unlines ls) = unlines ls.
Proof. intros Hls. apply crlf_sub_id, unlines_no_CR. intros l Hl. by apply Hls. Qed.

Lemma split_unlines ls : (∀ l, l ∈ ls → no_break l) → split_on LF (unlines ls) = ls ++ [[]].
Proof.
  induction ls as [|l ls IH]; intros Hls; [done|].
  change (unlines (l :: ls)) with ((l ++ [LF]) ++ unlines ls). rewrite <- app_assoc. cbn [app].
  rewrite split_on_app by (apply Hls; left). rewrite IH; [done|]. intros l' Hl'. apply Hls. by right.
Qed.

Lemma splitlines_one acc l s : one_line l → splitlines_acc acc (l ++ LF :: s) = (acc ++ l) :: splitlines s.
Proof.
  revert acc. induction l as [|c l IH]; intros acc Hl; cbn [app splitlines_acc].
  - rewrite app_nil_r. change (line_boundary LF) with true. destruct s as [|d s]; [done|]. done.
  - rewrite (Hl c) by left. rewrite IH by (intros d Hd; apply Hl; by right). by rewrite <- app_assoc.
Qed.

Lemma splitlines_unlines ls : (∀ l, l ∈ ls → one_line l) → splitlines (unlines ls) = ls.
Proof.
  induction ls as [|l ls IH]; intros Hls; [done|].
  change (unlines (l :: ls)) with ((l ++ [LF]) ++ unlines ls). rewrite <- app_assoc. cbn [app].
  unfold splitlines. rewrite splitlines_one by (apply Hls; left). rewrite IH; [done|]. intros l' Hl'. apply Hls. by right.
Qed.

(** ** JSON text *)

(** The text of a JSON document: what the code relies on of [json.dumps] with
    ensure_ascii=False and compact separators, and of [json.loads].  On the
    objects that JSON can write they are inverse; control characters are
    escaped inside strings and not written between tokens; the text of an object
    stands in braces.  [loads] answers [None] where the decoder raises. *)
Class JsonText := {
  dumps : row → text;
  loads : text → option json;
  encodable : row → Prop;
  loads_dumps : ∀ r, encodable r → loads (dumps r) = Some (JObj r);
  dumps_printable : ∀ r c, encodable r → c ∈ dumps r → (32 ≤ c)%N;
  dumps_braces : ∀ r, encodable r → ∃ t, dumps r = 123%N :: t ++ [125%N];
}.

Section Dumps.

Context `{JsonText}.

Lemma dumps_no_break r : encodable r → no_break (dumps r).
Proof. intros Hr. split; intros Hc; apply (dumps_printable r _ Hr) in Hc; vm_compute in Hc; by apply Hc. Qed.

Lemma dumps_nonempty r : encodable r → dumps r ≠ [].
Proof. intros Hr. by destruct (dumps_braces r Hr) as [t ->]. Qed.

Lemma strip_dumps r : encodable r → Text.strip (dumps r) = dumps r.
Proof.
  intros Hr. destruct (dumps_braces r Hr) as [t ->]. unfold strip.
  rewrite lstrip_by_id by (by intros c [= <-]). apply rstrip_by_id.
  change (123%N :: t ++ [125%N]) with ((123%N :: t) ++ [125%N]). rewrite last_snoc. by intros c [= <-].
Qed.

End Dumps.

(** *** A concrete codec: the objects of a table, written by their position. *)

Definition table_text (n : nat) : text := 123%N :: str_of_N (N.of_nat n) ++ [125%N].

Fixpoint position (r : row) (table : list row) : nat :=
  match table with [] => 0 | x :: table' => if decide (x = r) then 0 else S (position r table') end.

Definition table_dumps (table : list row) (r : row) : text := table_text (position r table).

Definition table_loads (table : list row) (t : text) : option json :=
  match t with
  | 123%N :: t' => n ← int_digits false 0 (take (length t' - 1) t'); JObj <$> table !! N.to_nat n
  | _ => None
  end.

Lemma position_lookup r table : r ∈ table → table !! position r table = Some r.
Proof.
  induction table as [|x table IH]; [by intros []%not_elem_of_nil|]. cbn [position]. destruct (decide (x = r)) as [->|Hne]; [done|].
  intros [?|Hr]%elem_of_cons; [congruence|]. by apply IH.
Qed.

Lemma table_loads_dumps table : ∀ r, r ∈ table → table_loads table (table_dumps table r) = Some (JObj r).
Proof.
  intros r Hr. unfold table_loads, table_dumps, table_text. rewrite length_app, Nat.add_sub, take_app_length.
  destruct (str_of_N_spec (N.of_nat (position r table))) as (_ & _ & ->). cbn [mbind option_bind]. by rewrite Nat2N.id, position_lookup.
Qed.

Lemma table_printable table : ∀ r c, r ∈ table → c ∈ table_dumps table r → (32 ≤ c)%N.
Proof.
  intros r c _. unfold table_dumps, table_text. intros [->|[Hc|Hc]%elem_of_app]%elem_of_cons; [done| |].
  - destruct (str_of_N_spec (N.of_nat (position r table))) as (Hd & _). rewrite Forall_forall in Hd. apply Hd in Hc. unfold is_dec in Hc. lia.
  - by apply list_elem_of_singleton in Hc as ->.
Qed.

Lemma table_braces table : ∀ r, r ∈ table → ∃ t, table_dumps table r = 123%N :: t ++ [125%N].
Proof. intros r _. by eexists. Qed.

Definition table_json (table : list row) : JsonText :=
  {| dumps := table_dumps table; loads := table_loads table; encodable := λ r, r ∈ table;
     loads_dumps := table_loads_dumps table; dumps_printable := table_printable table; dumps_braces := table_braces table |}.
