(* ===== verification/Sse.v ===== *)
(** Server-sent events of the stream package
    (src/packages/stream/src/orditect/stream/sse/frame.py, sse/writer.py,
    client/sse_reader.py, client/events.py): encoding of frames, the
    line-level parser of the client, the id of an event and its parser, and the
    way of an envelope through both.

    A frame is written as bytes, the UTF-8 form of its text (Wire.v); the client
    decodes the bytes of every chunk on its own, with errors="replace", so a
    character that is cut by the network does not survive ([cut_frame]).
    [json.dumps] and [json.loads] are the class [JsonText] of Wire.v. *)
From Stdlib Require Import ZArith Lia ZifyBool.
From stdpp Require Import prelude gmap list strings.
From S2P Require Import Prelude Text Pipeline Wire Mux.
Local Open Scope list_scope.

Definition COLON : N := 58.
Definition SPACE : N := 32.

Record SSEFrame := { event : text; data : text; frame_id : option text; comment : option text }.

(** The lines of a frame, without the empty line that ends it. *)
Definition frame_lines (f : SSEFrame) : list text :=
  match comment f with
  | Some c => (λ l, COLON :: l) <$> (if decide (splitlines c = []) then [[]] else splitlines c)
  | None =>
      match frame_id f with Some i => [lit "id: " ++ i] | None => [] end
      ++ [lit "event: " ++ event f]
      ++ ((λ l, lit "data: " ++ l) <$> split_on LF (Newline.crlf_sub (data f)))
  end.

Definition frame_text (f : SSEFrame) : text := join_with [LF] (frame_lines f) ++ [LF; LF].

(** [SSEFrame.encode]; [None] is the UnicodeEncodeError of a surrogate. *)
Definition frame_encode (f : SSEFrame) : option bytes := utf8_encode (frame_text f).

Definition heartbeat_frame : SSEFrame :=
  {| event := []; data := []; frame_id := None; comment := Some (lit "ping") |}.

(** ** The client's parser *)

Record RawSSEFrame := { raw_event : text; data_lines : list text; raw_id : option text }.

Definition raw_init : RawSSEFrame := {| raw_event := lit "message"; data_lines := []; raw_id := None |}.

Definition raw_data (f : RawSSEFrame) : text := join_with [LF] (data_lines f).

(** [_FrameParser.feed_line] *)
Definition feed_line (cur : RawSSEFrame) (line : text) : RawSSEFrame * option RawSSEFrame :=
  let line := rstrip_by Newline.is_nl line in
  if decide (line = []) then
    if bool_decide (data_lines cur ≠ []) || match raw_id cur with Some i => bool_decide (i ≠ []) | None => false end
       || bool_decide (raw_event cur ≠ lit "message")
    then (raw_init, Some cur) else (cur, None)
  else if starts_with [COLON] line then (cur, None)
  else if starts_with (lit "event:") line then
    ({| raw_event := strip (drop 6 line); data_lines := data_lines cur; raw_id := raw_id cur |}, None)
  else if starts_with (lit "id:") line then
    ({| raw_event := raw_event cur; data_lines := data_lines cur; raw_id := Some (strip (drop 3 line)) |}, None)
  else if starts_with (lit "data:") line then
    let value := drop 5 line in
    let value := if starts_with [SPACE] value then drop 1 value else value in
    ({| raw_event := raw_event cur; data_lines := data_lines cur ++ [value]; raw_id := raw_id cur |}, None)
  else (cur, None).

Definition opt_list {A} (o : option A) : list A := match o with Some a => [a] | None => [] end.

(** The loop [while newline in buffer]; [None]: out of fuel. *)
Fixpoint pump (fuel : nat) (cur : RawSSEFrame) (buffer : text)
  : option (list RawSSEFrame * (RawSSEFrame * text)) :=
  match find [LF] buffer with
  | None => Some ([], (cur, buffer))
  | Some i =>
      match fuel with
      | O => None
      | S fuel' =>
          let '(cur', out) := feed_line cur (take i buffer) in
          '(outs, st) ← pump fuel' cur' (drop (i + 1) buffer);
          Some (opt_list out ++ outs, st)
      end
  end.

(** [SSEClient.parse] (and [aparse]): every chunk of bytes is decoded on its
    own; what is left in the buffer at the end is read as a line. *)
Fixpoint sse_parse (cur : RawSSEFrame) (buffer : text) (chunks : list bytes) : option (list RawSSEFrame) :=
  match chunks with
  | [] =>
      if decide (buffer = []) then Some []
      else Some (opt_list (feed_line cur buffer).2)
  | chunk :: chunks' =>
      let buffer := buffer ++ utf8_decode chunk in
      '(outs, (cur', buffer')) ← pump (length buffer) cur buffer;
      outs' ← sse_parse cur' buffer' chunks';
      Some (outs ++ outs')
  end.

(** *** The lines of a text: those that end with a newline, and the rest. *)

Fixpoint lines_of (s : text) : list text * text :=
  match s with
  | [] => ([], [])
  | c :: s' =>
      let '(ls, r) := lines_of s' in
      if decide (c = LF) then ([] :: ls, r)
      else match ls with [] => ([], c :: r) | l :: ls' => ((c :: l) :: ls', r) end
  end.

Fixpoint feed_lines (cur : RawSSEFrame) (ls : list text) : list RawSSEFrame * RawSSEFrame :=
  match ls with
  | [] => ([], cur)
  | l :: ls' =>
      let '(cur', out) := feed_line cur l in
      let '(outs, cur'') := feed_lines cur' ls' in
      (opt_list out ++ outs, cur'')
  end.

Definition parse_text (cur : RawSSEFrame) (s : text) : list RawSSEFrame :=
  let '(ls, r) := lines_of s in
  let '(outs, cur') := feed_lines cur ls in
  outs ++ if decide (r = []) then [] else opt_list (feed_line cur' r).2.

Lemma lines_line l s : LF ∉ l → lines_of (l ++ LF :: s) = (l :: (lines_of s).1, (lines_of s).2).
Proof.
  induction l as [|c l IH]; intros Hl; cbn [app lines_of].
  - destruct (lines_of s) as [ls r]. by rewrite decide_True.
  - rewrite IH by set_solver. rewrite decide_False by set_solver. done.
Qed.

Lemma lines_none s : LF ∉ s → lines_of s = ([], s).
Proof.
  induction s as [|c s IH]; intros Hs; [done|]. cbn [lines_of]. rewrite IH by set_solver.
  by rewrite decide_False by set_solver.
Qed.

Lemma lines_app a b :
  lines_of (a ++ b) = ((lines_of a).1 ++ (lines_of ((lines_of a).2 ++ b)).1, (lines_of ((lines_of a).2 ++ b)).2).
Proof.
  induction a as [|c a IH]; [cbn; by destruct (lines_of b)|]. cbn [app lines_of]. rewrite IH.
  destruct (lines_of a) as [la ra]. cbn [fst snd]. destruct (decide (c = LF)) as [->|Hc]; [done|].
  destruct la as [|l la]; cbn [fst snd app lines_of]; [|done].
  destruct (lines_of (ra ++ b)) as [[|l ls] r]; by rewrite decide_False by done.
Qed.

Lemma feed_lines_app cur a b :
  feed_lines cur (a ++ b) =
  ((feed_lines cur a).1 ++ (feed_lines (feed_lines cur a).2 b).1, (feed_lines (feed_lines cur a).2 b).2).
Proof.
  revert cur. induction a as [|l a IH]; intros cur; cbn [app feed_lines fst snd]; [by destruct (feed_lines cur b)|].
  destruct (feed_line cur l) as [cur' out]. rewrite IH. destruct (feed_lines cur' a) as [o c]. cbn.
  by rewrite app_assoc.
Qed.

Lemma find_LF s : match find [LF] s with
  | Some i => s = take i s ++ LF :: drop (i + 1) s ∧ LF ∉ take i s ∧ (i < length s)%nat
  | None => LF ∉ s end.
Proof.
  induction s as [|c s IH]; [by apply not_elem_of_nil|]. cbn [find].
  destruct (starts_with [LF] (c :: s)) eqn:E.
  - apply starts_with_true in E as [r [= -> ->]]. cbn. split; [done|]. split; [apply not_elem_of_nil|lia].
  - assert (Hc : c ≠ LF).
    { intros ->. apply not_true_iff_false in E. apply E, starts_with_true. by exists s. }
    destruct (find [LF] s) as [i|]; cbn.
    + destruct IH as (IH1 & IH2 & IH3). split; [by rewrite <- IH1|]. split; [set_solver|lia].
    + set_solver.
Qed.

Lemma pump_spec fuel cur s :
  (length s ≤ fuel)%nat →
  pump fuel cur s = Some ((feed_lines cur (lines_of s).1).1, ((feed_lines cur (lines_of s).1).2, (lines_of s).2)).
Proof.
  revert cur s. induction fuel as [|fuel IH]; intros cur s Hl; cbn [pump]; pose proof (find_LF s) as Hf.
  - destruct (find [LF] s); [lia|]. by rewrite (lines_none s).
  - destruct (find [LF] s) as [i|]; [|by rewrite (lines_none s)].
    destruct Hf as (Hs & Hn & Hi).
    assert (Hlines : lines_of s = (take i s :: (lines_of (drop (i + 1) s)).1, (lines_of (drop (i + 1) s)).2))
      by (rewrite Hs at 1; by apply lines_line).
    rewrite Hlines. cbn [fst snd feed_lines]. destruct (feed_line cur (take i s)) as [cur' out].
    rewrite IH by (rewrite length_drop; lia). cbn.
    by destruct (feed_lines cur' _) as [outs cur''].
Qed.

Lemma lines_rest s : LF ∉ (lines_of s).2.
Proof.
  induction s as [|c s IH]; [apply not_elem_of_nil|]. cbn [lines_of].
  destruct (lines_of s) as [ls r]. cbn in IH. destruct (decide (c = LF)); [done|]. destruct ls; [|done]. cbn. set_solver.
Qed.

Lemma sse_parse_text cur buffer chunks :
  LF ∉ buffer → sse_parse cur buffer chunks = Some (parse_text cur (buffer ++ mjoin (utf8_decode <$> chunks))).
Proof.
  revert cur buffer. induction chunks as [|c cs IH]; intros cur buffer Hb; cbn [sse_parse].
  - change (mjoin (utf8_decode <$> [])) with (@nil N). rewrite app_nil_r. unfold parse_text. rewrite (lines_none _ Hb). cbn. by destruct (decide _).
  - change (mjoin (utf8_decode <$> c :: cs)) with (utf8_decode c ++ mjoin (utf8_decode <$> cs)).
    generalize (utf8_decode c) as d. intros d. rewrite pump_spec by done. cbn.
    rewrite IH by apply lines_rest. cbn. f_equal. unfold parse_text.
    rewrite (app_assoc buffer d). rewrite (lines_app (buffer ++ d)).
    destruct (lines_of (buffer ++ d)) as [l1 r1]. cbn [fst snd].
    destruct (lines_of (r1 ++ mjoin (utf8_decode <$> cs))) as [l2 r2]. cbn [fst snd]. rewrite feed_lines_app.
    destruct (feed_lines cur l1) as [o1 c1]. cbn [fst snd]. destruct (feed_lines c1 l2) as [o2 c2]. cbn [fst snd].
    by rewrite app_assoc.
Qed.

(** The client's parser always terminates, and on any chunks it yields the
    frames of the concatenation of what the chunks decode to, the lines of which
    are those that a newline ends and the last one if it is not empty. *)
Theorem sse_parse_chunks chunks : sse_parse raw_init [] chunks = Some (parse_text raw_init (mjoin (utf8_decode <$> chunks))).
Proof. apply (sse_parse_text raw_init [] chunks), not_elem_of_nil. Qed.

(** ** Frames through the stream *)

(** What the client sees of a frame: nothing of a comment. *)
Definition frame_seen (f : SSEFrame) : option RawSSEFrame :=
  match comment f with
  | Some _ => None
  | None => Some {| raw_event := strip (event f); data_lines := split_on LF (Newline.crlf_sub (data f));
                    raw_id := strip <$> frame_id f |}
  end.

(** The fields that are written without escaping hold no line break. *)
Definition frame_ok (f : SSEFrame) : Prop :=
  comment f = None → (CR ∉ event f ∧ LF ∉ event f) ∧ ∀ i, frame_id f = Some i → CR ∉ i ∧ LF ∉ i.

Lemma no_break_rstrip l : no_break l → rstrip_by Newline.is_nl l = l.
Proof.
  intros [H1 H2]. apply rstrip_by_id. intros c Hc%last_Some_elem_of.
  apply Newline.is_nl_false; intros ->; contradiction.
Qed.

Lemma starts_with_app p r : starts_with p (p ++ r) = true.
Proof. apply starts_with_true. by exists r. Qed.

Lemma starts_with_head p s : head p ≠ None → head p ≠ head s → starts_with p s = false.
Proof.
  intros H0 Hn. apply not_true_iff_false. rewrite starts_with_true. intros [r Hr]. subst s.
  destruct p; [by apply H0|by apply Hn].
Qed.

Lemma crlf_no_CR n s : (length s ≤ n)%nat → CR ∉ Newline.crlf_sub s.
Proof.
  revert s. induction n as [|n IH]; intros [|c s] Hl; simpl in Hl; try lia; try apply not_elem_of_nil.
  cbn [Newline.crlf_sub]. destruct (decide (c = CR)) as [->|Hc].
  - intros [Hx|Hin]%elem_of_cons; [discriminate Hx|]. destruct s as [|d s]; [by apply not_elem_of_nil in Hin|].
    destruct (decide (d = LF)); [apply (IH s)|apply (IH (d :: s))]; (done || simpl in *; lia).
  - intros [Hx|Hin]%elem_of_cons; [done|]. apply (IH s); [lia|done].
Qed.

Lemma split_on_elem sep s l c : l ∈ split_on sep s → c ∈ l → c ∈ s.
Proof.
  revert l. induction s as [|x s IH]; intros l; cbn [split_on].
  - intros ->%list_elem_of_singleton []%not_elem_of_nil.
  - destruct (decide (x = sep)).
    + intros [->|Hl]%elem_of_cons Hc; [by apply not_elem_of_nil in Hc|]. right. by eapply IH.
    + destruct (split_on sep s) as [|y ys] eqn:E; [by apply split_on_nonempty in E|].
      intros [->|Hl]%elem_of_cons Hc.
      * apply elem_of_cons in Hc as [->|Hc]; [left|]. right. apply (IH y); [left|done].
      * right. apply (IH l); [by right|done].
Qed.

Lemma data_parts d l : l ∈ split_on LF (Newline.crlf_sub d) → no_break l.
Proof.
  intros Hl. split; [|by eapply split_on_parts]. intros Hc.
  apply (crlf_no_CR (length d) d); [done|]. by eapply split_on_elem.
Qed.

Lemma splitlines_no_break acc s l n :
  (length s ≤ n)%nat → Forall (λ c, line_boundary c = false) acc → l ∈ splitlines_acc acc s → no_break l.
Proof.
  assert (Hb : ∀ l, Forall (λ c, line_boundary c = false) l → no_break l).
  { intros l' Hf. rewrite Forall_forall in Hf. split; intros Hc; by apply Hf in Hc. }
  revert acc s. induction n as [|n IH]; intros acc [|c s] Hl Hacc; simpl in Hl; try lia; cbn [splitlines_acc].
  1,2: destruct (decide (acc = [])); [by intros []%not_elem_of_nil|intros ->%list_elem_of_singleton; by apply Hb].
  destruct (line_boundary c) eqn:Ec.
  - intros [->|Hin]%elem_of_cons; [by apply Hb|]. destruct s as [|d s]; [by apply not_elem_of_nil in Hin|].
    destruct (_ && _); [apply (IH [] s)|apply (IH [] (d :: s))]; try constructor; simpl in *; (done || lia).
  - apply IH; [lia|]. apply Forall_app. by repeat constructor.
Qed.

Lemma frame_lines_no_break f l : frame_ok f → l ∈ frame_lines f → no_break l.
Proof.
  unfold frame_lines, frame_ok. intros Hok. assert (Hcons : ∀ c l, c ≠ CR → c ≠ LF → no_break l → no_break (c :: l)).
  { intros c l' H1 H2 [H3 H4]. split; by rewrite not_elem_of_cons. }
  destruct (comment f) as [cm|].
  - intros (x & -> & Hx)%list_elem_of_fmap. apply Hcons; [done|done|].
    destruct (decide _); [|by eapply splitlines_no_break].
    apply list_elem_of_singleton in Hx as ->. split; apply not_elem_of_nil.
  - destruct (Hok eq_refl) as [He Hi]. intros [Hl|[Hl|Hl]%elem_of_app]%elem_of_app.
    + destruct (frame_id f) as [i|]; [|by apply not_elem_of_nil in Hl].
      apply list_elem_of_singleton in Hl as ->. do 4 (apply Hcons; [done|done|]). by apply Hi.
    + apply list_elem_of_singleton in Hl as ->. do 7 (apply Hcons; [done|done|]). done.
    + apply list_elem_of_fmap in Hl as (x & -> & Hx). do 6 (apply Hcons; [done|done|]). by eapply data_parts.
Qed.

Lemma frame_lines_nonempty f : frame_lines f ≠ [].
Proof.
  unfold frame_lines. destruct (comment f).
  - destruct (decide _); [done|]. by destruct (splitlines _).
  - by destruct (frame_id f).
Qed.

Lemma lines_join ls s :
  ls ≠ [] → (∀ l, l ∈ ls → LF ∉ l) →
  lines_of (join_with [LF] ls ++ LF :: s) = (ls ++ (lines_of s).1, (lines_of s).2).
Proof.
  induction ls as [|l ls IH]; intros Hne Hl; [done|]. destruct ls as [|l2 ls].
  - cbn [join_with app]. apply lines_line, Hl. left.
  - change (join_with [LF] (l :: l2 :: ls)) with (l ++ LF :: join_with [LF] (l2 :: ls)).
    rewrite <- app_assoc. cbn [app]. rewrite lines_line by (apply Hl; left).
    rewrite IH; [done|done|]. intros x Hx. apply Hl. by right.
Qed.

Lemma lines_encode f s :
  frame_ok f → lines_of (frame_text f ++ s) = (frame_lines f ++ [] :: (lines_of s).1, (lines_of s).2).
Proof.
  intros Hok. unfold frame_text. rewrite <- app_assoc. cbn [app].
  rewrite lines_join; [|apply frame_lines_nonempty|].
  - change (LF :: s) with ([] ++ LF :: s). rewrite lines_line by apply not_elem_of_nil. done.
  - intros l Hl. by apply (frame_lines_no_break f l Hok).
Qed.

(** One line of each kind. *)
Lemma feed_id cur i : no_break i →
  feed_line cur (lit "id: " ++ i) = ({| raw_event := raw_event cur; data_lines := data_lines cur; raw_id := Some (strip i) |}, None).
Proof.
  intros [H1 H2]. unfold feed_line. rewrite no_break_rstrip.
  - rewrite decide_False by done. rewrite (starts_with_head [COLON]), (starts_with_head (lit "event:")) by done.
    change (lit "id: " ++ i) with (lit "id:" ++ SPACE :: i). rewrite starts_with_app. done.
  - split; cbn; rewrite !not_elem_of_cons; done.
Qed.

Lemma feed_event cur e : no_break e →
  feed_line cur (lit "event: " ++ e) = ({| raw_event := strip e; data_lines := data_lines cur; raw_id := raw_id cur |}, None).
Proof.
  intros [H1 H2]. unfold feed_line. rewrite no_break_rstrip.
  - rewrite decide_False by done. rewrite (starts_with_head [COLON]) by done.
    change (lit "event: " ++ e) with (lit "event:" ++ SPACE :: e). rewrite starts_with_app. done.
  - split; cbn; rewrite !not_elem_of_cons; done.
Qed.

Lemma feed_data cur d : no_break d →
  feed_line cur (lit "data: " ++ d) = ({| raw_event := raw_event cur; data_lines := data_lines cur ++ [d]; raw_id := raw_id cur |}, None).
Proof.
  intros [H1 H2]. unfold feed_line. rewrite no_break_rstrip.
  - rewrite decide_False by done. rewrite (starts_with_head [COLON]), (starts_with_head (lit "event:")), (starts_with_head (lit "id:")) by done.
    change (lit "data: " ++ d) with (lit "data:" ++ SPACE :: d). rewrite starts_with_app.
    change (drop 5 (lit "data:" ++ SPACE :: d)) with ([SPACE] ++ d). rewrite starts_with_app. done.
  - split; cbn; rewrite !not_elem_of_cons; done.
Qed.

Lemma feed_comment cur c : no_break c → feed_line cur (COLON :: c) = (cur, None).
Proof.
  intros [H1 H2]. unfold feed_line. rewrite no_break_rstrip.
  - rewrite decide_False by done. change (COLON :: c) with ([COLON] ++ c). by rewrite starts_with_app.
  - split; rewrite not_elem_of_cons; done.
Qed.

Lemma feed_datas ds cur :
  (∀ d, d ∈ ds → no_break d) →
  feed_lines cur ((λ l, lit "data: " ++ l) <$> ds) =
  ([], {| raw_event := raw_event cur; data_lines := data_lines cur ++ ds; raw_id := raw_id cur |}).
Proof.
  revert cur. induction ds as [|d ds IH]; intros cur Hd.
  - rewrite app_nil_r. by destruct cur.
  - cbn [fmap list_fmap feed_lines]. rewrite feed_data by (apply Hd; left).
    rewrite IH by (intros x Hx; apply Hd; by right). cbn. by rewrite <- app_assoc.
Qed.

Lemma feed_comments cs cur :
  (∀ c, c ∈ cs → no_break c) → feed_lines cur ((λ l, COLON :: l) <$> cs) = ([], cur).
Proof.
  induction cs as [|c cs IH]; intros Hc; [done|]. cbn [fmap list_fmap feed_lines].
  rewrite feed_comment by (apply Hc; left). rewrite IH by (intros x Hx; apply Hc; by right). done.
Qed.

Lemma feed_frame f :
  frame_ok f → feed_lines raw_init (frame_lines f ++ [[]]) = (opt_list (frame_seen f), raw_init).
Proof.
  intros Hok. rewrite feed_lines_app. unfold frame_lines, frame_seen.
  destruct (comment f) as [cm|] eqn:Ec.
  - rewrite feed_comments; [done|]. intros c Hc. destruct (decide _); [|by eapply splitlines_no_break].
    apply list_elem_of_singleton in Hc as ->. split; apply not_elem_of_nil.
  - destruct (Hok Ec) as [He Hi].
    assert (Hd : ∀ d, d ∈ split_on LF (Newline.crlf_sub (data f)) → no_break d) by (intros d; apply data_parts).
    assert (Hne : split_on LF (Newline.crlf_sub (data f)) ≠ []) by apply split_on_nonempty.
    revert Hd Hne. generalize (split_on LF (Newline.crlf_sub (data f))). intros ds Hd Hne.
    assert (Hend : ∀ ev i, feed_line {| raw_event := ev; data_lines := ds; raw_id := i |} [] =
                         (raw_init, Some {| raw_event := ev; data_lines := ds; raw_id := i |})).
    { intros ev i. unfold feed_line. cbn. by rewrite bool_decide_eq_true_2. }
    destruct (frame_id f) as [i|]; cbn [app].
    + cbn [feed_lines]. rewrite (feed_id _ i) by (by apply Hi). cbn [feed_lines]. rewrite (feed_event _ _ He).
      rewrite feed_datas by exact Hd. cbn [fst snd opt_list app raw_init data_lines feed_lines raw_event raw_id].
      rewrite Hend. done.
    + cbn [feed_lines]. rewrite (feed_event _ _ He).
      rewrite feed_datas by exact Hd. cbn [fst snd opt_list app raw_init data_lines feed_lines raw_event raw_id].
      rewrite Hend. done.
Qed.

Lemma parse_frames fs :
  Forall frame_ok fs → parse_text raw_init (mjoin (frame_text <$> fs)) = omap frame_seen fs.
Proof.
  intros Hfs.
  assert (H : lines_of (mjoin (frame_text <$> fs)) = (mjoin ((λ f, frame_lines f ++ [[]]) <$> fs), [])).
  { induction Hfs as [|f fs Hf Hfs IH]; [done|].
    change (mjoin (frame_text <$> f :: fs)) with (frame_text f ++ mjoin (frame_text <$> fs)).
    rewrite lines_encode, IH by done. cbn. by rewrite <- app_assoc. }
  assert (H2 : feed_lines raw_init (mjoin ((λ f, frame_lines f ++ [[]]) <$> fs)) = (omap frame_seen fs, raw_init)).
  { clear H. induction Hfs as [|f fs Hf Hfs IH]; [done|].
    change (mjoin ((λ f, frame_lines f ++ [[]]) <$> f :: fs))
      with ((frame_lines f ++ [[]]) ++ mjoin ((λ f, frame_lines f ++ [[]]) <$> fs)).
    rewrite feed_lines_app, feed_frame by done. cbn [fst snd]. rewrite IH. cbn [fst snd]. f_equal.
    change (omap frame_seen (f :: fs)) with (match frame_seen f with Some y => y :: omap frame_seen fs | None => omap frame_seen fs end).
    by destruct (frame_seen f). }
  unfold parse_text. rewrite H, H2. cbn. by rewrite app_nil_r.
Qed.

(** The bytes of some frames, cut into chunks between characters, are decoded
    to the text of the frames. *)
Lemma chunks_text fs bss chunks :
  mapM frame_encode fs = Some bss → mjoin chunks = mjoin bss → Forall whole_chars chunks →
  mjoin (utf8_decode <$> chunks) = mjoin (frame_text <$> fs).
Proof.
  intros Hb Hc Hw. apply utf8_chunks; [done|]. rewrite Hc. apply utf8_encode_join. rewrite mapM_Some in Hb.
  apply mapM_Some, Forall2_fmap_l. done.
Qed.

(** What the writer sends, the client reads: for any frames whose event and
    id hold no line break (data and comments may), encoded one after the
    other and cut between characters into chunks in any way, the client yields
    one frame for each of them that is not a comment, in order, with the event
    and the id without surrounding white space and with the data line by
    line. *)
Theorem sse_roundtrip fs bss chunks :
  Forall frame_ok fs → mapM frame_encode fs = Some bss → mjoin chunks = mjoin bss → Forall whole_chars chunks →
  sse_parse raw_init [] chunks = Some (omap frame_seen fs).
Proof.
  intros Hfs Hb Hc Hw. rewrite (sse_parse_text raw_init [] chunks); [|apply not_elem_of_nil].
  cbn [app]. by rewrite (chunks_text _ _ _ Hb Hc Hw), parse_frames.
Qed.

(** ** Ids *)

(** [EventEnvelope.sse_id], on the stream id and the number. *)
Definition sse_id (stream_id : text) (seq : Z) : text := stream_id ++ COLON :: str_of_Z seq.

(** [str.rpartition(":")]: what precedes and what follows the last colon. *)
Fixpoint rpartition (s : text) : option (text * text) :=
  match s with
  | [] => None
  | c :: s' =>
      match rpartition s' with
      | Some (a, b) => Some (c :: a, b)
      | None => if decide (c = COLON) then Some ([], s') else None
      end
  end.

(** [parse_last_event_id] *)
Definition parse_last_event_id (raw : option text) : option (text * Z) :=
  match raw with
  | None | Some [] => None
  | Some r =>
      match rpartition r with
      | None | Some ([], _) => None
      | Some (stream_id, seq_str) => (λ z, (stream_id, z)) <$> py_int seq_str
      end
  end.

Lemma rpartition_none s : COLON ∉ s → rpartition s = None.
Proof.
  induction s as [|c s IH]; intros Hs; [done|]. cbn [rpartition]. rewrite IH by set_solver.
  by rewrite decide_False by set_solver.
Qed.

Lemma rpartition_app a b : COLON ∉ b → rpartition (a ++ COLON :: b) = Some (a, b).
Proof.
  intros Hb. induction a as [|c a IH]; cbn [app rpartition].
  - by rewrite (rpartition_none b Hb), decide_True.
  - by rewrite IH.
Qed.

Lemma str_of_Z_no_colon z : COLON ∉ str_of_Z z.
Proof.
  assert (H : ∀ n, COLON ∉ str_of_N n).
  { intros n Hc. destruct (str_of_N_spec n) as (Hd & _). rewrite Forall_forall in Hd. by apply Hd in Hc. }
  unfold str_of_Z. destruct (z <? 0)%Z; [|apply H]. rewrite not_elem_of_cons. split; [done|apply H].
Qed.

(** [parse_last_event_id] reads back every id that [sse_id] writes, whatever
    colons the stream id has: the pair is the stream id and the number; only an
    empty stream id is refused. *)
Theorem last_event_id_roundtrip stream_id seq :
  parse_last_event_id (Some (sse_id stream_id seq)) =
  if decide (stream_id = []) then None else Some (stream_id, seq).
Proof.
  unfold parse_last_event_id, sse_id. rewrite (rpartition_app stream_id) by apply str_of_Z_no_colon.
  rewrite py_int_str. destruct stream_id as [|c s]; [done|]. cbn [app]. by rewrite decide_False by done.
Qed.

(** ** Envelopes *)

Section Envelope.

Context `{JsonText}.

Abbreviation envelope := (@EventEnvelope row Z).

(** [EventEnvelope.to_payload]; [ts] is a float. *)
Definition envelope_payload (e : envelope) : row :=
  let out : row := <["v" := JNum (env_v e)]> (<["stream_id" := JStr (env_stream_id e)]>
    (<["seq" := JNum (env_seq e)]> (<["ts" := JFloat (env_ts e)]> {["data" := JObj (env_data e)]}))) in
  match env_stage e with Some s => <["stage" := JStr s]> out | None => out end.

(** [frame_from_envelope] *)
Definition frame_from_envelope (e : envelope) (ty : EventType) : SSEFrame :=
  {| event := lit (event_type_value ty); data := dumps (envelope_payload e);
     frame_id := Some (sse_id (lit (env_stream_id e)) (env_seq e)); comment := None |}.

(** [envelope_from_frame]: [None] is the exception of a missing or ill-typed
    field, or of a text that is not the text of an object. *)
Definition envelope_from_frame (d : text) : option envelope :=
  payload ← match loads d with Some (JObj m) => Some m | _ => None end;
  v ← match payload !! "v" with None => Some 1%Z | Some (JNum z) => Some z | Some _ => None end;
  sid ← match payload !! "stream_id" with Some (JStr s) => Some s | _ => None end;
  stg ← match payload !! "stage" with None | Some JNull => Some None | Some (JStr s) => Some (Some s) | Some _ => None end;
  sq ← match payload !! "seq" with Some (JNum z) => Some z | _ => None end;
  ts ← match payload !! "ts" with Some (JFloat t) => Some t | _ => None end;
  dt ← match payload !! "data" with Some (JObj m) => Some m | _ => None end;
  Some {| env_v := v; env_stream_id := sid; env_stage := stg; env_seq := sq; env_ts := ts; env_data := dt |}.

Lemma envelope_payload_back e :
  encodable (envelope_payload e) → envelope_from_frame (dumps (envelope_payload e)) = Some e.
Proof.
  intros He. unfold envelope_from_frame. rewrite loads_dumps by exact He. clear He. destruct e as [v sid [s|] sq ts d]; unfold envelope_payload; cbn;
    simplify_map_eq; reflexivity.
Qed.

Lemma event_value_ok ty : no_break (lit (event_type_value ty)) ∧ strip (lit (event_type_value ty)) = lit (event_type_value ty).
Proof.
  assert (Hx : ∀ (c : N) (l : text), bool_decide (c ∈ l) = false → c ∉ l) by (intros c l; by rewrite bool_decide_eq_false).
  destruct ty; (split; [split; apply Hx; vm_compute; reflexivity|vm_compute; reflexivity]).
Qed.

Lemma str_of_Z_no_break z : no_break (str_of_Z z).
Proof.
  assert (Hstr : ∀ n c, (c = CR ∨ c = LF) → c ∉ str_of_N n).
  { intros n c Hx Hc. destruct (str_of_N_spec n) as (Hd & _). rewrite Forall_forall in Hd.
    apply Hd in Hc. destruct Hx as [->| ->]; discriminate Hc. }
  unfold no_break, str_of_Z.
  destruct (z <? 0)%Z; rewrite ?not_elem_of_cons; split_and!; try (apply Hstr; auto); done.
Qed.

Lemma envelope_frame_ok e ty : no_break (lit (env_stream_id e)) → frame_ok (frame_from_envelope e ty).
Proof.
  intros [H1 H2] _. cbn. split; [apply event_value_ok|]. intros i [= <-]. unfold sse_id.
  destruct (str_of_Z_no_break (env_seq e)) as [H3 H4].
  split; rewrite not_elem_of_app, not_elem_of_cons; done.
Qed.

Lemma envelope_frame_seen e ty :
  encodable (envelope_payload e) →
  ∃ r, frame_seen (frame_from_envelope e ty) = Some r ∧ raw_event r = lit (event_type_value ty) ∧
    envelope_from_frame (raw_data r) = Some e.
Proof.
  intros He. eexists. split; [reflexivity|]. cbn [raw_event]. split; [apply event_value_ok|].
  unfold raw_data. cbn [data_lines frame_from_envelope data]. rewrite join_split.
  rewrite crlf_sub_id by (by apply dumps_no_break). by apply envelope_payload_back.
Qed.

(** What the client gets out of one frame. *)
Definition decode_frame (r : RawSSEFrame) : option (text * envelope) :=
  (λ e, (raw_event r, e)) <$> envelope_from_frame (raw_data r).

(** C29: a stream of events reaches the client as it was sent: the envelopes
    written by the server, interleaved with heartbeats in any way, encoded as
    UTF-8 and cut by the network into any chunks that do not split a character,
    are read back by the client one by one, in order, equal in every field and
    with their event types. The client decodes every chunk on its own, so a cut
    inside a character is excluded; so are stream ids with a line break and
    texts that UTF-8 or JSON cannot write. *)
Theorem envelope_stream_roundtrip (evs : list (envelope * EventType)) fs bss chunks :
  (∀ e ty, (e, ty) ∈ evs → no_break (lit (env_stream_id e)) ∧ encodable (envelope_payload e)) →
  filter (λ f, comment f = None) fs = (λ p, frame_from_envelope p.1 p.2) <$> evs →
  (∀ f, f ∈ fs → comment f ≠ None → f = heartbeat_frame) →
  mapM frame_encode fs = Some bss →
  mjoin chunks = mjoin bss →
  Forall whole_chars chunks →
  ∃ rs, sse_parse raw_init [] chunks = Some rs ∧
    decode_frame <$> rs = (λ p, Some (lit (event_type_value p.2), p.1)) <$> evs.
Proof.
  intros Hev Hfs Hhb Hbs Hch Hw. exists (omap frame_seen fs). split.
  - rewrite (sse_parse_text raw_init [] chunks); [|apply not_elem_of_nil]. cbn [app].
    rewrite (chunks_text _ _ _ Hbs Hch Hw), parse_frames; [done|].
    rewrite Forall_forall. intros f Hf. destruct (comment f) eqn:Ec.
    + intros Hn. congruence.
    + assert (Hin : f ∈ filter (λ f, comment f = None) fs) by (by apply list_elem_of_filter).
      rewrite Hfs in Hin. apply list_elem_of_fmap in Hin as ([e ty] & -> & Hin). apply envelope_frame_ok. by apply (Hev e ty).
  - assert (Ho : omap frame_seen fs = omap frame_seen (filter (λ f, comment f = None) fs)).
    { clear. induction fs as [|f fs IH]; [done|]. rewrite filter_cons. cbn [omap list_omap].
      destruct (decide (comment f = None)) as [Hc|Hc].
      - cbn [omap list_omap]. destruct (frame_seen f); [by f_equal|done].
      - assert (Hs : frame_seen f = None) by (unfold frame_seen; by destruct (comment f)).
        by rewrite Hs. }
    rewrite Ho, Hfs. clear Hfs Hhb Hch Hbs Hw Ho. induction evs as [|[e ty] evs IH]; [done|]. cbn [fmap list_fmap omap list_omap fst snd].
    destruct (envelope_frame_seen e ty) as (r & Hr & H1 & H2); [by apply (Hev e ty); left|].
    rewrite Hr. cbn [fmap list_fmap]. f_equal; [|apply IH; intros e' ty' Hin; apply (Hev e' ty'); by right].
    unfold decode_frame. rewrite H2, H1. done.
Qed.

End Envelope.

(** *** Concrete streams *)

Definition demo_frames : list SSEFrame :=
  [ {| event := lit "stream.delta"; data := [233%N; CR; LF] ++ lit "b"; frame_id := Some (lit "s:1"); comment := None |};
    heartbeat_frame ].

(** The bytes of frames. *)
Definition sent (fs : list SSEFrame) : bytes := mjoin (default [] (mapM frame_encode fs)).

Definition demo_texts : list text :=
  [take 7 (mjoin (frame_text <$> demo_frames)); drop 7 (mjoin (frame_text <$> demo_frames))].

Definition demo_chunks : list bytes := default [] (mapM utf8_encode demo_texts).

Lemma demo_chunks_whole : Forall whole_chars demo_chunks.
Proof.
  apply Forall_cons. split; [exists (take 7 (mjoin (frame_text <$> demo_frames))); vm_compute; reflexivity|].
  apply Forall_cons. split; [exists (drop 7 (mjoin (frame_text <$> demo_frames))); vm_compute; reflexivity|]. constructor.
Qed.

Lemma sse_roundtrip_witness :
  Forall frame_ok demo_frames ∧
  sse_parse raw_init [] demo_chunks
  = Some [{| raw_event := lit "stream.delta"; data_lines := [[233%N]; lit "b"]; raw_id := Some (lit "s:1") |}].
Proof.
  assert (Hx : ∀ (c : N) (l : text), bool_decide (c ∈ l) = false → c ∉ l) by (intros c l; by rewrite bool_decide_eq_false).
  assert (Hok : Forall frame_ok demo_frames).
  { constructor; [|constructor; [|constructor]].
    - intros _. split; [split; apply Hx; vm_compute; reflexivity|].
      intros i Hi. injection Hi as <-. split; apply Hx; vm_compute; reflexivity.
    - intros Hc. discriminate Hc. }
  split; [exact Hok|].
  rewrite (sse_roundtrip demo_frames (default [] (mapM frame_encode demo_frames)));
    [vm_compute; reflexivity|exact Hok|vm_compute; reflexivity|vm_compute; reflexivity|exact demo_chunks_whole].
Defined.

(** The same bytes cut after the first byte of the character: the client sees
    two replacement characters instead of it. *)
Example cut_frame :
  let bs := sent demo_frames in
  sse_parse raw_init [] [take 35 bs; drop 35 bs]
  = Some [{| raw_event := lit "stream.delta"; data_lines := [[REPLACEMENT; REPLACEMENT]; lit "b"]; raw_id := Some (lit "s:1") |}].
Proof. vm_compute. reflexivity. Qed.

Definition demo_env : EventEnvelope (D := row) (TS := Z) :=
  {| env_v := 1; env_stream_id := "s"; env_stage := None; env_seq := 1; env_ts := 0%Z; env_data := ∅ |}.

Definition demo_payload : row :=
  <["v" := JNum 1]> (<["stream_id" := JStr "s"]> (<["seq" := JNum 1]> (<["ts" := JFloat 0]> {["data" := JObj ∅]}))).

(** A writer for this one object. *)
Definition demo_json : JsonText := table_json [demo_payload].

Lemma envelope_stream_roundtrip_witness :
  ∃ rs, sse_parse raw_init []
      [sent [heartbeat_frame]; sent [@frame_from_envelope demo_json demo_env STREAM_START]] = Some rs ∧
    @decode_frame demo_json <$> rs = [Some (lit "stream.start", demo_env)].
Proof.
  apply (@envelope_stream_roundtrip demo_json [(demo_env, STREAM_START)]
    [heartbeat_frame; @frame_from_envelope demo_json demo_env STREAM_START]
    [sent [heartbeat_frame]; sent [@frame_from_envelope demo_json demo_env STREAM_START]]).
  - intros e ty Hin. apply list_elem_of_singleton in Hin. injection Hin as -> ->. split.
    + assert (Hx : ∀ (c : N) (l : text), bool_decide (c ∈ l) = false → c ∉ l) by (intros c l; by rewrite bool_decide_eq_false).
      split; apply Hx; vm_compute; reflexivity.
    + apply list_elem_of_singleton. reflexivity.
  - reflexivity.
  - intros f Hf Hc. apply elem_of_cons in Hf as [->|Hf]; [reflexivity|].
    apply list_elem_of_singleton in Hf as ->. exfalso. apply Hc. reflexivity.
  - vm_compute. reflexivity.
  - reflexivity.
  - apply Forall_cons. split; [exists (frame_text heartbeat_frame); vm_compute; reflexivity|].
    apply Forall_cons. split; [|constructor].
    exists (frame_text (@frame_from_envelope demo_json demo_env STREAM_START)). vm_compute. reflexivity.
Defined.
