(* ===== verification/Redis.v ===== *)
(** The Redis commands that the Lua scripts and the stores of the core package
    (src/packages/core/src/orditect/core/lua/, redis/, limiter/) use.

    Redis is a service: its database is the parameter [DB] of the class
    [Redis], seen only through [entry] (what a key holds and when it expires)
    and changed only by the commands, whose laws are their documented effects.
    A key past its expiry instant is absent ([live]); a set, sorted set or hash
    that becomes empty is removed.  Scripts run atomically, at one server time.
    Instants are in milliseconds.  The reference instance [redis_map] shows
    that the laws can hold. *)
From Stdlib Require Import ZArith Lia.
From stdpp Require Import prelude gmap list strings.
From S2P Require Import Prelude.
Local Open Scope list_scope.
Local Open Scope Z_scope.

(** A string value: decimal text, the text of a JSON object, or the two
    integers that the bucket script formats as ["%d %d"]. *)
Inductive rstring : Type := SNum (z : Z) | SJson (r : row) | SPair (a b : Z).

Inductive rvalue : Type :=
  | VStr (s : rstring)
  | VZset (z : gmap string Z)
  | VHash (h : gmap string Z)
  | VSet (s : gset string).

Record rentry := { rval : rvalue; rexp : option Z }.

(** What is there at an instant. *)
Definition live (now : Z) (e : option rentry) : option rentry :=
  match e with
  | Some {| rval := v; rexp := Some x |} => if decide (now < x) then e else None
  | _ => e
  end.

(** The parts of a live entry; another type of value reads as empty. *)
Definition as_zset (e : option rentry) : gmap string Z := match e with Some {| rval := VZset z |} => z | _ => ∅ end.
Definition as_hash (e : option rentry) : gmap string Z := match e with Some {| rval := VHash h |} => h | _ => ∅ end.
Definition as_set (e : option rentry) : gset string := match e with Some {| rval := VSet s |} => s | _ => ∅ end.
Definition as_string (e : option rentry) : option rstring := match e with Some {| rval := VStr s |} => Some s | _ => None end.
Definition exp_of (e : option rentry) : option Z := e ≫= rexp.

(** Effects of the commands on the live entry of their key. *)
Definition zset_entry (z : gmap string Z) (x : option Z) : option rentry :=
  if decide (z = ∅) then None else Some {| rval := VZset z; rexp := x |}.
Definition hash_entry (h : gmap string Z) (x : option Z) : option rentry :=
  if decide (h = ∅) then None else Some {| rval := VHash h; rexp := x |}.
Definition set_entry (s : gset string) (x : option Z) : option rentry :=
  if decide (s = ∅) then None else Some {| rval := VSet s; rexp := x |}.

(** [SET k v] drops the expiry, [SET k v EX sec] sets it. *)
Definition eff_set (now : Z) (v : rstring) (ex : option Z) (e : option rentry) : option rentry :=
  Some {| rval := VStr v; rexp := (λ sec, now + sec * 1000) <$> ex |}.
Definition eff_del (e : option rentry) : option rentry := None.
Definition eff_expire (now sec : Z) (e : option rentry) : option rentry :=
  match e with Some x => Some {| rval := rval x; rexp := Some (now + sec * 1000) |} | None => None end.
Definition eff_zadd (score : Z) (m : string) (e : option rentry) : option rentry :=
  zset_entry (<[m := score]> (as_zset e)) (exp_of e).
Definition eff_zrem (m : string) (e : option rentry) : option rentry :=
  zset_entry (delete m (as_zset e)) (exp_of e).
(** [ZREMRANGEBYSCORE k -inf max] *)
Definition eff_zremrange (max : Z) (e : option rentry) : option rentry :=
  zset_entry (filter (λ ms, max < ms.2) (as_zset e)) (exp_of e).
Definition eff_hset (f : string) (v : Z) (e : option rentry) : option rentry :=
  hash_entry (<[f := v]> (as_hash e)) (exp_of e).
Definition eff_hdel (f : string) (e : option rentry) : option rentry :=
  hash_entry (delete f (as_hash e)) (exp_of e).
Definition eff_sadd (m : string) (e : option rentry) : option rentry :=
  set_entry ({[m]} ∪ as_set e) (exp_of e).
Definition eff_srem (m : string) (e : option rentry) : option rentry :=
  set_entry (as_set e ∖ {[m]}) (exp_of e).
(** [DECR]: a missing key counts as 0 *)
Definition eff_decr (e : option rentry) : option rentry :=
  let z := match as_string e with Some (SNum z) => z | _ => 0 end in
  Some {| rval := VStr (SNum (z - 1)); rexp := exp_of e |}.

(** A command changes its key as its effect says, and nothing else. *)
Definition acts {DB} (entry : DB → string → option rentry) (now : Z) (k : string)
    (eff : option rentry → option rentry) (db db' : DB) : Prop :=
  ∀ k', entry db' k' = if decide (k = k') then eff (live now (entry db k)) else entry db k'.

Class Redis := {
  DB : Type;
  entry : DB → string → option rentry;
  set : Z → string → rstring → option Z → DB → DB;
  del : Z → string → DB → DB;
  expire : Z → string → Z → DB → DB;
  zadd : Z → string → Z → string → DB → DB;
  zrem : Z → string → string → DB → DB;
  zremrangebyscore : Z → string → Z → DB → DB;
  hset : Z → string → string → Z → DB → DB;
  hdel : Z → string → string → DB → DB;
  sadd : Z → string → string → DB → DB;
  srem : Z → string → string → DB → DB;
  decr : Z → string → DB → DB;
  ttl : Z → string → DB → Z;
  set_acts : ∀ now k v ex db, acts entry now k (eff_set now v ex) db (set now k v ex db);
  del_acts : ∀ now k db, acts entry now k eff_del db (del now k db);
  expire_acts : ∀ now k sec db, acts entry now k (eff_expire now sec) db (expire now k sec db);
  zadd_acts : ∀ now k s m db, acts entry now k (eff_zadd s m) db (zadd now k s m db);
  zrem_acts : ∀ now k m db, acts entry now k (eff_zrem m) db (zrem now k m db);
  zremrange_acts : ∀ now k max db, acts entry now k (eff_zremrange max) db (zremrangebyscore now k max db);
  hset_acts : ∀ now k f v db, acts entry now k (eff_hset f v) db (hset now k f v db);
  hdel_acts : ∀ now k f db, acts entry now k (eff_hdel f) db (hdel now k f db);
  sadd_acts : ∀ now k m db, acts entry now k (eff_sadd m) db (sadd now k m db);
  srem_acts : ∀ now k m db, acts entry now k (eff_srem m) db (srem now k m db);
  decr_acts : ∀ now k db, acts entry now k eff_decr db (decr now k db);
  (** [TTL]: -2 without the key, -1 without an expiry, else whole seconds *)
  ttl_spec : ∀ now k db, match live now (entry db k) with
    | None => ttl now k db = -2
    | Some {| rexp := None |} => ttl now k db = -1
    | Some {| rexp := Some x |} => 0 ≤ ttl now k db ∧ ttl now k db * 1000 - (x - now) < 1000 ∧ (x - now) - ttl now k db * 1000 < 1000
    end
}.

Section Reads.

Context `{Redis}.

Definition at_ (now : Z) (k : string) (db : DB) : option rentry := live now (entry db k).
Definition get (now : Z) (k : string) (db : DB) : option rstring := as_string (at_ now k db).
Definition exists_key (now : Z) (k : string) (db : DB) : bool := match at_ now k db with Some _ => true | None => false end.
Definition zset (now : Z) (k : string) (db : DB) : gmap string Z := as_zset (at_ now k db).
Definition hash (now : Z) (k : string) (db : DB) : gmap string Z := as_hash (at_ now k db).
Definition smembers (now : Z) (k : string) (db : DB) : gset string := as_set (at_ now k db).
Definition zcard (now : Z) (k : string) (db : DB) : Z := Z.of_nat (size (zset now k db)).
Definition zscore (now : Z) (k m : string) (db : DB) : option Z := zset now k db !! m.
Definition hget (now : Z) (k f : string) (db : DB) : option Z := hash now k db !! f.
(** [tonumber(GET k or "0")] *)
Definition get_num (now : Z) (k : string) (db : DB) : Z :=
  match get now k db with Some (SNum z) => z | _ => 0 end.

(** A live entry stays live until its expiry, and what is gone stays gone. *)
Lemma live_live now e : live now (live now e) = live now e.
Proof. destruct e as [[v [x|]]|]; simpl; try done. destruct (decide (now < x)); simpl; [by rewrite decide_True|done]. Qed.

Lemma live_later now now' e : now ≤ now' → live now' (live now e) = live now' e.
Proof.
  intros Hn. destruct e as [[v [x|]]|]; simpl; try done. destruct (decide (now < x)); simpl; [done|].
  by rewrite decide_False by lia.
Qed.

Lemma live_Some now e x : live now e = Some x → e = Some x ∧ ∀ t, rexp x = Some t → now < t.
Proof.
  destruct e as [[v [t|]]|]; simpl; try done.
  - destruct (decide (now < t)); [|done]. intros [= <-]. split; [done|]. by intros ? [= <-].
  - intros [= <-]. done.
Qed.

Lemma live_exp now e : live now e = match exp_of e with Some x => if decide (now < x) then e else None | None => e end.
Proof. by destruct e as [[v [x|]]|]. Qed.

Lemma live_exp_some now v x : live now (Some {| rval := v; rexp := Some x |}) =
  if decide (now < x) then Some {| rval := v; rexp := Some x |} else None.
Proof. done. Qed.

(** The key of a command, right after it; and any other key. *)
Lemma acts_same now k eff db db' : acts entry now k eff db db' → entry db' k = eff (at_ now k db).
Proof. intros Ha. rewrite Ha. by rewrite decide_True. Qed.

Lemma acts_other now k eff db db' k' : acts entry now k eff db db' → k ≠ k' → entry db' k' = entry db k'.
Proof. intros Ha Hk. rewrite Ha. by rewrite decide_False. Qed.

Lemma acts_at_other now now' k eff db db' k' :
  acts entry now k eff db db' → k ≠ k' → at_ now' k' db' = at_ now' k' db.
Proof. intros Ha Hk. unfold at_. by rewrite (acts_other _ _ _ _ _ _ Ha Hk). Qed.

Lemma at_now now k eff db db' : acts entry now k eff db db' → at_ now k db' = live now (eff (at_ now k db)).
Proof. intros Ha. unfold at_ at 1. by rewrite (acts_same _ _ _ _ _ Ha). Qed.

Lemma at_later now now' k db : now ≤ now' → at_ now' k db = live now' (at_ now k db).
Proof. intros Hn. unfold at_. by rewrite live_later. Qed.

Lemma exp_of_live now e x : exp_of (live now e) = Some x → now < x.
Proof.
  intros He. destruct (live now e) as [r|] eqn:El; [|done]. apply live_Some in El as [_ El]. by apply El.
Qed.

(** An entry whose expiry is that of a live one is live. *)
Lemma live_zset_entry now e z : live now (zset_entry z (exp_of (live now e))) = zset_entry z (exp_of (live now e)).
Proof.
  unfold zset_entry. destruct (decide (z = ∅)); [done|]. destruct (exp_of (live now e)) as [x|] eqn:Ex; [|done].
  simpl. by rewrite decide_True by (by apply exp_of_live in Ex).
Qed.

Lemma as_zset_entry z x : as_zset (zset_entry z x) = z.
Proof. unfold zset_entry. destruct (decide (z = ∅)); by subst. Qed.

Lemma exp_zset_entry z x : exp_of (zset_entry z x) = if decide (z = ∅) then None else x.
Proof. unfold zset_entry. by destruct (decide (z = ∅)). Qed.

Lemma at_zadd now k s m db : at_ now k (zadd now k s m db) = zset_entry (<[m := s]> (zset now k db)) (exp_of (at_ now k db)).
Proof. rewrite (at_now _ _ _ _ _ (zadd_acts now k s m db)). apply live_zset_entry. Qed.

Lemma at_zrem now k m db : at_ now k (zrem now k m db) = zset_entry (delete m (zset now k db)) (exp_of (at_ now k db)).
Proof. rewrite (at_now _ _ _ _ _ (zrem_acts now k m db)). apply live_zset_entry. Qed.

Lemma at_zremrange now k max db : at_ now k (zremrangebyscore now k max db)
  = zset_entry (filter (λ ms, max < ms.2) (zset now k db)) (exp_of (at_ now k db)).
Proof. rewrite (at_now _ _ _ _ _ (zremrange_acts now k max db)). apply live_zset_entry. Qed.

Lemma at_expire now k sec db : 0 < sec →
  at_ now k (expire now k sec db) = (λ r, {| rval := rval r; rexp := Some (now + sec * 1000) |}) <$> at_ now k db.
Proof.
  intros Hs. rewrite (at_now _ _ _ _ _ (expire_acts now k sec db)).
  destruct (at_ now k db) as [r|]; [|done]. simpl. by rewrite decide_True by lia.
Qed.

Lemma live_hash_entry now e h : live now (hash_entry h (exp_of (live now e))) = hash_entry h (exp_of (live now e)).
Proof.
  unfold hash_entry. destruct (decide (h = ∅)); [done|]. destruct (exp_of (live now e)) as [x|] eqn:Ex; [|done].
  simpl. by rewrite decide_True by (by apply exp_of_live in Ex).
Qed.

Lemma live_set_entry now e s : live now (set_entry s (exp_of (live now e))) = set_entry s (exp_of (live now e)).
Proof.
  unfold set_entry. destruct (decide (s = ∅)); [done|]. destruct (exp_of (live now e)) as [x|] eqn:Ex; [|done].
  simpl. by rewrite decide_True by (by apply exp_of_live in Ex).
Qed.

Lemma as_hash_entry h x : as_hash (hash_entry h x) = h.
Proof. unfold hash_entry. destruct (decide (h = ∅)); by subst. Qed.

Lemma exp_hash_entry h x : exp_of (hash_entry h x) = if decide (h = ∅) then None else x.
Proof. unfold hash_entry. by destruct (decide (h = ∅)). Qed.

Lemma as_set_entry s x : as_set (set_entry s x) = s.
Proof. unfold set_entry. destruct (decide (s = ∅)); by subst. Qed.

Lemma exp_set_entry s x : exp_of (set_entry s x) = if decide (s = ∅) then None else x.
Proof. unfold set_entry. by destruct (decide (s = ∅)). Qed.

Lemma at_hset now k f v db : at_ now k (hset now k f v db) = hash_entry (<[f := v]> (hash now k db)) (exp_of (at_ now k db)).
Proof. rewrite (at_now _ _ _ _ _ (hset_acts now k f v db)). apply live_hash_entry. Qed.

Lemma at_hdel now k f db : at_ now k (hdel now k f db) = hash_entry (delete f (hash now k db)) (exp_of (at_ now k db)).
Proof. rewrite (at_now _ _ _ _ _ (hdel_acts now k f db)). apply live_hash_entry. Qed.

Lemma at_sadd now k m db : at_ now k (sadd now k m db) = set_entry ({[m]} ∪ smembers now k db) (exp_of (at_ now k db)).
Proof. rewrite (at_now _ _ _ _ _ (sadd_acts now k m db)). apply live_set_entry. Qed.

Lemma at_srem now k m db : at_ now k (srem now k m db) = set_entry (smembers now k db ∖ {[m]}) (exp_of (at_ now k db)).
Proof. rewrite (at_now _ _ _ _ _ (srem_acts now k m db)). apply live_set_entry. Qed.

Lemma at_del now k db : at_ now k (del now k db) = None.
Proof. by rewrite (at_now _ _ _ _ _ (del_acts now k db)). Qed.

Lemma at_set_none now k v db : at_ now k (set now k v None db) = Some {| rval := VStr v; rexp := None |}.
Proof. by rewrite (at_now _ _ _ _ _ (set_acts now k v None db)). Qed.

Lemma at_set_ex now k v sec db : 0 < sec →
  at_ now k (set now k v (Some sec) db) = Some {| rval := VStr v; rexp := Some (now + sec * 1000) |}.
Proof. intros Hs. rewrite (at_now _ _ _ _ _ (set_acts now k v (Some sec) db)). simpl. by rewrite decide_True by lia. Qed.

Lemma at_decr now k db : at_ now k (decr now k db)
  = Some {| rval := VStr (SNum (get_num now k db - 1)); rexp := exp_of (at_ now k db) |}.
Proof.
  rewrite (at_now _ _ _ _ _ (decr_acts now k db)). unfold eff_decr, get_num, get.
  destruct (exp_of (at_ now k db)) as [x|] eqn:Ex; simpl; [|done]. by rewrite decide_True by (by apply exp_of_live in Ex).
Qed.

(** The other keys. *)
Section Others.
Context (now now' : Z) (k k' : string) (Hk : k ≠ k').
Lemma at_set_ne v ex db : at_ now' k' (set now k v ex db) = at_ now' k' db.
Proof. apply (acts_at_other _ _ _ _ _ _ _ (set_acts _ _ _ _ _) Hk). Qed.
Lemma at_del_ne db : at_ now' k' (del now k db) = at_ now' k' db.
Proof. apply (acts_at_other _ _ _ _ _ _ _ (del_acts _ _ _) Hk). Qed.
Lemma at_expire_ne sec db : at_ now' k' (expire now k sec db) = at_ now' k' db.
Proof. apply (acts_at_other _ _ _ _ _ _ _ (expire_acts _ _ _ _) Hk). Qed.
Lemma at_zadd_ne x m db : at_ now' k' (zadd now k x m db) = at_ now' k' db.
Proof. apply (acts_at_other _ _ _ _ _ _ _ (zadd_acts _ _ _ _ _) Hk). Qed.
Lemma at_zrem_ne m db : at_ now' k' (zrem now k m db) = at_ now' k' db.
Proof. apply (acts_at_other _ _ _ _ _ _ _ (zrem_acts _ _ _ _) Hk). Qed.
Lemma at_zremrange_ne x db : at_ now' k' (zremrangebyscore now k x db) = at_ now' k' db.
Proof. apply (acts_at_other _ _ _ _ _ _ _ (zremrange_acts _ _ _ _) Hk). Qed.
Lemma at_hset_ne f v db : at_ now' k' (hset now k f v db) = at_ now' k' db.
Proof. apply (acts_at_other _ _ _ _ _ _ _ (hset_acts _ _ _ _ _) Hk). Qed.
Lemma at_hdel_ne f db : at_ now' k' (hdel now k f db) = at_ now' k' db.
Proof. apply (acts_at_other _ _ _ _ _ _ _ (hdel_acts _ _ _ _) Hk). Qed.
Lemma at_sadd_ne m db : at_ now' k' (sadd now k m db) = at_ now' k' db.
Proof. apply (acts_at_other _ _ _ _ _ _ _ (sadd_acts _ _ _ _) Hk). Qed.
Lemma at_srem_ne m db : at_ now' k' (srem now k m db) = at_ now' k' db.
Proof. apply (acts_at_other _ _ _ _ _ _ _ (srem_acts _ _ _ _) Hk). Qed.
Lemma at_decr_ne db : at_ now' k' (decr now k db) = at_ now' k' db.
Proof. apply (acts_at_other _ _ _ _ _ _ _ (decr_acts _ _ _) Hk). Qed.
End Others.

(** A sorted set right after [EXPIRE]. *)
Lemma zset_expire now k sec db : 0 < sec → zset now k (expire now k sec db) = zset now k db.
Proof. intros Hs. unfold zset. rewrite at_expire by done. by destruct (at_ now k db) as [[[] ?]|]. Qed.

Lemma exp_expire now k sec db x : 0 < sec → exp_of (at_ now k (expire now k sec db)) = Some x → x = now + sec * 1000.
Proof. intros Hs. rewrite at_expire by done. destruct (at_ now k db); simpl; [congruence|done]. Qed.

Lemma zset_zadd now k s m db : zset now k (zadd now k s m db) = <[m := s]> (zset now k db).
Proof. unfold zset at 1. by rewrite at_zadd, as_zset_entry. Qed.

Lemma zset_zrem now k m db : zset now k (zrem now k m db) = delete m (zset now k db).
Proof. unfold zset at 1. by rewrite at_zrem, as_zset_entry. Qed.

Lemma zset_zremrange now k max db : zset now k (zremrangebyscore now k max db) = filter (λ ms, max < ms.2) (zset now k db).
Proof. unfold zset at 1. by rewrite at_zremrange, as_zset_entry. Qed.

(** Later a sorted set is what it was, or gone with its key. *)
Lemma zset_later now now' k db : now ≤ now' →
  zset now' k db = zset now k db ∧ exp_of (at_ now' k db) = exp_of (at_ now k db)
  ∨ zset now' k db = ∅ ∧ ∃ x, exp_of (at_ now k db) = Some x ∧ x ≤ now'.
Proof.
  intros Hn. unfold zset. rewrite (at_later now now') by done.
  destruct (at_ now k db) as [[v [x|]]|]; simpl; auto.
  destruct (decide (now' < x)); [by left|]. right. split; [done|]. exists x. split; [done|lia].
Qed.

End Reads.

(** Reading through commands: [redis_at] computes what a key holds after a
    chain of commands on distinct keys. *)
#[export] Hint Rewrite @at_set_ne @at_del_ne @at_expire_ne @at_zadd_ne @at_zrem_ne @at_zremrange_ne @at_hset_ne
  @at_hdel_ne @at_sadd_ne @at_srem_ne @at_decr_ne using congruence : redis_at.
#[export] Hint Rewrite @at_set_none @at_del @at_zadd @at_zrem @at_zremrange @at_hset @at_hdel @at_sadd @at_srem
  @at_decr @as_zset_entry @as_hash_entry @as_set_entry @exp_zset_entry @exp_hash_entry @exp_set_entry : redis_at.
#[export] Hint Rewrite @at_set_ex @at_expire using lia : redis_at.

Ltac redis_at := repeat progress (unfold zset, hash, smembers; autorewrite with redis_at).

(** ** The reference instance *)

Definition map_entry (db : gmap string rentry) (k : string) : option rentry := db !! k.
Definition map_act (now : Z) (k : string) (eff : option rentry → option rentry) (db : gmap string rentry)
  : gmap string rentry := partial_alter (λ e, eff (live now e)) k db.

Lemma map_act_acts now k eff db : acts map_entry now k eff db (map_act now k eff db).
Proof.
  intros k'. unfold map_entry, map_act. destruct (decide (k = k')) as [<-|Hne].
  - by rewrite lookup_partial_alter_eq.
  - by rewrite lookup_partial_alter_ne.
Qed.

Definition map_ttl (now : Z) (k : string) (db : gmap string rentry) : Z :=
  match live now (map_entry db k) with
  | None => -2
  | Some {| rexp := None |} => -1
  | Some {| rexp := Some x |} => (x - now) / 1000
  end.

Lemma map_ttl_spec now k db : match live now (map_entry db k) with
  | None => map_ttl now k db = -2
  | Some {| rexp := None |} => map_ttl now k db = -1
  | Some {| rexp := Some x |} =>
      0 ≤ map_ttl now k db ∧ map_ttl now k db * 1000 - (x - now) < 1000 ∧ (x - now) - map_ttl now k db * 1000 < 1000
  end.
Proof.
  unfold map_ttl. destruct (live now (map_entry db k)) as [[v [x|]]|] eqn:E; try done.
  apply live_Some in E as [_ Hx]. specialize (Hx x eq_refl). cbn in Hx.
  pose proof (Z.div_mod (x - now) 1000 ltac:(done)). pose proof (Z.mod_pos_bound (x - now) 1000 ltac:(done)). lia.
Qed.

Definition redis_map : Redis := {|
  DB := gmap string rentry; entry := map_entry;
  set now k v ex := map_act now k (eff_set now v ex); del now k := map_act now k eff_del;
  expire now k sec := map_act now k (eff_expire now sec); zadd now k s m := map_act now k (eff_zadd s m);
  zrem now k m := map_act now k (eff_zrem m); zremrangebyscore now k max := map_act now k (eff_zremrange max);
  hset now k f v := map_act now k (eff_hset f v); hdel now k f := map_act now k (eff_hdel f);
  sadd now k m := map_act now k (eff_sadd m); srem now k m := map_act now k (eff_srem m);
  decr now k := map_act now k eff_decr; ttl := map_ttl;
  set_acts now k v ex := map_act_acts now k _; del_acts now k := map_act_acts now k _;
  expire_acts now k sec := map_act_acts now k _; zadd_acts now k s m := map_act_acts now k _;
  zrem_acts now k m := map_act_acts now k _; zremrange_acts now k max := map_act_acts now k _;
  hset_acts now k f v := map_act_acts now k _; hdel_acts now k f := map_act_acts now k _;
  sadd_acts now k m := map_act_acts now k _; srem_acts now k m := map_act_acts now k _;
  decr_acts now k := map_act_acts now k _; ttl_spec := map_ttl_spec
|}.
