(* ===== verification/Semaphore.v ===== *)
(** The lease semaphore (src/packages/core/src/orditect/core/limiter/semaphore.py
    and lease.py, with lua/sem_acquire.lua, sem_refresh.lua, sem_release.lua).

    The key of a semaphore is a sorted set of tokens scored by the instant of
    their last confirmation.  The first half runs the scripts of any number of
    clients in any order and shows that what they answer is what a set of
    leases promises; the second half is the client: the acquisition loop, its
    clean-up, the watchdog and the release.  Leases and clocks are in
    milliseconds. *)
From Stdlib Require Import ZArith Lia QArith Sorting.Sorted.
From stdpp Require Import prelude gmap list strings.
From S2P Require Import Prelude Redis.
Local Open Scope list_scope.
Local Open Scope Z_scope.

(** ** The scripts *)

Section Scripts.

Context `{Redis}.

(** [math.max(1, math.floor(lease * 2))], in seconds *)
Definition lease_expiry (lease_ms : Z) : Z := Z.max 1 (lease_ms * 2 / 1000).

Definition sem_acquire (now : Z) (key : string) (limit lease_ms : Z) (token : string) (db : DB)
  : DB * option string :=
  let db := zremrangebyscore now key (now - lease_ms) db in
  let cnt := zcard now key db in
  if cnt <? limit then
    let db := zadd now key now token db in
    (expire now key (lease_expiry lease_ms) db, Some token)
  else (db, None).

Definition sem_refresh (now : Z) (key token : string) (lease_ms : Z) (db : DB) : DB * Z :=
  match zscore now key token db with
  | Some _ =>
      let db := zadd now key now token db in
      (expire now key (lease_expiry lease_ms) db, 1)
  | None => (db, 0)
  end.

Definition sem_release (now : Z) (key token : string) (db : DB) : DB := zrem now key token db.

End Scripts.

(** ** What a set of leases promises *)

(** What a client asks of the key: the three scripts, and the two commands of
    [in_use] (the bound of the first was computed from an earlier reading of
    the clock). *)
Inductive call := CAcquire (token : string) | CRefresh (token : string) | CRelease (token : string)
  | CPurge (t : Z) | CCount.
Inductive reply := RGrant (ok : bool) | RDone | RCount (n : Z).

Section Leases.

Context (limit lease : Z).

(** The leases that have not run out at an instant. *)
Definition valid (now : Z) (a : gmap string Z) : gmap string Z := filter (λ ts, now < ts.2 + lease) a.

(** The last confirmation of every token, by what was asked and answered. *)
Definition confirm (a : gmap string Z) (e : Z * call * reply) : gmap string Z :=
  match e with
  | (t, CAcquire k, RGrant true) | (t, CRefresh k, RGrant true) => <[k := t]> a
  | (_, CRelease k, _) => delete k a
  | _ => a
  end.

Definition confirmed (tr : list (Z * call * reply)) : gmap string Z := fold_left confirm tr ∅.

Definition free (now : Z) (a : gmap string Z) : Prop := Z.of_nat (size (valid now a)) < limit.
#[export] Instance free_dec now a : Decision (free now a) := Z_lt_dec _ _.

(** The answers that are allowed: an acquisition is granted exactly when fewer
    than [limit] leases are valid; a valid lease is always confirmed, one that
    ran out may come back only into a free slot. *)
Definition promised (a : gmap string Z) (e : Z * call * reply) : Prop :=
  match e with
  | (t, CAcquire _, r) => r = RGrant (bool_decide (free t a))
  | (t, CRefresh k, r) => ∃ ok, r = RGrant ok ∧ (k ∈ dom (valid t a) → ok = true)
                         ∧ (ok = true → k ∈ dom (valid t a) ∨ free t a)
  | (_, CRelease _, r) | (_, CPurge _, r) => r = RDone
  | (t, CCount, r) => ∃ n, r = RCount n ∧ Z.of_nat (size (valid t a)) ≤ n ≤ Z.max 0 limit
  end.

Fixpoint promised_all (a : gmap string Z) (tr : list (Z * call * reply)) : Prop :=
  match tr with [] => True | e :: tr => promised a e ∧ promised_all (confirm a e) tr end.

Lemma confirmed_snoc tr e : confirmed (tr ++ [e]) = confirm (confirmed tr) e.
Proof. unfold confirmed. by rewrite fold_left_app. Qed.

Lemma promised_all_snoc a tr e :
  promised_all a (tr ++ [e]) ↔ promised_all a tr ∧ promised (fold_left confirm tr a) e.
Proof. revert a. induction tr as [|e' tr IH]; intros a; simpl; [tauto|]. rewrite IH. tauto. Qed.

Lemma valid_lookup now a k s : valid now a !! k = Some s ↔ a !! k = Some s ∧ now < s + lease.
Proof. unfold valid. by rewrite map_lookup_filter_Some. Qed.

Lemma valid_mono now now' a : now ≤ now' → valid now' a ⊆ valid now a.
Proof.
  intros Hn. apply map_subseteq_spec. intros k s. rewrite !valid_lookup. intros [? ?]. split; [done|lia].
Qed.

Lemma valid_valid now now' a : now ≤ now' → valid now' (valid now a) = valid now' a.
Proof.
  intros Hn. apply map_eq. intros k. apply option_eq. intros s. rewrite !valid_lookup. split; [tauto|].
  intros [? ?]. split; [split; [done|lia]|done].
Qed.

Lemma valid_insert now a k s :
  valid now (<[k := s]> a) = if decide (now < s + lease) then <[k := s]> (valid now a) else valid now (delete k a).
Proof.
  unfold valid. rewrite map_filter_insert. simpl. destruct (decide _); [done|]. done.
Qed.

Lemma valid_delete now a k : valid now (delete k a) = delete k (valid now a).
Proof. unfold valid. by rewrite map_filter_delete. Qed.

Lemma size_valid_le now a : (size (valid now a) ≤ size a)%nat.
Proof. apply map_subseteq_size. unfold valid. apply map_filter_subseteq. Qed.

Lemma size_valid_mono now now' a : now ≤ now' → (size (valid now' a) ≤ size (valid now a))%nat.
Proof. intros. by apply map_subseteq_size, valid_mono. Qed.

Lemma size_insert_le (a : gmap string Z) k s : (size (<[k := s]> a) ≤ S (size a))%nat.
Proof. rewrite map_size_insert. destruct (a !! k); simpl; lia. Qed.

(** A lease that is refreshed in time, through what others do. *)
Fixpoint kept (k : string) (s : Z) (tr : list (Z * call * reply)) (t : Z) : Prop :=
  match tr with
  | [] => t < s + lease
  | (t', CRefresh k', _) :: tr => if decide (k' = k) then t' < s + lease ∧ kept k t' tr t else kept k s tr t
  | (_, CAcquire k', _) :: tr | (_, CRelease k', _) :: tr => k' ≠ k ∧ kept k s tr t
  | _ :: tr => kept k s tr t
  end.

Lemma kept_valid k s a tr t : a !! k = Some s → promised_all a tr → kept k s tr t →
  k ∈ dom (valid t (fold_left confirm tr a)) ∧ (∀ t' r, (t', CRefresh k, r) ∈ tr → r = RGrant true).
Proof.
  revert a s. induction tr as [|[[t1 c] r1] tr IH]; intros a s Ha Hp Hk; simpl in *.
  - split; [|by intros ? ? ?%not_elem_of_nil]. apply elem_of_dom. exists s. by apply valid_lookup.
  - destruct Hp as [Hp Hps].
    assert (Hstep : ∀ s', confirm a (t1, c, r1) !! k = Some s' → kept k s' tr t →
      (c = CRefresh k → r1 = RGrant true) →
      k ∈ dom (valid t (fold_left confirm tr (confirm a (t1, c, r1)))) ∧
      (∀ t' r, (t', CRefresh k, r) ∈ (t1, c, r1) :: tr → r = RGrant true)).
    { intros s' Ha' Hk' Hr. destruct (IH _ s' Ha' Hps Hk') as [H1 H2]. split; [done|].
      intros t' r [[= -> <- ->]|Hin]%elem_of_cons; [by apply Hr|by eapply H2]. }
    destruct c as [k'|k'|k'|p|]; cbn -[decide] in *.
    + destruct Hk as [Hne Hk]. apply (Hstep s); [|done|done]. rewrite Hp.
      destruct (bool_decide _); [by rewrite lookup_insert_ne|done].
    + destruct Hp as (ok & -> & Hv & _). destruct (decide (k' = k)) as [->|Hne].
      * destruct Hk as [Ht Hk]. assert (ok = true) as -> by (apply Hv, elem_of_dom; exists s; by apply valid_lookup).
        apply (Hstep t1); [by rewrite lookup_insert_eq|done|done].
      * apply (Hstep s); [|done|congruence]. destruct ok; [by rewrite lookup_insert_ne|done].
    + destruct Hk as [Hne Hk]. apply (Hstep s); [|done|done]. by rewrite lookup_delete_ne.
    + by apply (Hstep s).
    + by apply (Hstep s).
Qed.

End Leases.

(** ** Runs of the scripts *)

Section Runs.

Context `{Redis}.
Context (key : string) (limit lease : Z).

Definition exec (now : Z) (c : call) (db : DB) : DB * reply :=
  match c with
  | CAcquire k => let '(db', r) := sem_acquire now key limit lease k db in
                  (db', RGrant (bool_decide (r = Some k)))
  | CRefresh k => let '(db', r) := sem_refresh now key k lease db in (db', RGrant (bool_decide (r ≠ 0)))
  | CRelease k => (sem_release now key k db, RDone)
  | CPurge t => (zremrangebyscore now key (t - lease) db, RDone)
  | CCount => (db, RCount (zcard now key db))
  end.

(** Commands of any number of clients on the key, at instants of the server's
    clock that never go back, and changes of other keys in between. *)
Inductive sem_run (t0 : Z) (db0 : DB) : list (Z * call * reply) → Z → DB → Prop :=
  | run_nil : sem_run t0 db0 [] t0 db0
  | run_other tr t db t' db' :
      sem_run t0 db0 tr t db → t ≤ t' → entry db' key = entry db key → sem_run t0 db0 tr t' db'
  | run_call tr t db t' c db' r :
      sem_run t0 db0 tr t db → t ≤ t' → (∀ p, c = CPurge p → p ≤ t') → exec t' c db = (db', r) →
      sem_run t0 db0 (tr ++ [(t', c, r)]) t' db'.

(** The state of the key: every member's lease ends no later than the key
    does, no score is in the future, at most [limit] members. *)
Record key_ok (t : Z) (db : DB) : Prop := {
  ok_scores : ∀ k s, zset t key db !! k = Some s → s ≤ t;
  ok_expiry : ∀ k s x, zset t key db !! k = Some s → exp_of (at_ t key db) = Some x → s + lease ≤ x;
  ok_size : Z.of_nat (size (zset t key db)) ≤ Z.max 0 limit
}.

(** The key holds, at [t], the leases of [a]. *)
Definition shows (t : Z) (db : DB) (a : gmap string Z) : Prop :=
  valid lease t (zset t key db) = valid lease t a.

Lemma lease_expiry_covers l : 0 < lease_expiry l ∧ l ≤ lease_expiry l * 1000.
Proof.
  unfold lease_expiry. pose proof (Z.div_mod (l * 2) 1000 ltac:(done)).
  pose proof (Z.mod_pos_bound (l * 2) 1000 ltac:(done)). lia.
Qed.

(** Time alone keeps the invariant and the leases. *)
Lemma key_ok_later t t' db : key_ok t db → t ≤ t' → key_ok t' db.
Proof.
  intros [Hs He Hz] Ht. destruct (zset_later t t' key db Ht) as [[Ez Ex]|[Ez _]].
  - split; rewrite Ez, ?Ex; [|done..]. intros k s Hk. apply Hs in Hk. lia.
  - split; rewrite Ez; try done. rewrite map_size_empty. lia.
Qed.

Lemma shows_later t t' db a : key_ok t db → shows t db a → t ≤ t' → shows t' db a.
Proof.
  intros [Hs He Hz] Ha Ht. unfold shows. rewrite <- (valid_valid lease t t' a) by done. rewrite <- Ha.
  rewrite valid_valid by done. destruct (zset_later t t' key db Ht) as [[-> _]|(-> & x & Ex & Hx)]; [done|].
  apply map_eq. intros k. apply option_eq. intros s. rewrite !valid_lookup.
  split; [by intros [? _]|]. intros [Hk ?]. pose proof (He _ _ _ Hk Ex). lia.
Qed.

(** The same entry of the key, another database. *)
Lemma key_ok_other t db db' : entry db' key = entry db key → key_ok t db → key_ok t db'.
Proof. intros E [Hs He Hz]. split; unfold zset, at_ in *; by rewrite ?E. Qed.

Lemma shows_other t db db' a : entry db' key = entry db key → shows t db a → shows t db' a.
Proof. intros E. unfold shows, zset, at_. by rewrite E. Qed.

(** The purge of an earlier or current instant takes no valid lease. *)
Lemma purge_shows t p db a : p ≤ t → shows t db a → shows t (zremrangebyscore t key (p - lease) db) a.
Proof.
  intros Hp Ha. unfold shows. rewrite <- Ha, zset_zremrange. apply map_eq. intros k. apply option_eq. intros s.
  rewrite !valid_lookup, map_lookup_filter_Some. simpl. split; [tauto|]. intros [? ?]. split; [split; [done|lia]|lia].
Qed.

Lemma exp_purge t m db k s x : zset t key (zremrangebyscore t key m db) !! k = Some s →
  exp_of (at_ t key (zremrangebyscore t key m db)) = Some x → exp_of (at_ t key db) = Some x.
Proof.
  rewrite zset_zremrange, at_zremrange, exp_zset_entry. intros Hk.
  destruct (decide _) as [E|]; [|done]. by rewrite E in Hk.
Qed.

Lemma purge_ok t m db : key_ok t db → key_ok t (zremrangebyscore t key m db).
Proof.
  intros [Hs He Hz]. split.
  - intros k s. rewrite zset_zremrange, map_lookup_filter_Some. intros [Hk _]. by apply Hs in Hk.
  - intros k s x Hk Hx. pose proof (exp_purge _ _ _ _ _ _ Hk Hx).
    rewrite zset_zremrange, map_lookup_filter_Some in Hk. destruct Hk. eauto.
  - rewrite zset_zremrange. pose proof (map_subseteq_size _ _ (map_filter_subseteq (λ ms, m < ms.2) (zset t key db))). lia.
Qed.

(** A confirmation at [t]: the score is refreshed and the key kept. *)
Lemma confirm_ok t k db : key_ok t db →
  Z.of_nat (size (<[k := t]> (zset t key db))) ≤ Z.max 0 limit →
  key_ok t (expire t key (lease_expiry lease) (zadd t key t k db)).
Proof.
  intros [Hs He Hz] Hsz. destruct (lease_expiry_covers lease) as [Hpos Hc].
  split; rewrite ?(zset_expire _ _ _ _ Hpos), ?zset_zadd.
  - intros k' s. rewrite lookup_insert. case_decide; [intros [= <-]; lia|apply Hs].
  - intros k' s x Hk Hx. apply exp_expire in Hx as ->; [|done].
    assert (s ≤ t); [|lia]. revert Hk. rewrite lookup_insert. case_decide; [intros [= <-]; lia|apply Hs].
  - done.
Qed.

Lemma confirm_shows t k db a : shows t db a →
  shows t (expire t key (lease_expiry lease) (zadd t key t k db)) (<[k := t]> a).
Proof.
  intros Ha. destruct (lease_expiry_covers lease) as [Hpos Hc]. unfold shows.
  rewrite (zset_expire _ _ _ _ Hpos), zset_zadd, !valid_insert, !valid_delete. by rewrite Ha.
Qed.

(** One script keeps the invariant, and answers what the leases promise. *)
Lemma exec_ok t c db db' r a : key_ok t db → shows t db a → (∀ p, c = CPurge p → p ≤ t) →
  exec t c db = (db', r) →
  key_ok t db' ∧ promised limit lease a (t, c, r) ∧ shows t db' (confirm a (t, c, r)).
Proof.
  intros Hok Ha Hp Hx. destruct c as [k|k|k|p|]; cbn in Hx.
  - unfold sem_acquire in Hx. set (db1 := zremrangebyscore t key (t - lease) db) in *.
    assert (Hok1 : key_ok t db1) by (by apply purge_ok).
    assert (Ha1 : shows t db1 a) by (apply purge_shows; [lia|done]).
    assert (Ez : zset t key db1 = valid lease t a).
    { rewrite <- Ha1. unfold db1. rewrite zset_zremrange. apply map_eq. intros k'. apply option_eq. intros s.
      rewrite valid_lookup, map_lookup_filter_Some. simpl. split; [|tauto].
      intros [? ?]. split; [done|lia]. }
    unfold zcard in Hx. rewrite Ez in Hx. unfold promised, free.
    destruct (Z.ltb_spec (Z.of_nat (size (valid lease t a))) limit) as [Hlt|Hge]; injection Hx as <- <-.
    + rewrite bool_decide_true by done. split_and!.
      * apply confirm_ok; [done|]. rewrite Ez. pose proof (size_insert_le (valid lease t a) k t). lia.
      * by rewrite bool_decide_true by lia.
      * cbn. by apply confirm_shows.
    + split_and!; [done| |done]. by rewrite bool_decide_false by lia.
  - unfold sem_refresh, zscore in Hx. destruct (zset t key db !! k) as [s|] eqn:Ek; injection Hx as <- <-.
    + assert (Hsz : size (<[k := t]> (zset t key db)) = size (zset t key db)).
      { rewrite map_size_insert, Ek. done. }
      split_and!; [| |by apply confirm_shows].
      * apply confirm_ok; [done|]. rewrite Hsz. apply Hok.
      * cbn. exists true. split_and!; [done..|]. intros _.
        destruct (decide (t < s + lease)) as [Hv|Hv].
        -- left. apply elem_of_dom. exists s. rewrite <- Ha. by apply valid_lookup.
        -- right. unfold free. rewrite <- Ha.
           assert (valid lease t (zset t key db) ⊆ delete k (zset t key db)) as Hsub.
           { apply map_subseteq_spec. intros k' s'. rewrite valid_lookup, lookup_delete_Some.
             intros [Hk' ?]. split; [|done]. intros <-. rewrite Ek in Hk'. injection Hk' as <-. done. }
           apply map_subseteq_size in Hsub. rewrite map_size_delete, Ek in Hsub.
           assert (size (zset t key db) ≠ 0%nat).
           { intros E0%map_size_empty_inv. by rewrite E0 in Ek. }
           pose proof (ok_size _ _ Hok). simpl in Hsub. lia.
    + split_and!; [done| |done]. cbn. exists false. split_and!; [done| |done].
      intros [s Hs]%elem_of_dom. rewrite <- Ha, valid_lookup, Ek in Hs. by destruct Hs.
  - injection Hx as <- <-. unfold sem_release. split_and!; [|done|].
    + destruct Hok as [Hs He Hz]. split.
      * intros k' s. rewrite zset_zrem, lookup_delete_Some. intros [_ Hk]. by apply Hs in Hk.
      * intros k' s x. rewrite zset_zrem, at_zrem, exp_zset_entry, lookup_delete_Some. intros [_ Hk].
        destruct (decide _); [done|]. eauto.
      * rewrite zset_zrem. pose proof (map_subseteq_size _ _ (delete_subseteq (zset t key db) k)). lia.
    + unfold shows. cbn. by rewrite zset_zrem, !valid_delete, Ha.
  - injection Hx as <- <-. split_and!; [by apply purge_ok|done|]. apply purge_shows; [by apply Hp|done].
  - injection Hx as <- <-. split_and!; [done| |done]. eexists. split; [done|]. unfold zcard. split; [|apply Hok].
    rewrite <- Ha. pose proof (size_valid_le lease t (zset t key db)). lia.
Qed.

Lemma key_ok_absent t db : entry db key = None → key_ok t db.
Proof.
  intros E. split; unfold zset, at_; rewrite E; simpl; try done. rewrite map_size_empty. lia.
Qed.

Lemma sem_run_inv t0 db0 tr t db : sem_run t0 db0 tr t db → entry db0 key = None →
  key_ok t db ∧ shows t db (confirmed tr) ∧ promised_all limit lease ∅ tr.
Proof.
  induction 1 as [|tr t db t' db' Hr IH Ht E|tr t db t' c db' r Hr IH Ht Hp Hx]; intros H0.
  - split_and!; [by apply key_ok_absent| |done]. unfold shows, zset, at_. by rewrite H0.
  - destruct (IH H0) as (Hok & Ha & Hpr). split_and!; [| |done].
    + eapply key_ok_other; [done|]. by eapply key_ok_later.
    + eapply shows_other; [done|]. by eapply shows_later.
  - destruct (IH H0) as (Hok & Ha & Hpr).
    destruct (exec_ok t' c db db' r (confirmed tr)) as (H1 & H2 & H3); [by eapply key_ok_later|by eapply shows_later|done..|].
    rewrite confirmed_snoc, promised_all_snoc. by split_and!.
Qed.

(** A token that is out stays out unless it is acquired again. *)
Lemma exec_out t c db db' r k : zset t key db !! k = None → c ≠ CAcquire k → exec t c db = (db', r) →
  zset t key db' !! k = None ∧ (c = CRefresh k → r = RGrant false).
Proof.
  intros Hk Hc Hx. destruct (lease_expiry_covers lease) as [Hpos _].
  assert (Hpurge : ∀ m, zset t key (zremrangebyscore t key m db) !! k = None).
  { intros m. rewrite zset_zremrange. apply map_lookup_filter_None. by left. }
  destruct c as [k'|k'|k'|p|]; cbn in Hx.
  - unfold sem_acquire in Hx. assert (k' ≠ k) by congruence. destruct (_ <? _); injection Hx as <- <-; split; [|done|apply Hpurge|done].
    by rewrite (zset_expire _ _ _ _ Hpos), zset_zadd, lookup_insert_ne.
  - unfold sem_refresh, zscore in Hx. destruct (decide (k' = k)) as [->|Hne].
    + rewrite Hk in Hx. by injection Hx as <- <-.
    + split; [|congruence]. destruct (zset t key db !! k'); injection Hx as <- <-; [|done].
      by rewrite (zset_expire _ _ _ _ Hpos), zset_zadd, lookup_insert_ne.
  - injection Hx as <- <-. split; [|done]. unfold sem_release. rewrite zset_zrem. by apply lookup_delete_None; right.
  - by injection Hx as <- <-.
  - by injection Hx as <- <-.
Qed.

Lemma zset_None_later now now' db (k : string) : now ≤ now' → zset now key db !! k = None → zset now' key db !! k = None.
Proof. intros Hn Hk. destruct (zset_later now now' key db Hn) as [[-> _]|[-> _]]; done. Qed.

Lemma run_exec t0 db0 tr t db t' c r : sem_run t0 db0 tr t db → t ≤ t' → (∀ p, c = CPurge p → p ≤ t') →
  (exec t' c db).2 = r → sem_run t0 db0 (tr ++ [(t', c, r)]) t' (exec t' c db).1.
Proof. intros Hr Ht Hp Hx. eapply run_call; [done..|]. rewrite <- Hx. by destruct (exec t' c db). Qed.

End Runs.

(** ** The client *)

Inductive error (E : Type) := AcquireTimeoutError | RuntimeError | Raised (e : E).
Arguments AcquireTimeoutError {E}. Arguments RuntimeError {E}. Arguments Raised {E} e.

Inductive hook := OnAcquired (waited in_use : Z) | OnTimeout (waited : Z) | OnRejected | OnReleased (held : Z).

Record LeaseToken := { resource : string; value : string; acquired_at : Z }.

(** The watchdog of a token: its stop event, and whether its task runs. *)
Record LeaseGuard := { guarded : LeaseToken; guard_interval : Q; stop_event : bool; task : bool }.

Definition guard_init (t : LeaseToken) (renew : Q) : LeaseGuard :=
  {| guarded := t; guard_interval := renew; stop_event := false; task := false |}.

Definition guard_start {E} (g : LeaseGuard) : res (error E) LeaseGuard :=
  if task g then Err RuntimeError
  else Ok {| guarded := guarded g; guard_interval := guard_interval g; stop_event := stop_event g; task := true |}.

(** [stop]: sets the event and waits for the task, which it cancels after a second. *)
Definition guard_stop (g : LeaseGuard) : LeaseGuard :=
  if task g then {| guarded := guarded g; guard_interval := guard_interval g; stop_event := true; task := false |}
  else g.

Record AsyncLeaseSemaphore := {
  name : string; limit : Z; lease_time : Z; renew_interval : Q; key_prefix : string;
  guards : gmap string LeaseGuard
}.

(** [renew_interval or lease_time / 3]: a falsy interval takes the default *)
Definition sem_init (name : string) (limit lease_time : Z) (renew : option Q) (key_prefix : string)
  : AsyncLeaseSemaphore :=
  {| name := name; limit := limit; lease_time := lease_time;
     renew_interval := match renew with
                       | Some r => if Qeq_bool r 0 then inject_Z lease_time / 3 else r
                       | None => inject_Z lease_time / 3
                       end;
     key_prefix := key_prefix; guards := ∅ |}.

Definition sem_key (s : AsyncLeaseSemaphore) : string := (key_prefix s +:+ ":" +:+ name s)%string.

Definition set_guards (f : gmap string LeaseGuard → gmap string LeaseGuard) (s : AsyncLeaseSemaphore)
  : AsyncLeaseSemaphore :=
  {| name := name s; limit := limit s; lease_time := lease_time s; renew_interval := renew_interval s;
     key_prefix := key_prefix s; guards := f (guards s) |}.

(** [_is_match]: the script's answer against the token *)
Definition _is_match (result : option string) (token : string) : bool := bool_decide (result = Some token).

Section Client.

Context `{Redis} {E : Type}.

(** When a command runs: what the other clients did before it, the server's
    clock, and the client's monotonic clock once it has returned. *)
Record moment := { m_others : DB → DB; m_now : Z; m_mono : Z }.

(** [in_use]: the clock, the purge and the count are three commands; [n] of
    them run. *)
Definition in_use (s : AsyncLeaseSemaphore) (n : nat) (m1 m2 m3 : moment) (db : DB) : DB * Z :=
  match n with
  | 0%nat => (db, 0)
  | 1%nat => (m_others m1 db, 0)
  | 2%nat => (zremrangebyscore (m_now m2) (sem_key s) (m_now m1 - lease_time s) (m_others m2 (m_others m1 db)), 0)
  | _ => let db := zremrangebyscore (m_now m2) (sem_key s) (m_now m1 - lease_time s) (m_others m2 (m_others m1 db)) in
         let db := m_others m3 db in
         (db, zcard (m_now m3) (sem_key s) db)
  end.

(** What happens between a granted script and the return of the token: the
    commands of [in_use], and what is raised after how many of them (a
    cancellation included); then whether the clean-up script runs. *)
Record after := {
  a_time : moment; a_purge : moment; a_count : moment;
  a_raise : option (nat * E);
  a_release : option moment
}.

(** The code shared by [acquire] and [try_acquire] after a granted script. *)
Definition settle (s : AsyncLeaseSemaphore) (token_value : string) (waited mono : Z) (a : after) (db : DB)
  : AsyncLeaseSemaphore * DB * list hook * res (error E) LeaseToken :=
  let token := {| resource := name s; value := token_value; acquired_at := mono |} in
  let give_back db e :=
    (s, match a_release a with Some m => sem_release (m_now m) (sem_key s) token_value (m_others m db) | None => db end,
     [], Err e) in
  match a_raise a with
  | Some (n, e) => give_back (in_use s n (a_time a) (a_purge a) (a_count a) db).1 (Raised e)
  | None =>
      let '(db, used) := in_use s 3 (a_time a) (a_purge a) (a_count a) db in
      match guard_start (guard_init token (renew_interval s)) with
      | Err e => give_back db e
      | Ok guard => (set_guards <[token_value := guard]> s, db, [OnAcquired waited used], Ok token)
      end
  end.

(** The loop of [acquire]: an attempt per moment, and the waits between them;
    no outcome while it still waits. *)
Fixpoint acquire_loop (s : AsyncLeaseSemaphore) (token_value : string) (timeout : option Z) (start delay : Z)
    (a : after) (l : list moment) (db : DB)
  : list Z * option (AsyncLeaseSemaphore * DB * list hook * res (error E) LeaseToken) :=
  match l with
  | [] => ([], None)
  | m :: l =>
      let '(db, result) := sem_acquire (m_now m) (sem_key s) (limit s) (lease_time s) token_value (m_others m db) in
      let waited := m_mono m - start in
      let sleep := let '(ds, o) := acquire_loop s token_value timeout start (Z.min 500 (delay * 2)) a l db in
                   (delay :: ds, o) in
      if _is_match result token_value then ([], Some (settle s token_value waited (m_mono m) a db))
      else match timeout with
           | Some t => if t <=? waited then ([], Some (s, db, [OnTimeout waited], Err AcquireTimeoutError)) else sleep
           | None => sleep
           end
  end.

Definition acquire (s : AsyncLeaseSemaphore) (token_value : string) (timeout : option Z) (start : Z)
    (a : after) (l : list moment) (db : DB) := acquire_loop s token_value timeout start 50 a l db.

(** The attempts of a list come no earlier than the waits allow. *)
Fixpoint slept (from delay : Z) (l : list moment) : Prop :=
  match l with
  | [] => True
  | m :: l => from ≤ m_mono m ∧ slept (m_mono m + delay) (Z.min 500 (delay * 2)) l
  end.

Definition try_acquire (s : AsyncLeaseSemaphore) (token_value : string) (a : after) (m : moment) (db : DB)
  : AsyncLeaseSemaphore * DB * list hook * res (error E) (option LeaseToken) :=
  let '(db, result) := sem_acquire (m_now m) (sem_key s) (limit s) (lease_time s) token_value (m_others m db) in
  if _is_match result token_value then
    let '(s, db, h, r) := settle s token_value 0 (m_mono m) a db in (s, db, h, res_map Some r)
  else (s, db, [OnRejected], Ok None).

(** [release]: stops the watchdog of the token, then takes it out. *)
Definition release (s : AsyncLeaseSemaphore) (token : LeaseToken) (m : moment) (db : DB)
  : AsyncLeaseSemaphore * DB * option LeaseGuard * list hook :=
  let guard := guards s !! value token in
  (set_guards (delete (value token)) s,
   sem_release (m_now m) (sem_key s) (value token) (m_others m db),
   guard_stop <$> guard,
   [OnReleased (m_mono m - acquired_at token)]).

(** What wakes the watchdog: its stop event, a cancellation, the end of the
    interval with a refresh that answers, or one that raises (run or not). *)
Inductive wake := WStop | WCancel | WTimer (m : moment) | WError (m : moment) (run : bool).

(** [_watchdog_loop]: [None] while it runs, the exit takes the guard out. *)
Fixpoint _watchdog_loop (s : AsyncLeaseSemaphore) (token : string) (ws : list wake) (db : DB)
  : DB * option AsyncLeaseSemaphore :=
  let done := Some (set_guards (delete token) s) in
  match ws with
  | [] => (db, None)
  | WStop :: _ | WCancel :: _ => (db, done)
  | WTimer m :: ws =>
      let '(db, result) := sem_refresh (m_now m) (sem_key s) token (lease_time s) (m_others m db) in
      if result =? 0 then (db, done) else _watchdog_loop s token ws db
  | WError m run :: ws =>
      let db := m_others m db in
      _watchdog_loop s token ws
        (if run then (sem_refresh (m_now m) (sem_key s) token (lease_time s) db).1 else db)
  end.

(** [SemaphoreHold]: the token of this object alone. *)
Record SemaphoreHold := { hold_timeout : option Z; hold_token : option LeaseToken }.

Definition hold (timeout : option Z) : SemaphoreHold := {| hold_timeout := timeout; hold_token := None |}.

Definition hold_enter (h : SemaphoreHold) (s : AsyncLeaseSemaphore) (token_value : string) (start : Z)
    (a : after) (l : list moment) (db : DB) :=
  match (acquire s token_value (hold_timeout h) start a l db).2 with
  | Some (s, db, hooks, Ok t) => Some ({| hold_timeout := hold_timeout h; hold_token := Some t |}, s, db, hooks, Ok t)
  | Some (s, db, hooks, Err e) => Some (h, s, db, hooks, Err e)
  | None => None
  end.

(** [__aexit__]: the release is shielded, so a cancellation does not undo it;
    it is skipped only when no event loop runs any more. *)
Definition hold_exit (h : SemaphoreHold) (s : AsyncLeaseSemaphore) (loop_running : bool) (m : moment) (db : DB)
  : SemaphoreHold * AsyncLeaseSemaphore * DB * list hook :=
  match hold_token h with
  | None => (h, s, db, [])
  | Some token =>
      let h := {| hold_timeout := hold_timeout h; hold_token := None |} in
      if loop_running then let '(s, db, _, hooks) := release s token m db in (h, s, db, hooks)
      else (h, s, db, [])
  end.

(** *** No slot is leaked *)

(** What the other clients do never brings in this token. *)
Definition spares (key token : string) (m : moment) : Prop :=
  ∀ now db, zset now key db !! token = None → zset now key (m_others m db) !! token = None.

(** The token of a semaphore is out. *)
Definition out (s : AsyncLeaseSemaphore) (token : string) (m : moment) (db : DB) : Prop :=
  zset (m_now m) (sem_key s) db !! token = None.

Lemma out_others s token m m' db : spares (sem_key s) token m' → m_now m ≤ m_now m' →
  out s token m db → out s token m' (m_others m' db).
Proof. intros Hs Hm Ho. apply Hs. by eapply zset_None_later. Qed.

Lemma refused_out s token m db db' :
  zset (m_now m) (sem_key s) db !! token = None →
  sem_acquire (m_now m) (sem_key s) (limit s) (lease_time s) token db = (db', None) → out s token m db'.
Proof.
  intros Hk. unfold sem_acquire. case_match; [done|]. intros [= <-]. unfold out.
  rewrite zset_zremrange. apply map_lookup_filter_None. by left.
Qed.

Lemma release_out s token m db : out s token m (sem_release (m_now m) (sem_key s) token db).
Proof. unfold out, sem_release. rewrite zset_zrem. apply lookup_delete_eq. Qed.

(** [sem_acquire] answers its own token or nothing. *)
Lemma sem_acquire_match now key lim lease token db db' r :
  sem_acquire now key lim lease token db = (db', r) → _is_match r token = bool_decide (is_Some r) ∧ (r = None ∨ r = Some token).
Proof.
  unfold sem_acquire, _is_match. case_match; intros [= <- <-]; split; auto.
  by rewrite !bool_decide_true.
Qed.

(** A call that raises after the script was granted has given the slot back;
    one that returns has started the watchdog. *)
Lemma settle_spec s token waited mono a db s' db' h r :
  settle s token waited mono a db = (s', db', h, r) →
  match r with
  | Ok t => value t = token ∧ resource t = name s ∧ a_raise a = None
            ∧ ∃ g, s' = set_guards <[token := g]> s ∧ guarded g = t ∧ task g = true ∧ stop_event g = false
  | Err e => s' = s ∧ h = [] ∧ ∃ n e', a_raise a = Some (n, e') ∧ e = Raised e'
             ∧ (∀ m, a_release a = Some m → out s token m db')
  end.
Proof.
  unfold settle. destruct (a_raise a) as [[n e]|] eqn:Er.
  - intros [= <- <- <- <-]. split_and!; [done..|]. exists n, e. split_and!; [done..|].
    intros m Hm. rewrite Hm. apply release_out.
  - cbn. intros [= <- <- <- <-]. split_and!; [done..|]. eexists. split_and!; reflexivity.
Qed.

(** The loop ends through [settle], or by the timeout at some attempt. *)
Definition loop_outcome (s : AsyncLeaseSemaphore) (token : string) (timeout : option Z) (start : Z) (a : after)
    (l : list moment) (o : AsyncLeaseSemaphore * DB * list hook * res (error E) LeaseToken) : Prop :=
  (∃ db waited mono, settle s token waited mono a db = o) ∨
  (∃ t m db, timeout = Some t ∧ m ∈ l ∧ t ≤ m_mono m - start ∧ out s token m db
             ∧ o = (s, db, [OnTimeout (m_mono m - start)], Err AcquireTimeoutError)).

Lemma loop_outcome_cons s token timeout start a m l o :
  loop_outcome s token timeout start a l o → loop_outcome s token timeout start a (m :: l) o.
Proof. intros [?|(t & m' & db & ? & Hin & ?)]; [by left|]. right. exists t, m', db. split; [done|]. split; [by right|done]. Qed.

Lemma acquire_loop_spec s token timeout start delay a l db m0 o :
  Forall (spares (sem_key s) token) l → Sorted (λ m m', m_now m ≤ m_now m') (m0 :: l) → out s token m0 db →
  (acquire_loop s token timeout start delay a l db).2 = Some o → loop_outcome s token timeout start a l o.
Proof.
  revert delay db m0. induction l as [|m l IH]; intros delay db m0 Hsp Hso Ho; simpl; [done|].
  apply Forall_cons in Hsp as [Hm Hl]. apply Sorted_inv in Hso as [Hso Hhd]. apply HdRel_inv in Hhd.
  destruct (sem_acquire _ _ _ _ _ _) as [db1 res] eqn:Ea.
  destruct (sem_acquire_match _ _ _ _ _ _ _ _ Ea) as [-> [-> | ->]].
  - assert (Ho1 : out s token m db1) by (eapply refused_out; [by eapply out_others|done]).
    rewrite bool_decide_false by (by intros []).
    specialize (IH (Z.min 500 (delay * 2)) db1 m Hl Hso Ho1).
    destruct (acquire_loop s token timeout start (Z.min 500 (delay * 2)) a l db1) as [ds o'].
    destruct timeout as [t|]; [|intros Ho'; by apply loop_outcome_cons, IH].
    destruct (Z.leb_spec t (m_mono m - start)) as [Hle|Hgt]; [|intros Ho'; by apply loop_outcome_cons, IH].
    intros [= <-]. right. exists t, m, db1. split_and!; [done|by left|done..].
  - rewrite bool_decide_true by eauto. simpl. intros [= Hs]. left. eauto.
Qed.

(** With a timeout the loop comes to an end. *)
Lemma acquire_loop_ends s token t start delay a l db from :
  50 ≤ delay → slept from delay l → l ≠ [] → t ≤ from - start + 50 * (Z.of_nat (length l) - 1) →
  is_Some (acquire_loop s token (Some t) start delay a l db).2.
Proof.
  revert delay db from. induction l as [|m l IH]; intros delay db from Hd; simpl; [done|].
  intros [Hm Hl] _ Ht. destruct (sem_acquire _ _ _ _ _ _) as [db1 res].
  destruct (_is_match res token); [simpl; eauto|].
  destruct (Z.leb_spec t (m_mono m - start)) as [Hle|Hgt]; [simpl; eauto|].
  destruct l as [|m' l]; [cbn in Ht; lia|].
  specialize (IH (Z.min 500 (delay * 2)) db1 (m_mono m + delay)).
  destruct (acquire_loop s token (Some t) start (Z.min 500 (delay * 2)) a (m' :: l) db1) as [ds o].
  apply IH; [lia|done|done|]. cbn [length] in *. lia.
Qed.

(** The waits are 50, 100, 200, 400 ms, then 500 ms for ever. *)
Fixpoint backoff (delay : Z) (n : nat) : list Z :=
  match n with O => [] | S n => delay :: backoff (Z.min 500 (delay * 2)) n end.

Lemma acquire_loop_sleeps s token timeout start delay a l db :
  ∃ n, (acquire_loop s token timeout start delay a l db).1 = backoff delay n.
Proof.
  revert delay db. induction l as [|m l IH]; intros delay db; simpl; [by exists 0%nat|].
  destruct (sem_acquire _ _ _ _ _ _) as [db1 res].
  destruct (IH (Z.min 500 (delay * 2)) db1) as [n Hn].
  destruct (acquire_loop s token timeout start (Z.min 500 (delay * 2)) a l db1) as [ds o]. simpl in Hn. subst ds.
  destruct (_is_match res token); [by exists 0%nat|].
  destruct timeout as [t|]; [destruct (t <=? m_mono m - start)|]; [by exists 0%nat|by exists (S n)..].
Qed.

End Client.

(** ** What the semaphore guarantees *)

(** C1: The scripts refine the lease specification: whatever clients acquire,
    refresh, release, purge and count, in any order, every answer is the one
    the leases confirmed so far promise (an acquisition is granted exactly when
    fewer than [limit] leases are valid, so the slots of crashed holders come
    back after their lease; a valid lease is always confirmed), and at every
    later instant no more than [limit] confirmed leases are valid.  A lease is
    valid strictly within its duration: as the scripts do, and unlike the
    documentation, which counts a score of exactly [now - lease] as valid, the
    boundary is expired. *)
Theorem sem_refines_leases `{Redis} key limit lease t0 db0 tr t db :
  entry db0 key = None → sem_run key limit lease t0 db0 tr t db →
  promised_all limit lease ∅ tr ∧
  ∀ t', t ≤ t' → Z.of_nat (size (valid lease t' (confirmed tr))) ≤ Z.max 0 limit.
Proof.
  intros H0 Hr. destruct (sem_run_inv _ _ _ _ _ _ _ _ Hr H0) as (Hok & Ha & Hp). split; [done|].
  intros t' Ht. pose proof (size_valid_mono lease t t' (confirmed tr) Ht). rewrite <- Ha in *.
  pose proof (size_valid_le lease t (zset t key db)). pose proof (ok_size _ _ _ _ _ Hok). lia.
Qed.

(** A holder whose watchdog refreshes within the lease never loses its slot:
    after a granted acquisition, whatever the other clients do, all its
    refreshes are confirmed and its lease is valid until the last one runs out. *)
Theorem watchdog_keeps_lease `{Redis} key limit lease t0 db0 tr1 t1 k tr2 t db :
  entry db0 key = None → sem_run key limit lease t0 db0 ((tr1 ++ [(t1, CAcquire k, RGrant true)]) ++ tr2) t db →
  kept lease k t1 tr2 t →
  k ∈ dom (valid lease t (confirmed ((tr1 ++ [(t1, CAcquire k, RGrant true)]) ++ tr2))) ∧
  ∀ t' r, (t', CRefresh k, r) ∈ tr2 → r = RGrant true.
Proof.
  intros H0 Hr Hk. destruct (sem_run_inv _ _ _ _ _ _ _ _ Hr H0) as (_ & _ & Hp).
  unfold confirmed. rewrite fold_left_app.
  assert (Hps : ∀ tr a, promised_all limit lease a (tr ++ tr2) → promised_all limit lease (fold_left confirm tr a) tr2).
  { induction tr as [|e tr IH]; intros a; [done|]. intros [_ Ha]. by apply IH. }
  eapply kept_valid; [|apply Hps, Hp|done]. rewrite fold_left_app. cbn. apply lookup_insert_eq.
Qed.

(** A released token never comes back: after the script, whatever runs, it is
    out of the sorted set as long as nobody acquires it again, and a refresh
    that was still under way is refused. *)
Theorem released_stays_out `{Redis} key limit lease k t0 db0 tr t db :
  zset t0 key (sem_release t0 key k db0) !! k = None ∧
  (sem_run key limit lease t0 (sem_release t0 key k db0) tr t db →
   (∀ t' r, (t', CAcquire k, r) ∉ tr) →
   zset t key db !! k = None ∧ ∀ t' r, (t', CRefresh k, r) ∈ tr → r = RGrant false).
Proof.
  assert (H0 : zset t0 key (sem_release t0 key k db0) !! k = None).
  { unfold sem_release. rewrite zset_zrem. apply lookup_delete_eq. }
  split; [done|]. induction 1 as [|tr t db t' db' Hr IH Ht E|tr t db t' c db' r Hr IH Ht Hp Hx]; intros Hna.
  - split; [done|]. by intros ? ? ?%not_elem_of_nil.
  - destruct (IH Hna) as [H1 H2]. split; [|done]. unfold zset, at_ in *. rewrite E.
    by apply (zset_None_later key t t').
  - destruct IH as [H1 H2]; [intros ? ? Hin; eapply Hna, elem_of_app; by left|].
    destruct (exec_out key limit lease t' c db db' r k) as [H3 H4]; [by apply (zset_None_later key t t')| |done|].
    { intros ->. eapply Hna, elem_of_app. right. by left. }
    split; [done|]. intros t2 r2 [Hin|[= -> <- ->]%list_elem_of_singleton]%elem_of_app; [by eapply H2|by apply H4].
Qed.

(** [acquire] leaks no slot: when it returns a token, the watchdog of that
    token runs and is registered; when it raises, after the timeout or because
    anything after the script failed or was cancelled, no guard is left and
    the token is out of the sorted set (unless the clean-up script failed too). *)
Theorem acquire_no_leak `{Redis} {E} s token timeout start (a : @after _ E) l db m0 s' db' h r :
  Forall (spares (sem_key s) token) l → Sorted (λ m m', m_now m ≤ m_now m') (m0 :: l) → out s token m0 db →
  (acquire s token timeout start a l db).2 = Some (s', db', h, r) →
  match r with
  | Ok t => value t = token ∧ ∃ g, s' = set_guards <[token := g]> s ∧ guarded g = t ∧ task g = true ∧ stop_event g = false
  | Err e => s' = s ∧ ((∃ n e', a_raise a = Some (n, e') ∧ e = Raised e' ∧ ∀ m, a_release a = Some m → out s token m db')
                       ∨ ∃ m, e = AcquireTimeoutError ∧ m ∈ l ∧ out s token m db')
  end.
Proof.
  intros Hsp Hso Ho Hl. apply (acquire_loop_spec _ _ _ _ _ _ _ _ m0) in Hl; [|done..].
  destruct Hl as [(db1 & waited & mono & Hs)|(t & m & db1 & -> & Hin & Ht & Ho1 & [= -> -> -> ->])].
  - apply settle_spec in Hs. destruct r as [t|e].
    + destruct Hs as (? & ? & ? & g & ?). eauto.
    + destruct Hs as (-> & -> & n & e' & ? & ? & ?). split; [done|]. left. eauto.
  - split; [done|]. right. eauto.
Qed.

(** [acquire] with a timeout ends: its waits are 50, 100, 200, 400 and then
    500 ms for ever, so after [timeout / 50 ms] waits it has returned a token
    or raised. *)
Theorem acquire_terminates `{Redis} {E} s token t start (a : @after _ E) l db :
  slept start 50 l → 0 ≤ t → t ≤ 50 * (Z.of_nat (length l) - 1) →
  is_Some (acquire s token (Some t) start a l db).2 ∧ ∃ n, (acquire s token (Some t) start a l db).1 = backoff 50 n.
Proof.
  intros Hl H0 Ht. split; [|apply acquire_loop_sleeps]. apply (acquire_loop_ends _ _ _ _ _ _ _ _ start); [done|done| |lia].
  intros ->. simpl in Ht. lia.
Qed.

(** *** On the reference instance *)

Module SemWitness.

Local Open Scope string_scope.

(** One slot, a lease of a second: [a] takes it, [b] is refused until the
    lease of [a] has run out. *)
Definition events : list (Z * call) := [(0, CAcquire "a"); (500, CAcquire "b"); (900, CRefresh "a"); (1899, CCount)].

Definition step (db : @DB redis_map) (e : Z * call) : @DB redis_map := (exec (H := redis_map) "k" 1 1000 e.1 e.2 db).1.
Definition db_after (n : nat) : @DB redis_map := fold_left step (take n events) ∅.

Lemma events_run : sem_run (H := redis_map) "k" 1 1000 0 ∅
  [(0, CAcquire "a", RGrant true); (500, CAcquire "b", RGrant false); (900, CRefresh "a", RGrant true); (1899, CCount, RCount 1)]
  1899 (db_after 4).
Proof.
  pose proof (run_nil (H := redis_map) "k" 1 1000 0 ∅) as R.
  eapply (run_exec (H := redis_map)) with (t' := 0) (c := CAcquire "a") (r := RGrant true) in R; [|lia|done|vm_compute; reflexivity].
  eapply (run_exec (H := redis_map)) with (t' := 500) (c := CAcquire "b") (r := RGrant false) in R; [|lia|done|vm_compute; reflexivity].
  eapply (run_exec (H := redis_map)) with (t' := 900) (c := CRefresh "a") (r := RGrant true) in R; [|lia|done|vm_compute; reflexivity].
  eapply (run_exec (H := redis_map)) with (t' := 1899) (c := CCount) (r := RCount 1) in R; [|lia|done|vm_compute; reflexivity].
  exact R.
Qed.

Lemma refines_witness : ∃ tr db, sem_run (H := redis_map) "k" 1 1000 0 ∅ tr 1899 db ∧ length tr = 4%nat ∧ promised_all 1 1000 ∅ tr.
Proof.
  do 2 eexists. split; [exact events_run|]. split; [done|].
  exact (proj1 (sem_refines_leases (H := redis_map) "k" 1 1000 0 ∅ _ 1899 (db_after 4) eq_refl events_run)).
Defined.

Lemma keeps_witness : "a" ∈ dom (valid 1000 1899 (confirmed
  [(0, CAcquire "a", RGrant true); (500, CAcquire "b", RGrant false); (900, CRefresh "a", RGrant true); (1899, CCount, RCount 1)])).
Proof.
  refine (proj1 (watchdog_keeps_lease (H := redis_map) "k" 1 1000 0 ∅ [] 0 "a"
    [(500, CAcquire "b", RGrant false); (900, CRefresh "a", RGrant true); (1899, CCount, RCount 1)] 1899 (db_after 4) eq_refl events_run _)).
  cbn -[decide]. split; [done|]. rewrite decide_True by done. lia.
Defined.

Lemma stays_out_witness : zset (H := redis_map) 100 "k" (sem_release (H := redis_map) 100 "k" "a" (db_after 1)) !! "a" = None.
Proof.
  exact (proj1 (proj2 (released_stays_out (H := redis_map) "k" 1 1000 "a" 100 (db_after 1) [] 100 _)
    (run_nil (H := redis_map) _ _ _ _ _) (λ _ _, not_elem_of_nil _))).
Defined.

Definition at_time (t : Z) : @moment redis_map := {| m_others := λ db, db; m_now := t; m_mono := t |}.
Definition quiet : @after redis_map unit :=
  {| a_time := at_time 60; a_purge := at_time 60; a_count := at_time 60; a_raise := Some (1%nat, tt); a_release := Some (at_time 60) |}.
Definition sem : AsyncLeaseSemaphore := sem_init "llm" 1 1000 None "{ftb}:semaphore".

Lemma no_leak_witness : ∃ s' db' h r,
  (acquire (H := redis_map) sem "t" (Some 40) 0 quiet [at_time 0] ∅).2 = Some (s', db', h, r) ∧ r = Err (Raised tt) ∧ s' = sem.
Proof.
  do 4 eexists. split; [reflexivity|]. split; [reflexivity|].
  refine (proj1 (acquire_no_leak (H := redis_map) sem "t" (Some 40) 0 quiet [at_time 0] ∅ (at_time 0) _ _ _ _ _ _ _ eq_refl)).
  - constructor; [by intros ? ?|constructor].
  - repeat constructor. cbn. lia.
  - vm_compute. reflexivity.
Defined.

Lemma terminates_witness : is_Some (acquire (H := redis_map) sem "t" (Some 40) 0 quiet [at_time 0; at_time 50] ∅).2.
Proof.
  refine (proj1 (acquire_terminates (H := redis_map) sem "t" 40 0 quiet [at_time 0; at_time 50] ∅ _ _ _)).
  - cbn. lia.
  - lia.
  - cbn. lia.
Defined.

End SemWitness.
