(* ===== verification/Bucket.v ===== *)
(** The token bucket (src/packages/core/src/orditect/core/limiter/bucket.py with
    lua/bucket_acquire.lua).

    The key holds the next instant from which tokens may be used and how many
    are left; a caller reserves one, possibly in the future, and sleeps until
    then.  Clocks, waits and the refill interval are in whole milliseconds. *)
From Stdlib Require Import ZArith Lia.
From stdpp Require Import prelude gmap list strings.
From S2P Require Import Prelude Redis.
Local Open Scope list_scope.
Local Open Scope Z_scope.

(** [math.ceil(a / b)] *)
Definition ceil_div (a b : Z) : Z := - ((- a) / b).

Lemma ceil_div_spec a b : 0 < b → a ≤ b * ceil_div a b < a + b.
Proof.
  intros Hb. unfold ceil_div. pose proof (Z.div_mod (- a) b ltac:(lia)). pose proof (Z.mod_pos_bound (- a) b Hb). lia.
Qed.

Section Script.

Context `{Redis}.

(** The script: status, slot and server time; [None] when the key holds
    something else and the script fails. *)
Definition bucket_acquire (now : Z) (data_key : string) (capacity refill_amount time_between_slots max_sleep_ms : Z)
    (db : DB) : DB * option (Z * Z * Z) :=
  let start :=
    match get now data_key db with
    | None => Some (now, capacity)
    | Some (SPair last_slot stored_tokens) =>
        let slots_passed := (now - last_slot) / time_between_slots in
        if 0 <? slots_passed then Some (now, Z.min (stored_tokens + slots_passed * refill_amount) capacity)
        else Some (last_slot, stored_tokens)
    | Some _ => None
    end in
  match start with
  | None => (db, None)
  | Some (slot, tokens) =>
      let '(slot, tokens) :=
        if tokens <=? 0 then (slot + time_between_slots, refill_amount) else (slot, tokens) in
      let wait_ms := slot - now in
      if max_sleep_ms <? wait_ms then (db, Some (0, slot, now))
      else
        let tokens := tokens - 1 in
        let refill_to_full_ms := ceil_div (capacity - tokens) refill_amount * time_between_slots in
        let state_ttl_ms := Z.max 0 (slot - now) + refill_to_full_ms + 5000 in
        let state_ttl_sec := Z.max 1 (ceil_div state_ttl_ms 1000) in
        (set now data_key (SPair slot tokens) (Some state_ttl_sec) db, Some (1, slot, now))
  end.

End Script.

(** ** Runs of the script *)

Section Runs.

Context `{Redis}.
Context (key : string) (capacity refill tbs : Z).

(** Reservations of any number of clients, each with its own bound on the
    wait, and changes of other keys in between.  A reservation is recorded as
    granted or not, with the slot and the clock. *)
Inductive bucket_run (t0 : Z) (db0 : DB) : list (bool * Z * Z) → Z → DB → Prop :=
  | brun_nil : bucket_run t0 db0 [] t0 db0
  | brun_other tr t db t' db' :
      bucket_run t0 db0 tr t db → t ≤ t' → entry db' key = entry db key → bucket_run t0 db0 tr t' db'
  | brun_acquire tr t db t' max_sleep db' status slot :
      bucket_run t0 db0 tr t db → t ≤ t' →
      bucket_acquire t' key capacity refill tbs max_sleep db = (db', Some (status, slot, t')) →
      bucket_run t0 db0 (tr ++ [(bool_decide (status = 1), slot, t')]) t' db'.

Definition granted (tr : list (bool * Z * Z)) : Z := Z.of_nat (length (filter (λ e : bool * Z * Z, e.1.1 = true) tr)).

Definition last_slot_of (t0 : Z) (tr : list (bool * Z * Z)) : Z :=
  fold_left (λ (s : Z) (e : bool * Z * Z), if e.1.1 then e.1.2 else s) tr t0.

(** How many reservations the bucket allows up to a slot. *)
Definition allowance (t0 slot : Z) : Z := capacity + refill * ((slot - t0) / tbs).

(** The state of the key: [n] reservations were granted, the last at [last];
    a key that dies has been full again for a while. *)
Definition bucket_ok (t0 t : Z) (db : DB) (n last : Z) : Prop :=
  match at_ t key db with
  | None => n + capacity ≤ allowance t0 t ∧ last ≤ t ∧ t0 ≤ t
  | Some {| rval := VStr (SPair slot tokens); rexp := Some x |} =>
      0 ≤ tokens < Z.max capacity refill ∧ t0 ≤ slot ∧ slot = last ∧ n + tokens ≤ allowance t0 slot ∧ slot ≤ x
      ∧ slot + ceil_div (capacity - tokens) refill * tbs ≤ x
  | Some _ => False
  end.

Context (Hcap : 1 ≤ capacity) (Href : 1 ≤ refill) (Htbs : 1 ≤ tbs).

Lemma div_superadd a b c : 0 < c → a / c + b / c ≤ (a + b) / c.
Proof.
  intros Hc. apply Z.div_le_lower_bound; [done|].
  pose proof (Z.mul_div_le a c Hc). pose proof (Z.mul_div_le b c Hc). lia.
Qed.

Lemma allowance_refill t0 slot slot' k : slot + k * tbs ≤ slot' → allowance t0 slot + refill * k ≤ allowance t0 slot'.
Proof.
  intros Hk. unfold allowance. assert ((slot - t0) / tbs + k ≤ (slot' - t0) / tbs); [|nia].
  rewrite <- (Z.div_add (slot - t0) k tbs) by lia. apply Z.div_le_mono; lia.
Qed.

Lemma allowance_mono t0 slot slot' : slot ≤ slot' → allowance t0 slot ≤ allowance t0 slot'.
Proof. intros Hs. pose proof (allowance_refill t0 slot slot' 0). lia. Qed.

Lemma ceil_full_nonneg tokens : tokens < Z.max capacity refill → 0 ≤ ceil_div (capacity - tokens) refill.
Proof. intros Ht. pose proof (ceil_div_spec (capacity - tokens) refill ltac:(lia)). nia. Qed.

Lemma bucket_ok_other t0 t db db' n last : entry db' key = entry db key → bucket_ok t0 t db n last → bucket_ok t0 t db' n last.
Proof. intros E. unfold bucket_ok, at_. by rewrite E. Qed.

Lemma bucket_ok_later t0 t t' db n last : bucket_ok t0 t db n last → t ≤ t' → bucket_ok t0 t' db n last.
Proof.
  unfold bucket_ok. intros Hok Ht. rewrite (at_later t t') by done. destruct (at_ t key db) as [[[[| |slot tokens]| | |] [x|]]|];
    simpl; try done.
  - destruct (decide (t' < x)) as [Hx|Hx]; [done|]. destruct Hok as (Htk & Hs0 & -> & Hn & Hx1 & Hx2).
    pose proof (allowance_refill t0 last t' (ceil_div (capacity - tokens) refill) ltac:(lia)).
    pose proof (ceil_div_spec (capacity - tokens) refill ltac:(lia)). split_and!; [lia..|].
    lia.
  - destruct Hok as (Hn & Hl & H0). pose proof (allowance_mono t0 t t' Ht). split_and!; lia.
Qed.

(** What a granted reservation leaves behind. *)
Lemma bucket_ok_set t0 t db n last slot tokens :
  0 ≤ tokens < Z.max capacity refill → t0 ≤ slot → n + tokens ≤ allowance t0 slot → slot = last →
  bucket_ok t0 t (set t key (SPair slot tokens)
    (Some (Z.max 1 (ceil_div (Z.max 0 (slot - t) + ceil_div (capacity - tokens) refill * tbs + 5000) 1000))) db) n last.
Proof.
  intros Htk Hs Hn Hl. unfold bucket_ok. set (ms := Z.max 0 (slot - t) + ceil_div (capacity - tokens) refill * tbs + 5000).
  rewrite (at_now _ _ _ _ _ (set_acts _ _ _ _ _)). simpl.
  pose proof (ceil_div_spec ms 1000 ltac:(lia)). pose proof (ceil_full_nonneg tokens ltac:(lia)).
  assert (0 ≤ ceil_div (capacity - tokens) refill * tbs) by nia.
  rewrite decide_True by lia. split_and!; try done; try lia.
Qed.

(** One reservation. *)
Lemma bucket_acquire_ok t0 t db n last max_sleep db' status slot :
  bucket_ok t0 t db n last → bucket_acquire t key capacity refill tbs max_sleep db = (db', Some (status, slot, t)) →
  if decide (status = 1) then bucket_ok t0 t db' (n + 1) slot ∧ last ≤ slot ∧ t0 ≤ slot ∧ n + 1 ≤ allowance t0 slot
                              ∧ slot - t ≤ max_sleep
  else status = 0 ∧ db' = db.
Proof.
  intros Hok. unfold bucket_acquire, bucket_ok in *. unfold get.
  destruct (at_ t key db) as [[[[| |slot0 tokens0]| | |] [x|]]|] eqn:Ea; simpl; try done.
  - destruct Hok as (Htk & Hs0 & <- & Hn & Hx1 & Hx2).
    set (p := (t - slot0) / tbs).
    set (st := if 0 <? p then Some (t, Z.min (tokens0 + p * refill) capacity) else Some (slot0, tokens0)).
    assert (∃ slot1 tokens1, st = Some (slot1, tokens1) ∧ 0 ≤ tokens1 ≤ Z.max capacity refill ∧ slot0 ≤ slot1
            ∧ n + tokens1 ≤ allowance t0 slot1 ∧ (tokens1 < Z.max capacity refill ∨ 0 < tokens1))
      as (slot1 & tokens1 & -> & Htk1 & Hs1 & Hn1 & Hpos).
    { unfold st, p. destruct (Z.ltb_spec 0 ((t - slot0) / tbs)) as [Hp|Hp].
      - pose proof (Z.mul_div_le (t - slot0) tbs ltac:(lia)).
        pose proof (allowance_refill t0 slot0 t ((t - slot0) / tbs) ltac:(nia)).
        eexists _, _. split; [done|]. split_and!; nia.
      - eexists _, _. split; [done|]. split_and!; try lia. }
    destruct (Z.leb_spec tokens1 0) as [Hz|Hz].
    + pose proof (allowance_refill t0 slot1 (slot1 + tbs) 1 ltac:(lia)).
      destruct (Z.ltb_spec max_sleep (slot1 + tbs - t)); intros [= <- <- <-]; simpl; [done|].
      split_and!; try lia. apply bucket_ok_set; lia.
    + destruct (Z.ltb_spec max_sleep (slot1 - t)); intros [= <- <- <-]; simpl; [done|].
      split_and!; try lia. apply bucket_ok_set; lia.
  - destruct Hok as (Hn & Hl & H0). destruct (Z.leb_spec capacity 0); [lia|].
    destruct (Z.ltb_spec max_sleep (t - t)); intros [= <- <- <-]; simpl; [done|].
    split_and!; try lia. apply bucket_ok_set; lia.
Qed.

(** The invariant of a run: the counter, the last slot and every earlier one. *)
Lemma bucket_run_inv t0 db0 tr t db : bucket_run t0 db0 tr t db → entry db0 key = None →
  ∃ last, bucket_ok t0 t db (granted tr) last ∧ (∀ sl t1, (true, sl, t1) ∈ tr → sl ≤ last) ∧ t0 ≤ t ∧
  ∀ tr1 sl t1 tr2, tr = tr1 ++ (true, sl, t1) :: tr2 →
    granted tr1 + 1 ≤ allowance t0 sl ∧ ∀ sl' t1', (true, sl', t1') ∈ tr1 → sl' ≤ sl.
Proof.
  intros Hr H0. induction Hr as [|tr t db t' db' Hr IH Ht E|tr t db t' ms db' status slot Hr IH Ht Ha].
  - exists t0. unfold bucket_ok, at_. rewrite H0. simpl. unfold granted, allowance. simpl.
    rewrite Z.sub_diag, Z.div_0_l by lia. split_and!; try lia.
    + by intros ? ? ?%not_elem_of_nil.
    + intros ? ? ? ? Heq%(f_equal length). rewrite length_app in Heq. simpl in Heq. lia.
  - destruct IH as (last & Hok & Hle & H00 & Hpre). exists last. split_and!; [|done|lia|done].
    eapply bucket_ok_other; [done|]. by eapply bucket_ok_later.
  - destruct IH as (last & Hok & Hle & H00 & Hpre).
    apply (bucket_ok_later _ _ t') in Hok; [|done].
    pose proof (bucket_acquire_ok _ _ _ _ _ _ _ _ _ Hok Ha) as Hstep. unfold granted in *.
    destruct (decide (status = 1)) as [->|Hs].
    + rewrite bool_decide_true by done. destruct Hstep as (Hok' & Hl & Ht0 & Hn & _). exists slot.
      rewrite filter_app, length_app. simpl. rewrite Nat2Z.inj_add. split_and!; [done| |lia|].
      * intros sl t1 [Hin|[= -> ->]%list_elem_of_singleton]%elem_of_app; [|done]. apply Hle in Hin. lia.
      * intros tr1 sl t1 tr2. destruct tr2 as [|e tr2 _] using rev_ind.
        -- intros [<- [= <- <-]]%app_inj_tail. split; [done|]. intros sl' t1' Hin. apply Hle in Hin. lia.
        -- rewrite app_comm_cons, app_assoc. intros [-> _]%app_inj_tail. by eapply Hpre.
    + destruct Hstep as [-> ->]. rewrite bool_decide_false by done. exists last.
      rewrite filter_app, length_app. simpl. rewrite Nat.add_0_r. split_and!; [done| |lia|].
      * intros sl t1 [Hin|[=]%list_elem_of_singleton]%elem_of_app. by eapply Hle.
      * intros tr1 sl t1 tr2. destruct tr2 as [|e tr2 _] using rev_ind.
        -- by intros [_ [=]]%app_inj_tail.
        -- rewrite app_comm_cons, app_assoc. intros [-> _]%app_inj_tail. by eapply Hpre.
Qed.

End Runs.

(** ** The client *)

Section Client.

Context `{Redis}.

Record AsyncTokenBucket := { name : string; capacity : Z; refill_amount : Z; refill_frequency : Z; key_prefix : string }.

Definition bucket_key (b : AsyncTokenBucket) : string := (key_prefix b +:+ ":" +:+ name b)%string.

(** [RuntimeError] stands for the failure of a script on a foreign key. *)
Inductive bucket_error := AcquireTimeoutError | ResponseError.

Inductive bucket_hook := OnAcquired (waited in_use : Z) | OnRejected.

(** [acquire]: reserve, then sleep until the slot; the wait is measured on the
    server's clock.  [None] is no bound on the wait. *)
Definition acquire (b : AsyncTokenBucket) (max_sleep : option Z) (now : Z) (db : DB)
  : DB * list bucket_hook * option Z * res bucket_error Z :=
  let max_sleep_ms := match max_sleep with Some m => m | None => 999999999 end in
  let '(db, result) := bucket_acquire now (bucket_key b) (capacity b) (refill_amount b) (refill_frequency b) max_sleep_ms db in
  match result with
  | None => (db, [], None, Err ResponseError)
  | Some (status, slot_ms, server_now_ms) =>
      if status =? 0 then (db, [OnRejected], None, Err AcquireTimeoutError)
      else
        let wait := Z.max 0 (slot_ms - server_now_ms) in
        (db, [OnAcquired wait 0], if 0 <? wait then Some wait else None, Ok wait)
  end.

(** [try_acquire] *)
Definition try_acquire (b : AsyncTokenBucket) (now : Z) (db : DB) : DB * list bucket_hook * res bucket_error bool :=
  let '(db, h, _, r) := acquire b (Some 0) now db in
  (db, h, match r with Ok _ => Ok true | Err AcquireTimeoutError => Ok false | Err e => Err e end).

(** [__aenter__] *)
Definition bucket_enter (b : AsyncTokenBucket) (now : Z) (db : DB) := acquire b (Some 999999000) now db.

End Client.

(** ** What the bucket guarantees *)

(** The rate is bounded: from the first reservation on an unused key at
    [t0], a caller that is granted the slot [sl] is at most the
    [capacity + refill * floor((sl - t0) / interval)]-th, whatever bounds the
    callers put on their waits and however often the key expired in between;
    and slots are handed out in order. *)
Theorem bucket_rate `{Redis} key capacity refill tbs t0 db0 tr1 sl t1 tr2 t db :
  1 ≤ capacity → 1 ≤ refill → 1 ≤ tbs → entry db0 key = None →
  bucket_run key capacity refill tbs t0 db0 (tr1 ++ (true, sl, t1) :: tr2) t db →
  granted tr1 + 1 ≤ capacity + refill * ((sl - t0) / tbs) ∧ ∀ sl' t1', (true, sl', t1') ∈ tr1 → sl' ≤ sl.
Proof.
  intros Hc Hr Ht H0 Hrun. destruct (bucket_run_inv key capacity refill tbs Hc Hr Ht _ _ _ _ _ Hrun H0)
    as (last & _ & _ & _ & Hpre). by eapply Hpre.
Qed.

(** What [acquire] does, on a key that a run of reservations left: it
    succeeds exactly when the slot it is given is no further than [max_sleep],
    it then sleeps until that slot, and a rejected call takes nothing: the
    database is as it was. *)
Theorem bucket_acquire_bounds `{Redis} b max_sleep t0 db0 tr t db t' db' h s r :
  1 ≤ capacity b → 1 ≤ refill_amount b → 1 ≤ refill_frequency b → 0 ≤ max_sleep → entry db0 (bucket_key b) = None →
  bucket_run (bucket_key b) (capacity b) (refill_amount b) (refill_frequency b) t0 db0 tr t db → t ≤ t' →
  acquire b (Some max_sleep) t' db = (db', h, s, r) →
  match r with
  | Ok wait => 0 ≤ wait ≤ max_sleep ∧ s = (if decide (0 < wait) then Some wait else None) ∧ h = [OnAcquired wait 0]
  | Err e => e = AcquireTimeoutError ∧ db' = db ∧ h = [OnRejected] ∧ s = None
  end.
Proof.
  intros Hc Hr Ht Hm H0 Hrun Htt. destruct (bucket_run_inv _ _ _ _ Hc Hr Ht _ _ _ _ _ Hrun H0) as (last & Hok & _ & _ & _).
  eapply bucket_ok_later with (t' := t') in Hok; [|done..].
  unfold acquire. destruct (bucket_acquire _ _ _ _ _ _ _) as [db1 [[[status slot] now]|]] eqn:Ea.
  - assert (now = t') as ->. { revert Ea. unfold bucket_acquire. repeat case_match; naive_solver. }
    pose proof (bucket_acquire_ok _ _ _ _ Hc Hr Ht _ _ _ _ _ _ _ _ _ Hok Ea) as Hstep; cbn beta in Hstep.
    destruct (decide (status = 1)) as [->|Hs].
    + destruct Hstep as (_ & _ & _ & _ & Hw). simpl. intros [= <- <- <- <-]. split_and!; [lia|lia| |done].
      destruct (Z.ltb_spec 0 (Z.max 0 (slot - t'))); case_decide; first [done | lia].
    + destruct Hstep as [-> ->]. simpl. by intros [= <- <- <- <-].
  - exfalso. revert Ea. unfold bucket_acquire, get, bucket_ok in *.
    destruct (at_ t' (bucket_key b) db) as [[[[| |sl0 tk0]| | |] [x|]]|]; simpl; try done; repeat case_match; naive_solver.
Qed.

(** *** On the reference instance *)

Module BucketWitness.

Local Open Scope string_scope.

Definition tries : list Z := [0; 100; 200; 1000].
Definition reserve (db : @DB redis_map) (now : Z) := (bucket_acquire (H := redis_map) now "k" 2 1 1000 500 db).1.

(** A capacity of two and one token a second: two at once, the third is too
    far away, a second later there is a token again. *)
Lemma tries_run : bucket_run (H := redis_map) "k" 2 1 1000 0 ∅
  ([(true, 0, 0); (true, 0, 100); (false, 1000, 200)] ++ (true, 1000, 1000) :: []) 1000 (fold_left reserve tries ∅).
Proof.
  pose proof (brun_nil (H := redis_map) "k" 2 1 1000 0 ∅) as R.
  eapply (brun_acquire (H := redis_map)) with (t' := 0) (max_sleep := 500) (status := 1) (slot := 0) in R; [|lia|vm_compute; reflexivity].
  eapply (brun_acquire (H := redis_map)) with (t' := 100) (max_sleep := 500) (status := 1) (slot := 0) in R; [|lia|vm_compute; reflexivity].
  eapply (brun_acquire (H := redis_map)) with (t' := 200) (max_sleep := 500) (status := 0) (slot := 1000) in R; [|lia|vm_compute; reflexivity].
  eapply (brun_acquire (H := redis_map)) with (t' := 1000) (max_sleep := 500) (status := 1) (slot := 1000) in R; [|lia|vm_compute; reflexivity].
  exact R.
Qed.

Lemma rate_witness : (granted [(true, 0, 0); (true, 0, 100); (false, 1000, 200)] + 1 ≤ 2 + 1 * ((1000 - 0) / 1000))%Z.
Proof.
  exact (proj1 (bucket_rate (H := redis_map) "k" 2 1 1000 0 ∅ [(true, 0, 0); (true, 0, 100); (false, 1000, 200)]
    1000 1000 [] 1000 _ ltac:(lia) ltac:(lia) ltac:(lia) eq_refl tries_run)).
Defined.

Definition llm : AsyncTokenBucket :=
  {| name := "k"; capacity := 2; refill_amount := 1; refill_frequency := 1000; key_prefix := "b" |}.

Lemma bounds_witness : ∃ db' h s wait, acquire (H := redis_map) llm (Some 0) 5 ∅ = (db', h, s, Ok wait) ∧ (wait ≤ 0)%Z.
Proof.
  do 4 eexists. split; [reflexivity|].
  exact (proj2 (proj1 (bucket_acquire_bounds (H := redis_map) llm 0 0 ∅ [] 0 ∅ 5 _ _ _ (Ok _)
    ltac:(cbn; lia) ltac:(cbn; lia) ltac:(cbn; lia) ltac:(lia) eq_refl (brun_nil (H := redis_map) _ _ _ _ _ _) ltac:(lia) eq_refl))).
Defined.

End BucketWitness.
