(* ===== verification/Quota.v ===== *)
(** The admission quota (src/packages/core/src/orditect/core/redis/quota_db.py
    with lua/quota_reserve.lua and lua/quota_release.lua).

    A scope has a counter of the units in use, a sorted set of leases (a task
    and the instant of its reservation) and a hash of their units.  The scripts
    keep the three together while each may expire on its own.  Units are
    integers below 10^14, where the scripts' number formatting is exact. *)
From Stdlib Require Import ZArith Lia.
From stdpp Require Import prelude gmap list strings sorting.
From S2P Require Import Prelude Redis.
Local Open Scope list_scope.
Local Open Scope Z_scope.

(** ** The scripts *)

Inductive quota_reason := Done | InvalidUnits | InvalidMaxUnits | AlreadyReserved | LimitExceeded | NotReserved.

(** What a script returns as JSON; [q_amount] is its field [reserved] or [released]. *)
Record quota_result := { q_ok : bool; q_reason : quota_reason; q_current : Z; q_amount : Z }.

(** The order of [ZRANGE]: by score, then by member. *)
Definition score_le (a b : string * Z) : bool :=
  (a.2 <? b.2) || (a.2 =? b.2) && String.leb a.1 b.1.

Section Scripts.

Context `{Redis}.

Definition units_key (leases_key : string) : string := (leases_key +:+ ":units")%string.

(** [ZRANGE k 0 -1] and [ZRANGEBYSCORE k -inf max] *)
Definition zrange (now : Z) (k : string) (db : DB) : list string :=
  (isort score_le (map_to_list (zset now k db))).*1.
Definition zrangebyscore (now : Z) (k : string) (max : Z) (db : DB) : list string :=
  (isort score_le (map_to_list (filter (λ ms, ms.2 ≤ max) (zset now k db)))).*1.

(** [tonumber(HGET k f or "0")] *)
Definition hget_num (now : Z) (k f : string) (db : DB) : Z := default 0 (hget now k f db).

Definition bump_pending_ttl (now : Z) (pending_key : string) (leases_ttl : Z) (db : DB) : DB :=
  let t := ttl now pending_key db in
  if (t =? -1) || (t <? leases_ttl) then expire now pending_key leases_ttl db else db.

(** The body of the reaping loop. *)
Definition reap (now : Z) (pending_key leases_key : string) (leases_ttl : Z) (db : DB) (expired_task_id : string) : DB :=
  let db :=
    match hget now (units_key leases_key) expired_task_id db with
    | Some expired_units =>
        let db :=
          if exists_key now pending_key db then
            let current := get_num now pending_key db in
            let nextv := Z.max 0 (current - expired_units) in
            let db := set now pending_key (SNum nextv) None db in
            bump_pending_ttl now pending_key leases_ttl db
          else db in
        hdel now (units_key leases_key) expired_task_id db
    | None => db
    end in
  zrem now leases_key expired_task_id db.

(** The sum over the leases from which a dead counter is rebuilt. *)
Definition rebuild (now : Z) (leases_key : string) (db : DB) : Z :=
  fold_left (λ total member, total + hget_num now (units_key leases_key) member db) (zrange now leases_key db) 0.

Definition quota_reserve (now : Z) (pending_key leases_key : string) (units max_units task_ttl : Z) (task_id : string)
    (db : DB) : DB * quota_result :=
  let leases_ttl := Z.max 1 (task_ttl * 2) in
  if units <? 0 then
    (db, {| q_ok := false; q_reason := InvalidUnits; q_current := get_num now pending_key db; q_amount := 0 |})
  else if max_units <=? 0 then
    (db, {| q_ok := false; q_reason := InvalidMaxUnits; q_current := get_num now pending_key db; q_amount := 0 |})
  else
  let ttl_ms := task_ttl * 1000 in
  let expired := zrangebyscore now leases_key (now - ttl_ms) db in
  let db := fold_left (reap now pending_key leases_key leases_ttl) expired db in
  match zscore now leases_key task_id db with
  | Some _ =>
      let db := zadd now leases_key now task_id db in
      let db := expire now leases_key leases_ttl db in
      let db := expire now (units_key leases_key) leases_ttl db in
      let existing_units := hget_num now (units_key leases_key) task_id db in
      let db :=
        if exists_key now pending_key db then bump_pending_ttl now pending_key leases_ttl db
        else set now pending_key (SNum (rebuild now leases_key db)) (Some leases_ttl) db in
      (db, {| q_ok := true; q_reason := AlreadyReserved; q_current := get_num now pending_key db; q_amount := existing_units |})
  | None =>
      let '(db, current) :=
        if exists_key now pending_key db then (db, get_num now pending_key db)
        else
          let current := rebuild now leases_key db in
          (if 0 <? current then set now pending_key (SNum current) (Some leases_ttl) db else db, current) in
      let nextv := current + units in
      if max_units <? nextv then
        (db, {| q_ok := false; q_reason := LimitExceeded; q_current := current; q_amount := 0 |})
      else
        let db := set now pending_key (SNum nextv) None db in
        let db := bump_pending_ttl now pending_key leases_ttl db in
        let db := zadd now leases_key now task_id db in
        let db := hset now (units_key leases_key) task_id units db in
        let db := expire now leases_key leases_ttl db in
        let db := expire now (units_key leases_key) leases_ttl db in
        (db, {| q_ok := true; q_reason := Done; q_current := nextv; q_amount := units |})
  end.

Definition quota_release (now : Z) (pending_key leases_key task_id : string) (fallback_ttl : Z) (db : DB)
  : DB * quota_result :=
  match zscore now leases_key task_id db with
  | None =>
      (db, {| q_ok := true; q_reason := NotReserved; q_current := get_num now pending_key db; q_amount := 0 |})
  | Some _ =>
      let units := hget_num now (units_key leases_key) task_id db in
      let pttl := ttl now pending_key db in
      let current := get_num now pending_key db in
      let nextv := Z.max 0 (current - units) in
      let db :=
        if (nextv =? 0) && (pttl <=? 0) then del now pending_key db
        else
          let db := set now pending_key (SNum nextv) None db in
          if 0 <? pttl then expire now pending_key pttl db else expire now pending_key fallback_ttl db in
      let db := zrem now leases_key task_id db in
      let db := hdel now (units_key leases_key) task_id db in
      (db, {| q_ok := true; q_reason := Done; q_current := nextv; q_amount := units |})
  end.

End Scripts.

(** ** The store *)

Section Store.

Context `{Redis}.

Record AdmissionQuotaRedisDB := { quota_prefix : string; default_expire_time : Z }.

(** [str.strip] is not modelled: scopes are given without surrounding space. *)
Definition _pending_key (d : AdmissionQuotaRedisDB) (scope : string) : option string :=
  if decide (scope = "") then None else Some (quota_prefix d +:+ ":" +:+ scope +:+ ":pending_units")%string.
Definition _leases_key (d : AdmissionQuotaRedisDB) (scope : string) : option string :=
  if decide (scope = "") then None else Some (quota_prefix d +:+ ":" +:+ scope +:+ ":leases")%string.

(** [ValueError] for an empty scope. *)
Definition reserve_units (d : AdmissionQuotaRedisDB) (now : Z) (scope task_id : string) (units max_units : Z)
    (task_ttl_sec : option Z) (db : DB) : res unit (DB * quota_result) :=
  let ttl := match task_ttl_sec with Some t => t | None => default_expire_time d end in
  let ttl := if ttl <=? 0 then default_expire_time d else ttl in
  match _pending_key d scope, _leases_key d scope with
  | Some p, Some l => Ok (quota_reserve now p l units max_units ttl task_id db)
  | _, _ => Err tt
  end.

Definition release_units (d : AdmissionQuotaRedisDB) (now : Z) (scope task_id : string) (db : DB)
  : res unit (DB * quota_result) :=
  match _pending_key d scope, _leases_key d scope with
  | Some p, Some l => Ok (quota_release now p l task_id (default_expire_time d) db)
  | _, _ => Err tt
  end.

Definition get_pending_units (d : AdmissionQuotaRedisDB) (now : Z) (scope : string) (db : DB) : res unit Z :=
  match _pending_key d scope with Some p => Ok (get_num now p db) | None => Err tt end.

Definition get_task_reserved_units (d : AdmissionQuotaRedisDB) (now : Z) (scope task_id : string) (db : DB) : res unit Z :=
  match _leases_key d scope with Some l => Ok (hget_num now (units_key l) task_id db) | None => Err tt end.

End Store.

(** ** The counter never falls below the leases *)

(** The units of a hash. *)
Definition total (h : gmap string Z) : Z := map_fold (λ _ u acc, u + acc) 0 h.

Lemma total_insert h k u : h !! k = None → total (<[k := u]> h) = u + total h.
Proof. intros Hk. unfold total. rewrite map_fold_insert_L; [done| |done]. intros. lia. Qed.

Lemma total_lookup h k u : h !! k = Some u → total h = u + total (delete k h).
Proof. intros Hk. unfold total. rewrite (map_fold_delete_L _ _ k u); [done| |done]. intros. lia. Qed.

Lemma total_nonneg h : map_Forall (λ _ u, 0 ≤ u) h → 0 ≤ total h.
Proof.
  induction h as [|k u h Hk IH] using map_ind; [done|]. intros Hf.
  rewrite total_insert by done. apply map_Forall_insert in Hf as [Hu Hh]; [|done]. apply IH in Hh. lia.
Qed.

Lemma fold_left_sum {A} (f : A → Z) l acc : fold_left (λ s x, s + f x) l acc = acc + foldr (λ x s, f x + s) 0 l.
Proof. revert acc. induction l as [|x l IH]; intros acc; simpl; [lia|]. rewrite IH. lia. Qed.

Lemma foldr_sum_perm {A} (f : A → Z) l l' : l ≡ₚ l' → foldr (λ x s, f x + s) 0 l = foldr (λ x s, f x + s) 0 l'.
Proof. induction 1; simpl; lia. Qed.

Lemma elem_of_map_keys (m : gmap string Z) k : k ∈ (map_to_list m).*1 ↔ k ∈ dom m.
Proof.
  rewrite elem_of_dom, list_elem_of_fmap. split.
  - intros ([k' v] & -> & Hin). exists v. by apply elem_of_map_to_list.
  - intros [v Hv]. exists (k, v). split; [done|]. by apply elem_of_map_to_list.
Qed.

Section Invariant.

Context `{Redis}.
Context (pk lk : string) (Hpl : pk ≠ lk) (Hpu : pk ≠ units_key lk).

Lemma lk_uk : lk ≠ units_key lk.
Proof.
  clear. unfold units_key. induction lk as [|c l IH]; simpl; [done|]. by intros [= E].
Qed.

(** The units of the live leases. *)
Definition leased (t : Z) (db : DB) : Z := total (hash t (units_key lk) db).

(** A live counter counts at least [n]. *)
Definition counts (e : option rentry) (n : Z) : Prop :=
  match e with
  | None => True
  | Some {| rval := VStr (SNum p) |} => n ≤ p
  | Some _ => False
  end.

Lemma counts_le e n n' : counts e n → n' ≤ n → counts e n'.
Proof. destruct e as [[[[]| | |] ?]|]; simpl; try done; lia. Qed.

Lemma counts_live t e n n' : counts e n → n' ≤ n → counts (live t e) n'.
Proof.
  intros Hc Hn. pose proof (counts_le _ _ _ Hc Hn) as Hc'. rewrite live_exp. destruct (exp_of e) as [x|]; [destruct (decide (t < x))|]; done.
Qed.

Record quota_ok (t : Z) (db : DB) : Prop := {
  ok_leases : at_ t lk db = zset_entry (zset t lk db) (exp_of (at_ t lk db));
  ok_hash : at_ t (units_key lk) db = hash_entry (hash t (units_key lk) db) (exp_of (at_ t (units_key lk) db));
  ok_dom : dom (zset t lk db) = dom (hash t (units_key lk) db);
  ok_exp : exp_of (at_ t lk db) = exp_of (at_ t (units_key lk) db);
  ok_units : map_Forall (λ _ u, 0 ≤ u) (hash t (units_key lk) db);
  ok_pending : counts (at_ t pk db) (leased t db)
}.

Lemma quota_ok_later t t' db : quota_ok t db → t ≤ t' → quota_ok t' db.
Proof.
  intros [H5 H6 H1 H2 H3 H4] Ht. unfold leased, zset, hash in *.
  assert (at_ t' lk db = at_ t lk db ∧ at_ t' (units_key lk) db = at_ t (units_key lk) db
          ∨ at_ t' lk db = None ∧ at_ t' (units_key lk) db = None) as [[E1 E2]|[E1 E2]].
  { rewrite !(at_later t t') by done. rewrite !(live_exp t'), H2.
    destruct (exp_of (at_ t (units_key lk) db)) as [x|]; [destruct (decide (t' < x))|]; auto. }
  - split; unfold leased, zset, hash; rewrite ?E1, ?E2; try done. rewrite (at_later t t') by done. by eapply counts_live.
  - split; unfold leased, zset, hash; rewrite ?E1, ?E2; try done. rewrite (at_later t t') by done.
    eapply counts_live; [done|]. apply total_nonneg in H3. done.
Qed.

(** The counter alone is rewritten. *)
Lemma quota_ok_set_pending t db db' : quota_ok t db → at_ t lk db' = at_ t lk db → at_ t (units_key lk) db' = at_ t (units_key lk) db →
  counts (at_ t pk db') (leased t db) → quota_ok t db'.
Proof. intros [H5 H6 H1 H2 H3 H4] E2 E3 Hp. unfold leased, zset, hash in *. by split; unfold leased, zset, hash; rewrite ?E2, ?E3. Qed.

Lemma bump_at t l db : 0 < l → ∃ x,
  at_ t pk (bump_pending_ttl t pk l db) = (λ r, {| rval := rval r; rexp := x |}) <$> at_ t pk db
  ∧ at_ t lk (bump_pending_ttl t pk l db) = at_ t lk db
  ∧ at_ t (units_key lk) (bump_pending_ttl t pk l db) = at_ t (units_key lk) db.
Proof.
  intros Hl. unfold bump_pending_ttl. destruct (_ || _).
  - eexists. autorewrite with redis_at. by split_and!.
  - exists (exp_of (at_ t pk db)). split_and!; [|done..]. by destruct (at_ t pk db) as [[]|].
Qed.

(** A counter set to [p] and kept alive. *)
Lemma bump_set_at t l db p : 0 < l → let db' := bump_pending_ttl t pk l (set t pk (SNum p) None db) in
  (∃ x, at_ t pk db' = Some {| rval := VStr (SNum p); rexp := x |})
  ∧ at_ t lk db' = at_ t lk db ∧ at_ t (units_key lk) db' = at_ t (units_key lk) db.
Proof.
  intros Hl db'. destruct (bump_at t l (set t pk (SNum p) None db) Hl) as (x & E1 & E2 & E3).
  autorewrite with redis_at in E1, E2, E3. split_and!; [|done..]. eexists. exact E1.
Qed.

(** A task taken out of the leases. *)
Lemma quota_ok_out t db db1 db' task : quota_ok t db →
  at_ t lk db1 = at_ t lk db → at_ t (units_key lk) db1 = at_ t (units_key lk) db →
  counts (at_ t pk db1) (leased t db - hget_num t (units_key lk) task db) →
  at_ t pk db' = at_ t pk db1 →
  at_ t lk db' = zset_entry (delete task (zset t lk db1)) (exp_of (at_ t lk db1)) →
  at_ t (units_key lk) db' = hash_entry (delete task (hash t (units_key lk) db1)) (exp_of (at_ t (units_key lk) db1)) →
  quota_ok t db'.
Proof.
  intros [H5 H6 H1 H2 H3 H4] E1 E2 Hp Ep El Eu. unfold leased, zset, hash, hget_num, hget in *. rewrite E1, E2 in *.
  split; unfold leased, zset, hash, hget in *; rewrite ?El, ?Eu, ?Ep, ?as_zset_entry, ?as_hash_entry, ?exp_zset_entry, ?exp_hash_entry.
  - unfold zset_entry. by destruct (decide _).
  - unfold hash_entry. by destruct (decide _).
  - by rewrite !dom_delete_L, H1.
  - assert (delete task (as_zset (at_ t lk db)) = ∅ ↔ delete task (as_hash (at_ t (units_key lk) db)) = ∅) as Hiff.
    { rewrite <- !dom_empty_iff_L, !dom_delete_L. unfold zset in H1. by rewrite H1. }
    repeat case_decide; tauto.
  - by apply map_Forall_delete.
  - eapply counts_le; [done|]. unfold hash. destruct (as_hash (at_ t (units_key lk) db) !! task) as [u|] eqn:Eq; simpl.
    + rewrite (total_lookup _ _ _ Eq). lia.
    + rewrite delete_id by done. lia.
Qed.


Lemma get_num_counts t db n : counts (at_ t pk db) n → exists_key t pk db = true → n ≤ get_num t pk db.
Proof. unfold exists_key, get_num, get. by destruct (at_ t pk db) as [[[[]| | |] ?]|]. Qed.

Lemma exists_key_false t db n : exists_key t pk db = false → counts (at_ t pk db) n.
Proof. unfold exists_key. by destruct (at_ t pk db). Qed.

(** One expired lease is reaped. *)
Lemma reap_ok t l db task : 0 < l → quota_ok t db → quota_ok t (reap t pk lk l db task).
Proof.
  intros Hl Hok. pose proof lk_uk as Hlu. unfold reap.
  destruct (hget t (units_key lk) task db) as [u|] eqn:Eu.
  - destruct (exists_key t pk db) eqn:Ee.
    + set (p := Z.max 0 (get_num t pk db - u)).
      destruct (bump_set_at t l db p Hl) as ((x & E1) & E2 & E3).
      eapply (quota_ok_out t db (bump_pending_ttl t pk l (set t pk (SNum p) None db))); [done..| | | |];
        redis_at; rewrite ?E1; try done.
      pose proof (get_num_counts _ _ _ (ok_pending _ _ Hok) Ee). unfold hget_num. rewrite Eu. simpl. lia.
    + eapply (quota_ok_out t db db); [done..| | | |]; redis_at; try done. by apply exists_key_false.
  - eapply (quota_ok_out t db db); [done..| | | |]; redis_at; try done.
    + eapply counts_le; [apply Hok|]. unfold hget_num. rewrite Eu. simpl. lia.
    + unfold hget in Eu. rewrite delete_id by done. apply Hok.
Qed.

Lemma reaps_ok t l db tasks : 0 < l → quota_ok t db → quota_ok t (fold_left (reap t pk lk l) tasks db).
Proof. intros Hl. revert db. induction tasks as [|m tasks IH]; intros db Hok; [done|]. simpl. by apply IH, reap_ok. Qed.

(** The rebuilt counter is the sum of the leases. *)
Lemma rebuild_leased t db : dom (zset t lk db) = dom (hash t (units_key lk) db) → rebuild t lk db = leased t db.
Proof.
  intros Hd. unfold rebuild, leased, hget_num, hget. set (z := zset t lk db) in *. set (h := hash t (units_key lk) db) in *.
  rewrite fold_left_sum, Z.add_0_l.
  assert ((isort score_le (map_to_list z)).*1 ≡ₚ (map_to_list h).*1) as Hp.
  { rewrite isort_perm. apply NoDup_Permutation; [apply NoDup_fst_map_to_list..|]. intros k.
    by rewrite !elem_of_map_keys, Hd. }
  unfold zrange. fold z. rewrite (foldr_sum_perm _ _ _ Hp). unfold total. rewrite map_fold_foldr.
  assert (∀ l, l ⊆ map_to_list h → foldr (λ k s, default 0 (h !! k) + s) 0 l.*1
    = foldr (uncurry (λ _ u acc, u + acc)) 0 l) as Hl; [|by apply Hl].
  induction l as [|[k u] l IH]; intros Hs; [done|]. rewrite fmap_cons. cbn [foldr fst uncurry].
  assert (h !! k = Some u) as -> by (apply elem_of_map_to_list, Hs; by left).
  rewrite IH; [done|]. intros x Hx. apply Hs. by right.
Qed.

(** A lease written or renewed, the counter already counting it. *)
Lemma quota_ok_in t l db db' task u : 0 < l → quota_ok t db → 0 ≤ u →
  at_ t lk db' = at_ t lk (expire t lk l (zadd t lk t task db)) →
  (at_ t (units_key lk) db' = at_ t (units_key lk) (expire t (units_key lk) l (hset t (units_key lk) task u db))) →
  counts (at_ t pk db') (total (<[task := u]> (hash t (units_key lk) db))) → quota_ok t db'.
Proof.
  intros Hl [H5 H6 H1 H2 H3 H4] Hu El Eu Hp.
  assert (Ez : zset t lk db' = <[task := t]> (zset t lk db)).
  { unfold zset at 1. rewrite El. fold (zset t lk (expire t lk l (zadd t lk t task db))). by rewrite zset_expire, zset_zadd. }
  assert (Eh : hash t (units_key lk) db' = <[task := u]> (hash t (units_key lk) db)).
  { unfold hash at 1. rewrite Eu. redis_at. unfold hash_entry. rewrite decide_False by apply insert_non_empty. done. }
  assert (Exl : at_ t lk db' = Some {| rval := VZset (<[task := t]> (zset t lk db)); rexp := Some (t + l * 1000) |}).
  { rewrite El. redis_at. unfold zset_entry. by rewrite decide_False by apply insert_non_empty. }
  assert (Exu : at_ t (units_key lk) db' = Some {| rval := VHash (<[task := u]> (hash t (units_key lk) db)); rexp := Some (t + l * 1000) |}).
  { rewrite Eu. redis_at. unfold hash_entry. by rewrite decide_False by apply insert_non_empty. }
  split.
  - rewrite Ez, Exl. simpl. unfold zset_entry. by rewrite decide_False by apply insert_non_empty.
  - rewrite Eh, Exu. simpl. unfold hash_entry. by rewrite decide_False by apply insert_non_empty.
  - by rewrite Ez, Eh, !dom_insert_L, H1.
  - by rewrite Exl, Exu.
  - rewrite Eh. by apply map_Forall_insert_2.
  - unfold leased. by rewrite Eh.
Qed.

(** The renewal of a lease, and what it answers. *)
Lemma renew_ok t l db task : 0 < l → quota_ok t db → is_Some (zscore t lk task db) →
  let db1 := expire t (units_key lk) l (expire t lk l (zadd t lk t task db)) in
  let db' := if exists_key t pk db1 then bump_pending_ttl t pk l db1
             else set t pk (SNum (rebuild t lk db1)) (Some l) db1 in
  quota_ok t db' ∧ leased t db' = leased t db ∧ leased t db' ≤ get_num t pk db'.
Proof.
  intros Hl Hok [s Hs] db1 db'. pose proof lk_uk as Hlu.
  assert (∃ u, hash t (units_key lk) db !! task = Some u) as [u Hu].
  { apply elem_of_dom. rewrite <- (ok_dom _ _ Hok). apply elem_of_dom. by exists s. }
  assert (Hu0 : 0 ≤ u) by (by apply (ok_units _ _ Hok task)).
  assert (Ep : at_ t pk db1 = at_ t pk db) by (unfold db1; by redis_at).
  assert (El : at_ t lk db1 = at_ t lk (expire t lk l (zadd t lk t task db))) by (unfold db1; by redis_at).
  assert (Eu : at_ t (units_key lk) db1 = at_ t (units_key lk) (expire t (units_key lk) l (hset t (units_key lk) task u db))).
  { unfold db1. redis_at. fold (hash t (units_key lk) db). rewrite insert_id by done. rewrite (ok_hash _ _ Hok) at 1.
    unfold hash_entry. by destruct (decide _). }
  assert (Hd1 : quota_ok t db1).
  { eapply (quota_ok_in t l db db1 task u); [done..|]. rewrite Ep, insert_id by done. apply Hok. }
  assert (Hl1 : leased t db1 = leased t db).
  { unfold leased. f_equal. unfold hash at 1. rewrite Eu. redis_at. fold (hash t (units_key lk) db).
    rewrite insert_id by done. unfold hash_entry. destruct (decide _) as [E|]; [by rewrite E in Hu|done]. }
  unfold db'. destruct (exists_key t pk db1) eqn:Ee.
  - destruct (bump_at t l db1 Hl) as (x & B1 & B2 & B3).
    assert (quota_ok t (bump_pending_ttl t pk l db1)) as Hb.
    { eapply quota_ok_set_pending; [done..|]. rewrite B1. pose proof (ok_pending _ _ Hd1).
      by destruct (at_ t pk db1) as [[[[]| | |] ?]|]. }
    assert (El' : leased t (bump_pending_ttl t pk l db1) = leased t db1) by (unfold leased, hash; by rewrite B3).
    split_and!; [done|congruence|]. apply get_num_counts; [apply Hb|].
    unfold exists_key in *. rewrite B1. by destruct (at_ t pk db1).
  - rewrite rebuild_leased by apply Hd1.
    assert (El' : leased t (set t pk (SNum (leased t db1)) (Some l) db1) = leased t db1) by (unfold leased, hash; by redis_at).
    split_and!.
    + eapply quota_ok_set_pending; [done|by redis_at..|]. redis_at. simpl. lia.
    + congruence.
    + rewrite El'. unfold get_num, get. redis_at. simpl. lia.
Qed.

(** A new lease. *)
Lemma admit_ok t l db task units cur : 0 < l → quota_ok t db → zscore t lk task db = None → 0 ≤ units → leased t db ≤ cur →
  let db' := expire t (units_key lk) l (expire t lk l (hset t (units_key lk) task units (zadd t lk t task
               (bump_pending_ttl t pk l (set t pk (SNum (cur + units)) None db))))) in
  quota_ok t db' ∧ leased t db' = leased t db + units ∧ get_num t pk db' = cur + units ∧ zscore t lk task db' = Some t
  ∧ hget t (units_key lk) task db' = Some units ∧ ∀ x, exp_of (at_ t lk db') = Some x → x = t + l * 1000.
Proof.
  intros Hl Hok Hs Hu Hc db'. pose proof lk_uk as Hlu.
  destruct (bump_set_at t l db (cur + units) Hl) as ((x & B1) & B2 & B3).
  set (db1 := bump_pending_ttl t pk l (set t pk (SNum (cur + units)) None db)) in *.
  assert (Hh : hash t (units_key lk) db !! task = None).
  { apply not_elem_of_dom. rewrite <- (ok_dom _ _ Hok). by apply not_elem_of_dom. }
  assert (Eh : hash t (units_key lk) db' = <[task := units]> (hash t (units_key lk) db)).
  { unfold hash at 1, db'. redis_at. unfold hash_entry. rewrite decide_False by apply insert_non_empty. simpl.
    unfold hash. by rewrite B3. }
  assert (Ez : zset t lk db' = <[task := t]> (zset t lk db)).
  { unfold zset at 1, db'. redis_at. unfold zset_entry. rewrite decide_False by apply insert_non_empty. simpl.
    unfold zset. by rewrite B2. }
  assert (Ep : at_ t pk db' = Some {| rval := VStr (SNum (cur + units)); rexp := x |}) by (unfold db'; redis_at; by rewrite B1).
  assert (Et : leased t db' = leased t db + units) by (unfold leased; rewrite Eh, total_insert by done; lia).
  split_and!.
  - eapply (quota_ok_in t l db db' task units); [done..| | |]; unfold db'; redis_at; unfold zset, hash; rewrite ?B1, ?B2, ?B3; [done..|].
    simpl. rewrite total_insert by done. unfold leased, hash in Hc. unfold hash. lia.
  - done.
  - unfold get_num, get. by rewrite Ep.
  - unfold zscore. rewrite Ez. apply lookup_insert_eq.
  - unfold hget. rewrite Eh. apply lookup_insert_eq.
  - intros y. unfold db'. rewrite at_expire_ne by done. by apply exp_expire.
Qed.

(** *** The scripts *)

Lemma zscore_None_later t t' db k : t ≤ t' → zscore t lk k db = None → zscore t' lk k db = None.
Proof. intros Ht Hk. unfold zscore in *. by destruct (zset_later t t' lk db Ht) as [[-> _]|[-> _]]. Qed.

Lemma quota_reserve_ok t units max_units ttl task db db' r : quota_ok t db →
  quota_reserve t pk lk units max_units ttl task db = (db', r) →
  quota_ok t db' ∧
  match q_reason r with
  | Done => q_ok r = true ∧ q_amount r = units ∧ 0 ≤ units ∧ leased t db' ≤ q_current r ≤ max_units
            ∧ zscore t lk task db' = Some t ∧ hget t (units_key lk) task db' = Some units
            ∧ ∀ x, exp_of (at_ t lk db') = Some x → t + ttl * 1000 ≤ x
  | AlreadyReserved => q_ok r = true ∧ leased t db' ≤ q_current r
  | LimitExceeded => q_ok r = false ∧ q_amount r = 0 ∧ max_units < q_current r + units
  | InvalidUnits => q_ok r = false ∧ units < 0 ∧ db' = db
  | InvalidMaxUnits => q_ok r = false ∧ max_units ≤ 0 ∧ db' = db
  | NotReserved => False
  end.
Proof.
  intros Hok Hx. revert Hx. unfold quota_reserve. set (l := Z.max 1 (ttl * 2)). assert (Hl : 0 < l) by lia.
  destruct (Z.ltb_spec units 0); [by intros [= <- <-]|].
  destruct (Z.leb_spec max_units 0); [by intros [= <- <-]|].
  set (db1 := fold_left _ _ db). assert (Hok1 : quota_ok t db1) by (by apply reaps_ok).
  destruct (zscore t lk task db1) as [s|] eqn:Es.
  - destruct (renew_ok t l db1 task Hl Hok1) as (R1 & R2 & R3); [by rewrite Es|].
    intros [= <- <-]. simpl. split_and!; [exact R1|done|exact R3].
  - destruct (exists_key t pk db1) eqn:Ee.
    + pose proof (get_num_counts _ _ _ (ok_pending _ _ Hok1) Ee) as Hc.
      destruct (Z.ltb_spec max_units (get_num t pk db1 + units)); intros [= <- <-]; simpl; [split_and!; [done..|lia]|].
      destruct (admit_ok t l db1 task units (get_num t pk db1) Hl Hok1 Es) as (R1 & R2 & R3 & R4 & R5 & R6); [done|exact Hc|].
      split_and!; [exact R1|done|done|done| |done|exact R4|exact R5|]; [rewrite R2; lia|]. intros x ->%R6. lia.
    + rewrite rebuild_leased by apply Hok1.
      set (db2 := if 0 <? leased t db1 then _ else db1).
      assert (quota_ok t db2 ∧ leased t db2 = leased t db1 ∧ zscore t lk task db2 = None) as (Hok2 & El & Es2).
      { unfold db2. destruct (_ <? _); [|done]. pose proof lk_uk as Hlu.
        split_and!; [|unfold leased, hash; by redis_at|revert Es; unfold zscore; by redis_at].
        eapply quota_ok_set_pending; [done|by redis_at..|]. redis_at. simpl. lia. }
      destruct (Z.ltb_spec max_units (leased t db1 + units)); intros [= <- <-]; simpl; [split_and!; [done..|lia]|].
      destruct (admit_ok t l db2 task units (leased t db1) Hl Hok2 Es2) as (R1 & R2 & R3 & R4 & R5 & R6); [done|lia|].
      split_and!; [exact R1|done|done|done| |done|exact R4|exact R5|]; [rewrite R2, El; lia|]. intros x ->%R6. lia.
Qed.

Lemma quota_release_ok t task fallback db db' r : 0 < fallback → quota_ok t db →
  quota_release t pk lk task fallback db = (db', r) →
  quota_ok t db' ∧ q_ok r = true ∧ zscore t lk task db' = None ∧
  match q_reason r with
  | Done => is_Some (zscore t lk task db) ∧ q_amount r = hget_num t (units_key lk) task db ∧ leased t db' = leased t db - q_amount r
            ∧ q_current r = Z.max 0 (get_num t pk db - q_amount r) ∧ get_num t pk db' = q_current r
  | NotReserved => zscore t lk task db = None ∧ db' = db
  | _ => False
  end.
Proof.
  intros Hf Hok. pose proof lk_uk as Hlu. unfold quota_release. destruct (zscore t lk task db) as [s|] eqn:Es; [|by intros [= <- <-]].
  set (u := hget_num t (units_key lk) task db). set (nx := Z.max 0 (get_num t pk db - u)).
  set (db1 := if (nx =? 0) && _ then _ else _). intros [= <- <-]. simpl.
  assert (at_ t lk db1 = at_ t lk db ∧ at_ t (units_key lk) db1 = at_ t (units_key lk) db) as [E1 E2].
  { unfold db1. destruct (_ && _); [by redis_at|]. destruct (0 <? ttl t pk db); by redis_at. }
  assert (0 ≤ u) as Hu0.
  { unfold u, hget_num, hget. destruct (_ !! task) as [v|] eqn:Ev; [|done]. by apply (ok_units _ _ Hok task). }
  assert (at_ t pk db1 = None ∧ nx = 0 ∨ exists_key t pk db = true ∧ ∃ x, at_ t pk db1 = Some {| rval := VStr (SNum nx); rexp := x |}) as Hp.
  { destruct (exists_key t pk db) eqn:Ee.
    - unfold db1. destruct (Z.eqb_spec nx 0), (Z.leb_spec (ttl t pk db) 0); simpl; [left; by redis_at|..];
        right; (split; [done|]); destruct (Z.ltb_spec 0 (ttl t pk db)); try lia; eexists; by redis_at.
    - left. pose proof (ttl_spec t pk db) as Ht. fold (at_ t pk db) in Ht.
      unfold exists_key in Ee. destruct (at_ t pk db) eqn:Ea; [done|].
      assert (nx = 0) as E0 by (unfold nx, get_num, get; rewrite Ea; simpl; lia).
      unfold db1. rewrite E0, Ht. simpl. by redis_at. }
  assert (Hh : is_Some (hash t (units_key lk) db !! task)).
  { apply elem_of_dom. rewrite <- (ok_dom _ _ Hok). apply elem_of_dom. by exists s. }
  destruct Hh as [u' Hu']. assert (u = u') as Eu by (unfold u, hget_num, hget; by rewrite Hu').
  set (db' := hdel _ _ _ _).
  assert (Ep : at_ t pk db' = at_ t pk db1) by (unfold db'; by redis_at).
  split_and!.
  - eapply (quota_ok_out t db db1 db' task); [done..| |exact Ep| |]; [|unfold db'; by redis_at..].
    destruct Hp as [[-> _]|[Ee [x ->]]]; [done|]. simpl. fold u. unfold nx.
    pose proof (get_num_counts _ _ _ (ok_pending _ _ Hok) Ee). lia.
  - done.
  - unfold zscore, db'. redis_at. apply lookup_delete_eq.
  - done.
  - done.
  - unfold leased. assert (hash t (units_key lk) db' = delete task (hash t (units_key lk) db)) as ->.
    { unfold hash at 1, db'. redis_at. by rewrite E2. }
    rewrite (total_lookup _ _ _ Hu'). lia.
  - done.
  - unfold get_num at 1, get. rewrite Ep. destruct Hp as [[-> ->]|[_ [x ->]]]; done.
Qed.

(** *** Runs *)

Inductive qcall := Reserve (task : string) (units max_units task_ttl : Z) | Release (task : string) (fallback : Z).

Definition qexec (t : Z) (c : qcall) (db : DB) : DB * quota_result :=
  match c with
  | Reserve task units max_units task_ttl => quota_reserve t pk lk units max_units task_ttl task db
  | Release task fallback => quota_release t pk lk task fallback db
  end.

Definition sane (c : qcall) : Prop := match c with Reserve _ _ _ _ => True | Release _ f => 0 < f end.

(** Scripts of any number of clients on the scope, and changes of other keys. *)
Inductive quota_run (t0 : Z) (db0 : DB) : list (Z * qcall * quota_result) → Z → DB → Prop :=
  | qrun_nil : quota_run t0 db0 [] t0 db0
  | qrun_other tr t db t' db' :
      quota_run t0 db0 tr t db → t ≤ t' → at_ t' pk db' = at_ t' pk db → at_ t' lk db' = at_ t' lk db →
      at_ t' (units_key lk) db' = at_ t' (units_key lk) db → quota_run t0 db0 tr t' db'
  | qrun_call tr t db t' c db' r :
      quota_run t0 db0 tr t db → t ≤ t' → sane c → qexec t' c db = (db', r) → quota_run t0 db0 (tr ++ [(t', c, r)]) t' db'.

Definition unused (t : Z) (db : DB) : Prop := at_ t pk db = None ∧ at_ t lk db = None ∧ at_ t (units_key lk) db = None.

Lemma unused_ok t db : unused t db → quota_ok t db.
Proof. intros (E1 & E2 & E3). split; unfold leased, zset, hash; rewrite ?E1, ?E2, ?E3; done. Qed.

Lemma quota_run_ok t0 db0 tr t db : quota_run t0 db0 tr t db → unused t0 db0 → quota_ok t db ∧ t0 ≤ t.
Proof.
  intros Hr H0. induction Hr as [|tr t db t' db' Hr [IH Ht0] Ht E1 E2 E3|tr t db t' c db' r Hr [IH Ht0] Ht Hc Hx].
  - split; [by apply unused_ok|done].
  - split; [|lia]. apply (quota_ok_later t t') in IH as [H1 H2 H3 H4 H5 H6]; [|done].
    unfold leased, zset, hash in *. by split; unfold leased, zset, hash; rewrite ?E1, ?E2, ?E3.
  - split; [|lia]. apply (quota_ok_later t t') in IH; [|done]. destruct c as [task u m l|task f]; cbn in Hx.
    + by apply quota_reserve_ok in Hx as [? _].
    + by apply quota_release_ok in Hx as [? _].
Qed.

(** *** A lease is kept *)

(** The leases and the units after the reaping: what has not expired. *)
Lemma reaps_keep t l db tasks k u s : 0 < l → k ∉ tasks → zset t lk db !! k = Some s → hash t (units_key lk) db !! k = Some u →
  let db' := fold_left (reap t pk lk l) tasks db in
  zset t lk db' !! k = Some s ∧ hash t (units_key lk) db' !! k = Some u
  ∧ exp_of (at_ t lk db') = exp_of (at_ t lk db).
Proof.
  intros Hl. revert db. induction tasks as [|m tasks IH]; intros db Hk Hs Hu; [by split_and!|].
  apply not_elem_of_cons in Hk as [Hkm Hk]. cbn [fold_left].
  assert (Hne : delete m (zset t lk db) ≠ ∅).
  { intros E. assert (delete m (zset t lk db) !! k = Some s) as Hd by (by rewrite lookup_delete_ne). by rewrite E in Hd. }
  assert (zset t lk (reap t pk lk l db m) = delete m (zset t lk db)
          ∧ hash t (units_key lk) (reap t pk lk l db m) !! k = Some u
          ∧ exp_of (at_ t lk (reap t pk lk l db m)) = exp_of (at_ t lk db)) as (Ez & Eh & Ex).
  { pose proof lk_uk as Hlu. unfold reap.
    destruct (hget t (units_key lk) m db); [destruct (exists_key t pk db)|].
    - set (p := Z.max 0 _). destruct (bump_set_at t l db p Hl) as (_ & E2 & E3). split_and!; redis_at; rewrite ?E2, ?E3.
      + done.
      + by rewrite lookup_delete_ne.
      + fold (zset t lk db). by rewrite decide_False.
    - split_and!; redis_at; [done|by rewrite lookup_delete_ne|]. fold (zset t lk db). by rewrite decide_False.
    - split_and!; redis_at; [done..|]. fold (zset t lk db). by rewrite decide_False. }
  destruct (IH (reap t pk lk l db m)) as (H1 & H2 & H3); [done|by rewrite Ez, lookup_delete_ne|done|].
  split_and!; [done..|congruence].
Qed.

Lemma elem_of_zrangebyscore t max db k s : zset t lk db !! k = Some s → k ∈ zrangebyscore t lk max db → s ≤ max.
Proof.
  unfold zrangebyscore. intros Hs Hin. rewrite isort_perm in Hin.
  apply elem_of_map_keys, elem_of_dom in Hin as [s' Hs']. apply map_lookup_filter_Some in Hs' as [Hs' Hm]. simpl in Hm. congruence.
Qed.

(** *** What a reservation takes *)

(** The lease of [k]: the instant it was written and its units *)
Definition lease (t : Z) (k : string) (db : DB) : option (Z * option Z) :=
  match zscore t lk k db with Some s => Some (s, hget t (units_key lk) k db) | None => None end.

(** ... if it has not expired: a lease of [tl] seconds *)
Definition kept (tl t : Z) (k : string) (db : DB) : option (Z * option Z) :=
  match lease t k db with Some (s, u) => if t - tl * 1000 <? s then Some (s, u) else None | None => None end.

Lemma reap_sets t l db m : 0 < l → let db' := reap t pk lk l db m in
  zset t lk db' = delete m (zset t lk db) ∧ hash t (units_key lk) db' = delete m (hash t (units_key lk) db)
  ∧ exists_key t pk db' = exists_key t pk db ∧ (quota_ok t db → get_num t pk db' ≤ Z.max 0 (get_num t pk db)).
Proof.
  intros Hl. pose proof lk_uk as Hlu. unfold reap. destruct (hget t (units_key lk) m db) as [u|] eqn:Eu; [destruct (exists_key t pk db) eqn:Ee|].
  - set (n := Z.max 0 (get_num t pk db - u)). destruct (bump_set_at t l db n Hl) as ((x & E1) & E2 & E3). cbv zeta.
    split_and!; unfold zset, hash, exists_key, get_num, get; redis_at; rewrite ?E1, ?E2, ?E3; [done..|].
    intros Hok. simpl. fold (get t pk db) (get_num t pk db). unfold hget in Eu. pose proof (ok_units _ _ Hok m u Eu). simpl in *. lia.
  - cbv zeta. split_and!; unfold zset, hash, exists_key, get_num, get; redis_at; [done..|]. lia.
  - cbv zeta. unfold hget in Eu. rewrite (delete_id (hash t (units_key lk) db)) by done.
    split_and!; unfold zset, hash, exists_key, get_num, get; redis_at; [done..|]. lia.
Qed.

Lemma reaps_sets t l db tasks : 0 < l → quota_ok t db → let db' := fold_left (reap t pk lk l) tasks db in
  (∀ k, zset t lk db' !! k = (if decide (k ∈ tasks) then None else zset t lk db !! k) ∧
        hash t (units_key lk) db' !! k = (if decide (k ∈ tasks) then None else hash t (units_key lk) db !! k))
  ∧ exists_key t pk db' = exists_key t pk db ∧ get_num t pk db' ≤ Z.max 0 (get_num t pk db).
Proof.
  intros Hl. revert db. induction tasks as [|m tasks IH]; intros db Hok; cbn [fold_left].
  { split_and!; [|done|lia]. intros k. rewrite decide_False by (by apply not_elem_of_nil). done. }
  destruct (reap_sets t l db m Hl) as (Z1 & H1 & E1 & G1). destruct (IH (reap t pk lk l db m) (reap_ok t l db m Hl Hok)) as (Hk & E2 & G2).
  specialize (G1 Hok). split_and!; [|congruence|lia]. intros k. destruct (Hk k) as [-> ->]. rewrite Z1, H1.
  destruct (decide (k = m)) as [->|Hne].
  - destruct (decide (m ∈ m :: tasks)) as [_|[]]; [|by left]. rewrite !lookup_delete_eq. by destruct (decide _).
  - rewrite !lookup_delete_ne by done. destruct (decide (k ∈ tasks)) as [Hi|Hi], (decide (k ∈ m :: tasks)) as [Hj|Hj]; rewrite elem_of_cons in Hj; tauto.
Qed.

(** The leases after the reaping are those that have not expired. *)
Lemma reaps_kept t tl l db k : 0 < l → quota_ok t db →
  lease t k (fold_left (reap t pk lk l) (zrangebyscore t lk (t - tl * 1000) db) db) = kept tl t k db.
Proof.
  intros Hl Hok. destruct (reaps_sets t l db (zrangebyscore t lk (t - tl * 1000) db) Hl Hok) as (Hk & _).
  unfold kept, lease, zscore, hget. destruct (Hk k) as [-> ->]. destruct (zset t lk db !! k) as [s|] eqn:Es; [|by destruct (decide _)].
  assert (k ∈ zrangebyscore t lk (t - tl * 1000) db ↔ s ≤ t - tl * 1000) as Hin.
  { unfold zrangebyscore. rewrite isort_perm, elem_of_map_keys, elem_of_dom. split.
    - intros [s' Hs']. apply map_lookup_filter_Some in Hs' as [Hs' Hm]. simpl in Hm. congruence.
    - intros Hm. exists s. by apply map_lookup_filter_Some. }
  destruct (decide (k ∈ _)) as [Hi|Hi]; rewrite Hin in Hi; destruct (Z.ltb_spec (t - tl * 1000) s); (done || lia).
Qed.

(** The lease of [k] with [u] units, renewed at [s] or later. *)
Definition holds (tl : Z) (k : string) (u s t : Z) (db : DB) : Prop :=
  ∃ s', s ≤ s' ≤ t ∧ zset t lk db !! k = Some s' ∧ hash t (units_key lk) db !! k = Some u
        ∧ ∀ x, exp_of (at_ t lk db) = Some x → s' + tl * 1000 ≤ x.

Lemma holds_later tl k u s t t' db : quota_ok t db → holds tl k u s t db → t ≤ t' → t' < s + tl * 1000 → holds tl k u s t' db.
Proof.
  intros Hok (s' & Hs & Hz & Hh & Hx) Ht Ht'. exists s'.
  assert (at_ t' lk db = at_ t lk db ∧ at_ t' (units_key lk) db = at_ t (units_key lk) db) as [E1 E2].
  { rewrite !(at_later t t') by done. rewrite !live_exp, <- (ok_exp _ _ Hok).
    destruct (exp_of (at_ t lk db)) as [x|] eqn:Ex; [|done]. specialize (Hx x eq_refl). by rewrite !decide_True by lia. }
  unfold zset, hash. rewrite E1, E2. split_and!; [lia|lia|done..].
Qed.

(** A lease written in the sorted set at [t], by its task or another. *)
Lemma holds_write tl k u s t l task db1 db2 s' : tl * 1000 ≤ l * 1000 → 0 < l →
  s ≤ s' ≤ t → zset t lk db1 !! k = Some s' →
  at_ t lk db2 = at_ t lk (expire t lk l (zadd t lk t task db1)) →
  hash t (units_key lk) db2 !! k = Some u → holds tl k u s t db2.
Proof.
  intros Hl1 Hl0 Hs Z1 E2 H2. exists (if decide (task = k) then t else s'). unfold zset at 1. rewrite E2. split_and!.
  - case_decide; lia.
  - case_decide; lia.
  - fold (zset t lk (expire t lk l (zadd t lk t task db1))). rewrite zset_expire, zset_zadd by done.
    rewrite lookup_insert. by case_decide.
  - done.
  - intros x Hx. apply exp_expire in Hx as ->; [|done]. case_decide; lia.
Qed.

(** The hash of units after [EXPIRE]. *)
Lemma hash_expire t k l db : 0 < l → hash t k (expire t k l db) = hash t k db.
Proof. intros Hl. unfold hash. redis_at. by destruct (at_ t k db) as [[[] ?]|]. Qed.

Lemma zset_same t db db' : at_ t lk db' = at_ t lk db → zset t lk db' = zset t lk db.
Proof. intros E. unfold zset. by rewrite E. Qed.

Lemma hash_same t db db' : at_ t (units_key lk) db' = at_ t (units_key lk) db → hash t (units_key lk) db' = hash t (units_key lk) db.
Proof. intros E. unfold hash. by rewrite E. Qed.

Lemma release_holds tl k u s t task f db db' r : quota_ok t db → holds tl k u s t db → task ≠ k → 0 < f →
  quota_release t pk lk task f db = (db', r) → holds tl k u s t db'.
Proof.
  intros Hok Hh Hne Hf. unfold quota_release. destruct (zscore t lk task db); [|by intros [= <- <-]].
  set (db1 := if _ && _ then _ else _). intros [= <- <-]. pose proof lk_uk as Hlu.
  assert (at_ t lk db1 = at_ t lk db ∧ at_ t (units_key lk) db1 = at_ t (units_key lk) db) as [E1 E2].
  { unfold db1. destruct (_ && _); [by redis_at|]. destruct (Z.ltb_spec 0 (ttl t pk db)); by redis_at. }
  destruct Hh as (s' & Hs & Hz & Hu & Hx). exists s'. redis_at. rewrite E1, E2. split_and!; [lia|lia|by rewrite lookup_delete_ne..|].
  intros x. case_decide; [done|]. apply Hx.
Qed.

(** Renewing [k], or another reservation: the end of the script. *)
Lemma renew_holds tl k u s t l task db1 s' : tl * 1000 ≤ l * 1000 → 0 < l → s ≤ s' ≤ t →
  zset t lk db1 !! k = Some s' → hash t (units_key lk) db1 !! k = Some u →
  let db2 := expire t (units_key lk) l (expire t lk l (zadd t lk t task db1)) in
  holds tl k u s t (if exists_key t pk db2 then bump_pending_ttl t pk l db2 else set t pk (SNum (rebuild t lk db2)) (Some l) db2)
  ∧ hget_num t (units_key lk) k db2 = u.
Proof.
  intros Hl1 Hl0 Hs Z1 U1 db2. pose proof lk_uk as Hlu.
  assert (H2 : hash t (units_key lk) db2 !! k = Some u).
  { unfold db2. rewrite hash_expire by done. erewrite hash_same; [exact U1|]. by redis_at. }
  assert (L2 : at_ t lk db2 = at_ t lk (expire t lk l (zadd t lk t task db1))) by (unfold db2; by redis_at).
  split; [|unfold hget_num, hget; by rewrite H2].
  destruct (bump_at t l db2 Hl0) as (x & _ & B1 & B2).
  eapply holds_write; [done..| |]; destruct (exists_key t pk db2).
  - by rewrite B1.
  - rewrite <- L2. by redis_at.
  - by rewrite (hash_same _ _ _ B2).
  - erewrite hash_same; [exact H2|]. by redis_at.
Qed.

Lemma admit_holds tl k u s t l task db2 s' n p : tl * 1000 ≤ l * 1000 → 0 < l → s ≤ s' ≤ t → task ≠ k →
  zset t lk db2 !! k = Some s' → hash t (units_key lk) db2 !! k = Some u →
  holds tl k u s t (expire t (units_key lk) l (expire t lk l (hset t (units_key lk) task n (zadd t lk t task
    (bump_pending_ttl t pk l (set t pk (SNum p) None db2)))))).
Proof.
  intros Hl1 Hl0 Hs Hne Z1 U1. pose proof lk_uk as Hlu.
  destruct (bump_set_at t l db2 p Hl0) as (_ & B1 & B2).
  set (db3 := bump_pending_ttl t pk l _) in *.
  eapply (holds_write tl k u s t l task db3 _ s'); [done..| | |].
  - unfold zset. by rewrite B1.
  - by redis_at.
  - rewrite hash_expire by done. unfold hash. redis_at. rewrite lookup_insert_ne by done. by rewrite B2.
Qed.

Lemma reserve_holds tl k u s t task n m db db' r : 1 ≤ tl → holds tl k u s t db → t < s + tl * 1000 →
  quota_reserve t pk lk n m tl task db = (db', r) →
  holds tl k u s t db' ∧ (task = k → 0 ≤ n → 0 < m → q_reason r = AlreadyReserved ∧ q_amount r = u).
Proof.
  intros Htl Hh Ht Hx. pose proof lk_uk as Hlu. pose proof Hh as (s' & Hs & Hz & Hu & He).
  revert Hx. unfold quota_reserve. set (l := Z.max 1 (tl * 2)). assert (Hl0 : 0 < l) by lia.
  assert (Hl1 : tl * 1000 ≤ l * 1000) by lia.
  destruct (Z.ltb_spec n 0); [intros [= <- <-]; split; [done|lia]|].
  destruct (Z.leb_spec m 0); [intros [= <- <-]; split; [done|lia]|].
  set (db1 := fold_left _ _ db).
  destruct (reaps_keep t l db (zrangebyscore t lk (t - tl * 1000) db) k u s' Hl0) as (Z1 & U1 & X1); [|done..|].
  { intros Hin. apply (elem_of_zrangebyscore _ _ _ _ _ Hz) in Hin. lia. }
  fold db1 in Z1, U1, X1. destruct (zscore t lk task db1) as [sc|] eqn:Esc.
  - destruct (renew_holds tl k u s t l task db1 s') as [Hr Hg]; [done..|].
    intros [= <- <-]. split; [exact Hr|]. intros -> _ _. split; [done|]. exact Hg.
  - assert (task ≠ k) as Hne by (intros ->; unfold zscore in Esc; congruence).
    set (pr := if exists_key t pk db1 then _ else _).
    assert (at_ t lk pr.1 = at_ t lk db1 ∧ at_ t (units_key lk) pr.1 = at_ t (units_key lk) db1) as [P1 P2].
    { unfold pr. destruct (exists_key _ _ _); [done|]. cbn [fst]. destruct (0 <? _); [|done]. by redis_at. }
    destruct pr as [db2 cur]. cbn [fst] in P1, P2.
    destruct (m <? cur + n); intros [= <- <-]; (split; [|by intros ->]).
    + exists s'. unfold zset, hash. rewrite P1, P2, X1. by split_and!; try lia.
    + apply (admit_holds tl k u s t l task db2 s'); try done; unfold zset, hash; by rewrite ?P1, ?P2.
Qed.

Lemma lease_same t k db db' : zset t lk db' = zset t lk db → hash t (units_key lk) db' = hash t (units_key lk) db → lease t k db' = lease t k db.
Proof. intros E1 E2. unfold lease, zscore, hget. by rewrite E1, E2. Qed.

Lemma lease_written t task u k db db' :
  zset t lk db' = <[task := t]> (zset t lk db) → hash t (units_key lk) db' = <[task := u]> (hash t (units_key lk) db) →
  lease t k db' = if decide (k = task) then Some (t, Some u) else lease t k db.
Proof.
  intros E1 E2. unfold lease, zscore, hget. rewrite E1, E2. destruct (decide (k = task)) as [->|Hne].
  - by rewrite !lookup_insert_eq.
  - by rewrite !lookup_insert_ne.
Qed.

Lemma renew_lease t l db1 task u k : 0 < l → hash t (units_key lk) db1 !! task = Some u →
  let db2 := expire t (units_key lk) l (expire t lk l (zadd t lk t task db1)) in
  lease t k (if exists_key t pk db2 then bump_pending_ttl t pk l db2 else set t pk (SNum (rebuild t lk db2)) (Some l) db2)
    = (if decide (k = task) then Some (t, Some u) else lease t k db1)
  ∧ hget_num t (units_key lk) task db2 = u.
Proof.
  intros Hl Hu db2. pose proof lk_uk as Hlu.
  assert (hash t (units_key lk) db2 = hash t (units_key lk) db1) as H2.
  { unfold db2. rewrite hash_expire by done. erewrite hash_same; [reflexivity|]. by redis_at. }
  assert (zset t lk db2 = <[task := t]> (zset t lk db1)) as Z2.
  { unfold db2. erewrite (zset_same t (expire t lk l (zadd t lk t task db1))); [by rewrite zset_expire, zset_zadd|]. by redis_at. }
  split; [|unfold hget_num, hget; by rewrite H2, Hu].
  destruct (bump_at t l db2 Hl) as (x & _ & B1 & B2).
  apply lease_written; rewrite ?(insert_id (hash t (units_key lk) db1)) by done; rewrite <- ?Z2, <- ?H2.
  - destruct (exists_key t pk db2); apply zset_same; [done|by redis_at].
  - destruct (exists_key t pk db2); apply hash_same; [done|by redis_at].
Qed.

Lemma admit_lease t l db task units p k : 0 < l →
  lease t k (expire t (units_key lk) l (expire t lk l (hset t (units_key lk) task units (zadd t lk t task
    (bump_pending_ttl t pk l (set t pk (SNum p) None db))))))
  = if decide (k = task) then Some (t, Some units) else lease t k db.
Proof.
  intros Hl. pose proof lk_uk as Hlu. destruct (bump_set_at t l db p Hl) as (_ & B1 & B2). set (db1 := bump_pending_ttl t pk l _) in *.
  apply lease_written.
  - rewrite <- (zset_same _ _ _ B1). erewrite (zset_same t (expire t lk l (zadd t lk t task db1))); [by rewrite zset_expire, zset_zadd|]. by redis_at.
  - rewrite hash_expire by done. rewrite <- (hash_same _ _ _ B2). unfold hash at 1. redis_at. done.
Qed.

(** What each answer of a reservation takes *)
Definition taken (tl t : Z) (task : string) (units : Z) (db db' : DB) (r : quota_result) : Prop :=
  match q_reason r with
  | Done => kept tl t task db = None ∧ get_num t pk db' = q_current r ∧
      ∀ k, lease t k db' = if decide (k = task) then Some (t, Some units) else kept tl t k db
  | AlreadyReserved => ∃ s, kept tl t task db = Some (s, Some (q_amount r)) ∧ get_num t pk db' = q_current r ∧
      ∀ k, lease t k db' = if decide (k = task) then Some (t, Some (q_amount r)) else kept tl t k db
  | LimitExceeded => kept tl t task db = None ∧ (∀ k, lease t k db' = kept tl t k db) ∧
      get_num t pk db' = q_current r ∧ q_current r ≤ Z.max (Z.max 0 (get_num t pk db)) (leased t db')
  | _ => db' = db
  end.

Lemma reserve_taken t units max_units tl task db db' r : quota_ok t db →
  quota_reserve t pk lk units max_units tl task db = (db', r) → taken tl t task units db db' r.
Proof.
  intros Hok Hx. pose proof lk_uk as Hlu. revert Hx. unfold quota_reserve. set (l := Z.max 1 (tl * 2)). assert (Hl : 0 < l) by lia.
  destruct (Z.ltb_spec units 0); [by intros [= <- <-]|].
  destruct (Z.leb_spec max_units 0); [by intros [= <- <-]|].
  pose proof (λ k, reaps_kept t tl l db k Hl Hok) as Hk.
  destruct (reaps_sets t l db (zrangebyscore t lk (t - tl * 1000) db) Hl Hok) as (_ & Eex & Hnum).
  set (db1 := fold_left _ _ db) in *. assert (Hok1 : quota_ok t db1) by (by apply reaps_ok). clearbody db1.
  destruct (zscore t lk task db1) as [s|] eqn:Es.
  - assert (∃ u, hash t (units_key lk) db1 !! task = Some u) as [u Hu].
    { apply elem_of_dom. rewrite <- (ok_dom _ _ Hok1). apply elem_of_dom. by exists s. }
    pose proof (λ k, renew_lease t l db1 task u k Hl Hu) as Hr. cbv zeta in Hr. intros [= <- <-].
    unfold taken. cbn [q_reason q_amount q_current]. rewrite (proj2 (Hr task)). exists s.
    split; [|split; [done|intros k; rewrite (proj1 (Hr k)), Hk; done]]. rewrite <- Hk. unfold lease, hget. by rewrite Es, Hu.
  - assert (kept tl t task db = None) as Hnone by (rewrite <- Hk; unfold lease; by rewrite Es).
    set (pr := if exists_key t pk db1 then _ else _).
    assert (zset t lk pr.1 = zset t lk db1 ∧ hash t (units_key lk) pr.1 = hash t (units_key lk) db1 ∧
      get_num t pk pr.1 = pr.2 ∧ pr.2 ≤ Z.max (Z.max 0 (get_num t pk db)) (leased t db1)) as (P1 & P2 & P3 & P4).
    { unfold pr. destruct (exists_key t pk db1) eqn:Ee; [split_and!; simpl; try done; lia|]. rewrite rebuild_leased by apply Hok1. cbn [fst snd].
      pose proof (total_nonneg _ (ok_units _ _ Hok1)) as Hn. fold (leased t db1) in Hn.
      destruct (Z.ltb_spec 0 (leased t db1)); split_and!; try lia; try done; [unfold zset, hash, get_num, get; by redis_at..|].
      unfold get_num, get. unfold exists_key in Ee. destruct (at_ t pk db1); [done|]. simpl. lia. }
    destruct pr as [db2 cur]. cbn [fst snd] in *.
    assert (∀ k, lease t k db2 = kept tl t k db) as Hk2 by (intros k; by rewrite <- Hk; apply lease_same).
    destruct (Z.ltb_spec max_units (cur + units)); intros [= <- <-]; unfold taken; cbn [q_reason q_current].
    + split_and!; [done..|]. unfold leased in *. by rewrite P2.
    + split_and!; [done| |intros k; by rewrite admit_lease, Hk2].
      destruct (bump_set_at t l db2 (cur + units) Hl) as ((x & B1) & _). unfold get_num, get. redis_at. by rewrite B1.
Qed.

(** The keys alone matter. *)
Lemma quota_ok_ext t db db' : at_ t pk db' = at_ t pk db → at_ t lk db' = at_ t lk db →
  at_ t (units_key lk) db' = at_ t (units_key lk) db → quota_ok t db → quota_ok t db'.
Proof.
  intros E1 E2 E3 [H1 H2 H3 H4 H5 H6]. unfold leased, zset, hash in *.
  by split; unfold leased, zset, hash; rewrite ?E1, ?E2, ?E3.
Qed.

(** A run in which nobody releases [k] and everybody uses the same lifetime. *)
Definition spares (tl : Z) (k : string) (tr : list (Z * qcall * quota_result)) : Prop :=
  ∀ t c r, (t, c, r) ∈ tr → match c with Reserve _ _ _ tl' => tl' = tl | Release k' _ => k' ≠ k end.

Lemma run_holds tl k u t1 db1 tr t db : 1 ≤ tl → quota_ok t1 db1 → holds tl k u t1 t1 db1 →
  quota_run t1 db1 tr t db → t < t1 + tl * 1000 → spares tl k tr →
  quota_ok t db ∧ holds tl k u t1 t db ∧
  ∀ t' n m r, (t', Reserve k n m tl, r) ∈ tr → 0 ≤ n → 0 < m → q_reason r = AlreadyReserved ∧ q_amount r = u.
Proof.
  intros Htl H0 Hh0. induction 1 as [|tr t db t' db' Hr IH Htt E1 E2 E3|tr t db t' c db' r Hr IH Htt Hc Hx]; intros Ht Hall.
  - split_and!; [done..|by intros ? ? ? ? ?%not_elem_of_nil].
  - destruct (IH ltac:(lia) Hall) as (Hok & Hh & Hres). split_and!; [| |done].
    + eapply quota_ok_ext; [done..|]. by eapply quota_ok_later.
    + apply (holds_later tl k u t1 t t') in Hh as (s' & Hs & Hz & Hu & Hex); [|done..].
      exists s'. unfold zset, hash in *. by rewrite E2, E3.
  - assert (Hall' : spares tl k tr) by (intros ? ? ? Hin; eapply Hall, elem_of_app; by left).
    destruct (IH ltac:(lia) Hall') as (Hok & Hh & Hres).
    pose proof (quota_ok_later t t' _ Hok Htt) as Hok'.
    apply (holds_later tl k u t1 t t') in Hh; [|done..].
    assert (Hcc : match c with Reserve _ _ _ tl' => tl' = tl | Release k' _ => k' ≠ k end).
    { eapply (Hall t' c r), elem_of_app. right. by left. }
    assert (quota_ok t' db') as Hok2.
    { destruct c; cbn in Hx; [by apply quota_reserve_ok in Hx as [? _]|by apply quota_release_ok in Hx as [? _]]. }
    destruct c as [task n m tl'|task f]; cbn in Hx.
    + subst tl'. destruct (reserve_holds _ _ _ _ _ _ _ _ _ _ _ Htl Hh Ht Hx) as [Hh2 Hk]. split_and!; [done..|].
      intros t2 n2 m2 r2 [Hin|[= -> <- -> -> ->]%list_elem_of_singleton]%elem_of_app; [by eapply Hres|by apply Hk].
    + split_and!; [done|eapply release_holds; [exact Hok'|exact Hh|exact Hcc|exact Hc|exact Hx]|].
      intros t2 n2 m2 r2 [Hin|[=]%list_elem_of_singleton]%elem_of_app. by eapply Hres.
Qed.

End Invariant.

(** ** What the quota guarantees *)

Section Keys.

Context `{Redis}.

Lemma quota_keys d scope p l : _pending_key d scope = Some p → _leases_key d scope = Some l → p ≠ l ∧ p ≠ units_key l.
Proof.
  unfold _pending_key, _leases_key, units_key. destruct (decide (scope = "")); [done|]. intros [= <-] [= <-]. split.
  - intros E. by do 3 apply (inj (String.append _)) in E.
  - rewrite !str_app_assoc. intros E. by do 3 apply (inj (String.append _)) in E.
Qed.

Lemma reserve_units_ok d t scope task units mx ttl db db' r p l :
  _pending_key d scope = Some p → _leases_key d scope = Some l →
  reserve_units d t scope task units mx ttl db = Ok (db', r) →
  ∃ ttl', quota_reserve t p l units mx ttl' task db = (db', r)
          ∧ ttl' = (if default (default_expire_time d) ttl <=? 0 then default_expire_time d else default (default_expire_time d) ttl).
Proof.
  unfold reserve_units. intros -> -> Hx. injection Hx as Hx. eexists. split; [exact Hx|]. by destruct ttl.
Qed.

End Keys.

(** The lifetime of a lease, in seconds *)
Definition lifetime (d : AdmissionQuotaRedisDB) (ttl : option Z) : Z :=
  match ttl with Some t => if t <=? 0 then default_expire_time d else t | None => default_expire_time d end.

(** C12: No over-admission: after any scripts of any clients on a scope, with
    whatever lifetimes, a reservation is admitted only if the units of all
    live leases, the new one included, stay within [max_units], and a live
    counter never counts less than the leases.  What each answer takes:
    admitted, exactly one lease is new, the task's, with its units; already
    reserved, the task's lease is renewed with the units it had; over the
    limit, the task has no lease and no lease is written; in all three the
    other leases are those that had not expired, and over the limit the counter
    is not raised above what it was or what those leases add up to; invalid
    arguments change nothing at all. *)
Theorem quota_reserve_spec `{Redis} d scope p l t0 db0 tr t db t' task units max_units ttl db' r :
  _pending_key d scope = Some p → _leases_key d scope = Some l → unused p l t0 db0 →
  quota_run p l t0 db0 tr t db → t ≤ t' →
  reserve_units d t' scope task units max_units ttl db = Ok (db', r) →
  counts (at_ t' p db') (leased l t' db') ∧
  match q_reason r with
  | Done => q_ok r = true ∧ q_amount r = units ∧ 0 ≤ units ∧ leased l t' db' ≤ q_current r ≤ max_units
            ∧ kept l (lifetime d ttl) t' task db = None ∧ get_num t' p db' = q_current r
            ∧ ∀ k, lease l t' k db' = if decide (k = task) then Some (t', Some units) else kept l (lifetime d ttl) t' k db
  | AlreadyReserved => q_ok r = true ∧ leased l t' db' ≤ q_current r ∧ get_num t' p db' = q_current r
            ∧ (∃ s, kept l (lifetime d ttl) t' task db = Some (s, Some (q_amount r)))
            ∧ ∀ k, lease l t' k db' = if decide (k = task) then Some (t', Some (q_amount r)) else kept l (lifetime d ttl) t' k db
  | LimitExceeded => q_ok r = false ∧ q_amount r = 0 ∧ max_units < q_current r + units
            ∧ kept l (lifetime d ttl) t' task db = None ∧ (∀ k, lease l t' k db' = kept l (lifetime d ttl) t' k db)
            ∧ get_num t' p db' = q_current r ∧ q_current r ≤ Z.max (Z.max 0 (get_num t' p db)) (leased l t' db')
  | InvalidUnits => q_ok r = false ∧ units < 0 ∧ db' = db
  | InvalidMaxUnits => q_ok r = false ∧ max_units ≤ 0 ∧ db' = db
  | NotReserved => False
  end.
Proof.
  intros Hp Hl H0 Hr Ht Hx. destruct (quota_keys d scope p l Hp Hl) as [Hpl Hpu].
  destruct (reserve_units_ok _ _ _ _ _ _ _ _ _ _ _ _ Hp Hl Hx) as (tl & Hx' & Htl).
  assert (tl = lifetime d ttl) as -> by (rewrite Htl; unfold lifetime; destruct ttl; simpl; by destruct (_ <=? 0)).
  apply quota_run_ok in Hr as [Hok _]; [|done..]. apply (quota_ok_later p l t t') in Hok; [|done].
  destruct (quota_reserve_ok p l Hpl Hpu _ _ _ _ _ _ _ _ Hok Hx') as [Hok' Hres]. split; [apply Hok'|].
  pose proof (reserve_taken p l Hpl Hpu _ _ _ _ _ _ _ _ Hok Hx') as Ht'. unfold taken in Ht'. destruct (q_reason r); naive_solver.
Qed.

(** A release takes the task's units out of the leases exactly once: the
    first release lowers the counter by them, and a release of a task that
    holds nothing leaves everything as it was. *)
Theorem quota_release_spec `{Redis} d scope p l t0 db0 tr t db t' task db' r :
  _pending_key d scope = Some p → _leases_key d scope = Some l → 0 < default_expire_time d → unused p l t0 db0 →
  quota_run p l t0 db0 tr t db → t ≤ t' → release_units d t' scope task db = Ok (db', r) →
  q_ok r = true ∧ zscore t' l task db' = None ∧
  match q_reason r with
  | Done => is_Some (zscore t' l task db) ∧ q_amount r = hget_num t' (units_key l) task db
            ∧ leased l t' db' = leased l t' db - q_amount r
            ∧ q_current r = Z.max 0 (get_num t' p db - q_amount r) ∧ get_num t' p db' = q_current r
  | NotReserved => zscore t' l task db = None ∧ db' = db
  | _ => False
  end.
Proof.
  intros Hp Hl Hd H0 Hr Ht Hx. destruct (quota_keys d scope p l Hp Hl) as [Hpl Hpu].
  revert Hx. unfold release_units. rewrite Hp, Hl. intros [= Hx].
  apply quota_run_ok in Hr as [Hok _]; [|done..]. apply (quota_ok_later p l t t') in Hok; [|done].
  by destruct (quota_release_ok p l Hpl Hpu _ _ _ _ _ _ Hd Hok Hx) as [_ ?].
Qed.

(** When all callers of a scope use one lifetime, a lease is not reaped
    before that lifetime is over: an admitted task that is not released keeps
    its units through whatever other tasks reserve and release, and a second
    reservation in that time answers that they are reserved. *)
Theorem quota_lease_kept `{Redis} d scope p l t0 db0 tr1 t1 db1 db2 task units max_units ttl r tr2 t db :
  _pending_key d scope = Some p → _leases_key d scope = Some l → unused p l t0 db0 → 1 ≤ ttl →
  quota_run p l t0 db0 tr1 t1 db1 →
  reserve_units d t1 scope task units max_units (Some ttl) db1 = Ok (db2, r) → q_reason r = Done →
  quota_run p l t1 db2 tr2 t db → t < t1 + ttl * 1000 →
  spares ttl task tr2 →
  is_Some (zscore t l task db) ∧ hget t (units_key l) task db = Some units ∧
  ∀ t' n m r', (t', Reserve task n m ttl, r') ∈ tr2 → 0 ≤ n → 0 < m → q_reason r' = AlreadyReserved ∧ q_amount r' = units.
Proof.
  intros Hp Hl H0 Httl Hr1 Hx Hd Hr2 Ht Hall. destruct (quota_keys d scope p l Hp Hl) as [Hpl Hpu].
  destruct (reserve_units_ok _ _ _ _ _ _ _ _ _ _ _ _ Hp Hl Hx) as (tl & Hx' & Etl).
  simpl in Etl. destruct (Z.leb_spec ttl 0); [lia|]. subst tl.
  apply quota_run_ok in Hr1 as [Hok1 _]; [|done..].
  destruct (quota_reserve_ok p l Hpl Hpu _ _ _ _ _ _ _ _ Hok1 Hx') as [Hok2 Hres]. rewrite Hd in Hres.
  destruct Hres as (_ & _ & _ & _ & Hz2 & Hh2 & Hx2).
  destruct (run_holds p l Hpl Hpu ttl task units t1 db2 tr2 t db) as (_ & (s' & Hs & Hz & Hh & _) & Hres); [done..| |done|done|done|].
  { exists t1. split_and!; [lia|lia|done..]. }
  split_and!; [by exists s'|done|done].
Qed.

(** *** On the reference instance *)

Module QuotaWitness.

Local Open Scope string_scope.

Definition store : AdmissionQuotaRedisDB := {| quota_prefix := "admission"; default_expire_time := 604800 |}.
Definition pk : string := "admission:user:pending_units".
Definition lk : string := "admission:user:leases".
Definition reserve (now : Z) (task : string) (units max_units ttl : Z) (db : @DB redis_map) :=
  quota_reserve (H := redis_map) now pk lk units max_units ttl task db.

Lemma empty_unused : unused (H := redis_map) pk lk 0 ∅.
Proof. split_and!; vm_compute; reflexivity. Qed.

(** [a] takes 6 of 10 units. *)
Definition db_a : @DB redis_map := (reserve 0 "a" 6 10 60 ∅).1.
Definition r_a : quota_result := {| q_ok := true; q_reason := Done; q_current := 6; q_amount := 6 |}.

Lemma run_a : quota_run (H := redis_map) pk lk 0 ∅ [(0, Reserve "a" 6 10 60, r_a)] 0 db_a.
Proof.
  eapply (qrun_call (H := redis_map) pk lk 0 ∅ [] 0 ∅ 0 (Reserve "a" 6 10 60)); [constructor|lia|done|].
  vm_compute. reflexivity.
Qed.

(** [b] asks for 5 more while [a] holds 6. *)
Lemma reserve_witness : ∃ db' r, reserve_units (H := redis_map) store 1000 "user" "b" 5 10 (Some 60) db_a = Ok (db', r)
  ∧ q_reason r = LimitExceeded ∧ counts (at_ (H := redis_map) 1000 pk db') (leased (H := redis_map) lk 1000 db').
Proof.
  do 2 eexists. split; [reflexivity|]. split; [vm_compute; reflexivity|].
  exact (proj1 (quota_reserve_spec (H := redis_map) store "user" pk lk 0 ∅ _ 0 db_a 1000 "b" 5 10 (Some 60) _ _
    eq_refl eq_refl empty_unused run_a ltac:(lia) eq_refl)).
Defined.

Lemma release_witness : ∃ db' r, release_units (H := redis_map) store 1000 "user" "a" db_a = Ok (db', r)
  ∧ q_ok r = true ∧ q_amount r = 6%Z.
Proof.
  do 2 eexists. split; [reflexivity|]. split; [|vm_compute; reflexivity].
  exact (proj1 (quota_release_spec (H := redis_map) store "user" pk lk 0 ∅ _ 0 db_a 1000 "a" _ _
    eq_refl eq_refl eq_refl empty_unused run_a ltac:(lia) eq_refl)).
Defined.

Lemma kept_witness : is_Some (zscore (H := redis_map) 59000 lk "a" db_a).
Proof.
  refine (proj1 (quota_lease_kept (H := redis_map) store "user" pk lk 0 ∅ [] 0 ∅ db_a "a" 6 10 60 r_a [] 59000 db_a
    eq_refl eq_refl empty_unused ltac:(lia) (qrun_nil (H := redis_map) _ _ _ _) _ eq_refl _ ltac:(lia) _)).
  - vm_compute. reflexivity.
  - eapply (qrun_other (H := redis_map)); [constructor|lia|reflexivity..].
  - by intros ? ? ? ?%not_elem_of_nil.
Defined.

(** Reaping measures every lease against the lifetime of the caller: a caller
    with a lifetime of 10 s reaps, after 20 s, a lease taken for an hour. *)
Definition db_long : @DB redis_map := (reserve 0 "a" 6 10 3600 ∅).1.
Example short_lifetime_reaps_others :
  let '(db', r) := reserve 20000 "b" 10 10 10 db_long in
  zscore (H := redis_map) 20000 lk "a" db_long = Some 0%Z ∧ q_reason r = Done ∧ zscore (H := redis_map) 20000 lk "a" db' = None.
Proof. vm_compute. split_and!; reflexivity. Qed.

End QuotaWitness.
