(* ===== verification/TaskDb.v ===== *)
(** The task store (src/packages/core/src/orditect/core/redis/task_db.py with
    lua/task_init.lua, task_update.lua and task_reopen.lua, task/status.py).

    A task is a JSON record with an expiry; an index per status and one per
    parent list task ids scored by the instant their record expires; further
    keys attached to a task serve dependency governance.  What [cjson] makes of
    a value when a record is decoded and encoded again is a parameter. *)
From Stdlib Require Import ZArith Lia.
From stdpp Require Import prelude gmap list strings sorting.
From S2P Require Import Prelude Redis.
Local Open Scope list_scope.
Local Open Scope Z_scope.

(** ** Statuses (task/status.py) *)

Inductive TaskStatus := pending | in_progress | completed | failed | cancelled.

Definition status_value (s : TaskStatus) : string :=
  match s with
  | pending => "pending" | in_progress => "in_progress" | completed => "completed"
  | failed => "failed" | cancelled => "cancelled"
  end.

Definition TERMINAL_STATUSES : list string := status_value <$> [completed; failed; cancelled].

Definition _ALLOWED_TRANSITIONS : list (string * list string) :=
  [ (""%string, status_value <$> [pending; in_progress]);
    (status_value pending, status_value <$> [in_progress; cancelled; failed]);
    (status_value in_progress, status_value <$> [completed; failed; cancelled]);
    (status_value completed, []); (status_value failed, []); (status_value cancelled, []) ].

Definition is_terminal (status : string) : bool := bool_decide (status ∈ TERMINAL_STATUSES).

Definition can_transfer (from_status to_status : string) : bool :=
  bool_decide (to_status ∈ default [] (dget _ALLOWED_TRANSITIONS from_status)).

(** ** Scripts *)

(** [cjson] and Lua's concatenation: a value after decoding and encoding, and
    the text of a value in [prefix .. ":" .. value] (none for tables, booleans
    and null, where the script fails). *)
Class Cjson := {
  recode : json → json;
  lua_text : json → option string;
  recode_str : ∀ s, recode (JStr s) = JStr s;
  recode_bool : ∀ b, recode (JBool b) = JBool b;
  recode_strs : ∀ l, l ≠ [] → recode (JArr (JStr <$> l)) = JArr (JStr <$> l);
  lua_text_str : ∀ s, lua_text (JStr s) = Some s
}.

(** What a script answers. *)
Inductive script_reply := SOk | SNotFound | SInvalidTransfer | SNotTerminal (current_status : json) | SError.
#[export] Instance script_reply_eq_dec : EqDecision script_reply.
Proof. solve_decision. Defined.

Section Scripts.

Context `{Redis} `{Cjson}.

(** [current["status"] or ""] *)
Definition status_of (r : row) : json :=
  match r !! "status"%string with None | Some (JBool false) => JStr "" | Some v => v end.

(** Lua's [~=] on two values decoded apart: tables differ. *)
Definition lua_ne (a b : json) : bool :=
  match a with JArr _ | JObj _ => true | _ => bool_decide (a ≠ b) end.

Definition in_words (words : list string) (v : json) : bool :=
  match v with JStr s => bool_decide (s ∈ words) | _ => false end.

Definition bump_ttl (now : Z) (k : string) (expiry : Z) (db : DB) : DB :=
  let t := ttl now k db in
  if (t =? -1) || (t <? expiry) then expire now k expiry db else db.

(** The script of [initialize_task]: whether it wrote; no answer when [SET]
    rejects the expiry. *)
Definition task_init (now : Z) (task_key status_key children_key : string) (data : row) (expiry : Z)
    (task_id : string) (if_not_exists has_status : bool) (parent execution_id : string) (db : DB) : DB * option bool :=
  if if_not_exists && exists_key now task_key db then (db, Some false)
  else if expiry <=? 0 then (db, None)
  else
    let data := recode <$> <["execution_id"%string := JStr execution_id]> data in
    let expire_at := now + expiry * 1000 in
    let db := set now task_key (SJson data) (Some expiry) db in
    let db := if has_status then bump_ttl now status_key expiry (zadd now status_key expire_at task_id db) else db in
    let db := if bool_decide (parent ≠ ""%string)
              then bump_ttl now children_key expiry (zadd now children_key expire_at task_id db) else db in
    (db, Some true).

(** The remaining lifetime of a key, or the default. *)
Definition resolve_expiry (now : Z) (task_key : string) (expiry default_expiry : Z) (db : DB) : Z :=
  if expiry <? 0 then
    let t := ttl now task_key db in if 0 <? t then t else default_expiry
  else expiry.

(** The index under a new status; [None] when the status has no text. *)
Definition index_add (now : Z) (prefix task_id : string) (status : json) (expiry : Z) (db : DB) : option DB :=
  if bool_decide (status = JStr "") then Some db
  else match lua_text status with
       | Some w =>
           let new_key := (prefix +:+ ":" +:+ w)%string in
           Some (bump_ttl now new_key expiry (zadd now new_key (now + expiry * 1000) task_id db))
       | None => None
       end.

Definition index_remove (now : Z) (prefix task_id : string) (status : json) (db : DB) : option DB :=
  match lua_text status with
  | Some w => Some (zrem now (prefix +:+ ":" +:+ w)%string task_id db)
  | None => None
  end.

(** The script of [update_task]; a status without a text makes it fail after
    the record was written. *)
Definition task_update (now : Z) (task_key : string) (updates : row) (expiry : Z) (prefix task_id : string)
    (terminal : list string) (default_expiry : Z) (db : DB) : DB * script_reply :=
  match get now task_key db with
  | None => (db, SNotFound)
  | Some (SJson current) =>
      let expiry := resolve_expiry now task_key expiry default_expiry db in
      let old_status := status_of current in
      let new_status := default old_status (updates !! "status"%string) in
      let moved := match updates !! "status"%string with Some v => lua_ne old_status v | None => false end in
      if moved && in_words terminal old_status then (db, SInvalidTransfer)
      else if expiry <=? 0 then (db, SError)
      else
        let current := updates ∪ current in
        let db := set now task_key (SJson (recode <$> current)) (Some expiry) db in
        let removed := if moved && bool_decide (old_status ≠ JStr "") then index_remove now prefix task_id old_status db
                       else Some db in
        match removed with
        | None => (db, SError)
        | Some db =>
            match index_add now prefix task_id new_status expiry db with
            | None => (db, SError)
            | Some db => (db, SOk)
            end
        end
  | Some _ => (db, SError)
  end.

(** The trace of earlier generations: the identity appended, at most 50 kept. *)
Definition trace_ids (current : row) : json :=
  let prev_ids := match current !! "previous_execution_ids"%string with Some (JArr l) => l | _ => [] end in
  match current !! "execution_id"%string with
  | None => JArr prev_ids
  | Some v => if bool_decide (v = JStr "") then JArr prev_ids
              else let l := prev_ids ++ [v] in JArr (if (50 <? Z.of_nat (length l)) then tail l else l)
  end.

Definition new_generation (now : Z) (current : row) (new_execution_id initial_status : string) : row :=
  let r := <["previous_execution_ids" := trace_ids current]> current in
  let r := <["previous_status" := status_of current]> r in
  let r := <["execution_id" := JStr new_execution_id]> r in
  let r := <["status" := JStr initial_status]> r in
  let r := <["cancel_requested" := JBool false]> r in
  let r := delete "result" (delete "error" r) in
  let r := delete "progress" (delete "cancel_outcome" r) in
  <["reopened_at" := JNum now]> r.

(** The script of [reopen_task]. *)
Definition task_reopen (now : Z) (task_key task_id new_execution_id initial_status : string) (expiry : Z)
    (prefix : string) (terminal : list string) (default_expiry : Z) (db : DB) : DB * script_reply :=
  match get now task_key db with
  | None => (db, SNotFound)
  | Some (SJson current) =>
      let expiry := resolve_expiry now task_key expiry default_expiry db in
      let old_status := status_of current in
      if negb (in_words terminal old_status) then (db, SNotTerminal old_status)
      else if expiry <=? 0 then (db, SError)
      else
        let current := new_generation now current new_execution_id initial_status in
        let db := set now task_key (SJson (recode <$> current)) (Some expiry) db in
        let db := if bool_decide (old_status ≠ JStr "") then default db (index_remove now prefix task_id old_status db) else db in
        (default db (index_add now prefix task_id (JStr initial_status) expiry db), SOk)
  | Some _ => (db, SError)
  end.

End Scripts.

(** ** The store *)

Record TaskRedisDB := {
  default_expire_time : Z;
  task_key_prefix : string;
  status_index_prefix : string;
  terminal_statuses : list string;
  transitions : option (gmap string (gset string))
}.

Inductive task_error := TaskNotFoundError | InvalidStatusTransferError | TypeError | RuntimeError.

Section Store.

Context `{Redis} `{Cjson}.
Context (d : TaskRedisDB).

Definition _task_key (task_id : string) : string := (task_key_prefix d +:+ ":" +:+ task_id)%string.
Definition _status_index_key (status : string) : string := (status_index_prefix d +:+ ":" +:+ status)%string.
Definition _children_key (parent : string) : string := (task_key_prefix d +:+ "_children:" +:+ parent)%string.

(** [_can_transfer]: an injected table takes the place of the built-in one;
    a list or a dict cannot be looked up. *)
Definition _can_transfer (from_status to_status : json) : res task_error bool :=
  match from_status, to_status with
  | JArr _, _ | JObj _, _ => Err TypeError
  | JStr f, JStr t =>
      Ok (match transitions d with
          | Some tbl => bool_decide (t ∈ default ∅ (tbl !! f))
          | None => can_transfer f t
          end)
  | _, JArr _ | _, JObj _ => Err TypeError
  | _, _ => Ok false
  end.

Definition default_task_data : row :=
  {[ "status" := JStr ""; "reason" := JStr ""; "payload" := JObj ∅; "cancel_requested" := JBool false ]}%string.

(** [initialize_task]: [None] is the error of [SET] on a bad expiry. *)
Definition initialize_task (now : Z) (now_str execution_id : string) (task_id : string) (expiry : option Z)
    (initial_status : string) (if_not_exists : bool) (parent_task_id : option string) (db : DB) : DB * option bool :=
  let ex := default (default_expire_time d) expiry in
  let data := <["status"%string := JStr initial_status]> (<["timestamp"%string := JStr now_str]> default_task_data) in
  let data := match parent_task_id with Some p => <["parent_task_id"%string := JStr p]> data | None => data end in
  let tkey := _task_key task_id in
  let skey := if bool_decide (initial_status = ""%string) then tkey else _status_index_key initial_status in
  let ckey := match parent_task_id with Some p => _children_key p | None => tkey end in
  task_init now tkey skey ckey data ex task_id if_not_exists (bool_decide (initial_status ≠ ""%string))
    (default ""%string parent_task_id) execution_id db.

(** [get_task]: an empty dict when there is none, or no JSON object. *)
Definition get_task (now : Z) (task_id : string) (db : DB) : row :=
  match get now (_task_key task_id) db with Some (SJson r) => r | _ => ∅ end.

Definition exists_task (now : Z) (task_id : string) (db : DB) : bool := exists_key now (_task_key task_id) db.

Definition bulk_get_tasks (now : Z) (task_ids : list string) (db : DB) : list row :=
  (λ tid, get_task now tid db) <$> task_ids.

(** The members of a sorted set in order. *)
Definition score_le (a b : string * Z) : bool := (a.2 <? b.2) || (a.2 =? b.2) && String.leb a.1 b.1.
Definition zrange_all (now : Z) (k : string) (db : DB) : list string := (isort score_le (map_to_list (zset now k db))).*1.

(** [list_children] and [list_task_ids_by_status]: the clock, the clean-up and
    the range are three commands, at [t1], [t2] and [t3]. *)
Definition list_children (t1 t2 t3 : Z) (parent : string) (db : DB) : DB * list string :=
  let db := zremrangebyscore t2 (_children_key parent) t1 db in (db, zrange_all t3 (_children_key parent) db).

Definition list_task_ids_by_status (t1 t2 t3 : Z) (status : string) (limit : option Z) (db : DB) : DB * list string :=
  if match limit with Some n => n <=? 0 | None => false end then (db, [])
  else
    let key := _status_index_key status in
    let db := zremrangebyscore t2 key t1 db in
    let l := zrange_all t3 key db in
    (db, match limit with Some n => take (Z.to_nat n) l | None => l end).

(** *** Attached keys *)

Definition attached_suffixes : list string := ["active_children"; "remaining_deps"; "cancel_votes"; "result_consumers"]%string.
Definition attached_key (task_id suffix : string) : string := (_task_key task_id +:+ ":" +:+ suffix)%string.

(** [_follow_attached_keys_ttl] after an update *)
Definition _follow_attached_keys_ttl (now : Z) (task_id : string) (expiry : Z) (db : DB) : DB :=
  let ex := if expiry <? 0 then ttl now (_task_key task_id) db else expiry in
  if ex <=? 0 then db
  else fold_left (λ db suffix, expire now (attached_key task_id suffix) ex db) attached_suffixes db.

(** [_sync_attached_ttl] of one key after a write to it *)
Definition _sync_attached_ttl (now : Z) (owner key : string) (db : DB) : DB :=
  let owner_ttl := ttl now (_task_key owner) db in
  if exists_key now key db then
    expire now key (if 0 <? owner_ttl then owner_ttl else default_expire_time d) db
  else db.

Definition sadd_active_child (now : Z) (parent child : string) (db : DB) : DB :=
  let key := attached_key parent "active_children" in _sync_attached_ttl now parent key (sadd now key child db).
Definition srem_active_child (now : Z) (parent child : string) (db : DB) : DB :=
  srem now (attached_key parent "active_children") child db.
Definition get_active_children (now : Z) (parent : string) (db : DB) : list string :=
  sorted_strings (elements (smembers now (attached_key parent "active_children") db)).

Definition set_remaining_deps (now : Z) (task_id : string) (n : Z) (db : DB) : DB :=
  let key := attached_key task_id "remaining_deps" in _sync_attached_ttl now task_id key (set now key (SNum n) None db).
Definition decr_remaining_deps (now : Z) (task_id : string) (db : DB) : DB * Z :=
  let key := attached_key task_id "remaining_deps" in
  let db := decr now key db in
  let value := get_num now key db in
  (_sync_attached_ttl now task_id key db, value).
Definition get_remaining_deps (now : Z) (task_id : string) (db : DB) : Z :=
  get_num now (attached_key task_id "remaining_deps") db.

(** [vote_and_check_threshold]: the two commands are one transaction. *)
Definition vote_and_check_threshold (now : Z) (child parent : string) (threshold : Z) (db : DB) : DB * bool :=
  let key := attached_key child "cancel_votes" in
  let db := sadd now key parent db in
  let count := Z.of_nat (size (smembers now key db)) in
  (_sync_attached_ttl now child key db, threshold <=? count).
Definition get_cancel_votes (now : Z) (child : string) (db : DB) : list string :=
  sorted_strings (elements (smembers now (attached_key child "cancel_votes") db)).
Definition clear_cancel_votes (now : Z) (child : string) (db : DB) : DB := del now (attached_key child "cancel_votes") db.

(** [sadd_result_consumer]: [SADD] answers how many members were new. *)
Definition sadd_result_consumer (now : Z) (task_id consumer : string) (db : DB) : DB * bool :=
  let key := attached_key task_id "result_consumers" in
  let added := negb (bool_decide (consumer ∈ smembers now key db)) in
  (_sync_attached_ttl now task_id key (sadd now key consumer db), added).

(** *** Updates *)

(** [update_task]: the record is read and checked at [t1], the script runs at
    [t2] after what others did in between, the attached keys follow at [t3]. *)
Definition update_task (t1 t2 t3 : Z) (others : DB → DB) (task_id : string) (updates : row) (expiry : option Z)
    (validate_status_transfer : bool) (db : DB) : DB * res task_error unit :=
  let ex := default (-1) expiry in
  let check :=
    match updates !! "status"%string with
    | Some new_status =>
        if validate_status_transfer then
          let rec := get_task t1 task_id db in
          if bool_decide (rec = ∅) then Err TaskNotFoundError
          else
            let old_status := default (JStr "") (rec !! "status"%string) in
            if bool_decide (old_status = new_status) then Ok tt
            else match _can_transfer old_status new_status with
                 | Ok true => Ok tt
                 | Ok false => Err InvalidStatusTransferError
                 | Err e => Err e
                 end
        else Ok tt
    | None => Ok tt
    end in
  match check with
  | Err e => (db, Err e)
  | Ok _ =>
      let '(db, reply) := task_update t2 (_task_key task_id) updates ex (status_index_prefix d) task_id
                            (terminal_statuses d) (default_expire_time d) (others db) in
      match reply with
      | SOk => (_follow_attached_keys_ttl t3 task_id ex db, Ok tt)
      | SNotFound => (db, Err TaskNotFoundError)
      | SInvalidTransfer => (db, Err InvalidStatusTransferError)
      | _ => (db, Err RuntimeError)
      end
  end.

Definition request_cancel (t0 t1 t2 t3 : Z) (others : DB → DB) (task_id : string) (db : DB) : DB * res task_error bool :=
  if bool_decide (get_task t0 task_id db = ∅) then (db, Ok false)
  else
    let '(db, r) := update_task t1 t2 t3 others task_id {[ "cancel_requested"%string := JBool true ]} None true db in
    (db, res_map (λ _, true) r).

Definition reopen_task (now : Z) (task_id new_execution_id initial_status : string) (expiry : option Z) (db : DB)
  : DB * res task_error string :=
  let '(db, reply) := task_reopen now (_task_key task_id) task_id new_execution_id initial_status (default (-1) expiry)
                        (status_index_prefix d) (terminal_statuses d) (default_expire_time d) db in
  (db, match reply with
       | SOk => Ok new_execution_id
       | SNotFound => Err TaskNotFoundError
       | SNotTerminal _ => Err InvalidStatusTransferError
       | _ => Err RuntimeError
       end).

End Store.

(** ** Records and indexes agree *)

Section Invariant.

Context `{Redis} `{Cjson}.
Context (d : TaskRedisDB).

(** No key of one kind is a key of another. *)
Record keys_apart : Prop := {
  task_status_apart : ∀ i s, _task_key d i ≠ _status_index_key d s;
  task_children_apart : ∀ i p, _task_key d i ≠ _children_key d p;
  status_children_apart : ∀ s p, _status_index_key d s ≠ _children_key d p
}.
Context (Hkeys : keys_apart).

Lemma task_key_inj i j : _task_key d i = _task_key d j → i = j.
Proof. unfold _task_key. intros E. by do 2 apply (inj (String.append _)) in E. Qed.

Lemma status_key_inj s s' : _status_index_key d s = _status_index_key d s' → s = s'.
Proof. unfold _status_index_key. intros E. by do 2 apply (inj (String.append _)) in E. Qed.

Definition as_record (e : option rentry) : option (row * option Z) :=
  match e with Some {| rval := VStr (SJson r); rexp := x |} => Some (r, x) | _ => None end.
Definition record_at (t : Z) (id : string) (db : DB) : option (row * option Z) := as_record (at_ t (_task_key d id) db).
Definition index (t : Z) (s : string) (db : DB) : gmap string Z := zset t (_status_index_key d s) db.

(** Every unexpired member of the index of a status has a live record with
    that status, expiring at the member's score; every live record is in the
    index of its status until a second before it expires. *)
Record store_ok (t : Z) (db : DB) : Prop := {
  sok_word : ∀ id r x, record_at t id db = Some (r, x) → ∃ s X, status_of r = JStr s ∧ x = Some X;
  sok_sound : ∀ s id sc, index t s db !! id = Some sc → t < sc →
    ∃ r, record_at t id db = Some (r, Some sc) ∧ status_of r = JStr s;
  sok_complete : ∀ id r X s, record_at t id db = Some (r, Some X) → status_of r = JStr s → s ≠ ""%string →
    t + 1000 ≤ X → index t s db !! id = Some X;
  sok_key : ∀ s id sc, index t s db !! id = Some sc → ∃ y, exp_of (at_ t (_status_index_key d s) db) = Some y ∧ sc - 1000 < y;
  sok_empty : index t ""%string db = ∅
}.

Lemma record_later t t' id db r x : t ≤ t' →
  record_at t' id db = Some (r, x) ↔ record_at t id db = Some (r, x) ∧ (∀ X, x = Some X → t' < X).
Proof.
  intros Ht. unfold record_at. rewrite (at_later t t') by done.
  destruct (at_ t (_task_key d id) db) as [[[[| r'|]| | |] [y|]]|]; simpl; try (destruct (decide (t' < y)); simpl); naive_solver.
Qed.

Lemma index_later t t' s db : t ≤ t' → index t' s db = index t s db ∧ exp_of (at_ t' (_status_index_key d s) db) = exp_of (at_ t (_status_index_key d s) db)
  ∨ index t' s db = ∅ ∧ ∃ y, exp_of (at_ t (_status_index_key d s) db) = Some y ∧ y ≤ t'.
Proof. apply zset_later. Qed.

Lemma store_ok_later t t' db : store_ok t db → t ≤ t' → store_ok t' db.
Proof.
  intros [Hw Hs Hc Hk He] Ht. split.
  - intros id r x Hr. apply (record_later t t') in Hr as [Hr _]; [|done]. by eapply Hw.
  - intros s id sc Hi Hsc. destruct (index_later t t' s db Ht) as [[Ei _]|[Ei _]]; rewrite Ei in Hi; [|done].
    destruct (Hs _ _ _ Hi ltac:(lia)) as (r & Hr & Hst). exists r. split; [|done].
    apply (record_later t t'); [done|]. split; [done|]. by intros ? [= <-].
  - intros id r X s Hr Hst Hne HX. apply (record_later t t') in Hr as [Hr _]; [|done].
    pose proof (Hc _ _ _ _ Hr Hst Hne ltac:(lia)) as Hi.
    destruct (index_later t t' s db Ht) as [[-> _]|(_ & y & Hy & Hyt)]; [done|].
    destruct (Hk _ _ _ Hi) as (y' & Hy' & ?). rewrite Hy in Hy'. injection Hy' as <-. lia.
  - intros s id sc Hi. destruct (index_later t t' s db Ht) as [[Ei Ex]|[Ei _]]; rewrite Ei in Hi; [|done].
    rewrite Ex. by eapply Hk.
  - destruct (index_later t t' "" db Ht) as [[Ei _]|[Ei _]]; rewrite Ei; done.
Qed.

(** What writing a record does to the store. *)
Lemma store_ok_write t db db' id r X s' :
  store_ok t db → t < X → status_of r = JStr s' →
  record_at t id db' = Some (r, Some X) → (∀ j, j ≠ id → record_at t j db' = record_at t j db) →
  (∀ w j, j ≠ id → index t w db' !! j = index t w db !! j) →
  (∀ w sc, w ≠ s' → index t w db' !! id = Some sc → sc ≤ t) →
  (s' ≠ ""%string → index t s' db' !! id = Some X) →
  (∀ w j sc, index t w db' !! j = Some sc → ∃ y, exp_of (at_ t (_status_index_key d w) db') = Some y ∧ sc - 1000 < y) →
  index t ""%string db' = ∅ → store_ok t db'.
Proof.
  intros [Hw Hs Hc Hk He] HX Hst Hr Hro Hio Hiw Hin Hik Hie. split; [| | |done|done].
  - intros j rj x Hj. destruct (decide (j = id)) as [->|Hne].
    + rewrite Hr in Hj. injection Hj as <- <-. eauto.
    + rewrite Hro in Hj by done. by eapply Hw.
  - intros w j sc Hj Hsc. destruct (decide (j = id)) as [->|Hne].
    + destruct (decide (w = s')) as [->|Hws]; [|pose proof (Hiw _ _ Hws Hj); lia].
      destruct (decide (s' = "")) as [->|Hs']; [by rewrite Hie in Hj|].
      rewrite Hin in Hj by done. injection Hj as <-. eauto.
    + rewrite Hio in Hj by done. rewrite Hro by done. by apply Hs.
  - intros j rj Xj w Hj Hstj Hww HXj. destruct (decide (j = id)) as [->|Hne].
    + rewrite Hr in Hj. injection Hj as <- <-. rewrite Hst in Hstj. injection Hstj as <-. by apply Hin.
    + rewrite Hio by done. rewrite Hro in Hj by done. by eapply Hc.
Qed.

(** A member added to an index whose key is kept alive as long. *)
Lemma bump_zadd t k id ex db : 0 < ex →
  let db' := bump_ttl t k ex (zadd t k (t + ex * 1000) id db) in
  zset t k db' = <[id := t + ex * 1000]> (zset t k db)
  ∧ (∃ y, exp_of (at_ t k db') = Some y ∧ t + ex * 1000 - 1000 < y ∧ ∀ y0, exp_of (at_ t k db) = Some y0 → y0 ≤ y)
  ∧ ∀ k', k' ≠ k → at_ t k' db' = at_ t k' db.
Proof.
  intros Hex db'. set (X := t + ex * 1000) in *. set (db1 := zadd t k X id db).
  assert (E1 : at_ t k db1 = Some {| rval := VZset (<[id := X]> (zset t k db)); rexp := exp_of (at_ t k db) |}).
  { unfold db1. rewrite at_zadd. unfold zset_entry. by rewrite decide_False by apply insert_non_empty. }
  pose proof (ttl_spec t k db1) as Ht. fold (at_ t k db1) in Ht. rewrite E1 in Ht.
  assert (Hbump : ∀ c : bool, (c = false → ∃ y0, exp_of (at_ t k db) = Some y0 ∧ X - 1000 < y0) →
    (c = true → ∀ y0, exp_of (at_ t k db) = Some y0 → y0 ≤ X) →
    let d1 := if c then expire t k ex db1 else db1 in
    zset t k d1 = <[id := X]> (zset t k db) ∧
    (∃ y, exp_of (at_ t k d1) = Some y ∧ X - 1000 < y ∧ ∀ y0, exp_of (at_ t k db) = Some y0 → y0 ≤ y) ∧
    ∀ k', k' ≠ k → at_ t k' d1 = at_ t k' db).
  { intros [] Hf Htr; cbn zeta.
    - split_and!.
      + rewrite zset_expire by done. unfold zset at 1. by rewrite E1.
      + exists X. rewrite at_expire, E1 by done. split_and!; [done|lia|by apply Htr].
      + intros k' Hk'. unfold db1. by redis_at.
    - split_and!.
      + unfold zset at 1. by rewrite E1.
      + destruct (Hf eq_refl) as (y0 & Hy0 & Hlt). exists y0. rewrite E1. cbn [exp_of mbind option_bind rexp].
        split_and!; [done|done|]. intros y1 Hy1. rewrite Hy0 in Hy1. injection Hy1 as <-. lia.
      + intros k' Hk'. unfold db1. by redis_at. }
  apply Hbump; fold db1; destruct (exp_of (at_ t k db)) as [y0|]; cbn [rexp] in Ht.
  - intros [Hn Hge]%orb_false_iff. exists y0. split; [done|]. apply Z.ltb_ge in Hge. lia.
  - rewrite Ht. done.
  - intros [Hn|Hlt]%orb_true_iff y1 [= <-]; [apply Z.eqb_eq in Hn; lia|apply Z.ltb_lt in Hlt; lia].
  - intros _ y1 [=].
Qed.

(** A record written, its id moved between indexes. *)
Definition move (t : Z) (id : string) (r : row) (ex : Z) (rm : option string) (s' : string) (db : DB) : DB :=
  let db := set t (_task_key d id) (SJson r) (Some ex) db in
  let db := match rm with Some w => zrem t (_status_index_key d w) id db | None => db end in
  if decide (s' = ""%string) then db
  else bump_ttl t (_status_index_key d s') ex (zadd t (_status_index_key d s') (t + ex * 1000) id db).

(** The record alone, and the id out of one index. *)
Lemma unindex_at t db id r ex rm :
  let db1 := set t (_task_key d id) (SJson r) (Some ex) db in
  let db2 := match rm with Some w => zrem t (_status_index_key d w) id db1 | None => db1 end in
  (∀ j, at_ t (_task_key d j) db2 = at_ t (_task_key d j) db1)
  ∧ ∀ w, index t w db2 = (if decide (rm = Some w) then delete id (index t w db) else index t w db)
    ∧ (∀ j sc, index t w db2 !! j = Some sc → exp_of (at_ t (_status_index_key d w) db2) = exp_of (at_ t (_status_index_key d w) db)).
Proof.
  intros db1 db2. pose proof (task_status_apart Hkeys) as Hts. split.
  - intros j. unfold db2. destruct rm as [w0|]; [|done]. by rewrite at_zrem_ne by (by intros E; eapply Hts).
  - assert (Hidx1 : ∀ w, at_ t (_status_index_key d w) db1 = at_ t (_status_index_key d w) db) by (intros w; unfold db1; by rewrite at_set_ne).
    intros w. unfold index, zset, db2. destruct rm as [w0|]; [|rewrite decide_False, Hidx1 by done; done].
    destruct (decide (Some w0 = Some w)) as [[= ->]|Hne].
    + rewrite at_zrem, as_zset_entry, exp_zset_entry. unfold zset. rewrite Hidx1. split; [done|].
      intros j sc Hj. case_decide as Ee; [by rewrite Ee in Hj|done].
    + rewrite at_zrem_ne by (intros E%status_key_inj; congruence). by rewrite Hidx1.
Qed.

(** What a move leaves in the records and the indexes. *)
Lemma move_at t db id r ex rm s' : 0 < ex → rm ≠ Some s' →
  let db' := move t id r ex rm s' db in let X := t + ex * 1000 in
  record_at t id db' = Some (r, Some X) ∧ (∀ j, j ≠ id → at_ t (_task_key d j) db' = at_ t (_task_key d j) db)
  ∧ (∀ w, w ≠ s' ∨ s' = ""%string →
      index t w db' = (if decide (rm = Some w) then delete id (index t w db) else index t w db)
      ∧ ∀ j sc, index t w db' !! j = Some sc → exp_of (at_ t (_status_index_key d w) db') = exp_of (at_ t (_status_index_key d w) db))
  ∧ (s' ≠ ""%string → index t s' db' = <[id := X]> (index t s' db) ∧
      ∃ y, exp_of (at_ t (_status_index_key d s') db') = Some y ∧ X - 1000 < y ∧
        ∀ j sc y0, index t s' db !! j = Some sc → exp_of (at_ t (_status_index_key d s') db) = Some y0 → y0 ≤ y).
Proof.
  intros Hex Hrs db' X. pose proof (task_status_apart Hkeys) as Hts.
  destruct (unindex_at t db id r ex rm) as [Htask2 Hidx2].
  set (db1 := set t (_task_key d id) (SJson r) (Some ex) db) in *.
  set (db2 := match rm with Some w => _ | None => db1 end) in *.
  assert (Hself : record_at t id db1 = Some (r, Some X)) by (unfold record_at, db1; by rewrite at_set_ex by lia).
  assert (Hne : ∀ j, j ≠ id → at_ t (_task_key d j) db1 = at_ t (_task_key d j) db).
  { intros j Hj. unfold db1. by rewrite at_set_ne by (by intros E%task_key_inj). }
  unfold db', move. fold db1 db2. destruct (decide (s' = "")) as [->|Hs'].
  - split_and!; [unfold record_at; by rewrite Htask2|intros j Hj; rewrite Htask2; by apply Hne|by intros w _|done].
  - destruct (bump_zadd t (_status_index_key d s') id ex db2 Hex) as (B1 & (y & B2 & B4 & B5) & B3). split_and!.
    + unfold record_at. by rewrite B3, Htask2.
    + intros j Hj. rewrite B3 by done. rewrite Htask2. by apply Hne.
    + intros w [Hw|]; [|done]. unfold index, zset. rewrite !B3 by (by intros ->%status_key_inj). apply Hidx2.
    + intros _. unfold index at 1. rewrite B1. fold (index t s' db2). rewrite (proj1 (Hidx2 s')), decide_False by done.
      split; [done|]. exists y. split_and!; [done|done|]. intros j sc y0 Hj Hy0. apply B5.
      rewrite (proj2 (Hidx2 s') j sc); [done|]. by rewrite (proj1 (Hidx2 s')), decide_False.
Qed.

Lemma move_record t db id r ex rm s' : 0 < ex → rm ≠ Some s' →
  record_at t id (move t id r ex rm s' db) = Some (r, Some (t + ex * 1000)).
Proof. intros He Hr. by destruct (move_at t db id r ex rm s' He Hr). Qed.

Lemma move_ok t db id r ex rm s' : store_ok t db → 0 < ex → status_of r = JStr s' → rm ≠ Some s' → rm ≠ Some ""%string →
  (∀ w sc, w ≠ s' → rm ≠ Some w → index t w db !! id = Some sc → sc ≤ t) → store_ok t (move t id r ex rm s' db).
Proof.
  intros Hok Hex Hst Hrs Hr0 Hold. destruct (move_at t db id r ex rm s' Hex Hrs) as (Hself & Hrec & Hidx & Hnew).
  set (db' := move t id r ex rm s' db) in *. set (X := t + ex * 1000) in *.
  eapply (store_ok_write t db db' id r X s'); [done|lia|done|done| | | | | |].
  - intros j Hj. unfold record_at. by rewrite Hrec.
  - intros w j Hj. destruct (decide (w = s' ∧ s' ≠ "")) as [[-> Hs']|Hw].
    + by rewrite (proj1 (Hnew Hs')), lookup_insert_ne.
    + rewrite (proj1 (Hidx w ltac:(destruct (decide (s' = "")); tauto))). case_decide; [by rewrite lookup_delete_ne|done].
  - intros w sc Hw. rewrite (proj1 (Hidx w (or_introl Hw))). case_decide; [by rewrite lookup_delete_eq|by apply Hold].
  - intros Hs'. rewrite (proj1 (Hnew Hs')). apply lookup_insert_eq.
  - intros w j sc Hj. destruct (decide (w = s' ∧ s' ≠ "")) as [[-> Hs']|Hw].
    + destruct (Hnew Hs') as [Ei (y & Hy & HX & Hy0)]. exists y. split; [done|]. rewrite Ei in Hj.
      destruct (decide (j = id)) as [->|Hne]; [rewrite lookup_insert_eq in Hj; by injection Hj as <-|].
      rewrite lookup_insert_ne in Hj by done.
      destruct (sok_key _ _ Hok _ _ _ Hj) as (y0 & Hy0' & ?). specialize (Hy0 _ _ _ Hj Hy0'). lia.
    + destruct (Hidx w ltac:(destruct (decide (s' = "")); tauto)) as [Ei Ex]. rewrite (Ex _ _ Hj). rewrite Ei in Hj.
      apply (sok_key _ _ Hok w j sc). case_decide; [by apply lookup_delete_Some in Hj as [_ ?]|done].
  - rewrite (proj1 (Hidx ""%string ltac:(destruct (decide (s' = "")); auto))). rewrite decide_False by done. apply Hok.
Qed.

(** *** The scripts are moves *)

(** The unexpired entries of an id are in the index of its record's status. *)
Lemma index_old t db id w sc : store_ok t db → index t w db !! id = Some sc →
  match record_at t id db with Some (r, _) => status_of r ≠ JStr w → sc ≤ t | None => sc ≤ t end.
Proof.
  intros Hok Hi. destruct (decide (t < sc)) as [Hlt|Hge]; [|destruct (record_at t id db) as [[]|]; [intros _|]; lia].
  destruct (sok_sound _ _ Hok _ _ _ Hi Hlt) as (r & -> & Hr). done.
Qed.

Lemma status_of_recode r s : status_of r = JStr s → status_of (recode <$> r) = JStr s.
Proof.
  unfold status_of. rewrite lookup_fmap. destruct (r !! "status"%string) as [v|]; simpl; [|done].
  destruct v as [|[]| | | | | |]; try done; intros [= ->]; by rewrite ?recode_bool, ?recode_str.
Qed.

Lemma store_ok_ext t db db' : store_ok t db → (∀ j, record_at t j db' = record_at t j db) →
  (∀ w, at_ t (_status_index_key d w) db' = at_ t (_status_index_key d w) db) → store_ok t db'.
Proof.
  intros [Hw Hs Hc Hk He] Hr Hi. assert (Hix : ∀ w, index t w db' = index t w db) by (intros w; unfold index, zset; by rewrite Hi).
  split.
  - intros id r x. rewrite Hr. apply Hw.
  - intros s id sc. rewrite Hix, Hr. apply Hs.
  - intros id r X s. rewrite Hr, Hix. apply Hc.
  - intros s id sc. rewrite Hix, Hi. apply Hk.
  - by rewrite Hix.
Qed.

Lemma record_get t id db r x : record_at t id db = Some (r, x) → get t (_task_key d id) db = Some (SJson r).
Proof. unfold record_at, get. destruct (at_ t (_task_key d id) db) as [[[[| r'|]| | |] ?]|]; simpl; congruence. Qed.

Lemma get_record t id db r : get t (_task_key d id) db = Some (SJson r) → ∃ x, record_at t id db = Some (r, x).
Proof.
  unfold record_at, get. destruct (at_ t (_task_key d id) db) as [[[[| r'|]| | |] x]|]; simpl; try done.
  intros [= ->]. eauto.
Qed.

(** The status an update leads to. *)
Definition new_word (updates : row) (s : string) : string :=
  match updates !! "status"%string with Some (JStr w) => w | _ => s end.
Definition words_only (updates : row) : Prop := ∀ v, updates !! "status"%string = Some v → ∃ w, v = JStr w.

(** [task_update] on a live record. *)
Lemma task_update_record t id updates ex terminal default_ex db cur x s :
  words_only updates → record_at t id db = Some (cur, x) → status_of cur = JStr s →
  let s' := new_word updates s in
  let e := resolve_expiry t (_task_key d id) ex default_ex db in
  task_update t (_task_key d id) updates ex (status_index_prefix d) id terminal default_ex db =
    (if decide (s ≠ s' ∧ s ∈ terminal) then (db, SInvalidTransfer)
     else if decide (e ≤ 0) then (db, SError)
     else (move t id (recode <$> updates ∪ cur) e (if decide (s ≠ s' ∧ s ≠ ""%string) then Some s else None) s' db, SOk))
  ∧ status_of (recode <$> updates ∪ cur) = JStr s'.
Proof.
  intros Hwords Hr Hs s' e. split.
  2: { apply status_of_recode. unfold s', new_word, status_of in *. rewrite lookup_union.
       destruct (updates !! "status"%string) as [v|] eqn:Ev; [destruct (Hwords v Ev) as [w ->]|];
         destruct (cur !! "status"%string); simpl; done. }
  unfold task_update. rewrite (record_get _ _ _ _ _ Hr). fold e. rewrite Hs.
  assert (Hnew : default (JStr s) (updates !! "status"%string) = JStr s').
  { unfold s', new_word. destruct (updates !! "status"%string) as [v|] eqn:Ev; [|done]. by destruct (Hwords v Ev) as [w ->]. }
  assert (Hmoved : match updates !! "status"%string with Some v => lua_ne (JStr s) v | None => false end = bool_decide (s ≠ s')).
  { unfold s', new_word. destruct (updates !! "status"%string) as [v|] eqn:Ev; [destruct (Hwords v Ev) as [w ->]|]; simpl;
      [|by rewrite bool_decide_false by tauto]. apply bool_decide_ext. split; [intros Hn ->; done|intros Hn [= ->]; done]. }
  rewrite Hmoved, Hnew. cbn [in_words]. rewrite <- bool_decide_and. unfold move, index_remove, index_add. rewrite !lua_text_str.
  destruct (decide (s ≠ s' ∧ s ∈ terminal)) as [Ht|Ht]; [by rewrite bool_decide_true|rewrite bool_decide_false by done].
  destruct (Z.leb_spec e 0); [by rewrite decide_True by lia|rewrite decide_False by lia].
  rewrite <- bool_decide_and. destruct (decide (s ≠ s' ∧ s ≠ ""%string)) as [Hm|Hm].
  - rewrite bool_decide_true by (destruct Hm; split; [done|congruence]).
    destruct (decide (s' = "")) as [->|Hs']; [by rewrite bool_decide_true|by rewrite bool_decide_false by congruence].
  - rewrite bool_decide_false by (intros [? Hn]; apply Hm; split; [done|]; intros ->; done).
    destruct (decide (s' = "")) as [->|Hs']; [by rewrite bool_decide_true|by rewrite bool_decide_false by congruence].
Qed.

Lemma new_generation_status t cur eid s0 : status_of (recode <$> new_generation t cur eid s0) = JStr s0.
Proof.
  apply status_of_recode. unfold status_of, new_generation.
  rewrite lookup_insert_ne by done. rewrite !lookup_delete_ne by done. rewrite lookup_insert_ne by done. by rewrite lookup_insert_eq.
Qed.

(** [task_reopen] on a live record. *)
Lemma task_reopen_record t id eid s0 ex terminal default_ex db cur x s :
  record_at t id db = Some (cur, x) → status_of cur = JStr s → s0 ∉ terminal →
  let e := resolve_expiry t (_task_key d id) ex default_ex db in
  task_reopen t (_task_key d id) id eid s0 ex (status_index_prefix d) terminal default_ex db =
    (if decide (s ∈ terminal) then
       if decide (e ≤ 0) then (db, SError)
       else (move t id (recode <$> new_generation t cur eid s0) e (if decide (s ≠ ""%string) then Some s else None) s0 db, SOk)
     else (db, SNotTerminal (JStr s))).
Proof.
  intros Hr Hs Hs0 e. unfold task_reopen. rewrite (record_get _ _ _ _ _ Hr). fold e. rewrite Hs. cbn [in_words].
  destruct (decide (s ∈ terminal)) as [Ht|Ht]; [rewrite bool_decide_true by done|by rewrite bool_decide_false]. cbn [negb].
  destruct (Z.leb_spec e 0); [by rewrite decide_True by lia|rewrite decide_False by lia].
  unfold move, index_remove, index_add. rewrite !lua_text_str.
  destruct (decide (s ≠ "")) as [Hne|Hne].
  - rewrite bool_decide_true by congruence. cbn [default from_option].
    destruct (decide (s0 = "")) as [->|Hs']; [by rewrite bool_decide_true|by rewrite bool_decide_false by congruence].
  - rewrite bool_decide_false by (intros Hn; apply Hne; congruence).
    destruct (decide (s0 = "")) as [->|Hs']; [by rewrite bool_decide_true|by rewrite bool_decide_false by congruence].
Qed.

(** [initialize_task] of a task that has no record. *)
Lemma initialize_record t now_str eid id expiry s0 ine parent db :
  let ex := default (default_expire_time d) expiry in
  store_ok t db → exists_key t (_task_key d id) db = false → 0 < ex →
  let '(db', r) := initialize_task d t now_str eid id expiry s0 ine parent db in
  r = Some true ∧ store_ok t db' ∧
  ∃ rec, record_at t id db' = Some (rec, Some (t + ex * 1000)) ∧ status_of rec = JStr s0
         ∧ rec !! "execution_id"%string = Some (JStr eid) ∧ rec !! "cancel_requested"%string = Some (JBool false).
Proof.
  intros ex Hok Hno Hex. unfold initialize_task, task_init. rewrite Hno, andb_false_r. fold ex.
  destruct (Z.leb_spec ex 0); [lia|].
  set (data := match parent with Some p => _ | None => _ end). set (rec := recode <$> _).
  assert (Hst : status_of rec = JStr s0).
  { apply status_of_recode. unfold data, status_of. rewrite lookup_insert_ne by done.
    destruct parent; [rewrite lookup_insert_ne by done|]; by rewrite lookup_insert_eq. }
  assert (Hfields : rec !! "execution_id"%string = Some (JStr eid) ∧ rec !! "cancel_requested"%string = Some (JBool false)).
  { unfold rec. rewrite !lookup_fmap, lookup_insert_eq. rewrite lookup_insert_ne by done. cbn [fmap option_fmap option_map].
    rewrite recode_str. split; [done|]. unfold data.
    destruct parent; rewrite ?(lookup_insert_ne _ "parent_task_id"%string) by done;
      rewrite !lookup_insert_ne by done;
      change (default_task_data !! "cancel_requested"%string) with (Some (JBool false)); cbn [fmap option_fmap option_map]; by rewrite recode_bool. }
  set (mv := move t id rec ex None s0 db).
  assert (Hmv : store_ok t mv).
  { apply move_ok; [done..|]. intros w sc Hw _ Hi. pose proof (index_old _ _ _ _ _ Hok Hi) as Ho.
    assert (record_at t id db = None) as E; [|by rewrite E in Ho].
    unfold exists_key in Hno. unfold record_at. by destruct (at_ t (_task_key d id) db). }
  destruct (move_at t db id rec ex None s0 Hex ltac:(done)) as (Hself & _ & _ & _). fold mv in Hself.
  set (skey := if bool_decide (s0 = ""%string) then _ else _).
  assert (Hmveq : (if bool_decide (s0 ≠ ""%string)
    then bump_ttl t skey ex (zadd t skey (t + ex * 1000) id (set t (_task_key d id) (SJson rec) (Some ex) db))
    else set t (_task_key d id) (SJson rec) (Some ex) db) = mv).
  { unfold mv, move, skey. destruct (decide (s0 = "")) as [->|Hne]; [done|]. by rewrite !bool_decide_true, bool_decide_false by done. }
  rewrite Hmveq. split; [done|]. destruct (bool_decide (default ""%string parent ≠ ""%string)) eqn:Ep.
  - destruct parent as [p|]; [|done]. cbn [default].
    destruct (bump_zadd t (_children_key d p) id ex mv Hex) as (_ & _ & Hother). split.
    + eapply store_ok_ext; [exact Hmv| |]; intros j.
      * unfold record_at. rewrite Hother; [done|]. apply Hkeys.
      * apply Hother, Hkeys.
    + exists rec. split_and!; [|done|apply Hfields..]. unfold record_at. rewrite Hother; [done|]. apply Hkeys.
  - split; [done|]. exists rec. split_and!; [done..|apply Hfields|apply Hfields].
Qed.

Lemma initialize_existing t now_str eid id expiry s0 ine parent db :
  (ine = true ∧ exists_key t (_task_key d id) db = true ∨ default (default_expire_time d) expiry ≤ 0) →
  (initialize_task d t now_str eid id expiry s0 ine parent db).1 = db ∧
  (initialize_task d t now_str eid id expiry s0 ine parent db).2 ≠ Some true.
Proof.
  intros Hc. unfold initialize_task, task_init. destruct (ine && exists_key t (_task_key d id) db) eqn:E; [done|].
  destruct Hc as [[-> Hx]|Hx]; [by rewrite Hx in E|]. by destruct (Z.leb_spec (default (default_expire_time d) expiry) 0); [|lia].
Qed.

(** *** Runs *)

Inductive top :=
  | TInit (id now_str eid s0 : string) (expiry : option Z) (if_not_exists : bool) (parent : option string)
  | TUpdate (id : string) (updates : row) (expiry : Z)
  | TReopen (id eid s0 : string) (expiry : Z)
  | TPurge (s : string) (p : Z).

Definition texec (t : Z) (o : top) (db : DB) : DB * option script_reply :=
  match o with
  | TInit id now_str eid s0 expiry ine parent =>
      let '(db, r) := initialize_task d t now_str eid id expiry s0 ine parent db in
      (db, match r with Some true => Some SOk | _ => None end)
  | TUpdate id updates expiry =>
      let '(db, r) := task_update t (_task_key d id) updates expiry (status_index_prefix d) id (terminal_statuses d) (default_expire_time d) db in
      (db, Some r)
  | TReopen id eid s0 expiry =>
      let '(db, r) := task_reopen t (_task_key d id) id eid s0 expiry (status_index_prefix d) (terminal_statuses d) (default_expire_time d) db in
      (db, Some r)
  | TPurge s p => (zremrangebyscore t (_status_index_key d s) p db, None)
  end.

(** A task is not initialised over an existing record, statuses are words, a
    new generation does not start in a terminal state, clean-ups use an
    earlier reading of the clock. *)
Definition sane (t : Z) (o : top) (db : DB) : Prop :=
  match o with
  | TInit id _ _ _ _ ine _ => ine = true ∨ exists_key t (_task_key d id) db = false
  | TUpdate _ updates _ => words_only updates
  | TReopen _ _ s0 _ => s0 ∉ terminal_statuses d
  | TPurge _ p => p ≤ t
  end.

Inductive task_run (t0 : Z) (db0 : DB) : list (Z * top * option script_reply) → Z → DB → Prop :=
  | trun_nil : task_run t0 db0 [] t0 db0
  | trun_other tr t db t' db' :
      task_run t0 db0 tr t db → t ≤ t' → (∀ j, record_at t' j db' = record_at t' j db) →
      (∀ w, at_ t' (_status_index_key d w) db' = at_ t' (_status_index_key d w) db) → task_run t0 db0 tr t' db'
  | trun_op tr t db t' o db' r :
      task_run t0 db0 tr t db → t ≤ t' → sane t' o db → texec t' o db = (db', r) → task_run t0 db0 (tr ++ [(t', o, r)]) t' db'.

(** A key without a record: the scripts do nothing. *)
Lemma get_no_record t id db : record_at t id db = None →
  get t (_task_key d id) db = None ∨ ∃ v, get t (_task_key d id) db = Some v ∧ ∀ r, v ≠ SJson r.
Proof.
  unfold record_at, get. destruct (at_ t (_task_key d id) db) as [[[[| r|]| | |] x]|]; simpl; eauto; try done.
Qed.

Lemma task_update_no_record t id updates ex prefix terminal default_ex db : record_at t id db = None →
  (task_update t (_task_key d id) updates ex prefix id terminal default_ex db).1 = db ∧
  (task_update t (_task_key d id) updates ex prefix id terminal default_ex db).2 ≠ SOk.
Proof. intros Hr. unfold task_update. destruct (get_no_record _ _ _ Hr) as [->|([] & -> & Hv)]; try done. by destruct (Hv r). Qed.

Lemma task_reopen_no_record t id eid s0 ex prefix terminal default_ex db : record_at t id db = None →
  (task_reopen t (_task_key d id) id eid s0 ex prefix terminal default_ex db).1 = db ∧
  (task_reopen t (_task_key d id) id eid s0 ex prefix terminal default_ex db).2 ≠ SOk.
Proof. intros Hr. unfold task_reopen. destruct (get_no_record _ _ _ Hr) as [->|([] & -> & Hv)]; try done. by destruct (Hv r). Qed.

Lemma purge_index_ok t s p db : p ≤ t → store_ok t db → store_ok t (zremrangebyscore t (_status_index_key d s) p db).
Proof.
  intros Hp Hok. set (db' := zremrangebyscore _ _ _ _).
  assert (Hr : ∀ j, record_at t j db' = record_at t j db).
  { intros j. unfold record_at, db'. by rewrite at_zremrange_ne by (intros E; by eapply (task_status_apart Hkeys)). }
  assert (Hi : ∀ w, (∀ j sc, index t w db' !! j = Some sc → index t w db !! j = Some sc ∧
              exp_of (at_ t (_status_index_key d w) db') = exp_of (at_ t (_status_index_key d w) db))
            ∧ ∀ j sc, t < sc → index t w db !! j = Some sc → index t w db' !! j = Some sc).
  { intros w. unfold index, zset, db'. destruct (decide (s = w)) as [->|Hw].
    - rewrite at_zremrange, as_zset_entry, exp_zset_entry. split.
      + intros j sc Hj. pose proof Hj as Hj'. apply map_lookup_filter_Some in Hj as [Hj _]. split; [done|].
        case_decide as Ee; [by rewrite Ee in Hj'|done].
      + intros j sc Hsc Hj. apply map_lookup_filter_Some. split; [done|]. simpl. lia.
    - rewrite at_zremrange_ne by (by intros E%status_key_inj). naive_solver. }
  destruct Hok as [Hw Hs Hc Hk He]. split.
  - intros id r x. rewrite Hr. apply Hw.
  - intros w id sc Hj. rewrite Hr. apply Hs. by apply (proj1 (Hi w)).
  - intros id r X w. rewrite Hr. intros Hrx Hst Hne HX. apply (proj2 (Hi w)); [lia|]. by eapply Hc.
  - intros w id sc Hj. destruct (proj1 (Hi w) _ _ Hj) as [Hj' ->]. by eapply Hk.
  - apply map_eq. intros j. destruct (index t "" db' !! j) as [sc|] eqn:Ej; [|done].
    apply (proj1 (Hi _)) in Ej as [Ej _]. by rewrite He in Ej.
Qed.

(** A live record rewritten with a status: the id leaves the index of the old
    status, the only one that holds it unexpired. *)
Lemma restatus_ok t db id cur x s r s' e : store_ok t db → record_at t id db = Some (cur, x) → status_of cur = JStr s →
  status_of r = JStr s' → 0 < e → store_ok t (move t id r e (if decide (s ≠ s' ∧ s ≠ ""%string) then Some s else None) s' db).
Proof.
  intros Hok Hr Hs Hs' He. apply move_ok; [done..| | |].
  - case_decide; naive_solver.
  - case_decide; naive_solver.
  - intros w sc Hw Hrm Hi. pose proof (index_old _ _ _ _ _ Hok Hi) as Ho. rewrite Hr in Ho. apply Ho.
    rewrite Hs. intros [= ->]. destruct (decide (w = "")) as [->|Hne]; [by rewrite (sok_empty _ _ Hok) in Hi|].
    apply Hrm. by rewrite decide_True.
Qed.

Lemma update_script_ok t db id updates ex db' r : store_ok t db → words_only updates →
  task_update t (_task_key d id) updates ex (status_index_prefix d) id (terminal_statuses d) (default_expire_time d) db = (db', r) →
  store_ok t db'.
Proof.
  intros Hok Hw Eu. destruct (record_at t id db) as [[cur x]|] eqn:Er.
  - destruct (sok_word _ _ Hok _ _ _ Er) as (s & X & Hs & ->).
    destruct (task_update_record t id updates ex (terminal_statuses d) (default_expire_time d) db cur (Some X) s Hw Er Hs) as [Eq Hst].
    rewrite Eu in Eq. destruct (decide (s ≠ new_word updates s ∧ s ∈ terminal_statuses d)); [by injection Eq as -> ->|].
    destruct (decide (resolve_expiry _ _ _ _ _ ≤ 0)); [by injection Eq as -> ->|]. injection Eq as -> ->.
    eapply restatus_ok; [done..|lia].
  - destruct (task_update_no_record t id updates ex (status_index_prefix d) (terminal_statuses d) (default_expire_time d) db Er) as [E _].
    rewrite Eu in E. by cbn in E; subst.
Qed.

Lemma reopen_script_ok t db id eid s0 ex db' r : store_ok t db → s0 ∉ terminal_statuses d →
  task_reopen t (_task_key d id) id eid s0 ex (status_index_prefix d) (terminal_statuses d) (default_expire_time d) db = (db', r) →
  store_ok t db'.
Proof.
  intros Hok Hs0 Eu. destruct (record_at t id db) as [[cur x]|] eqn:Er.
  - destruct (sok_word _ _ Hok _ _ _ Er) as (s & X & Hs & ->).
    pose proof (task_reopen_record t id eid s0 ex (terminal_statuses d) (default_expire_time d) db cur (Some X) s Er Hs Hs0) as Eq.
    cbn zeta in Eq. rewrite Eu in Eq. destruct (decide (s ∈ terminal_statuses d)) as [Ht|]; [|by injection Eq as -> ->].
    destruct (decide (resolve_expiry _ _ _ _ _ ≤ 0)); [by injection Eq as -> ->|]. injection Eq as -> ->.
    replace (if decide (s ≠ "") then Some s else None) with (if decide (s ≠ s0 ∧ s ≠ ""%string) then Some s else None).
    + eapply restatus_ok; [done..|apply new_generation_status|lia].
    + destruct (decide (s ≠ "")), (decide (s ≠ s0 ∧ s ≠ "")); try done; try tauto. assert (s ≠ s0) by (by intros ->). tauto.
  - destruct (task_reopen_no_record t id eid s0 ex (status_index_prefix d) (terminal_statuses d) (default_expire_time d) db Er) as [E _].
    rewrite Eu in E. by cbn in E; subst.
Qed.

Lemma texec_ok t o db db' r : store_ok t db → sane t o db → texec t o db = (db', r) → store_ok t db'.
Proof.
  intros Hok Hsane Hx. destruct o as [id now_str eid s0 expiry ine parent|id updates ex|id eid s0 ex|s p]; cbn in Hx, Hsane.
  - destruct (decide (exists_key t (_task_key d id) db = false ∧ 0 < default (default_expire_time d) expiry)) as [[Hno Hex]|Hskip].
    + pose proof (initialize_record t now_str eid id expiry s0 ine parent db Hok Hno Hex) as Hi.
      destruct (initialize_task _ _ _ _ _ _ _ _ _ _) as [db1 r1]. destruct Hi as (-> & Hi & _). by injection Hx as <- <-.
    + destruct (initialize_existing t now_str eid id expiry s0 ine parent db) as [E _].
      { destruct (exists_key t (_task_key d id) db) eqn:Ee; [left; naive_solver|right]. apply Z.nlt_ge. naive_solver. }
      destruct (initialize_task _ _ _ _ _ _ _ _ _ _) as [db1 r1]. cbn in E. subst db1. by injection Hx as <- <-.
  - destruct (task_update _ _ _ _ _ _ _ _ _) as [db1 r1] eqn:Eu. injection Hx as <- <-. by eapply update_script_ok.
  - destruct (task_reopen _ _ _ _ _ _ _ _ _ _) as [db1 r1] eqn:Eu. injection Hx as <- <-. by eapply reopen_script_ok.
  - injection Hx as <- <-. by apply purge_index_ok.
Qed.

Lemma store_ok_empty t db : (∀ k, entry db k = None) → store_ok t db.
Proof.
  intros He. split; unfold record_at, index, zset, at_.
  - intros id r x. by rewrite He.
  - intros s id sc. by rewrite He.
  - intros id r X s. by rewrite He.
  - intros s id sc. by rewrite He.
  - by rewrite He.
Qed.

Lemma task_run_ok t0 db0 tr t db : task_run t0 db0 tr t db → store_ok t0 db0 → store_ok t db ∧ t0 ≤ t.
Proof.
  intros Hr Hok0. induction Hr as [|tr t db t' db' Hr [IH Ht0] Ht E1 E2|tr t db t' o db' r Hr [IH Ht0] Ht Hs Hx].
  - done.
  - split; [|lia]. eapply store_ok_ext; [|done..]. by eapply store_ok_later.
  - split; [|lia]. eapply texec_ok; [|done..]. by eapply store_ok_later.
Qed.

(** The record of a task under one operation. *)
Definition op_id (o : top) : option string :=
  match o with TInit id _ _ _ _ _ _ | TUpdate id _ _ | TReopen id _ _ _ => Some id | TPurge _ _ => None end.

Lemma bump_ttl_ne t t' k k' ex db : k ≠ k' → at_ t' k' (bump_ttl t k ex db) = at_ t' k' db.
Proof. intros Hk. unfold bump_ttl. destruct (_ || _); [by apply at_expire_ne|done]. Qed.

(** A script on one task leaves the records of the others. *)
Lemma index_key_ne w j : (status_index_prefix d +:+ ":" +:+ w)%string ≠ _task_key d j.
Proof. intros E. by apply (task_status_apart Hkeys j w). Qed.

Lemma index_add_ne t j id v ex db db' : index_add t (status_index_prefix d) id v ex db = Some db' →
  at_ t (_task_key d j) db' = at_ t (_task_key d j) db.
Proof.
  unfold index_add. case_match; [by intros [= <-]|]. case_match; [|done]. intros [= <-].
  by rewrite bump_ttl_ne, at_zadd_ne by apply index_key_ne.
Qed.

Lemma index_remove_ne t j id v db db' : index_remove t (status_index_prefix d) id v db = Some db' →
  at_ t (_task_key d j) db' = at_ t (_task_key d j) db.
Proof. unfold index_remove. case_match; [|done]. intros [= <-]. by rewrite at_zrem_ne by apply index_key_ne. Qed.

Lemma task_update_ne t j id updates ex terminal default_ex db : j ≠ id →
  at_ t (_task_key d j) (task_update t (_task_key d id) updates ex (status_index_prefix d) id terminal default_ex db).1
  = at_ t (_task_key d j) db.
Proof.
  intros Hj. assert (Hk : _task_key d id ≠ _task_key d j) by (by intros E%task_key_inj). unfold task_update.
  destruct (get _ _ _) as [[| cur|]|]; try done. destruct (_ && _); [done|]. destruct (_ <=? 0); [done|].
  set (db1 := set _ _ _ _ _). assert (E1 : at_ t (_task_key d j) db1 = at_ t (_task_key d j) db) by (by apply at_set_ne).
  destruct (if _ && _ then _ else _) as [db2|] eqn:E2; [|done].
  assert (E3 : at_ t (_task_key d j) db2 = at_ t (_task_key d j) db1).
  { destruct (_ && _); [by eapply index_remove_ne|by injection E2 as <-]. }
  destruct (index_add _ _ _ _ _ _) as [db3|] eqn:E4; cbn [fst]; [rewrite (index_add_ne _ _ _ _ _ _ _ E4)|]; congruence.
Qed.

Lemma task_reopen_ne t j id eid s0 ex terminal default_ex db : j ≠ id →
  at_ t (_task_key d j) (task_reopen t (_task_key d id) id eid s0 ex (status_index_prefix d) terminal default_ex db).1
  = at_ t (_task_key d j) db.
Proof.
  intros Hj. assert (Hk : _task_key d id ≠ _task_key d j) by (by intros E%task_key_inj). unfold task_reopen.
  destruct (get _ _ _) as [[| cur|]|]; try done. destruct (negb _); [done|]. destruct (_ <=? 0); [done|]. cbn [fst].
  set (db1 := set _ _ _ _ _). assert (E1 : at_ t (_task_key d j) db1 = at_ t (_task_key d j) db) by (by apply at_set_ne).
  set (db2 := if bool_decide _ then _ else db1).
  assert (E2 : at_ t (_task_key d j) db2 = at_ t (_task_key d j) db1).
  { unfold db2. case_match; [|done]. destruct (index_remove _ _ _ _ db1) eqn:Ei; [by eapply index_remove_ne|done]. }
  destruct (index_add _ _ _ _ _ db2) eqn:Ea; simpl; [rewrite (index_add_ne _ _ _ _ _ _ _ Ea)|]; congruence.
Qed.

Lemma initialize_task_ne t j now_str eid id expiry s0 ine parent db : j ≠ id →
  at_ t (_task_key d j) (initialize_task d t now_str eid id expiry s0 ine parent db).1 = at_ t (_task_key d j) db.
Proof.
  intros Hj. assert (Hk : _task_key d id ≠ _task_key d j) by (by intros E%task_key_inj). unfold initialize_task, task_init.
  destruct (_ && _); [done|]. destruct (_ <=? 0); [done|]. cbn [fst].
  set (db1 := set _ _ _ _ _). assert (E1 : at_ t (_task_key d j) db1 = at_ t (_task_key d j) db) by (by apply at_set_ne).
  set (db2 := if bool_decide (s0 ≠ _) then _ else db1).
  assert (E2 : at_ t (_task_key d j) db2 = at_ t (_task_key d j) db1).
  { unfold db2. destruct (decide (s0 = "")) as [->|Hs]; [done|].
    rewrite !bool_decide_true, bool_decide_false by done. by rewrite bump_ttl_ne, at_zadd_ne by (intros E; by eapply (task_status_apart Hkeys)). }
  destruct parent as [p|]; simpl; [|congruence]. case_match; [|congruence].
  rewrite bump_ttl_ne, at_zadd_ne by (intros E; by eapply (task_children_apart Hkeys)). congruence.
Qed.

Lemma texec_other t j o db db' r : op_id o ≠ Some j → texec t o db = (db', r) → record_at t j db' = record_at t j db.
Proof.
  intros Hj Hx. unfold record_at. f_equal. destruct o as [id now_str eid s0 expiry ine parent|id updates ex|id eid s0 ex|s p]; cbn in Hx, Hj.
  - pose proof (initialize_task_ne t j now_str eid id expiry s0 ine parent db ltac:(congruence)) as E.
    destruct (initialize_task _ _ _ _ _ _ _ _ _ _). by injection Hx as <- <-.
  - pose proof (task_update_ne t j id updates ex (terminal_statuses d) (default_expire_time d) db ltac:(congruence)) as E.
    destruct (task_update _ _ _ _ _ _ _ _ _). by injection Hx as <- <-.
  - pose proof (task_reopen_ne t j id eid s0 ex (terminal_statuses d) (default_expire_time d) db ltac:(congruence)) as E.
    destruct (task_reopen _ _ _ _ _ _ _ _ _ _). by injection Hx as <- <-.
  - injection Hx as <- <-. apply at_zremrange_ne. intros E. by eapply (task_status_apart Hkeys).
Qed.

(** An update of a task in a terminal status, or of no task. *)
Lemma update_terminal t id updates ex db db' r s : store_ok t db → words_only updates → s ∈ terminal_statuses d →
  (∀ rec x, record_at t id db = Some (rec, x) → status_of rec = JStr s) →
  texec t (TUpdate id updates ex) db = (db', r) →
  (∀ rec x, record_at t id db' = Some (rec, x) → status_of rec = JStr s) ∧ (new_word updates s ≠ s → r ≠ Some SOk).
Proof.
  intros Hok Hw Hs Hrec Hx. cbn in Hx. destruct (task_update _ _ _ _ _ _ _ _ _) as [db1 r1] eqn:Eu. injection Hx as <- <-.
  destruct (record_at t id db) as [[cur x]|] eqn:Er.
  - pose proof (Hrec _ _ eq_refl) as Hst.
    destruct (task_update_record t id updates ex (terminal_statuses d) (default_expire_time d) db cur x s Hw Er Hst) as [Eq Hst'].
    rewrite Eu in Eq. destruct (decide (s ≠ new_word updates s ∧ s ∈ terminal_statuses d)) as [|Hn].
    + injection Eq as -> ->. split; [intros ? ?; rewrite Er; apply Hrec|done].
    + assert (new_word updates s = s) as Enw by (destruct (decide (new_word updates s = s)); [done|naive_solver]).
      split; [|done]. rewrite Enw in *. destruct (decide (resolve_expiry _ _ _ _ _ ≤ 0)); injection Eq as -> ->.
      * intros ? ?. rewrite Er. apply Hrec.
      * intros rec y. rewrite move_record by first [lia|case_decide; naive_solver]. by intros [= <- <-].
  - destruct (task_update_no_record t id updates ex (status_index_prefix d) (terminal_statuses d) (default_expire_time d) db Er) as [E1 E2].
    rewrite Eu in E1, E2. cbn in E1, E2. subst db1. split; [intros ? ?; by rewrite Er|congruence].
Qed.

(** Time and other clients do not bring a record in. *)
Lemma record_keeps t t' id db db' (P : row → Prop) : t ≤ t' → record_at t' id db' = record_at t' id db →
  (∀ r x, record_at t id db = Some (r, x) → P r) → ∀ r x, record_at t' id db' = Some (r, x) → P r.
Proof. intros Ht E Hp r x. rewrite E. intros Hr. apply (record_later t t') in Hr as [Hr _]; [by eapply Hp|done]. Qed.

Definition only_on (id : string) (f : top → bool) (tr : list (Z * top * option script_reply)) : Prop :=
  ∀ t o r, (t, o, r) ∈ tr → op_id o = Some id → f o = true.

Lemma only_on_snoc id f tr t o r : only_on id f (tr ++ [(t, o, r)]) → only_on id f tr ∧ (op_id o = Some id → f o = true).
Proof.
  intros Hf. split; [intros t' o' r' Hin; eapply Hf, elem_of_app; by left|]. eapply Hf, elem_of_app. right. by left.
Qed.

Definition is_update (o : top) : bool := match o with TUpdate _ _ _ => true | _ => false end.
Definition is_reopen (o : top) : bool := match o with TReopen _ _ _ _ => true | _ => false end.

Lemma terminal_run t1 db1 tr t db id s : store_ok t1 db1 → s ∈ terminal_statuses d →
  (∀ rec x, record_at t1 id db1 = Some (rec, x) → status_of rec = JStr s) →
  task_run t1 db1 tr t db → only_on id is_update tr →
  (∀ rec x, record_at t id db = Some (rec, x) → status_of rec = JStr s) ∧
  ∀ t' updates ex r, (t', TUpdate id updates ex, r) ∈ tr → new_word updates s ≠ s → r ≠ Some SOk.
Proof.
  intros Hok Hs H1. induction 1 as [|tr t db t' db' Hr IH Ht E1 E2|tr t db t' o db' r Hr IH Ht Hsane Hx]; intros Honly.
  - split; [done|]. by intros ? ? ? ? ?%not_elem_of_nil.
  - destruct (IH Honly) as [Ha Hb]. split; [|done]. by eapply (record_keeps t t' id db db' (λ r, status_of r = JStr s)).
  - apply only_on_snoc in Honly as [Honly Ho]. destruct (IH Honly) as [Ha Hb].
    pose proof (record_keeps t t' id db db (λ r, status_of r = JStr s) Ht eq_refl Ha) as Ha'.
    destruct (task_run_ok _ _ _ _ _ Hr Hok) as [Hok' _]. pose proof (store_ok_later _ t' _ Hok' Ht) as Hok2.
    destruct (decide (op_id o = Some id)) as [Eid|Hne].
    + specialize (Ho Eid). destruct o as [|id' updates ex| |]; try done. cbn in Eid. injection Eid as ->.
      destruct (update_terminal t' id updates ex db db' r s Hok2 Hsane Hs Ha' Hx) as [Hc Hd]. split; [done|].
      intros t2 u2 e2 r2 [Hin|[= -> <- <- ->]%list_elem_of_singleton]%elem_of_app; [by eapply Hb|done].
    + pose proof (texec_other t' id o db db' r Hne Hx) as Er. split; [intros ? ?; rewrite Er; apply Ha'|].
      intros t2 u2 e2 r2 [Hin|[= -> <- <-]%list_elem_of_singleton]%elem_of_app; [by eapply Hb|done].
Qed.

(** A reopening: won on a terminal record, lost on any other. *)
Lemma reopen_step t id eid s0 ex db db' r : store_ok t db → s0 ∉ terminal_statuses d →
  texec t (TReopen id eid s0 ex) db = (db', r) →
  (r = Some SOk ∧ (∃ rec x s, record_at t id db = Some (rec, x) ∧ status_of rec = JStr s ∧ s ∈ terminal_statuses d)
     ∧ ∀ rec x, record_at t id db' = Some (rec, x) → status_of rec = JStr s0)
  ∨ (r ≠ Some SOk ∧ db' = db).
Proof.
  intros Hok Hs0 Hx. cbn in Hx. destruct (task_reopen _ _ _ _ _ _ _ _ _ _) as [db1 r1] eqn:Eu. injection Hx as <- <-.
  destruct (record_at t id db) as [[cur x]|] eqn:Er.
  - destruct (sok_word _ _ Hok _ _ _ Er) as (s & X & Hs & ->).
    pose proof (task_reopen_record t id eid s0 ex (terminal_statuses d) (default_expire_time d) db cur (Some X) s Er Hs Hs0) as Eq.
    cbn zeta in Eq. rewrite Eu in Eq. destruct (decide (s ∈ terminal_statuses d)) as [Ht|]; [|by injection Eq as -> ->; right].
    destruct (decide (resolve_expiry _ _ _ _ _ ≤ 0)); injection Eq as -> ->; [by right|]. left. split; [done|]. split; [eauto 10|].
    intros rec y. rewrite move_record by first [lia|case_decide; naive_solver].
    intros [= <- <-]. apply new_generation_status.
  - destruct (task_reopen_no_record t id eid s0 ex (status_index_prefix d) (terminal_statuses d) (default_expire_time d) db Er) as [E1 E2].
    rewrite Eu in E1, E2. cbn in E1, E2. right. split; [congruence|done].
Qed.

Definition wins (id : string) (tr : list (Z * top * option script_reply)) : nat :=
  length (filter (λ e, op_id e.1.2 = Some id ∧ is_reopen e.1.2 = true ∧ e.2 = Some SOk) tr).

Lemma reopen_run t1 db1 tr t db id : store_ok t1 db1 → task_run t1 db1 tr t db → only_on id is_reopen tr →
  wins id tr = 0%nat ∨ wins id tr = 1%nat ∧ ∀ rec x, record_at t id db = Some (rec, x) → ∃ s, status_of rec = JStr s ∧ s ∉ terminal_statuses d.
Proof.
  intros Hok. induction 1 as [|tr t db t' db' Hr IH Ht E1 E2|tr t db t' o db' r Hr IH Ht Hsane Hx]; intros Honly.
  - by left.
  - destruct (IH Honly) as [Hw|[Hw Ha]]; [by left|right]. split; [done|].
    by eapply (record_keeps t t' id db db' (λ r, ∃ s, status_of r = JStr s ∧ s ∉ terminal_statuses d)).
  - apply only_on_snoc in Honly as [Honly Ho]. specialize (IH Honly).
    destruct (task_run_ok _ _ _ _ _ Hr Hok) as [Hok' _]. pose proof (store_ok_later _ t' _ Hok' Ht) as Hok2.
    unfold wins in *. rewrite filter_app, length_app, filter_cons, filter_nil. cbn [fst snd].
    assert (Hkeep : wins id tr = 1%nat → (∀ rec x, record_at t id db = Some (rec, x) → ∃ s, status_of rec = JStr s ∧ s ∉ terminal_statuses d) →
      ∀ rec x, record_at t' id db = Some (rec, x) → ∃ s, status_of rec = JStr s ∧ s ∉ terminal_statuses d).
    { intros _ Ha. by eapply (record_keeps t t' id db db (λ r, ∃ s, status_of r = JStr s ∧ s ∉ terminal_statuses d)). }
    destruct (decide (op_id o = Some id)) as [Eid|Hne].
    + specialize (Ho Eid). destruct o as [| |id' eid s0 ex|]; try done. cbn in Eid. injection Eid as ->.
      destruct (reopen_step t' id eid s0 ex db db' r Hok2 Hsane Hx) as [(-> & (rec & x & s & Er & Hs & Hst) & Hnew)|[Hlost ->]].
      * rewrite decide_True by done. destruct IH as [Hw|[Hw Ha]].
        -- right. rewrite Hw. split; [done|]. intros rec' x' Hr'. exists s0. split; [by eapply Hnew|exact Hsane].
        -- destruct (Hkeep Hw Ha _ _ Er) as (s' & Hs' & Hn). rewrite Hs in Hs'. by simplify_eq.
      * rewrite decide_False by naive_solver. simpl. rewrite Nat.add_0_r. destruct IH as [Hw|[Hw Ha]]; [by left|right]. split; [done|by apply Hkeep].
    + rewrite decide_False by naive_solver. simpl. rewrite Nat.add_0_r. destruct IH as [Hw|[Hw Ha]]; [by left|right]. split; [done|].
      rewrite (texec_other t' id o db db' r Hne Hx). by apply Hkeep.
Qed.

End Invariant.

(** ** What the task store guarantees *)

Lemma score_le_total a b : score_le a b = false → score_le b a = true.
Proof.
  unfold score_le. intros [Hl He]%orb_false_iff. apply Z.ltb_ge in Hl.
  destruct (Z.ltb_spec b.2 a.2); [done|]. assert (b.2 = a.2) as E by lia. rewrite E, Z.eqb_refl in *. simpl in *.
  by apply string_leb_total.
Qed.

Lemma elem_of_zrange `{Redis} t k db id : id ∈ zrange_all t k db ↔ is_Some (zset t k db !! id).
Proof.
  unfold zrange_all. rewrite isort_perm, list_elem_of_fmap. split.
  - intros ([k' v] & -> & Hin). exists v. by apply elem_of_map_to_list.
  - intros [v Hv]. exists (id, v). split; [done|]. by apply elem_of_map_to_list.
Qed.

(** C13: Listings are sound and complete for the runs in which ([sane]) no
    call initialises over a record that exists without [if_not_exists] (see
    [reinitialise_leaves_index] for what happens then), updates write statuses
    that are text, no task is reopened into a terminal status and no index is
    purged of instants that lie ahead.  Then, whatever was initialised,
    updated, reopened and cleaned up, in any order and with any expiries,
    listing a status gives no task twice, only tasks whose record is live with
    that status (unless it expires while the listing runs), and every task
    whose record has that status, until a second before the record expires. *)
Theorem task_listing `{Redis} `{Cjson} d t0 db0 tr t db s t1 t2 t3 :
  keys_apart d → (∀ k, entry db0 k = None) → task_run d t0 db0 tr t db → t ≤ t1 → t1 ≤ t2 → t2 ≤ t3 →
  let '(db', l) := list_task_ids_by_status d t1 t2 t3 s None db in
  NoDup l ∧
  (∀ id, id ∈ l → ∃ sc, t1 < sc ∧ (t3 < sc → ∃ r, record_at d t3 id db' = Some (r, Some sc) ∧ status_of r = JStr s)) ∧
  (∀ id r X, record_at d t3 id db' = Some (r, Some X) → status_of r = JStr s → s ≠ ""%string → t3 + 1000 ≤ X → id ∈ l).
Proof.
  intros Hk Hfresh Hr H1 H2 H3. destruct (task_run_ok d Hk _ _ _ _ _ Hr (store_ok_empty d t0 db0 Hfresh)) as [Hok _].
  unfold list_task_ids_by_status. set (db' := zremrangebyscore t2 _ t1 db).
  assert (Hok3 : store_ok d t3 db').
  { eapply store_ok_later; [|done]. apply purge_index_ok; [done|done|]. eapply store_ok_later; [done|lia]. }
  split_and!.
  - unfold zrange_all. rewrite isort_perm. apply NoDup_fst_map_to_list.
  - intros id [sc Hsc]%elem_of_zrange. exists sc. split; [|intros Hlt; by apply (sok_sound _ _ _ Hok3 s id sc)].
    destruct (zset_later t2 t3 (_status_index_key d s) db' H3) as [[E _]|[E _]]; rewrite E in Hsc; [|done].
    unfold db' in Hsc. rewrite zset_zremrange in Hsc. apply map_lookup_filter_Some in Hsc as [_ Hsc]. exact Hsc.
  - intros id r X Hrec Hst Hne HX. apply elem_of_zrange. exists X. by eapply (sok_complete _ _ _ Hok3).
Qed.

(** C2: Terminal statuses are final within a generation: once a record has a
    terminal status it keeps it, whatever updates run, until it expires or is
    reopened, and every update to another status is rejected. *)
Theorem terminal_status_kept `{Redis} `{Cjson} d t0 db0 tr1 t1 db1 id cur x s tr2 t db :
  keys_apart d → (∀ k, entry db0 k = None) → task_run d t0 db0 tr1 t1 db1 →
  record_at d t1 id db1 = Some (cur, x) → status_of cur = JStr s → s ∈ terminal_statuses d →
  task_run d t1 db1 tr2 t db → only_on id is_update tr2 →
  (∀ r y, record_at d t id db = Some (r, y) → status_of r = JStr s) ∧
  ∀ t' updates ex r, (t', TUpdate id updates ex, r) ∈ tr2 → new_word updates s ≠ s → r ≠ Some SOk.
Proof.
  intros Hk Hfresh Hr1 Hc Hs Ht Hr2 Ho. destruct (task_run_ok d Hk _ _ _ _ _ Hr1 (store_ok_empty d t0 db0 Hfresh)) as [Hok _].
  eapply terminal_run; [done|exact Hok|done| |done|done]. intros r y Hy. rewrite Hc in Hy. by injection Hy as <- _.
Qed.

(** A terminal task is reopened once: among any number of concurrent
    [reopen_task] calls for one task, with whatever other tasks do in between,
    at most one wins; the others are rejected. *)
Theorem reopen_single_winner `{Redis} `{Cjson} d t0 db0 tr1 t1 db1 id tr2 t db :
  keys_apart d → (∀ k, entry db0 k = None) → task_run d t0 db0 tr1 t1 db1 →
  task_run d t1 db1 tr2 t db → only_on id is_reopen tr2 → (wins id tr2 ≤ 1)%nat.
Proof.
  intros Hk Hfresh Hr1 Hr2 Ho. destruct (task_run_ok d Hk _ _ _ _ _ Hr1 (store_ok_empty d t0 db0 Hfresh)) as [Hok _].
  destruct (reopen_run d Hk t1 db1 tr2 t db id Hok Hr2 Ho) as [->|[-> _]]; lia.
Qed.

(** The identities an earlier generation leaves. *)
Lemma trace_ids_strs cur l eid : cur !! "previous_execution_ids"%string = Some (JArr (JStr <$> l)) →
  cur !! "execution_id"%string = Some (JStr eid) → eid ≠ ""%string → (length l ≤ 50)%nat →
  trace_ids cur = JArr (JStr <$> drop (length l - 49) (l ++ [eid])).
Proof.
  intros Hl He Hne Hlen. unfold trace_ids. rewrite Hl, He. rewrite bool_decide_false by congruence.
  assert ((JStr <$> l) ++ [JStr eid] = JStr <$> (l ++ [eid])) as -> by by rewrite fmap_app.
  rewrite length_fmap, length_app. cbn [length]. destruct (Z.ltb_spec 50 (Z.of_nat (length l + 1))).
  - assert (length l = 50)%nat as -> by lia. change (50 - 49)%nat with 1%nat. by destruct (l ++ [eid]).
  - by replace (length l - 49)%nat with 0%nat by lia.
Qed.

(** [reopen_task] on every branch: without a record it raises
    TaskNotFoundError, on a record that is not terminal
    InvalidStatusTransferError, and neither writes anything; on a terminal one
    it returns the new identity and the record starts a new generation: initial
    status, no cancellation, no result, error, progress or cancel outcome of
    the old one, and the old identity last in a trace of at most 50. *)
Theorem reopen_task_spec `{Redis} `{Cjson} d t0 db0 tr t db t' id eid s0 expiry db' r :
  keys_apart d → (∀ k, entry db0 k = None) → task_run d t0 db0 tr t db → t ≤ t' →
  s0 ∉ terminal_statuses d → 0 < default_expire_time d → (∀ e, expiry = Some e → 0 < e) →
  reopen_task d t' id eid s0 expiry db = (db', r) →
  match record_at d t' id db with
  | None => db' = db ∧ r ≠ Ok eid
  | Some (cur, _) =>
      ∃ s, status_of cur = JStr s ∧
      if decide (s ∈ terminal_statuses d) then
        r = Ok eid ∧ ∃ new X, record_at d t' id db' = Some (new, Some X) ∧ t' < X ∧ status_of new = JStr s0
          ∧ new !! "execution_id"%string = Some (JStr eid) ∧ new !! "previous_status"%string = Some (JStr s)
          ∧ new !! "cancel_requested"%string = Some (JBool false)
          ∧ (∀ f, f ∈ ["result"; "error"; "progress"; "cancel_outcome"]%string → new !! f = None)
          ∧ (∀ l old, cur !! "previous_execution_ids"%string = Some (JArr (JStr <$> l)) → (length l ≤ 50)%nat →
               cur !! "execution_id"%string = Some (JStr old) → old ≠ ""%string →
               new !! "previous_execution_ids"%string = Some (JArr (JStr <$> drop (length l - 49) (l ++ [old]))))
      else db' = db ∧ r = Err InvalidStatusTransferError
  end.
Proof.
  intros Hk Hfresh Hr Ht Hs0 Hd Hex. destruct (task_run_ok d Hk _ _ _ _ _ Hr (store_ok_empty d t0 db0 Hfresh)) as [Hok _].
  apply (store_ok_later d t t') in Hok; [|done]. unfold reopen_task.
  destruct (record_at d t' id db) as [[cur x]|] eqn:Er.
  - destruct (sok_word _ _ _ Hok _ _ _ Er) as (s & X & Hs & ->).
    pose proof (task_reopen_record d t' id eid s0 (default (-1) expiry) (terminal_statuses d) (default_expire_time d) db cur (Some X) s Er Hs Hs0) as Eq.
    cbn zeta in Eq. rewrite Eq. clear Eq. set (e := resolve_expiry _ _ _ _ _).
    assert (He : 0 < e). { unfold e, resolve_expiry. destruct expiry as [v|]; simpl; [specialize (Hex v eq_refl); destruct (Z.ltb_spec v 0); lia|].
      destruct (Z.ltb_spec 0 (ttl t' (_task_key d id) db)); lia. }
    destruct (decide (s ∈ terminal_statuses d)) as [Hst|Hst]; [|intros [= <- <-]; exists s; split; [done|]; by rewrite decide_False].
    rewrite decide_False by lia. intros [= <- <-]. exists s. split; [done|]. rewrite decide_True by done. split; [done|].
    eexists _, _. split; [apply move_record; [done|done|case_decide; naive_solver]|]. split; [lia|]. split; [apply new_generation_status|].
    unfold new_generation. rewrite !lookup_fmap. rewrite Hs. split_and!.
    + simplify_map_eq. by rewrite recode_str.
    + simplify_map_eq. by rewrite recode_str.
    + simplify_map_eq. by rewrite recode_bool.
    + intros f Hf. rewrite lookup_fmap. repeat (apply elem_of_cons in Hf as [->|Hf]; [by simplify_map_eq|]). by apply not_elem_of_nil in Hf.
    + intros l old Hl Hlen Ho Hne. simplify_map_eq. rewrite (trace_ids_strs cur l old) by done. rewrite recode_strs; [done|].
      intros E%(f_equal length). rewrite length_drop, length_app in E. simpl in E. lia.
  - destruct (task_reopen_no_record d t' id eid s0 (default (-1) expiry) (status_index_prefix d) (terminal_statuses d) (default_expire_time d) db Er) as [E1 E2].
    destruct (task_reopen _ _ _ _ _ _ _ _ _ _) as [db1 r1]. cbn in E1, E2. intros [= <- <-]. split; [done|]. by destruct r1.
Qed.

Section Attached.

Context `{Redis} `{Cjson}.
Context (d : TaskRedisDB).

Lemma str_app_longer (a b : string) : b ≠ ""%string → a ≠ (a +:+ b)%string.
Proof. intros Hb. induction a as [|c a IH]; [by intros E; apply Hb|]. by intros [= E]. Qed.

Lemma attached_apart id suffix : attached_key d id suffix ≠ _task_key d id.
Proof. unfold attached_key. intros E. symmetry in E. by apply str_app_longer in E. Qed.

(** [EXPIRE] on several keys. *)
Lemma expires_at t ex id l db : 0 < ex →
  let db' := fold_left (λ db suffix, expire t (attached_key d id suffix) ex db) l db in
  (∀ t' k, (∀ s, s ∈ l → attached_key d id s ≠ k) → at_ t' k db' = at_ t' k db)
  ∧ ∀ s, s ∈ l → at_ t (attached_key d id s) db' = (λ r, {| rval := rval r; rexp := Some (t + ex * 1000) |}) <$> at_ t (attached_key d id s) db.
Proof.
  intros Hex. revert db. induction l as [|a l IH]; intros db; [by split; [|intros ? ?%not_elem_of_nil]|]. cbn [fold_left].
  destruct (IH (expire t (attached_key d id a) ex db)) as [IH1 IH2]. split.
  - intros t' k Hk. rewrite IH1 by (intros s Hs; apply Hk; by right). apply at_expire_ne. apply Hk. by left.
  - intros s [->|Hs]%elem_of_cons.
    + destruct (decide (a ∈ l)) as [Hin|Hni].
      * rewrite IH2, at_expire by done. by destruct (at_ t (attached_key d id a) db).
      * rewrite IH1; [by apply at_expire|]. intros s Hs E. unfold attached_key in E.
        by do 2 apply (inj (String.append _)) in E; subst.
    + rewrite IH2 by done. destruct (decide (a = s)) as [->|Hne]; [rewrite at_expire by done; by destruct (at_ t (attached_key d id s) db)|].
      rewrite at_expire_ne; [done|]. intros E. unfold attached_key in E. by do 2 apply (inj (String.append _)) in E.
Qed.

Lemma follow_record t t' id ex db : record_at d t id (_follow_attached_keys_ttl d t' id ex db) = record_at d t id db.
Proof.
  unfold _follow_attached_keys_ttl. set (e := if ex <? 0 then _ else _). destruct (Z.leb_spec e 0); [done|].
  unfold record_at. f_equal. apply expires_at; [done|]. intros s _. apply attached_apart.
Qed.

(** The part of [update_task] before the script. *)
Definition checked (t1 : Z) (id : string) (updates : row) (validate : bool) (db : DB) : res task_error unit :=
  match updates !! "status"%string with
  | Some new_status =>
      if validate then
        if bool_decide (get_task d t1 id db = ∅) then Err TaskNotFoundError
        else
          let old_status := default (JStr "") (get_task d t1 id db !! "status"%string) in
          if bool_decide (old_status = new_status) then Ok tt
          else match _can_transfer d old_status new_status with
               | Ok true => Ok tt
               | Ok false => Err InvalidStatusTransferError
               | Err e => Err e
               end
      else Ok tt
  | None => Ok tt
  end.

Lemma update_task_checked t1 t2 t3 others id updates expiry validate db :
  update_task d t1 t2 t3 others id updates expiry validate db =
  match checked t1 id updates validate db with
  | Err e => (db, Err e)
  | Ok _ =>
      let '(db', reply) := task_update t2 (_task_key d id) updates (default (-1) expiry) (status_index_prefix d) id
                             (terminal_statuses d) (default_expire_time d) (others db) in
      match reply with
      | SOk => (_follow_attached_keys_ttl d t3 id (default (-1) expiry) db', Ok tt)
      | SNotFound => (db', Err TaskNotFoundError)
      | SInvalidTransfer => (db', Err InvalidStatusTransferError)
      | _ => (db', Err RuntimeError)
      end
  end.
Proof. done. Qed.

Lemma resolve_positive t k expiry def db : 0 < def → (∀ e, expiry = Some e → 0 < e) →
  0 < resolve_expiry t k (default (-1) expiry) def db.
Proof.
  intros Hd He. unfold resolve_expiry. destruct expiry as [v|]; simpl; [specialize (He v eq_refl); destruct (Z.ltb_spec v 0); lia|].
  destruct (Z.ltb_spec 0 (ttl t k db)); lia.
Qed.

End Attached.

(** [update_task] on every branch, with other clients running between its
    check and its script: it returns only if the record the script found takes
    the update (its status is kept or was not terminal), which is then merged
    into it and expires at the given or the remaining lifetime; every error
    leaves the database as it was; a missing record is TaskNotFoundError and a
    terminal one refuses another status with InvalidStatusTransferError. *)
Theorem update_task_spec `{Redis} `{Cjson} d t0 db0 tr t others db t1 t2 t3 id updates expiry validate db' r :
  keys_apart d → (∀ k, entry db0 k = None) → task_run d t0 db0 tr t (others db) → t ≤ t2 →
  words_only updates → 0 < default_expire_time d → (∀ e, expiry = Some e → 0 < e) →
  update_task d t1 t2 t3 others id updates expiry validate db = (db', r) →
  match checked d t1 id updates validate db with
  | Err e => db' = db ∧ r = Err e
  | Ok _ =>
      match record_at d t2 id (others db) with
      | None => db' = others db ∧ (r = Err TaskNotFoundError ∨ r = Err RuntimeError)
      | Some (cur, x) =>
          ∃ s, status_of cur = JStr s ∧
          if decide (s ≠ new_word updates s ∧ s ∈ terminal_statuses d)
          then db' = others db ∧ r = Err InvalidStatusTransferError
          else r = Ok tt ∧ ∃ e, 0 < e ∧ (∀ v, expiry = Some v → e = v)
               ∧ record_at d t2 id db' = Some (recode <$> updates ∪ cur, Some (t2 + e * 1000))
               ∧ status_of (recode <$> updates ∪ cur) = JStr (new_word updates s)
      end
  end.
Proof.
  intros Hk Hfresh Hr Ht Hw Hd Hex. destruct (task_run_ok d Hk _ _ _ _ _ Hr (store_ok_empty d t0 db0 Hfresh)) as [Hok _].
  apply (store_ok_later d t t2) in Hok; [|done]. rewrite update_task_checked.
  destruct (checked d t1 id updates validate db) as [[]|e]; [|by intros [= <- <-]].
  pose proof (resolve_positive t2 (_task_key d id) expiry (default_expire_time d) (others db) Hd Hex) as He.
  destruct (record_at d t2 id (others db)) as [[cur x]|] eqn:Er.
  - destruct (sok_word _ _ _ Hok _ _ _ Er) as (s & X & Hs & ->).
    destruct (task_update_record d t2 id updates (default (-1) expiry) (terminal_statuses d) (default_expire_time d) (others db) cur (Some X) s Hw Er Hs) as [Eq Hst].
    cbn zeta in Eq. rewrite Eq. set (e := resolve_expiry _ _ _ _ _) in *.
    destruct (decide (s ≠ new_word updates s ∧ s ∈ terminal_statuses d)) as [Hx|Hx].
    + intros [= <- <-]. exists s. split; [done|]. by rewrite decide_True.
    + rewrite decide_False by lia. intros [= <- <-]. exists s. split; [done|]. rewrite decide_False by done. split; [done|].
      exists e. rewrite follow_record.
      assert ((if decide (s ≠ new_word updates s ∧ s ≠ ""%string) then Some s else None) ≠ Some (new_word updates s)) as Hrm.
      { destruct (decide (s ≠ new_word updates s ∧ s ≠ ""%string)) as [[? _]|_]; congruence. }
      split_and!; [done| |by apply move_record|done].
      intros v ->. unfold e, resolve_expiry. simpl. specialize (Hex v eq_refl). by destruct (Z.ltb_spec v 0); [lia|].
  - destruct (get_no_record d t2 id _ Er) as [E|(v & E & Hv)]; unfold task_update; rewrite E; [intros [= <- <-]; auto|].
    destruct v; [intros [= <- <-]; auto|by destruct (Hv r0)|intros [= <- <-]; auto].
Qed.

(** Attached keys follow the record: after a successful update the keys of
    dependency governance that exist expire with the record, up to a second and
    the time between the two commands. *)
Theorem attached_keys_follow `{Redis} `{Cjson} d t2 t3 others db t1 id updates expiry validate db' cur X suffix y :
  (∀ e, expiry = Some e → 0 < e) → suffix ∈ attached_suffixes → t2 ≤ t3 →
  update_task d t1 t2 t3 others id updates expiry validate db = (db', Ok tt) →
  record_at d t2 id db' = Some (cur, Some X) → (∀ e, expiry = Some e → X = t2 + e * 1000) → t3 + 1000 < X →
  exp_of (at_ t3 (attached_key d id suffix) db') = Some y → X - 1000 < y < X + 1000 + (t3 - t2).
Proof.
  intros Hex Hsuf Ht Hu Hrec HX Hlive Hy. rewrite update_task_checked in Hu.
  destruct (checked d t1 id updates validate db); [|done].
  destruct (task_update _ _ _ _ _ _ _ _ _) as [db1 [| | | |]]; try done. injection Hu as <-.
  rewrite follow_record in Hrec. unfold _follow_attached_keys_ttl in Hy.
  set (e := if default (-1) expiry <? 0 then _ else _) in *.
  assert (He : 0 < e ∧ X - 1000 < t3 + e * 1000 < X + 1000 + (t3 - t2)).
  { unfold e. destruct expiry as [v|]; simpl.
    - specialize (Hex v eq_refl). specialize (HX v eq_refl). destruct (Z.ltb_spec v 0); lia.
    - assert (record_at d t3 id db1 = Some (cur, Some X)) as Hrec3.
      { apply (record_later d t2 t3); [done|]. split; [done|]. intros ? [= <-]. lia. }
      pose proof (ttl_spec t3 (_task_key d id) db1) as Hs. fold (at_ t3 (_task_key d id) db1) in Hs. unfold record_at in Hrec3.
      destruct (at_ t3 (_task_key d id) db1) as [[[[| ?|]| | |] [x|]]|]; simpl in Hrec3; try done. injection Hrec3 as -> ->. simpl. lia. }
  destruct (Z.leb_spec e 0); [lia|]. destruct (expires_at d t3 e id attached_suffixes db1 (proj1 He)) as [_ Ha].
  rewrite (Ha suffix Hsuf) in Hy. destruct (at_ t3 (attached_key d id suffix) db1); [|done]. injection Hy as <-. lia.
Qed.

(** *** On the reference instance *)

Module TaskWitness.

Local Open Scope string_scope.

(** A [cjson] that keeps every value. *)
Definition plain_cjson : Cjson := {|
  recode := λ j, j; lua_text := λ j, match j with JStr s => Some s | _ => None end;
  recode_str := λ _, eq_refl; recode_bool := λ _, eq_refl; recode_strs := λ _ _, eq_refl; lua_text_str := λ _, eq_refl |}.

Definition store : TaskRedisDB := {|
  default_expire_time := 604800; task_key_prefix := "task"; status_index_prefix := "task_status";
  terminal_statuses := ["completed"; "failed"; "cancelled"]; transitions := None |}.

(** The default prefixes keep the keys apart. *)
Lemma store_apart : keys_apart store.
Proof. split; intros i j; unfold _task_key, _status_index_key, _children_key; simpl; discriminate. Qed.

Definition exec (t : Z) (o : top) (db : @DB redis_map) := texec (H := redis_map) (H0 := plain_cjson) store t o db.

Lemma pair_by_snd {A B} (p : A * B) b : p.2 = b → p = (p.1, b).
Proof. intros <-. apply surjective_pairing. Qed.

Definition create : top := TInit "t" "now" "exec-1" "pending" (Some 3600%Z) true None.
Definition finish : top := TUpdate "t" {[ "status" := JStr "completed" ]} 3600.
Definition db1 : @DB redis_map := (exec 0 create ∅).1.
Definition db2 : @DB redis_map := (exec 5 finish db1).1.

Lemma create_ok : exec 0 create ∅ = (db1, Some SOk).
Proof. apply pair_by_snd. by_compute. Qed.

Lemma finish_ok : exec 5 finish db1 = (db2, Some SOk).
Proof. apply pair_by_snd. by_compute. Qed.

Lemma run1 : task_run (H := redis_map) (H0 := plain_cjson) store 0 ∅ [(0%Z, create, Some SOk)] 0 db1.
Proof.
  apply (trun_op (H := redis_map) (H0 := plain_cjson) store 0 ∅ [] 0 ∅ 0 create db1 (Some SOk));
    [constructor|lia|by left|exact create_ok].
Qed.

Lemma run2 : task_run (H := redis_map) (H0 := plain_cjson) store 0 ∅ ([(0%Z, create, Some SOk)] ++ [(5%Z, finish, Some SOk)]) 5 db2.
Proof.
  apply (trun_op (H := redis_map) (H0 := plain_cjson) store 0 ∅ [(0%Z, create, Some SOk)] 0 db1 5 finish db2 (Some SOk));
    [exact run1|lia| |exact finish_ok].
  intros v Hv. vm_compute in Hv. injection Hv as <-. eauto.
Qed.

Lemma listing_witness : list_task_ids_by_status (H := redis_map) store 6 6 6 "completed" None db2 = (db2, ["t"])
  ∧ NoDup (list_task_ids_by_status (H := redis_map) store 6 6 6 "completed" None db2).2.
Proof.
  split; [vm_compute; reflexivity|].
  exact (proj1 (task_listing (H := redis_map) (H0 := plain_cjson) store 0 ∅ _ 5 db2 "completed" 6 6 6
    store_apart (λ _, eq_refl) run2 ltac:(lia) ltac:(lia) ltac:(lia))).
Defined.

Definition done_row : row := default ∅ (fst <$> record_at (H := redis_map) store 5 "t" db2).

Lemma done_at_5 : record_at (H := redis_map) store 5 "t" db2 = Some (done_row, Some 3600005%Z).
Proof. by_compute. Qed.

Lemma done_at_7 : record_at (H := redis_map) store 7 "t" db2 = Some (done_row, Some 3600005%Z).
Proof. by_compute. Qed.

Lemma done_at_6 : record_at (H := redis_map) store 6 "t" db2 = Some (done_row, Some 3600005%Z).
Proof. by_compute. Qed.

Lemma done_status : status_of done_row = JStr "completed".
Proof. by_compute. Qed.

Lemma terminal_witness : record_at (H := redis_map) store 5 "t" db2 = Some (done_row, Some 3600005%Z) ∧ status_of done_row = JStr "completed".
Proof.
  split; [exact done_at_5|]. refine (proj1 (terminal_status_kept (H := redis_map) (H0 := plain_cjson) store 0 ∅ _ 5 db2 "t" done_row (Some 3600005%Z) "completed"
    [] 5 db2 store_apart (λ _, eq_refl) run2 done_at_5 done_status _ (trun_nil (H := redis_map) (H0 := plain_cjson) _ _ _) _) _ _ done_at_5).
  - left.
  - by intros ? ? ? ?%not_elem_of_nil.
Defined.

Definition reopen (eid : string) : top := TReopen "t" eid "pending" (-1).
Definition db3 : @DB redis_map := (exec 7 (reopen "exec-2") db2).1.

Lemma reopen_ok : exec 7 (reopen "exec-2") db2 = (db3, Some SOk).
Proof. apply pair_by_snd. by_compute. Qed.

Lemma reopen_lost : exec 7 (reopen "exec-3") db3 = (db3, Some (SNotTerminal (JStr "pending"))).
Proof. vm_compute. reflexivity. Qed.

Lemma run3 : task_run (H := redis_map) (H0 := plain_cjson) store 5 db2
  ([(7%Z, reopen "exec-2", Some SOk)] ++ [(7%Z, reopen "exec-3", Some (SNotTerminal (JStr "pending")))]) 7 db3.
Proof.
  assert ("pending" ∉ terminal_statuses store) as Hp by (by_compute).
  eapply (trun_op (H := redis_map) (H0 := plain_cjson) store 5 db2 _ 7 db3 7 (reopen "exec-3")); [|lia|exact Hp|exact reopen_lost].
  apply (trun_op (H := redis_map) (H0 := plain_cjson) store 5 db2 [] 5 db2 7 (reopen "exec-2") db3 (Some SOk));
    [constructor|lia|exact Hp|exact reopen_ok].
Qed.

Lemma winner_witness : (wins "t" ([(7%Z, reopen "exec-2", Some SOk)] ++ [(7%Z, reopen "exec-3", Some (SNotTerminal (JStr "pending")))]) ≤ 1)%nat.
Proof.
  refine (reopen_single_winner (H := redis_map) (H0 := plain_cjson) store 0 ∅ _ 5 db2 "t" _ 7 db3
    store_apart (λ _, eq_refl) run2 run3 _).
  intros t o r [[= _ -> _]|[[= _ -> _]|[]%not_elem_of_nil]%elem_of_cons]%elem_of_cons; done.
Defined.

Lemma reopen_witness : ∃ db' new X, reopen_task (H := redis_map) (H0 := plain_cjson) store 7 "t" "exec-2" "pending" None db2 = (db', Ok "exec-2")
  ∧ record_at (H := redis_map) store 7 "t" db' = Some (new, Some X) ∧ status_of new = JStr "pending".
Proof.
  pose proof (reopen_task_spec (H := redis_map) (H0 := plain_cjson) store 0 ∅ _ 5 db2 7 "t" "exec-2" "pending" None _ _
    store_apart (λ _, eq_refl) run2 ltac:(lia) ltac:(by_compute) ltac:(done) ltac:(done) (surjective_pairing _)) as Hspec.
  rewrite done_at_7 in Hspec. destruct Hspec as (s & Hs & Hspec).
  rewrite done_status in Hs. injection Hs as <-.
  destruct (decide _) as [_|Hn]; [|exfalso; apply Hn; left].
  destruct Hspec as (Er2 & new & X & H1 & _ & H2 & _).
  eexists _, new, X. split; [|split; [exact H1|exact H2]]. rewrite <- Er2. apply surjective_pairing.
Defined.

Definition restart : row := {[ "status" := JStr "in_progress" ]}.

Lemma update_witness : ∃ db', update_task (H := redis_map) (H0 := plain_cjson) store 6 6 6 (λ db, db) "t" restart None false db2
  = (db', Err InvalidStatusTransferError) ∧ db' = db2.
Proof.
  pose proof (update_task_spec (H := redis_map) (H0 := plain_cjson) store 0 ∅ _ 5 (λ db, db) db2 6 6 6 "t" restart None false _ _
    store_apart (λ _, eq_refl) run2 ltac:(lia)
    ltac:(intros v Hv; vm_compute in Hv; injection Hv as <-; eauto) ltac:(done) ltac:(done) (surjective_pairing _)) as Hspec.
  change (checked (H := redis_map) store 6 "t" restart false db2) with (@Ok task_error unit tt) in Hspec. cbv iota in Hspec.
  cbv beta in Hspec. rewrite done_at_6 in Hspec. destruct Hspec as (s & Hs & Hspec).
  rewrite done_status in Hs. injection Hs as <-.
  destruct (decide _) as [_|Hn]; [|exfalso; apply Hn; split; [done|left]].
  destruct Hspec as [Ed Er2]. eexists. split; [|exact Ed]. rewrite <- Er2. apply surjective_pairing.
Defined.

(** An update of the lifetime to an hour, with a vote cast before. *)
Definition db_vote : @DB redis_map := (vote_and_check_threshold (H := redis_map) store 6 "t" "p" 2 db2).1.
Definition db_followed : @DB redis_map :=
  (update_task (H := redis_map) (H0 := plain_cjson) store 6 6 6 (λ db, db) "t" ∅ (Some 3600%Z) true db_vote).1.

Lemma followed_ok :
  update_task (H := redis_map) (H0 := plain_cjson) store 6 6 6 (λ db, db) "t" ∅ (Some 3600%Z) true db_vote = (db_followed, Ok tt).
Proof. apply pair_by_snd. vm_compute. reflexivity. Qed.

Lemma followed_record : record_at (H := redis_map) store 6 "t" db_followed = Some (done_row, Some 3600006%Z).
Proof. by_compute. Qed.

Lemma followed_votes : exp_of (at_ (H := redis_map) 6 (attached_key store "t" "cancel_votes") db_followed) = Some 3600006%Z.
Proof. by_compute. Qed.

Lemma follow_witness : (3600006 - 1000 < 3600006)%Z.
Proof.
  refine (proj1 (attached_keys_follow (H := redis_map) (H0 := plain_cjson) store 6 6 (λ db, db) db_vote 6 "t" ∅ (Some 3600%Z) true
    db_followed done_row 3600006 "cancel_votes" 3600006 _ _ _ followed_ok followed_record _ _ followed_votes)).
  - intros e [= <-]. lia.
  - by_compute.
  - lia.
  - intros e [= <-]. lia.
  - lia.
Defined.

(** A second initialisation without [if_not_exists] leaves the task in the
    index of its old status: the listing shows it under a status it no longer
    has. *)
Example reinitialise_leaves_index :
  let db := (initialize_task (H := redis_map) (H0 := plain_cjson) store 8 "now" "exec-9" "t" (Some 3600%Z) "pending" false None db2).1 in
  (list_task_ids_by_status (H := redis_map) store 9 9 9 "completed" None db).2 = ["t"] ∧
  get_task (H := redis_map) store 9 "t" db !! "status" = Some (JStr "pending").
Proof. vm_compute. split; reflexivity. Qed.

(** Every later vote reports the threshold as reached, not only the first. *)
Example votes_repeat :
  let '(db, r1) := vote_and_check_threshold (H := redis_map) store 6 "t" "p" 1 db2 in
  let '(db, r2) := vote_and_check_threshold (H := redis_map) store 6 "t" "q" 1 db in
  r1 = true ∧ r2 = true ∧ (vote_and_check_threshold (H := redis_map) store 6 "t" "q" 1 db).2 = true.
Proof. vm_compute. split_and!; reflexivity. Qed.

End TaskWitness.
