(* ===== verification/Effects.v ===== *)
(** * Asynchronous programs as trees of calls

    A coroutine of the flow package is a [prog]: a tree whose nodes are the
    calls it awaits (to the store, the governor, the task, ...) and whose
    branches are the answers.  Between two calls anything may happen, so a
    program has a meaning relative to a step relation on an environment state:
    [runs] says which results are possible, [wp] what all of them satisfy, and
    [exec] computes one of them from a handler.

    A Python function that may raise returns a [res exn]; [M] with [let!] is
    that composition, [catch] and [finally] are [try]. *)
From stdpp Require Import prelude strings.
From S2P Require Import Prelude TaskDb.

(** ** Programs *)

Section Prog.

Context {op : Type} {ans : op → Type}.

Inductive prog (A : Type) : Type :=
  | Ret (a : A)
  | Call (o : op) (k : ans o → prog A).
Arguments Ret {A} a.
Arguments Call {A} o k.

Fixpoint pbind {A B} (p : prog A) (f : A → prog B) : prog B :=
  match p with
  | Ret a => f a
  | Call o k => Call o (λ x, pbind (k x) f)
  end.

Definition perform (o : op) : prog (ans o) := Call o Ret.

Section Runs.

Context {S : Type} (step : ∀ o, S → ans o → S → Prop).

Fixpoint runs {A} (p : prog A) (s : S) (a : A) (s' : S) : Prop :=
  match p with
  | Ret b => a = b ∧ s' = s
  | Call o k => ∃ x s1, step o s x s1 ∧ runs (k x) s1 a s'
  end.

Fixpoint wp {A} (p : prog A) (s : S) (Q : A → S → Prop) : Prop :=
  match p with
  | Ret a => Q a s
  | Call o k => ∀ x s1, step o s x s1 → wp (k x) s1 Q
  end.

Lemma wp_runs {A} (p : prog A) s Q : wp p s Q ↔ ∀ a s', runs p s a s' → Q a s'.
Proof.
  revert s. induction p as [b|o k IH]; intros s; simpl; [naive_solver|].
  setoid_rewrite IH. naive_solver.
Qed.

Lemma wp_mono {A} (p : prog A) s (Q R : A → S → Prop) : wp p s Q → (∀ a s', Q a s' → R a s') → wp p s R.
Proof. rewrite !wp_runs. eauto. Qed.

Lemma wp_bind {A B} (p : prog A) (f : A → prog B) s Q :
  wp (pbind p f) s Q ↔ wp p s (λ a s1, wp (f a) s1 Q).
Proof. revert s. induction p as [b|o k IH]; intros s; simpl; [done|]. naive_solver. Qed.

(** A handler answers every call; the [n]-th call may be treated differently
    from the others, which lets a run choose what happens around it. *)
Fixpoint exec {A} (h : nat → ∀ o, S → ans o * S) (n : nat) (p : prog A) (s : S) : A * S :=
  match p with
  | Ret a => (a, s)
  | Call o k => let '(x, s1) := h n o s in exec h (Datatypes.S n) (k x) s1
  end.

Lemma exec_runs {A} h n (p : prog A) s :
  (∀ i o s, step o s (h i o s).1 (h i o s).2) → runs p s (exec h n p s).1 (exec h n p s).2.
Proof.
  intros Hh. revert n s. induction p as [b|o k IH]; intros n s; simpl; [done|].
  pose proof (Hh n o s) as Hs. destruct (h n o s) as [x s1]. eauto.
Qed.

(** Every call treated alike: a deterministic run *)
Definition play {A} (h : ∀ o, S → ans o * S) (p : prog A) (s : S) : A * S := exec (λ _, h) 0 p s.

Lemma exec_index {A} (h : ∀ o, S → ans o * S) n (p : prog A) s : exec (λ _, h) n p s = play h p s.
Proof.
  unfold play. revert n s. induction p as [a|o k IH]; intros n s; simpl; [done|]. destruct (h o s) as [x s1]. rewrite IH. symmetry. by rewrite IH.
Qed.

Lemma play_ret {A} h (a : A) s : play h (Ret a) s = (a, s).
Proof. done. Qed.

Lemma play_call h o s : play h (perform o) s = h o s.
Proof. unfold play. simpl. by destruct (h o s). Qed.

Lemma play_bind {A B} h (p : prog A) (f : A → prog B) s :
  play h (pbind p f) s = let '(a, s1) := play h p s in play h (f a) s1.
Proof.
  revert s. induction p as [a|o k IH]; intros s; [done|]. unfold play. simpl.
  destruct (h o s) as [x s1]. by rewrite !exec_index, IH.
Qed.

(** A property of the environment that no answer can break. *)
Lemma wp_inv {A} (I : S → Prop) (p : prog A) s :
  (∀ o s x s', I s → step o s x s' → I s') → I s → wp p s (λ _, I).
Proof. intros HI. revert s. induction p as [b|o k IH]; intros s Hs; simpl; eauto. Qed.

End Runs.

End Prog.
Arguments prog {op} ans A.
Arguments Ret {op ans A} a.
Arguments Call {op ans A} o k.

(** Every call of a program satisfies [P]. *)
Fixpoint calls {op} {ans : op → Type} {A} (P : op → Prop) (p : prog ans A) : Prop :=
  match p with Ret _ => True | Call o k => P o ∧ ∀ x, calls P (k x) end.

Lemma calls_bind {op} {ans : op → Type} {A B} (P : op → Prop) (p : prog ans A) (f : A → prog ans B) :
  calls P (pbind p f) ↔ calls P p ∧ ∀ s, (∃ t, runs (λ _ (_ : unit) _ _, True) p tt s t) → calls P (f s).
Proof.
  induction p as [a|o k IH]; simpl.
  - split; [intros H; split; [done|]; by intros s (t & -> & _)|]. intros [_ H]. apply H. by exists tt.
  - setoid_rewrite IH. split.
    + intros (Ho & H). split; [split; [done|]; apply H|]. intros s (t & x & t1 & _ & Hr). destruct t1. eapply H. eauto.
    + intros ((Ho & H1) & H2). split; [done|]. intros x. split; [done|]. intros s (t & Hr). apply H2. exists t, x, tt. done.
Qed.

(** The same program over more calls. *)
Fixpoint lift {op op'} {ans : op → Type} {ans' : op' → Type} (i : op → op') (r : ∀ o, ans' (i o) → ans o) {A}
    (p : prog ans A) : prog ans' A :=
  match p with
  | Ret a => Ret a
  | Call o k => Call (i o) (λ x, lift i r (k (r o x)))
  end.

(** ** Exceptions *)

(** The exceptions of flow/exceptions.py, those that come from the core store
    ([Core]), the built-in ones, and what the code of a task may raise.  The
    core package and the flow package each define a [TaskNotFoundError]; the
    two classes are unrelated. *)
Inductive exn :=
  | Core (e : task_error)
  | TaskNotFound
  | InvalidStateTransition
  | DependencyNotSatisfied
  | ValueError
  | KeyError
  | TypeError'
  | TimeoutError
  | ExecutionTimeout
  | BudgetExhausted
  | Other (what : string)
  | CancelledError.

#[global] Instance task_error_eq_dec : EqDecision task_error.
Proof. solve_decision. Defined.
#[global] Instance exn_eq_dec : EqDecision exn.
Proof. solve_decision. Defined.

#[global] Instance res_exn_eq_dec {A} `{EqDecision A} : EqDecision (res exn A).
Proof. solve_decision. Defined.

(** [except Exception]: [asyncio.CancelledError] is not one. *)
Definition is_exception (e : exn) : bool := bool_decide (e ≠ CancelledError).

(** [isinstance(e, _TaskbaseInvalidTransfer)] *)
Definition is_core_invalid_transfer (e : exn) : bool := bool_decide (e = Core InvalidStatusTransferError).

Definition uncut {A} (x : res exn A) : bool := match x with Err CancelledError => false | _ => true end.

(** Programs that may raise *)
Definition M {op} (ans : op → Type) (A : Type) : Type := prog ans (res exn A).

Definition ret {op} {ans : op → Type} {A} (a : A) : M ans A := Ret (Ok a).
Definition seq {op} {ans : op → Type} {A B} (p : M ans A) (f : A → M ans B) : M ans B :=
  pbind p (λ r, match r with Ok a => f a | Err e => Ret (Err e) end).

Declare Scope prog_scope.
Delimit Scope prog_scope with prog.
Notation "'let!' x := p 'in' k" := (seq p (λ x, k)) (at level 10, x pattern, p at level 100, k at level 200) : prog_scope.
Notation "'do!' p 'in' k" := (seq p (λ _, k)) (at level 10, p at level 100, k at level 200) : prog_scope.
#[global] Open Scope prog_scope.

Definition raise {op} {ans : op → Type} {A} (e : exn) : M ans A := Ret (Err e).

(** [try: p except ... : h]: the handler is given every exception and raises
    again the ones it does not name. *)
Definition catch {op} {ans : op → Type} {A} (p : M ans A) (h : exn → M ans A) : M ans A :=
  pbind p (λ r, match r with Ok a => Ret (Ok a) | Err e => h e end).

(** [try: p except Exception as e: h(e)] *)
Definition except_exception {op} {ans : op → Type} {A} (p : M ans A) (h : exn → M ans A) : M ans A :=
  catch p (λ e, if is_exception e then h e else raise e).

(** [try: p finally: q]: an exception of [q] replaces the outcome of [p]. *)
Definition finally {op} {ans : op → Type} {A} (p : M ans A) (q : M ans unit) : M ans A :=
  pbind p (λ r, pbind q (λ r', match r' with Ok _ => Ret r | Err e => Ret (Err e) end)).

(** A value that may be missing *)
Definition or_raise {op} {ans : op → Type} {A} (o : option A) (e : exn) : M ans A :=
  match o with Some a => ret a | None => raise e end.

(** [for x in l: f(x)] *)
Fixpoint for_each {op} {ans : op → Type} {A} (l : list A) (f : A → M ans unit) : M ans unit :=
  match l with [] => ret tt | a :: l => do! f a in for_each l f end.

Section MRuns.

Context {op : Type} {ans : op → Type} {S : Type} (step : ∀ o, S → ans o → S → Prop).

Lemma wp_seq {A B} (p : M ans A) (f : A → M ans B) s Q :
  wp step (seq p f) s Q ↔ wp step p s (λ r s1, match r with Ok a => wp step (f a) s1 Q | Err e => Q (Err e) s1 end).
Proof.
  unfold seq. rewrite wp_bind. split; intros H; (eapply wp_mono; [exact H|]); by intros [a|e] s1.
Qed.

Lemma wp_catch {A} (p : M ans A) h s Q :
  wp step (catch p h) s Q ↔ wp step p s (λ r s1, match r with Ok a => Q (Ok a) s1 | Err e => wp step (h e) s1 Q end).
Proof.
  unfold catch. rewrite wp_bind. split; intros H; (eapply wp_mono; [exact H|]); by intros [a|e] s1.
Qed.

Lemma wp_finally {A} (p : M ans A) q s Q :
  wp step (finally p q) s Q ↔
  wp step p s (λ r s1, wp step q s1 (λ r' s2, match r' with Ok _ => Q r s2 | Err e => Q (Err e) s2 end)).
Proof.
  unfold finally. rewrite wp_bind. split; intros H; (eapply wp_mono; [exact H|]); intros r s1; rewrite wp_bind;
  intros H1; (eapply wp_mono; [exact H1|]); by intros [a|e] s2.
Qed.

Lemma wp_for_each {A} (l : list A) (f : A → M ans unit) (I : list A → S → Prop) s Q :
  I [] s →
  (∀ done a rest s, l = done ++ a :: rest → I done s →
     wp step (f a) s (λ r s1, match r with Ok _ => I (done ++ [a]) s1 | Err e => Q (Err e) s1 end)) →
  (∀ s, I l s → Q (Ok tt) s) → wp step (for_each l f) s Q.
Proof.
  intros H0 Hstep HQ. enough (∀ done rest s, l = done ++ rest → I done s → wp step (for_each rest f) s Q) as H by (by eapply (H [])).
  clear H0 s. intros done rest. revert done. induction rest as [|a rest IH]; intros done s E Hs; cbn [for_each].
  - rewrite app_nil_r in E. subst. by apply HQ.
  - rewrite wp_seq. eapply wp_mono; [by eapply Hstep|]. intros [[]|e] s1; [|done]. intros H1. eapply IH; [|done].
    by rewrite <- app_assoc.
Qed.

Lemma play_seq {A B} h (p : M ans A) (f : A → M ans B) (s : S) :
  play h (seq p f) s = let '(r, s1) := play h p s in match r with Ok a => play h (f a) s1 | Err e => (Err e, s1) end.
Proof. unfold seq. rewrite play_bind. by destruct (play h p s) as [[a|e] s1]. Qed.

Lemma play_catch {A} h (p : M ans A) (k : exn → M ans A) (s : S) :
  play h (catch p k) s = let '(r, s1) := play h p s in match r with Ok a => (Ok a, s1) | Err e => play h (k e) s1 end.
Proof. unfold catch. rewrite play_bind. by destruct (play h p s) as [[a|e] s1]. Qed.

Lemma wp_perform o s (Q : ans o → S → Prop) : wp step (perform o) s Q ↔ ∀ x s1, step o s x s1 → Q x s1.
Proof. done. Qed.

Lemma wp_ret {A} (a : A) s Q : wp step (ret a) s Q ↔ Q (Ok a) s.
Proof. done. Qed.

Lemma wp_raise {A} e s (Q : res exn A → S → Prop) : wp step (raise e) s Q ↔ Q (Err e) s.
Proof. done. Qed.

End MRuns.
#[global] Arguments wp : simpl never.

(** A program over fewer calls, played where there are more: [get] and [put]
    single out the part of the state that it works on. *)
Lemma play_lift {op op'} {ans : op → Type} {ans' : op' → Type} (i : op → op') (r : ∀ o, ans' (i o) → ans o) {S S'}
    (h : ∀ o, S → ans o * S) (h' : ∀ o, S' → ans' o * S') (get : S' → S) (put : S → S' → S') {A} (p : prog ans A) s :
  (∀ s, put (get s) s = s) → (∀ a s, get (put a s) = a) → (∀ a b s, put a (put b s) = put a s) →
  (∀ o s, r o (h' (i o) s).1 = (h o (get s)).1 ∧ (h' (i o) s).2 = put (h o (get s)).2 s) →
  play h' (lift i r p) s = let '(a, t) := play h p (get s) in (a, put t s).
Proof.
  intros H1 H2 H3 H4. revert s. induction p as [a|o k IH]; intros s.
  - rewrite !play_ret. by rewrite H1.
  - unfold play. simpl. destruct (H4 o s) as [E1 E2]. destruct (h' (i o) s) as [x s1], (h o (get s)) as [y t1]. simpl in *. subst y s1.
    rewrite !exec_index, IH, H2. destruct (play h (k (r o x)) t1) as [a t]. by rewrite H3.
Qed.

(** Unfold a program up to its first call. *)
Ltac wp_simp := repeat first [rewrite wp_seq | rewrite wp_catch | rewrite wp_finally | rewrite wp_bind | rewrite wp_ret | rewrite wp_raise | progress cbv beta iota].
(** ... and make it. *)
Ltac wp_call := wp_simp;
  match goal with |- wp ?step (perform ?o) ?s ?Q => change (∀ x s1, step o s x s1 → Q x s1) end; cbv beta.

(** ** Programs and the calls they make *)

Lemma calls_pbind {op} {ans : op → Type} {A B} (P : op → Prop) (p : prog ans A) (f : A → prog ans B) :
  calls P p → (∀ a, calls P (f a)) → calls P (pbind p f).
Proof. induction p as [a|o k IH]; simpl; [by eauto|]. intros [Ho Hk] Hf. split; [done|]. intros x. by apply IH. Qed.

Lemma calls_seq {op} {ans : op → Type} {A B} (P : op → Prop) (p : M ans A) (f : A → M ans B) :
  calls P p → (∀ a, calls P (f a)) → calls P (seq p f).
Proof. intros Hp Hf. apply calls_pbind; [done|]. by intros [a|e]. Qed.

Lemma calls_catch {op} {ans : op → Type} {A} (P : op → Prop) (p : M ans A) (h : exn → M ans A) :
  calls P p → (∀ e, calls P (h e)) → calls P (catch p h).
Proof. intros Hp Hf. apply calls_pbind; [done|]. by intros [a|e]. Qed.

Lemma calls_except {op} {ans : op → Type} {A} (P : op → Prop) (p : M ans A) (h : exn → M ans A) :
  calls P p → (∀ e, calls P (h e)) → calls P (except_exception p h).
Proof. intros Hp Hf. apply calls_catch; [done|]. intros e. by destruct (is_exception e). Qed.

Lemma calls_for_each {op} {ans : op → Type} {A} (P : op → Prop) (l : list A) (f : A → M ans unit) :
  (∀ a, a ∈ l → calls P (f a)) → calls P (for_each l f).
Proof. induction l as [|a l IH]; intros Hf; [done|]. apply calls_seq; [apply Hf; left|]. intros _. apply IH. intros b Hb. apply Hf. by right. Qed.

Lemma calls_lift {op op'} {ans : op → Type} {ans' : op' → Type} (i : op → op') (r : ∀ o, ans' (i o) → ans o) {A} (P : op' → Prop)
    (p : prog ans A) : calls (λ o, P (i o)) p → calls P (lift i r p).
Proof. induction p as [a|o k IH]; simpl; [done|]. intros [Ho Hk]. split; [done|]. intros x. apply IH, Hk. Qed.

Lemma calls_perform {op} {ans : op → Type} (P : op → Prop) o : P o → calls P (perform (ans := ans) o).
Proof. by intros Ho. Qed.

Lemma calls_weaken {op} {ans : op → Type} {A} (P Q : op → Prop) (p : prog ans A) : (∀ o, P o → Q o) → calls P p → calls Q p.
Proof. intros HPQ. induction p as [a|o k IH]; simpl; [done|]. intros [Ho Hk]. split; [by apply HPQ|]. intros x. apply IH, Hk. Qed.

(** Programs made of calls of one kind; [tac] knows the combinators of a file. *)
Ltac prove_calls_with tac :=
  repeat first
    [ progress intros | tac | apply calls_seq | apply calls_catch | apply calls_pbind | apply calls_perform | exact I | case_match | done ].

(** ** Frames and cancellation *)

Section Frames.

Context {op : Type} {ans : op → Type} {S : Type} (step : ∀ o, S → ans o → S → Prop).

Lemma wp_and {A} (p : prog ans A) s (Q R : A → S → Prop) : wp step p s Q → wp step p s R → wp step p s (λ a s', Q a s' ∧ R a s').
Proof. rewrite !wp_runs. eauto. Qed.

(** What no call of a program breaks is not broken by the program. *)
Lemma wp_frame {A} (P : op → Prop) (R : S → S → Prop) `{!PreOrder R} (p : prog ans A) s :
  (∀ o s x s', P o → step o s x s' → R s s') → calls P p → wp step p s (λ _ s', R s s').
Proof.
  intros HR. revert s. induction p as [a|o k IH]; intros s Hp; [by unfold wp|]. intros x s1 Hs. destruct Hp as [Ho Hk].
  eapply wp_mono; [by apply IH|]. simpl. intros _ s' H. transitivity s1; [by eapply HR|done].
Qed.

(** A program that never comes back with [CancelledError] *)
Definition uncancelled {A} (p : M ans A) : Prop := ∀ s, wp step p s (λ r _, r ≠ Err CancelledError).

Lemma uncancelled_seq {A B} (p : M ans A) (f : A → M ans B) : uncancelled p → (∀ a, uncancelled (f a)) → uncancelled (seq p f).
Proof. intros Hp Hf s. rewrite wp_seq. eapply wp_mono; [apply Hp|]. intros [a|e] s1 H; [apply Hf|congruence]. Qed.

Lemma uncancelled_catch {A} (p : M ans A) h : uncancelled p → (∀ e, e ≠ CancelledError → uncancelled (h e)) → uncancelled (catch p h).
Proof. intros Hp Hh s. rewrite wp_catch. eapply wp_mono; [apply Hp|]. intros [a|e] s1 H; [done|]. apply Hh. congruence. Qed.

Lemma uncancelled_except {A} (p : M ans A) h : uncancelled p → (∀ e, uncancelled (h e)) → uncancelled (except_exception p h).
Proof. intros Hp Hh. apply uncancelled_catch; [done|]. intros e He. unfold is_exception. rewrite bool_decide_true by done. apply Hh. Qed.

(** The handler of [except Exception] is the last word. *)
Lemma except_ok {A} (p : M ans A) (h : exn → A) s : uncancelled p →
  wp step (except_exception p (λ e, ret (h e))) s (λ r _, is_Some (match r with Ok a => Some a | Err _ => None end)).
Proof.
  intros Hp. unfold except_exception. rewrite wp_catch. eapply wp_mono; [apply Hp|]. intros [a|e] s1 He; [by eexists|].
  unfold is_exception. rewrite bool_decide_true by congruence. by eexists.
Qed.

Lemma uncancelled_ret {A} (a : A) : uncancelled (ret a).
Proof. done. Qed.

Lemma uncancelled_raise {A} e : e ≠ CancelledError → uncancelled (@raise _ _ A e).
Proof. intros H s. rewrite wp_raise. congruence. Qed.

Lemma uncancelled_for_each {A} (l : list A) (f : A → M ans unit) : (∀ a, uncancelled (f a)) → uncancelled (for_each l f).
Proof. intros Hf. induction l as [|a l IH]; [done|]. by apply uncancelled_seq. Qed.

End Frames.

(** [tac] knows the calls and the functions of a file. *)
Ltac prove_uncancelled tac :=
  repeat first
    [ progress intros | tac | apply uncancelled_seq | apply uncancelled_except | apply uncancelled_catch | apply uncancelled_ret
    | apply uncancelled_raise; congruence | apply uncancelled_for_each | case_match | done ].

(** ** Logs and traces

    A run leaves a log of its calls with their answers; what an answer may be
    can depend on the log so far ([allow]).  A trace is the part of a log that a
    property is about ([note]); a claim on traces may be restricted to logs
    without certain events ([fine]). *)

Section Traces.

Context {op : Type} {ans : op → Type}.

Definition entry_of : Type := { o : op & ans o }.

Definition logged (allow : ∀ o, list entry_of → ans o → Prop) (o : op) (log : list entry_of) (x : ans o) (log' : list entry_of) : Prop :=
  log' = log ++ [existT o x] ∧ allow o log x.

Context (allow : ∀ o, list entry_of → ans o → Prop) {N : Type} (note : entry_of → option N) (fine : entry_of → bool).

Definition traces {A} (p : prog ans A) (T : A → list N → Prop) : Prop :=
  ∀ log, wp (logged allow) p log (λ r log', ∃ l, log' = log ++ l ∧ (forallb fine l = true → T r (omap note l))).

Lemma traces_mono {A} (p : prog ans A) (T T' : A → list N → Prop) : traces p T → (∀ r t, T r t → T' r t) → traces p T'.
Proof. intros Hp HT log. eapply wp_mono; [apply Hp|]. intros r log' (l & -> & Hl). exists l. split; [done|]. intros Hf. by apply HT, Hl. Qed.

Lemma traces_ret {A} (a : A) (T : A → list N → Prop) : T a [] → traces (Ret a) T.
Proof. intros HT log. exists []. by rewrite app_nil_r. Qed.

Lemma log_grows_any {A} (p : prog ans A) log : wp (logged allow) p log (λ _ log', ∃ l, log' = log ++ l).
Proof.
  revert log. induction p as [a|o k IH]; intros log; [exists []; by rewrite app_nil_r|]. intros x log' [-> _].
  eapply wp_mono; [apply IH|]. intros r log1 [l ->]. exists (existT o x :: l). by rewrite <- app_assoc.
Qed.

Lemma traces_pbind {A B} (p : prog ans A) (f : A → prog ans B) (T1 : A → list N → Prop) (T : B → list N → Prop) :
  traces p T1 → (∀ a t1, T1 a t1 → traces (f a) (λ b t2, T b (t1 ++ t2))) → traces (pbind p f) T.
Proof.
  intros Hp Hf log. rewrite wp_bind. eapply wp_mono; [apply Hp|]. intros a log1 (l1 & -> & H1).
  destruct (forallb fine l1) eqn:E1.
  - eapply wp_mono; [apply (Hf a _ (H1 eq_refl))|]. intros b log2 (l2 & -> & H2). exists (l1 ++ l2). rewrite <- app_assoc. split; [done|].
    intros Hl. rewrite omap_app. apply H2. by rewrite forallb_app, E1 in Hl.
  - eapply wp_mono; [apply log_grows_any|]. intros b log2 [l2 ->]. exists (l1 ++ l2). rewrite <- app_assoc. split; [done|].
    by rewrite forallb_app, E1.
Qed.

Lemma traces_call o (T : ans o → list N → Prop) :
  (∀ log x, allow o log x → fine (existT o x) = true → T x (option_list (note (existT o x)))) → traces (perform o) T.
Proof.
  intros HT log x log' [-> Hx]. exists [existT o x]. split; [done|]. simpl. intros Hf. rewrite andb_true_r in Hf.
  specialize (HT log x Hx Hf). by destruct (note (existT o x)).
Qed.

Lemma traces_seq {A B} (p : M ans A) (f : A → M ans B) (T1 : res exn A → list N → Prop) (T : res exn B → list N → Prop) :
  traces p T1 → (∀ a t1, T1 (Ok a) t1 → traces (f a) (λ b t2, T b (t1 ++ t2))) → (∀ e t1, T1 (Err e) t1 → T (Err e) t1) → traces (seq p f) T.
Proof. intros Hp Hf He. eapply traces_pbind; [exact Hp|]. intros [a|e] t1 H1; [by apply Hf|]. apply traces_ret. rewrite app_nil_r. by apply He. Qed.

Lemma traces_catch {A} (p : M ans A) h (T1 T : res exn A → list N → Prop) :
  traces p T1 → (∀ e t1, T1 (Err e) t1 → traces (h e) (λ b t2, T b (t1 ++ t2))) → (∀ a t1, T1 (Ok a) t1 → T (Ok a) t1) → traces (catch p h) T.
Proof. intros Hp Hh Ha. eapply traces_pbind; [exact Hp|]. intros [a|e] t1 H1; [|by apply Hh]. apply traces_ret. rewrite app_nil_r. by apply Ha. Qed.

(** [try: p except Exception: pass] *)
Lemma traces_ignore (p : M ans unit) (Q : list N → Prop) : traces p (λ r t, uncut r = true ∧ Q t) →
  traces (except_exception p (λ _, ret tt)) (λ r t, r = Ok tt ∧ Q t).
Proof.
  intros Hp. unfold except_exception. eapply traces_catch; [exact Hp| |].
  - intros e t [He Ht]. unfold is_exception. rewrite bool_decide_true by (by intros ->). apply traces_ret. by rewrite app_nil_r.
  - by intros [] t [_ Ht].
Qed.

Lemma traces_for_each {A} (l : list A) (f : A → M ans unit) (Q : A → list N → Prop) (T : res exn unit → list N → Prop) :
  (∀ a, a ∈ l → traces (f a) (λ r t, r = Ok tt ∧ Q a t)) →
  (∀ ts, Forall2 Q l ts → T (Ok tt) (mjoin ts)) → traces (for_each l f) T.
Proof.
  revert T. induction l as [|a l IH]; intros T Hf HT; cbn [for_each]; [apply traces_ret, (HT []); constructor|].
  eapply traces_seq; [apply Hf; left| |by intros ? ? [[=] _]]. intros [] t [_ Ht].
  apply IH; [intros b Hb; apply Hf; by right|]. intros ts Hts. apply (HT (t :: ts)). by constructor.
Qed.

(** Programs whose calls all leave notes of one kind, or none *)
Lemma traces_calls {A} (P : op → Prop) (Q : N → Prop) (p : prog ans A) :
  (∀ o x, P o → match note (existT o x) with Some n => Q n | None => True end) → calls P p → traces p (λ _ t, Forall Q t).
Proof.
  intros HP. induction p as [a|o k IH]; intros Hp; [by apply traces_ret|]. destruct Hp as [Ho Hk].
  change (traces (pbind (perform o) k) (λ _ t, Forall Q t)). eapply (traces_pbind _ _ (λ _ t, Forall Q t)).
  - apply traces_call. intros log x _ _. specialize (HP o x Ho). destruct (note (existT o x)); simpl; [by repeat constructor|done].
  - intros x t1 H1. eapply traces_mono; [by apply IH|]. intros r t2 H2. by apply Forall_app.
Qed.

Lemma traces_quiet {A} (P : op → Prop) (p : prog ans A) : (∀ o x, P o → note (existT o x) = None) → calls P p → traces p (λ _ t, t = []).
Proof.
  intros HP Hp. eapply traces_mono; [apply (traces_calls P (λ _, False)); [|exact Hp]|].
  - intros o x Ho. by rewrite HP.
  - intros r t Ht. destruct t; [done|]. by apply Forall_cons in Ht as [? _].
Qed.

Lemma traces_runs {A} (p : prog ans A) T r log : traces p T → runs (logged allow) p [] r log → forallb fine log = true → T r (omap note log).
Proof. intros Hp Hr Hf. destruct (proj1 (wp_runs _ _ _ _) (Hp []) r log Hr) as (l & -> & Hl). by apply Hl. Qed.

(** A run whose answers are given by a function of the log *)
Definition scripted (answer : ∀ o, list entry_of → ans o) (o : op) (log : list entry_of) : ans o * list entry_of :=
  (answer o log, log ++ [existT o (answer o log)]).

Lemma scripted_runs {A} answer (p : prog ans A) : (∀ o log, allow o log (answer o log)) →
  runs (logged allow) p [] (play (scripted answer) p []).1 (play (scripted answer) p []).2.
Proof. intros Ha. apply exec_runs. intros _ o log. by split. Qed.

End Traces.
