(* ===== verification/TaskStorage.v ===== *)
(** * The task store as the flow package sees it

    flow/protocols/storage.py: the calls ([store_op]) and the class
    [TaskStorage] of what an implementation promises; flow/storage/factory.py:
    the Redis store of [TaskDb] with the vocabulary of flow, and the proof that
    it keeps the promises ([redis_storage]).

    A call may take time, other clients may run before, during and after it,
    and any call may fail or be cancelled with or without its effect. *)
From Stdlib Require Import ZArith Lia.
From stdpp Require Import prelude gmap list strings.
From S2P Require Import Prelude Redis TaskDb Effects.
Local Open Scope list_scope.
Local Open Scope Z_scope.

(** ** Calls *)

Inductive store_op :=
  | GetTask (id : string)
  | UpdateTask (id : string) (updates : row) (validate : bool)
  | InitializeTask (id initial_status : string) (parent : option string) (if_not_exists : bool)
  | RequestCancel (id : string)
  | ListChildren (parent : string)
  | ListTaskIdsByStatus (status : string) (limit : option Z)
  | BulkGetTasks (ids : list string)
  | SaddActiveChild (parent child : string)
  | SremActiveChild (parent child : string)
  | GetActiveChildren (parent : string)
  | SetRemainingDeps (id : string) (n : Z)
  | DecrRemainingDeps (id : string)
  | VoteAndCheck (child parent : string) (threshold : Z)
  | ClearCancelVotes (child : string)
  | SaddResultConsumer (id consumer : string).

Definition reply (o : store_op) : Type :=
  match o with
  | GetTask _ => row
  | UpdateTask _ _ _ | SaddActiveChild _ _ | SremActiveChild _ _ | SetRemainingDeps _ _ | ClearCancelVotes _ => unit
  | InitializeTask _ _ _ _ | RequestCancel _ | VoteAndCheck _ _ _ | SaddResultConsumer _ _ => bool
  | ListChildren _ | ListTaskIdsByStatus _ _ | GetActiveChildren _ => list string
  | BulkGetTasks _ => list row
  | DecrRemainingDeps _ => Z
  end.
Definition store_ans (o : store_op) : Type := res exn (reply o).

(** The task a call is about *)
Definition about (o : store_op) : list string :=
  match o with
  | GetTask id | UpdateTask id _ _ | InitializeTask id _ _ _ | RequestCancel id | SetRemainingDeps id _ | DecrRemainingDeps id => [id]
  | ListChildren p | GetActiveChildren p => [p]
  | SaddActiveChild p _ | SremActiveChild p _ => [p]
  | VoteAndCheck c _ _ | ClearCancelVotes c | SaddResultConsumer c _ => [c]
  | ListTaskIdsByStatus _ _ => []
  | BulkGetTasks ids => ids
  end.

(** Statuses are written as words. *)
Definition well_typed (o : store_op) : Prop :=
  match o with UpdateTask _ u _ => words_only u | _ => True end.

Lemma words_only_other (u : row) : u !! "status"%string = None → words_only u.
Proof. intros E v Hv. congruence. Qed.

(** A call that leaves the generation of [id] alone, and the records that exist *)
Definition keeps_generation (id : string) (o : store_op) : Prop :=
  match o with InitializeTask id' _ _ ine => id' ≠ id ∧ ine = true | _ => True end.

(** The status word of a record; a missing, empty or odd status is none. *)
Definition word_of (r : row) : option string :=
  match r !! "status"%string with Some (JStr w) => if decide (w = ""%string) then None else Some w | _ => None end.

(** TASKFLOW_TERMINAL_STATUSES *)
Definition terminal_words : list string := ["succeeded"; "failed"; "cancelled"]%string.

(** ** What an implementation promises *)

(** A call that did not come back normally. *)
Definition fault (e : exn) : Prop := match e with Other _ | CancelledError => True | _ => False end.

(** Only a change of status is refused. *)
Definition may_raise (o : store_op) (e : exn) : Prop :=
  match e with
  | Core InvalidStatusTransferError => match o with UpdateTask _ u _ => u !! "status"%string ≠ None | _ => False end
  | Core _ => True
  | _ => fault e
  end.

Class TaskStorage := {
  store : Type;
  (** a call of a program that works on [id], and what may happen while it lasts *)
  answers : string → ∀ o, store → store_ans o → store → Prop;
  sound : store → Prop;
  valid_id : string → Prop;
  status_at : store → string → option string;
  (** what other clients and time may do, except starting a new generation of [id] *)
  others : string → store → store → Prop;
  others_refl : ∀ id s, others id s s;
  others_trans : ∀ id s1 s2 s3, others id s1 s2 → others id s2 s3 → others id s1 s3;
  others_sound : ∀ id s s', sound s → others id s s' → sound s';
  others_settled : ∀ id s s' w, sound s → others id s s' → w ∈ terminal_words →
    status_at s id = Some w → status_at s' id = Some w ∨ status_at s' id = None;
  answers_others : ∀ id o s x s', sound s → Forall valid_id (about o) → well_typed o → keeps_generation id o →
    answers id o s x s' → others id s s';
  (** the store raises its own exceptions *)
  store_raises : ∀ me o s e s', sound s → Forall valid_id (about o) → well_typed o → answers me o s (Err e) s' → may_raise o e;
  get_answer : ∀ me id s r s', answers me (GetTask id) s (Ok r) s' → status_at s' id = word_of r;
  update_answer : ∀ id u v s x s' w, sound s → valid_id id → words_only u → u !! "status"%string = Some (JStr w) → w ≠ ""%string →
    answers id (UpdateTask id u v) s x s' →
    match x with
    | Ok _ => ∃ s1, sound s1 ∧ status_at s1 id = Some w ∧ others id s1 s'
    | Err e => v = false → is_core_invalid_transfer e = true →
        ∃ s1 w0, sound s1 ∧ w0 ∈ terminal_words ∧ status_at s1 id = Some w0 ∧ others id s1 s'
    end;
  request_answer : ∀ id s s', sound s → valid_id id → answers id (RequestCancel id) s (Ok false) s' → status_at s' id = None;
  (** an idempotent initialisation *)
  init_answer : ∀ id w parent s b s', sound s → valid_id id → w ≠ ""%string →
    answers id (InitializeTask id w parent true) s (Ok b) s' →
    sound s' ∧ if b then status_at s' id = Some w else s' = s
}.

(** Other clients run before each call of a program that works on [id]. *)
Definition step_on `{TaskStorage} (id : string) (o : store_op) (s : store) (x : store_ans o) (s' : store) : Prop :=
  ∃ s1, others id s s1 ∧ answers id o s1 x s'.

(** ** The Redis store with flow's vocabulary *)

Definition TASKFLOW_TRANSITIONS : gmap string (gset string) :=
  {[ "" := {[ "pending"; "queued" ]}; "pending" := {[ "queued"; "cancelled" ]}; "queued" := {[ "running"; "cancelled" ]};
     "running" := {[ "succeeded"; "failed"; "cancelled" ]}; "succeeded" := ∅; "failed" := ∅; "cancelled" := ∅ ]}%string.

(** [get_default_storage], with the defaults of [TaskRedisDB.__init__] *)
Definition get_default_storage : TaskRedisDB := {|
  default_expire_time := 604800; task_key_prefix := "task"; status_index_prefix := "task_status";
  terminal_statuses := terminal_words; transitions := Some TASKFLOW_TRANSITIONS |}%string.

Section RedisStorage.

Context `{Redis} `{Cjson}.
Context (d : TaskRedisDB) (Hkeys : keys_apart d) (Hterminal : terminal_statuses d = terminal_words).
Context (Hdefault : 0 < default_expire_time d).

(** An instant and the database *)
Definition redis_state : Type := Z * DB.

(** Not the name of an attached key of another task *)
Definition plain_id (id : string) : Prop := ∀ j suffix, suffix ∈ attached_suffixes → id ≠ (j +:+ ":" +:+ suffix)%string.

Definition plain_op (o : top) : Prop := ∀ id, op_id o = Some id → plain_id id.

Record redis_sound (s : redis_state) : Prop := {
  rs_ok : store_ok d s.1 s.2;
  rs_plain : ∀ id r, record_at d s.1 id s.2 = Some r → plain_id id
}.

Inductive redis_others (id : string) (s s' : redis_state) : Prop :=
  | redis_others_run tr : task_run d s.1 s.2 tr s'.1 s'.2 → only_on id is_update tr →
      (∀ t o r, (t, o, r) ∈ tr → plain_op o) → redis_others id s s'.

Definition redis_status (s : redis_state) (id : string) : option string :=
  record_at d s.1 id s.2 ≫= λ r, word_of r.1.

Definition core_res {A} (r : res task_error A) : res exn A := match r with Ok a => Ok a | Err e => Err (Core e) end.

(** A call on the store that comes back; the clock moves on. *)
Definition redis_call (me : string) (o : store_op) (s : redis_state) (x : store_ans o) (s' : redis_state) : Prop :=
  let '(t, db) := s in
  let '(t', db') := s' in
  match o return store_ans o → Prop with
  | GetTask id => λ x, t' = t ∧ db' = db ∧ x = Ok (get_task d t id db)
  | UpdateTask id u v => λ x, ∃ t2 dbm r, redis_others me (t, db) (t2, dbm) ∧ t2 ≤ t' ∧
      update_task d t t2 t' (λ _, dbm) id u None v db = (db', r) ∧ x = core_res r
  | InitializeTask id w parent ine => λ x, ∃ now_str eid, t' = t ∧
      initialize_task d t now_str eid id None w ine parent db = (db', match x with Ok b => Some b | Err _ => None end)
      ∧ (∀ e, x = Err e → fault e)
  | RequestCancel id => λ x, ∃ t1 t2 dbm r, t ≤ t1 ∧ redis_others me (t1, db) (t2, dbm) ∧ t2 ≤ t' ∧
      request_cancel d t t1 t2 t' (λ _, dbm) id db = (db', r) ∧ x = core_res r
  | ListChildren p => λ x, ∃ t2, t ≤ t2 ≤ t' ∧ ∃ l, list_children d t t2 t' p db = (db', l) ∧ x = Ok l
  | ListTaskIdsByStatus w limit => λ x, ∃ t2, t ≤ t2 ≤ t' ∧ ∃ l, list_task_ids_by_status d t t2 t' w limit db = (db', l) ∧ x = Ok l
  | BulkGetTasks ids => λ x, t' = t ∧ db' = db ∧ x = Ok (bulk_get_tasks d t ids db)
  | SaddActiveChild p c => λ x, t' = t ∧ db' = sadd_active_child d t p c db ∧ x = Ok tt
  | SremActiveChild p c => λ x, t' = t ∧ db' = srem_active_child d t p c db ∧ x = Ok tt
  | GetActiveChildren p => λ x, t' = t ∧ db' = db ∧ x = Ok (get_active_children d t p db)
  | SetRemainingDeps id n => λ x, t' = t ∧ db' = set_remaining_deps d t id n db ∧ x = Ok tt
  | DecrRemainingDeps id => λ x, t' = t ∧ ∃ n, decr_remaining_deps d t id db = (db', n) ∧ x = Ok n
  | VoteAndCheck c p n => λ x, t' = t ∧ ∃ b, vote_and_check_threshold d t c p n db = (db', b) ∧ x = Ok b
  | ClearCancelVotes c => λ x, t' = t ∧ db' = clear_cancel_votes d t c db ∧ x = Ok tt
  | SaddResultConsumer id c => λ x, t' = t ∧ ∃ b, sadd_result_consumer d t id c db = (db', b) ∧ x = Ok b
  end x.

(** ... or does not come back normally: its effect may have happened. *)
Definition redis_answers (me : string) (o : store_op) (s : redis_state) (x : store_ans o) (s' : redis_state) : Prop :=
  redis_call me o s x s' ∨ ∃ e, x = Err e ∧ fault e ∧ (s' = s ∨ ∃ y, redis_call me o s y s').

(** *** The environment *)

Lemma redis_others_refl id s : redis_others id s s.
Proof. exists []; [constructor| |]; by intros ? ? ? ?%not_elem_of_nil. Qed.

Lemma task_run_trans t0 db0 tr1 t1 db1 tr2 t db :
  task_run d t0 db0 tr1 t1 db1 → task_run d t1 db1 tr2 t db → task_run d t0 db0 (tr1 ++ tr2) t db.
Proof.
  intros H1. induction 1 as [|tr t' db' t'' db'' Hr IH ? ? ?|tr t' db' t'' o db'' r Hr IH ? ? ?].
  - by rewrite app_nil_r.
  - by eapply trun_other.
  - rewrite app_assoc. by eapply trun_op.
Qed.

Lemma redis_others_trans id s1 s2 s3 : redis_others id s1 s2 → redis_others id s2 s3 → redis_others id s1 s3.
Proof.
  intros [tr1 H1 O1 P1] [tr2 H2 O2 P2]. exists (tr1 ++ tr2); [by eapply task_run_trans| |].
  - intros t o r [?|?]%elem_of_app; [by eapply O1|by eapply O2].
  - intros t o r [?|?]%elem_of_app; [by eapply P1|by eapply P2].
Qed.

Lemma plain_run t0 db0 tr t db : task_run d t0 db0 tr t db → (∀ t o r, (t, o, r) ∈ tr → plain_op o) →
  (∀ j r, record_at d t0 j db0 = Some r → plain_id j) → ∀ j r, record_at d t j db = Some r → plain_id j.
Proof.
  induction 1 as [|tr t db t' db' Hr IH Ht E1 E2|tr t db t' o db' x Hr IH Ht Hsane Hx]; intros Hp Hinit j r Hj; [by eapply Hinit| |].
  - rewrite E1 in Hj. destruct r. apply (record_later d t t') in Hj as [Hj _]; [|done]. by eapply IH.
  - destruct (decide (op_id o = Some j)) as [Ej|Hne]; [by eapply (Hp t'); [apply elem_of_app; right; by apply list_elem_of_singleton|done]|].
    rewrite (texec_other d Hkeys t' j o db db' x Hne Hx) in Hj. destruct r. apply (record_later d t t') in Hj as [Hj _]; [|done].
    eapply IH; [|done..]. intros t1 o1 r1 Hin. eapply Hp, elem_of_app. by left.
Qed.

Lemma redis_others_sound id s s' : redis_sound s → redis_others id s s' → redis_sound s'.
Proof.
  intros [Hok Hpl] [tr Hr _ Hp]. split; [by apply (task_run_ok d Hkeys _ _ _ _ _ Hr Hok)|by eapply plain_run].
Qed.

Lemma status_record s id w : redis_status s id = Some w →
  ∃ r x, record_at d s.1 id s.2 = Some (r, x) ∧ status_of r = JStr w ∧ w ≠ ""%string.
Proof.
  unfold redis_status. destruct (record_at d s.1 id s.2) as [[r x]|]; [|done]. simpl. unfold word_of, status_of.
  destruct (r !! "status"%string) as [[]|] eqn:E; try done. destruct (decide _); [done|]. intros [= ->]. exists r, x. by rewrite E.
Qed.

Lemma record_status s id r x w : record_at d s.1 id s.2 = Some (r, x) → status_of r = JStr w → w ≠ ""%string → redis_status s id = Some w.
Proof.
  unfold redis_status. intros -> Hst Hw. simpl. unfold word_of, status_of in *.
  destruct (r !! "status"%string) as [[|[]| | | |v| |]|]; try congruence. injection Hst as ->. by destruct (decide (w = ""%string)).
Qed.

Lemma terminal_word_nonempty w : w ∈ terminal_words → w ≠ ""%string.
Proof. intros Hw ->. by apply (bool_decide_pack _) in Hw. Qed.

Lemma redis_others_settled id s s' w : redis_sound s → redis_others id s s' → w ∈ terminal_words →
  redis_status s id = Some w → redis_status s' id = Some w ∨ redis_status s' id = None.
Proof.
  intros [Hok _] [tr Hr Ho _] Hw Hs. apply status_record in Hs as (r & x & Hrec & Hst & Hne).
  assert (∀ rec x, record_at d s'.1 id s'.2 = Some (rec, x) → status_of rec = JStr w) as Hall.
  { eapply terminal_run; [done|exact Hok|by rewrite Hterminal| |done|done]. intros rec y. rewrite Hrec. by intros [= <- <-]. }
  destruct (record_at d s'.1 id s'.2) as [[r' x']|] eqn:E.
  - left. eapply record_status; [done|by eapply Hall|done].
  - right. unfold redis_status. by rewrite E.
Qed.

(** Time passes, and calls that change neither a record nor an index. *)
Lemma others_quiet me t db t' db' : t ≤ t' → (∀ j, record_at d t' j db' = record_at d t' j db) →
  (∀ w, at_ t' (_status_index_key d w) db' = at_ t' (_status_index_key d w) db) → redis_others me (t, db) (t', db').
Proof.
  intros Ht E1 E2. exists []; [eapply trun_other; [constructor|done..]| |]; by intros ? ? ? ?%not_elem_of_nil.
Qed.

Lemma others_time me t t' db : t ≤ t' → redis_others me (t, db) (t', db).
Proof. intros Ht. by apply others_quiet. Qed.

Lemma others_op me t db o db' r : plain_op o → (op_id o = Some me → is_update o = true) → sane d t o db →
  texec d t o db = (db', r) → redis_others me (t, db) (t, db').
Proof.
  intros Hp Hu Hs Hx. exists ([] ++ [(t, o, r)]);
    [apply (trun_op d t db [] t db t o db' r); [apply trun_nil|lia|done|done]| |];
    intros t1 o1 r1 Hin; apply list_elem_of_singleton in Hin as [= -> -> ->]; done.
Qed.

(** Writing an attached key of a task *)
Lemma attached_is_key id suffix : attached_key d id suffix = _task_key d (id +:+ ":" +:+ suffix)%string.
Proof. unfold attached_key, _task_key. by rewrite <- !str_app_assoc. Qed.

Lemma others_attached me t db t' db' id :
  (∀ j r, record_at d t j db = Some r → plain_id j) → t ≤ t' →
  (∀ k, (∀ suffix, suffix ∈ attached_suffixes → attached_key d id suffix ≠ k) → at_ t' k db' = at_ t' k db) →
  (∀ suffix, suffix ∈ attached_suffixes → as_record (at_ t' (attached_key d id suffix) db) = None →
     as_record (at_ t' (attached_key d id suffix) db') = None) →
  redis_others me (t, db) (t', db').
Proof.
  intros Hpl Ht Hother Hself. apply others_quiet; [done| |].
  - intros j. unfold record_at.
    destruct (decide (Exists (λ suffix, attached_key d id suffix = _task_key d j) attached_suffixes)) as [Hx|Hx].
    + apply Exists_exists in Hx as (suffix & Hin & E). rewrite <- E.
      assert (as_record (at_ t' (attached_key d id suffix) db) = None) as En.
      { rewrite attached_is_key. fold (record_at d t' (id +:+ ":" +:+ suffix)%string db).
        destruct (record_at d t' _ db) as [[r x]|] eqn:Er; [|done]. apply (record_later d t t') in Er as [Er _]; [|done].
        by edestruct (Hpl _ _ Er). }
      rewrite En. by apply Hself.
    + f_equal. apply Hother. intros suffix Hin E. apply Hx, Exists_exists. eauto.
  - intros w. apply Hother. intros suffix _. rewrite attached_is_key. intros E. by apply (task_status_apart _ Hkeys) in E.
Qed.

Lemma others_key me t db db' id suffix :
  (∀ j r, record_at d t j db = Some r → plain_id j) → suffix ∈ attached_suffixes →
  (∀ k, attached_key d id suffix ≠ k → at_ t k db' = at_ t k db) →
  as_record (at_ t (attached_key d id suffix) db') = None →
  redis_others me (t, db) (t, db').
Proof.
  intros Hpl Hin Hother Hself. apply (others_attached me t db t db' id); [done|lia| |].
  - intros k Hk. by apply Hother, Hk.
  - intros suffix' Hin' Hn. destruct (decide (attached_key d id suffix = attached_key d id suffix')) as [<-|Hne]; [done|].
    by rewrite Hother.
Qed.

Lemma others_follow me t db t' id ex : (∀ j r, record_at d t j db = Some r → plain_id j) → t ≤ t' →
  redis_others me (t, db) (t', _follow_attached_keys_ttl d t' id ex db).
Proof.
  intros Hpl Ht. unfold _follow_attached_keys_ttl. set (e := if ex <? 0 then _ else _). destruct (Z.leb_spec e 0) as [|He]; [by apply others_time|].
  destruct (expires_at d t' e id attached_suffixes db He) as [Hother Hself]. apply (others_attached me t db t' _ id); [done|done| |].
  - intros k Hk. by apply Hother.
  - intros suffix Hin. rewrite Hself by done. by destruct (at_ t' _ db) as [[[[]| | |] x]|].
Qed.

Lemma at_sync t owner key db k : key ≠ k → at_ t k (_sync_attached_ttl d t owner key db) = at_ t k db.
Proof. intros Hk. unfold _sync_attached_ttl. destruct (exists_key _ _ _); [|done]. by apply at_expire_ne. Qed.

Lemma at_sync_self t owner key db : as_record (at_ t key db) = None → as_record (at_ t key (_sync_attached_ttl d t owner key db)) = None.
Proof.
  intros Hn. unfold _sync_attached_ttl. destruct (exists_key _ _ _); [|done]. rewrite at_expire.
  - by destruct (at_ t key db) as [[[[]| | |] x]|].
  - destruct (Z.ltb_spec 0 (ttl t (_task_key d owner) db)); lia.
Qed.

Lemma run_time t0 db0 tr t db : task_run d t0 db0 tr t db → t0 ≤ t.
Proof. induction 1; lia. Qed.

Lemma redis_others_time id s s' : redis_others id s s' → s.1 ≤ s'.1.
Proof. intros [tr Hr _ _]. by eapply run_time. Qed.

(** [update_task] seen by someone else *)
Lemma others_update me id t db t2 dbm t' u v db' r : redis_sound (t, db) → plain_id id → words_only u →
  redis_others me (t, db) (t2, dbm) → t2 ≤ t' →
  update_task d t t2 t' (λ _, dbm) id u None v db = (db', r) → redis_others me (t, db) (t', db').
Proof.
  intros Hs Hid Hu Hm Ht. rewrite update_task_checked.
  pose proof (redis_others_time _ _ _ Hm) as Ht2. simpl in Ht2.
  destruct (checked d t id u v db) as [[]|e]; [|intros [= <- <-]; apply others_time; lia].
  destruct (task_update t2 _ _ _ _ _ _ _ dbm) as [db2 rep] eqn:Eu.
  assert (Hop : redis_others me (t, db) (t2, db2)).
  { eapply redis_others_trans; [exact Hm|]. apply (others_op me t2 dbm (TUpdate id u (-1)) db2 (Some rep)); try done.
    - intros ? [= <-]. done.
    - simpl. simpl in Eu. by rewrite Eu. }
  pose proof (redis_others_sound _ _ _ Hs Hop) as [_ Hpl2].
  destruct rep; intros [= <- <-]; (eapply redis_others_trans; [exact Hop|]); try (by apply others_time).
  by apply others_follow.
Qed.

Lemma redis_call_others me o s x s' : redis_sound s → Forall plain_id (about o) → well_typed o → keeps_generation me o →
  redis_call me o s x s' → redis_others me s s'.
Proof.
  destruct s as [t db], s' as [t' db']. intros Hs Hv Hw Hg. pose proof (rs_plain _ Hs) as Hpl. simpl in Hpl.
  destruct o as [id|id u v|id w parent ine|id|p|w limit|ids|p c|p c|p|id n|id|c p n|c|id c]; simpl in *; rewrite ?Forall_singleton in Hv.
  - intros (-> & -> & _). apply redis_others_refl.
  - intros (t2 & dbm & r & Hm & Ht & Hu & _). by eapply others_update.
  - intros (now_str & eid & -> & Hi & _). destruct Hg as [Hne ->].
    eapply (others_op me t db (TInit id now_str eid w None true parent)); [|by intros [= ->]|by left|simpl; by rewrite Hi].
    by intros ? [= <-].
  - intros (t1 & t2 & dbm & r & Ht1 & Hm & Ht & Hc & _). unfold request_cancel in Hc.
    destruct (bool_decide (get_task d t id db = ∅)).
    + injection Hc as <- <-. apply others_time. apply redis_others_time in Hm. simpl in Hm. lia.
    + destruct (update_task _ _ _ _ _ _ _ _ _ _) as [db2 r2] eqn:Eu. injection Hc as <- <-.
      eapply redis_others_trans; [apply (others_time me t t1), Ht1|].
      refine (others_update me id t1 db t2 dbm t' _ true _ _ _ Hv _ Hm Ht Eu); [|by apply words_only_other].
      eapply redis_others_sound; [exact Hs|]. by apply (others_time me).
  - intros (t2 & [Ht2 Ht] & l & Hl & _). injection Hl as <- _.
    eapply redis_others_trans; [apply (others_time me t t2), Ht2|]. apply others_quiet; [done| |].
    + intros j. unfold record_at. f_equal. apply at_zremrange_ne. intros E. by eapply (task_children_apart _ Hkeys).
    + intros w. apply at_zremrange_ne. intros E. by eapply (status_children_apart _ Hkeys).
  - intros (t2 & [Ht2 Ht] & l & Hl & _). unfold list_task_ids_by_status in Hl.
    destruct (match limit with Some n => n <=? 0 | None => false end); injection Hl as <- _; [apply others_time; lia|].
    eapply redis_others_trans; [apply (others_time me t t2), Ht2|].
    eapply redis_others_trans; [eapply (others_op me t2 db (TPurge w t)); [by intros ?|done|done|done]|]. by apply others_time.
  - intros (-> & -> & _). apply redis_others_refl.
  - intros (-> & -> & _). apply (others_key me t db _ p "active_children"); [done|left| |].
    + intros k Hk. etransitivity; [by apply at_sync|]. by apply at_sadd_ne.
    + apply at_sync_self. rewrite at_sadd. unfold set_entry. by destruct (decide _).
  - intros (-> & -> & _). apply (others_key me t db _ p "active_children"); [done|left| |].
    + intros k Hk. by apply at_srem_ne.
    + unfold srem_active_child. rewrite at_srem. unfold set_entry. by destruct (decide _).
  - intros (-> & -> & _). apply redis_others_refl.
  - intros (-> & -> & _). apply (others_key me t db _ id "remaining_deps"); [done|right; left| |].
    + intros k Hk. etransitivity; [by apply at_sync|]. by apply at_set_ne.
    + apply at_sync_self. by rewrite at_set_none.
  - intros (-> & n & Hn & _). injection Hn as <- _. apply (others_key me t db _ id "remaining_deps"); [done|right; left| |].
    + intros k Hk. etransitivity; [by apply at_sync|]. by apply at_decr_ne.
    + apply at_sync_self. by rewrite at_decr.
  - intros (-> & b & Hb & _). injection Hb as <- _. apply (others_key me t db _ c "cancel_votes"); [done|right; right; left| |].
    + intros k Hk. etransitivity; [by apply at_sync|]. by apply at_sadd_ne.
    + apply at_sync_self. rewrite at_sadd. unfold set_entry. by destruct (decide _).
  - intros (-> & -> & _). apply (others_key me t db _ c "cancel_votes"); [done|right; right; left| |].
    + intros k Hk. by apply at_del_ne.
    + unfold clear_cancel_votes. by rewrite at_del.
  - intros (-> & b & Hb & _). injection Hb as <- _. apply (others_key me t db _ id "result_consumers"); [done|do 3 right; left| |].
    + intros k Hk. etransitivity; [by apply at_sync|]. by apply at_sadd_ne.
    + apply at_sync_self. rewrite at_sadd. unfold set_entry. by destruct (decide _).
Qed.

Lemma redis_answers_others me o s x s' : redis_sound s → Forall plain_id (about o) → well_typed o → keeps_generation me o →
  redis_answers me o s x s' → redis_others me s s'.
Proof.
  intros Hs Hv Hw Hg [Hc|(e & -> & _ & [->|[y Hc]])]; [by eapply redis_call_others|apply redis_others_refl|by eapply redis_call_others].
Qed.

Lemma redis_get_answer me id s r s' : redis_answers me (GetTask id) s (Ok r) s' → redis_status s' id = word_of r.
Proof.
  intros [Hc|(e & [=] & _)]. destruct s as [t db], s' as [t' db']. destruct Hc as (-> & -> & [= ->]).
  unfold redis_status, get_task, record_at, get. simpl. by destruct (at_ t (_task_key d id) db) as [[[[]| | |] x]|].
Qed.

Lemma redis_update_answer id u v s x s' w : redis_sound s → plain_id id → words_only u → u !! "status"%string = Some (JStr w) → w ≠ ""%string →
  redis_answers id (UpdateTask id u v) s x s' →
  match x with
  | Ok _ => ∃ s1, redis_sound s1 ∧ redis_status s1 id = Some w ∧ redis_others id s1 s'
  | Err e => v = false → is_core_invalid_transfer e = true →
      ∃ s1 w0, redis_sound s1 ∧ w0 ∈ terminal_words ∧ redis_status s1 id = Some w0 ∧ redis_others id s1 s'
  end.
Proof.
  intros Hs Hid Hu Huw Hw [Hc|(e & -> & Hf & _)]; [|by destruct e].
  destruct s as [t db], s' as [t' db']. destruct Hc as (t2 & dbm & r & Hm & Ht & Hup & ->).
  pose proof (redis_others_sound _ _ _ Hs Hm) as [Hok2 Hpl2]. simpl in Hok2, Hpl2. rewrite update_task_checked in Hup.
  destruct (checked d t id u v db) as [[]|e] eqn:Eck.
  2: { injection Hup as <- <-. intros ->. unfold checked in Eck. by rewrite Huw in Eck. }
  destruct (task_update t2 _ _ _ _ _ _ _ dbm) as [db2 rep] eqn:Eu.
  assert (Hop : redis_others id (t2, dbm) (t2, db2)).
  { apply (others_op id t2 dbm (TUpdate id u (-1)) db2 (Some rep)); try done.
    - intros ? [= <-]. done.
    - simpl. simpl in Eu. by rewrite Eu. }
  pose proof (redis_others_sound _ _ _ (Build_redis_sound (t2, dbm) Hok2 Hpl2) Hop) as Hs2.
  destruct (record_at d t2 id dbm) as [[cur y]|] eqn:Er.
  2: { destruct (task_update_no_record d t2 id u (-1) (status_index_prefix d) (terminal_statuses d) (default_expire_time d) dbm Er) as [_ E].
       simpl in Eu. rewrite Eu in E. simpl in E. destruct rep; injection Hup as <- <-; simpl; try done.
       exfalso. unfold task_update in Eu. destruct (get_no_record d t2 id _ Er) as [E'|(v' & E' & Hv')]; rewrite E' in Eu; [done|].
       destruct v'; try done. by destruct (Hv' r). }
  destruct (sok_word _ _ _ Hok2 _ _ _ Er) as (w0 & X & Hst & ->).
  destruct (task_update_record d t2 id u (-1) (terminal_statuses d) (default_expire_time d) dbm cur (Some X) w0 Hu Er Hst) as [Eq Hst'].
  cbn zeta in Eq. simpl in Eu. rewrite Eu in Eq. assert (new_word u w0 = w) as Enw by (unfold new_word; by rewrite Huw). rewrite Enw in *.
  pose proof (resolve_positive t2 (_task_key d id) None (default_expire_time d) dbm Hdefault ltac:(done)) as He. simpl in He.
  destruct (decide (w0 ≠ w ∧ w0 ∈ terminal_statuses d)) as [Hx|Hx].
  - injection Eq as -> ->. injection Hup as <- <-. intros _ _. exists (t2, dbm), w0.
    rewrite Hterminal in Hx. split_and!; [done|apply Hx| |by apply others_time].
    eapply record_status; [exact Er|done|]. destruct Hx as [_ Hx]. by apply terminal_word_nonempty.
  - rewrite decide_False in Eq by lia. injection Eq as -> ->. injection Hup as <- <-. simpl.
    eexists (t2, _). split_and!; [exact Hs2| |].
    + refine (record_status (t2, _) id _ _ w (move_record d Hkeys t2 dbm id _ _ _ w He _) Hst' Hw). destruct (decide _); naive_solver.
    + apply (others_follow id t2 _ t' id (-1) (rs_plain _ Hs2) Ht).
Qed.

(** The script refuses a change of status only. *)
Lemma update_refused me id u v t db t2 dbm t' db' : redis_sound (t, db) → plain_id id → words_only u → redis_others me (t, db) (t2, dbm) →
  update_task d t t2 t' (λ _, dbm) id u None v db = (db', Err InvalidStatusTransferError) → u !! "status"%string ≠ None.
Proof.
  intros Hs Hid Hu Hm Hc Hn. destruct (redis_others_sound _ _ _ Hs Hm) as [Hok2 _]. simpl in Hok2.
  rewrite update_task_checked in Hc. unfold checked in Hc. rewrite Hn in Hc.
  destruct (task_update t2 _ _ _ _ _ _ _ dbm) as [db2 rep] eqn:Eu. destruct rep; try done.
  destruct (record_at d t2 id dbm) as [[cur y]|] eqn:Er.
  - destruct (sok_word _ _ _ Hok2 _ _ _ Er) as (w0 & X & Hst & ->).
    destruct (task_update_record d t2 id u (-1) (terminal_statuses d) (default_expire_time d) dbm cur (Some X) w0 Hu Er Hst) as [Eq _].
    cbn zeta in Eq. simpl in Eu. rewrite Eu in Eq. unfold new_word in Eq. rewrite Hn in Eq.
    rewrite decide_False in Eq by (intros [Hne _]; by apply Hne). by destruct (decide _).
  - unfold task_update in Eu. destruct (get_no_record d t2 id _ Er) as [E'|(v' & E' & Hv')]; rewrite E' in Eu; [done|].
    destruct v'; try done. by destruct (Hv' r).
Qed.

Lemma redis_raises me o s e s' : redis_sound s → Forall plain_id (about o) → well_typed o → redis_answers me o s (Err e) s' → may_raise o e.
Proof.
  intros Hs Hv Hw [Hc|(e' & He & Hf & _)].
  2: { injection He as <-. by destruct e. }
  assert (∀ A (r : res task_error A) e, Err e = core_res r → ∃ e0, e = Core e0 ∧ r = Err e0) as Hcore.
  { intros A [a|e0] e1 He; [done|]. injection He as ->. eauto. }
  destruct s as [t db], s' as [t' db']. destruct o; simpl in Hc, Hv; rewrite ?Forall_singleton in Hv;
    repeat match goal with H : ∃ _, _ |- _ => destruct H as [? H] | H : _ ∧ _ |- _ => destruct H end; try done.
  - match goal with H : Err e = core_res _ |- _ => apply Hcore in H as (e0 & -> & ->) end.
    destruct e0; try done. by eapply update_refused.
  - match goal with H : ∀ e0, Err e = Err e0 → _ |- _ => specialize (H e eq_refl) end. by destruct e.
  - match goal with H : Err e = core_res _ |- _ => apply Hcore in H as (e0 & -> & ->) end.
    destruct e0; try done. simpl. unfold request_cancel in *. destruct (bool_decide _); [done|].
    destruct (update_task _ _ _ _ _ _ _ _ _ _) as [db2 [|e2]] eqn:Eu; [done|].
    match goal with H : (_, _) = (db', _) |- _ => injection H as -> -> end.
    eapply update_refused; [|exact Hv| |eassumption|exact Eu|done]; [|by apply words_only_other].
    eapply redis_others_sound; [exact Hs|]. by apply (others_time me).
Qed.

Lemma redis_request_answer id s s' : redis_sound s → plain_id id → redis_answers id (RequestCancel id) s (Ok false) s' →
  redis_status s' id = None.
Proof.
  intros Hs Hid [Hc|(e & [=] & _)].
  destruct s as [t db], s' as [t' db']. destruct Hc as (t1 & t2 & dbm & r & Ht1 & Hm & Ht & Hc & Er).
  pose proof (redis_others_time _ _ _ Hm) as Ht12. simpl in Ht12. unfold request_cancel in Hc.
  destruct (bool_decide (get_task d t id db = ∅)) eqn:Eg.
  - injection Hc as <- <-. apply bool_decide_eq_true in Eg. unfold redis_status. simpl.
    destruct (record_at d t' id db) as [[rec y]|] eqn:Erec; [|done]. apply (record_later d t t') in Erec as [Erec _]; [|lia].
    unfold get_task in Eg. rewrite (record_get d t id db rec y Erec) in Eg. by subst rec.
  - destruct (update_task _ _ _ _ _ _ _ _ _ _) as [db2 [a|e]]; injection Hc as <- <-; simpl in Er; congruence.
Qed.

Lemma redis_init_answer id w parent s b s' : redis_sound s → plain_id id → w ≠ ""%string →
  redis_answers id (InitializeTask id w parent true) s (Ok b) s' →
  redis_sound s' ∧ if b then redis_status s' id = Some w else s' = s.
Proof.
  intros Hs Hid Hw [Hc|(e & [=] & _)]. destruct s as [t db], s' as [t' db']. destruct Hc as (now_str & eid & -> & Hi & _).
  destruct Hs as [Hok Hpl]. simpl in *. destruct (exists_key t (_task_key d id) db) eqn:Ex.
  - destruct (initialize_existing d t now_str eid id None w true parent db (or_introl (conj eq_refl Ex))) as [E1 E2].
    rewrite Hi in E1, E2. simpl in E1, E2. subst db'. destruct b; [done|]. by split.
  - pose proof (initialize_record d Hkeys t now_str eid id None w true parent db Hok Ex Hdefault) as Hr. cbn zeta in Hr. rewrite Hi in Hr.
    destruct Hr as ([= ->] & Hok' & rec & Hrec & Hst & _). split.
    + split; [done|]. simpl. intros j r Hj. destruct (decide (j = id)) as [->|Hne]; [done|].
      pose proof (initialize_task_ne d Hkeys t j now_str eid id None w true parent db Hne) as E. rewrite Hi in E. simpl in E.
      unfold record_at in *. rewrite E in Hj. by eapply Hpl.
    + by eapply record_status.
Qed.

(** An executable run of the calls: the clock advances by [wait] before a call
    and by [mid] between a check of the store and its script; nobody else
    runs, and every generation is called [eid]. *)
Definition redis_exec (eid : string) (wait mid : Z) (o : store_op) (s : redis_state) : store_ans o * redis_state :=
  let t := s.1 + wait in
  let t' := t + mid in
  let db := s.2 in
  match o return store_ans o * redis_state with
  | GetTask id => (Ok (get_task d t id db), (t, db))
  | UpdateTask id u v => let '(db', r) := update_task d t t' t' (λ db, db) id u None v db in (core_res r, (t', db'))
  | InitializeTask id w parent ine =>
      let '(db', r) := initialize_task d t "now" eid id None w ine parent db in
      (match r with Some b => Ok b | None => Err (Other "redis") end, (t, db'))
  | RequestCancel id => let '(db', r) := request_cancel d t t t' t' (λ db, db) id db in (core_res r, (t', db'))
  | ListChildren p => let '(db', l) := list_children d t t t p db in (Ok l, (t, db'))
  | ListTaskIdsByStatus w limit => let '(db', l) := list_task_ids_by_status d t t t w limit db in (Ok l, (t, db'))
  | BulkGetTasks ids => (Ok (bulk_get_tasks d t ids db), (t, db))
  | SaddActiveChild p c => (Ok tt, (t, sadd_active_child d t p c db))
  | SremActiveChild p c => (Ok tt, (t, srem_active_child d t p c db))
  | GetActiveChildren p => (Ok (get_active_children d t p db), (t, db))
  | SetRemainingDeps id n => (Ok tt, (t, set_remaining_deps d t id n db))
  | DecrRemainingDeps id => let '(db', n) := decr_remaining_deps d t id db in (Ok n, (t, db'))
  | VoteAndCheck c p n => let '(db', b) := vote_and_check_threshold d t c p n db in (Ok b, (t, db'))
  | ClearCancelVotes c => (Ok tt, (t, clear_cancel_votes d t c db))
  | SaddResultConsumer id c => let '(db', b) := sadd_result_consumer d t id c db in (Ok b, (t, db'))
  end%string.

Lemma redis_exec_call me eid wait mid o s : 0 ≤ wait → 0 ≤ mid →
  let '(x, s') := redis_exec eid wait mid o s in redis_call me o (s.1 + wait, s.2) x s'.
Proof.
  intros Hwait Hmid. destruct s as [t db]. unfold redis_exec. cbn [fst snd].
  assert (∀ o1, o1 db = db → ∀ t1 t2 t3 id u v, update_task d t1 t2 t3 o1 id u None v db = update_task d t1 t2 t3 (λ _, db) id u None v db) as Hup.
  { intros o1 E *. rewrite !update_task_checked. by rewrite E. }
  destruct o as [id|id u v|id w parent ine|id|p|w limit|ids|p c|p c|p|id n|id|c p n|c|id c]; try done.
  - destruct (update_task _ _ _ _ _ _ _ _ _ _) as [db' r] eqn:E. rewrite (Hup (λ db, db) eq_refl) in E.
    exists (t + wait + mid), db, r. split_and!; [apply others_time; lia|lia|done|done].
  - destruct (initialize_task _ _ _ _ _ _ _ _ _ _) as [db' [b|]] eqn:E; exists "now"%string, eid; split_and!; try done. by intros e [= <-].
  - destruct (request_cancel _ _ _ _ _ _ _ _) as [db' r] eqn:E. exists (t + wait), (t + wait + mid), db, r.
    split_and!; [lia|apply others_time; lia|lia| |done]. rewrite <- E. unfold request_cancel. by rewrite (Hup (λ db, db) eq_refl).
  - exists (t + wait). split; [lia|]. eauto.
  - destruct (list_task_ids_by_status _ _ _ _ _ _ _) as [db' l] eqn:E. exists (t + wait). split; [lia|]. eauto.
  - split; [done|]. eauto.
  - split; [done|]. eauto.
  - split; [done|]. unfold sadd_result_consumer. eauto.
Qed.

#[local] Instance redis_storage : TaskStorage := {|
  store := redis_state; answers := redis_answers; sound := redis_sound; valid_id := plain_id; status_at := redis_status;
  others := redis_others; others_refl := redis_others_refl; others_trans := redis_others_trans; others_sound := redis_others_sound;
  others_settled := redis_others_settled; answers_others := redis_answers_others; get_answer := redis_get_answer;
  update_answer := redis_update_answer; store_raises := redis_raises; request_answer := redis_request_answer; init_answer := redis_init_answer |}.

Lemma redis_exec_step me eid wait mid o s : 0 ≤ wait → 0 ≤ mid →
  step_on me o s (redis_exec eid wait mid o s).1 (redis_exec eid wait mid o s).2.
Proof.
  intros Hw Hm. exists (s.1 + wait, s.2). split; [destruct s; apply others_time; simpl; lia|].
  pose proof (redis_exec_call me eid wait mid o s Hw Hm) as Hc. destruct (redis_exec _ _ _ _ _) as [x s']. by left.
Qed.

(** A run of a program with chosen delays around its [n]-th call *)
Lemma redis_runs {A} me eid (delay : nat → Z * Z) (p : prog store_ans A) s :
  (∀ n, 0 ≤ (delay n).1 ∧ 0 ≤ (delay n).2) →
  let r := exec (λ n, redis_exec eid (delay n).1 (delay n).2) 0 p s in runs (step_on me) p s r.1 r.2.
Proof.
  intros Hd. apply (exec_runs (@step_on redis_storage me)). intros i o s1. by apply redis_exec_step; apply Hd.
Qed.

Lemma redis_sound_empty t (db : DB) : (∀ k, entry db k = None) → redis_sound (t, db).
Proof.
  intros He. split; [by apply store_ok_empty|]. intros id r. unfold record_at, at_. simpl. by rewrite He.
Qed.

End RedisStorage.
