(* ===== verification/Lifecycle.v ===== *)
(** * Task state machine and lifecycle

    flow/core/state_machine.py and flow/core/lifecycle.py.  The lifecycle is a
    client of the class [TaskStorage]: its coroutines are programs over the
    store's calls, run with other clients in between ([step_on]). *)
From Stdlib Require Import ZArith Lia.
From stdpp Require Import prelude gmap list strings.
From S2P Require Import Prelude Redis TaskDb Effects TaskStorage.
Local Open Scope list_scope.

(** ** Status words *)

Inductive TaskStatus := PENDING | QUEUED | RUNNING | SUCCEEDED | FAILED | CANCELLED.

#[global] Instance TaskStatus_eq_dec : EqDecision TaskStatus.
Proof. solve_decision. Defined.

(** [TaskStatus.value], and the lookup [TaskStatus(word)] *)
Definition word (st : TaskStatus) : string :=
  match st with
  | PENDING => "pending" | QUEUED => "queued" | RUNNING => "running"
  | SUCCEEDED => "succeeded" | FAILED => "failed" | CANCELLED => "cancelled"
  end%string.

Definition all_statuses : list TaskStatus := [PENDING; QUEUED; RUNNING; SUCCEEDED; FAILED; CANCELLED].
Definition of_word (w : string) : option TaskStatus := List.find (λ st, bool_decide (word st = w)) all_statuses.

(** ** TaskStateMachine *)

Definition get_allowed_transitions (st : TaskStatus) : list TaskStatus :=
  match st with
  | PENDING => [QUEUED; CANCELLED]
  | QUEUED => [RUNNING; CANCELLED]
  | RUNNING => [SUCCEEDED; FAILED; CANCELLED]
  | SUCCEEDED | FAILED | CANCELLED => []
  end.

Definition can_transition (from_status to_status : TaskStatus) : bool :=
  bool_decide (to_status ∈ get_allowed_transitions from_status).

Definition validate_transition (from_status to_status : TaskStatus) : res exn unit :=
  if can_transition from_status to_status then Ok tt else Err InvalidStateTransition.

Definition is_terminal (st : TaskStatus) : bool := bool_decide (st ∈ [SUCCEEDED; FAILED; CANCELLED]).

Lemma of_word_word st : of_word (word st) = Some st.
Proof. by destruct st. Qed.

Lemma of_word_Some w st : of_word w = Some st → w = word st.
Proof.
  unfold of_word. intros [_ Hb]%List.find_some. by apply bool_decide_eq_true in Hb.
Qed.

Lemma word_nonempty st : word st ≠ ""%string.
Proof. by destruct st. Qed.

(** The words the store protects are those of the terminal statuses. *)
Lemma terminal_word st : word st ∈ terminal_words ↔ is_terminal st = true.
Proof. destruct st; vm_compute; split; intros H; try done; try (by apply (bool_decide_unpack _)). all: set_solver. Qed.

Lemma terminal_word_of w : w ∈ terminal_words → ∃ st, w = word st ∧ is_terminal st = true.
Proof.
  unfold terminal_words. rewrite !elem_of_cons, elem_of_nil.
  intros [->|[->|[->|[]]]]; [by exists SUCCEEDED|by exists FAILED|by exists CANCELLED].
Qed.

(** ** TaskLifecycle *)

Notation storeM := (M store_ans).

Definition call (o : store_op) : storeM (reply o) := perform o.

(** [TaskStatus(task["status"])] *)
Definition read_status (task : row) : storeM TaskStatus :=
  match task !! "status"%string with
  | None => raise KeyError
  | Some (JStr w) => or_raise (of_word w) ValueError
  | Some _ => raise ValueError
  end.

Definition of_res {A} (r : res exn A) : storeM A := Ret r.

(** [initialize]; an empty metadata dict is falsy. *)
Definition initialize (task_id : string) (metadata : option row) (parent : option string) (if_not_exists : bool) : storeM bool :=
  let! created := call (InitializeTask task_id (word PENDING) parent if_not_exists) in
  if created then
    match metadata with
    | Some m => if bool_decide (m = ∅) then ret true
                else do! call (UpdateTask task_id {[ "metadata"%string := JObj m ]} true) in ret true
    | None => ret true
    end
  else ret false.

Definition get_task (task_id : string) : storeM row :=
  let! task := call (GetTask task_id) in
  if bool_decide (task = ∅) then raise TaskNotFound else ret task.

Definition get_status (task_id : string) : storeM TaskStatus :=
  let! task := get_task task_id in read_status task.

Definition task_is_terminal (task_id : string) : storeM bool :=
  let! st := get_status task_id in ret (is_terminal st).

Definition transition_to (task_id : string) (to_status : TaskStatus) : storeM unit :=
  let! task := call (GetTask task_id) in
  if bool_decide (task = ∅) then raise TaskNotFound
  else
    let! from_status := read_status task in
    do! of_res (validate_transition from_status to_status) in
    call (UpdateTask task_id {[ "status"%string := JStr (word to_status) ]} false).

(** After a lost race: is the task cancelled all the same? *)
Definition confirm_cancelled (task_id : string) : storeM bool :=
  let! final_status := get_status task_id in ret (bool_decide (final_status = CANCELLED)).

Definition cancel (task_id : string) : storeM bool :=
  catch
    (let! task := call (GetTask task_id) in
     if bool_decide (task = ∅) then ret false
     else
       let! current_status := read_status task in
       if is_terminal current_status then ret false
       else
         let! requested := catch (call (RequestCancel task_id)) (λ e, if decide (e = TaskNotFound) then ret false else raise e) in
         if requested then
           catch (do! transition_to task_id CANCELLED in ret true)
             (λ e, if decide (e = InvalidStateTransition) then confirm_cancelled task_id
                   else if is_core_invalid_transfer e then confirm_cancelled task_id
                   else raise e)
         else ret false)
    (λ e, if decide (e = TaskNotFound) then ret false else raise e).

(** ** Runs with other clients *)

Section Laws.

Context `{TaskStorage}.

(** The environment and the calls of a program that leaves the generation of
    [id] alone. *)
Lemma step_others id o s x s' : sound s → Forall valid_id (about o) → well_typed o → keeps_generation id o →
  step_on id o s x s' → sound s' ∧ others id s s'.
Proof.
  intros Hs Hv Hw Hk (s1 & Ho & Ha). pose proof (others_sound _ _ _ Hs Ho) as Hs1.
  pose proof (answers_others _ _ _ _ _ Hs1 Hv Hw Hk Ha) as Ho'. split; [by eapply others_sound|by eapply others_trans].
Qed.

Lemma step_get id s r s' : step_on id (GetTask id) s (Ok r) s' → status_at s' id = word_of r.
Proof. intros (s1 & _ & Ha). by eapply get_answer. Qed.

(** A settled task stays settled, or is gone. *)
Definition settled (s : store) (id : string) (w : string) : Prop := status_at s id = Some w ∨ status_at s id = None.

Lemma settled_others id s s' w : sound s → w ∈ terminal_words → others id s s' → status_at s id = Some w → settled s' id w.
Proof. intros ? ? ? ?. by eapply others_settled. Qed.

(** [TaskStatus(task["status"])] of what [get_task] returned. *)
Lemma read_status_word {S} (task : row) (step : ∀ o, S → store_ans o → S → Prop) s Q :
  (∀ st, word_of task = Some (word st) → Q (Ok st) s) → (∀ e, e ∈ [KeyError; ValueError] → Q (Err e) s) →
  wp step (read_status task) s Q.
Proof.
  intros Hok Herr. unfold read_status, word_of in *.
  destruct (task !! "status"%string) as [[| | | | |w| |]|] eqn:E; simpl; try (apply Herr; set_solver).
  unfold or_raise. destruct (of_word w) as [st|] eqn:Ew; simpl; [|apply Herr; set_solver].
  apply of_word_Some in Ew as ->. apply Hok. rewrite decide_False; [done|apply word_nonempty].
Qed.

(** A call, with what holds of it whatever it answers. *)
Lemma wp_store id o s (Q : store_ans o → store → Prop) : sound s → Forall valid_id (about o) → well_typed o → keeps_generation id o →
  (∀ x s', sound s' → others id s s' → step_on id o s x s' → match x with Ok _ => True | Err e => may_raise o e end → Q x s') →
  wp (step_on id) (call o) s Q.
Proof.
  intros Hs Hv Hw Hk HQ. change (∀ x s1, step_on id o s x s1 → Q x s1). intros x s' Hstep.
  destruct (step_others id o s x s' Hs Hv Hw Hk Hstep) as [Hs' Ho]. apply HQ; [done..|].
  destruct x as [a|e]; [done|]. destruct Hstep as (s1 & Ho1 & Ha). eapply store_raises; [|done..|exact Ha]. exact (others_sound _ _ _ Hs Ho1).
Qed.

Lemma wp_get_task id s (Q : res exn row → store → Prop) : sound s → valid_id id →
  (∀ task s', sound s' → others id s s' → status_at s' id = word_of task → Q (Ok task) s') →
  (∀ e s', sound s' → others id s s' → may_raise (GetTask id) e → Q (Err e) s') →
  wp (step_on id) (call (GetTask id)) s Q.
Proof.
  intros Hs Hv Hok Herr. apply wp_store; [done|by apply Forall_singleton|done|done|].
  intros [task|e] s' Hs' Ho Hstep Hm; [|by apply Herr]. apply Hok; [done..|by eapply step_get].
Qed.

Lemma may_raise_get id e : may_raise (GetTask id) e → is_core_invalid_transfer e = false ∧ e ≠ TaskNotFound ∧ e ≠ InvalidStateTransition.
Proof. by destruct e as [[]| | | | | | | | | | |]. Qed.

(** Errors that no caller in this file handles *)
Definition unhandled (e : exn) : Prop := is_core_invalid_transfer e = false ∧ e ≠ TaskNotFound ∧ e ≠ InvalidStateTransition.

Lemma unhandled_value e : e ∈ [KeyError; ValueError] → unhandled e.
Proof. rewrite !elem_of_cons, elem_of_nil. by intros [->|[->|[]]]. Qed.

Lemma get_status_spec id s (Q : res exn TaskStatus → store → Prop) : sound s → valid_id id →
  (∀ st s', sound s' → others id s s' → status_at s' id = Some (word st) → Q (Ok st) s') →
  (∀ s', sound s' → others id s s' → status_at s' id = None → Q (Err TaskNotFound) s') →
  (∀ e s', sound s' → others id s s' → unhandled e → Q (Err e) s') →
  wp (step_on id) (get_status id) s Q.
Proof.
  intros Hs Hv Hok Hno Herr. unfold get_status, get_task. wp_simp. apply wp_get_task; [done..| |].
  - intros task s' Hs' Ho Hst. case_bool_decide as Ee.
    + subst task. wp_simp. by apply Hno.
    + wp_simp. apply read_status_word; [|intros e He; by apply Herr, unhandled_value].
      intros st Est. apply Hok; [done..|]. by rewrite Hst.
  - intros e s' Hs' Ho He. by apply Herr; [..|apply may_raise_get in He].
Qed.

Lemma status_update_words st : words_only {[ "status"%string := JStr (word st) ]}.
Proof. intros v Hv. apply lookup_singleton_Some in Hv as [_ <-]. eauto. Qed.

Lemma transition_wp id st s (Q : res exn unit → store → Prop) : sound s → valid_id id →
  (∀ from s1 s2 s', others id s s1 → status_at s1 id = Some (word from) → can_transition from st = true →
     sound s' → others id s s' → status_at s2 id = Some (word st) → sound s2 → others id s2 s' → Q (Ok tt) s') →
  (∀ s', sound s' → others id s s' → status_at s' id = None → Q (Err TaskNotFound) s') →
  (∀ from s', sound s' → others id s s' → status_at s' id = Some (word from) → can_transition from st = false →
     Q (Err InvalidStateTransition) s') →
  (∀ e w0 s1 s', sound s' → others id s s' → is_core_invalid_transfer e = true → w0 ∈ terminal_words → status_at s1 id = Some w0 →
     sound s1 → others id s1 s' → Q (Err e) s') →
  (∀ e s', sound s' → others id s s' → unhandled e → Q (Err e) s') →
  wp (step_on id) (transition_to id st) s Q.
Proof.
  intros Hs Hv Hok Hno Hbad Hcore Herr. unfold transition_to. wp_simp. apply wp_get_task; [done..| |].
  2: { intros e s' Hs' Ho He. by apply Herr; [..|apply may_raise_get in He]. }
  intros task s1 Hs1 Ho1 Hst. case_bool_decide as Ee.
  { subst task. wp_simp. by apply Hno. }
  wp_simp. apply read_status_word; [|intros e He; by apply Herr, unhandled_value].
  intros from Hfrom. rewrite Hfrom in Hst. unfold validate_transition, of_res. destruct (can_transition from st) eqn:Ec; cycle 1.
  { by apply (Hbad from). }
  wp_simp. apply wp_store; [done|by apply Forall_singleton|apply status_update_words|done|].
  intros x s2 Hs2 Ho2 (sm & Hom & Ha) Hm.
  pose proof (update_answer _ _ _ _ _ _ (word st) (others_sound _ _ _ Hs1 Hom) Hv (status_update_words st)
    ltac:(apply lookup_singleton_eq) (word_nonempty st) Ha) as Hu.
  pose proof (others_trans _ _ _ _ Ho1 Ho2) as Ho. destruct x as [[]|e].
  - destruct Hu as (s3 & Hs3 & Hst3 & Ho3). by apply (Hok from s1 s3).
  - destruct (is_core_invalid_transfer e) eqn:Ei.
    + destruct (Hu eq_refl eq_refl) as (s3 & w0 & Hs3 & Hw0 & Hst3 & Ho3). by apply (Hcore e w0 s3).
    + apply Herr; [done..|]. split; [done|]. by destruct e as [[]| | | | | | | | | | |].
Qed.

(** After a lost race: an answer, with the status it was read from. *)
Lemma confirm_wp id s w0 s1 (Q : res exn bool → store → Prop) : sound s → valid_id id → sound s1 → w0 ∈ terminal_words →
  status_at s1 id = Some w0 → others id s1 s →
  (∀ s', settled s' id w0 → Q (Ok (bool_decide (w0 = word CANCELLED))) s') →
  (∀ s', status_at s' id = None → Q (Err TaskNotFound) s') →
  (∀ e s', unhandled e → Q (Err e) s') →
  wp (step_on id) (confirm_cancelled id) s Q.
Proof.
  intros Hs Hv Hs1 Hw Hst Ho HQ Hno Herr. unfold confirm_cancelled. wp_simp. apply get_status_spec; [done..| | |]; wp_simp.
  - intros st s' Hs' Ho' Hst'. wp_simp. destruct (others_settled id s1 s' w0 Hs1 ltac:(by eapply others_trans) Hw Hst) as [E|E]; [|congruence].
    rewrite E in Hst'. injection Hst' as ->.
    rewrite (bool_decide_ext (st = CANCELLED) (word st = word CANCELLED)); [by apply HQ; left|].
    split; [by intros ->|]. by destruct st.
  - intros s' _ _ E. by apply Hno.
  - intros e s' _ _ He. by apply Herr.
Qed.

End Laws.

(** [transition_to] with other clients running in between: it returns only
    after it wrote the target status, from a status it had read and that the
    table allows; TaskNotFoundError and InvalidStateTransitionError are raised
    for a task that then has no status or one from which the table forbids the
    move, the store's refusal only for a task that had become terminal. *)
Theorem transition_to_spec `{TaskStorage} id st s r s' : sound s → valid_id id → runs (step_on id) (transition_to id st) s r s' →
  match r with
  | Ok _ => (∃ from s1, others id s s1 ∧ status_at s1 id = Some (word from) ∧ can_transition from st = true)
            ∧ ∃ s2, status_at s2 id = Some (word st) ∧ others id s2 s'
  | Err TaskNotFound => status_at s' id = None
  | Err InvalidStateTransition => ∃ from, status_at s' id = Some (word from) ∧ can_transition from st = false
  | Err e => is_core_invalid_transfer e = true → ∃ w s1, w ∈ terminal_words ∧ status_at s1 id = Some w ∧ others id s1 s'
  end.
Proof.
  intros Hs Hv. revert r s'. apply wp_runs, transition_wp; [done|done|eauto 10|eauto|eauto| |].
  - intros e w0 s1 s' _ _ He ? ? _ ?. apply bool_decide_eq_true in He as ->. eauto 10.
  - intros e s' _ _ (He & H1 & H2). destruct e; congruence.
Qed.

(** A run together with the calls it makes *)
Definition noting `{TaskStorage} (id : string) (o : store_op) (s : store * list store_op) (x : store_ans o) (s' : store * list store_op) : Prop :=
  step_on id o s.1 x s'.1 ∧ s'.2 = (s.2 ++ [o])%list.

Lemma wp_noting `{TaskStorage} {A} id (p : prog store_ans A) s l (Q : A → store * list store_op → Prop) :
  wp (step_on id) p s (λ a s', ∀ l', Q a (s', l')) → wp (noting id) p (s, l) Q.
Proof.
  revert s l. induction p as [a|o k IH]; intros s l; [intros Hp; apply Hp|]. intros Hp x [s1 l1] [Hs _]. apply IH, Hp, Hs.
Qed.

(** What [cancel] answers, after the [calls] it made *)
Definition cancel_outcome `{TaskStorage} (id : string) (calls : list store_op) (r : res exn bool) (s' : store) : Prop :=
  match r with
  | Ok true => settled s' id (word CANCELLED)
  | Ok false => status_at s' id = None ∨
      ∃ st, is_terminal st = true ∧ status_at s' id = Some (word st) ∧ (st = CANCELLED → calls = [GetTask id])
  | Err e => is_core_invalid_transfer e = false ∧ e ≠ TaskNotFound ∧ e ≠ InvalidStateTransition
  end.

Definition told `{TaskStorage} (id : string) (r : res exn bool) (s' : store * list store_op) : Prop := cancel_outcome id s'.2 r s'.1.

Lemma unhandled_passes `{TaskStorage} id e s : unhandled e →
  wp (noting id) (if decide (e = TaskNotFound) then ret false else raise e) s (told id).
Proof. intros (? & ? & ?). by rewrite decide_False. Qed.

Lemma gone_is_false `{TaskStorage} id s : status_at s.1 id = None →
  wp (noting id) (if decide (TaskNotFound = TaskNotFound) then ret false else raise TaskNotFound) s (told id).
Proof. intros E. rewrite decide_True by done. by left. Qed.

Lemma lost_race `{TaskStorage} id st s1 s l : sound s → valid_id id → sound s1 → is_terminal st = true →
  status_at s1 id = Some (word st) → others id s1 s →
  wp (noting id) (confirm_cancelled id) (s, l) (λ r s', match r with
    | Ok a => told id (Ok a) s'
    | Err e => wp (noting id) (if decide (e = TaskNotFound) then ret false else raise e) s' (told id)
    end).
Proof.
  intros Hs Hv Hs1 Ht Hst Ho. apply wp_noting. eapply confirm_wp; [done..|by eapply terminal_word|done|done| | |].
  - intros s' Hset l'. case_bool_decide as Ew; [by rewrite Ew in Hset|].
    destruct Hset as [E|E]; [right|by left]. exists st. split_and!; [done..|congruence].
  - intros s' E l'. by apply gone_is_false.
  - intros e s' He l'. by apply unhandled_passes.
Qed.

(** What the first read of [cancel] tells *)
Lemma first_read `{TaskStorage} id s : sound s → valid_id id →
  wp (step_on id) (call (GetTask id)) s (λ x s1, sound s1 ∧ match x with Ok task => status_at s1 id = word_of task | Err e => unhandled e end).
Proof. intros Hs Hv. apply wp_get_task; [done..|by intros|]. intros e s' Hs' _ He. split; [done|]. by apply may_raise_get in He. Qed.

(** C11: [cancel], racing with executors, other cancellations and expiry: when
    it answers True the task is cancelled (or its record has expired since);
    when it answers False the task has no record, or another final status than
    cancelled, or it was cancelled already when [cancel] first read it, and
    then the read was all that [cancel] did.  So a cancelled task stays
    cancelled, no answer leaves it live, and a cancellation that [cancel] asked
    for and that took place is never reported as False.  The races it handles
    never escape as InvalidStateTransitionError or as the store's refusal. *)
Theorem cancel_spec `{TaskStorage} id s r s' calls : sound s → valid_id id →
  runs (noting id) (cancel id) (s, []) r (s', calls) → cancel_outcome id calls r s'.
Proof.
  intros Hs Hv Hr. change (told id r (s', calls)). revert Hr. generalize (s', calls). revert r. apply wp_runs. unfold cancel, call at 1. wp_call.
  intros x [s1 l1] [Hstep Hl]. simpl in Hstep, Hl. destruct (first_read id s Hs Hv x s1 Hstep) as [Hs1 Hst].
  destruct x as [task|e]; [|by apply unhandled_passes]. case_bool_decide as Ee; wp_simp.
  { left. simpl. by rewrite Hst, Ee. }
  apply read_status_word; [|intros e He; by apply unhandled_passes, unhandled_value].
  intros st Est. rewrite Est in Hst. wp_simp. destruct (is_terminal st) eqn:Et; wp_simp; [right; by exists st|].
  apply wp_noting, wp_store; [done|by apply Forall_singleton|done|done|].
  intros x s2 Hs2 Ho2 (sm & Hom & Ha) Hm l2. destruct x as [[]|e]; wp_simp; cycle 1.
  { left. eapply request_answer; [|done|exact Ha]. exact (others_sound _ _ _ Hs1 Hom). }
  { assert (unhandled e) as He by (by destruct e as [[]| | | | | | | | | | |]).
    rewrite decide_False by apply He. wp_simp. by apply unhandled_passes. }
  apply wp_noting, transition_wp; [done..| | | | |].
  - intros from s3 s4 s5 _ _ _ _ _ Hst4 Hs4 Ho4 l5. wp_simp. by apply (settled_others id s4 s5 _ Hs4 (proj2 (terminal_word CANCELLED) eq_refl) Ho4).
  - intros s5 _ _ Hno l5. rewrite decide_False by done. change (is_core_invalid_transfer TaskNotFound) with false. wp_simp. by apply gone_is_false.
  - intros from s5 Hs' Ho' Hst' Hno l5. rewrite decide_True by done.
    assert (is_terminal from = true) as Ht by (by destruct from).
    apply (lost_race id from s5); [done..|apply others_refl].
  - intros e w0 s3 s5 Hs' Ho' He Hw0 Hst3 Hs3 Ho3 l5. apply terminal_word_of in Hw0 as Hx. destruct Hx as (st0 & -> & Ht).
    rewrite He. apply bool_decide_eq_true in He as ->. rewrite decide_False by done.
    by apply (lost_race id st0 s3).
  - intros e s5 _ _ He l5. rewrite decide_False by apply He. destruct He as (E & He). rewrite E. wp_simp. by apply unhandled_passes.
Qed.

(** ** On the Redis store *)

Module LifecycleWitness.

Local Open Scope string_scope.

#[local] Existing Instance redis_map.
#[local] Existing Instance TaskWitness.plain_cjson.

Lemma default_apart : keys_apart get_default_storage.
Proof. split; intros i j; unfold _task_key, _status_index_key, _children_key; simpl; discriminate. Qed.

#[local] Instance flow_storage : TaskStorage := redis_storage get_default_storage default_apart eq_refl ltac:(done).

(** A run of a program from a state, with delays *)
Definition run_on {A} (delay : nat → Z * Z) (p : prog store_ans A) (s : store) : A * store :=
  exec (λ n, redis_exec get_default_storage "exec-1" (delay n).1 (delay n).2) 0 p s.

Definition promptly : nat → Z * Z := λ _, (0, 1)%Z.

Definition created : store := (run_on promptly (initialize "t" None None true) (0%Z, ∅)).2.
Definition queued : store := (run_on promptly (transition_to "t" QUEUED) created).2.
(** [cancel], with its calls *)
Definition stopping : res exn bool * (store * list store_op) :=
  exec (λ n o s, let '(x, s1) := redis_exec get_default_storage "exec-1" (promptly n).1 (promptly n).2 o s.1 in (x, (s1, s.2 ++ [o])%list))
    0 (cancel "t") (queued, []).
Definition stopped : store := stopping.2.1.

Lemma t_plain : valid_id "t".
Proof.
  intros j suffix _ E. destruct j as [|c [|c' j]]; discriminate.
Qed.

Lemma run_runs {A} delay (p : prog store_ans A) (s : store) a :
  (∀ n, (0 ≤ (delay n).1 ∧ 0 ≤ (delay n).2)%Z) → (run_on delay p s).1 = a → runs (step_on "t") p s a (run_on delay p s).2.
Proof. intros Hd <-. by apply (redis_runs get_default_storage default_apart eq_refl ltac:(done)). Qed.

Lemma created_sound : sound created.
Proof.
  assert (sound (0%Z, ∅ : @DB redis_map)) as H0 by (by apply (redis_sound_empty get_default_storage)).
  assert (∃ s', runs (step_on "t") (initialize "t" None None true) (0%Z, ∅) (Ok true) s' ∧ s' = created) as (s' & Hr & <-).
  { exists created. split; [|done]. apply run_runs; [done|by_compute]. }
  destruct Hr as (x & s1 & (s2 & Ho & Ha) & Hr). destruct x as [[]|e]; [| |by destruct Hr]; [|by destruct Hr].
  destruct Hr as [_ ->]. exact (proj1 (init_answer _ _ _ _ _ _ (others_sound _ _ _ H0 Ho) t_plain (word_nonempty PENDING) Ha)).
Qed.

Lemma queue_ok : (run_on promptly (transition_to "t" QUEUED) created).1 = Ok tt.
Proof. by_compute. Qed.

Lemma queue_runs : runs (step_on "t") (transition_to "t" QUEUED) created (Ok tt) queued.
Proof. apply run_runs; [done|exact queue_ok]. Qed.

Lemma transition_witness : runs (step_on "t") (transition_to "t" QUEUED) created (Ok tt) queued ∧
  ∃ s2, status_at s2 "t" = Some "queued" ∧ others "t" s2 queued.
Proof.
  split; [exact queue_runs|]. exact (proj2 (transition_to_spec "t" QUEUED created (Ok tt) queued created_sound t_plain queue_runs)).
Defined.

Lemma queued_sound : sound queued.
Proof.
  eapply (proj1 (wp_runs _ _ _ (λ _ s', sound s'))); [|exact queue_runs].
  by apply transition_wp; [exact created_sound|exact t_plain|..].
Qed.

Lemma cancel_ok : stopping.1 = Ok true.
Proof. by_compute. Qed.

Lemma cancel_runs : runs (noting "t") (cancel "t") (queued, []) (Ok true) (stopped, stopping.2.2).
Proof.
  rewrite <- cancel_ok. change (stopped, stopping.2.2) with (stopping.2.1, stopping.2.2).
  replace (stopping.2.1, stopping.2.2) with stopping.2 by (by destruct stopping.2). apply exec_runs. intros i o [s l].
  pose proof (run_runs promptly (perform o) s _ (λ _, conj (Z.le_refl 0) Z.le_0_1) eq_refl) as Hr. revert Hr. unfold run_on. simpl.
  destruct (redis_exec _ _ _ _ _ _) as [x s1]. simpl. intros (x' & s1' & Hs & -> & ->). by split.
Qed.

Lemma cancel_witness : status_at queued "t" = Some "queued" ∧ settled stopped "t" "cancelled".
Proof.
  split; [vm_compute; reflexivity|].
  exact (cancel_spec "t" queued (Ok true) stopped _ queued_sound t_plain cancel_runs).
Defined.

(** A record that expires inside [request_cancel]: the core package's
    TaskNotFoundError is not the one that [cancel] catches. *)
Definition expiring : nat → Z * Z := λ n, (0, if decide (n = 1%nat) then 604801000 else 0)%Z.

Example cancel_leaks_core_error : (run_on expiring (cancel "t") created).1 = Err (Core TaskNotFoundError).
Proof. by_compute. Qed.

End LifecycleWitness.
