(* ===== verification/RefStore.v ===== *)
(** * A store for one client at a time

    The protocol of flow/protocols/storage.py (with the dependency primitives
    of core/redis/task_db.py that governance/dependency.py adds to it) on plain
    maps: records do not expire and a call is one step.  Whole programs of the
    flow package are specified on this store; [ref_storage] shows that it keeps
    the promises of [TaskStorage], like the Redis store does. *)
From Stdlib Require Import ZArith Lia.
From stdpp Require Import prelude gmap list strings.
From S2P Require Import Prelude Redis TaskDb Effects TaskStorage Lifecycle.
Local Open Scope list_scope.
Local Open Scope Z_scope.

Record ref_store := {
  tasks : gmap string row;
  kids : gmap string (list string);
  active : gmap string (gset string);
  remaining : gmap string Z;
  votes : gmap string (gset string);
  consumers : gmap string (gset string)
}.

Definition empty_store : ref_store :=
  {| tasks := ∅; kids := ∅; active := ∅; remaining := ∅; votes := ∅; consumers := ∅ |}.

Definition set_tasks (f : gmap string row → gmap string row) (s : ref_store) : ref_store :=
  {| tasks := f (tasks s); kids := kids s; active := active s; remaining := remaining s; votes := votes s; consumers := consumers s |}.
Definition set_kids (f : gmap string (list string) → gmap string (list string)) (s : ref_store) : ref_store :=
  {| tasks := tasks s; kids := f (kids s); active := active s; remaining := remaining s; votes := votes s; consumers := consumers s |}.
Definition set_active (f : gmap string (gset string) → gmap string (gset string)) (s : ref_store) : ref_store :=
  {| tasks := tasks s; kids := kids s; active := f (active s); remaining := remaining s; votes := votes s; consumers := consumers s |}.
Definition set_remaining (f : gmap string Z → gmap string Z) (s : ref_store) : ref_store :=
  {| tasks := tasks s; kids := kids s; active := active s; remaining := f (remaining s); votes := votes s; consumers := consumers s |}.
Definition set_votes (f : gmap string (gset string) → gmap string (gset string)) (s : ref_store) : ref_store :=
  {| tasks := tasks s; kids := kids s; active := active s; remaining := remaining s; votes := f (votes s); consumers := consumers s |}.
Definition set_consumers (f : gmap string (gset string) → gmap string (gset string)) (s : ref_store) : ref_store :=
  {| tasks := tasks s; kids := kids s; active := active s; remaining := remaining s; votes := votes s; consumers := f (consumers s) |}.

Definition task_of (s : ref_store) (id : string) : row := default ∅ (tasks s !! id).
Definition children_of (s : ref_store) (p : string) : list string := default [] (kids s !! p).
Definition active_of (s : ref_store) (p : string) : gset string := default ∅ (active s !! p).
Definition remaining_of (s : ref_store) (id : string) : Z := default 0 (remaining s !! id).
Definition votes_of (s : ref_store) (id : string) : gset string := default ∅ (votes s !! id).
Definition consumers_of (s : ref_store) (id : string) : gset string := default ∅ (consumers s !! id).

(** A change of status that the store lets through *)
Definition allowed (validate : bool) (cur : row) (updates : row) : bool :=
  match updates !! "status"%string with
  | Some (JStr w) =>
      let old := default ""%string (word_of cur) in
      bool_decide (old = w) ||
        (negb (bool_decide (old ∈ terminal_words)) &&
         (negb validate || bool_decide (w ∈ default ∅ (TASKFLOW_TRANSITIONS !! old))))
  | _ => true
  end.

Definition initial_record (w : string) (parent : option string) : row :=
  let data : row := {[ "status" := JStr w; "reason" := JStr ""; "payload" := JObj ∅; "cancel_requested" := JBool false;
                 "execution_id" := JStr "exec-1" ]}%string in
  match parent with Some p => <["parent_task_id"%string := JStr p]> data | None => data end.

Definition update (id : string) (u : row) (v : bool) (s : ref_store) : res exn unit * ref_store :=
  match tasks s !! id with
  | None => (Err (Core TaskNotFoundError), s)
  | Some cur => if allowed v cur u then (Ok tt, set_tasks <[id := u ∪ cur]> s) else (Err (Core InvalidStatusTransferError), s)
  end.

Definition ref_call (o : store_op) (s : ref_store) : store_ans o * ref_store :=
  match o return store_ans o * ref_store with
  | GetTask id => (Ok (task_of s id), s)
  | UpdateTask id u v => update id u v s
  | InitializeTask id w parent ine =>
      if ine && bool_decide (is_Some (tasks s !! id)) then (Ok false, s)
      else (Ok true,
            match parent with
            | Some p => set_kids <[p := filter (λ c, c ≠ id) (children_of s p) ++ [id]]>
            | None => λ s, s
            end (set_tasks <[id := initial_record w parent]> s))
  | RequestCancel id =>
      if bool_decide (task_of s id = ∅) then (Ok false, s)
      else let '(r, s') := update id {[ "cancel_requested"%string := JBool true ]} true s in (res_map (λ _, true) r, s')
  | ListChildren p => (Ok (children_of s p), s)
  | ListTaskIdsByStatus w limit =>
      let ids := (filter (λ ir, word_of ir.2 = Some w) (map_to_list (tasks s))).*1 in
      (Ok (match limit with None => ids | Some n => if n <=? 0 then [] else take (Z.to_nat n) ids end), s)
  | BulkGetTasks ids => (Ok (task_of s <$> ids), s)
  | SaddActiveChild p c => (Ok tt, set_active <[p := {[c]} ∪ active_of s p]> s)
  | SremActiveChild p c => (Ok tt, set_active <[p := active_of s p ∖ {[c]}]> s)
  | GetActiveChildren p => (Ok (sorted_strings (elements (active_of s p))), s)
  | SetRemainingDeps id n => (Ok tt, set_remaining <[id := n]> s)
  | DecrRemainingDeps id => (Ok (remaining_of s id - 1), set_remaining <[id := remaining_of s id - 1]> s)
  | VoteAndCheck c p n =>
      let v := {[p]} ∪ votes_of s c in (Ok (n <=? Z.of_nat (size v)), set_votes <[c := v]> s)
  | ClearCancelVotes c => (Ok tt, set_votes (delete c) s)
  | SaddResultConsumer id c => (Ok (negb (bool_decide (c ∈ consumers_of s id))), set_consumers <[id := {[c]} ∪ consumers_of s id]> s)
  end.

Definition ref_step (o : store_op) (s : ref_store) (x : store_ans o) (s' : ref_store) : Prop := (x, s') = ref_call o s.

(** Running a program on the store *)
Notation run := (play ref_call).

(** ** It is a task store *)

Definition ref_status (s : ref_store) (id : string) : option string := word_of (task_of s id).

Definition ref_other (id : string) (s s' : ref_store) : Prop :=
  ∃ o x, well_typed o ∧ keeps_generation id o ∧ ref_step o s x s'.
Definition ref_others (id : string) : ref_store → ref_store → Prop := rtc (ref_other id).

Lemma update_other j id u v s : j ≠ id → task_of (update id u v s).2 j = task_of s j.
Proof.
  intros Hne. unfold update. destruct (tasks s !! id); [|done]. destruct (allowed _ _ _); [|done].
  unfold task_of. simpl. by rewrite lookup_insert_ne.
Qed.

Lemma word_of_union (u r : row) : word_of (u ∪ r) = match u !! "status"%string with Some _ => word_of u | None => word_of r end.
Proof. unfold word_of. rewrite lookup_union. by destruct (u !! "status"%string), (r !! "status"%string). Qed.

Lemma word_of_written (u : row) w : u !! "status"%string = Some (JStr w) → w ≠ ""%string → word_of u = Some w.
Proof. unfold word_of. intros -> Hw. by rewrite decide_False. Qed.

Lemma update_settled id u v s w : words_only u → w ∈ terminal_words → ref_status s id = Some w → ref_status (update id u v s).2 id = Some w.
Proof.
  intros Hu Hw Hs. unfold update. unfold ref_status, task_of in *. destruct (tasks s !! id) as [cur|] eqn:E; [|done].
  simpl in Hs. destruct (allowed v cur u) eqn:Ea; [|simpl; by rewrite E]. simpl. rewrite lookup_insert_eq. simpl. rewrite word_of_union.
  destruct (u !! "status"%string) as [j|] eqn:Eu; [|done]. destruct (Hu _ Eu) as [w' ->]. unfold allowed in Ea. rewrite Eu, Hs in Ea. simpl in Ea.
  assert (w = w') as <-.
  { apply orb_true_iff in Ea as [Ea|Ea]; [by apply bool_decide_eq_true in Ea|]. apply andb_true_iff in Ea as [Ea _].
    rewrite bool_decide_true in Ea by done. done. }
  apply word_of_written; [done|]. by apply terminal_word_nonempty.
Qed.

(** Every call but an update or an initialisation keeps the records. *)
Lemma ref_call_tasks o s : match o with UpdateTask _ _ _ | InitializeTask _ _ _ _ | RequestCancel _ => False | _ => True end →
  tasks (ref_call o s).2 = tasks s.
Proof. by destruct o. Qed.

Lemma ref_other_settled id s s' w : ref_other id s s' → w ∈ terminal_words → ref_status s id = Some w → ref_status s' id = Some w.
Proof.
  intros (o & x & Hw & Hk & Hs) Ht E. apply (f_equal snd) in Hs. simpl in Hs. subst s'.
  assert (∀ s', tasks s' = tasks s → ref_status s' id = Some w) as Hsame.
  { intros s' Es. unfold ref_status, task_of in *. by rewrite Es. }
  assert (∀ id' u v, words_only u → ref_status (update id' u v s).2 id = Some w) as Hup.
  { intros id' u v Hu. destruct (decide (id = id')) as [<-|Hne]; [by apply update_settled|].
    unfold ref_status. by rewrite update_other. }
  destruct o as [id'|id' u v|id' w' parent ine|id'|p|w' limit|ids|p c|p c|p|id' n|id'|c p n|c|id' c]; try (by apply Hsame, ref_call_tasks).
  - by apply Hup.
  - destruct Hk as [Hne ->]. unfold ref_call. simpl. destruct (bool_decide _); [done|].
    assert (ref_status (set_tasks <[id' := initial_record w' parent]> s) id = Some w) as H1.
    { unfold ref_status, task_of. simpl. by rewrite lookup_insert_ne. }
    by destruct parent.
  - unfold ref_call. destruct (bool_decide _); [done|]. destruct (update _ _ _ _) as [r s'] eqn:Eu. simpl.
    change s' with (r, s').2. rewrite <- Eu. apply Hup. by apply words_only_other.
Qed.

Lemma ref_others_settled id s s' w : ref_others id s s' → w ∈ terminal_words → ref_status s id = Some w → ref_status s' id = Some w.
Proof. induction 1 as [|s1 s2 s3 Ho _ IH]; [done|]. intros Hw Hs. apply IH; [done|]. by eapply ref_other_settled. Qed.

Lemma ref_update_answer id u v s x s' w : u !! "status"%string = Some (JStr w) → w ≠ ""%string → ref_step (UpdateTask id u v) s x s' →
  match x with
  | Ok _ => ref_status s' id = Some w
  | Err e => v = false → is_core_invalid_transfer e = true → ∃ w0, w0 ∈ terminal_words ∧ ref_status s' id = Some w0
  end.
Proof.
  intros Hu Hw Hs. unfold ref_step in Hs. simpl in Hs. unfold update in Hs.
  destruct (tasks s !! id) as [cur|] eqn:E; [|by injection Hs as -> ->]. destruct (allowed v cur u) eqn:Ea; injection Hs as -> ->.
  - unfold ref_status, task_of. simpl. rewrite lookup_insert_eq. simpl. rewrite word_of_union, Hu. by apply word_of_written.
  - intros -> _. unfold allowed in Ea. rewrite Hu in Ea. simpl in Ea. apply orb_false_iff in Ea as [_ Ea].
    rewrite andb_true_r in Ea. apply negb_false_iff, bool_decide_eq_true in Ea.
    unfold ref_status, task_of. rewrite E. simpl. destruct (word_of cur) as [w0|]; [by exists w0|]. by apply terminal_word_nonempty in Ea.
Qed.

Lemma update_raises id u v s e : (update id u v s).1 = Err e → may_raise (UpdateTask id u v) e.
Proof.
  unfold update. destruct (tasks s !! id) as [cur|]; [|by intros [= <-]]. destruct (allowed v cur u) eqn:Ea; intros [= <-].
  unfold allowed in Ea. simpl. by destruct (u !! "status"%string).
Qed.

Lemma ref_raises o s e s' : ref_step o s (Err e) s' → may_raise o e.
Proof.
  intros Hs. apply (f_equal fst) in Hs. simpl in Hs. destruct o; try done; simpl in Hs.
  - by eapply update_raises.
  - by destruct (_ && _).
  - destruct (bool_decide _); [done|]. destruct (update _ _ _ _) as [r s1] eqn:Eu. simpl in Hs. destruct r as [|e']; [done|]. injection Hs as <-.
    assert (may_raise (UpdateTask id {[ "cancel_requested"%string := JBool true ]} true) e) as H by (apply (update_raises _ _ _ s); by rewrite Eu).
    destruct e as [[]| | | | | | | | | | |]; try done; by apply H.
Qed.

Lemma ref_init_answer id w parent s b s' : w ≠ ""%string → ref_step (InitializeTask id w parent true) s (Ok b) s' →
  if b then ref_status s' id = Some w else s' = s.
Proof.
  intros Hw Hs. unfold ref_step in Hs. simpl in Hs. destruct (bool_decide _); injection Hs as -> ->; [done|].
  assert (ref_status (set_tasks <[id := initial_record w parent]> s) id = Some w) as H1; [|by destruct parent].
  unfold ref_status, task_of. simpl. rewrite lookup_insert_eq. simpl.
  apply word_of_written; [|done]. unfold initial_record. destruct parent; rewrite ?lookup_insert_ne by done; by rewrite lookup_insert_eq.
Qed.

#[export] Instance ref_storage : TaskStorage.
Proof.
  refine {| store := ref_store; answers := λ _, ref_step; sound := λ _, True; valid_id := λ _, True; status_at := ref_status;
            others := ref_others |}; try done.
  - intros id s1 s2 s3. intros H1 H2; by transitivity s2.
  - intros id s s' w _ Ho Hw Hs. left. by eapply ref_others_settled.
  - intros id o s x s' _ _ Hw Hk Hs. apply rtc_once. by exists o, x.
  - intros me o s e s' _ _ _. apply ref_raises.
  - intros me id s r s' Hs. unfold ref_step in Hs. simpl in Hs. injection Hs as -> ->. done.
  - intros id u v s x s' w _ _ _ Hu Hw Hs. pose proof (ref_update_answer _ _ _ _ _ _ _ Hu Hw Hs) as H. destruct x as [[]|e].
    + exists s'. split_and!; [done|done|apply rtc_refl].
    + intros Hv He. destruct (H Hv He) as (w0 & Hw0 & Hst). exists s', w0. split_and!; [done..|apply rtc_refl].
  - intros id s s' _ _ Hs. unfold ref_step in Hs. simpl in Hs. destruct (bool_decide _) eqn:Eb.
    + injection Hs as ->. apply bool_decide_eq_true in Eb. unfold ref_status. by rewrite Eb.
    + destruct (update _ _ _ _) as [[]]; by injection Hs.
  - intros id w parent s b s' _ _ Hw Hs. split; [done|]. by eapply ref_init_answer.
Defined.

(** ** The lifecycle on it *)

Local Open Scope nat_scope.

Lemma run_store o s : run (call o) s = ref_call o s.
Proof. exact (play_call ref_call o s). Qed.

(** A record after its cancellation *)
Definition cancelled_record (r : row) : row :=
  {[ "status"%string := JStr (word CANCELLED) ]} ∪ ({[ "cancel_requested"%string := JBool true ]} ∪ r).

Definition live_record (r : row) (status : TaskStatus) : Prop := word_of r = Some (word status) ∧ is_terminal status = false.

Lemma run_read_status r status s : word_of r = Some (word status) → run (read_status r) s = (Ok status, s).
Proof.
  unfold word_of, read_status. destruct (r !! "status"%string) as [[| | | | |w| |]|]; try done.
  destruct (decide _); [done|]. intros [= ->]. by rewrite of_word_word.
Qed.

Lemma word_nonnull r w : word_of r = Some w → r ≠ ∅.
Proof. by intros H ->. Qed.

(** [lifecycle.cancel] on a live task *)
Lemma run_cancel id r status s : tasks s !! id = Some r → live_record r status →
  run (Lifecycle.cancel id) s = (Ok true, set_tasks <[id := cancelled_record r]> s).
Proof.
  intros Hr [Hw Ht]. unfold Lifecycle.cancel. rewrite play_catch, play_seq. rewrite (run_store (GetTask id)). simpl.
  assert (task_of s id = r) as E by (unfold task_of; by rewrite Hr). rewrite E.
  rewrite bool_decide_false by by eapply word_nonnull. rewrite play_seq, (run_read_status _ status) by done. rewrite Ht.
  rewrite play_seq, play_catch, (run_store (RequestCancel id)). simpl. rewrite E, bool_decide_false by by eapply word_nonnull.
  unfold update. rewrite Hr. assert (allowed true r {[ "cancel_requested"%string := JBool true ]} = true) as -> by done. simpl. set (r1 := {[ "cancel_requested"%string := _ ]} ∪ r). set (s1 := set_tasks _ s).
  assert (tasks s1 !! id = Some r1) as Hr1 by (simpl; by rewrite lookup_insert_eq).
  assert (task_of s1 id = r1) as E1 by (unfold task_of; by rewrite Hr1).
  assert (word_of r1 = Some (word status)) as Hw1 by (unfold r1; by rewrite word_of_union).
  rewrite play_catch, play_seq. unfold transition_to. rewrite play_seq, (run_store (GetTask id)). simpl.
  rewrite E1, bool_decide_false by by eapply word_nonnull. rewrite play_seq, (run_read_status _ status) by done.
  rewrite play_seq. unfold of_res. rewrite play_ret. unfold validate_transition.
  assert (can_transition status CANCELLED = true) as -> by (by destruct status).
  rewrite (run_store (UpdateTask id _ false)). simpl. unfold update. rewrite Hr1. unfold allowed. rewrite lookup_singleton_eq, Hw1. simpl.
  assert (word status ∉ terminal_words) as Hnt by (rewrite terminal_word; by rewrite Ht).
  rewrite (bool_decide_false (word status ∈ terminal_words)) by done. simpl. rewrite orb_true_r.
  f_equal. unfold s1, set_tasks. simpl. by rewrite insert_insert_eq.
Qed.
