(* ===== verification/TaskExecution.v ===== *)
(** * The task executor

    flow/core/executor.py: [TaskExecutor.execute] with everything it awaits.
    The executor runs against a world it does not control: the store, the
    governor, the snapshot sink, the hooks and the task itself may answer
    anything, fail, or be interrupted by a cancellation at any await.  A run
    is therefore judged by its log, the list of its calls with their answers,
    over every possible answer ([log_step]).

    [asyncio.shield] runs a finalizer to its end whether or not the coroutine
    that awaits it is cancelled meanwhile; the log then holds the finalizer's
    calls before those of the coroutine, although the two overlap in time.
    When the event loop is closed the finalizer is abandoned. *)
From Stdlib Require Import ZArith Lia.
From stdpp Require Import prelude gmap list strings.
From S2P Require Import Prelude Redis TaskDb Effects TaskStorage Lifecycle.
Local Open Scope list_scope.

(** ** Calls *)

Inductive hook := OnSuccess (result : json) | OnFailure (e : exn) | OnCancel.

(** What a finalizer calls *)
Inductive basic_op :=
  | Store (o : store_op)
  | SinkWrite (task_id execution_id : string) (parent : option json) (status : string) (terminal : bool) (error : option string)
  | RunHook (h : hook)
  | Release (resource token : string).

Definition basic_ans (o : basic_op) : Type :=
  match o with Store o => store_ans o | SinkWrite _ _ _ _ _ _ | RunHook _ | Release _ _ => res exn unit end.

(** What the executor calls; [asyncio.wait] on the inner task answers [None]
    when it is still pending. *)
Inductive exec_op :=
  | Basic (o : basic_op)
  | LatestStatus (task_id : string)
  | Acquire (resource : string)
  | TaskExecute
  | WaitInner
  | CancelInner
  | GatherInner
  | Register
  | Unregister
  | SetContext
  | ResetContext
  | Shield (p : M basic_ans unit).

Definition exec_ans (o : exec_op) : Type :=
  match o with
  | Basic o => basic_ans o
  | LatestStatus _ => res exn (option string)
  | Acquire _ => res exn string
  | TaskExecute => res exn json
  | WaitInner => res exn (option (res exn json))
  | GatherInner | Shield _ => res exn unit
  | CancelInner | Register | Unregister | SetContext | ResetContext => unit
  end.

Section Executor.

(** [str(e)] *)
Context (str_exn : exn → string).

(** ** Finalizers and helpers *)

Notation basicM := (M basic_ans).

Definition store_call (o : store_op) : basicM (reply o) := perform (Store o).
Definition sink_write (task_id eid : string) (parent : option json) (status : string) (terminal : bool) (error : option string) : basicM unit :=
  perform (SinkWrite task_id eid parent status terminal error).

Definition field (r : row) (k : string) : json := default JNull (r !! k).
(** [rec.get(k)] of a text field; anything else is taken as absent *)
Definition text_field (r : row) (k : string) : option string := match r !! k with Some (JStr s) => Some s | _ => None end.

Definition _is_cancel_requested (task_id : string) : basicM bool :=
  except_exception
    (let! task := store_call (GetTask task_id) in ret (truthy (default (JBool false) (task !! "cancel_requested"%string))))
    (λ _, ret false).

Definition _write_snapshot (task_id status : string) (terminal : bool) (error : option exn) (execution_id : string) : basicM unit :=
  except_exception
    (let! rec := store_call (GetTask task_id) in
     let eid := if bool_decide (execution_id = ""%string) then default ""%string (text_field rec "execution_id") else execution_id in
     sink_write task_id eid (rec !! "parent_task_id"%string) status terminal (str_exn <$> error))
    (λ _, ret tt).

Definition _safe_hook (h : hook) : basicM unit := except_exception (perform (RunHook h)) (λ _, ret tt).

Definition _update_terminal (task_id : string) (updates : row) : basicM bool :=
  except_exception (do! store_call (UpdateTask task_id updates false) in ret true)
    (λ e, if is_core_invalid_transfer e then ret false else raise e).

Definition _settle_cancelled (task_id reason : string) : basicM unit :=
  let! _ := _update_terminal task_id {[ "status" := JStr (word CANCELLED); "cancel_outcome" := JStr reason ]}%string in ret tt.

Definition _finalize_failure (task_id : string) (error : exn) (outcome : string) : basicM unit :=
  let! requested := _is_cancel_requested task_id in
  if requested then
    do! _settle_cancelled task_id outcome in
    do! _write_snapshot task_id (word CANCELLED) true (Some error) "" in
    _safe_hook OnCancel
  else
    let! ok := _update_terminal task_id {[ "status" := JStr (word FAILED); "error" := JStr (str_exn error) ]}%string in
    if ok then
      do! _write_snapshot task_id (word FAILED) true (Some error) "" in
      _safe_hook (OnFailure error)
    else _safe_hook OnCancel.

Definition _finalize_cancel (task_id execution_id : string) : basicM unit :=
  let! _ := _update_terminal task_id {[ "status"%string := JStr (word CANCELLED) ]} in
  do! _write_snapshot task_id (word CANCELLED) true None execution_id in
  _safe_hook OnCancel.

(** ** Main flow *)

Notation execM := (M exec_ans).

Definition basic {A} (p : basicM A) : execM A := lift Basic (λ _ x, x) p.

Definition _shielded_finalize (p : basicM unit) : execM unit := perform (Shield p).

(** The parent recorded in a task; [_MAX_LINEAGE_DEPTH] of them at most *)
Definition _MAX_LINEAGE_DEPTH : nat := 32.

Fixpoint ancestor_resources (fuel : nat) (rec : row) (visited resources : gset string) : basicM (gset string) :=
  match fuel with
  | O => ret resources
  | S fuel =>
      match text_field rec "parent_task_id" with
      | None => ret resources
      | Some parent =>
          if bool_decide (parent ∈ visited) then ret resources
          else
            pbind (store_call (GetTask parent)) (λ r,
              match r with
              | Ok parent_rec =>
                  let resources := match text_field parent_rec "resource" with
                                   | Some a => if bool_decide (a = ""%string) then resources else {[a]} ∪ resources
                                   | None => resources
                                   end in
                  ancestor_resources fuel parent_rec ({[parent]} ∪ visited) resources
              | Err e => if is_exception e then ret resources else raise e
              end)
      end
  end.

Definition _find_ancestor_resources (task_id : string) : basicM (gset string) :=
  pbind (store_call (GetTask task_id)) (λ r,
    match r with
    | Ok rec => ancestor_resources _MAX_LINEAGE_DEPTH rec {[task_id]} ∅
    | Err e => if is_exception e then ret ∅ else raise e
    end).

(** [set(snapshot)] of a JSON value *)
Definition set_of (snapshot : json) : res exn (gset string) :=
  match snapshot with
  | JArr l => if forallb (λ j, match j with JArr _ | JObj _ => false | _ => true end) l
              then Ok (list_to_set (omap (λ j, match j with JStr s => Some s | _ => None end) l)) else Err TypeError'
  | JObj m => Ok (dom m)
  | JStr s => Ok (list_to_set ((λ c, String c ""%string) <$> String.list_ascii_of_string s))
  | _ => Err TypeError'
  end.
(** [self.governor] (when there is one), [self._reuse_words] *)
Record TaskExecutor := { governor : bool; _reuse_words : list string }.
Context (self : TaskExecutor).

(** [_try_reuse_result]: [Some v] when a result is reused *)
Definition _try_reuse_result (task_id : string) : execM (option json) :=
  if bool_decide (_reuse_words self = []) then ret None
  else
    pbind (perform (LatestStatus task_id) : execM (option string)) (λ r,
      match r with
      | Err e => if is_exception e then ret None else raise e
      | Ok latest =>
          if match latest with Some w => bool_decide (w ∈ _reuse_words self) | None => false end then
            except_exception
              (let! rec := basic (store_call (GetTask task_id)) in ret (rec !! "result"%string))
              (λ _, ret None)
          else ret None
      end).

(** [_run_with_timeout], and the call without a timeout *)
Definition task_execute : execM json := perform TaskExecute.

Definition _run_with_timeout : execM json :=
  let abandon (e : exn) : execM json :=
    pbind (perform CancelInner) (λ _, do! (perform GatherInner : execM unit) in raise e) in
  pbind (perform WaitInner : execM (option (res exn json))) (λ r,
    match r with
    | Err CancelledError => abandon CancelledError
    | Err e => raise e
    | Ok None => abandon ExecutionTimeout
    | Ok (Some outcome) => Ret outcome
    end).

(** What happens before the slot is decided: [inl v] is an early return, [inr
    token] goes on with the slot [token] acquired, inherited or not needed. *)
Inductive slot := NoGovernor | Inherited | Token (token : string).

Definition acquire_slot (task_id resource_name : string) : execM slot :=
  if governor self then
    let! snapshot := basic (except_exception
      (let! rec := store_call (GetTask task_id) in ret (field rec "exempt_resources_snapshot")) (λ _, ret JNull)) in
    let! ancestors := match snapshot with
                      | JNull => basic (_find_ancestor_resources task_id)
                      | _ => Ret (set_of snapshot)
                      end in
    if bool_decide (resource_name ∈ ancestors) then ret Inherited
    else
      let! token := (perform (Acquire resource_name) : execM string) in
      ret (Token token)
  else ret NoGovernor.

Definition before_slot (task_id resource_name : string) : execM (json + slot) :=
  let! requested := basic (_is_cancel_requested task_id) in
  if requested then raise CancelledError
  else
    let! reused := _try_reuse_result task_id in
    match reused with
    | Some v => ret (inl v)
    | None => let! sl := acquire_slot task_id resource_name in ret (inr sl)
    end.

(** From the resource ledger to the success hook *)
Definition with_slot (task_id resource_name : string) (timeout : bool) (sl : slot) : execM json :=
  do! match sl with
      | Token _ => except_exception (basic (store_call (UpdateTask task_id {[ "resource"%string := JStr resource_name ]} false)))
                     (λ _, ret tt)
      | _ => ret tt
      end in
  do! basic (store_call (UpdateTask task_id {[ "status"%string := JStr (word RUNNING) ]} false)) in
  do! basic (_write_snapshot task_id (word RUNNING) false None "") in
  let! result := (if timeout then _run_with_timeout else task_execute) in
  let! requested := basic (_is_cancel_requested task_id) in
  if requested then
    do! basic (_settle_cancelled task_id "succeeded_but_cancelled") in
    do! basic (_safe_hook OnCancel) in
    ret result
  else
    let! ok := basic (_update_terminal task_id
      {[ "status" := JStr (word SUCCEEDED); "result" := result; "progress" := JFloat 4607182418800017408 ]}%string) in
    if ok then
      do! basic (_write_snapshot task_id (word SUCCEEDED) true None "") in
      do! basic (_safe_hook (OnSuccess result)) in
      ret result
    else
      do! basic (_safe_hook OnCancel) in
      ret result.

(** The [except] clauses *)
Definition handlers (task_id : string) (e : exn) : execM json :=
  match e with
  | ExecutionTimeout =>
      do! _shielded_finalize (_finalize_failure task_id e "timeout_but_cancelled") in raise TimeoutError
  | CancelledError =>
      let! eid := basic (except_exception
        (let! rec := store_call (GetTask task_id) in ret (default ""%string (text_field rec "execution_id"))) (λ _, ret ""%string)) in
      do! _shielded_finalize (_finalize_cancel task_id eid) in raise CancelledError
  | _ => do! _shielded_finalize (_finalize_failure task_id e "failed_but_cancelled") in raise e
  end.

(** The [finally] clause *)
Definition cleanup (resource_name : string) (sl : slot) : execM unit :=
  pbind (perform ResetContext) (λ _, pbind (perform Unregister) (λ _,
    match sl with
    | Token token => if bool_decide (token = ""%string) then ret tt
                     else _shielded_finalize (perform (Release resource_name token))
    | _ => ret tt
    end)).

(** The [try] statement, once the locals [token] and [inherited] are known *)
Definition guarded (task_id resource_name : string) (sl : slot) (p : execM json) : execM json :=
  finally (catch p (handlers task_id)) (cleanup resource_name sl).

Definition execute (task_id resource_name : string) (timeout : bool) : execM json :=
  pbind (perform Register) (λ _, pbind (perform SetContext) (λ _,
    pbind (before_slot task_id resource_name) (λ r,
      match r with
      | Err e => guarded task_id resource_name NoGovernor (raise e)
      | Ok (inl v) => guarded task_id resource_name NoGovernor (ret v)
      | Ok (inr sl) => guarded task_id resource_name sl (with_slot task_id resource_name timeout sl)
      end))).

End Executor.

(** ** Logs *)

Definition event : Type := { o : exec_op & exec_ans o }.
Definition basic_event (o : basic_op) (x : basic_ans o) : event := existT (Basic o) x.

(** A finalizer's calls: nobody cancels the inner task of a shield. *)
Definition not_cancelled {A} (x : res exn A) : Prop := match x with Err CancelledError => False | _ => True end.

Definition basic_step (o : basic_op) (log : list event) (x : basic_ans o) (log' : list event) : Prop :=
  log' = log ++ [basic_event o x] ∧
  match o return basic_ans o → Prop with
  | Store _ | SinkWrite _ _ _ _ _ _ | RunHook _ | Release _ _ => not_cancelled
  end x.

(** Any call may answer anything.  A shield runs its finalizer and answers its
    outcome or the cancellation of the one who waits, or is skipped. *)
Definition log_step (o : exec_op) (log : list event) (x : exec_ans o) (log' : list event) : Prop :=
  match o return exec_ans o → Prop with
  | Shield p => λ x,
      (∃ r, runs basic_step p log r log' ∧ x = r)
      ∨ (∃ r log1, runs basic_step p log r log1 ∧ x = Err CancelledError ∧ log' = log1 ++ [existT (Shield p) x])
      ∨ (x = Ok tt ∧ log' = log ++ [existT (Shield p) x])
  | o => λ x, log' = log ++ [existT o x]
  end x.

(** What a run of a program adds to the log *)
Lemma log_grows {A} (Pb : basic_op → Prop) (P : event → Prop) (p : M basic_ans A) log r log' :
  (∀ o x, Pb o → P (basic_event o x)) → calls Pb p → runs basic_step p log r log' → ∃ l, log' = log ++ l ∧ Forall P l.
Proof.
  intros HP. revert log. induction p as [a|o k IH]; intros log; simpl.
  - intros _ [_ ->]. exists []. by rewrite app_nil_r.
  - intros [Ho Hk] (x & log1 & [-> _] & Hr). destruct (IH x _ (Hk x) Hr) as (l & -> & Hl).
    exists (basic_event o x :: l). split; [by rewrite <- app_assoc|]. constructor; [by apply HP|done].
Qed.

Section Grows.

Context (Pb : basic_op → Prop) (Pe : exec_op → Prop) (P : event → Prop).
Context (HPb : ∀ o x, Pb o → P (basic_event o x)).
Context (HP : ∀ o x, Pe o → P (existT o x)).
Context (Hshield : ∀ p, Pe (Shield p) → calls Pb p).

Lemma step_grows o log x log' : Pe o → log_step o log x log' → ∃ l, log' = log ++ l ∧ Forall P l.
Proof.
  intros Ho Hs.
  assert (log' = log ++ [existT o x] → ∃ l, log' = log ++ l ∧ Forall P l) as Hone.
  { intros ->. exists [existT o x]. split; [done|]. apply Forall_singleton. by apply HP. }
  destruct o as [b|t|r| | | | | | | | |p]; try (by apply Hone).
  destruct Hs as [(r & Hr & ->)|[(r & log1 & Hr & -> & ->)|[-> ->]]]; [| |by apply Hone].
  - eapply log_grows; [exact HPb|by apply Hshield|done].
  - destruct (log_grows Pb P p log r log1 HPb (Hshield _ Ho) Hr) as (l & -> & Hl).
    exists (l ++ [existT (Shield p) (Err CancelledError)]). rewrite app_assoc. split; [done|]. apply Forall_app. split; [done|].
    apply Forall_singleton. by apply HP.
Qed.

Lemma runs_grow {A} (p : prog exec_ans A) log r log' : calls Pe p → runs log_step p log r log' → ∃ l, log' = log ++ l ∧ Forall P l.
Proof.
  revert log. induction p as [a|o k IH]; intros log; simpl.
  - intros _ [_ ->]. exists []. by rewrite app_nil_r.
  - intros [Ho Hk] (x & log1 & Hs & Hr). destruct (step_grows o log x log1 Ho Hs) as (l1 & -> & Hl1).
    destruct (IH x _ (Hk x) Hr) as (l2 & -> & Hl2). exists (l1 ++ l2). rewrite app_assoc. split; [done|]. by apply Forall_app.
Qed.

Lemma wp_grow {A} (p : prog exec_ans A) log : calls Pe p → wp log_step p log (λ _ log', ∃ l, log' = log ++ l ∧ Forall P l).
Proof. intros Hp. apply wp_runs. intros a log'. by apply runs_grow. Qed.

End Grows.

(** ** The slot *)

Definition acquired (ev : event) : option (string * string) :=
  let '(existT o x) := ev in
  match o return exec_ans o → option (string * string) with
  | Acquire r => λ x, match x with Ok t => Some (r, t) | Err _ => None end
  | _ => λ _, None
  end x.

Definition released (ev : event) : option (string * string) :=
  match projT1 ev with Basic (Release r t) => Some (r, t) | _ => None end.

(** The resource the governor is asked for *)
Definition asked (ev : event) : option string := match projT1 ev with Acquire r => Some r | _ => None end.

(** The task starts or is waited for. *)
Definition running (ev : event) : bool := match projT1 ev with TaskExecute | WaitInner => true | _ => false end.

(** A finalizer was abandoned: the event loop is closed. *)
Definition loop_closed (ev : event) : bool :=
  let '(existT o x) := ev in
  match o return exec_ans o → bool with Shield _ => is_ok | _ => λ _, false end x.

(** Calls that neither take nor give back the slot nor run the task *)
Definition quiet_basic (o : basic_op) : Prop := match o with Release _ _ => False | _ => True end.
Definition quiet_op (o : exec_op) : Prop :=
  match o with
  | Basic o => quiet_basic o
  | Acquire _ | TaskExecute | WaitInner => False
  | Shield p => calls quiet_basic p
  | _ => True
  end.
Definition quiet (ev : event) : Prop := asked ev = None ∧ released ev = None ∧ running ev = false.
(** ... or run it *)
Definition working_op (o : exec_op) : Prop := match o with TaskExecute | WaitInner => True | _ => quiet_op o end.
Definition working (ev : event) : Prop := asked ev = None ∧ released ev = None.

Lemma quiet_basic_event o x : quiet_basic o → quiet (basic_event o x).
Proof. by destruct o. Qed.

Lemma quiet_op_event o x : quiet_op o → quiet (existT o x).
Proof. destruct o as [[]| | | | | | | | | | |]; try done. Qed.

Lemma working_op_event o x : working_op o → working (existT o x).
Proof. destruct o as [[]| | | | | | | | | | |]; try done. Qed.

Lemma wp_quiet {A} (p : prog exec_ans A) log : calls quiet_op p → wp log_step p log (λ _ log', ∃ l, log' = log ++ l ∧ Forall quiet l).
Proof. apply wp_grow with (Pb := quiet_basic); [apply quiet_basic_event|apply quiet_op_event|done]. Qed.

Lemma wp_working {A} (p : prog exec_ans A) log : calls working_op p → wp log_step p log (λ _ log', ∃ l, log' = log ++ l ∧ Forall working l).
Proof.
  apply wp_grow with (Pb := quiet_basic); [|apply working_op_event|done].
  intros o x Ho. by destruct (quiet_basic_event o x Ho) as (? & ? & ?).
Qed.

Lemma quiet_no_acquire l : Forall quiet l → omap asked l = [] ∧ omap released l = [] ∧ Forall (λ ev, running ev = false) l.
Proof.
  induction 1 as [|ev l (Ha & Hr & Hw) _ (IH1 & IH2 & IH3)]; [done|]. simpl. rewrite Ha, Hr. auto.
Qed.

Lemma asked_acquired ev : asked ev = None → acquired ev = None.
Proof. destruct ev as [[]]; done. Qed.

Lemma none_acquired l : omap asked l = [] → omap acquired l = [].
Proof.
  induction l as [|ev l IH]; [done|]. simpl. destruct (asked ev) eqn:E; [done|]. intros Hl. rewrite (asked_acquired _ E). by apply IH.
Qed.

Lemma working_no_acquire l : Forall working l → omap asked l = [] ∧ omap released l = [].
Proof. induction 1 as [|ev l (Ha & Hr) _ (IH1 & IH2)]; [done|]. simpl. by rewrite Ha, Hr. Qed.

Ltac prove_exec_calls := prove_calls_with ltac:(first [apply calls_except | apply calls_lift]).

Section SlotProofs.

Context (str_exn : exn → string).

Lemma finalize_quiet id e outcome : calls quiet_basic (_finalize_failure str_exn id e outcome).
Proof. unfold _finalize_failure, _settle_cancelled, _is_cancel_requested, _update_terminal, _write_snapshot, _safe_hook. prove_exec_calls. Qed.

Lemma finalize_cancel_quiet id eid : calls quiet_basic (_finalize_cancel str_exn id eid).
Proof. unfold _finalize_cancel, _update_terminal, _write_snapshot, _safe_hook. prove_exec_calls. Qed.

Lemma ancestors_quiet fuel rec visited resources : calls quiet_basic (ancestor_resources fuel rec visited resources).
Proof. revert rec visited resources. induction fuel as [|fuel IH]; intros rec visited resources; cbn [ancestor_resources]; prove_exec_calls; apply IH. Qed.

Context (self : TaskExecutor).

Lemma reuse_quiet id : calls quiet_op (_try_reuse_result self id).
Proof. unfold _try_reuse_result. prove_exec_calls. Qed.

Lemma handlers_quiet id e : calls quiet_op (handlers str_exn id e).
Proof.
  pose proof (finalize_quiet id) as Hf. pose proof (finalize_cancel_quiet id) as Hc. unfold handlers, _shielded_finalize.
  destruct e; prove_exec_calls; try apply Hf; apply Hc.
Qed.

Lemma with_slot_works id rn timeout sl : calls working_op (with_slot str_exn id rn timeout sl).
Proof.
  unfold with_slot, task_execute, _run_with_timeout, _settle_cancelled, _is_cancel_requested, _update_terminal, _write_snapshot, _safe_hook.
  prove_exec_calls.
Qed.

Definition slot_of (decided : res exn (json + slot)) (rn : string) : list (string * string) :=
  match decided with Ok (inr (Token t)) => [(rn, t)] | _ => [] end.

(** What the calls up to the slot leave in the log *)
Definition slot_log (rn : string) (decided : res exn (json + slot)) (l : list event) : Prop :=
  omap acquired l = slot_of decided rn ∧ omap released l = [] ∧ Forall (λ ev, running ev = false) l ∧
  (decided = Ok (inr NoGovernor) → governor self = false) ∧
  (omap asked l = [] ∨ omap asked l = [rn]) ∧
  (decided = Ok (inr Inherited) ∨ governor self = false → omap asked l = []).

Lemma slot_log_quiet rn d l1 l2 : Forall quiet l1 → slot_log rn d l2 → slot_log rn d (l1 ++ l2).
Proof.
  intros (E1 & E2 & E3)%quiet_no_acquire (H1 & H2 & H3 & H4). unfold slot_log. rewrite !omap_app, E1, E2, (none_acquired _ E1), Forall_app. auto.
Qed.

Lemma slot_log_err rn e l : Forall quiet l → slot_log rn (Err e) l.
Proof. intros (E1 & E2 & E3)%quiet_no_acquire. split_and!; try done; [by apply none_acquired|by left]. Qed.

Lemma wp_after_quiet {A B} (p : M exec_ans A) (f : res exn A → M exec_ans B) log (Φ : res exn B → list event → Prop) :
  calls quiet_op p → (∀ r l1 l2, Forall quiet l1 → Φ r l2 → Φ r (l1 ++ l2)) →
  (∀ a log1, wp log_step (f a) log1 (λ r log', ∃ l, log' = log1 ++ l ∧ Φ r l)) →
  wp log_step (pbind p f) log (λ r log', ∃ l, log' = log ++ l ∧ Φ r l).
Proof.
  intros Hp Hq Hf. rewrite wp_bind. eapply wp_mono; [by apply wp_quiet|]. intros a log1 (l1 & -> & H1).
  eapply wp_mono; [apply Hf|]. intros r log2 (l2 & -> & H2). exists (l1 ++ l2). rewrite app_assoc. split; [done|]. by apply Hq.
Qed.

Lemma wp_nothing {A} (r : res exn A) log (Φ : res exn A → list event → Prop) :
  Φ r [] → wp log_step (Ret r) log (λ r log', ∃ l, log' = log ++ l ∧ Φ r l).
Proof. intros H. exists []. by rewrite app_nil_r. Qed.

Lemma acquire_slot_log id rn log : wp log_step (acquire_slot self id rn) log
  (λ d log', ∃ l, log' = log ++ l ∧ slot_log rn (res_map inr d) l).
Proof.
  assert (∀ d l1 l2, Forall quiet l1 → slot_log rn (res_map inr d) l2 → slot_log rn (res_map inr d) (l1 ++ l2)) as Hq
    by (intros; by apply slot_log_quiet).
  unfold acquire_slot. destruct (governor self) eqn:Eg; [|apply wp_nothing; split_and!; try done; by left].
  apply wp_after_quiet; [prove_exec_calls|done|]. intros [snapshot|e] log1; [|by apply wp_nothing, slot_log_err].
  apply wp_after_quiet; [destruct snapshot; unfold _find_ancestor_resources; prove_exec_calls; apply ancestors_quiet|done|].
  intros [ancestors|e] log2; [|by apply wp_nothing, slot_log_err].
  case_match; [apply wp_nothing; split_and!; try done; by left|].
  wp_call. intros x log3 ->. destruct x as [t|e]; (eexists [_]; split; [done|]; split_and!; try done; first [by repeat constructor|by right|intros [?|?]; [done|congruence]]).
Qed.

Lemma before_slot_log id rn log : wp log_step (before_slot self id rn) log (λ d log', ∃ l, log' = log ++ l ∧ slot_log rn d l).
Proof.
  pose proof (slot_log_quiet rn) as Hq. unfold before_slot.
  apply wp_after_quiet; [unfold _is_cancel_requested; prove_exec_calls|done|]. intros [[]|e] log1; [by apply wp_nothing, slot_log_err| |by apply wp_nothing, slot_log_err].
  apply wp_after_quiet; [apply reuse_quiet|done|]. intros [[v|]|e] log2; [apply wp_nothing; split_and!; try done; by left| |by apply wp_nothing, slot_log_err].
  wp_simp. eapply wp_mono; [apply acquire_slot_log|]. intros [sl|e] log3 (l & -> & Hl); by exists l.
Qed.

(** The [finally] clause *)
Definition slot_tokens (rn : string) (sl : slot) : list (string * string) :=
  match sl with Token t => if bool_decide (t = ""%string) then [] else [(rn, t)] | _ => [] end.

Lemma cleanup_log rn sl log : wp log_step (cleanup rn sl) log (λ _ log', ∃ l, log' = log ++ l ∧
  omap asked l = [] ∧ Forall (λ ev, running ev = false) l ∧ (omap released l = slot_tokens rn sl ∨ Exists (λ ev, loop_closed ev = true) l)).
Proof.
  unfold cleanup. wp_call. intros [] log1 ->. wp_call. intros [] log2 ->.
  destruct sl as [| |t]; simpl; try (eexists [_; _]; rewrite <- app_assoc; split_and!; [done|done|by repeat constructor|by left]).
  destruct (bool_decide (t = ""%string)); [eexists [_; _]; rewrite <- app_assoc; split_and!; [done|done|by repeat constructor|by left]|].
  unfold _shielded_finalize. wp_call.
  intros x log3 [(r & Hr & ->)|[(r & log4 & Hr & -> & ->)|[-> ->]]].
  - destruct Hr as (y & log5 & [-> _] & -> & ->). eexists [_; _; _]. rewrite <- !app_assoc. by split_and!; [..|repeat constructor|left].
  - destruct Hr as (y & log5 & [-> _] & -> & ->). eexists [_; _; _; _]. rewrite <- !app_assoc. by split_and!; [..|repeat constructor|left].
  - eexists [_; _; _]. rewrite <- !app_assoc. split_and!; [done|done|by repeat constructor|right; by do 2 constructor 2; constructor].
Qed.

(** The body and the handlers *)
Lemma guarded_log id rn sl p log : calls working_op p →
  wp log_step (guarded str_exn id rn sl p) log (λ _ log', ∃ mid post, log' = log ++ mid ++ post ∧
    omap asked mid = [] ∧ omap released mid = [] ∧ (calls quiet_op p → Forall (λ ev, running ev = false) mid) ∧
    omap asked post = [] ∧ Forall (λ ev, running ev = false) post ∧
    (omap released post = slot_tokens rn sl ∨ Exists (λ ev, loop_closed ev = true) post)).
Proof.
  intros Hp. unfold guarded. rewrite wp_finally.
  assert (wp log_step (catch p (handlers str_exn id)) log (λ _ log', ∃ mid, log' = log ++ mid ∧ Forall working mid ∧
    (calls quiet_op p → Forall (λ ev, running ev = false) mid))) as Hmid.
  { apply wp_runs. intros r log' Hr.
    assert (calls working_op (catch p (handlers str_exn id))) as Hw.
    { apply calls_catch; [done|]. intros e. eapply calls_weaken; [|apply handlers_quiet]. by intros [[]| | | | | | | | | | |]. }
    pose proof (proj1 (wp_runs _ _ _ _) (wp_working _ log Hw) _ _ Hr) as (mid & -> & Hmid). exists mid. split_and!; [done..|].
    intros Hq. assert (calls quiet_op (catch p (handlers str_exn id))) as Hw' by (apply calls_catch; [done|apply handlers_quiet]).
    pose proof (proj1 (wp_runs _ _ _ _) (wp_quiet _ log Hw') _ _ Hr) as (mid' & E & Hmid').
    apply (inj (app log)) in E as <-. by apply quiet_no_acquire in Hmid' as (_ & _ & ?). }
  eapply wp_mono; [exact Hmid|]. intros r log1 (mid & -> & (E1 & E2)%working_no_acquire & E3).
  eapply wp_mono; [apply cleanup_log|]. intros [[]|e] log2 (post & -> & H1 & H2 & H3); exists mid, post; by rewrite <- app_assoc.
Qed.

End SlotProofs.

(** ** Inheritance *)

(** A record the store answered, and the ancestors the records read name *)
Definition recorded (l : list event) (id : string) (rec : row) : Prop := existT (Basic (Store (GetTask id))) (Ok rec) ∈ l.

Inductive ancestor_read (l : list event) (id : string) : string → Prop :=
  | read_parent rec a : recorded l id rec → text_field rec "parent_task_id" = Some a → ancestor_read l id a
  | read_above b rec a : ancestor_read l id b → recorded l b rec → text_field rec "parent_task_id" = Some a → ancestor_read l id a.

(** The task's record exempts it from the resource, or an ancestor holds it. *)
Definition inherits (l : list event) (id rn : string) : Prop :=
  (∃ rec names, recorded l id rec ∧ set_of (field rec "exempt_resources_snapshot") = Ok names ∧ rn ∈ names) ∨
  (∃ a rec, ancestor_read l id a ∧ recorded l a rec ∧ text_field rec "resource" = Some rn).

Lemma recorded_app l1 l2 id rec : recorded l1 id rec → recorded (l1 ++ l2) id rec.
Proof. intros H. apply elem_of_app. by left. Qed.

Lemma ancestor_read_app l1 l2 id a : ancestor_read l1 id a → ancestor_read (l1 ++ l2) id a.
Proof. induction 1; [eapply read_parent|eapply read_above]; eauto using recorded_app. Qed.

Definition held_above (l : list event) (id : string) (names : gset string) : Prop :=
  ∀ x, x ∈ names → ∃ a rec, ancestor_read l id a ∧ recorded l a rec ∧ text_field rec "resource" = Some x.

Lemma held_above_app l1 l2 id names : held_above l1 id names → held_above (l1 ++ l2) id names.
Proof. intros H x (a & rec & Ha & Hr & E)%H. exists a, rec. eauto using recorded_app, ancestor_read_app. Qed.

Lemma recorded_last l id rec : recorded (l ++ [existT (Basic (Store (GetTask id))) (Ok rec)]) id rec.
Proof. apply elem_of_app. right. by apply list_elem_of_singleton. Qed.

Lemma ancestors_held fuel id rec visited names log :
  (∀ a, text_field rec "parent_task_id" = Some a → ancestor_read log id a) → held_above log id names →
  wp log_step (basic (ancestor_resources fuel rec visited names)) log (λ r log', ∀ found, r = Ok found → held_above log' id found).
Proof.
  revert rec visited names log. induction fuel as [|fuel IH]; intros rec visited names log Hp Hn; cbn [ancestor_resources].
  { by intros found [= <-]. }
  destruct (text_field rec "parent_task_id") as [a|]; [|by intros found [= <-]].
  case_bool_decide; [by intros found [= <-]|]. specialize (Hp a eq_refl).
  intros x log1 ->. destruct x as [prec|e].
  - pose proof (recorded_last log a prec) as Hr. apply IH.
    + intros b Hb. eapply read_above; [by apply ancestor_read_app|exact Hr|exact Hb].
    + apply (held_above_app _ [existT (Basic (Store (GetTask a))) (Ok prec)]) in Hn.
      destruct (text_field prec "resource") as [w|] eqn:Ew; [|done]. case_bool_decide; [done|].
      intros y [->%elem_of_singleton|Hy]%elem_of_union; [|by apply Hn]. exists a, prec. eauto using ancestor_read_app.
  - cbn [pbind]. destruct (is_exception e); [intros found [= <-]; by apply held_above_app|by intros found].
Qed.

Lemma snapshot_read id log :
  wp log_step (basic (except_exception
    (let! rec := store_call (GetTask id) in ret (field rec "exempt_resources_snapshot")) (λ _, ret JNull))) log
    (λ r log', ∀ v, r = Ok v → v = JNull ∨ ∃ rec, recorded log' id rec ∧ v = field rec "exempt_resources_snapshot").
Proof.
  intros x log1 ->. destruct x as [rec|e].
  - intros v [= <-]. right. exists rec. split; [apply recorded_last|done].
  - cbv [except_exception raise]. cbn [pbind]. destruct (is_exception e); [|done]. intros v [= <-]. by left.
Qed.

Lemma names_read id log :
  wp log_step (basic (_find_ancestor_resources id)) log (λ r log', ∀ names, r = Ok names → held_above log' id names).
Proof.
  unfold _find_ancestor_resources. generalize _MAX_LINEAGE_DEPTH. intros fuel x log1 ->. destruct x as [rec|e]; cbn [pbind].
  - apply ancestors_held; [intros a Ha; eapply read_parent; [apply recorded_last|done]|intros y []%not_elem_of_empty].
  - destruct (is_exception e); intros names; [|done]. intros [= <-] y []%not_elem_of_empty.
Qed.

Lemma acquire_slot_inherits self id rn log :
  wp log_step (acquire_slot self id rn) log (λ d log', d = Ok Inherited → inherits log' id rn).
Proof.
  unfold acquire_slot. destruct (governor self); [|done]. rewrite wp_seq.
  eapply wp_mono; [apply snapshot_read|]. intros [v|e] log1 Hv; [|done]. specialize (Hv v eq_refl). rewrite wp_seq.
  eapply (wp_mono _ _ _ (λ r log2, ∀ names, r = Ok names → rn ∈ names → inherits log2 id rn)).
  - assert (∀ (p : M exec_ans (gset string)), p = Ret (set_of v) → v ≠ JNull →
      wp log_step p log1 (λ r log2, ∀ names, r = Ok names → rn ∈ names → inherits log2 id rn)) as Hset.
    { intros p -> Hn names E Hx. destruct Hv as [?|(rec & Hr & ->)]; [done|]. left. by exists rec, names. }
    destruct v; try (by apply Hset). eapply wp_mono; [apply names_read|]. intros r log2 H names E Hx. right. by apply (H names).
  - intros [names|e] log2 H; [|done]. case_bool_decide; [by intros _; apply (H names)|].
    rewrite wp_seq. intros [t|e] log3 ->; done.
Qed.

Lemma before_slot_inherits self id rn log :
  wp log_step (before_slot self id rn) log (λ d log', d = Ok (inr Inherited) → inherits log' id rn).
Proof.
  unfold before_slot. rewrite wp_seq. apply wp_runs. intros [[]|e] log1 _; [done| |done].
  rewrite wp_seq. apply wp_runs. intros [[v|]|e] log2 _; [done| |done].
  rewrite wp_seq. eapply wp_mono; [apply acquire_slot_inherits|]. intros [sl|e] log3 H; [|done]. intros [= ->]. by apply H.
Qed.

(** C3: The slot of a task is asked for at most once, before the task runs,
    and given back exactly once, after everything else, whatever the store,
    the governor, the hooks and the task answer and whenever the coroutine is
    cancelled: every log splits into the calls that decide about the slot, the
    work, and the clean-up.  With a governor nothing runs unless the governor
    granted this task the slot, or the slot is inherited: then the records
    read before name the resource among those the task is exempt from, or as
    the resource of an ancestor reached through the parents they record, and
    the governor is not asked.  Nothing but the slot granted is given back
    (the empty token is not); only a closed event loop loses the release. *)
Theorem slot_discipline str_exn self id rn timeout r log :
  runs log_step (execute str_exn self id rn timeout) [] r log →
  ∃ pre mid post, log = pre ++ mid ++ post ∧
    (omap asked pre = [] ∨ omap asked pre = [rn]) ∧ omap released pre = [] ∧ Forall (λ ev, running ev = false) pre ∧
    (governor self = false → omap asked pre = []) ∧
    omap asked mid = [] ∧ omap released mid = [] ∧
    (Exists (λ ev, running ev = true) mid →
       governor self = false ∨ (∃ t, omap acquired pre = [(rn, t)]) ∨ omap asked pre = [] ∧ inherits pre id rn) ∧
    omap asked post = [] ∧ Forall (λ ev, running ev = false) post ∧
    (omap released post = filter (λ rt, rt.2 ≠ ""%string) (omap acquired pre) ∨ Exists (λ ev, loop_closed ev = true) post).
Proof.
  revert r log. apply wp_runs. unfold execute. wp_call. intros [] log1 ->. wp_call. intros [] log2 ->.
  rewrite wp_bind. eapply wp_mono; [apply wp_and; [apply before_slot_log|apply before_slot_inherits]|].
  intros d log3 [(pre & -> & H1 & H2 & H3 & H4 & H5 & H6) Hinh].
  assert (∀ (sl : slot) p, calls working_op p → slot_tokens rn sl = filter (λ rt, rt.2 ≠ ""%string) (slot_of d rn) →
    (calls quiet_op p ∨ d = Ok (inr sl)) → wp log_step (guarded str_exn id rn sl p) ((([] ++ [existT Register ()]) ++ [existT SetContext ()]) ++ pre)
      (λ r log, ∃ pre mid post, log = pre ++ mid ++ post ∧
        (omap asked pre = [] ∨ omap asked pre = [rn]) ∧ omap released pre = [] ∧ Forall (λ ev, running ev = false) pre ∧
        (governor self = false → omap asked pre = []) ∧
        omap asked mid = [] ∧ omap released mid = [] ∧
        (Exists (λ ev, running ev = true) mid →
           governor self = false ∨ (∃ t, omap acquired pre = [(rn, t)]) ∨ omap asked pre = [] ∧ inherits pre id rn) ∧
        omap asked post = [] ∧ Forall (λ ev, running ev = false) post ∧
        (omap released post = filter (λ rt, rt.2 ≠ ""%string) (omap acquired pre) ∨ Exists (λ ev, loop_closed ev = true) post))) as Hg.
  { intros sl p Hp Ht Hq. eapply wp_mono; [by apply guarded_log|]. intros r log (mid & post & -> & G1 & G2 & G3 & G4 & G5 & G6).
    eexists _, mid, post. split; [reflexivity|]. rewrite !omap_app. cbn [omap list_omap asked acquired released projT1 app]. rewrite H1, <- Ht.
    split_and!; [exact H5|exact H2|by do 2 constructor|by auto|exact G1|exact G2| |exact G4|exact G5|exact G6].
    intros Hrun. destruct Hq as [Hq|Hd].
    { apply Exists_exists in Hrun as (ev & Hin & Hev). pose proof (G3 Hq) as Hall. rewrite Forall_forall in Hall.
      rewrite (Hall _ Hin) in Hev. done. }
    subst d. destruct sl as [| |t]; [left; by apply H4|right; right; split; [by apply H6; left|by apply Hinh]|right; left; by exists t]. }
  destruct d as [[v|sl]|e].
  - apply Hg; [exact I|done|by left].
  - apply Hg; [apply with_slot_works| |by right].
    destruct sl as [| |t]; try done. simpl. destruct (decide (t = ""%string)) as [->|Hne]; [done|].
    by rewrite bool_decide_false, filter_cons_True.
  - apply Hg; [exact I|done|by left].
Qed.

(** ** Terminal writes *)

(** A program raises CancelledError only if a call answered it. *)
Fixpoint honest {op} {ans : op → Type} {A} (c : ∀ o, ans o → bool) (p : M ans A) (seen : bool) : Prop :=
  match p with
  | Ret r => r = Err CancelledError → seen = true
  | Call o k => ∀ x, honest c (k x) (seen || c o x)
  end.

Section Honest.

Context {op : Type} {ans : op → Type} (c : ∀ o, ans o → bool).

Lemma honest_weaken {A} (p : M ans A) b b' : (b = true → b' = true) → honest c p b → honest c p b'.
Proof.
  revert b b'. induction p as [r|o k IH]; intros b b' Hb; simpl; [eauto|]. intros H x. eapply IH; [|apply H].
  rewrite !orb_true_iff. naive_solver.
Qed.

Lemma honest_true {A} (p : M ans A) : honest c p true.
Proof. induction p as [r|o k IH]; simpl; [done|]. intros x. apply IH. Qed.

Lemma honest_pbind {A B} (p : M ans A) (f : res exn A → M ans B) b :
  honest c p b → (∀ r, r ≠ Err CancelledError → honest c (f r) false) → honest c (pbind p f) b.
Proof.
  intros Hp Hf. revert b Hp. induction p as [r|o k IH]; intros b Hp; simpl in *; [|intros x; by apply IH].
  assert (r = Err CancelledError ∨ r ≠ Err CancelledError) as [E|E].
  { destruct r as [a|e]; [by right|]. destruct (decide (e = CancelledError)) as [->|]; [by left|right; congruence]. }
  - rewrite (Hp E). apply honest_true.
  - eapply honest_weaken; [|by apply Hf]. done.
Qed.

Lemma honest_seq {A B} (p : M ans A) (f : A → M ans B) b : honest c p b → (∀ a, honest c (f a) false) → honest c (seq p f) b.
Proof. intros Hp Hf. apply honest_pbind; [done|]. intros [a|e] He; [apply Hf|]. by intros [= ->]. Qed.

Lemma honest_except {A} (p : M ans A) h b : honest c p b → (∀ e, e ≠ CancelledError → honest c (h e) false) → honest c (except_exception p h) b.
Proof.
  intros Hp Hh. apply honest_pbind; [done|]. intros [a|e] He; [done|]. unfold is_exception.
  case_bool_decide as E; [by apply Hh|]. exfalso. apply He. destruct (decide (e = CancelledError)) as [->|]; [done|by destruct E].
Qed.

Lemma honest_raise {A} e b : e ≠ CancelledError → honest c (raise e : M ans A) b.
Proof. by intros He [= ->]. Qed.

End Honest.

Definition cancelled_ans {A} (x : res exn A) : bool := match x with Err CancelledError => true | _ => false end.
Definition basic_cancelled (o : basic_op) : basic_ans o → bool :=
  match o with Store _ | SinkWrite _ _ _ _ _ _ | RunHook _ | Release _ _ => cancelled_ans end.
(** The coroutine was cancelled at this call, or the task ended by a cancellation. *)
Definition exec_cancelled (o : exec_op) : exec_ans o → bool :=
  match o with
  | Basic o => basic_cancelled o
  | LatestStatus _ | Acquire _ | TaskExecute | GatherInner | Shield _ => cancelled_ans
  | WaitInner => λ x, match x with Ok (Some y) => cancelled_ans y | x => cancelled_ans x end
  | CancelInner | Register | Unregister | SetContext | ResetContext => λ _, false
  end.
Definition cancelled (ev : event) : bool := let '(existT o x) := ev in exec_cancelled o x.

Lemma honest_basic {A} (p : M basic_ans A) b : honest basic_cancelled p b → honest exec_cancelled (basic p) b.
Proof. revert b. unfold basic. induction p as [r|o k IH]; intros b; simpl; [done|]. intros H x. by apply IH. Qed.

Lemma honest_log {A} (p : M exec_ans A) b log r log' :
  calls (λ o, match o with Shield _ => False | _ => True end) p → honest exec_cancelled p b → runs log_step p log r log' →
  ∃ l, log' = log ++ l ∧ (r = Err CancelledError → b = true ∨ Exists (λ ev, cancelled ev = true) l).
Proof.
  revert b log. induction p as [r0|o k IH]; intros b log; simpl.
  - intros _ Hr [-> ->]. exists []. rewrite app_nil_r. split; [done|]. intros E. left. by apply Hr.
  - intros [Ho Hk] Hh (x & log1 & Hs & Hr). assert (log1 = log ++ [existT o x]) as -> by (by destruct o).
    destruct (IH x _ _ (Hk x) (Hh x) Hr) as (l & -> & Hl). exists (existT o x :: l). rewrite <- app_assoc. split; [done|].
    intros E. destruct (Hl E) as [[|]%orb_true_iff|]; [by left|by right; constructor|by right; constructor 2].
Qed.

(** A write of a final status to the record of task [id], and its answer *)
Definition final_write (id : string) (ev : event) : option (row * res exn unit) :=
  let '(existT o x) := ev in
  match o return exec_ans o → option (row * res exn unit) with
  | Basic (Store (UpdateTask t u _)) => λ x,
      match u !! "status"%string with
      | Some (JStr w) => if bool_decide (t = id ∧ w ∈ terminal_words) then Some (u, x) else None
      | _ => None
      end
  | _ => λ _, None
  end x.

(** The store accepted the final status, or refused it as an invalid
    transition. *)
Definition settles (id : string) (ev : event) : bool :=
  match final_write id ev with Some (_, Ok _) => true | Some (_, Err e) => is_core_invalid_transfer e | None => false end.

(** The store failed the write of an [except] clause: the status is failed, or
    cancelled by a clause and not by the normal path. *)
Definition last_resort (u : row) : bool :=
  bool_decide (u !! "status"%string ≠ Some (JStr (word SUCCEEDED)) ∧ u !! "cancel_outcome"%string ≠ Some (JStr "succeeded_but_cancelled")).
Definition store_lost (id : string) (ev : event) : bool :=
  match final_write id ev with
  | Some (u, Err e) => is_exception e && negb (is_core_invalid_transfer e) && last_resort u
  | _ => false
  end.

Notation writes id l := (Exists (λ ev, settles id ev = true) l).
Notation lost id l := (Exists (λ ev, store_lost id ev = true) l).

Lemma wp_grows {A} (p : prog exec_ans A) log : wp log_step p log (λ _ log', ∃ l, log' = log ++ l).
Proof.
  eapply wp_mono; [apply (wp_grow (λ _, True) (λ _, True) (λ _, True)); try done|].
  - intros q _. induction q; simpl; auto.
  - induction p; simpl; auto.
  - intros r log' (l & -> & _). by exists l.
Qed.

Lemma basic_grows {A} (p : M basic_ans A) log r log' : runs basic_step p log r log' → ∃ l, log' = log ++ l.
Proof.
  intros Hr. destruct (log_grows (λ _, True) (λ _, True) p log r log') as (l & E & _); [done| |done|by exists l].
  clear Hr. induction p; simpl; auto.
Qed.

(** A program that returns has written, whatever comes first or last. *)
Definition wrote {A} (id : string) (r : res exn A) (l : list event) : Prop := match r with Ok _ => writes id l | Err _ => True end.

Lemma wp_wrote_before {A B} id (p : M exec_ans A) (f : A → M exec_ans B) log :
  (∀ a log1, wp log_step (f a) log1 (λ r log', ∃ l, log' = log1 ++ l ∧ wrote id r l)) →
  wp log_step (seq p f) log (λ r log', ∃ l, log' = log ++ l ∧ wrote id r l).
Proof.
  intros Hf. rewrite wp_seq. eapply wp_mono; [apply wp_grows|]. intros [a|e] log1 (l1 & ->); [|by exists l1].
  eapply wp_mono; [apply Hf|]. intros r log2 (l2 & -> & H2). exists (l1 ++ l2). rewrite app_assoc. split; [done|].
  destruct r; [|done]. apply Exists_app. by right.
Qed.

Lemma wp_wrote_after {A B} id (p : M exec_ans A) (f : A → M exec_ans B) log :
  wp log_step p log (λ r log', ∃ l, log' = log ++ l ∧ wrote id r l) →
  wp log_step (seq p f) log (λ r log', ∃ l, log' = log ++ l ∧ wrote id r l).
Proof.
  intros Hp. rewrite wp_seq. eapply wp_mono; [exact Hp|]. intros [a|e] log1 (l1 & -> & H1); [|by exists l1].
  eapply wp_mono; [apply wp_grows|]. intros r log2 (l2 & ->). exists (l1 ++ l2). rewrite app_assoc. split; [done|].
  destruct r; [|done]. apply Exists_app. by left.
Qed.

Section Liveness.

Context (str_exn : exn → string).

Lemma final_write_spec (u : row) id v (x : res exn unit) st :
  u !! "status"%string = Some (JStr (word st)) → Lifecycle.is_terminal st = true →
  final_write id (existT (Basic (Store (UpdateTask id u v))) x) = Some (u, x).
Proof. intros Hu Ht. unfold final_write. rewrite Hu. rewrite bool_decide_true; [done|]. split; [done|]. by apply terminal_word. Qed.

Lemma settles_spec (u : row) id v (x : res exn unit) st :
  u !! "status"%string = Some (JStr (word st)) → Lifecycle.is_terminal st = true →
  settles id (existT (Basic (Store (UpdateTask id u v))) x) = match x with Ok _ => true | Err e => is_core_invalid_transfer e end.
Proof. intros Hu Ht. unfold settles. by rewrite (final_write_spec u id v x st). Qed.

Lemma store_lost_spec (u : row) id v (x : res exn unit) st :
  u !! "status"%string = Some (JStr (word st)) → Lifecycle.is_terminal st = true →
  store_lost id (existT (Basic (Store (UpdateTask id u v))) x) =
  match x with Ok _ => false | Err e => is_exception e && negb (is_core_invalid_transfer e) && last_resort u end.
Proof. intros Hu Ht. unfold store_lost. by rewrite (final_write_spec u id v x st). Qed.

Lemma update_terminal_wrote id u st log : u !! "status"%string = Some (JStr (word st)) → Lifecycle.is_terminal st = true →
  wp log_step (basic (_update_terminal id u)) log (λ r log', ∃ l, log' = log ++ l ∧ wrote id r l).
Proof.
  intros Hu Ht x log1 ->. pose proof (settles_spec u id false x st Hu Ht) as Hf.
  assert (∀ r : res exn bool, match x with Ok _ => true | Err e => is_core_invalid_transfer e end = true →
    wrote id r [existT (Basic (Store (UpdateTask id u false))) x]) as Hw.
  { intros r Hx. destruct r; [|done]. constructor. by rewrite <- Hx. }
  destruct x as [[]|e]; [by eexists; split; [done|apply Hw]|]. cbv [except_exception seq ret raise]. cbn [pbind].
  destruct (is_exception e); [|by eexists]. cbn [pbind].
  destruct (is_core_invalid_transfer e) eqn:Ec; [by eexists; split; [done|apply Hw]|by eexists].
Qed.

Lemma lift_seq {A B} (p : M basic_ans A) (f : A → M basic_ans B) log Q :
  wp log_step (basic (seq p f)) log Q ↔ wp log_step (seq (basic p) (λ a, basic (f a))) log Q.
Proof.
  unfold basic, seq. revert log. induction p as [[a|e]|o k IH]; intros log; [done|done|].
  split; intros H x log1 Hs; apply (IH x log1), H, Hs.
Qed.

Lemma with_slot_wrote id rn timeout sl log :
  wp log_step (with_slot str_exn id rn timeout sl) log (λ r log', ∃ l, log' = log ++ l ∧ wrote id r l).
Proof.
  unfold with_slot. do 5 (apply wp_wrote_before; intros ? ?). destruct a3.
  - apply wp_wrote_after. unfold _settle_cancelled. rewrite lift_seq. apply wp_wrote_after.
    by apply (update_terminal_wrote id _ CANCELLED).
  - apply wp_wrote_after. by apply (update_terminal_wrote id _ SUCCEEDED).
Qed.

Lemma honest_store o b : honest basic_cancelled (store_call o) b.
Proof. intros x E. simpl in *. rewrite E. apply orb_true_r. Qed.

Lemma honest_hook h b : honest basic_cancelled (perform (RunHook h) : M basic_ans unit) b.
Proof. intros x E. simpl in *. rewrite E. apply orb_true_r. Qed.

Lemma honest_sink t e p w k err b : honest basic_cancelled (sink_write t e p w k err) b.
Proof. intros x E. simpl in *. rewrite E. apply orb_true_r. Qed.

Lemma honest_execute b : honest exec_cancelled task_execute b.
Proof. intros x E. simpl in *. rewrite E. apply orb_true_r. Qed.

Lemma honest_timeout b : honest exec_cancelled _run_with_timeout b.
Proof.
  intros x. cbn [pbind]. destruct x as [[outcome|]|e]; simpl.
  - intros E. rewrite E. apply orb_true_r.
  - intros _ y. destruct y as [[]|e]; simpl; [done|]. intros [= ->]. apply orb_true_r.
  - destruct e; simpl; try done. intros _ y. destruct y as [[]|e]; simpl; intros _; by rewrite orb_true_r.
Qed.

Ltac prove_honest :=
  repeat first
    [ progress intros | apply honest_basic | apply honest_store | apply honest_hook | apply honest_sink | apply honest_execute
    | apply honest_timeout | apply honest_seq | apply honest_except | case_match | done | by apply honest_raise ].

Lemma with_slot_honest id rn timeout sl : honest exec_cancelled (with_slot str_exn id rn timeout sl) false.
Proof.
  unfold with_slot, _settle_cancelled, _is_cancel_requested, _update_terminal, _write_snapshot, _safe_hook. prove_honest.
Qed.

(** The finalizers write, or the store fails their write. *)
Notation tried id l := (writes id l ∨ lost id l).

Lemma tried_cons id ev l : tried id l → tried id (ev :: l).
Proof. intros [H|H]; [left|right]; by constructor 2. Qed.

Lemma tried_app id l1 l2 : tried id l1 → tried id (l1 ++ l2).
Proof. rewrite !Exists_app. tauto. Qed.

Lemma basic_update_wrote id u st log r log' : u !! "status"%string = Some (JStr (word st)) → Lifecycle.is_terminal st = true →
  last_resort u = true → runs basic_step (_update_terminal id u) log r log' → ∃ l, log' = log ++ l ∧ tried id l.
Proof.
  intros Hu Ht Hl (x & log1 & [-> Hx] & Hr). apply basic_grows in Hr as (l & ->). rewrite <- app_assoc. eexists. split; [done|].
  apply (tried_app id [_]). destruct x as [y|e]; [left; constructor; by apply (settles_spec u id false (Ok y) st)|].
  destruct (is_core_invalid_transfer e) eqn:Ec; [left|right]; constructor.
  - etransitivity; [by apply (settles_spec u id false (Err e) st)|done].
  - etransitivity; [by apply (store_lost_spec u id false (Err e) st)|]. rewrite Ec, Hl. by destruct e.
Qed.

Lemma basic_wrote_after {A B} id (p : M basic_ans A) (f : A → M basic_ans B) log r log' :
  (∀ a log1, runs basic_step p log a log1 → ∃ l, log1 = log ++ l ∧ tried id l) →
  runs basic_step (seq p f) log r log' → ∃ l, log' = log ++ l ∧ tried id l.
Proof.
  intros Hp. apply (proj1 (wp_runs _ _ _ (λ _ log', ∃ l, log' = log ++ l ∧ tried id l))). rewrite wp_seq. apply wp_runs.
  intros [a|e] log1 Hr; destruct (Hp _ _ Hr) as (l1 & -> & H1); [|by exists l1].
  apply wp_runs. intros r' log2 (l2 & ->)%basic_grows. exists (l1 ++ l2). rewrite app_assoc. split; [done|]. by apply tried_app.
Qed.

Lemma finalize_cancel_wrote id eid log r log' : runs basic_step (_finalize_cancel str_exn id eid) log r log' →
  ∃ l, log' = log ++ l ∧ tried id l.
Proof. apply basic_wrote_after. intros a log1. by apply (basic_update_wrote id _ CANCELLED). Qed.

Lemma requested_answers id log : wp basic_step (_is_cancel_requested id) log (λ r log', ∃ b ev, r = Ok b ∧ log' = log ++ [ev]).
Proof. intros x log1 [-> Hx]. destruct x as [task|[]]; try done; by eexists _, _. Qed.

Lemma finalize_failure_wrote id e outcome log r log' : outcome ≠ "succeeded_but_cancelled"%string →
  runs basic_step (_finalize_failure str_exn id e outcome) log r log' → ∃ l, log' = log ++ l ∧ tried id l.
Proof.
  intros Hne. apply (proj1 (wp_runs _ _ _ (λ _ log', ∃ l, log' = log ++ l ∧ tried id l))). unfold _finalize_failure. rewrite wp_seq.
  eapply wp_mono; [apply requested_answers|]. intros ? ? (b & ev & -> & ->). apply wp_runs. intros r1 log1 Hr.
  enough (∃ l, log1 = (log ++ [ev]) ++ l ∧ tried id l) as (l & -> & Hl).
  { rewrite <- app_assoc. eexists. split; [done|]. by apply tried_cons. }
  destruct b; revert Hr; apply basic_wrote_after; intros a log2.
  - apply basic_wrote_after. intros a' log3. apply (basic_update_wrote id _ CANCELLED); try done.
    apply bool_decide_eq_true. split; [done|]. change (Some (JStr outcome) ≠ Some (JStr "succeeded_but_cancelled")). congruence.
  - by apply (basic_update_wrote id _ FAILED).
Qed.

(** A shield leaves its finalizer's calls, unless the loop is closed. *)
Lemma shield_wrote id p log : (∀ log r log', runs basic_step p log r log' → ∃ l, log' = log ++ l ∧ tried id l) →
  wp log_step (_shielded_finalize p) log (λ _ log', ∃ l, log' = log ++ l ∧ (tried id l ∨ Exists (λ ev, loop_closed ev = true) l)).
Proof.
  intros Hp x log' [(r & Hr & ->)|[(r & log1 & Hr & -> & ->)|[-> ->]]].
  - destruct (Hp _ _ _ Hr) as (l & -> & Hl). exists l. auto.
  - destruct (Hp _ _ _ Hr) as (l & -> & Hl). exists (l ++ [existT (Shield p) (Err CancelledError)]). rewrite app_assoc. split; [done|].
    left. by apply tried_app.
  - eexists. split; [done|]. right. by constructor.
Qed.

(** What the [except] clauses leave *)
Definition handled (id : string) (e : exn) (l : list event) : Prop :=
  tried id l ∨ Exists (λ ev, loop_closed ev = true) l ∨ e = CancelledError ∧ Exists (λ ev, cancelled ev = true) l.

Lemma handled_cons id e ev l : tried id l ∨ Exists (λ ev, loop_closed ev = true) l → handled id e (ev :: l).
Proof. intros [H|H]; [left; by apply tried_cons|right; left; by constructor 2]. Qed.

Lemma shielded_handled id (p : M basic_ans unit) e' log :
  (∀ log r log', runs basic_step p log r log' → ∃ l, log' = log ++ l ∧ tried id l) →
  wp log_step (do! _shielded_finalize p in raise e' : M exec_ans json) log (λ _ log', ∃ l, log' = log ++ l ∧
    (tried id l ∨ Exists (λ ev, loop_closed ev = true) l)).
Proof. intros Hp. rewrite wp_seq. eapply wp_mono; [by apply (shield_wrote id)|]. by intros [[]|e0] log1 (l & -> & Hl); exists l. Qed.

Lemma handlers_wrote id e log : wp log_step (handlers str_exn id e) log (λ _ log', ∃ l, log' = log ++ l ∧ handled id e l).
Proof.
  assert (∀ outcome e', outcome ≠ "succeeded_but_cancelled"%string →
    wp log_step (do! _shielded_finalize (_finalize_failure str_exn id e outcome) in raise e' : M exec_ans json) log
      (λ _ log', ∃ l, log' = log ++ l ∧ handled id e l)) as Hf.
  { intros outcome e' Hne. eapply wp_mono; [apply (shielded_handled id); intros log1 r log2; by apply finalize_failure_wrote|].
    intros r log1 (l & -> & Hl). exists l. split; [done|]. unfold handled. tauto. }
  destruct e; try by apply Hf. unfold handlers. rewrite wp_seq. intros x log1 ->.
  assert (∀ eid, wp log_step (do! _shielded_finalize (_finalize_cancel str_exn id eid) in raise CancelledError : M exec_ans json) (log ++ [existT (Basic (Store (GetTask id))) x])
    (λ _ log', ∃ l, log' = log ++ l ∧ handled id CancelledError l)) as Hc.
  { intros eid. eapply wp_mono; [apply (shielded_handled id); intros log1 r log2; by apply finalize_cancel_wrote|].
    intros r log1 (l & -> & Hl). rewrite <- app_assoc. eexists. split; [done|]. by apply handled_cons. }
  destruct x as [rec|e0]; [apply Hc|]. simpl. unfold is_exception. case_bool_decide as E; [apply Hc|]. simpl.
  destruct (decide (e0 = CancelledError)) as [->|]; [|done]. eexists. split; [done|]. right. right. split; [done|]. by constructor.
Qed.

Definition cancellations (l : list event) : nat := length (filter (λ ev, cancelled ev = true) l).
Definition settled_log (id : string) (l : list event) : Prop :=
  writes id l ∨ lost id l ∨ Exists (λ ev, loop_closed ev = true) l ∨ (2 ≤ cancellations l)%nat.

Lemma cancellations_app l1 l2 : cancellations (l1 ++ l2) = (cancellations l1 + cancellations l2)%nat.
Proof. unfold cancellations. by rewrite filter_app, length_app. Qed.

Lemma cancellations_exists l : Exists (λ ev, cancelled ev = true) l → (1 ≤ cancellations l)%nat.
Proof.
  induction 1 as [ev l Hev|ev l _ IH]; unfold cancellations in *; rewrite filter_cons.
  - rewrite decide_True by done. simpl. lia.
  - destruct (decide (cancelled ev = true)); simpl; lia.
Qed.

Lemma settled_log_app id l1 l2 l3 : settled_log id l2 → settled_log id (l1 ++ l2 ++ l3).
Proof.
  unfold settled_log. rewrite !Exists_app, !cancellations_app. intros [H|[H|[H|H]]]; [tauto..|right; right; right; lia].
Qed.

Lemma guarded_settles id rn timeout sl log :
  wp log_step (guarded str_exn id rn sl (with_slot str_exn id rn timeout sl)) log (λ _ log', ∃ l, log' = log ++ l ∧ settled_log id l).
Proof.
  unfold guarded. rewrite wp_finally, wp_catch.
  assert (∀ r l log', log' = log ++ l → settled_log id l → wp log_step (cleanup rn sl) log' (λ r' s2, match r' with
    | Ok _ => (λ (_ : res exn json) log', ∃ l, log' = log ++ l ∧ settled_log id l) r s2
    | Err e => ∃ l, s2 = log ++ l ∧ settled_log id l end)) as Hclean.
  { intros r l ? -> Hl. eapply wp_mono; [apply wp_grows|]. intros [[]|e] log2 (l2 & ->); rewrite <- app_assoc;
      (eexists; split; [done|]; by apply (settled_log_app id [] l l2)). }
  apply wp_runs. intros r log1 Hr.
  destruct (honest_log (with_slot str_exn id rn timeout sl) false log r log1) as (l & -> & Hc); [|apply with_slot_honest|done|].
  { unfold with_slot, task_execute, _run_with_timeout, _settle_cancelled, _is_cancel_requested, _update_terminal, _write_snapshot, _safe_hook.
    prove_exec_calls. }
  pose proof (proj1 (wp_runs _ _ _ _) (with_slot_wrote id rn timeout sl log) _ _ Hr) as (l' & E & Hw). apply (inj (app log)) in E as <-.
  destruct r as [v|e]; [by apply (Hclean (Ok v) l); [|left]|].
  eapply wp_mono; [apply handlers_wrote|]. intros r log2 (l2 & -> & H2). rewrite <- app_assoc.
  apply (Hclean r (l ++ l2)); [done|]. unfold settled_log. rewrite !Exists_app, cancellations_app.
  destruct H2 as [[H2|H2]|[H2|[-> H2]]]; [tauto..|]. right. right. right.
  destruct (Hc eq_refl) as [?|H1]; [done|]. apply cancellations_exists in H1, H2. lia.
Qed.

End Liveness.

(** C4: An executed task does not stay open: whenever the task was started and
    [execute] is over, a final status of this very task has been written and
    accepted by the store, or refused by it as an invalid transition, whatever
    failed, timed out or was cancelled on the way.  Three things prevent it:
    the store fails (with another error) the write of the except clause
    itself, the event loop is closed, or the coroutine is cancelled a second
    time. *)
Theorem executed_task_settles str_exn self id rn timeout r log :
  runs log_step (execute str_exn self id rn timeout) [] r log → Exists (λ ev, running ev = true) log →
  Exists (λ ev, settles id ev = true) log ∨ Exists (λ ev, store_lost id ev = true) log ∨
  Exists (λ ev, loop_closed ev = true) log ∨ (2 ≤ cancellations log)%nat.
Proof.
  intros Hr. revert r log Hr. apply (proj1 (wp_runs _ _ _ (λ _ log, Exists (λ ev, running ev = true) log → settled_log id log))). unfold execute. wp_call. intros [] log1 ->. wp_call. intros [] log2 ->.
  rewrite wp_bind. eapply wp_mono; [apply before_slot_log|]. intros d log3 (pre & -> & _ & _ & H3 & _).
  set (l0 := (([] ++ _) ++ _) ++ pre).
  assert (Forall (λ ev, running ev = false) l0) as Hl0 by (by do 2 constructor).
  assert (∀ sl (p : M exec_ans json), calls quiet_op p → wp log_step (guarded str_exn id rn sl p) l0 (λ _ log,
    Exists (λ ev, running ev = true) log → settled_log id log)) as Hidle.
  { intros sl p Hp. eapply wp_mono; [apply guarded_log; eapply calls_weaken; [|exact Hp]; by intros [[]| | | | | | | | | | |]|].
    intros r log (mid & post & -> & _ & _ & Hm & _ & Hpost & _) Hx. exfalso.
    assert (Forall (λ ev, running ev = false) (l0 ++ mid ++ post)) as Hall by (rewrite !Forall_app; auto).
    apply Exists_exists in Hx as (ev & Hin & Hev). rewrite Forall_forall in Hall. rewrite (Hall _ Hin) in Hev. done. }
  destruct d as [[v|sl]|e]; [by apply Hidle| |by apply Hidle].
  eapply wp_mono; [apply guarded_settles|]. intros r log (l & -> & Hl) _. rewrite <- (app_nil_r l). by apply settled_log_app.
Qed.

(** ** Results *)

(** How the task ended, when it is known *)
Definition outcome (ev : event) : option (res exn json) :=
  let '(existT o x) := ev in
  match o return exec_ans o → option (res exn json) with
  | TaskExecute => Some
  | WaitInner => λ x, match x with Ok y => y | Err _ => None end
  | _ => λ _, None
  end x.
Notation outcomes l := (omap outcome l).

Definition is_write (ev : event) : bool := match projT1 ev with Basic (Store (UpdateTask _ _ _)) => true | _ => false end.

(** The values a program can return *)
Fixpoint returns {op} {ans : op → Type} {A} (R : A → Prop) (p : M ans A) : Prop :=
  match p with
  | Ret (Ok a) => R a
  | Ret (Err _) => True
  | Call o k => ∀ x, returns R (k x)
  end.

Lemma returns_seq {op} {ans : op → Type} {A B} (R : B → Prop) (p : M ans A) (f : A → M ans B) :
  (∀ a, returns R (f a)) → returns R (seq p f).
Proof. intros Hf. induction p as [[a|e]|o k IH]; simpl; [apply Hf|done|]. intros x. apply IH. Qed.

Lemma returns_runs {op} {ans : op → Type} {S A} (step : ∀ o, S → ans o → S → Prop) (R : A → Prop) (p : M ans A) s a s' :
  returns R p → runs step p s (Ok a) s' → R a.
Proof.
  revert s. induction p as [r|o k IH]; intros s; simpl.
  - intros Hr [<- _]. exact Hr.
  - intros Hk (x & s1 & _ & Hr). by eapply IH.
Qed.

Lemma running_outcomes l : Forall (λ ev, running ev = false) l → outcomes l = [].
Proof. induction 1 as [|[o x] l Hw _ IH]; [done|]. by destruct o as [[]| | | | | | | | | | |]. Qed.

Lemma quiet_outcomes l : Forall quiet l → outcomes l = [].
Proof.
  induction 1 as [|[o x] l (_ & _ & Hw) _ IH]; [done|]. by destruct o as [[]| | | | | | | | | | |].
Qed.

(** What a normal return says about the log *)
Definition told (r : res exn json) (l : list event) : Prop := match r with Ok v => outcomes l = [Ok v] | Err _ => True end.

Lemma told_quiet r l1 l2 : Forall quiet l1 → told r l2 → told r (l1 ++ l2).
Proof. intros E%quiet_outcomes. destruct r; [|done]. simpl. by rewrite omap_app, E. Qed.

Section Results.

Context (str_exn : exn → string).

Lemma tail_quiet {B} (result : json) (p : M exec_ans B) (f : B → M exec_ans json) log (l : list event) :
  outcomes l = [Ok result] → calls quiet_op p → (∀ a, calls quiet_op (f a)) → (∀ a, returns (λ v, v = result) (f a)) →
  wp log_step (seq p f) (log ++ l) (λ r log', ∃ l', log' = log ++ l' ∧ told r l').
Proof.
  intros Hl Hp Hf Hr. apply wp_runs. intros r log' Hrun.
  destruct (proj1 (wp_runs _ _ _ _) (wp_quiet (seq p f) (log ++ l) ltac:(by apply calls_seq)) _ _ Hrun) as (l' & -> & Hq).
  exists (l ++ l'). rewrite app_assoc. split; [done|]. destruct r as [v|e]; [|done].
  pose proof (returns_runs _ (λ v, v = result) _ _ _ _ (returns_seq _ p f Hr) Hrun) as ->.
  simpl. rewrite omap_app, Hl. by rewrite (quiet_outcomes _ Hq).
Qed.

Lemma with_slot_told id rn timeout sl log :
  wp log_step (with_slot str_exn id rn timeout sl) log (λ r log', ∃ l, log' = log ++ l ∧ told r l).
Proof.
  unfold with_slot.
  apply wp_after_quiet; [destruct sl; prove_exec_calls|apply told_quiet|]. intros [[]|e] log1; [|by apply wp_nothing].
  apply wp_after_quiet; [prove_exec_calls|apply told_quiet|]. intros [[]|e] log2; [|by apply wp_nothing].
  apply wp_after_quiet; [unfold _write_snapshot; prove_exec_calls|apply told_quiet|]. intros [[]|e] log3; [|by apply wp_nothing].
  assert (∀ result l, outcomes l = [Ok result] → wp log_step (
    let! requested := basic (_is_cancel_requested id) in
    if requested then
      do! basic (_settle_cancelled id "succeeded_but_cancelled") in do! basic (_safe_hook OnCancel) in ret result
    else
      let! ok := basic (_update_terminal id
        {[ "status" := JStr (word SUCCEEDED); "result" := result; "progress" := JFloat 4607182418800017408 ]}%string) in
      if ok then
        do! basic (_write_snapshot str_exn id (word SUCCEEDED) true None "") in do! basic (_safe_hook (OnSuccess result)) in ret result
      else do! basic (_safe_hook OnCancel) in ret result) (log3 ++ l) (λ r log', ∃ l', log' = log3 ++ l' ∧ told r l')) as Htail.
  { intros result l Hl. apply (tail_quiet result); [done|unfold _is_cancel_requested; prove_exec_calls| |].
    - intros []; unfold _settle_cancelled, _update_terminal, _write_snapshot, _safe_hook; prove_exec_calls.
    - intros []; [by do 2 (apply returns_seq; intros)|apply returns_seq; intros []]; [by do 2 (apply returns_seq; intros)|by apply returns_seq]. }
  rewrite wp_seq. destruct timeout.
  - unfold _run_with_timeout. wp_call. intros x log4 ->. destruct x as [[[v|e]|]|e].
    + apply (Htail v [_]). done.
    + by eexists.
    + intros [] log5 -> y log6 ->. destruct y; eexists; rewrite <- !app_assoc; done.
    + destruct e; try (by eexists). intros [] log5 -> y log6 ->. destruct y; eexists; rewrite <- !app_assoc; done.
  - intros x log4 ->. destruct x as [v|e]; [by apply (Htail v [_])|by eexists].
Qed.

(** Neither a write nor the slot nor the task *)
Definition idle (ev : event) : Prop := quiet ev ∧ is_write ev = false.
Definition idle_basic (o : basic_op) : Prop := match o with Release _ _ | Store (UpdateTask _ _ _) => False | _ => True end.
Definition idle_op (o : exec_op) : Prop := match o with Basic o => idle_basic o | Shield _ => False | _ => quiet_op o end.

Lemma wp_idle {A} (p : prog exec_ans A) log : calls idle_op p → wp log_step p log (λ _ log', ∃ l, log' = log ++ l ∧ Forall idle l).
Proof.
  apply wp_grow with (Pb := idle_basic).
  - by intros [[]| | |].
  - by intros [[[]| | |]| | | | | | | | | | |].
  - done.
Qed.

Lemma idle_quiet l : Forall idle l → Forall quiet l.
Proof. intros Hl. eapply Forall_impl; [exact Hl|]. by intros ev []. Qed.

Lemma before_slot_idle self id rn log : wp log_step (before_slot self id rn) log (λ d log', ∃ l, log' = log ++ l ∧
  outcomes l = [] ∧ ∀ v, d = Ok (inl v) → Forall idle l).
Proof.
  unfold before_slot. rewrite wp_seq. eapply wp_mono; [apply wp_idle; unfold _is_cancel_requested; prove_exec_calls|].
  intros [[]|e] log1 (l1 & -> & H1); [exists l1; by rewrite quiet_outcomes by by apply idle_quiet| |exists l1; by rewrite quiet_outcomes by by apply idle_quiet].
  rewrite wp_seq. eapply wp_mono; [apply wp_idle; unfold _try_reuse_result; prove_exec_calls|].
  intros [[v|]|e] log2 (l2 & -> & H2); rewrite <- app_assoc;
    assert (Forall idle (l1 ++ l2)) as H12 by (by apply Forall_app); pose proof (quiet_outcomes _ (idle_quiet _ H12)) as Ho;
    [by exists (l1 ++ l2)| |by exists (l1 ++ l2)].
  rewrite wp_seq. eapply wp_mono; [apply acquire_slot_log|].
  intros [sl|e] log3 (l3 & -> & _ & _ & H3 & _); rewrite <- app_assoc; (exists ((l1 ++ l2) ++ l3); split; [done|]; split; [|done]).
  all: rewrite omap_app, Ho; by apply running_outcomes.
Qed.

Definition harmless (ev : event) : Prop := outcome ev = None ∧ is_write ev = false ∧ acquired ev = None.

Lemma harmless_spec l : Forall harmless l → outcomes l = [] ∧ Forall (λ ev, is_write ev = false) l ∧ omap acquired l = [].
Proof. induction 1 as [|ev l (H1 & H2 & H3) _ (IH1 & IH2 & IH3)]; [done|]. simpl. rewrite H1, H3. auto. Qed.

Lemma cleanup_harmless rn sl log : wp log_step (cleanup rn sl) log (λ _ log', ∃ l, log' = log ++ l ∧ Forall harmless l).
Proof.
  apply wp_grow with (Pb := λ o, match o with Release _ _ => True | _ => False end)
    (Pe := λ o, match o with ResetContext | Unregister => True | Shield p => calls (λ o, match o with Release _ _ => True | _ => False end) p | _ => False end).
  - by intros [].
  - by intros [].
  - done.
  - unfold cleanup, _shielded_finalize. destruct sl; prove_exec_calls.
Qed.

Lemma handlers_raise id e : returns (λ _, False) (handlers str_exn id e).
Proof. unfold handlers. destruct e; repeat (apply returns_seq; intros); done. Qed.

Lemma wp_handlers id e log (Q : res exn json → list event → Prop) :
  (∀ e' log', (∃ l, log' = log ++ l) → Q (Err e') log') → wp log_step (handlers str_exn id e) log Q.
Proof.
  intros HQ. apply wp_runs. intros [v|e'] log' Hr; [by destruct (returns_runs _ _ _ _ _ _ (handlers_raise id e) Hr)|].
  apply HQ. exact (proj1 (wp_runs _ _ _ _) (wp_grows _ log) _ _ Hr).
Qed.

End Results.

(** What [execute] returns is what the task returned: a normal return means
    that the task ran once and ended with that value, or that a prior result
    was reused, and then the task did not run, no slot was taken and nothing
    was written.  (So a task that failed, timed out or was cancelled makes
    [execute] raise.) *)
Theorem execute_returns str_exn self id rn timeout r log :
  runs log_step (execute str_exn self id rn timeout) [] r log →
  match r with
  | Ok v => outcomes log = [Ok v] ∨ outcomes log = [] ∧ Forall (λ ev, is_write ev = false) log ∧ omap acquired log = []
  | Err _ => True
  end.
Proof.
  revert r log. apply wp_runs. unfold execute. wp_call. intros [] log1 ->. wp_call. intros [] log2 ->.
  rewrite wp_bind. eapply wp_mono; [apply before_slot_idle|]. intros d log3 (pre & -> & Hout & Hidle).
  unfold guarded. destruct d as [[v|sl]|e]; rewrite wp_finally, wp_catch.
  - unfold ret. change (wp log_step (cleanup rn NoGovernor) ((([] ++ [existT Register ()]) ++ [existT SetContext ()]) ++ pre)
      (λ r' s2, match r' with Ok _ => outcomes s2 = [Ok v] ∨ outcomes s2 = [] ∧ Forall (λ ev, is_write ev = false) s2 ∧ omap acquired s2 = []
                | Err e => True end)).
    eapply wp_mono; [apply cleanup_harmless|]. intros [[]|e] log (l & -> & (H1 & H2 & H3)%harmless_spec); [|done]. right.
    assert (Forall harmless pre) as (E1 & E2 & E3)%harmless_spec.
    { eapply Forall_impl; [by apply (Hidle v)|]. intros [o x] ((H%asked_acquired & _ & Hw) & Hwr). split; [|by split].
      by destruct o as [[]| | | | | | | | | | |]. }
    rewrite !omap_app, !Forall_app. simpl. rewrite E1, E3, H1, H3. split_and!; first [done|by repeat constructor].
  - eapply wp_mono; [apply with_slot_told|]. intros [v|e] log (l & -> & Hl).
    + eapply wp_mono; [apply cleanup_harmless|]. intros [[]|e] log (l' & -> & (H1 & H2 & H3)%harmless_spec); [|done]. left.
      rewrite !omap_app. simpl. simpl in Hl. by rewrite Hout, Hl, H1.
    + apply wp_handlers. intros e' log _. eapply wp_mono; [apply wp_grows|]. by intros [[]|].
  - apply wp_handlers. intros e' log _. eapply wp_mono; [apply wp_grows|]. by intros [[]|].
Qed.

(** ** Runs *)

Module ExecutionWitness.

Local Open Scope string_scope.

(** A world in which every call succeeds, on the record [rec] *)
Definition store_answer (rec : row) (o : store_op) : store_ans o :=
  match o return store_ans o with
  | GetTask _ => Ok rec
  | UpdateTask _ _ _ | SaddActiveChild _ _ | SremActiveChild _ _ | SetRemainingDeps _ _ | ClearCancelVotes _ => Ok tt
  | InitializeTask _ _ _ _ | RequestCancel _ | VoteAndCheck _ _ _ | SaddResultConsumer _ _ => Ok true
  | ListChildren _ | ListTaskIdsByStatus _ _ | GetActiveChildren _ => Ok []
  | BulkGetTasks _ => Ok []
  | DecrRemainingDeps _ => Ok 0%Z
  end.

Definition basic_answer (rec : row) (o : basic_op) : basic_ans o :=
  match o return basic_ans o with
  | Store o => store_answer rec o
  | SinkWrite _ _ _ _ _ _ | RunHook _ | Release _ _ => Ok tt
  end.

(** A world: the record by position in the log, the calls that fail, and
    whether the store refuses the writes of the finalizers. *)
Record world := { row_at : nat → row; fails : nat → option exn; refuses : bool }.

Definition or_fail {A} (w : world) (n : nat) (a : A) : res exn A := match fails w n with Some e => Err e | None => Ok a end.

Definition exec_answer (w : world) (n : nat) (o : exec_op) : exec_ans o :=
  match o return exec_ans o with
  | Basic (Store o) => match fails w n with Some e => Err e | None => store_answer (row_at w n) o end
  | Basic (SinkWrite _ _ _ _ _ _) | Basic (RunHook _) | Basic (Release _ _) => or_fail w n tt
  | LatestStatus _ => Ok None
  | Acquire _ => or_fail w n "slot-1"
  | TaskExecute => or_fail w n (JNum 7)
  | WaitInner => or_fail w n (Some (Ok (JNum 7)))
  | GatherInner | Shield _ => Ok tt
  | CancelInner | Register | Unregister | SetContext | ResetContext => tt
  end.

Definition finalizer_answer (w : world) (o : basic_op) : basic_ans o :=
  match o return basic_ans o with
  | Store (UpdateTask _ _ _) => if refuses w then Err (Core InvalidStatusTransferError) else Ok tt
  | o => basic_answer (row_at w 0) o
  end.

Definition play_basic (w : world) (n : nat) (o : basic_op) (log : list event) : basic_ans o * list event :=
  (finalizer_answer w o, (log ++ [basic_event o (finalizer_answer w o)])%list).

Definition play (w : world) (n : nat) (o : exec_op) (log : list event) : exec_ans o * list event :=
  match o return exec_ans o * list event with
  | Shield p => exec (play_basic w) 0 p log
  | o => (exec_answer w (length log) o, (log ++ [existT o (exec_answer w (length log) o)])%list)
  end.

Lemma play_basic_step w n o log : basic_step o log (play_basic w n o log).1 (play_basic w n o log).2.
Proof. split; [done|]. destruct o as [[]| | |]; try done. simpl. by destruct (refuses w). Qed.

Lemma play_step w n o log : log_step o log (play w n o log).1 (play w n o log).2.
Proof.
  destruct o; try done. left. eexists. split; [|done]. apply exec_runs. intros. apply play_basic_step.
Qed.

Definition pool : TaskExecutor := {| governor := true; _reuse_words := [] |}.
Definition text (e : exn) : string := "error".
Definition play_on (w : world) : res exn json * list event := exec (play w) 0 (execute text pool "t" "llm" false) [].

Lemma play_runs w r : (play_on w).1 = r → runs log_step (execute text pool "t" "llm" false) [] r (play_on w).2.
Proof. intros <-. apply exec_runs. intros. apply play_step. Qed.

Definition queued_row : row := {[ "status" := JStr "queued"; "execution_id" := JStr "exec-1" ]}.
Definition smooth : world := {| row_at := λ _, queued_row; fails := λ _, None; refuses := false |}.

Lemma smooth_runs : runs log_step (execute text pool "t" "llm" false) [] (Ok (JNum 7)) (play_on smooth).2.
Proof. by apply play_runs. Qed.

Lemma discipline_witness : omap acquired (play_on smooth).2 = [("llm", "slot-1")] ∧
  ∃ pre mid post, (play_on smooth).2 = (pre ++ mid ++ post)%list ∧ (omap asked pre = [] ∨ omap asked pre = ["llm"]).
Proof.
  split; [vm_compute; reflexivity|].
  destruct (slot_discipline text pool "t" "llm" false _ _ smooth_runs) as (pre & mid & post & E & H & _).
  by exists pre, mid, post.
Defined.

Lemma smooth_ran : Exists (λ ev, running ev = true) (play_on smooth).2.
Proof. apply Exists_exists. exists (existT TaskExecute (Ok (JNum 7))). split; [|done]. apply list_elem_of_lookup. by exists 10. Qed.

Lemma settles_witness : existsb (settles "t") (play_on smooth).2 = true ∧ settled_log "t" (play_on smooth).2.
Proof.
  split; [vm_compute; reflexivity|]. exact (executed_task_settles text pool "t" "llm" false _ _ smooth_runs smooth_ran).
Defined.

Lemma returns_witness : omap outcome (play_on smooth).2 = [Ok (JNum 7)] ∧
  (omap outcome (play_on smooth).2 = [Ok (JNum 7)] ∨ omap outcome (play_on smooth).2 = [] ∧
   Forall (λ ev, is_write ev = false) (play_on smooth).2 ∧ omap acquired (play_on smooth).2 = []).
Proof.
  split; [vm_compute; reflexivity|]. exact (execute_returns text pool "t" "llm" false _ _ smooth_runs).
Defined.

(** Observations, as (status, final?) of the snapshots and accepted writes *)
Definition snapshots (l : list event) : list (string * bool) :=
  omap (λ ev, match projT1 ev with Basic (SinkWrite _ _ _ st final _) => Some (st, final) | _ => None end) l.
Definition accepted (ev : event) : option string :=
  let '(existT o x) := ev in
  match o return exec_ans o → option string with
  | Basic (Store (UpdateTask _ u _)) => λ x, match x, u !! "status" with Ok _, Some (JStr st) => Some st | _, _ => None end
  | _ => λ _, None
  end x.

Definition at_calls (l : list nat) (n : nat) : option exn := if decide (n ∈ l) then Some CancelledError else None.

(** A task cancelled twice: the second cancellation reaches the handler before
    its shield, and no final status is ever written. *)
Definition cancelled_twice : world := {| row_at := λ _, queued_row; fails := at_calls [10; 11]; refuses := false |}.
Example second_cancellation_leaves_running :
  (play_on cancelled_twice).1 = Err CancelledError ∧ existsb (settles "t") (play_on cancelled_twice).2 = false.
Proof. split; vm_compute; reflexivity. Qed.

(** A task cancelled right after its result was accepted: the store refuses the
    cancelled status, and the final snapshot says cancelled all the same. *)
Definition cancelled_late : world := {| row_at := λ _, queued_row; fails := at_calls [13]; refuses := true |}.
Example late_cancellation_snapshot :
  omap accepted (play_on cancelled_late).2 = ["running"; "succeeded"] ∧
  snapshots (play_on cancelled_late).2 = [("running", false); ("cancelled", true)].
Proof. split; vm_compute; reflexivity. Qed.

(** A task that was asked to stop and returned: it is cancelled, and its
    snapshots stop at running. *)
Definition asked_to_stop : world := {|
  row_at := λ n, if decide (n = 11) then <["cancel_requested" := JBool true]> queued_row else queued_row;
  fails := λ _, None; refuses := false |}.
Example graceful_cancellation_snapshot :
  omap accepted (play_on asked_to_stop).2 = ["running"; "cancelled"] ∧
  snapshots (play_on asked_to_stop).2 = [("running", false)].
Proof. split; vm_compute; reflexivity. Qed.

End ExecutionWitness.
