(* ===== verification/Orchestrator.v ===== *)
(** * The orchestrator

    flow/core/orchestrator.py: submission, cascading cancellation, termination,
    listing, and waiting for a final status.  Its coroutines call the store and
    a few things of their own process: the table of running coroutines, the
    start of a background task, the generator of task ids. *)
From Stdlib Require Import ZArith Lia.
From stdpp Require Import prelude gmap list strings.
From S2P Require Import Prelude Redis TaskDb Effects TaskStorage Lifecycle RefStore.
Local Open Scope list_scope.

Inductive orch_op :=
  | OStore (o : store_op)
  | IsRunning (id : string)
  | ForceCancel (id : string)
  | Spawn (id : string)
  | NewTaskId
  | Monotonic
  | Sleep (microseconds : Z).

Definition orch_ans (o : orch_op) : Type :=
  match o with
  | OStore o => store_ans o
  | IsRunning _ => bool
  | ForceCancel _ | Spawn _ | Sleep _ => unit
  | NewTaskId => string
  | Monotonic => Z
  end.

Notation orchM := (M orch_ans).

(** A coroutine of the store or of the lifecycle, called from here *)
Definition via {A} (p : M store_ans A) : orchM A := lift OStore (λ _ x, x) p.

(** A call in the process, which does not fail *)
Definition local (o : orch_op) : orchM (orch_ans o) := pbind (perform o) ret.

(** ** Submission *)

(** [submit]; [current] is the task whose execution context this is. *)
Definition submit (task_id : option string) (metadata : option row) (if_not_exists : bool) (parent current : option string) : orchM string :=
  let! task_id := (match task_id with Some id => ret id | None => (local NewTaskId : orchM string) end) in
  let parent := match parent with Some p => Some p | None => current end in
  let! created :=
    (if if_not_exists then via (initialize task_id metadata parent true)
     else
       let! existing := catch (via (call (GetTask task_id)))
                          (λ e, if decide (e = TaskNotFound ∨ e = KeyError) then ret ∅ else raise e) in
       if negb (bool_decide (existing = ∅)) && bool_decide (existing !! "status"%string = Some (JStr (word PENDING))) then
         do! match metadata with
             | Some m => if bool_decide (m = ∅) then ret tt
                         else via (call (UpdateTask task_id {[ "metadata"%string := JObj m ]} true))
             | None => ret tt
             end in
         ret true
       else via (initialize task_id metadata parent false)) in
  if created then
    do! via (transition_to task_id QUEUED) in
    do! local (Spawn task_id) in
    ret task_id
  else ret task_id.

(** ** Cascades *)

Definition _MAX_CASCADE_DEPTH : nat := 32.

Inductive mode := Cancel | Terminate.

Definition _terminate_single (task_id : string) : orchM bool :=
  pbind (via (call (GetTask task_id))) (λ r,
    match r with
    | Err e => if decide (e = TaskNotFound) then ret false else raise e
    | Ok task =>
        if bool_decide (task = ∅) then ret false
        else
          let! current_status := via (read_status task) in
          if is_terminal current_status then ret false
          else
            let! requested := catch (via (call (RequestCancel task_id))) (λ e, if decide (e = TaskNotFound) then ret false else raise e) in
            if requested then
              let! running := (local (IsRunning task_id) : orchM bool) in
              if running then do! (local (ForceCancel task_id) : orchM unit) in ret true
              else
                catch (do! via (transition_to task_id CANCELLED) in ret true)
                  (λ e, if decide (e = TaskNotFound) then ret false
                        else if is_exception e then
                          if bool_decide (e = InvalidStateTransition) || is_core_invalid_transfer e then
                            catch (via (confirm_cancelled task_id)) (λ e, if decide (e = TaskNotFound) then ret false else raise e)
                          else raise e
                        else raise e)
            else ret false
    end).

(** [_cascade_children]; [fuel] is [_MAX_CASCADE_DEPTH - depth]. *)
Fixpoint cascade_children (m : mode) (fuel : nat) (task_id : string) : orchM unit :=
  match fuel with
  | O => ret tt
  | S fuel =>
      let! children := except_exception (via (call (ListChildren task_id))) (λ _, ret []) in
      for_each children (λ child_id,
        except_exception
          (let! child := via (call (GetTask child_id)) in
           let! child_status := via (read_status child) in
           if is_terminal child_status then ret tt
           else
             do! match m with Terminate => _terminate_single child_id | Cancel => via (Lifecycle.cancel child_id) end in
             cascade_children m fuel child_id)
          (λ _, ret tt))
  end.

Definition _cascade_children (m : mode) (task_id : string) : orchM unit := cascade_children m _MAX_CASCADE_DEPTH task_id.

Definition cancel (task_id : string) : orchM bool :=
  let! ok := via (Lifecycle.cancel task_id) in
  if ok then do! _cascade_children Cancel task_id in ret true else ret false.

Definition terminate (task_id : string) : orchM bool :=
  let! ok := _terminate_single task_id in
  if ok then do! _cascade_children Terminate task_id in ret true else ret false.

(** ** Listing *)

(** [l[a:b]] *)
Definition py_index (n i : Z) : nat := Z.to_nat (Z.min n (Z.max 0 (if (i <? 0)%Z then i + n else i))).
Definition py_slice {A} (a b : Z) (l : list A) : list A :=
  let n := Z.of_nat (length l) in
  drop (py_index n a) (take (py_index n b) l).

Definition list_tasks (status : option TaskStatus) (limit offset : Z) : orchM (list row) :=
  match status with
  | None => raise ValueError
  | Some st =>
      let! ids := via (call (ListTaskIdsByStatus (word st) None)) in
      let ids := py_slice offset (offset + limit) ids in
      if bool_decide (ids = []) then ret []
      else
        let! records := via (call (BulkGetTasks ids)) in
        ret (zip_with (λ tid rec, rec ∪ {[ "task_id"%string := JStr tid ]}) ids records)
  end.

(** ** Waiting *)

(** The loop of [wait_terminal]; instants in microseconds, the interval rounded
    down.  [None]: out of fuel. *)
Fixpoint wait_loop (fuel : nat) (task_id : string) (deadline interval : Z) : orchM (option row) :=
  match fuel with
  | O => ret None
  | S fuel =>
      let! now := (local Monotonic : orchM Z) in
      if (now <? deadline)%Z then
        let! record := via (call (GetTask task_id)) in
        if bool_decide (record = ∅) then raise TaskNotFound
        else
          let! status := via (read_status record) in
          if is_terminal status then ret (Some record)
          else
            do! (local (Sleep interval) : orchM unit) in
            wait_loop fuel task_id deadline (Z.min (interval * 3 / 2) 500000)
      else raise TimeoutError
  end.

Definition wait_terminal (fuel : nat) (task_id : string) (timeout poll_interval : Z) : orchM (option row) :=
  let! now := (local Monotonic : orchM Z) in
  wait_loop fuel task_id (now + timeout) poll_interval.

(** ** One client: what a cascade does *)

Record orch_state := { st : ref_store; spawned : list string; forced : list string; running : gset string; clock : Z }.

Definition orch_call (o : orch_op) (s : orch_state) : orch_ans o * orch_state :=
  match o return orch_ans o * orch_state with
  | OStore o => let '(x, st') := ref_call o (st s) in (x, {| st := st'; spawned := spawned s; forced := forced s; running := running s; clock := clock s |})
  | IsRunning id => (bool_decide (id ∈ running s), s)
  | ForceCancel id => (tt, {| st := st s; spawned := spawned s; forced := forced s ++ [id]; running := running s; clock := clock s |})
  | Spawn id => (tt, {| st := st s; spawned := spawned s ++ [id]; forced := forced s; running := running s; clock := clock s |})
  | NewTaskId => ("task-000000000001"%string, s)
  | Monotonic => (clock s, s)
  | Sleep d => (tt, {| st := st s; spawned := spawned s; forced := forced s; running := running s; clock := clock s + d |}%Z)
  end.

Notation orch := (play orch_call).
Definition with_store (f : ref_store) (s : orch_state) : orch_state :=
  {| st := f; spawned := spawned s; forced := forced s; running := running s; clock := clock s |}.

Lemma orch_via {A} (p : M store_ans A) s : orch (via p) s = let '(r, st') := run p (st s) in (r, with_store st' s).
Proof.
  unfold via. apply (play_lift OStore (λ _ x, x) ref_call orch_call st with_store); try done; [by intros []|].
  intros o s1. simpl. by destruct (ref_call o (st s1)).
Qed.

Lemma orch_call_store o s : orch (via (call o)) s = let '(x, st') := ref_call o (st s) in (x, with_store st' s).
Proof. rewrite orch_via. by rewrite run_store. Qed.

(** ** Many clients *)

Section World.

Context `{TaskStorage}.

(** The store, the clock, the background tasks started so far, and the
    coroutines told to stop *)
Record world := { w_store : store; w_clock : Z; w_spawned : list string; w_forced : list string }.

(** A call of a coroutine that works on [id]: time passes, others run. *)
Definition world_step (id : string) (o : orch_op) (w : world) (x : orch_ans o) (w' : world) : Prop :=
  (w_clock w ≤ w_clock w')%Z ∧
  match o return orch_ans o → Prop with
  | OStore o => λ x, step_on id o (w_store w) x (w_store w') ∧ w_spawned w' = w_spawned w ∧ w_forced w' = w_forced w
  | Monotonic => λ x, w_store w' = w_store w ∧ w_clock w' = x ∧ w_spawned w' = w_spawned w ∧ w_forced w' = w_forced w
  | Sleep d => λ _, w_store w' = w_store w ∧ (w_clock w + d ≤ w_clock w')%Z ∧ w_spawned w' = w_spawned w ∧ w_forced w' = w_forced w
  | Spawn t => λ _, w_store w' = w_store w ∧ w_spawned w' = w_spawned w ++ [t] ∧ w_forced w' = w_forced w
  | ForceCancel t => λ _, w_store w' = w_store w ∧ w_spawned w' = w_spawned w ∧ w_forced w' = w_forced w ++ [t]
  | IsRunning _ | NewTaskId => λ _, w_store w' = w_store w ∧ w_spawned w' = w_spawned w ∧ w_forced w' = w_forced w
  end x.

Definition later (w : world) (s' : store) (t : Z) : world :=
  {| w_store := s'; w_clock := t; w_spawned := w_spawned w; w_forced := w_forced w |}.

(** A coroutine of the store called from here does what it does there. *)
Lemma wp_via {A} id (p : M store_ans A) w (Q : res exn A → world → Prop) :
  wp (step_on id) p (w_store w) (λ r s', ∀ t, (w_clock w ≤ t)%Z → Q r (later w s' t)) →
  wp (world_step id) (via p) w Q.
Proof.
  unfold via. revert w. induction p as [r|o k IH]; intros w Hp.
  - change (Q r w). specialize (Hp (w_clock w)). destruct w. by apply Hp.
  - change (∀ x w1, world_step id (OStore o) w x w1 → wp (world_step id) (lift OStore (λ _ x, x) (k x)) w1 Q).
    intros x [s1 t1 l1 f1] (Ht & Hs & Hl & Hf). simpl in *. subst l1 f1. apply IH. simpl. eapply wp_mono; [exact (Hp x s1 Hs)|].
    intros r s' Hq t Ht'. apply Hq. lia.
Qed.

Definition timely (id : string) (deadline : Z) (r : res exn (option row)) (w : world) : Prop :=
  match r with
  | Ok (Some record) => ∃ status, is_terminal status = true ∧ word_of record = Some (word status) ∧ status_at (w_store w) id = Some (word status)
  | Ok None => False
  | Err TaskNotFound => status_at (w_store w) id = None
  | Err TimeoutError => (deadline ≤ w_clock w)%Z
  | Err _ => True
  end.

Lemma wait_loop_wp fuel id deadline interval m w : sound (w_store w) → valid_id id → (1 ≤ m)%Z → (m ≤ 500000)%Z → (m ≤ interval)%Z → (1 ≤ fuel)%nat →
  (deadline - w_clock w ≤ (Z.of_nat fuel - 1) * m)%Z → wp (world_step id) (wait_loop fuel id deadline interval) w (timely id deadline).
Proof.
  intros Hs Hv Hm Hm'. revert interval w Hs. induction fuel as [|fuel IH]; intros interval w Hs Hi Hfuel Hd; [lia|]. cbn [wait_loop].
  wp_simp. unfold local. wp_simp. wp_call. intros now w1 (Hnow & Es & Hw1 & _). wp_simp. destruct (Z.ltb_spec now deadline) as [Hlt|Hge]; cycle 1.
  { wp_simp. simpl. lia. }
  wp_simp. apply wp_via. rewrite Es. apply wp_get_task; [done..| |].
  2: { intros e s' _ _ He t Ht. by destruct e as [[]| | | | | | | | | | |]. }
  intros task s2 Hs2 Ho2 Hst t2 Ht2. case_bool_decide as Ee; wp_simp; [simpl; by rewrite Hst, Ee|].
  apply wp_via. cbn [later w_store w_clock w_spawned].
  apply read_status_word; [|intros e He t Ht; by apply elem_of_cons in He as [->|He]; [|apply list_elem_of_singleton in He as ->]].
  intros status Ew t3 Ht3. destruct (is_terminal status) eqn:Et; wp_simp.
  { exists status. split_and!; [done|done|]. simpl. by rewrite Hst. }
  wp_call. intros [] w4 (_ & Es4 & Ht4 & _). simpl in Es4, Ht4. wp_simp. apply IH; [by rewrite Es4| |nia|].
  - apply Z.min_glb; [|done]. apply Z.div_le_lower_bound; lia.
  - nia.
Qed.

(** *** Submission *)

Definition submitted (id : string) (w : world) (r : res exn string) (w' : world) : Prop :=
  w_forced w' = w_forced w ∧
  match r with
  | Ok id' => id' = id ∧
      (w_spawned w' = w_spawned w ++ [id] ∧ (∃ s2, status_at s2 id = Some (word QUEUED) ∧ others id s2 (w_store w'))
       ∨ w_spawned w' = w_spawned w ∧ others id (w_store w) (w_store w'))
  | Err _ => w_spawned w' = w_spawned w
  end.

(** [initialize] with [if_not_exists] *)
Lemma initialize_wp id metadata parent s (Q : res exn bool → store → Prop) : sound s → valid_id id →
  (∀ s', sound s' → Q (Ok true) s') → (∀ s', others id s s' → Q (Ok false) s') → (∀ e s', Q (Err e) s') →
  wp (step_on id) (initialize id metadata parent true) s Q.
Proof.
  intros Hs Hv Ht Hf He. unfold initialize, call. wp_simp. wp_call. intros x s1 (s0 & Ho & Ha). destruct x as [b|e]; [|apply He].
  pose proof (init_answer _ _ _ _ _ _ (others_sound _ _ _ Hs Ho) Hv (word_nonempty PENDING) Ha) as [Hs1 Hb].
  destruct b; wp_simp; [|subst s1; by apply Hf]. destruct metadata as [m|]; [|by apply Ht]. case_bool_decide; [by apply Ht|].
  wp_simp. apply wp_store; [done|by apply Forall_singleton|by apply words_only_other|done|].
  intros [[]|e] s2 Hs2 _ _ _; wp_simp; [by apply Ht|apply He].
Qed.

(** *** Termination of one task *)

Definition terminated (id : string) (w : world) (r : res exn bool) (w' : world) : Prop :=
  w_spawned w' = w_spawned w ∧
  match r with
  | Ok true => w_forced w' = w_forced w ++ [id] ∨ w_forced w' = w_forced w ∧ settled (w_store w') id (word CANCELLED)
  | Ok false => w_forced w' = w_forced w ∧
      (status_at (w_store w') id = None ∨ ∃ st, is_terminal st = true ∧ status_at (w_store w') id = Some (word st))
  | Err e => w_forced w' = w_forced w ∧ is_core_invalid_transfer e = false ∧ e ≠ TaskNotFound ∧ e ≠ InvalidStateTransition
  end.

Lemma terminated_unhandled id w e w' : w_spawned w' = w_spawned w → w_forced w' = w_forced w → unhandled e → terminated id w (Err e) w'.
Proof. by intros ? ? (? & ? & ?). Qed.

Lemma terminate_lost_race id status s1 w0 w : sound (w_store w) → valid_id id → sound s1 → is_terminal status = true →
  status_at s1 id = Some (word status) → others id s1 (w_store w) → w_spawned w = w_spawned w0 → w_forced w = w_forced w0 →
  wp (world_step id) (catch (via (confirm_cancelled id)) (λ e, if decide (e = TaskNotFound) then ret false else raise e)) w (terminated id w0).
Proof.
  intros Hs Hv Hs1 Ht Hst Ho Hsp Hfo. wp_simp. apply wp_via. eapply confirm_wp; [done..|by eapply terminal_word|done|done| | |].
  - intros s' Hset t _. case_bool_decide as Ew; (split; [done|]).
    + right. split; [done|]. by rewrite <- Ew.
    + split; [done|]. destruct Hset as [E|E]; [right|by left]. eauto.
  - intros s' E t _. rewrite decide_True by done. wp_simp. split; [done|]. split; [done|]. by left.
  - intros e s' He t _. rewrite decide_False by apply He. wp_simp. by apply terminated_unhandled.
Qed.

End World.

Section Cascade.

(** The store when the cascade starts: a forest, [up] a task's parent and
    [depth] its distance from a root. *)
Context (s0 : ref_store) (up : string → string) (depth : string → nat).

Definition forest : Prop :=
  (∀ p c, c ∈ children_of s0 p → up c = p ∧ depth c = S (depth p)) ∧ ∀ p, NoDup (children_of s0 p).
Context (Hforest : forest).

Definition live (c : string) : Prop := ∃ r status, tasks s0 !! c = Some r ∧ live_record r status.

(** Below a task, within [n] generations; through live tasks only *)
Fixpoint under (n : nat) (p d : string) : Prop :=
  match n with O => False | S n => ∃ c, c ∈ children_of s0 p ∧ (d = c ∨ under n c d) end.
Fixpoint below (n : nat) (p d : string) : Prop :=
  match n with O => False | S n => ∃ c, c ∈ children_of s0 p ∧ live c ∧ (d = c ∨ below n c d) end.

Lemma below_under n p d : below n p d → under n p d.
Proof. revert p. induction n as [|n IH]; intros p; [done|]. intros (c & Hc & _ & Hd). exists c. naive_solver. Qed.

Lemma below_live n p d : below n p d → live d.
Proof. revert p. induction n as [|n IH]; intros p; [done|]. intros (c & Hc & Hl & [->|Hd]); [done|by eapply IH]. Qed.

Lemma under_up n p d : under n p d → depth p < depth d ∧ Nat.iter (depth d - depth p) up d = p.
Proof.
  revert p. induction n as [|n IH]; intros p; [done|]. intros (c & Hc & Hd). destruct (proj1 Hforest _ _ Hc) as [Hup Hdep].
  destruct Hd as [->|Hd].
  - split; [lia|]. rewrite Hdep. replace (S (depth p) - depth p) with 1 by lia. done.
  - apply IH in Hd as [Hlt Hit]. split; [lia|]. replace (depth d - depth p) with (S (depth d - depth c)) by lia.
    simpl. by rewrite Hit.
Qed.

(** The parts below two children are apart. *)
Lemma under_apart n m p c1 c2 d : c1 ∈ children_of s0 p → c2 ∈ children_of s0 p → c1 ≠ c2 →
  d = c1 ∨ under n c1 d → d = c2 ∨ under m c2 d → False.
Proof.
  intros H1 H2 Hne. destruct (proj1 Hforest _ _ H1) as [_ D1], (proj1 Hforest _ _ H2) as [_ D2].
  intros [->|U1] [->|U2]; [done|apply under_up in U2 as [? _]; lia|apply under_up in U1 as [? _]; lia|].
  apply under_up in U1 as [_ U1], U2 as [_ U2]. rewrite D1 in U1. rewrite D2 in U2. congruence.
Qed.

Lemma under_self n p : ¬ under n p p.
Proof. intros [? _]%under_up. lia. Qed.

(** What a cascade from [p] does to a state in which nothing below [p] was
    touched yet *)
Record untouched (n : nat) (p : string) (s1 : orch_state) : Prop := {
  un_kids : ∀ q, children_of (st s1) q = children_of s0 q;
  un_tasks : ∀ d, under n p d → tasks (st s1) !! d = tasks s0 !! d
}.

Record cascaded (P : string → Prop) (s1 s2 : orch_state) : Prop := {
  ca_kids : ∀ q, children_of (st s2) q = children_of (st s1) q;
  ca_done : ∀ d r, P d → tasks s0 !! d = Some r → tasks (st s2) !! d = Some (cancelled_record r);
  ca_same : ∀ d, ¬ P d → tasks (st s2) !! d = tasks (st s1) !! d;
  ca_local : spawned s2 = spawned s1 ∧ forced s2 = forced s1 ∧ running s2 = running s1 ∧ clock s2 = clock s1
}.

Lemma cascaded_none s1 : cascaded (λ _, False) s1 s1.
Proof. by split. Qed.

Lemma cascaded_ext P P' s1 s2 : (∀ d, P d ↔ P' d) → cascaded P s1 s2 → cascaded P' s1 s2.
Proof.
  intros E [H1 H2 H3 H4]. split; [done| | |done].
  - intros d r Hd. by apply H2, E.
  - intros d Hd. apply H3. by rewrite E.
Qed.

Lemma cascaded_trans P P' s1 s2 s3 : (∀ d, P d ∨ ¬ P d) → (∀ d, P d → ¬ P' d) → cascaded P s1 s2 → cascaded P' s2 s3 →
  cascaded (λ d, P d ∨ P' d) s1 s3.
Proof.
  intros Hdec Hap [H1 H2 H3 H4] [G1 G2 G3 G4]. split.
  - intros q. by rewrite G1, H1.
  - intros d r [Hd|Hd] Hr; [rewrite G3; [by apply H2|by apply Hap]|by apply G2].
  - intros d Hd. rewrite G3 by tauto. apply H3. tauto.
  - destruct H4 as (? & ? & ? & ?), G4 as (? & ? & ? & ?). split_and!; congruence.
Qed.

Lemma live_dec c : live c ∨ ¬ live c.
Proof.
  unfold live, live_record. destruct (tasks s0 !! c) as [r|]; [|right; by intros (? & ? & ? & ?)].
  destruct (word_of r) as [w|] eqn:Ew; [|right; by intros (? & ? & [= <-] & ? & ?); congruence].
  destruct (of_word w) as [x|] eqn:Eo.
  - apply of_word_Some in Eo as ->. destruct (is_terminal x) eqn:Et; [|left; eauto 10].
    right. intros (? & y & [= <-] & Hw & Hy). rewrite Ew in Hw. injection Hw as Hw. destruct x, y; done.
  - right. intros (? & y & [= <-] & Hw & _). rewrite Ew in Hw. injection Hw as ->. by rewrite of_word_word in Eo.
Qed.

Lemma list_exists_dec {A} (P : A → Prop) (l : list A) : (∀ a, P a ∨ ¬ P a) → (∃ a, a ∈ l ∧ P a) ∨ ¬ (∃ a, a ∈ l ∧ P a).
Proof.
  intros Hdec. induction l as [|a l IH]; [right; by intros (? & ?%not_elem_of_nil & _)|].
  destruct (Hdec a) as [Ha|Ha]; [left; exists a; split; [by left|done]|]. destruct IH as [(b & Hb & Hp)|IH].
  - left. exists b. split; [by right|done].
  - right. intros (b & [->|Hb]%elem_of_cons & Hp); [done|]. apply IH. eauto.
Qed.

Lemma below_dec n p d : below n p d ∨ ¬ below n p d.
Proof.
  revert p. induction n as [|n IH]; intros p; [by right; intros ?|]. simpl. apply list_exists_dec. intros c.
  destruct (live_dec c), (decide (d = c)), (IH c); naive_solver.
Qed.

(** One child *)
Definition child_body (n : nat) (child_id : string) : orchM unit :=
  except_exception
    (let! child := via (call (GetTask child_id)) in
     let! child_status := via (read_status child) in
     if is_terminal child_status then ret tt
     else do! via (Lifecycle.cancel child_id) in cascade_children Cancel n child_id)
    (λ _, ret tt).

Lemma with_store_same s : with_store (st s) s = s.
Proof. by destruct s. Qed.

Lemma orch_except {A} (p : orchM A) h s :
  orch (except_exception p h) s = let '(r, s1) := orch p s in
    match r with Ok a => (Ok a, s1) | Err e => if is_exception e then orch (h e) s1 else (Err e, s1) end.
Proof. unfold except_exception. rewrite play_catch. destruct (orch p s) as [[a|e] s1]; [done|]. by destruct (is_exception e). Qed.

Lemma read_status_cases r s : ∃ x, run (read_status r) s = (x, s) ∧
  match x with Ok status => word_of r = Some (word status) | Err e => is_exception e = true end.
Proof.
  unfold read_status, word_of. destruct (r !! "status"%string) as [[| | | | |w| |]|]; try by eexists.
  unfold or_raise. destruct (of_word w) as [x|] eqn:Ew; eexists; (split; [reflexivity|]); [|done].
  apply of_word_Some in Ew as ->. by rewrite decide_False by apply word_nonempty.
Qed.

Lemma body_dead n c s1 : tasks (st s1) !! c = tasks s0 !! c → ¬ live c → orch (child_body n c) s1 = (Ok tt, s1).
Proof.
  intros E Hl. unfold child_body. rewrite orch_except, play_seq, orch_call_store. simpl. rewrite with_store_same, play_seq, orch_via.
  destruct (read_status_cases (task_of (st s1) c) (st s1)) as (x & -> & Hx). rewrite with_store_same. destruct x as [status|e]; [|by rewrite Hx].
  destruct (is_terminal status) eqn:Et; [done|]. exfalso. apply Hl. unfold task_of in Hx. rewrite E in Hx.
  destruct (tasks s0 !! c) as [r|] eqn:Er; [|done]. by exists r, status.
Qed.

Lemma body_live n c s1 r status : tasks (st s1) !! c = Some r → live_record r status →
  orch (child_body n c) s1 =
  let '(x, s2) := orch (cascade_children Cancel n c) (with_store (set_tasks <[c := cancelled_record r]> (st s1)) s1) in
  match x with Ok _ => (Ok tt, s2) | Err e => if is_exception e then (Ok tt, s2) else (Err e, s2) end.
Proof.
  intros Er Hl. unfold child_body. rewrite orch_except, play_seq, orch_call_store. simpl. rewrite with_store_same, play_seq, orch_via.
  assert (task_of (st s1) c = r) as -> by (unfold task_of; by rewrite Er). destruct Hl as [Hw Ht].
  rewrite (run_read_status _ status) by done. rewrite with_store_same, Ht, play_seq, orch_via, (run_cancel _ r status) by done.
  destruct (orch _ _) as [[[]|e] s2]; [done|]. by destruct (is_exception e).
Qed.

Lemma cascade_loop n l s1 p :
  (∀ c s1, (untouched n c s1) → ∃ s2, orch (cascade_children Cancel n c) s1 = (Ok tt, s2) ∧ cascaded (below n c) s1 s2) →
  NoDup l → (∀ c, c ∈ l → c ∈ children_of s0 p) → (∀ q, children_of (st s1) q = children_of s0 q) →
  (∀ c d, c ∈ l → d = c ∨ under n c d → tasks (st s1) !! d = tasks s0 !! d) →
  ∃ s2, orch (for_each l (child_body n)) s1 = (Ok tt, s2) ∧ cascaded (λ d, ∃ c, c ∈ l ∧ live c ∧ (d = c ∨ below n c d)) s1 s2.
Proof.
  intros IH. revert s1. induction l as [|c l IHl]; intros s1 Hnd Hch Hkids Htasks.
  - exists s1. split; [done|]. eapply cascaded_ext; [|apply cascaded_none]. intros d. split; [done|]. by intros (? & ?%not_elem_of_nil & _).
  - apply NoDup_cons in Hnd as [Hni Hnd]. cbn [for_each]. rewrite play_seq.
    assert (∃ s2, orch (child_body n c) s1 = (Ok tt, s2) ∧ cascaded (λ d, live c ∧ (d = c ∨ below n c d)) s1 s2) as (s2 & -> & Hc2).
    { pose proof (Htasks c c ltac:(by left) ltac:(by left)) as Ec. destruct (live_dec c) as [(r & status & Er & Hlive)|Hdead].
      - rewrite Er in Ec. rewrite (body_live n c s1 r status Ec Hlive). set (s1' := with_store _ s1).
        assert (cascaded (λ d, d = c) s1 s1') as H1.
        { split; [done| |intros d Hd; simpl; by rewrite lookup_insert_ne|done]. intros d r' -> Hr'. simpl. rewrite lookup_insert_eq. congruence. }
        destruct (IH c s1') as (s2 & -> & H2).
        { split; [done|]. intros d Hd. simpl. destruct (decide (d = c)) as [->|Hne]; [by apply under_self in Hd|].
          rewrite lookup_insert_ne by done. apply (Htasks c); [by left|by right]. }
        exists s2. split; [done|]. eapply cascaded_ext; [|eapply cascaded_trans; [| |exact H1|exact H2]].
        + intros d. split; [intros Hd; split; [by exists r, status|done]|by intros [_ Hd]].
        + intros d. destruct (decide (d = c)); auto.
        + intros d -> Hd. by apply below_under, under_self in Hd.
      - rewrite (body_dead n c s1 Ec Hdead). exists s1. split; [done|]. eapply cascaded_ext; [|apply cascaded_none]. naive_solver. }
    destruct (IHl s2) as (s3 & -> & Hc3); [done|intros c' Hc'; apply Hch; by right| | |].
    { intros q. by rewrite (ca_kids _ _ _ Hc2). }
    { intros c' d Hc' Hd. rewrite (ca_same _ _ _ Hc2); [apply (Htasks c'); [by right|done]|]. intros [_ Hd'].
      apply (under_apart n n p c c' d); [apply Hch; by left|apply Hch; by right|congruence| |done].
      destruct Hd' as [->|Hd']; [by left|right; by apply below_under]. }
    exists s3. split; [done|]. eapply cascaded_ext; [|eapply cascaded_trans; [| |exact Hc2|exact Hc3]].
    + intros d. setoid_rewrite elem_of_cons. naive_solver.
    + intros d. destruct (live_dec c), (decide (d = c)), (below_dec n c d); naive_solver.
    + intros d [Hl Hd] (c' & Hc' & Hl' & Hd'). apply (under_apart n n p c c' d); [apply Hch; by left|apply Hch; by right|congruence| |].
      * destruct Hd as [->|Hd]; [by left|right; by apply below_under].
      * destruct Hd' as [->|Hd']; [by left|right; by apply below_under].
Qed.

Lemma cascade_run n p s1 : untouched n p s1 →
  ∃ s2, orch (cascade_children Cancel n p) s1 = (Ok tt, s2) ∧ cascaded (below n p) s1 s2.
Proof.
  revert p s1. induction n as [|n IH]; intros p s1 [Hkids Htasks].
  - exists s1. split; [done|]. apply cascaded_none.
  - cbn [cascade_children]. rewrite play_seq, orch_except, orch_call_store. simpl. rewrite with_store_same, Hkids.
    apply (cascade_loop n (children_of s0 p) s1 p IH); [by apply Hforest|done|done|].
    intros c d Hc Hd. apply Htasks. by exists c.
Qed.

End Cascade.

(** C14: Cancelling a task cancels the whole live part of its tree, and nothing
    else: with lineage a forest, [cancel] of a live task answers True, every
    task that a chain of at most 32 live generations connects to it ends with
    status cancelled and its cancellation requested, and every other record,
    the lineage and the process's tables are as before. *)
Theorem cancel_cascades s root r status up depth : forest (st s) up depth → tasks (st s) !! root = Some r → live_record r status →
  ∃ s', orch (cancel root) s = (Ok true, s') ∧ tasks (st s') !! root = Some (cancelled_record r) ∧
    (∀ d rd, below (st s) 32 root d → tasks (st s) !! d = Some rd → tasks (st s') !! d = Some (cancelled_record rd)) ∧
    (∀ d, d ≠ root → ¬ below (st s) 32 root d → tasks (st s') !! d = tasks (st s) !! d) ∧
    (∀ q, children_of (st s') q = children_of (st s) q) ∧ spawned s' = spawned s ∧ forced s' = forced s ∧ running s' = running s.
Proof.
  intros Hf Hr Hl. unfold cancel. rewrite play_seq, orch_via, (run_cancel root r status) by done. set (s1 := with_store _ s).
  rewrite play_seq. unfold _cascade_children.
  destruct (cascade_run (st s) up depth Hf 32 root s1) as (s2 & E & [H1 H2 H3 H4]).
  { split; [done|]. intros d Hd. simpl. rewrite lookup_insert_ne; [done|]. intros <-. by apply (under_self (st s) up depth Hf) in Hd. }
  unfold _MAX_CASCADE_DEPTH. rewrite E. exists s2. split; [done|].
  assert (¬ below (st s) 32 root root) as Hself by (by intros Hb%below_under%(under_self (st s) up depth Hf)).
  split_and!; [| | |done|apply H4..].
  - rewrite H3 by done. simpl. by rewrite lookup_insert_eq.
  - intros d rd Hd Hrd. by apply H2.
  - intros d Hne Hd. rewrite H3 by done. simpl. by rewrite lookup_insert_ne.
Qed.

(** [wait_terminal] ends: whatever the store does and however long a call
    takes, with a poll interval of at least a microsecond it stops after at most
    timeout / interval + 1 polls, with a record that has a final status, or
    TaskNotFoundError for a task without a record, or TimeoutError and then
    not before the deadline. *)
Theorem wait_terminal_ends `{TaskStorage} fuel id timeout poll w r w' : sound (w_store w) → valid_id id → (1 ≤ poll)%Z →
  (0 ≤ timeout)%Z → (timeout / Z.min poll 500000 + 2 ≤ Z.of_nat fuel)%Z →
  runs (world_step id) (wait_terminal fuel id timeout poll) w r w' → timely id (w_clock w + timeout) r w'.
Proof.
  intros Hs Hv Hp Ht Hf. revert r w'. apply wp_runs. unfold wait_terminal, local. wp_simp. wp_call.
  intros now w1 (Hnow & Es & Hw1 & _). wp_simp. set (m := Z.min poll 500000) in *.
  eapply wp_mono; [apply (wait_loop_wp fuel id (now + timeout) poll m)|].
  - by rewrite Es.
  - done.
  - unfold m. lia.
  - unfold m. lia.
  - unfold m. lia.
  - pose proof (Z.div_pos timeout m Ht ltac:(unfold m; lia)). lia.
  - pose proof (Z.mul_succ_div_gt timeout m ltac:(unfold m; lia)). nia.
  - intros [[]|[]] w2 H2; simpl in *; try done. lia.
Qed.

(** An idempotent submission schedules a task exactly once: with
    [if_not_exists], [submit] answers the task id; either it has created the
    record, moved it to queued and started one background execution, or the
    record was there, and then nothing of it is touched and nothing is started;
    a submission that fails starts nothing. *)
Theorem submit_once `{TaskStorage} id metadata parent current w r w' : sound (w_store w) → valid_id id →
  runs (world_step id) (submit (Some id) metadata true parent current) w r w' → submitted id w r w'.
Proof.
  intros Hs Hv. revert r w'. apply wp_runs. unfold submit. wp_simp. apply wp_via. apply initialize_wp; [done|done| | |].
  - intros s1 Hs1 t _. wp_simp. apply wp_via. apply transition_wp; [done|done| | | | |];
      [|intros; by split..].
    intros from s2 s3 s4 _ _ _ Hs4 _ Hst3 Hs3 Ho t2 _. unfold local. wp_simp. wp_call. intros [] w3 (_ & Es & Hsp & Hfo). wp_simp. split; [done|].
    split; [done|]. left. split; [done|]. exists s3. by rewrite Es.
  - intros s1 Ho t _. wp_simp. split; [done|]. split; [done|]. by right.
  - intros e s1 t _. by split.
Qed.

(** [_terminate_single], racing with everyone else: True means that the
    coroutine was told to stop or the task is cancelled; False that the task
    has another final status or no record; no answer leaves a live task alone,
    and the races it handles do not escape. *)
Theorem terminate_single_spec `{TaskStorage} id w r w' : sound (w_store w) → valid_id id →
  runs (world_step id) (_terminate_single id) w r w' → terminated id w r w'.
Proof.
  intros Hs Hv. revert r w'. apply wp_runs. unfold _terminate_single. wp_simp. apply wp_via. apply wp_get_task; [done..| |].
  2: { intros e s1 _ _ He t _. apply may_raise_get in He. rewrite decide_False by apply He. wp_simp. by apply terminated_unhandled. }
  intros task s1 Hs1 Ho1 Hst t1 _. case_bool_decide as Ee; wp_simp.
  { split; [done|]. split; [done|]. left. simpl. by rewrite Hst, Ee. }
  apply wp_via. apply read_status_word; [|intros e He t _; by apply terminated_unhandled, unhandled_value].
  intros status Ew t2 _. rewrite Ew in Hst. destruct (is_terminal status) eqn:Et; wp_simp.
  { split; [done|]. split; [done|]. right. eauto. }
  apply wp_via. apply wp_store; [done|by apply Forall_singleton|done|done|].
  intros x s2 Hs2 Ho2 (sm & Hom & Ha) Hm t3 _. simpl in Hom, Ha. destruct x as [[]|e]; wp_simp; cycle 1.
  { split; [done|]. split; [done|]. left. eapply request_answer; [|done|exact Ha]. exact (others_sound _ _ _ Hs1 Hom). }
  { assert (unhandled e) as He by (by destruct e as [[]| | | | | | | | | | |]).
    rewrite decide_False by apply He. wp_simp. by apply terminated_unhandled. }
  unfold local. wp_simp. wp_call. intros b w4 (_ & Es4 & Hsp4 & Hfo4). simpl in *. wp_simp. destruct b; wp_simp.
  { intros [] w5 (_ & Es5 & Hsp5 & Hfo5). split; [congruence|]. left. congruence. }
  apply wp_via. rewrite Es4. apply transition_wp; [done..| | | | |]; wp_simp.
  - intros from s3 s4 s5 _ _ _ Hs5 _ Hst4 Hs4 Ho4 t4 _. wp_simp. split; [done|]. right. split; [done|].
    by apply (settled_others id s4 s5 _ Hs4 (proj2 (terminal_word CANCELLED) eq_refl) Ho4).
  - intros s5 _ _ Hno t4 _. rewrite decide_True by done. wp_simp. split; [done|]. split; [done|]. by left.
  - intros from s5 Hs5 Ho5 Hst5 Hno t4 _. rewrite decide_False by done.
    change (is_exception InvalidStateTransition) with true. rewrite bool_decide_true by done. cbv beta iota delta [orb].
    assert (is_terminal from = true) as Ht by (by destruct from).
    apply (terminate_lost_race id from s5); [done..|apply others_refl|done|done].
  - intros e w0 s3 s5 Hs5 Ho5 He Hw0 Hst3 Hs3 Ho3 t4 _. apply terminal_word_of in Hw0 as Hx. destruct Hx as (st0 & -> & Ht).
    rewrite He, orb_true_r. apply bool_decide_eq_true in He as ->. rewrite decide_False by done.
    change (is_exception (Core InvalidStatusTransferError)) with true. cbv iota. by apply (terminate_lost_race id st0 s3).
  - intros e s5 Hs5 Ho5 He t4 _. pose proof He as (E1 & E2 & E3). rewrite decide_False by done. rewrite E1, bool_decide_false by done.
    destruct (is_exception e); wp_simp; by apply terminated_unhandled.
Qed.

(** ** Runs on the reference store *)

Module OrchestratorWitness.

Local Open Scope string_scope.

(** One client, instantaneous calls *)
Definition world_call (o : orch_op) (w : world) : orch_ans o * world :=
  match o return orch_ans o * world with
  | OStore o => let '(x, s') := ref_call o (w_store w) in (x, later w s' (w_clock w))
  | IsRunning _ => (false, w)
  | ForceCancel t => (tt, {| w_store := w_store w; w_clock := w_clock w; w_spawned := w_spawned w; w_forced := (w_forced w ++ [t])%list |})
  | Spawn t => (tt, {| w_store := w_store w; w_clock := w_clock w; w_spawned := (w_spawned w ++ [t])%list; w_forced := w_forced w |})
  | NewTaskId => ("task-000000000001", w)
  | Monotonic => (w_clock w, w)
  | Sleep d => (tt, later w (w_store w) (w_clock w + Z.max 0 d))
  end.

Lemma world_call_step id o w : world_step id o w (world_call o w).1 (world_call o w).2.
Proof.
  destruct o as [o| | | | | |d]; unfold world_step; simpl; try (by split_and!).
  - destruct (ref_call o (w_store w)) as [x s'] eqn:E. simpl. split; [lia|]. split; [|done]. exists (w_store w). split; [apply rtc_refl|].
    unfold answers. simpl. by unfold ref_step.
  - split; [lia|]. split_and!; [done|lia|done..].
Qed.

Definition in_world {A} (p : prog orch_ans A) (w : world) : A * world := exec (λ _, world_call) 0 p w.

Lemma in_world_runs {A} id (p : prog orch_ans A) w : runs (world_step id) p w (in_world p w).1 (in_world p w).2.
Proof. apply exec_runs. intros. apply world_call_step. Qed.

Definition nothing : world := {| w_store := empty_store; w_clock := 0; w_spawned := []; w_forced := [] |}.
Definition after_submit : world := (in_world (submit (Some "t") None true None None) nothing).2.

Lemma submit_witness : w_spawned after_submit = ["t"] ∧ submitted "t" nothing (in_world (submit (Some "t") None true None None) nothing).1 after_submit.
Proof.
  split; [vm_compute; reflexivity|].
  exact (submit_once "t" None None None nothing _ _ I I (in_world_runs "t" (submit (Some "t") None true None None) nothing)).
Defined.

Definition after_terminate : world := (in_world (_terminate_single "t") after_submit).2.

Lemma terminate_witness : status_at (w_store after_terminate) "t" = Some "cancelled" ∧
  terminated "t" after_submit (in_world (_terminate_single "t") after_submit).1 after_terminate.
Proof.
  split; [vm_compute; reflexivity|].
  exact (terminate_single_spec "t" after_submit _ _ I I (in_world_runs "t" (_terminate_single "t") after_submit)).
Defined.

(** A tenth of a second, polling every 50 milliseconds *)
Definition waited : res exn (option row) * world := in_world (wait_terminal 4 "t" 100000 50000) after_submit.

Lemma waited_out : waited.1 = Err TimeoutError.
Proof. by_compute. Qed.

Lemma wait_witness : waited.1 = Err TimeoutError ∧ timely "t" (w_clock after_submit + 100000) waited.1 waited.2.
Proof.
  split; [exact waited_out|].
  exact (wait_terminal_ends 4 "t" 100000 50000 after_submit waited.1 waited.2 I I ltac:(lia) ltac:(lia) ltac:(vm_compute; discriminate)
    (in_world_runs "t" (wait_terminal 4 "t" 100000 50000) after_submit)).
Defined.

(** A tree: r over a and f, a over b; f has finished. *)
Definition record (w : string) : row := {[ "status" := JStr w ]}.
Definition tree : ref_store := {|
  tasks := {[ "r" := record "running"; "a" := record "running"; "b" := record "queued"; "f" := record "failed" ]};
  kids := {[ "r" := ["a"; "f"]; "a" := ["b"] ]}; active := ∅; remaining := ∅; votes := ∅; consumers := ∅ |}.
Definition tree_up (d : string) : string := if decide (d = "b") then "a" else "r".
Definition tree_depth (d : string) : nat := if decide (d = "r") then 0 else if decide (d = "b") then 2 else 1.

Lemma tree_children p : children_of tree p = if decide (p = "r") then ["a"; "f"] else if decide (p = "a") then ["b"] else [].
Proof.
  unfold children_of, tree. simpl. destruct (decide (p = "r")) as [->|Hr]; [done|]. rewrite lookup_insert_ne by done.
  destruct (decide (p = "a")) as [->|Ha]; [done|]. by rewrite lookup_singleton_ne.
Qed.

Lemma tree_forest : forest tree tree_up tree_depth.
Proof.
  split; intros p; rewrite tree_children.
  - intros c. destruct (decide (p = "r")) as [->|Hr]; [|destruct (decide (p = "a")) as [->|Ha]];
      rewrite ?elem_of_cons, elem_of_nil; naive_solver.
  - destruct (decide (p = "r")); [by apply (bool_decide_unpack _)|]. destruct (decide (p = "a")); by apply (bool_decide_unpack _).
Qed.

Definition tree_state : orch_state := {| st := tree; spawned := []; forced := []; Orchestrator.running := ∅; clock := 0 |}.

Lemma b_below : below tree 32 "r" "b".
Proof.
  exists "a". split; [rewrite tree_children; set_solver|]. split; [by exists (record "running"), RUNNING|]. right.
  exists "b". split; [rewrite tree_children; set_solver|]. split; [by exists (record "queued"), QUEUED|]. by left.
Qed.

Lemma cascade_witness : tasks tree !! "b" = Some (record "queued") ∧
  ∃ s', orch (cancel "r") tree_state = (Ok true, s') ∧ tasks (st s') !! "b" = Some (cancelled_record (record "queued")).
Proof.
  split; [vm_compute; reflexivity|].
  destruct (cancel_cascades tree_state "r" (record "running") RUNNING tree_up tree_depth tree_forest eq_refl (conj eq_refl eq_refl))
    as (s' & E & _ & Hd & _).
  exists s'. split; [exact E|]. exact (Hd "b" (record "queued") b_below eq_refl).
Defined.

End OrchestratorWitness.
