(* ===== verification/Governance.v ===== *)
(** * Dependency governance

    flow/governance/dependency.py: registration of a task with several parents,
    votes to cancel it, and the notifications that make it ready.  The governor
    never schedules anything; it is a client of the store (with the dependency
    primitives), of the lifecycle, and of two optional observers. *)
From Stdlib Require Import ZArith Lia.
From stdpp Require Import prelude gmap list strings pretty.
From S2P Require Import Prelude Redis TaskDb Effects TaskStorage Lifecycle RefStore.
Local Open Scope list_scope.

(** ** Calls *)

Record audit_event := { event_id : string; ev_task : string; event_type : string; ev_payload : row }.
Record dependency_edge := { child_id : string; parent_id : string; is_primary : bool }.

Inductive gov_op :=
  | GStore (o : store_op)
  | ListReadyDepTasks (status : string)
  | AuditAppend (ev : audit_event)
  | WriteDependency (e : dependency_edge)
  | ReadGraph (root : string).

Definition gov_ans (o : gov_op) : Type :=
  match o with
  | GStore o => store_ans o
  | ListReadyDepTasks _ => res exn (list string)
  | AuditAppend _ | WriteDependency _ => res exn unit
  | ReadGraph _ => res exn (list dependency_edge)
  end.

Notation govM := (M gov_ans).

Definition of_store {A} (p : M store_ans A) : govM A := lift GStore (λ _ x, x) p.
(** ** The governor *)

Definition DEFAULT_TERMINAL_WORDS : list string := ["succeeded"; "failed"; "cancelled"]%string.
Definition DEFAULT_READY_STATUS : string := "pending".
Definition _MAX_LINEAGE_DEPTH : nat := 32.
Definition MAX_EXEMPT_RESOURCES : nat := 10.

(** [lifecycle], [audit] and [dep_graph_store] may be absent. *)
Record DependencyGovernor := {
  _success_words : list string;
  _terminal_words : list string;
  _ready_status : string;
  _lifecycle : bool;
  _audit : bool;
  _dep_graph_store : bool
}.

(** [__init__] *)
Definition governor_init (success_words : list string) (terminal_words : option (list string)) (ready_status : string)
    (lifecycle audit graph : bool) : res exn DependencyGovernor :=
  if bool_decide (success_words = []) then Err ValueError
  else Ok {| _success_words := success_words; _terminal_words := default DEFAULT_TERMINAL_WORDS terminal_words;
             _ready_status := ready_status; _lifecycle := lifecycle; _audit := audit; _dep_graph_store := graph |}.

(** Fields of a record: a text or an absence; a list of texts *)
Definition text_of (r : row) (k : string) : option string := match r !! k with Some (JStr s) => Some s | _ => None end.
Definition truthy_text (o : option string) : option string := match o with Some s => if bool_decide (s = ""%string) then None else Some s | None => None end.
Definition status_text (r : row) : string := default ""%string (text_of r "status").
Definition texts (l : list json) : list string := omap (λ j, match j with JStr s => Some s | _ => None end) l.
Definition depends_on (r : row) : list string := match r !! "depends_on"%string with Some (JArr l) => texts l | _ => [] end.

(** [list(dict.fromkeys(l))] *)
Fixpoint dedupe (seen l : list string) : list string :=
  match l with
  | [] => []
  | a :: l => if bool_decide (a ∈ seen) then dedupe seen l else a :: dedupe (a :: seen) l
  end.

Section Governor.

Context (self : DependencyGovernor).

Definition _is_terminal (status : string) : bool := bool_decide (status ∈ _terminal_words self).
Definition _is_success (status : string) : bool := bool_decide (status ∈ _success_words self).

Definition gov_call (o : store_op) : govM (reply o) := of_store (call o).

Definition _get_record (task_id : string) : govM row :=
  let! rec := gov_call (GetTask task_id) in
  if bool_decide (rec = ∅) then raise TaskNotFound else ret rec.

Definition _emit_audit (ev : audit_event) : govM unit :=
  if _audit self then except_exception (perform (AuditAppend ev)) (λ _, ret tt) else ret tt.

Definition get_dependency_graph (root_id : string) : govM (list dependency_edge) :=
  if _dep_graph_store self then perform (ReadGraph root_id) else raise (Other "UnsupportedCapabilityError").

(** The depth-first search of [_assert_no_cycle]: [fuel] bounds the pops. *)
Fixpoint no_cycle_loop (fuel : nat) (child : string) (visited : gset string) (stack : list (string * nat)) : govM bool :=
  match fuel with
  | O => ret false
  | S fuel =>
      match stack with
      | [] => ret true
      | (node, depth) :: stack =>
          if bool_decide (node = child) then raise ValueError
          else if bool_decide (node ∈ visited) || (_MAX_LINEAGE_DEPTH <=? depth)%nat then no_cycle_loop fuel child visited stack
          else
            let visited := {[node]} ∪ visited in
            pbind (gov_call (GetTask node)) (λ r,
              match r with
              | Err e => if is_exception e then no_cycle_loop fuel child visited stack else raise e
              | Ok rec =>
                  let stack := match truthy_text (text_of rec "parent_task_id") with Some p => (p, S depth) :: stack | None => stack end in
                  no_cycle_loop fuel child visited (reverse ((λ dep, (dep, S depth)) <$> depends_on rec) ++ stack)
              end)
      end
  end.

(** The top of the stack is the last parent. [true]: the search is over. *)
Definition _assert_no_cycle (fuel : nat) (child : string) (parents : list string) : govM bool :=
  no_cycle_loop fuel child ∅ (reverse ((λ pid, (pid, 0%nat)) <$> parents)).

Fixpoint chain_loop (fuel : nat) (current : option string) (visited : gset string) (resources : list string) : govM (list string) :=
  match fuel, current with
  | S fuel, Some node =>
      if bool_decide (node ∈ visited) then ret resources
      else
        pbind (gov_call (GetTask node)) (λ r,
          match r with
          | Err e => if is_exception e then ret resources else raise e
          | Ok rec =>
              if bool_decide (rec = ∅) then ret resources
              else
                let resources' := match truthy_text (text_of rec "resource") with
                                  | Some a => if bool_decide (a ∈ resources) then resources else resources ++ [a]
                                  | None => resources
                                  end in
                if bool_decide (length resources' ≠ length resources) && (MAX_EXEMPT_RESOURCES <=? length resources')%nat then ret resources'
                else chain_loop fuel (text_of rec "parent_task_id") ({[node]} ∪ visited) resources'
          end)
  | _, _ => ret resources
  end.

Definition _collect_chain_resources (start_id : string) : govM (list string) := chain_loop _MAX_LINEAGE_DEPTH (Some start_id) ∅ [].

(** *** Votes *)

Definition cancel_child (child : string) : govM unit :=
  if _lifecycle self then except_exception (let! _ := of_store (cancel child) in ret tt) (λ _, ret tt) else ret tt.

Definition vote_cancel (parent child : string) : govM bool :=
  let! rec := gov_call (GetTask child) in
  if bool_decide (rec = ∅) then ret false
  else if _is_terminal (status_text rec) then ret false
  else if negb (bool_decide (parent ∈ depends_on rec)) then ret false
  else
    let! reached := gov_call (VoteAndCheck child parent (Z.of_nat (length (depends_on rec)))) in
    if reached then do! cancel_child child in ret true else ret false.

(** *** Registration

    The search for a cycle is given [fuel]; running out of it is not an outcome
    of the code and ends the model's run. *)

Fixpoint parents_records (parents : list string) : govM (list (string * row)) :=
  match parents with
  | [] => ret []
  | p :: l => let! rec := _get_record p in let! recs := parents_records l in ret ((p, rec) :: recs)
  end.

(** Any of the votes reaches the threshold. *)
Fixpoint cast_votes (child : string) (threshold : Z) (l : list string) (triggered : bool) : govM bool :=
  match l with
  | [] => ret triggered
  | p :: l => let! reached := gov_call (VoteAndCheck child p threshold) in cast_votes child threshold l (triggered || reached)
  end.

(** The recheck of the counted parents after the writes *)
Fixpoint recheck (child : string) (threshold : Z) (l : list string) (triggered : bool) : govM bool :=
  match l with
  | [] => ret triggered
  | p :: l =>
      pbind (gov_call (GetTask p)) (λ r,
        match r with
        | Err e => if is_exception e then recheck child threshold l triggered else raise e
        | Ok rec =>
            let current := status_text rec in
            if _is_terminal current then
              do! gov_call (DecrRemainingDeps child) in
              if _is_success current then recheck child threshold l triggered
              else
                let! reached := gov_call (VoteAndCheck child p threshold) in
                recheck child threshold l (triggered || reached)
            else recheck child threshold l triggered
        end)
  end.

Definition write_edge (child primary pid : string) : govM unit :=
  except_exception (perform (WriteDependency {| child_id := child; parent_id := pid; is_primary := bool_decide (pid = primary) |}))
    (λ _, _emit_audit {| event_id := "dep-index-fail-" +:+ child +:+ "-" +:+ pid; ev_task := child;
            event_type := "dep_index_write_failed"; ev_payload := {[ "parent" := JStr pid ]} |})%string.

Definition register_dependency (fuel : nat) (child : string) (parents : list string) (primary_parent : option string)
    (exempt_resources : option (list string)) : govM unit :=
  if bool_decide (parents = []) then raise ValueError
  else
    let parents := dedupe [] parents in
    do! _get_record child in
    let! recs := parents_records parents in
    let! over := _assert_no_cycle fuel child parents in
    if negb over then raise (Other "out of fuel")
    else
    let primary := default (default ""%string (head parents)) (truthy_text primary_parent) in
    if negb (bool_decide (primary ∈ parents)) then raise ValueError
    else
      let! snapshot := match exempt_resources with
                       | Some l => if (MAX_EXEMPT_RESOURCES <? length l)%nat then raise ValueError else ret l
                       | None => _collect_chain_resources primary
                       end in
      let counted := (filter (λ pr, _is_terminal (status_text pr.2) = false) recs).*1 in
      let abnormal := (filter (λ pr, _is_terminal (status_text pr.2) = true ∧ _is_success (status_text pr.2) = false) recs).*1 in
      let threshold := Z.of_nat (length parents) in
      do! for_each counted (λ pid, gov_call (SaddActiveChild pid child)) in
      let! triggered := cast_votes child threshold abnormal false in
      do! gov_call (UpdateTask child {[ "depends_on" := JArr (JStr <$> parents); "primary_parent" := JStr primary;
            "exempt_resources_snapshot" := JArr (JStr <$> snapshot) ]}%string true) in
      do! gov_call (SetRemainingDeps child (Z.of_nat (length counted))) in
      let! triggered := recheck child threshold counted triggered in
      do! (if _dep_graph_store self then for_each parents (write_edge child primary) else ret tt) in
      if triggered then cancel_child child else ret tt.

Definition get_ready_tasks : govM (list string) := perform (ListReadyDepTasks (_ready_status self)).

(** *** Notifications *)

Definition _notify_one_child (parent child : string) (success : bool) : govM unit :=
  except_exception
    (do! gov_call (DecrRemainingDeps child) in
     if success then ret tt
     else
       let! rec := gov_call (GetTask child) in
       if bool_decide (rec = ∅) then ret tt
       else if _is_terminal (status_text rec) then ret tt
       else if negb (bool_decide (parent ∈ depends_on rec)) then ret tt
       else
         let! reached := gov_call (VoteAndCheck child parent (Z.of_nat (length (depends_on rec)))) in
         if reached then cancel_child child else ret tt)
    (λ _, ret tt).

Definition notify_task_terminal (task_id terminal_status : string) : govM unit :=
  let success := _is_success terminal_status in
  do! except_exception
    (let! children := gov_call (GetActiveChildren task_id) in
     for_each children (λ c, _notify_one_child task_id c success))
    (λ _, ret tt) in
  except_exception
    (let! rec := gov_call (GetTask task_id) in
     do! for_each (depends_on rec) (λ p, gov_call (SremActiveChild p task_id)) in
     if bool_decide (depends_on rec = []) then ret tt else gov_call (ClearCancelVotes task_id))
    (λ _, ret tt).

(** *** Audit of consumption, exemption snapshot *)

Definition result_consumed (task_id consumer_id : string) : govM unit :=
  let! first := gov_call (SaddResultConsumer task_id consumer_id) in
  if first then
    _emit_audit {| event_id := "consume-" +:+ task_id +:+ "-" +:+ consumer_id; ev_task := task_id; event_type := "result_consumed";
                   ev_payload := {[ "consumer" := JStr consumer_id ]} |}%string
  else ret tt.

Definition invalidate_exempt_snapshot (task_id : string) : govM unit :=
  gov_call (UpdateTask task_id {[ "exempt_resources_snapshot"%string := JNull ]} true).

End Governor.

(** ** Runs

    The store answers as [ref_call] does; the ready tasks are those of
    [list_ready_dep_tasks]; the observers may answer anything, or fail, but a
    governor that is not cancelled sees no [CancelledError]. *)

Definition ready_in (w : string) (s : ref_store) : list string :=
  sorted_strings (filter (λ kn, (kn.2 ≤ 0)%Z ∧ text_of (task_of s kn.1) "status" = Some w) (map_to_list (remaining s))).*1.

Definition gov_step (o : gov_op) (s : ref_store) : gov_ans o → ref_store → Prop :=
  match o return gov_ans o → ref_store → Prop with
  | GStore o => λ x s', (x, s') = ref_call o s
  | ListReadyDepTasks w => λ x s', x = Ok (ready_in w s) ∧ s' = s
  | AuditAppend _ | WriteDependency _ => λ x s', x ≠ Err CancelledError ∧ s' = s
  | ReadGraph _ => λ x s', x ≠ Err CancelledError ∧ s' = s
  end.

Notation gwp := (wp gov_step).

Lemma gwp_of_store {A} (p : M store_ans A) s (Q : res exn A → ref_store → Prop) :
  gwp (of_store p) s Q ↔ let '(r, s') := run p s in Q r s'.
Proof.
  unfold of_store. revert s. induction p as [a|o k IH]; intros s; [done|]. unfold play. simpl.
  change (gwp (Call (GStore o) (λ x, lift GStore (λ _ x, x) (k x))) s Q)
    with (∀ x s1, (x, s1) = ref_call o s → gwp (lift GStore (λ _ x, x) (k x)) s1 Q).
  destruct (ref_call o s) as [x s1] eqn:E. rewrite exec_index, <- IH. split; intros H; [by apply H|]. intros x' s1' Ex. change ((x', s1') = ref_call o s) in Ex. rewrite E in Ex. injection Ex as -> ->. exact H.
Qed.

Lemma gwp_call o s (Q : res exn (reply o) → ref_store → Prop) : gwp (gov_call o) s Q ↔ Q (ref_call o s).1 (ref_call o s).2.
Proof. unfold gov_call. rewrite gwp_of_store, (run_store o). by destruct (ref_call o s). Qed.

(** *** Programs that are not cancelled *)

Lemma ref_call_uncancelled o s : (ref_call o s).1 ≠ Err CancelledError.
Proof.
  assert (∀ id u v s, (update id u v s).1 ≠ Err CancelledError) as Hu.
  { intros id u v s'. unfold update. destruct (tasks s' !! id); [|done]. by destruct (allowed _ _ _). }
  destruct o; try done; simpl; [apply Hu|by destruct (_ && _)|]. destruct (bool_decide _); [done|].
  destruct (update id _ true s) as [[]e] eqn:E; [done|]. simpl. intros [= ->]. by eapply Hu; rewrite E.
Qed.

Lemma uncancelled_store o : uncancelled ref_step (call o).
Proof. intros s x s1 Hx. apply (f_equal fst) in Hx. simpl in Hx. rewrite Hx. apply ref_call_uncancelled. Qed.

Lemma uncancelled_call o : uncancelled gov_step (gov_call o).
Proof. intros s. rewrite gwp_call. apply ref_call_uncancelled. Qed.

Lemma uncancelled_read_status r : uncancelled ref_step (read_status r).
Proof.
  unfold read_status, or_raise. destruct (r !! "status"%string) as [[| | | | |w| |]|]; try by apply uncancelled_raise.
  by destruct (of_word w); [|apply uncancelled_raise].
Qed.

Lemma uncancelled_of_res st st' : uncancelled ref_step (of_res (validate_transition st st')).
Proof. intros s. unfold validate_transition. by destruct (can_transition st st'). Qed.

Lemma uncancelled_lifecycle id : uncancelled ref_step (Lifecycle.cancel id).
Proof.
  prove_uncancelled ltac:(first [apply uncancelled_store | apply uncancelled_read_status | apply uncancelled_of_res]).
Qed.

Lemma wp_run {A} (p : M store_ans A) s (Q : res exn A → ref_store → Prop) : wp ref_step p s Q ↔ let '(r, s') := run p s in Q r s'.
Proof.
  revert s. induction p as [a|o k IH]; intros s; [done|]. unfold play. simpl.
  change (wp ref_step (Call o k) s Q) with (∀ x s1, (x, s1) = ref_call o s → wp ref_step (k x) s1 Q).
  destruct (ref_call o s) as [x s1] eqn:E. rewrite exec_index, <- IH. split; intros H; [by apply H|]. by intros x' s1' [= -> ->].
Qed.

Lemma uncancelled_of_store {A} (p : M store_ans A) : uncancelled ref_step p → uncancelled gov_step (of_store p).
Proof. intros Hp s. rewrite gwp_of_store. specialize (Hp s). by rewrite wp_run in Hp. Qed.

Lemma uncancelled_cancel_child self c : uncancelled gov_step (cancel_child self c).
Proof.
  unfold cancel_child. destruct (_lifecycle self); [|done]. apply uncancelled_except; [|done].
  apply uncancelled_seq; [|done]. apply uncancelled_of_store, uncancelled_lifecycle.
Qed.

Ltac gov_uncancelled :=
  prove_uncancelled ltac:(first [apply uncancelled_call | apply uncancelled_cancel_child | apply uncancelled_except]).

Lemma uncancelled_notify_one self p c b : uncancelled gov_step (_notify_one_child self p c b).
Proof. gov_uncancelled. Qed.

Lemma uncancelled_as_child id : uncancelled gov_step
  (let! rec := gov_call (GetTask id) in
   do! for_each (depends_on rec) (λ p, gov_call (SremActiveChild p id)) in
   if bool_decide (depends_on rec = []) then ret tt else gov_call (ClearCancelVotes id)).
Proof. gov_uncancelled. Qed.

(** *** What a notification changes *)

(** The calls of [lifecycle.cancel] *)
Definition cancel_op (id : string) (o : store_op) : Prop :=
  match o with GetTask i | RequestCancel i | UpdateTask i _ _ => i = id | _ => False end.

Lemma calls_read_status P r : calls P (read_status r).
Proof. unfold read_status, or_raise. destruct (r !! "status"%string) as [[| | | | |w| |]|]; try done. by destruct (of_word w). Qed.

Lemma calls_lifecycle_cancel id : calls (cancel_op id) (Lifecycle.cancel id).
Proof.
  unfold Lifecycle.cancel, transition_to, confirm_cancelled, get_status, get_task.
  prove_calls_with ltac:(first [apply calls_read_status | apply (calls_perform (ans := store_ans)); reflexivity | exact I]).
Qed.

Lemma calls_gov (P : gov_op → Prop) o : P (GStore o) → calls P (gov_call o).
Proof. by split. Qed.

Lemma calls_cancel_child (P : gov_op → Prop) self c : (∀ o, cancel_op c o → P (GStore o)) → calls P (cancel_child self c).
Proof.
  intros HP. unfold cancel_child. destruct (_lifecycle self); [|done]. apply calls_except; [|done]. apply calls_seq; [|done].
  apply calls_lift. eapply calls_weaken; [exact HP|]. apply calls_lifecycle_cancel.
Qed.

Ltac gov_calls tac :=
  prove_calls_with ltac:(first [apply calls_gov; solve [tac] | apply calls_cancel_child; solve [tac] | apply calls_except | apply calls_for_each]).

(** The dependencies of [c]: whose active child it is, and its counter *)
Definition keeps_deps (c : string) (s s' : ref_store) : Prop :=
  (∀ p, c ∈ active_of s' p ↔ c ∈ active_of s p) ∧ remaining s' !! c = remaining s !! c.

#[export] Instance keeps_deps_preorder c : PreOrder (keeps_deps c).
Proof. split; [by split|]. intros s1 s2 s3 [H1 E1] [H2 E2]. split; [intros p; by rewrite H2, H1|by rewrite E2, E1]. Qed.

Definition leaves_deps (c : string) (o : gov_op) : Prop :=
  match o with
  | GStore (SaddActiveChild _ c') | GStore (SremActiveChild _ c') | GStore (SetRemainingDeps c' _) | GStore (DecrRemainingDeps c') => c' ≠ c
  | _ => True
  end.

Lemma update_deps c id u v s : keeps_deps c s (update id u v s).2.
Proof. unfold update. destruct (tasks s !! id); [|done]. by destruct (allowed _ _ _). Qed.

Lemma leaves_deps_sound c o s x s' : leaves_deps c o → gov_step o s x s' → keeps_deps c s s'.
Proof.
  destruct o as [o|w|ev|e|root]; [|by intros _ [_ ->]..]. intros Hc Hs. apply (f_equal snd) in Hs. simpl in Hs. subst s'.
  destruct o as [id|id u v|id w parent ine|id|p|w limit|ids|p c'|p c'|p|id n|id|c' p n|c'|id c']; simpl; try done.
  - apply update_deps.
  - destruct (_ && _); [done|]. by destruct parent.
  - destruct (bool_decide _); [done|]. pose proof (update_deps c id {[ "cancel_requested"%string := JBool true ]} true s) as H.
    by destruct (update _ _ _ _) as [r s1].
  - split; [|done]. intros q. unfold active_of at 1. simpl. destruct (decide (p = q)) as [->|]; [rewrite lookup_insert_eq|by rewrite lookup_insert_ne].
    simpl in *. unfold active_of. set_solver.
  - split; [|done]. intros q. unfold active_of at 1. simpl. destruct (decide (p = q)) as [->|]; [rewrite lookup_insert_eq|by rewrite lookup_insert_ne].
    simpl in *. unfold active_of. set_solver.
  - split; [done|]. simpl. by rewrite lookup_insert_ne.
  - split; [done|]. simpl. by rewrite lookup_insert_ne.
Qed.

Lemma gwp_keeps_deps {A} c (p : govM A) s : calls (leaves_deps c) p → gwp p s (λ _ s', keeps_deps c s s').
Proof. apply wp_frame; [apply _|]. intros. by eapply leaves_deps_sound. Qed.

Lemma notify_one_other self p c' b c : c' ≠ c → calls (leaves_deps c) (_notify_one_child self p c' b).
Proof. intros Hne. unfold _notify_one_child. gov_calls ltac:(simpl; intros; by repeat case_match). Qed.

Definition counted_down (c : string) (s s' : ref_store) : Prop :=
  (∀ p, c ∈ active_of s' p ↔ c ∈ active_of s p) ∧ remaining s' !! c = Some (remaining_of s c - 1)%Z.

Lemma notify_one_ok self p c b s : gwp (_notify_one_child self p c b) s (λ r _, r = Ok tt).
Proof.
  unfold _notify_one_child. eapply wp_mono; [apply (except_ok _ _ (λ _, tt))|]; [gov_uncancelled|]. intros [[]|e] s1 [? ?]; done.
Qed.

Lemma notify_one_self self p c b s : gwp (_notify_one_child self p c b) s (λ r s', r = Ok tt ∧ counted_down c s s').
Proof.
  apply wp_and; [apply notify_one_ok|]. unfold _notify_one_child, except_exception. rewrite wp_catch, wp_seq, gwp_call. simpl.
  set (s1 := set_remaining _ s). assert (counted_down c s s1) as [H1 H2] by (split; [done|simpl; by rewrite lookup_insert_eq]).
  eapply wp_mono; [apply (gwp_keeps_deps c)|].
  - gov_calls ltac:(simpl; intros; by repeat case_match).
  - intros r s' [H3 H4]. assert (counted_down c s s') by (split; [intros q; by rewrite H3, H1|by rewrite H4, H2]).
    destruct r as [?|e]; [done|]. by destruct (is_exception e).
Qed.

Lemma notify_loop self p b c l s : NoDup l →
  gwp (for_each l (λ c', _notify_one_child self p c' b)) s (λ r s', r = Ok tt ∧
    (∀ q, c ∈ active_of s' q ↔ c ∈ active_of s q) ∧
    remaining s' !! c = if decide (c ∈ l) then Some (remaining_of s c - 1)%Z else remaining s !! c).
Proof.
  intros Hnd. revert s. induction Hnd as [|c' l Hc' _ IH]; intros s; [done|]. cbn [for_each]. rewrite wp_seq.
  destruct (decide (c' = c)) as [->|Hne].
  - eapply wp_mono; [apply notify_one_self|]. intros r s1 [-> [H1 H2]]. eapply wp_mono; [apply IH|]. simpl. intros r s2 (-> & H3 & H4).
    rewrite decide_False in H4 by done. rewrite decide_True by left. split_and!; [done|intros q; by rewrite H3, H1|congruence].
  - eapply wp_mono; [apply wp_and; [apply notify_one_ok|apply (gwp_keeps_deps c), notify_one_other; done]|].
    intros r s1 [-> [H1 H2]]. eapply wp_mono; [apply IH|]. simpl. intros r s2 (-> & H3 & H4). split_and!; [done|intros q; by rewrite H3, H1|].
    assert (remaining_of s1 c = remaining_of s c) as E by (unfold remaining_of; by rewrite H2). rewrite H4, E, H2.
    destruct (decide (c ∈ l)); [rewrite decide_True by (by right)|rewrite decide_False by set_solver]; done.
Qed.

Lemma elements_sorted (X : gset string) : NoDup (sorted_strings (elements X)) ∧ ∀ c, c ∈ sorted_strings (elements X) ↔ c ∈ X.
Proof.
  unfold sorted_strings. split; [|intros c; by rewrite elem_of_isort, elem_of_elements].
  rewrite isort_perm. apply NoDup_elements.
Qed.

Lemma notify_deps self p w c s : c ≠ p →
  gwp (notify_task_terminal self p w) s (λ r s', r = Ok tt ∧
    (∀ q, c ∈ active_of s' q ↔ c ∈ active_of s q) ∧
    remaining s' !! c = if decide (c ∈ active_of s p) then Some (remaining_of s c - 1)%Z else remaining s !! c).
Proof.
  intros Hne. unfold notify_task_terminal, except_exception. destruct (elements_sorted (active_of s p)) as [Hnd Hin].
  rewrite wp_seq, wp_catch, wp_seq, gwp_call. simpl. eapply wp_mono; [by apply (notify_loop self p _ c)|].
  intros r s1 (-> & H1 & H2). eapply wp_mono; [apply wp_and; [apply (except_ok _ _ (λ _, tt)), uncancelled_as_child|apply (gwp_keeps_deps c)]|].
  - apply calls_except; [|done]. gov_calls ltac:(simpl; done).
  - intros r s2 [Hr [H3 H4]]. split; [by destruct r as [[]|]; [|destruct Hr]|]. split; [intros q; by rewrite H3, H1|].
    rewrite H4, H2. by rewrite (decide_ext _ _ _ _ (Hin c)).
Qed.

(** *** Readiness *)

(** What happens around a registered task: notifications, and writes of records *)
Inductive event :=
  | Notified (task_id word : string)
  | Written (task_id : string) (updates : row) (validate : bool).

Definition handle (self : DependencyGovernor) (ev : event) : govM unit :=
  match ev with
  | Notified id w => notify_task_terminal self id w
  | Written id u v => except_exception (gov_call (UpdateTask id u v)) (λ _, ret tt)
  end.

Definition notified (l : list event) : list string := omap (λ ev, match ev with Notified id _ => Some id | Written _ _ _ => None end) l.

Lemma events_count self c l s n : c ∉ notified l → remaining s !! c = Some n →
  gwp (for_each l (handle self)) s (λ r s', r = Ok tt ∧ (∀ q, c ∈ active_of s' q ↔ c ∈ active_of s q) ∧
    remaining s' !! c = Some (n - Z.of_nat (length (filter (λ p, c ∈ active_of s p) (notified l))))%Z).
Proof.
  revert s n. induction l as [|ev l IH]; intros s n Hc Hn; cbn [for_each].
  { split_and!; [done..|]. rewrite Hn. f_equal. simpl. lia. }
  rewrite wp_seq. destruct ev as [p w|id u v]; simpl in Hc; cbn [handle].
  - eapply wp_mono; [apply (notify_deps self p w c); set_solver|]. intros r s1 (-> & H1 & H2).
    set (n1 := if decide (c ∈ active_of s p) then (n - 1)%Z else n).
    assert (remaining s1 !! c = Some n1) as Hn1.
    { rewrite H2. unfold n1. unfold remaining_of. rewrite Hn. by destruct (decide (c ∈ active_of s p)). }
    eapply wp_mono; [apply (IH s1 n1); [set_solver|done]|]. intros r s2 (-> & H3 & H4). split_and!; [done|intros q; by rewrite H3, H1|].
    rewrite H4. f_equal. simpl. rewrite filter_cons. unfold n1.
    assert (filter (λ p, c ∈ active_of s1 p) (notified l) = filter (λ p, c ∈ active_of s p) (notified l)) as ->.
    { apply list_filter_iff. intros q. apply H1. }
    destruct (decide (c ∈ active_of s p)); simpl; lia.
  - eapply wp_mono; [apply wp_and; [apply (except_ok _ _ (λ _, tt)), uncancelled_call|apply (gwp_keeps_deps c)]|].
    + apply calls_except; [|done]. gov_calls ltac:(done).
    + intros r s1 [Hr [H1 H2]]. destruct r as [[]|]; [|by destruct Hr].
      eapply wp_mono; [apply (IH s1 n); [done|by rewrite H2]|]. intros r s2 (-> & H3 & H4). split_and!; [done|intros q; by rewrite H3, H1|].
      rewrite H4. f_equal. simpl. assert (filter (λ p, c ∈ active_of s1 p) (notified l) = filter (λ p, c ∈ active_of s p) (notified l)) as ->; [|done].
      apply list_filter_iff. intros q. apply H1.
Qed.

Lemma ready_elem w s c : c ∈ ready_in w s ↔ ∃ n, remaining s !! c = Some n ∧ (n ≤ 0)%Z ∧ text_of (task_of s c) "status" = Some w.
Proof.
  unfold ready_in, sorted_strings. rewrite elem_of_isort, list_elem_of_fmap. split.
  - intros ([c' n] & -> & Hin). apply list_elem_of_filter in Hin as [[Hn Hw] Hin]. apply elem_of_map_to_list in Hin. by exists n.
  - intros (n & Hc & Hn & Hw). exists (c, n). split; [done|]. apply list_elem_of_filter. split; [done|]. by apply elem_of_map_to_list.
Qed.

(** *** The cycle check *)

(** The tasks a record refers to, and the ancestors of a task *)
Definition refs (s : ref_store) (n : string) : list string :=
  option_list (truthy_text (text_of (task_of s n) "parent_task_id")) ++ depends_on (task_of s n).
Definition ancestor (s : ref_store) : string → string → Prop := rtc (λ n m, m ∈ refs s n).

Definition ancestors_closed (s : ref_store) (A : gset string) : Prop := ∀ n m, n ∈ A → m ∈ refs s n → m ∈ A.

(** What the search found: [W] is what it has seen in the end. *)
Definition search_result (s : ref_store) (child : string) (V : gset string) (st : list string) (r : res exn bool) : Prop :=
  (r = Err ValueError ∧ ∃ n, n ∈ st ∧ ancestor s n child) ∨
  (r = Ok true ∧ ∃ W : gset string, V ⊆ W ∧ (∀ n, n ∈ st → n ∈ W) ∧ child ∉ W ∖ V ∧ ∀ n m, n ∈ W ∖ V → m ∈ refs s n → m ∈ W).

Definition pushed (s : ref_store) (n : string) (d : nat) (st : list (string * nat)) : list (string * nat) :=
  reverse ((λ dep, (dep, S d)) <$> depends_on (task_of s n)) ++
  match truthy_text (text_of (task_of s n) "parent_task_id") with Some p => (p, S d) :: st | None => st end.

Lemma elem_of_pushed s n d st m k : (m, k) ∈ pushed s n d st ↔ (m ∈ refs s n ∧ k = S d) ∨ (m, k) ∈ st.
Proof.
  unfold pushed, refs. rewrite !elem_of_app, elem_of_reverse, list_elem_of_fmap.
  destruct (truthy_text _) as [p|]; simpl; set_solver.
Qed.

Lemma no_cycle_expand fuel child V st n d s Q : n ≠ child → n ∉ V → (d < _MAX_LINEAGE_DEPTH)%nat →
  gwp (no_cycle_loop fuel child ({[n]} ∪ V) (pushed s n d st)) s Q → gwp (no_cycle_loop (S fuel) child V ((n, d) :: st)) s Q.
Proof.
  intros Hn HV Hd H. cbn [no_cycle_loop]. rewrite (bool_decide_false (n = child)), (bool_decide_false (n ∈ V)) by done.
  assert ((_MAX_LINEAGE_DEPTH <=? d)%nat = false) as -> by (apply Nat.leb_gt; lia). cbn [orb].
  rewrite wp_bind, gwp_call. exact H.
Qed.

Lemma no_cycle_search s child A : ancestors_closed s A → (size A ≤ _MAX_LINEAGE_DEPTH)%nat → ∀ k V st, (size (A ∖ V) ≤ k)%nat →
  V ⊆ A → (∀ n d, (n, d) ∈ st → n ∈ A ∧ (d ≤ size V)%nat) →
  ∃ N, ∀ fuel, (N ≤ fuel)%nat → gwp (no_cycle_loop fuel child V st) s (λ r s', s' = s ∧ search_result s child V st.*1 r).
Proof.
  intros Hcl Hsz k. induction k as [k IHk] using lt_wf_ind. intros V st Hk HV. revert Hk. induction st as [|[n d] st IHst]; intros Hk Hst.
  { exists 1%nat. intros [|fuel] Hf; [lia|]. split; [done|]. right. split; [done|]. exists V. set_solver. }
  destruct (Hst n d) as [HnA Hd]; [left|]. destruct (decide (n = child)) as [->|Hn].
  { exists 1%nat. intros [|fuel] Hf; [lia|]. cbn [no_cycle_loop]. rewrite bool_decide_true by done. split; [done|]. left. split; [done|].
    exists child. split; [left|apply rtc_refl]. }
  destruct (decide (n ∈ V)) as [HnV|HnV].
  - destruct IHst as [N HN]; [done|intros m e Hm; apply Hst; by right|]. exists (S N). intros [|fuel] Hf; [lia|]. cbn [no_cycle_loop].
    rewrite (bool_decide_false (n = child)), (bool_decide_true (n ∈ V)) by done. simpl. eapply wp_mono; [apply HN; lia|].
    intros r s' [-> Hr]. split; [done|]. destruct Hr as [(-> & m & Hm & Hr)|(-> & W & H1 & H2 & H3 & H4)]; [left|right]; (split; [done|]).
    + exists m. split; [by right|done].
    + exists W. set_solver.
  - assert (size ({[n]} ∪ V) = S (size V)) as HsV by (rewrite size_union, size_singleton by set_solver; lia).
    assert (size V < size A)%nat by (rewrite <- Nat.le_succ_l, <- HsV; apply subseteq_size; set_solver).
    assert (size (A ∖ ({[n]} ∪ V)) < size (A ∖ V))%nat by (apply subset_size; set_solver).
    destruct (IHk (size (A ∖ ({[n]} ∪ V))) ltac:(lia) ({[n]} ∪ V) (pushed s n d st)) as [N HN]; [lia|set_solver| |].
    { intros m e [[Hm ->]|Hm]%elem_of_pushed; [split; [by eapply Hcl|lia]|]. destruct (Hst m e); [by right|]. split; [done|lia]. }
    exists (S N). intros [|fuel] Hf; [lia|]. apply no_cycle_expand; [done..|lia|]. eapply wp_mono; [apply HN; lia|].
    intros r s' [-> Hr]. split; [done|].
    assert (∀ m, m ∈ (pushed s n d st).*1 ↔ m ∈ refs s n ∨ m ∈ st.*1) as Hp.
    { intros m. rewrite !list_elem_of_fmap. split.
      - intros ([m' e] & -> & Hm). apply elem_of_pushed in Hm as [[Hm _]|Hm]; [by left|right; by exists (m', e)].
      - intros [Hm|([m' e] & -> & Hm)]; [exists (m, S d)|exists (m', e)]; (split; [done|]); apply elem_of_pushed; auto. }
    destruct Hr as [(-> & m & Hm & Hr)|(-> & W & H1 & H2 & H3 & H4)]; [left|right]; (split; [done|]).
    + apply Hp in Hm as [Hm|Hm]; [|exists m; split; [by right|done]]. exists n. split; [left|]. by eapply rtc_l.
    + exists W. simpl. split_and!; [set_solver|intros m Hm; apply elem_of_cons in Hm as [->|Hm]; [set_solver|apply H2, Hp; by right]|set_solver|].
      intros m m' Hm Hr. destruct (decide (m = n)) as [->|]; [apply H2, Hp; by left|]. apply (H4 m); [set_solver|done].
Qed.

(** C36: the cycle check of a registration is exact on ancestries of at most
    _MAX_LINEAGE_DEPTH tasks: with enough steps the search ends, raises
    ValueError if the child is an ancestor of one of its parents, and lets the
    registration through if it is not; it never changes the store. *)
Theorem cycle_check_exact s child parents (A : gset string) :
  ancestors_closed s A → (size A ≤ _MAX_LINEAGE_DEPTH)%nat → (∀ p, p ∈ parents → p ∈ A) →
  ∃ N, ∀ fuel, (N ≤ fuel)%nat → gwp (_assert_no_cycle fuel child parents) s (λ r s', s' = s ∧
    ((∃ p, p ∈ parents ∧ ancestor s p child) ∧ r = Err ValueError ∨ (∀ p, p ∈ parents → ¬ ancestor s p child) ∧ r = Ok true)).
Proof.
  intros Hcl Hsz HA. destruct (no_cycle_search s child A Hcl Hsz (size (A ∖ ∅)) ∅ (reverse ((λ pid, (pid, 0%nat)) <$> parents))) as [N HN]; [done|set_solver| |].
  { intros n d. rewrite elem_of_reverse, list_elem_of_fmap. intros (p & [= -> ->] & Hp). split; [by apply HA|lia]. }
  assert (∀ p, p ∈ (reverse ((λ pid, (pid, 0%nat)) <$> parents)).*1 ↔ p ∈ parents) as Hp.
  { intros p. rewrite fmap_reverse, elem_of_reverse, <- list_fmap_compose. by rewrite list_fmap_id. }
  exists N. intros fuel Hf. eapply wp_mono; [by apply HN|]. intros r s' [-> Hr]. split; [done|].
  destruct Hr as [(-> & n & Hn & Hr)|(-> & W & H1 & H2 & H3 & H4)]; [left; split; [exists n; by rewrite <- Hp|done]|right].
  split; [|done]. intros p Hin Hr. assert (child ∈ W) as Hc; [|set_solver]. assert (p ∈ W) as HpW by (by apply H2, Hp). clear Hin.
  induction Hr as [m|m m' m'' Hm Hr IH]; [done|]. apply IH; [done..|]. apply (H4 m); [set_solver|done].
Qed.

(** *** Registration *)

Definition same_tasks (s s' : ref_store) : Prop := tasks s' = tasks s.

Lemma parents_records_ok s l : (∀ p, p ∈ l → task_of s p ≠ ∅) →
  gwp (parents_records l) s (λ r s', s' = s ∧ r = Ok ((λ p, (p, task_of s p)) <$> l)).
Proof.
  induction l as [|p l IH]; intros Hl; [done|]. cbn [parents_records]. unfold _get_record. wp_simp. rewrite gwp_call. simpl.
  rewrite bool_decide_false by (apply Hl; left). wp_simp. eapply wp_mono; [apply IH; intros q Hq; apply Hl; by right|].
  intros r s' [-> ->]. by wp_simp.
Qed.

Lemma chain_loop_ok s fuel cur V acc : gwp (chain_loop fuel cur V acc) s (λ r s', s' = s ∧ ∃ l, r = Ok l).
Proof.
  assert (∀ acc, gwp (ret acc) s (λ r s', s' = s ∧ ∃ l : list string, r = Ok l)) as Hret by (intros a; rewrite wp_ret; by eauto).
  revert cur V acc. induction fuel as [|fuel IH]; intros cur V acc; [apply Hret|]. destruct cur as [node|]; [|apply Hret].
  cbn [chain_loop]. destruct (bool_decide (node ∈ V)); [apply Hret|]. rewrite wp_bind, gwp_call. cbn beta iota zeta delta [ref_call fst snd].
  case_match; [exact (Hret _)|]. destruct (_ && _); [exact (Hret _)|]. apply IH.
Qed.

Lemma add_children child l s : gwp (for_each l (λ pid, gov_call (SaddActiveChild pid child))) s (λ r s', r = Ok tt ∧
  tasks s' = tasks s ∧ (∀ q, child ∈ active_of s' q ↔ child ∈ active_of s q ∨ q ∈ l)).
Proof.
  revert s. induction l as [|p l IH]; intros s; cbn [for_each]; [split_and!; [done..|set_solver]|]. rewrite wp_seq, (gwp_call (SaddActiveChild p child)). cbn [ref_call fst snd].
  eapply wp_mono; [apply IH|]. intros r s' (-> & H1 & H2). split_and!; [done|done|]. intros q. rewrite H2. unfold active_of at 1. simpl.
  destruct (decide (p = q)) as [->|]; [rewrite lookup_insert_eq|rewrite lookup_insert_ne by done]; unfold active_of; set_solver.
Qed.

Lemma cast_votes_ok child thr l b s : gwp (cast_votes child thr l b) s (λ r s', (∃ b, r = Ok b) ∧ tasks s' = tasks s ∧ keeps_deps child s s').
Proof.
  revert b s. induction l as [|p l IH]; intros b s; cbn [cast_votes]; [split_and!; [by eexists|done|done]|].
  rewrite wp_seq, gwp_call. cbn [ref_call fst snd]. eapply wp_mono; [apply IH|]. intros r s' (H1 & H2 & H3 & H4). by split_and!.
Qed.

Lemma recheck_quiet self child thr l b s : (∀ p, p ∈ l → _is_terminal self (status_text (task_of s p)) = false) →
  gwp (recheck self child thr l b) s (λ r s', r = Ok b ∧ s' = s).
Proof.
  induction l as [|p l IH]; intros Hl; [done|]. cbn [recheck]. rewrite wp_bind, gwp_call. cbn beta iota zeta delta [ref_call fst snd].
  rewrite Hl by left. apply IH. intros q Hq. apply Hl. by right.
Qed.

Lemma cancel_child_ok self c s : gwp (cancel_child self c) s (λ r s', r = Ok tt ∧ keeps_deps c s s').
Proof.
  apply wp_and; [|apply gwp_keeps_deps, calls_cancel_child; by intros []]. unfold cancel_child. destruct (_lifecycle self); [|done].
  eapply wp_mono; [apply (except_ok _ _ (λ _, tt))|intros [[]|] s1 H; [done|by destruct H]]. apply uncancelled_seq; [|done].
  apply uncancelled_of_store, uncancelled_lifecycle.
Qed.

Lemma gwp_append ev s (Q : res exn unit → ref_store → Prop) : (∀ x, x ≠ Err CancelledError → Q x s) → gwp (perform (AuditAppend ev)) s Q.
Proof. intros H x s1 Hs. destruct Hs as [Hx ->]. exact (H x Hx). Qed.

Lemma gwp_write ev s (Q : res exn unit → ref_store → Prop) : (∀ x, x ≠ Err CancelledError → Q x s) → gwp (perform (WriteDependency ev)) s Q.
Proof. intros H x s1 Hs. destruct Hs as [Hx ->]. exact (H x Hx). Qed.

Lemma is_exception_true e : Err (A := unit) e ≠ Err CancelledError → is_exception e = true.
Proof. intros H. apply bool_decide_eq_true. congruence. Qed.

Lemma emit_audit_ok self ev s : gwp (_emit_audit self ev) s (λ r s', r = Ok tt ∧ s' = s).
Proof.
  unfold _emit_audit. destruct (_audit self); [|done]. unfold except_exception. rewrite wp_catch. apply gwp_append.
  intros [[]|e] Hx; [done|]. by rewrite is_exception_true.
Qed.

Lemma write_edge_ok self child primary p s : gwp (write_edge self child primary p) s (λ r s', r = Ok tt ∧ s' = s).
Proof.
  unfold write_edge, except_exception. rewrite wp_catch. apply gwp_write.
  intros [[]|e] Hx; [done|]. rewrite is_exception_true by done. apply emit_audit_ok.
Qed.

Lemma write_edges_ok self child primary l s : gwp (for_each l (write_edge self child primary)) s (λ r s', r = Ok tt ∧ s' = s).
Proof.
  induction l as [|p l IH]; [done|]. cbn [for_each]. rewrite wp_seq. eapply wp_mono; [apply write_edge_ok|]. by intros r s' [-> ->].
Qed.

(** The parents that are not over yet *)
Definition waiting (self : DependencyGovernor) (s : ref_store) (parents : list string) : list string :=
  filter (λ p, _is_terminal self (status_text (task_of s p)) = false) parents.

(** A registration that nothing speaks against *)
Record registrable (s : ref_store) (child : string) (parents : list string) (primary : option string) (exempt : option (list string)) : Prop := {
  reg_child : task_of s child ≠ ∅;
  reg_parents : ∀ p, p ∈ parents → task_of s p ≠ ∅;
  reg_some : parents ≠ [];
  reg_primary : ∀ p, truthy_text primary = Some p → p ∈ parents;
  reg_exempt : ∀ l, exempt = Some l → (length l ≤ MAX_EXEMPT_RESOURCES)%nat;
  reg_acyclic : ∀ p, p ∈ parents → ¬ ancestor s p child;
  reg_bounded : ∃ A : gset string, ancestors_closed s A ∧ (size A ≤ _MAX_LINEAGE_DEPTH)%nat ∧ ∀ p, p ∈ parents → p ∈ A
}.

Lemma dedupe_spec seen l : (∀ a, a ∈ dedupe seen l ↔ a ∈ l ∧ a ∉ seen) ∧ NoDup (dedupe seen l).
Proof.
  revert seen. induction l as [|a l IH]; intros seen; simpl; [split; [set_solver|constructor]|].
  destruct (IH seen) as [H1 H2], (IH (a :: seen)) as [H3 H4]. case_bool_decide as Ha.
  - split; [|done]. intros b. rewrite H1. set_solver.
  - split; [|constructor; [rewrite H3; set_solver|done]]. intros b. rewrite elem_of_cons, H3. destruct (decide (b = a)); set_solver.
Qed.

Lemma elem_of_dedupe a l : a ∈ dedupe [] l ↔ a ∈ l.
Proof. rewrite (proj1 (dedupe_spec [] l)). set_solver. Qed.

Lemma select_records {A} (f : string → A) (P : A → Prop) `{∀ a, Decision (P a)} ps :
  (filter (λ pr : string * A, P pr.2) ((λ p, (p, f p)) <$> ps)).*1 = filter (λ p, P (f p)) ps.
Proof. rewrite (filter_fmap_comm _ (λ p, P (f p)) (λ pr : string * A, P pr.2)) by done. rewrite <- list_fmap_compose. apply list_fmap_id. Qed.

(** From the writes on *)
Lemma register_writes self child ps primary snapshot abnormal s : task_of s child ≠ ∅ → child ∉ ps →
  let counted := waiting self s ps in
  gwp (do! for_each counted (λ pid, gov_call (SaddActiveChild pid child)) in
       let! triggered := cast_votes child (Z.of_nat (length ps)) abnormal false in
       do! gov_call (UpdateTask child {[ "depends_on" := JArr (JStr <$> ps); "primary_parent" := JStr primary;
             "exempt_resources_snapshot" := JArr (JStr <$> snapshot) ]}%string true) in
       do! gov_call (SetRemainingDeps child (Z.of_nat (length counted))) in
       let! triggered := recheck self child (Z.of_nat (length ps)) counted triggered in
       do! (if _dep_graph_store self then for_each ps (write_edge self child primary) else ret tt) in
       if triggered then cancel_child self child else ret tt) s
    (λ r s', r = Ok tt ∧ remaining s' !! child = Some (Z.of_nat (length counted)) ∧
       ∀ q, child ∈ active_of s' q ↔ child ∈ active_of s q ∨ q ∈ counted).
Proof.
  intros Hchild Hps counted. rewrite wp_seq. eapply wp_mono; [apply add_children|]. intros r s1 (-> & Ht1 & Ha1).
  rewrite wp_seq. eapply wp_mono; [apply cast_votes_ok|]. intros r s2 ([b ->] & Ht2 & Ha2 & _).
  rewrite wp_seq, (gwp_call (UpdateTask _ _ _)). cbn [ref_call]. set (u := <[ "depends_on"%string := _ ]> _ : row).
  unfold update. destruct (tasks s2 !! child) as [cur|] eqn:Ec.
  2:{ unfold task_of in Hchild. by rewrite <- Ht1, <- Ht2, Ec in Hchild. }
  assert (allowed true cur u = true) as -> by done. cbn [fst snd]. rewrite wp_seq, (gwp_call (SetRemainingDeps _ _)). cbn [ref_call fst snd].
  rewrite wp_seq. eapply wp_mono; [apply recheck_quiet|].
  { intros p Hp. apply list_elem_of_filter in Hp as [Hp Hin]. rewrite <- Hp. unfold task_of. simpl. rewrite lookup_insert_ne by (by intros ->).
    by rewrite Ht2, Ht1. }
  intros r s3 [-> ->]. set (s3 := set_remaining _ _). assert (remaining s3 !! child = Some (Z.of_nat (length counted))) as Hr3 by (simpl; by rewrite lookup_insert_eq).
  rewrite wp_seq. eapply (wp_mono _ _ _ (λ r s', r = Ok tt ∧ s' = s3)); [destruct (_dep_graph_store self); [apply write_edges_ok|done]|].
  intros r s4 [-> ->]. assert (∀ q, child ∈ active_of s3 q ↔ child ∈ active_of s q ∨ q ∈ counted) as Ha3 by (intros q; rewrite <- Ha1, <- Ha2; done).
  destruct b; [|done]. eapply wp_mono; [apply cancel_child_ok|]. intros r s5 [-> [Ha5 Hr5]]. split_and!; [done|by rewrite Hr5|]. intros q. by rewrite Ha5, Ha3.
Qed.

Lemma register_ok self child parents primary exempt s : registrable s child parents primary exempt →
  ∃ N, ∀ fuel, (N ≤ fuel)%nat → gwp (register_dependency self fuel child parents primary exempt) s
    (λ r s', r = Ok tt ∧ remaining s' !! child = Some (Z.of_nat (length (waiting self s (dedupe [] parents)))) ∧
       ∀ q, child ∈ active_of s' q ↔ child ∈ active_of s q ∨ q ∈ waiting self s (dedupe [] parents)).
Proof.
  intros [Hc Hp Hne Hprim Hex Hacy (A & Hcl & Hsz & HA)]. set (ps := dedupe [] parents).
  assert (∀ p, p ∈ ps ↔ p ∈ parents) as Hps by (intros p; apply elem_of_dedupe).
  destruct (no_cycle_search s child A Hcl Hsz (size (A ∖ ∅)) ∅ (reverse ((λ pid, (pid, 0%nat)) <$> ps))) as [N HN]; [done|set_solver| |].
  { intros n d. rewrite elem_of_reverse, list_elem_of_fmap. intros (p & [= -> ->] & Hin). split; [by apply HA, Hps|lia]. }
  exists N. intros fuel Hf. unfold register_dependency. rewrite bool_decide_false by done. fold ps.
  rewrite wp_seq. unfold _get_record at 1. rewrite wp_seq, gwp_call. cbn [ref_call fst snd]. rewrite bool_decide_false by done. rewrite wp_ret.
  rewrite wp_seq. eapply wp_mono; [apply parents_records_ok; intros p Hin; by apply Hp, Hps|]. intros r s1 [-> ->].
  rewrite wp_seq. eapply wp_mono; [by apply HN|]. intros r s1 [-> Hr].
  assert (r = Ok true) as ->.
  { destruct Hr as [(-> & n & Hn & Hr)|[-> _]]; [|done]. exfalso. apply (Hacy n); [|done]. apply Hps.
    rewrite fmap_reverse, elem_of_reverse, <- list_fmap_compose, list_fmap_id in Hn. done. }
  cbn [negb]. cbv zeta. set (prim := default _ (truthy_text primary)).
  assert (prim ∈ ps) as Hin.
  { unfold prim. destruct (truthy_text primary) as [p|] eqn:E; [by apply Hps, Hprim|]. simpl. destruct ps as [|p ps'] eqn:Eps; [|left].
    exfalso. destruct parents as [|p l]; [done|]. assert (p ∈ []) as H by (apply Hps; left). by apply not_elem_of_nil in H. }
  rewrite (bool_decide_true _ Hin). cbn [negb].
  rewrite wp_seq. eapply (wp_mono _ _ _ (λ r s', s' = s ∧ ∃ l, r = Ok l)).
  { destruct exempt as [l|]; [|apply chain_loop_ok]. specialize (Hex l eq_refl). assert ((MAX_EXEMPT_RESOURCES <? length l)%nat = false) as -> by (apply Nat.ltb_ge; lia). rewrite wp_ret. by eauto. }
  intros r s1 [-> [snapshot ->]]. 
  assert ((filter (λ pr : string * row, _is_terminal self (status_text pr.2) = false) ((λ p, (p, task_of s p)) <$> ps)).*1 = waiting self s ps) as ->
    by exact (select_records (task_of s) (λ r, _is_terminal self (status_text r) = false) ps).
  pose proof (register_writes self child ps prim snapshot) as Hw. cbv zeta in Hw. apply Hw; [done|].
  intros Hin'. apply (Hacy child); [by apply Hps|apply rtc_refl].
Qed.

Lemma count_all (l k : list string) : NoDup l → NoDup k →
  (Z.of_nat (length k) - Z.of_nat (length (filter (λ p, p ∈ k) l)) ≤ 0)%Z ↔ ∀ p, p ∈ k → p ∈ l.
Proof.
  intros Hl Hk. set (f := filter (λ p, p ∈ k) l). assert (NoDup f) as Hf by by apply NoDup_filter.
  assert (∀ p, p ∈ f ↔ p ∈ k ∧ p ∈ l) as Hin by (intros p; unfold f; by rewrite list_elem_of_filter). split.
  - intros Hle p Hp. apply Hin. assert (f ⊆+ k) as Hsub by (apply NoDup_submseteq; [done|]; intros q Hq; by apply Hin in Hq as [? _]).
    assert (f ≡ₚ k) as -> by (apply submseteq_length_Permutation; [done|lia]). done.
  - intros Hall. assert (k ⊆+ f) as Hsub%submseteq_length; [|lia]. apply NoDup_submseteq; [done|]. intros q Hq. apply Hin. auto.
Qed.

(** C5: readiness.  Register a task that depends on a list of parents (in any
    order, with repetitions, some of them over already), when it can be
    registered ([registrable]): the records of the task and of its parents
    exist, there is a parent, the primary parent is one of them, the exempt
    resources are within their bound, no parent descends from the task, and
    the ancestry of the parents holds at most 32 tasks; and the task is in no
    parent's active set yet.  Then let the other tasks be notified, each at most
    once, in any order, successes and failures alike, while records are
    written.  Under these conditions neither the registration nor the
    notifications raise, whatever the audit writer and the graph store do, and
    the task is ready exactly when its own status is the ready word and every
    parent was over at registration or has been notified. *)
Theorem readiness self child parents primary exempt evs s :
  registrable s child parents primary exempt → (∀ p, child ∉ active_of s p) → NoDup (notified evs) → child ∉ notified evs →
  ∃ N, ∀ fuel, (N ≤ fuel)%nat →
    gwp (do! register_dependency self fuel child parents primary exempt in do! for_each evs (handle self) in get_ready_tasks self) s
      (λ r s', ∃ l, r = Ok l ∧ (child ∈ l ↔ text_of (task_of s' child) "status" = Some (_ready_status self) ∧
         ∀ p, p ∈ parents → _is_terminal self (status_text (task_of s p)) = true ∨ p ∈ notified evs)).
Proof.
  intros Hreg Hact Hnd Hc. destruct (register_ok self _ _ _ _ _ Hreg) as [N HN]. exists N. intros fuel Hf.
  rewrite wp_seq. eapply wp_mono; [by apply HN|]. intros r s1 (-> & Hr1 & Ha1). set (k := waiting self s _) in *.
  rewrite wp_seq. eapply wp_mono; [by apply events_count|]. intros r s2 (-> & Ha2 & Hr2).
  intros x s3 Hs. destruct Hs as [-> ->]. exists (ready_in (_ready_status self) s2). split; [done|]. rewrite ready_elem.
  assert (filter (λ p, child ∈ active_of s1 p) (notified evs) = filter (λ p, p ∈ k) (notified evs)) as E.
  { apply list_filter_iff. intros p. rewrite Ha1. specialize (Hact p). tauto. }
  rewrite E in Hr2. assert (NoDup k) as Hk by (apply NoDup_filter, dedupe_spec). pose proof (count_all (notified evs) k Hnd Hk) as Hcount.
  assert ((∀ p, p ∈ k → p ∈ notified evs) ↔ ∀ p, p ∈ parents → _is_terminal self (status_text (task_of s p)) = true ∨ p ∈ notified evs) as Hall.
  { unfold k, waiting. split.
    - intros H p Hp. destruct (_is_terminal self (status_text (task_of s p))) eqn:Et; [by left|right]. apply H, list_elem_of_filter. by rewrite elem_of_dedupe.
    - intros H p Hp. apply list_elem_of_filter in Hp as [Hp Hin]. rewrite elem_of_dedupe in Hin. destruct (H p Hin); congruence. }
  rewrite <- Hall, <- Hcount. split.
  - intros (n & Hn & Hle & Hw). rewrite Hr2 in Hn. by injection Hn as <-.
  - intros [Hw Hle]. eauto.
Qed.

(** *** Votes *)

(** The record and the votes of [c] *)
Definition keeps_votes (c : string) (s s' : ref_store) : Prop := tasks s' !! c = tasks s !! c ∧ votes_of s' c = votes_of s c.

#[export] Instance keeps_votes_preorder c : PreOrder (keeps_votes c).
Proof. split; [by split|]. intros s1 s2 s3 [H1 E1] [H2 E2]. split; congruence. Qed.

Definition leaves_votes (c : string) (o : gov_op) : Prop :=
  match o with
  | GStore (UpdateTask c' _ _) | GStore (InitializeTask c' _ _ _) | GStore (RequestCancel c')
  | GStore (VoteAndCheck c' _ _) | GStore (ClearCancelVotes c') => c' ≠ c
  | _ => True
  end.

Lemma update_votes c id u v s : id ≠ c → keeps_votes c s (update id u v s).2.
Proof.
  intros Hne. unfold update. destruct (tasks s !! id); [|done]. destruct (allowed _ _ _); [|done]. split; [|done]. simpl. by rewrite lookup_insert_ne.
Qed.

Lemma leaves_votes_sound c o s x s' : leaves_votes c o → gov_step o s x s' → keeps_votes c s s'.
Proof.
  destruct o as [o|w|ev|e|root]; [|by intros _ [_ ->]..]. intros Hc Hs. apply (f_equal snd) in Hs. simpl in Hs. subst s'.
  destruct o as [id|id u v|id w parent ine|id|p|w limit|ids|p c'|p c'|p|id n|id|c' p n|c'|id c']; simpl; try done.
  - by apply update_votes.
  - destruct (_ && _); [done|]. destruct parent; split; try done; simpl; by rewrite lookup_insert_ne.
  - destruct (bool_decide _); [done|]. pose proof (update_votes c id {[ "cancel_requested"%string := JBool true ]} true s Hc) as H.
    by destruct (update _ _ _ _) as [r s1].
  - split; [done|]. unfold votes_of. simpl. by rewrite lookup_insert_ne.
  - split; [done|]. unfold votes_of. simpl. by rewrite lookup_delete_ne.
Qed.

Lemma gwp_keeps_votes {A} c (p : govM A) s : calls (leaves_votes c) p → gwp p s (λ _ s', keeps_votes c s s').
Proof. apply wp_frame; [apply _|]. intros. by eapply leaves_votes_sound. Qed.

(** The votes of [c], whose record was [r] when nobody had voted: [V] are the
    parents that have voted; with the last of them [c] is cancelled. *)
Definition all_voted (r : row) (V : gset string) : Prop := ∀ p, p ∈ depends_on r → p ∈ V.
#[export] Instance all_voted_dec r V : Decision (all_voted r V).
Proof. refine (cast_if (decide (Forall (λ p, p ∈ V) (depends_on r)))); unfold all_voted; by rewrite <- Forall_forall. Defined.

Definition tally (c : string) (r : row) (V : gset string) (s : ref_store) : Prop :=
  if decide (all_voted r V) then tasks s !! c = Some (cancelled_record r) else tasks s !! c = Some r ∧ votes_of s c = V.

Lemma tally_keeps c r V s s' : keeps_votes c s s' → tally c r V s → tally c r V s'.
Proof. intros [H1 H2]. unfold tally. by rewrite H1, H2. Qed.

(** [c] when it may still be cancelled *)
Record electorate (self : DependencyGovernor) (c : string) (r : row) : Prop := {
  el_lifecycle : _lifecycle self = true;
  el_live : ∃ status, live_record r status;
  el_open : _is_terminal self (status_text r) = false;
  el_closed : _is_terminal self (word CANCELLED) = true;
  el_parents : depends_on r ≠ [];
  el_nodup : NoDup (depends_on r)
}.

Definition added (r : row) (q : string) (V : gset string) : gset string := if decide (q ∈ depends_on r) then {[q]} ∪ V else V.

Lemma quorum r V q : NoDup (depends_on r) → V ⊆ list_to_set (depends_on r) → q ∈ depends_on r →
  (Z.of_nat (length (depends_on r)) <=? Z.of_nat (size ({[q]} ∪ V)))%Z = bool_decide (all_voted r ({[q]} ∪ V)).
Proof.
  intros Hnd HV Hq. set (D := list_to_set (depends_on r) : gset string). assert (length (depends_on r) = size D) as ->.
  { unfold D. by rewrite size_list_to_set. }
  assert ({[q]} ∪ V ⊆ D) as Hsub by (unfold D; set_solver). case_bool_decide as Ha.
  - assert ({[q]} ∪ V = D) as -> by (apply set_eq; unfold D, all_voted in *; set_solver). apply Z.leb_le. lia.
  - apply Z.leb_gt. assert ({[q]} ∪ V ⊂ D) as Hss%subset_size; [|lia]. split; [done|]. intros H. apply Ha. intros p Hp. apply H. unfold D. set_solver.
Qed.

Lemma gwp_cancel_child self c r s : electorate self c r → tasks s !! c = Some r →
  gwp (cancel_child self c) s (λ x s', x = Ok tt ∧ tasks s' !! c = Some (cancelled_record r)).
Proof.
  intros [Hl [st Hlive] _ _ _ _] Hr. unfold cancel_child. rewrite Hl. unfold except_exception. rewrite wp_catch, wp_seq, gwp_of_store.
  rewrite (run_cancel c r st s Hr Hlive). rewrite wp_ret. split; [done|]. simpl. by rewrite lookup_insert_eq.
Qed.

Lemma cancelled_status r : cancelled_record r !! "status"%string = Some (JStr (word CANCELLED)).
Proof. unfold cancelled_record. rewrite lookup_union, lookup_singleton_eq. by destruct ((_ ∪ r) !! _). Qed.

Lemma cancelled_nonempty r : cancelled_record r ≠ ∅.
Proof. intros E. pose proof (cancelled_status r) as H. by rewrite E, lookup_empty in H. Qed.

Lemma cancelled_text r : status_text (cancelled_record r) = word CANCELLED.
Proof. unfold status_text, text_of. by rewrite cancelled_status. Qed.

(** A vote, by [vote_cancel] or by a notification *)
Lemma ballot_tally {B} self c q r V s (k1 : govM B) (k2 : bool → govM B) (Q : res exn B → ref_store → Prop) :
  electorate self c r → V ⊆ list_to_set (depends_on r) → tally c r V s →
  (∀ s', tally c r (added r q V) s' → gwp k1 s' Q) →
  (∀ (b : bool) s', (if b then gwp (cancel_child self c) s' (λ x s2, x = Ok tt ∧ tally c r (added r q V) s2) else tally c r (added r q V) s') → gwp (k2 b) s' Q) →
  gwp (let! rec := gov_call (GetTask c) in
       if bool_decide (rec = ∅) then k1
       else if _is_terminal self (status_text rec) then k1
       else if negb (bool_decide (q ∈ depends_on rec)) then k1
       else let! reached := gov_call (VoteAndCheck c q (Z.of_nat (length (depends_on rec)))) in k2 reached) s Q.
Proof.
  intros Hel HV Ht H1 H2. pose proof Hel as [Hl [st [Hw Hlive]] Hopen Hclosed Hne Hnd]. rewrite wp_seq, (gwp_call (GetTask c)). cbn [ref_call fst snd].
  unfold tally in Ht. destruct (decide (all_voted r V)) as [Hall|Hall].
  - assert (task_of s c = cancelled_record r) as -> by (unfold task_of; by rewrite Ht). rewrite bool_decide_false by apply cancelled_nonempty.
    rewrite cancelled_text, Hclosed. apply H1. unfold tally. rewrite decide_True; [done|].
    unfold added, all_voted in *. intros p Hp. destruct (decide _); set_solver.
  - destruct Ht as [Ht Hv]. assert (task_of s c = r) as -> by (unfold task_of; by rewrite Ht). rewrite bool_decide_false by by eapply word_nonnull. rewrite Hopen.
    case_bool_decide as Hq; cbn [negb].
    2:{ apply H1. unfold added. rewrite decide_False by done. unfold tally. by rewrite decide_False. }
    rewrite wp_seq, (gwp_call (VoteAndCheck _ _ _)). cbn [ref_call fst snd]. rewrite Hv, quorum by done. apply H2. unfold added. rewrite decide_True by done.
    case_bool_decide as Hq'.
    + eapply wp_mono; [by eapply gwp_cancel_child|]. intros x s' [-> Hs']. split; [done|]. unfold tally. by rewrite decide_True.
    + unfold tally. rewrite decide_False by done. split; [done|]. unfold votes_of. simpl. by rewrite lookup_insert_eq.
Qed.

Lemma added_subset r q V : V ⊆ list_to_set (depends_on r) → added r q V ⊆ list_to_set (depends_on r).
Proof. unfold added. destruct (decide _); set_solver. Qed.

Lemma vote_cancel_tally self c q r V s : electorate self c r → V ⊆ list_to_set (depends_on r) → tally c r V s →
  gwp (vote_cancel self q c) s (λ x s', (∃ b, x = Ok b) ∧ tally c r (added r q V) s').
Proof.
  intros Hel HV Ht. unfold vote_cancel. apply (ballot_tally self c q r V s (ret false) (λ b : bool, if b then do! cancel_child self c in ret true else ret false)); [done..| |].
  - intros s' H. rewrite wp_ret. eauto.
  - intros [] s' H; [|rewrite wp_ret; by eauto]. rewrite wp_seq. eapply wp_mono; [exact H|]. intros x s2 [-> H2]. rewrite wp_ret. eauto.
Qed.

Lemma notify_one_tally self c q r V b s : electorate self c r → V ⊆ list_to_set (depends_on r) → tally c r V s →
  gwp (_notify_one_child self q c b) s (λ x s', x = Ok tt ∧ tally c r (if b then V else added r q V) s').
Proof.
  intros Hel HV Ht. unfold _notify_one_child, except_exception. rewrite wp_catch, wp_seq, (gwp_call (DecrRemainingDeps c)). cbn [ref_call fst snd].
  set (s1 := set_remaining _ s). assert (tally c r V s1) as Ht1 by exact Ht. destruct b; [by rewrite wp_ret|].
  apply (ballot_tally self c q r V s1 (ret tt) (λ b : bool, if b then cancel_child self c else ret tt)); [done..| |].
  - intros s' H. by rewrite wp_ret.
  - intros [] s' H; [|by rewrite wp_ret]. eapply wp_mono; [exact H|]. by intros x s2 [-> H2].
Qed.

Lemma notify_one_leaves self p c' b c : c' ≠ c → calls (leaves_votes c) (_notify_one_child self p c' b).
Proof. intros Hne. unfold _notify_one_child. gov_calls ltac:(simpl; intros; repeat case_match; naive_solver). Qed.

Lemma notify_loop_tally self c q r V b l s : NoDup l → electorate self c r → V ⊆ list_to_set (depends_on r) → tally c r V s →
  gwp (for_each l (λ c', _notify_one_child self q c' b)) s (λ x s', x = Ok tt ∧
    tally c r (if decide (c ∈ l) then if b then V else added r q V else V) s').
Proof.
  intros Hnd Hel. revert s V. induction Hnd as [|c' l Hc' _ IH]; intros s V HV Ht; [done|]. cbn [for_each]. rewrite wp_seq.
  destruct (decide (c' = c)) as [->|Hne].
  - eapply wp_mono; [by apply (notify_one_tally self c q r V)|]. intros x s1 [-> H1]. eapply wp_mono; [apply IH; [|exact H1]|].
    + destruct b; [done|by apply added_subset].
    + intros x s2 [-> H2]. split; [done|]. rewrite decide_False in H2 by done. rewrite decide_True by left. done.
  - eapply wp_mono; [apply wp_and; [apply notify_one_ok|apply (gwp_keeps_votes c), notify_one_leaves; done]|].
    intros x s1 [-> Hk]. eapply wp_mono; [apply (IH s1 V HV); by eapply tally_keeps|]. intros x s2 [-> H2]. split; [done|].
    destruct (decide (c ∈ l)); [rewrite decide_True by (by right)|rewrite decide_False by set_solver]; done.
Qed.

Lemma notify_tally self c q w r V s : c ≠ q → electorate self c r → V ⊆ list_to_set (depends_on r) → tally c r V s →
  gwp (notify_task_terminal self q w) s (λ x s', tally c r (if decide (c ∈ active_of s q) then if _is_success self w then V else added r q V else V) s').
Proof.
  intros Hne Hel HV Ht. unfold notify_task_terminal, except_exception. destruct (elements_sorted (active_of s q)) as [Hnd Hin].
  rewrite wp_seq, wp_catch, wp_seq, gwp_call. cbn [ref_call fst snd]. eapply wp_mono; [by apply (notify_loop_tally self c q r V)|].
  intros x s1 (-> & H1). rewrite (decide_ext _ _ _ _ (Hin c)) in H1. eapply wp_mono; [apply (gwp_keeps_votes c)|].
  - apply calls_except; [|done]. gov_calls ltac:(simpl; naive_solver).
  - intros x s2 Hk. eapply tally_keeps; [exact Hk|]. exact H1.
Qed.

(** Votes and notifications around a task *)
Inductive turn :=
  | Vote (parent child : string)
  | Over (task_id word : string).

Definition take_turn (self : DependencyGovernor) (t : turn) : govM unit :=
  match t with
  | Vote q c => let! _ := vote_cancel self q c in ret tt
  | Over id w => notify_task_terminal self id w
  end.

(** Whose vote against [c] a sequence of turns has cast *)
Definition voters (self : DependencyGovernor) (c : string) (l : list turn) : list string :=
  omap (λ t, match t with
             | Vote q c' => if bool_decide (c' = c) then Some q else None
             | Over q w => if _is_success self w then None else Some q
             end) l.

Lemma vote_cancel_other self c q c' s : c' ≠ c → gwp (vote_cancel self q c') s (λ x s', (∃ b, x = Ok b) ∧ keeps_votes c s s' ∧ keeps_deps c s s').
Proof.
  intros Hne. unfold vote_cancel. apply wp_and.
  - rewrite wp_seq, (gwp_call (GetTask c')). cbn [ref_call fst snd]. repeat (case_match; [rewrite wp_ret; by eauto|]).
    rewrite wp_seq, (gwp_call (VoteAndCheck _ _ _)). cbn [ref_call fst snd]. case_match; [|rewrite wp_ret; by eauto].
    rewrite wp_seq. eapply wp_mono; [apply cancel_child_ok|]. intros x s1 [-> _]. rewrite wp_ret. eauto.
  - apply wp_and; [apply gwp_keeps_votes|apply gwp_keeps_deps]; gov_calls ltac:(simpl; intros; repeat case_match; naive_solver).
Qed.

Definition cast_by (r : row) (l : list string) : gset string := list_to_set (filter (λ q, q ∈ depends_on r) l).

Lemma added_cast r q l V : added r q V ∪ cast_by r l = V ∪ cast_by r (q :: l).
Proof. unfold added, cast_by. rewrite filter_cons. destruct (decide (q ∈ depends_on r)); set_solver. Qed.

Lemma turns_tally self c r l V s : electorate self c r → V ⊆ list_to_set (depends_on r) → tally c r V s →
  (∀ p, p ∈ depends_on r → c ∈ active_of s p) → (∀ w, Over c w ∉ l) →
  gwp (for_each l (take_turn self)) s (λ x s', x = Ok tt ∧ tally c r (V ∪ cast_by r (voters self c l)) s').
Proof.
  intros Hel. revert V s. induction l as [|t l IH]; intros V s HV Ht Hact Hc.
  { split; [done|]. assert (V ∪ cast_by r (voters self c []) = V) as -> by set_solver. done. }
  cbn [for_each]. rewrite wp_seq. assert (∀ w, Over c w ∉ l) as Hc' by (intros w Hw; apply (Hc w); by right).
  destruct t as [q c'|q w]; cbn [take_turn].
  - rewrite wp_seq. destruct (decide (c' = c)) as [->|Hne].
    + eapply wp_mono; [apply wp_and; [by apply (vote_cancel_tally self c q r V)|apply (gwp_keeps_deps c)]|].
      { unfold vote_cancel. gov_calls ltac:(simpl; intros; repeat case_match; naive_solver). }
      intros x s1 [[[b ->] H1] [H2 _]]. rewrite wp_ret. eapply wp_mono; [apply (IH _ s1 (added_subset r q V HV) H1); [|done]|].
      * intros p Hp. apply H2, Hact, Hp.
      * intros x s2 [-> H3]. split; [done|]. simpl. rewrite bool_decide_true by done. by rewrite <- added_cast.
    + eapply wp_mono; [by apply (vote_cancel_other self c q c')|]. intros x s1 ([b ->] & Hk & [H2 _]). rewrite wp_ret.
      eapply wp_mono; [apply (IH V s1 HV); [by eapply tally_keeps| |done]|].
      * intros p Hp. apply H2, Hact, Hp.
      * intros x s2 [-> H3]. split; [done|]. simpl. by rewrite bool_decide_false.
  - assert (c ≠ q) as Hq by (intros ->; apply (Hc w); left).
    eapply wp_mono; [apply wp_and; [by apply (notify_deps self q w c)|by apply (notify_tally self c q w r V)]|].
    intros x s1 [(-> & H2 & _) H1].
    set (V1 := if decide (c ∈ active_of s q) then if _is_success self w then V else added r q V else V) in *.
    assert (V1 = if _is_success self w then V else added r q V) as EV.
    { unfold V1. destruct (decide (c ∈ active_of s q)) as [|Hn]; [done|]. destruct (_is_success self w); [done|]. unfold added.
      rewrite decide_False; [done|]. intros Hq'. by apply Hn, Hact. }
    eapply wp_mono; [apply (IH V1 s1); [|done| |done]|].
    * rewrite EV. destruct (_is_success self w); [done|by apply added_subset].
    * intros p Hp. apply H2, Hact, Hp.
    * intros x s2 [-> H3]. split; [done|]. simpl. rewrite EV in H3. destruct (_is_success self w); [done|]. by rewrite <- added_cast.
Qed.

(** C6: cancellation by votes.  Take a live task whose parents all know it and
    against which nobody has voted, and any sequence of votes and terminal
    notifications of tasks other than itself.  In the end it is cancelled if
    every parent has voted against it or was notified with a word that is not
    a success, and its record is untouched otherwise: one parent that neither
    votes nor fails protects it, repeated votes and the votes of strangers
    count for nothing.  No turn raises. *)
Theorem votes_decide self c r l s :
  electorate self c r → tasks s !! c = Some r → votes_of s c = ∅ → (∀ p, p ∈ depends_on r → c ∈ active_of s p) → (∀ w, Over c w ∉ l) →
  gwp (for_each l (take_turn self)) s (λ x s', x = Ok tt ∧
    ((∀ p, p ∈ depends_on r → p ∈ voters self c l) → tasks s' !! c = Some (cancelled_record r)) ∧
    ((∃ p, p ∈ depends_on r ∧ p ∉ voters self c l) → tasks s' !! c = Some r)).
Proof.
  intros Hel Hr Hv Hact Hc. pose proof Hel as [_ _ _ _ Hne _].
  eapply wp_mono; [apply (turns_tally self c r l ∅ s Hel); [set_solver| |done|done]|].
  - unfold tally. rewrite decide_False; [done|]. intros Hall. destruct (depends_on r) as [|p ps] eqn:E; [done|].
    specialize (Hall p). rewrite E in Hall. set_solver.
  - intros x s' [-> Ht]. split; [done|]. unfold tally in Ht. set (V := ∅ ∪ _) in Ht.
    assert (∀ p, p ∈ depends_on r → p ∈ V ↔ p ∈ voters self c l) as HV.
    { intros p Hp. unfold V, cast_by. rewrite elem_of_union, elem_of_list_to_set, list_elem_of_filter. set_solver. }
    split.
    + intros Hall. rewrite decide_True in Ht by (intros p Hp; by apply HV, Hall). done.
    + intros (p & Hp & Hp'). rewrite decide_False in Ht by (intros Hall; apply Hp', HV, Hall; done). apply Ht.
Qed.

(** ** Runs on concrete stores *)

Module GovernanceWitness.

Definition handler (o : gov_op) (s : ref_store) : gov_ans o * ref_store :=
  match o return gov_ans o * ref_store with
  | GStore o => ref_call o s
  | ListReadyDepTasks w => (Ok (ready_in w s), s)
  | AuditAppend _ | WriteDependency _ => (Ok tt, s)
  | ReadGraph _ => (Ok [], s)
  end.

Definition governor : DependencyGovernor :=
  {| _success_words := ["succeeded"]; _terminal_words := DEFAULT_TERMINAL_WORDS; _ready_status := "pending";
     _lifecycle := true; _audit := true; _dep_graph_store := true |}%string.

Definition record_of (w : string) (deps : list string) : row :=
  {[ "status" := JStr w; "depends_on" := JArr (JStr <$> deps) ]}%string.
Definition with_records (l : list (string * row)) : ref_store := set_tasks (λ _, list_to_map l) empty_store.

(** Two parents, one over; the other succeeds while records are written. *)
Definition s0 : ref_store :=
  with_records [("c", record_of "pending" []); ("p", record_of "running" []); ("q", record_of "failed" [])]%string.
Definition evs : list event := [Written "p" {[ "status" := JStr "succeeded" ]} true; Notified "p" "succeeded"]%string.

Lemma registrable0 : registrable s0 "c" ["p"; "q"; "p"]%string None None.
Proof.
  split; try done.
  - intros p Hp. repeat (apply elem_of_cons in Hp as [->|Hp]; [by vm_compute|]). by apply not_elem_of_nil in Hp.
  - intros p Hp Ha. apply rtc_inv in Ha as [->|(m & Hm & _)]; [repeat (apply elem_of_cons in Hp as [Hp|Hp]; [discriminate|]); by apply not_elem_of_nil in Hp|].
    repeat (apply elem_of_cons in Hp as [->|Hp]; [by vm_compute in Hm; inversion Hm|]). by apply not_elem_of_nil in Hp.
  - exists {[ "p"; "q" ]}%string. split_and!.
    + intros n m Hn Hm. apply elem_of_union in Hn as [->%elem_of_singleton| ->%elem_of_singleton]; vm_compute in Hm; inversion Hm.
    + vm_compute. lia.
    + intros p Hp. set_solver.
Qed.

Lemma readiness_witness : ∃ N, ∀ fuel, (N ≤ fuel)%nat →
  gwp (do! register_dependency governor fuel "c" ["p"; "q"; "p"] None None in do! for_each evs (handle governor) in get_ready_tasks governor)%string s0
    (λ r s', ∃ l, r = Ok l ∧ ("c"%string ∈ l ↔ text_of (task_of s' "c") "status" = Some "pending"%string ∧
       ∀ p, p ∈ ["p"; "q"; "p"]%string → _is_terminal governor (status_text (task_of s0 p)) = true ∨ p ∈ notified evs)).
Proof.
  apply (readiness governor "c" ["p"; "q"; "p"]%string None None evs s0); [exact registrable0| |repeat constructor; set_solver|vm_compute; set_solver].
  intros p. by vm_compute.
Defined.

(** A parent that succeeds and is notified after the counter has been set and
    before the recheck is counted twice: here the run of a registration with
    the parents p and q, both running, when p is over just before the
    registration reads p again.  The task is ready although q still runs. *)
Definition s1 : ref_store :=
  with_records [("c", record_of "pending" []); ("p", record_of "running" []); ("q", record_of "running" [])]%string.

Definition p_over (s : ref_store) : ref_store := (play handler (for_each evs (handle governor)) s).2.

Definition racing (n : nat) (o : gov_op) (s : ref_store) : gov_ans o * ref_store := handler o (if decide (n = 10%nat) then p_over s else s).

Definition raced : ref_store := (exec racing 0 (register_dependency governor 100 "c" ["p"; "q"] None None)%string s1).2.

Example counted_twice : ready_in "pending" raced = ["c"]%string ∧ status_text (task_of raced "q") = "running"%string.
Proof. by vm_compute. Qed.

(** The search for cycles stops at depth 32 and marks what it has expanded as
    visited, so the first path to a task decides how far the search goes on
    from it.  Here t0 -> t1 -> ... -> t31 -> n -> c is searched before
    s -> t31 -> n -> c: the registration of c under s and t0 is accepted, and c
    is its own ancestor three steps above s. *)
Definition t_ (i : nat) : string := ("t" +:+ pretty i)%string.
Definition deep : ref_store :=
  with_records ([("c", record_of "pending" []); ("n", record_of "pending" ["c"]); ("s", record_of "pending" [t_ 31]); (t_ 31, record_of "pending" ["n"])]%string
    ++ ((λ i, (t_ i, record_of "pending" [t_ (S i)])) <$> List.seq 0 31)).

Lemma s_is_below : ancestor deep "s" "c".
Proof.
  apply (rtc_l _ _ (t_ 31)); [by_compute|]. apply (rtc_l _ _ "n"%string); [by_compute|]. apply (rtc_l _ _ "c"%string); [by_compute|]. apply rtc_refl.
Qed.

Example cycle_missed : (play handler (_assert_no_cycle 200 "c" ["s"; t_ 0]) deep).1 = Ok true.
Proof. by vm_compute. Qed.

Definition looped : ref_store := with_records [("c", record_of "pending" ["p"]); ("p", record_of "pending" [])]%string.

Lemma cycle_witness : ∃ N, ∀ fuel, (N ≤ fuel)%nat → gwp (_assert_no_cycle fuel "p" ["c"])%string looped (λ r s', s' = looped ∧
    ((∃ p, p ∈ ["c"]%string ∧ ancestor looped p "p") ∧ r = Err ValueError ∨ (∀ p, p ∈ ["c"]%string → ¬ ancestor looped p "p") ∧ r = Ok true)).
Proof.
  apply (cycle_check_exact looped "p" ["c"]%string {[ "c"; "p" ]}%string).
  - intros n m Hn Hm. apply elem_of_union in Hn as [->%elem_of_singleton| ->%elem_of_singleton]; vm_compute in Hm; set_solver.
  - vm_compute. lia.
  - set_solver.
Defined.

(** Two parents; q votes and p fails. *)
Definition r2 : row := record_of "pending" ["p"; "q"]%string.
Definition s2 : ref_store := set_active (λ _, {[ "p" := {[ "c" ]}; "q" := {[ "c" ]} ]}%string) (with_records [("c", r2)]%string).

Lemma electorate2 : electorate governor "c" r2.
Proof. split; try done; [by exists PENDING|]. repeat constructor; set_solver. Qed.

Lemma votes_witness : gwp (for_each [Vote "q" "c"; Vote "x" "c"; Over "p" "failed"]%string (take_turn governor)) s2 (λ x s', x = Ok tt ∧
    ((∀ p, p ∈ depends_on r2 → p ∈ voters governor "c" [Vote "q" "c"; Vote "x" "c"; Over "p" "failed"]%string) → tasks s' !! "c"%string = Some (cancelled_record r2)) ∧
    ((∃ p, p ∈ depends_on r2 ∧ p ∉ voters governor "c" [Vote "q" "c"; Vote "x" "c"; Over "p" "failed"]%string) → tasks s' !! "c"%string = Some r2)).
Proof.
  apply (votes_decide governor "c" r2); [exact electorate2|done|done| |].
  - intros p Hp. repeat (apply elem_of_cons in Hp as [->|Hp]; [by_compute|]). by apply not_elem_of_nil in Hp.
  - intros w Hw. repeat (apply elem_of_cons in Hw as [Hw|Hw]; [discriminate|]). by apply not_elem_of_nil in Hw.
Defined.

End GovernanceWitness.
