(* ===== verification/Budget.v ===== *)
(** * Budgets

    flow/governor/budget.py: the ledger of a tree of tasks, kept in an
    admission quota (Quota.v).  A charge is a reservation under the id of the
    call, so that a call charged twice is charged once; the balance is what the
    counter leaves of the budget. *)
From Stdlib Require Import ZArith Lia.
From stdpp Require Import prelude gmap list strings.
From S2P Require Import Prelude Redis Quota Effects.
Local Open Scope list_scope.
Local Open Scope Z_scope.

(** ** Calls *)

Inductive budget_op :=
  | ReserveUnits (scope task_id : string) (units max_units task_ttl_sec : Z)
  | GetPendingUnits (scope : string)
  | RecordCharge (scope call_id : string) (units balance_after : Z).

Definition budget_ans (o : budget_op) : Type :=
  match o with
  | ReserveUnits _ _ _ _ _ => res exn quota_result
  | GetPendingUnits _ => res exn Z
  | RecordCharge _ _ _ _ => res exn unit
  end.

Notation budgetM := (M budget_ans).

(** ** The ledger *)

Record BudgetLedger := { _root_task_id : string; _max_units : Z; _ttl : Z }.

Section Ledger.

Context (self : BudgetLedger).

Definition scope : string := ("budget:" +:+ _root_task_id self)%string.

Definition open : budgetM unit :=
  let! result := (perform (ReserveUnits scope "__ledger__" 0 (_max_units self) (_ttl self)) : budgetM quota_result) in
  if q_ok result then ret tt else raise (Other "TaskflowError").

Definition balance : budgetM Z :=
  let! used := (perform (GetPendingUnits scope) : budgetM Z) in
  ret (_max_units self - used).

Definition check : budgetM unit :=
  let! b := balance in
  if b <=? 0 then raise BudgetExhausted else ret tt.

Definition charge (units : Z) (call_id : string) : budgetM Z :=
  if units <=? 0 then balance
  else
    do! (perform (ReserveUnits scope call_id units (_max_units self * 1000) (_ttl self)) : budgetM quota_result) in
    let! b := balance in
    do! except_exception (perform (RecordCharge scope call_id units b)) (λ _, ret tt) in
    ret b.

End Ledger.

(** ** A ledger in the quota *)

Section Book.

Context `{Redis} (pk lk : string) (Hpl : pk ≠ lk) (Hpu : pk ≠ units_key lk).
Context (t0 ttl : Z) (Httl : 1 ≤ ttl).

(** Nothing written at [t0] or later expires before: *)
Definition horizon : Z := t0 + ttl * 1000.
Definition lasting (x : option Z) : Prop := ∀ e, x = Some e → horizon ≤ e.

(** The charges [m] booked since [t0] *)
Record book (t : Z) (db : DB) (m : gmap string Z) : Prop := {
  book_pending : ∃ x, at_ t pk db = Some {| rval := VStr (SNum (total m)); rexp := x |} ∧ lasting x;
  book_leases : ∃ z x, at_ t lk db = Some {| rval := VZset z; rexp := x |} ∧ lasting x ∧ dom z = dom m ∧ map_Forall (λ _ s, t0 ≤ s) z;
  book_units : ∃ x, at_ t (units_key lk) db = Some {| rval := VHash m; rexp := x |} ∧ lasting x;
  book_open : m ≠ ∅
}.

Lemma lasting_live t v x : t < horizon → lasting x → live t (Some {| rval := v; rexp := x |}) = Some {| rval := v; rexp := x |}.
Proof. intros Ht Hx. destruct x as [e|]; [|done]. simpl. rewrite decide_True; [done|]. specialize (Hx e eq_refl). lia. Qed.

Lemma book_later t t' db m : t ≤ t' < horizon → book t db m → book t' db m.
Proof.
  intros Ht [(x1 & E1 & L1) (z & x2 & E2 & L2 & Hd & Hs) (x3 & E3 & L3) Hm]. split; [| | |done].
  - exists x1. by rewrite (at_later t t'), E1, lasting_live by (done || lia).
  - exists z, x2. by rewrite (at_later t t'), E2, lasting_live by (done || lia).
  - exists x3. by rewrite (at_later t t'), E3, lasting_live by (done || lia).
Qed.

Lemma book_other t db db' m : at_ t pk db' = at_ t pk db → at_ t lk db' = at_ t lk db → at_ t (units_key lk) db' = at_ t (units_key lk) db →
  book t db m → book t db' m.
Proof. intros E1 E2 E3 [H1 H2 H3 H4]. split; by rewrite ?E1, ?E2, ?E3. Qed.

Lemma book_pending_num t db m : book t db m → get_num t pk db = total m ∧ exists_key t pk db = true.
Proof. intros [(x & E & _) _ _ _]. unfold get_num, get, exists_key. by rewrite E. Qed.

Lemma bump_exp t l db r : 0 < l → at_ t pk db = Some r →
  ∃ x, at_ t pk (bump_pending_ttl t pk l db) = Some {| rval := rval r; rexp := x |} ∧ (x = rexp r ∨ x = Some (t + l * 1000)).
Proof.
  intros Hl E. unfold bump_pending_ttl. destruct (_ || _).
  - eexists. redis_at. rewrite E. simpl. split; [done|by right].
  - exists (rexp r). rewrite E. destruct r. split; [done|by left].
Qed.

Lemma bump_others t l db : at_ t lk (bump_pending_ttl t pk l db) = at_ t lk db ∧
  at_ t (units_key lk) (bump_pending_ttl t pk l db) = at_ t (units_key lk) db.
Proof. unfold bump_pending_ttl. destruct (_ || _); [|done]. by redis_at. Qed.

Definition leases_ttl : Z := Z.max 1 (ttl * 2).

Lemma lasting_new t : t0 ≤ t → lasting (Some (t + leases_ttl * 1000)).
Proof. intros Ht e [= <-]. unfold horizon, leases_ttl. lia. Qed.

(** No lease is old enough to be reaped. *)
Lemma book_unreaped t db m : t < horizon → book t db m → zrangebyscore t lk (t - ttl * 1000) db = [].
Proof.
  intros Ht [_ (z & x & E & _ & _ & Hs) _ _]. destruct (zrangebyscore t lk (t - ttl * 1000) db) as [|k l] eqn:El; [done|].
  assert (k ∈ zrangebyscore t lk (t - ttl * 1000) db) as Hk by (rewrite El; left). exfalso.
  assert (∃ s, zset t lk db !! k = Some s) as [s Hks].
  { unfold zrangebyscore in Hk. rewrite isort_perm in Hk. apply elem_of_map_keys, elem_of_dom in Hk as [s Hk].
    apply map_lookup_filter_Some in Hk as [Hk _]. eauto. }
  apply (elem_of_zrangebyscore _ _ _ _ _ _ Hks) in Hk. unfold zset in Hks. rewrite E in Hks. apply Hs in Hks. unfold horizon in *. lia.
Qed.

(** What a reservation under [k] does to the book *)
Definition booked (m : gmap string Z) (k : string) (units max_units : Z) : gmap string Z :=
  if decide (units < 0 ∨ max_units ≤ 0) then m
  else match m !! k with
       | Some _ => m
       | None => if decide (total m + units ≤ max_units) then <[k := units]> m else m
       end.

Lemma book_renewed t db m k u : t0 ≤ t → book t db m → m !! k = Some u →
  let db1 := expire t (units_key lk) leases_ttl (expire t lk leases_ttl (zadd t lk t k db)) in
  book t (if exists_key t pk db1 then bump_pending_ttl t pk leases_ttl db1 else set t pk (SNum (rebuild t lk db1)) (Some leases_ttl) db1) m.
Proof.
  intros Ht [(x1 & E1 & L1) (z & x2 & E2 & L2 & Hd & Hs) (x3 & E3 & L3) Hm] Hk db1. pose proof (lk_uk lk) as Hlu.
  assert (0 < leases_ttl) as Hl by (unfold leases_ttl; lia).
  assert (at_ t pk db1 = Some {| rval := VStr (SNum (total m)); rexp := x1 |}) as F1 by (unfold db1; by redis_at).
  assert (at_ t lk db1 = Some {| rval := VZset (<[k := t]> z); rexp := Some (t + leases_ttl * 1000) |}) as F2.
  { unfold db1. redis_at. rewrite E2. simpl. unfold zset_entry. by rewrite decide_False by apply insert_non_empty. }
  assert (at_ t (units_key lk) db1 = Some {| rval := VHash m; rexp := Some (t + leases_ttl * 1000) |}) as F3 by (unfold db1; redis_at; by rewrite E3).
  unfold exists_key. rewrite F1. destruct (bump_exp t leases_ttl db1 _ Hl F1) as (x & B1 & Hx). destruct (bump_others t leases_ttl db1) as [B2 B3].
  split; [| | |done].
  - exists x. split; [done|]. destruct Hx as [->| ->]; [done|by apply lasting_new].
  - exists (<[k := t]> z), (Some (t + leases_ttl * 1000)). rewrite B2, F2. split_and!; [done|by apply lasting_new| |].
    + rewrite dom_insert_L. apply elem_of_dom_2 in Hk. set_solver.
    + by apply map_Forall_insert_2.
  - eexists. rewrite B3, F3. split; [done|by apply lasting_new].
Qed.

Lemma book_admitted t db m k units : t0 ≤ t → m !! k = None →
  (∃ z x, at_ t lk db = zset_entry z x ∧ dom z = dom m ∧ map_Forall (λ _ s, t0 ≤ s) z) →
  (∃ x, at_ t (units_key lk) db = hash_entry m x) →
  book t (expire t (units_key lk) leases_ttl (expire t lk leases_ttl (hset t (units_key lk) k units (zadd t lk t k
            (bump_pending_ttl t pk leases_ttl (set t pk (SNum (total m + units)) None db)))))) (<[k := units]> m).
Proof.
  intros Ht Hk (z & x2 & E2 & Hd & Hs) (x3 & E3). pose proof (lk_uk lk) as Hlu. assert (0 < leases_ttl) as Hl by (unfold leases_ttl; lia).
  set (db0 := set t pk _ None db). assert (at_ t pk db0 = Some {| rval := VStr (SNum (total m + units)); rexp := None |}) as F1 by (unfold db0; by redis_at).
  destruct (bump_exp t leases_ttl db0 _ Hl F1) as (x & B1 & Hx). destruct (bump_others t leases_ttl db0) as [B2 B3].
  set (db1 := bump_pending_ttl _ _ _ _) in *. simpl in B1. split; [| | |apply insert_non_empty].
  - exists x. redis_at. rewrite B1. rewrite total_insert by done. replace (units + total m) with (total m + units) by lia.
    split; [done|]. destruct Hx as [->| ->]; [done|by apply lasting_new].
  - exists (<[k := t]> z), (Some (t + leases_ttl * 1000)). split_and!; [|by apply lasting_new| |].
    + redis_at. unfold zset. rewrite B2. unfold db0. redis_at. rewrite E2, as_zset_entry. unfold zset_entry at 1. by rewrite decide_False by apply insert_non_empty.
    + by rewrite !dom_insert_L, Hd.
    + by apply map_Forall_insert_2.
  - exists (Some (t + leases_ttl * 1000)). split; [|by apply lasting_new].
    redis_at. unfold hash. rewrite B3. unfold db0. redis_at. rewrite E3, as_hash_entry. unfold hash_entry at 1. by rewrite decide_False by apply insert_non_empty.
Qed.

Lemma reserve_book t db m k units max_units db' r : t0 ≤ t < horizon → book t db m →
  quota_reserve t pk lk units max_units ttl k db = (db', r) →
  book t db' (booked m k units max_units) ∧ (q_ok r = true ↔ is_Some (booked m k units max_units !! k) ∧ 0 ≤ units ∧ 0 < max_units).
Proof.
  intros Ht Hb. unfold quota_reserve, booked.
  destruct (Z.ltb_spec units 0). { intros [= <- <-]. rewrite decide_True by lia. split; [done|]. simpl. split; [done|lia]. }
  destruct (Z.leb_spec max_units 0). { intros [= <- <-]. rewrite decide_True by lia. split; [done|]. simpl. split; [done|lia]. }
  rewrite decide_False by lia. rewrite (book_unreaped t db m) by (done || lia). cbn [fold_left].
  pose proof Hb as [(x1 & E1 & L1) (z & x2 & E2 & L2 & Hd & Hs) (x3 & E3 & L3) Hm]. destruct (book_pending_num _ _ _ Hb) as [En Ee].
  assert (is_Some (zscore t lk k db) ↔ is_Some (m !! k)) as Hz.
  { unfold zscore, zset. rewrite E2. simpl. by rewrite <- !elem_of_dom, Hd. }
  destruct (m !! k) as [u|] eqn:Ek.
  - destruct (zscore t lk k db) as [s|]; [|by destruct (proj2 Hz (mk_is_Some _ _ eq_refl)) as [? [=]]]. intros [= <- <-]. split; [eapply book_renewed; [lia|done|exact Ek]|]. simpl. rewrite Ek. naive_solver.
  - destruct (zscore t lk k db) as [s|]; [by destruct (proj1 Hz (mk_is_Some _ _ eq_refl)) as [? [=]]|]. rewrite Ee, En.
    destruct (Z.ltb_spec max_units (total m + units)).
    + intros [= <- <-]. rewrite decide_False by lia. split; [done|]. simpl. rewrite Ek. split; [done|]. by intros [[? ?] _].
    + intros [= <- <-]. rewrite decide_True by lia. split; [|simpl; rewrite lookup_insert_eq; naive_solver].
      apply book_admitted; [lia|done| |].
      * exists z, x2. rewrite E2. split_and!; [|done..]. unfold zset_entry. rewrite decide_False; [done|]. intros ->.
        apply Hm, dom_empty_inv_L. by rewrite <- Hd, dom_empty_L.
      * exists x3. rewrite E3. unfold hash_entry. by rewrite decide_False.
Qed.

(** The first reservation of an unused scope *)
Lemma open_book k max_units db db' r : unused pk lk t0 db → 0 < max_units →
  quota_reserve t0 pk lk 0 max_units ttl k db = (db', r) → book t0 db' {[k := 0]} ∧ q_ok r = true.
Proof.
  intros (E1 & E2 & E3) Hmax. unfold quota_reserve. cbn [Z.ltb Z.compare]. destruct (Z.leb_spec max_units 0); [lia|].
  assert (zset t0 lk db = ∅) as Ez by (unfold zset; by rewrite E2).
  assert (zrangebyscore t0 lk (t0 - ttl * 1000) db = []) as -> by (unfold zrangebyscore; by rewrite Ez). cbn [fold_left].
  assert (zscore t0 lk k db = None) as -> by (unfold zscore; by rewrite Ez).
  assert (exists_key t0 pk db = false) as -> by (unfold exists_key; by rewrite E1).
  assert (rebuild t0 lk db = 0) as -> by (unfold rebuild, zrange; by rewrite Ez). cbn [Z.ltb Z.compare Z.add].
  destruct (Z.ltb_spec max_units (0 + 0)); [lia|]. intros [= <- <-]. split; [|done].
  pose proof (book_admitted t0 db ∅ k 0 ltac:(lia) (lookup_empty k)) as Hb. rewrite insert_empty in Hb. apply Hb.
  - exists ∅, None. rewrite E2. split_and!; [by unfold zset_entry; rewrite decide_True|done|apply map_Forall_empty].
  - exists None. rewrite E3. unfold hash_entry. by rewrite decide_True.
Qed.

Lemma booked_subseteq m k u mx : m ⊆ booked m k u mx.
Proof.
  unfold booked. destruct (decide _); [done|]. destruct (m !! k) eqn:E; [done|]. destruct (decide _); [|done]. by apply insert_subseteq.
Qed.

Lemma booked_other m k u mx j : j ≠ k → booked m k u mx !! j = m !! j.
Proof.
  intros Hne. unfold booked. destruct (decide _); [done|]. destruct (m !! k); [done|]. destruct (decide _); [|done]. by rewrite lookup_insert_ne.
Qed.

End Book.

(** ** Runs with other clients of the ledger *)

Section Runs.

Context `{Redis} (d : AdmissionQuotaRedisDB) (self : BudgetLedger) (pk lk : string).
Context (Hpk : _pending_key d (scope self) = Some pk) (Hlk : _leases_key d (scope self) = Some lk).
Context (Httl : 1 ≤ _ttl self) (t0 : Z).

Notation state := (Z * DB)%type.

(** Time passes; another client writes other keys, or charges another call [k ≠ cid]. *)
Definition meanwhile (cid : string) (s s' : state) : Prop :=
  s.1 ≤ s'.1 < horizon t0 (_ttl self) ∧
  ((at_ s'.1 pk s'.2 = at_ s'.1 pk s.2 ∧ at_ s'.1 lk s'.2 = at_ s'.1 lk s.2 ∧ at_ s'.1 (units_key lk) s'.2 = at_ s'.1 (units_key lk) s.2) ∨
   ∃ k units max_units r, k ≠ cid ∧ quota_reserve s'.1 pk lk units max_units (_ttl self) k s.2 = (s'.2, r)).

Definition lost (o : budget_op) (e : exn) : budget_ans o :=
  match o with ReserveUnits _ _ _ _ _ => Err e | GetPendingUnits _ => Err e | RecordCharge _ _ _ _ => Err e end.

Definition answered (o : budget_op) (s : state) : budget_ans o → state → Prop :=
  match o return budget_ans o → state → Prop with
  | ReserveUnits sc k units max_units ttl => λ x s', s'.1 = s.1 ∧ ∃ r, x = Ok r ∧ reserve_units d s.1 sc k units max_units (Some ttl) s.2 = Ok (s'.2, r)
  | GetPendingUnits sc => λ x s', s' = s ∧ ∃ n, x = Ok n ∧ get_pending_units d s.1 sc s.2 = Ok n
  | RecordCharge _ _ _ _ => λ x s', s' = s
  end.

Definition fault (e : exn) : Prop := match e with Other _ | CancelledError => True | _ => False end.

(** A call may be lost, before or after it took effect. *)
Definition budget_step (cid : string) (o : budget_op) (s : state) (x : budget_ans o) (s' : state) : Prop :=
  ∃ s1, rtc (meanwhile cid) s s1 ∧
    (answered o s1 x s' ∨ ∃ e, x = lost o e ∧ fault e ∧ (s' = s1 ∨ ∃ y, answered o s1 y s')).

Definition ledger (s : state) (m : gmap string Z) : Prop := t0 ≤ s.1 < horizon t0 (_ttl self) ∧ book pk lk t0 (_ttl self) s.1 s.2 m.

Lemma keys_apart' : pk ≠ lk ∧ pk ≠ units_key lk.
Proof. by eapply quota_keys. Qed.

(** The book grows, and not under [cid]. *)
Definition grows (cid : string) (m m' : gmap string Z) : Prop := m ⊆ m' ∧ m' !! cid = m !! cid.

#[local] Instance grows_preorder cid : PreOrder (grows cid).
Proof. split; [by split|]. intros m1 m2 m3 [H1 E1] [H2 E2]. split; [by transitivity m2|congruence]. Qed.

Lemma meanwhile_ledger cid s s' m : meanwhile cid s s' → ledger s m → ∃ m', ledger s' m' ∧ grows cid m m'.
Proof.
  destruct s as [t db], s' as [t' db']. intros [Ht Hm] [Ht0 Hb]. simpl in *. destruct keys_apart' as [Hpl Hpu].
  assert (book pk lk t0 (_ttl self) t' db m) as Hb' by (eapply book_later; [|exact Hb]; lia).
  destruct Hm as [(E1 & E2 & E3)|(k & u & mx & r & Hk & Hq)].
  - exists m. split; [|done]. split; [simpl; lia|]. by eapply book_other.
  - destruct (reserve_book pk lk Hpl Hpu t0 (_ttl self) Httl t' db m k u mx db' r ltac:(lia) Hb' Hq) as [Hq' _]. eexists. split; [split; [simpl; lia|exact Hq']|].
    split; [apply booked_subseteq|]. by apply booked_other.
Qed.

Lemma meanwhiles_ledger cid s s' m : rtc (meanwhile cid) s s' → ledger s m → ∃ m', ledger s' m' ∧ grows cid m m'.
Proof.
  intros Hr. revert m. induction Hr as [s|s1 s2 s3 H1 _ IH]; intros m Hm; [by exists m|].
  destruct (meanwhile_ledger _ _ _ _ H1 Hm) as (m1 & Hm1 & G1). destruct (IH m1 Hm1) as (m2 & Hm2 & G2). exists m2. split; [done|by transitivity m1].
Qed.

Lemma reserve_answered cid units mx s x s' m : ledger s m → answered (ReserveUnits (scope self) cid units mx (_ttl self)) s x s' →
  ledger s' (booked m cid units mx) ∧ ∃ r, x = Ok r ∧ (q_ok r = true ↔ is_Some (booked m cid units mx !! cid) ∧ 0 ≤ units ∧ 0 < mx).
Proof.
  destruct s as [t db], s' as [t' db']. intros [Ht Hb] [E (r & -> & Hx)]. simpl in *. subst t'. destruct keys_apart' as [Hpl Hpu].
  destruct (reserve_units_ok d t (scope self) cid units mx (Some (_ttl self)) db db' r pk lk Hpk Hlk Hx) as (ttl' & Hq & E). simpl in E.
  destruct (Z.leb_spec (_ttl self) 0); [lia|]. subst ttl'. destruct (reserve_book pk lk Hpl Hpu t0 (_ttl self) Httl t db m cid units mx db' r Ht Hb Hq) as [Hq' Hr].
  split; [by split|]. eauto.
Qed.

Lemma pending_answered s x s' m : ledger s m → answered (GetPendingUnits (scope self)) s x s' → s' = s ∧ x = Ok (total m).
Proof.
  destruct s as [t db]. intros [Ht Hb] [-> (n & -> & Hx)]. split; [done|]. revert Hx. unfold get_pending_units. rewrite Hpk.
  destruct (book_pending_num _ _ _ _ _ _ _ Hb) as [-> _]. by intros [= <-].
Qed.

(** [balance]: what the counter says at some instant *)
Lemma balance_wp cid s m : ledger s m → wp (budget_step cid) (balance self) s (λ r s', ∃ m', ledger s' m' ∧ grows cid m m' ∧
  match r with Ok b => b = _max_units self - total m' | Err e => fault e end).
Proof.
  intros Hm. unfold balance. wp_call. intros x s' (s1 & Hr & Hx). destruct (meanwhiles_ledger _ _ _ _ Hr Hm) as (m1 & Hm1 & G1).
  destruct Hx as [Hx|(e & -> & He & Hx)].
  - destruct (pending_answered _ _ _ _ Hm1 Hx) as [-> ->]. wp_simp. by exists m1.
  - assert (s' = s1) as -> by (destruct Hx as [->|[y Hx]]; [done|by destruct (pending_answered _ _ _ _ Hm1 Hx) as [-> _]]). simpl. by exists m1.
Qed.

(** The call [cid] is charged once or not at all. *)
Definition once (cid : string) (units : Z) (m : gmap string Z) : Prop := m !! cid = None ∨ m !! cid = Some units.

(** The balance answered is that of a book between the one before and the one
    after; it holds the charge, unless the quota refused an extreme overspend. *)
Definition charged (cid : string) (units : Z) (m : gmap string Z) (r : res exn Z) (m' : gmap string Z) : Prop :=
  m ⊆ m' ∧ once cid units m' ∧
  match r with
  | Ok b => ∃ m1, m ⊆ m1 ∧ m1 ⊆ m' ∧ b = _max_units self - total m1 ∧
      (0 < units → m1 !! cid = Some units ∨ ∃ m0, m ⊆ m0 ∧ m0 ⊆ m1 ∧ _max_units self * 1000 < total m0 + units)
  | Err e => fault e
  end.

Lemma booked_once cid units mx m : 0 < units → 0 < mx → once cid units m →
  once cid units (booked m cid units mx) ∧ (booked m cid units mx !! cid = Some units ∨ booked m cid units mx = m ∧ mx < total m + units).
Proof.
  intros Hu Hm Ho. unfold booked, once. rewrite decide_False by lia. destruct Ho as [E|E]; rewrite E; [|by auto].
  destruct (decide _); [rewrite lookup_insert_eq; by auto|]. rewrite E. split; [by left|right]. split; [done|lia].
Qed.

(** From the reservation on *)
Lemma settle_wp cid units s m m2 : once cid units m2 → m ⊆ m2 → ledger s m2 →
  (m2 !! cid = Some units ∨ ∃ m0, m ⊆ m0 ∧ m0 ⊆ m2 ∧ _max_units self * 1000 < total m0 + units) →
  wp (budget_step cid)
    (let! b := balance self in do! except_exception (perform (RecordCharge (scope self) cid units b)) (λ _, ret tt) in ret b) s
    (λ r s', ∃ m', ledger s' m' ∧ charged cid units m r m').
Proof.
  intros Ho Hsub Hm2 Hb. wp_simp. eapply wp_mono; [by apply balance_wp|]. intros r s' (m' & Hm' & [G E] & Hr).
  assert (m ⊆ m') by (by transitivity m2). assert (once cid units m') as Ho' by (unfold once; by rewrite E).
  destruct r as [b|e]; [|by exists m']. unfold except_exception. wp_call. intros y s2 (s3 & Hrun' & Hy).
  destruct (meanwhiles_ledger _ _ _ _ Hrun' Hm') as (m3 & Hm3 & [G3 E3]).
  assert (once cid units m3) as Ho3 by (unfold once; by rewrite E3). assert (m ⊆ m3) by (by transitivity m').
  assert (s2 = s3) as -> by (by destruct Hy as [->|(? & _ & _ & [->|[? ->]])]).
  assert (∃ m', ledger s3 m' ∧ charged cid units m (Ok b) m') as Hok.
  { exists m3. split; [done|]. split_and!; [done..|]. exists m'. split_and!; [done..|]. intros _. rewrite E.
    destruct Hb as [Hb|(m0 & Hs0 & Hs1 & Hb)]; [by left|right]. exists m0. split_and!; [done|by transitivity m2|done]. }
  destruct y as [[]|e]; wp_simp; [done|]. destruct (is_exception e) eqn:Ee; wp_simp; [done|].
  exists m3. split_and!; [done..|]. unfold is_exception in Ee. apply bool_decide_eq_false, dec_stable in Ee. by subst e.
Qed.

Lemma charge_wp cid units s m : 0 < _max_units self → ledger s m → once cid units m →
  wp (budget_step cid) (charge self units cid) s (λ r s', ∃ m', ledger s' m' ∧ charged cid units m r m').
Proof.
  intros Hmax Hm Ho. unfold charge. destruct (Z.leb_spec units 0) as [Hu|Hu].
  { eapply wp_mono; [by apply balance_wp|]. intros r s' (m' & Hm' & [G E] & Hr). exists m'. split; [done|].
    split_and!; [done|unfold once; by rewrite E|]. destruct r as [b|e]; [|done]. exists m'. split_and!; [done..|lia]. }
  rewrite wp_seq. intros x s1' (s1 & Hrun & Hx). destruct (meanwhiles_ledger _ _ _ _ Hrun Hm) as (m1 & Hm1 & [G1 E1]).
  assert (once cid units m1) as Ho1 by (unfold once; by rewrite E1).
  destruct (booked_once cid units (_max_units self * 1000) m1 Hu ltac:(lia) Ho1) as [Ho2 Hb2]. set (m2 := booked _ _ _ _) in *.
  assert (m1 ⊆ m2) as G2 by apply booked_subseteq. assert (m ⊆ m2) by (by transitivity m1). destruct Hx as [Hx|(e & -> & He & Hx)].
  - destruct (reserve_answered _ _ _ _ _ _ _ Hm1 Hx) as (Hm2 & q & -> & _). apply (settle_wp cid units s1' m m2); [done..|].
    destruct Hb2 as [Hb2|[Eb Hb2]]; [by left|right]. exists m1. by split_and!.
  - destruct Hx as [->|[y Hx]]; [by exists m1|]. destruct (reserve_answered _ _ _ _ _ _ _ Hm1 Hx) as [Hm2 _]. by exists m2.
Qed.

End Runs.

(** [n] attempts whose outcomes the caller ignores *)
Definition attempts (self : BudgetLedger) (n : nat) (units : Z) (cid : string) : budgetM unit :=
  for_each (replicate n tt) (λ _, catch (let! _ := charge self units cid in ret tt) (λ _, ret tt)).

Lemma charged_again self cid units m m1 r m2 : m ⊆ m1 → charged self cid units m1 r m2 → charged self cid units m r m2.
Proof.
  intros Hs (H1 & H2 & H3). split_and!; [by transitivity m1|done|]. destruct r as [b|e]; [|done].
  destruct H3 as (m3 & H4 & H5 & H6 & H7). exists m3. split_and!; [by transitivity m1|done..|]. intros Hu. destruct (H7 Hu) as [?|(m0 & H8 & H9)]; [by left|right].
  exists m0. split; [by transitivity m1|done].
Qed.

(** C7: a call is charged exactly once however often its charge is retried:
    while the ledger lives, and whatever other calls are charged meanwhile, any
    number of attempts, each of which may be lost before or after it took
    effect, followed by a last one leaves at most one charge of the call in the
    book, and never another amount; when the last attempt answers, the balance
    is the budget minus everything booked, and the charge is in it (unless the
    quota refused it because a thousand budgets are spent). *)
Theorem charge_once `{Redis} d self pk lk t0 n cid units s m :
  _pending_key d (scope self) = Some pk → _leases_key d (scope self) = Some lk → 1 ≤ _ttl self → 0 < _max_units self →
  ledger self pk lk t0 s m → m !! cid = None →
  wp (budget_step d self pk lk t0 cid) (do! attempts self n units cid in charge self units cid) s
    (λ r s', ∃ m', ledger self pk lk t0 s' m' ∧ charged self cid units m r m').
Proof.
  intros Hpk Hlk Httl Hmax Hm Hc. assert (once cid units m) as Ho by (by left). clear Hc.
  assert (∀ k s m1, m ⊆ m1 → once cid units m1 → ledger self pk lk t0 s m1 →
    wp (budget_step d self pk lk t0 cid) (for_each (replicate k tt) (λ _, catch (let! _ := charge self units cid in ret tt) (λ _, ret tt))) s
      (λ r s', r = Ok tt ∧ ∃ m', ledger self pk lk t0 s' m' ∧ m ⊆ m' ∧ once cid units m')) as Hall.
  { clear n s Hm. induction k as [|k IH]; intros s m1 Hs1 Ho1 Hm1; [split; [done|by exists m1]|]. cbn [replicate for_each]. wp_simp.
    eapply wp_mono; [by eapply charge_wp|]. intros r s' (m' & Hm' & H1 & H2 & _).
    destruct r; wp_simp; apply (IH s' m'); [by transitivity m1|done|done|by transitivity m1|done|done]. }
  rewrite wp_seq. eapply wp_mono; [by apply (Hall n s m)|]. intros r s' [-> (m' & Hm' & Hs' & Ho')].
  eapply wp_mono; [by eapply charge_wp|]. intros r s2 (m2 & Hm2 & Hc). exists m2. split; [done|by eapply charged_again].
Qed.

(** The check before a call lets it pass exactly when the charges booked
    at that instant leave something of the budget, and raises
    BudgetExhaustedError exactly when they do not. *)
Theorem check_spec `{Redis} d self pk lk t0 cid s m :
  _pending_key d (scope self) = Some pk → _leases_key d (scope self) = Some lk → 1 ≤ _ttl self → ledger self pk lk t0 s m →
  wp (budget_step d self pk lk t0 cid) (check self) s (λ r s', ∃ m', ledger self pk lk t0 s' m' ∧ m ⊆ m' ∧
    match r with
    | Ok _ => total m' < _max_units self
    | Err e => e = BudgetExhausted ∧ _max_units self ≤ total m' ∨ fault e
    end).
Proof.
  intros Hpk Hlk Httl Hm. unfold check. rewrite wp_seq. eapply wp_mono; [by eapply balance_wp|]. intros r s' (m' & Hm' & [G _] & Hr).
  destruct r as [b|e]; [|exists m'; by auto]. destruct (Z.leb_spec b 0); wp_simp; exists m'; split_and!; try done; [left; split; [done|]|]; lia.
Qed.

(** ** On the reference instance *)

Module BudgetWitness.

Local Open Scope string_scope.

Definition quota : AdmissionQuotaRedisDB := {| quota_prefix := "admission"; default_expire_time := 604800 |}.
Definition tree : BudgetLedger := {| _root_task_id := "r"; _max_units := 100; _ttl := 60 |}.
Definition pk : string := "admission:budget:r:pending_units".
Definition lk : string := "admission:budget:r:leases".
Definition reserve (now : Z) (id : string) (units max_units ttl : Z) (db : @DB redis_map) := quota_reserve (H := redis_map) now pk lk units max_units ttl id db.

Definition opened : @DB redis_map := (reserve 0 "__ledger__" 0 100 60 ∅).1.

Lemma opened_ledger : ledger (H := redis_map) tree pk lk 0 (0, opened)%Z {[ "__ledger__" := 0%Z ]}.
Proof.
  split; [unfold horizon; simpl; lia|].
  apply (open_book (H := redis_map) pk lk ltac:(done) ltac:(done) 0 60 ltac:(lia) "__ledger__" 100 ∅ opened
    (reserve 0 "__ledger__" 0 100 60 ∅).2); [split_and!; vm_compute; reflexivity|lia|vm_compute; reflexivity].
Qed.

Lemma charge_witness : wp (budget_step (H := redis_map) quota tree pk lk 0 "call-1") (do! attempts tree 2 30 "call-1" in charge tree 30 "call-1") (0, opened)%Z
  (λ r s', ∃ m', ledger (H := redis_map) tree pk lk 0 s' m' ∧ charged tree "call-1" 30 {[ "__ledger__" := 0%Z ]} r m').
Proof.
  apply (charge_once (H := redis_map) quota tree pk lk 0 2 "call-1" 30 (0, opened)%Z); [reflexivity|reflexivity|simpl; lia|simpl; lia|exact opened_ledger|reflexivity].
Defined.

Lemma check_witness : wp (budget_step (H := redis_map) quota tree pk lk 0 "call-1") (check tree) (0, opened)%Z
  (λ r s', ∃ m', ledger (H := redis_map) tree pk lk 0 s' m' ∧ {[ "__ledger__" := 0%Z ]} ⊆ m' ∧
    match r with Ok _ => (total m' < 100)%Z | Err e => e = BudgetExhausted ∧ (100 ≤ total m')%Z ∨ fault e end).
Proof.
  apply (check_spec (H := redis_map) quota tree pk lk 0 "call-1" (0, opened)%Z); [reflexivity|reflexivity|simpl; lia|exact opened_ledger].
Defined.

(** A charge is a lease that nobody renews: after [_ttl] seconds the next
    charge reaps it, and a tree of tasks that is still running gets its budget
    back.  Here 90 of 100 units are charged, and 61 seconds later one more. *)
Definition spent : @DB redis_map := (reserve 1000 "call-1" 90 100000 60 opened).1.
Example old_charges_are_forgotten :
  get_num (H := redis_map) 1000 pk spent = 90%Z ∧ get_num (H := redis_map) 62000 pk (reserve 62000 "call-2" 1 100000 60 spent).1 = 1%Z.
Proof. by vm_compute. Qed.

End BudgetWitness.
