(* ===== verification/GovernedCall.v ===== *)
(** * Governed calls

    flow/governor/client.py and flow/governor/call.py: a call to a resource
    takes a slot, runs the caller's handler, charges the budget, gives the slot
    back, and leaves one audit record; a streaming call does so around a
    generator that its consumer may abandon. *)
From Stdlib Require Import ZArith Lia.
From stdpp Require Import prelude gmap list strings.
From S2P Require Import Prelude Effects Budget.
Local Open Scope list_scope.

(** ** Calls

    [RunHandler], [OpenStream], [NextChunk], [EndOfStream] and [CloseStream] are
    the caller's handler; [CostFn] ... [PartialFn] the caller's functions;
    [YieldChunk] hands a chunk to the consumer, who goes on ([true]), closes the
    generator ([false], a GeneratorExit), or throws into it.  [SetExecuted] and
    [GetExecuted] are the local variable [executed] of [call]. *)

Inductive call_op :=
  | OnBudget (o : budget_op)
  | IsCancelled
  | AcquireSlot (resource : string)
  | StartRelease (resource token : string)
  | AwaitRelease
  | RunHandler
  | OpenStream
  | NextChunk
  | YieldChunk (chunk : json)
  | EndOfStream
  | CloseStream
  | ResultFn
  | CostFn (result : json)
  | PayloadFn (result : json)
  | ContentFn (result : json)
  | PartialFn
  | PutContent (data : string)
  | AppendAudit (event_id : string) (payload : row)
  | Monotonic
  | NewCallId
  | SetExecuted
  | GetExecuted.

Definition call_ans (o : call_op) : Type :=
  match o with
  | OnBudget o => budget_ans o
  | IsCancelled | YieldChunk _ => res exn bool
  | AcquireSlot _ => res exn string
  | StartRelease _ _ | GetExecuted => bool
  | AwaitRelease | OpenStream | NextChunk | EndOfStream | CloseStream | AppendAudit _ _ => res exn unit
  | RunHandler | ResultFn | PutContent _ => res exn json
  | CostFn _ => res exn Z
  | PayloadFn _ => res exn row
  | ContentFn _ | PartialFn => res exn (option string)
  | Monotonic => Z
  | NewCallId => string
  | SetExecuted => unit
  end.

Notation callM := (M call_ans).

(** A client; [cost_fn] and its default are [CostFn]. *)
Record GovernedCallClient := {
  resource : string;
  handler : bool;
  budget : option BudgetLedger;
  audit_writer : bool;
  content_writer : bool;
  parent_task_id : option string;
  execution_id : option string
}.

(** The optional arguments of a call: the cancel token and the functions *)
Record call_args := {
  cancel_token : bool;
  own_handler : bool;
  call_id : option string;
  payload_fn : bool;
  content_fn : bool;
  result_fn : bool;
  partial_fn : bool
}.

Section Client.

Context (self : GovernedCallClient) (args : call_args).

Definition on_budget {A} (p : M budget_ans A) : callM A := lift OnBudget (λ _ x, x) p.

Definition budget_check : callM unit :=
  match budget self with Some ledger => on_budget (check ledger) | None => ret tt end.
Definition budget_charge (units : Z) (cid : string) : callM unit :=
  match budget self with Some ledger => let! _ := on_budget (charge ledger units cid) in ret tt | None => ret tt end.

Definition is_cancelled : callM bool := if cancel_token args then perform IsCancelled else ret false.

(** [call_id or f"call-{uuid}"] *)
Definition the_call_id : callM string :=
  match call_id args with
  | Some c => if bool_decide (c = ""%string) then pbind (perform NewCallId) ret else ret c
  | None => pbind (perform NewCallId) ret
  end.

(** *** GovernedClient *)

Definition _shielded_release (token : string) : callM unit :=
  pbind (perform (StartRelease (resource self) token)) (λ started : bool, if started then (perform AwaitRelease : callM unit) else ret tt).

(** [GovernedClient.call] with the handler [fn] *)
Definition governed_call (fn : callM json) (cid : string) : callM json :=
  let! c := is_cancelled in
  if c then ret JNull
  else
    do! budget_check in
    let! token := (perform (AcquireSlot (resource self)) : callM string) in
    finally
      (let! c := is_cancelled in
       if c then ret JNull
       else
         let! result := fn in
         do! match budget self with
             | Some _ => let! cost := (perform (CostFn result) : callM Z) in budget_charge cost cid
             | None => ret tt
             end in
         ret result)
      (_shielded_release token).

(** *** Observation *)

(** [try: f() except Exception: None] *)
Definition or_none {A} (p : callM A) : callM (option A) :=
  except_exception (let! a := p in ret (Some a)) (λ _, ret None).

Definition _maybe_pointerize (data : option string) : callM (option json) :=
  match data with
  | Some d => if content_writer self then or_none (perform (PutContent d)) else ret None
  | None => ret None
  end.

Definition _write_audit (cid : string) (payload : row) : callM unit :=
  if audit_writer self then except_exception (perform (AppendAudit cid payload)) (λ _, ret tt) else ret tt.

(** How a call ended *)
Record ending := {
  e_ok : bool;
  e_result : json;
  e_error : option exn;
  e_cancelled : bool;
  e_interrupted : bool;
  e_charged_on_error : bool;
  e_cost_units : option Z;
  e_pointer_data : option string
}.

(** The text of an exception is not modelled; [JStr ""] stands for it. *)
Definition base_payload (e : ending) (elapsed_ms : Z) (p : row) : row :=
  let p := when_some (e_error e) "error" (λ _, JStr "") p in
  let p := when (e_cancelled e) "cancelled" (JBool true) p in
  let p := when (e_interrupted e) "interrupted" (JBool true) p in
  let p := when (e_charged_on_error e) "charged_on_error" (JBool true) p in
  let p := <["elapsed_ms"%string := JNum elapsed_ms]> p in
  let p := when_some (e_cost_units e) "cost_units" JNum p in
  let p := when_some (parent_task_id self) "parent_task_id" JStr p in
  when_some (execution_id self) "execution_id" JStr p.

Definition _finalize (cid : string) (e : ending) (with_content : bool) (started : Z) : callM unit :=
  pbind (perform Monotonic) (λ now,
    let! extra := (if payload_fn args then or_none (perform (PayloadFn (e_result e)) : callM row) else ret None) in
    let payload := base_payload e ((now - started) / 1000) (default ∅ extra) in
    let! data := (if bool_decide (e_pointer_data e = None) && e_ok e && with_content then
                    let! d := or_none (perform (ContentFn (e_result e)) : callM (option string)) in ret (mjoin d)
                  else ret (e_pointer_data e)) in
    let! pointer := _maybe_pointerize data in
    _write_audit cid (when_some pointer "pointer" (λ j, j) payload)).

(** *** GovernedCallClient.call *)

Definition handled : bool := own_handler args || handler self.

Definition wrapped : callM json := pbind (perform SetExecuted) (λ _, perform RunHandler).

Definition call : callM json :=
  if negb handled then raise ValueError
  else
    let! cid := the_call_id in
    do! budget_check in
    let! c := is_cancelled in
    if c then ret JNull
    else
      pbind (perform Monotonic) (λ started,
        pbind (let! result := governed_call wrapped cid in
               let! c := (if bool_decide (result = JNull) then is_cancelled else ret false) in
               ret (result, c))
          (λ r : res exn (json * bool),
            let '(result, cancelled, error) :=
              match r with
              | Ok (v, c) => (v, c, None)
              | Err CancelledError => (JNull, true, None)
              | Err e => (JNull, false, Some e)
              end in
            pbind (perform GetExecuted) (λ executed : bool,
              let! _ :=
                (if executed || bool_decide (error ≠ None) || cancelled then
                   let! cost_units := (if bool_decide (error = None) && negb cancelled && bool_decide (budget self ≠ None)
                                       then or_none (perform (CostFn result)) else ret None) in
                   _finalize cid {| e_ok := bool_decide (error = None) && negb cancelled; e_result := result; e_error := error;
                                    e_cancelled := cancelled; e_interrupted := false; e_charged_on_error := false;
                                    e_cost_units := cost_units; e_pointer_data := None |} (content_fn args) started
                 else ret tt) in
              Ret (res_map fst r)))).

(** *** GovernedCallClient.call_streaming

    [chunks] are what the handler would yield; the handler may fail, and the
    consumer leave, before the end.  [Ok true]: the stream was exhausted; [Ok
    false]: the consumer closed it. *)

Fixpoint consume (chunks : list json) : callM bool :=
  match chunks with
  | [] => do! (perform EndOfStream : callM unit) in ret true
  | c :: chunks =>
      do! (perform NextChunk : callM unit) in
      let! goes_on := (perform (YieldChunk c) : callM bool) in
      if goes_on then consume chunks else ret false
  end.

(** The local variables of [call_streaming] *)
Record locals := { l_gen : bool; l_result : json; l_cost : option Z; l_cancelled : bool; l_error : option exn }.

Definition at_start : locals := {| l_gen := false; l_result := JNull; l_cost := None; l_cancelled := false; l_error := None |}.
Definition set_gen (st : locals) : locals :=
  {| l_gen := true; l_result := l_result st; l_cost := l_cost st; l_cancelled := l_cancelled st; l_error := l_error st |}.
Definition set_result (v : json) (st : locals) : locals :=
  {| l_gen := l_gen st; l_result := v; l_cost := l_cost st; l_cancelled := l_cancelled st; l_error := l_error st |}.
Definition set_cost (n : Z) (st : locals) : locals :=
  {| l_gen := l_gen st; l_result := l_result st; l_cost := Some n; l_cancelled := l_cancelled st; l_error := l_error st |}.
Definition set_cancelled (st : locals) : locals :=
  {| l_gen := l_gen st; l_result := l_result st; l_cost := l_cost st; l_cancelled := true; l_error := l_error st |}.
Definition set_error (e : exn) (st : locals) : locals :=
  {| l_gen := l_gen st; l_result := l_result st; l_cost := l_cost st; l_cancelled := l_cancelled st; l_error := Some e |}.

(** The locals survive an exception. *)
Abbreviation stateful A := (prog call_ans (locals * res exn A)).
Definition attempt {A B} (p : callM A) (st : locals) (k : A → stateful B) : stateful B :=
  pbind p (λ r, match r with Ok a => k a | Err e => Ret (st, Err e) end).

(** The [try] block *)
Definition stream_try (chunks : list json) (cid : string) : stateful bool :=
  attempt (perform OpenStream) at_start (λ _ : unit,
    let st := set_gen at_start in
    attempt (consume chunks) st (λ exhausted,
      if negb exhausted then Ret (st, Ok false)
      else
        attempt (if result_fn args then (perform ResultFn : callM json) else ret JNull) st (λ result,
          let st := set_result result st in
          attempt (perform (CostFn result)) st (λ cost : Z,
            let st := set_cost cost st in
            attempt (budget_charge cost cid) st (λ _, Ret (st, Ok true)))))).

(** The charge of what an unfinished stream has consumed: only an exception
    that is not an [Exception] gets out. *)
Definition partial_charge (cid : string) (st : locals) : stateful unit :=
  if result_fn args then
    pbind (or_none (perform ResultFn)) (λ r,
      match r with
      | Err e => Ret (st, Err e)
      | Ok v =>
          let st := match v with Some v => set_result v st | None => st end in
          if bool_decide (l_result st = JNull) then Ret (st, Ok tt)
          else
            pbind (or_none (perform (CostFn (l_result st)))) (λ r,
              match r with
              | Err e => Ret (st, Err e)
              | Ok None => Ret (st, Ok tt)
              | Ok (Some cost) =>
                  let st := set_cost cost st in
                  pbind (or_none (budget_charge cost cid)) (λ r, Ret (st, res_map (λ _, tt) r))
              end)
      end)
  else Ret (st, Ok tt).

(** The [except] clauses *)
Definition stream_except (cid : string) (st : locals) (r : res exn bool) : stateful bool :=
  match r with
  | Ok true => Ret (st, Ok true)
  | Ok false =>
      attempt is_cancelled st (λ c,
        if c then Ret (set_cancelled st, Ok false)
        else pbind (partial_charge cid st) (λ '(st, r), Ret (st, res_map (λ _, false) r)))
  | Err CancelledError => Ret (set_cancelled st, Err CancelledError)
  | Err e => pbind (partial_charge cid (set_error e st)) (λ '(st, r), Ret (st, match r with Ok _ => Err e | Err e' => Err e' end))
  end.

Definition release_stream (token : string) : callM unit :=
  pbind (perform (StartRelease (resource self) token)) (λ started : bool,
    if started then catch (perform AwaitRelease : callM unit) (λ e, if decide (e = Other "RuntimeError") then ret tt else raise e)
    else ret tt).

(** How a stream ended: with [data] its partial content *)
Definition stream_ending (st : locals) (ok : bool) (data : option string) : ending :=
  {| e_ok := ok; e_result := l_result st; e_error := l_error st; e_cancelled := l_cancelled st;
     e_interrupted := negb ok && negb (l_cancelled st) && bool_decide (l_error st = None);
     e_charged_on_error := bool_decide (l_error st ≠ None) && bool_decide (l_cost st ≠ None);
     e_cost_units := l_cost st; e_pointer_data := data |}.

(** The [finally] clause *)
Definition stream_finally (cid token : string) (started : Z) (st : locals) (ok : bool) : callM unit :=
  do! (if l_gen st then except_exception (perform CloseStream) (λ _, ret tt) else ret tt) in
  let! data := (if negb ok && partial_fn args then
                  let! d := or_none (perform PartialFn : callM (option string)) in ret (mjoin d)
                else ret None) in
  do! _finalize cid (stream_ending st ok data) false started in
  release_stream token.

Definition call_streaming (chunks : list json) : callM bool :=
  if negb handled then raise ValueError
  else
    let! cid := the_call_id in
    do! budget_check in
    let! c := is_cancelled in
    if c then ret true
    else
      let! token := (perform (AcquireSlot (resource self)) : callM string) in
      pbind (perform Monotonic) (λ started,
        pbind (stream_try chunks cid) (λ '(st, r),
          let ok := bool_decide (r = Ok true) in
          pbind (stream_except cid st r) (λ '(st, r),
            pbind (stream_finally cid token started st ok) (λ f,
              match f with Ok _ => Ret r | Err e => Ret (Err e) end)))).

End Client.

(** ** Logs *)

Notation log_entry := (entry_of (ans := call_ans)).

(** The caller's functions are not coroutines: they cannot be cancelled. *)
Definition call_allow (o : call_op) (log : list log_entry) : call_ans o → Prop :=
  match o return call_ans o → Prop with
  | ResultFn => λ x, uncut x = true
  | CostFn _ => λ x, uncut x = true
  | PayloadFn _ => λ x, uncut x = true
  | ContentFn _ => λ x, uncut x = true
  | PartialFn => λ x, uncut x = true
  | GetExecuted => λ x, x = existsb (λ ev, match projT1 ev with SetExecuted => true | _ => false end) log
  | _ => λ _, True
  end.

Notation call_runs p r log := (runs (logged call_allow) p [] r log).

(** *** Slots *)

Inductive slot_note := Took (token : string) | Work | Gave (token : string).

Definition slot_of (ev : log_entry) : option slot_note :=
  let '(existT o x) := ev in
  match o return call_ans o → option slot_note with
  | AcquireSlot _ => λ x, match x with Ok token => Some (Took token) | Err _ => None end
  | StartRelease _ token => λ x, if x then Some (Gave token) else None
  | RunHandler | OpenStream | NextChunk | YieldChunk _ | EndOfStream | CloseStream => λ _, Some Work
  | _ => λ _, None
  end x.

(** The event loop has not been closed under the release. *)
Definition loop_open (ev : log_entry) : bool :=
  let '(existT o x) := ev in match o return call_ans o → bool with StartRelease _ _ => λ x, x | _ => λ _, true end x.

(** No cancellation reaches the [finally] block of a stream before the release. *)
Definition undisturbed (ev : log_entry) : bool :=
  let '(existT o x) := ev in
  match o return call_ans o → bool with
  | StartRelease _ _ => λ x, x
  | CloseStream => λ x, uncut x
  | PutContent _ => λ x, uncut x
  | AppendAudit _ _ => λ x, uncut x
  | _ => λ _, true
  end x.

(** One slot, taken before and given back after the work, or nothing at all *)
Definition one_slot (t : list slot_note) : Prop :=
  t = [] ∨ ∃ token work, t = Took token :: work ++ [Gave token] ∧ Forall (eq Work) work.

(** The calls that leave no note about slots, and those of the handler *)
Definition slotless (o : call_op) : Prop :=
  match o with
  | AcquireSlot _ | StartRelease _ _ | RunHandler | OpenStream | NextChunk | YieldChunk _ | EndOfStream | CloseStream => False
  | _ => True
  end.
Definition working (o : call_op) : Prop := match o with AcquireSlot _ | StartRelease _ _ => False | _ => True end.

Lemma slotless_quiet o x : slotless o → slot_of (existT o x) = None.
Proof. by destruct o. Qed.
Lemma working_work o x : working o → match slot_of (existT o x) with Some n => Work = n | None => True end.
Proof. by destruct o. Qed.

Section SlotProofs.

Context (self : GovernedCallClient) (args : call_args) (fine : log_entry → bool).
Notation straces := (traces call_allow slot_of fine).

Lemma calls_on_budget {A} (P : call_op → Prop) (p : M budget_ans A) : (∀ o, P (OnBudget o)) → calls P (on_budget p).
Proof. intros HP. apply calls_lift. induction p as [a|o k IH]; [done|]. by split. Qed.

Lemma calls_check (P : call_op → Prop) : (∀ o, P (OnBudget o)) → calls P (budget_check self).
Proof. intros HP. unfold budget_check. destruct (budget self); [|done]. by apply calls_on_budget. Qed.

Lemma calls_charge (P : call_op → Prop) n cid : (∀ o, P (OnBudget o)) → calls P (budget_charge self n cid).
Proof. intros HP. unfold budget_charge. destruct (budget self); [|done]. apply calls_seq; [by apply calls_on_budget|done]. Qed.

Lemma calls_or_none {A} (P : call_op → Prop) (p : callM A) : calls P p → calls P (or_none p).
Proof. intros Hp. apply calls_except; [|done]. by apply calls_seq. Qed.

Ltac call_calls :=
  prove_calls_with ltac:(first [ apply calls_check; done | apply calls_charge; done | apply calls_or_none | apply calls_except
    | apply (calls_perform (ans := call_ans)); exact I | exact I ]).

Lemma calls_finalize cid e b t : calls slotless (_finalize self args cid e b t).
Proof. unfold _finalize, _maybe_pointerize, _write_audit. call_calls. Qed.

Lemma calls_id : calls slotless (the_call_id args).
Proof. unfold the_call_id. call_calls. Qed.

Lemma quiet {A} (p : prog call_ans A) : calls slotless p → straces p (λ _ t, t = []).
Proof. apply traces_quiet. intros o x. apply slotless_quiet. Qed.

Lemma at_work {A} (p : prog call_ans A) : calls working p → straces p (λ _ t, Forall (eq Work) t).
Proof. apply traces_calls. intros o x. apply working_work. Qed.

Lemma calls_consume chunks : calls working (consume chunks).
Proof. induction chunks as [|c chunks IH]; cbn [consume]; call_calls. Qed.

Lemma calls_partial cid st : calls slotless (partial_charge self args cid st).
Proof. unfold partial_charge. call_calls. Qed.

Lemma calls_try chunks cid : calls working (stream_try self args chunks cid).
Proof.
  unfold stream_try, attempt.
  prove_calls_with ltac:(first [ apply calls_consume | apply calls_charge; done | apply (calls_perform (ans := call_ans)); exact I | exact I ]).
Qed.

Lemma calls_stream_except cid st r : calls slotless (stream_except self args cid st r).
Proof.
  unfold stream_except, attempt, is_cancelled.
  prove_calls_with ltac:(first [ apply calls_partial | apply (calls_perform (ans := call_ans)); exact I | exact I ]).
Qed.

Lemma calls_cancelled : calls slotless (is_cancelled args).
Proof. unfold is_cancelled. by destruct (cancel_token args). Qed.

Context (Hopen : ∀ ev, fine ev = true → loop_open ev = true).

Lemma acquire_traces : straces (perform (AcquireSlot (resource self)) : callM string)
  (λ r t, match r with Ok token => t = [Took token] | Err _ => t = [] end).
Proof. refine (traces_call _ _ _ (AcquireSlot (resource self)) _ _). by intros log [token|e]. Qed.

Lemma start_release_traces rn token : straces (perform (StartRelease rn token)) (λ (b : bool) t, b = true ∧ t = [Gave token]).
Proof. refine (traces_call _ _ _ (StartRelease rn token) _ _). intros log x _ Hf. apply Hopen in Hf. simpl in Hf. by rewrite Hf. Qed.

Lemma release_traces token : straces (_shielded_release self token) (λ _ t, t = [Gave token]).
Proof.
  eapply traces_pbind; [apply start_release_traces|]. intros b t1 [-> ->]. eapply traces_mono; [by apply quiet|]. by intros r t ->.
Qed.

Lemma release_stream_traces token : straces (release_stream self token) (λ _ t, t = [Gave token]).
Proof.
  eapply traces_pbind; [apply start_release_traces|]. intros b t1 [-> ->]. eapply traces_mono; [apply quiet; call_calls|]. by intros r t ->.
Qed.

Lemma governed_call_traces fn cid : calls working fn → straces (governed_call self args fn cid) (λ _ t, one_slot t).
Proof.
  intros Hfn. unfold governed_call.
  eapply traces_seq; [apply quiet, calls_cancelled| |]; [|by intros e t ->; left]. intros c t ->. destruct c; [by apply traces_ret; left|].
  eapply traces_seq; [apply quiet, calls_check; done| |]; [|by intros e t ->; left]. intros [] t ->.
  eapply traces_seq; [apply acquire_traces| |]; [|by intros e t ->; left]. intros token t ->.
  unfold finally. eapply (traces_pbind _ _ _ _ _ (λ _ t, Forall (eq Work) t)).
  - apply at_work. call_calls; first [by eapply calls_weaken; [|apply calls_cancelled]; intros []|done].
  - intros r t1 Ht1. eapply traces_pbind; [apply release_traces|]. intros r' t2 ->.
    destruct r'; apply traces_ret; right; exists token, t1; done.
Qed.

Lemma call_traces : straces (call self args) (λ _ t, one_slot t).
Proof.
  unfold call. destruct (negb (handled self args)); [by apply traces_ret; left|].
  eapply traces_seq; [apply quiet, calls_id| |]; [|by intros e t ->; left]. intros cid t ->.
  eapply traces_seq; [apply quiet, calls_check; done| |]; [|by intros e t ->; left]. intros [] t ->.
  eapply traces_seq; [apply quiet, calls_cancelled| |]; [|by intros e t ->; left]. intros c t ->. destruct c; [by apply traces_ret; left|].
  eapply traces_pbind; [by apply (quiet (perform Monotonic))|]. intros started t ->.
  eapply (traces_pbind _ _ _ _ _ (λ _ t, one_slot t)).
  - eapply traces_seq; [apply governed_call_traces; call_calls| |by auto]. intros v t Ht.
    eapply traces_mono; [apply quiet; apply calls_seq; [destruct (bool_decide _); [apply calls_cancelled|done]|done]|]. intros r t' ->. by rewrite app_nil_r.
  - intros r t Ht. destruct (match r with Ok (v, c) => _ | Err e => _ end) as [[v c] e] eqn:E.
    eapply traces_mono; [apply quiet|intros r' t' ->; by rewrite app_nil_r].
    prove_calls_with ltac:(first [match goal with |- calls _ (_finalize _ _ _ _ _ _) => apply calls_finalize end | apply calls_or_none | apply (calls_perform (ans := call_ans)); exact I | exact I]).
Qed.

End SlotProofs.

(** *** Finalization

    For any notes that observation leaves out, an undisturbed [_finalize] comes
    back normally. *)

Section Finalization.

Context (self : GovernedCallClient) (args : call_args) {N : Type} (note : log_entry → option N) (fine : log_entry → bool).
Context (Hund : ∀ ev, fine ev = true → undisturbed ev = true).
Notation ntraces := (traces call_allow note fine).

Definition calm {A} (p : callM A) (Q : list N → Prop) : Prop := ntraces p (λ r t, uncut r = true ∧ Q t).

Lemma or_none_traces {A} (p : callM A) Q : calm p Q → ntraces (or_none p) (λ r t, (∃ o, r = Ok o) ∧ Q t).
Proof.
  intros Hp. unfold or_none, except_exception. eapply traces_catch.
  - eapply (traces_seq _ _ _ _ _ _ (λ r t, uncut r = true ∧ Q t)); [exact Hp| |by intros e t H; exact H].
    intros a t H. apply traces_ret. rewrite app_nil_r. exact H.
  - intros e t [He Ht]. unfold is_exception. rewrite bool_decide_true by (by intros ->). apply traces_ret. rewrite app_nil_r. eauto.
  - intros o t [_ Ht]. eauto.
Qed.

(** What an audit record says of the ending *)
Definition recorded (e : ending) (payload : row) : Prop :=
  (e_cancelled e = true → payload !! "cancelled"%string = Some (JBool true)) ∧
  (e_interrupted e = true → payload !! "interrupted"%string = Some (JBool true)) ∧
  (e_error e ≠ None → is_Some (payload !! "error"%string)) ∧
  (∀ n, e_cost_units e = Some n → payload !! "cost_units"%string = Some (JNum n)) ∧
  (payload_fn args = false → (e_cancelled e = false → payload !! "cancelled"%string = None) ∧
    (e_interrupted e = false → payload !! "interrupted"%string = None) ∧ (e_error e = None → payload !! "error"%string = None) ∧
    (e_cost_units e = None → payload !! "cost_units"%string = None)).

Lemma base_payload_recorded e ms p pointer : (payload_fn args = false → p = ∅) →
  recorded e (when_some pointer "pointer" (λ j, j) (base_payload self e ms p)).
Proof.
  intros Hp. unfold recorded, base_payload. split_and!; intros; try (specialize (Hp ltac:(assumption)); split_and!; intros).
  all: repeat first [rewrite lookup_when_some | rewrite lookup_when | rewrite lookup_insert_ne by done]; simpl; rewrite ?andb_true_r, ?andb_false_r.
  all: repeat case_match; try done; try congruence; eauto; by rewrite Hp.
Qed.

Context (Hquiet : ∀ o x, match o with PayloadFn _ | ContentFn _ | PutContent _ | PartialFn | Monotonic => note (existT o x) = None | _ => True end).

Lemma finalize_traces cid e with_content started :
  ntraces (_finalize self args cid e with_content started) (λ r t, r = Ok tt ∧
    if audit_writer self then ∃ payload x, t = option_list (note (existT (AppendAudit cid payload) x)) ∧ recorded e payload else t = []).
Proof.
  unfold _finalize. eapply traces_pbind.
  { refine (traces_call _ _ _ Monotonic (λ _ t, t = []) _). intros log x _ _. by rewrite (Hquiet Monotonic x). }
  intros now t ->. eapply (traces_seq _ _ _ _ _ (λ r t, (∃ o, r = Ok o ∧ (payload_fn args = false → o = None)) ∧ t = [])); [| |by intros ? ? [(? & [=] & _) _]].
  { destruct (payload_fn args); [|apply traces_ret; by eauto]. eapply traces_mono; [apply (or_none_traces _ (λ t, t = []))|].
    - refine (traces_call _ _ _ (PayloadFn (e_result e)) _ _). intros log x Hx _. by rewrite (Hquiet (PayloadFn _) x).
    - intros r t [[o ->] ->]. split; [|done]. exists o. by split. }
  intros extra t [(o & [= <-] & Hnone) ->]. eapply (traces_seq _ _ _ _ _ (λ r t, (∃ o, r = Ok o) ∧ t = [])); [| |by intros ? ? [[? [=]] _]].
  { destruct (_ && _); [|by apply traces_ret; eauto]. eapply traces_seq; [apply (or_none_traces _ (λ t, t = []))| |].
    - refine (traces_call _ _ _ (ContentFn (e_result e)) _ _). intros log x Hx _. by rewrite (Hquiet (ContentFn _) x).
    - intros d t [_ ->]. apply traces_ret. eauto.
    - by intros ? ? [[? [=]] _]. }
  intros data t [_ ->]. eapply (traces_seq _ _ _ _ _ (λ r t, (∃ o, r = Ok o) ∧ t = [])); [| |by intros ? ? [[? [=]] _]].
  { unfold _maybe_pointerize. destruct data as [d|]; [|by apply traces_ret; eauto]. destruct (content_writer self); [|by apply traces_ret; eauto].
    apply or_none_traces. refine (traces_call _ _ _ (PutContent d) _ _). intros log x _ Hf. apply Hund in Hf. simpl in Hf. by rewrite (Hquiet (PutContent _) x). }
  intros pointer t [_ ->]. unfold _write_audit. set (payload := when_some pointer _ _ _). destruct (audit_writer self); [|by apply traces_ret].
  apply traces_ignore. refine (traces_call _ _ _ (AppendAudit cid payload) _ _). intros log x _ Hf. apply Hund in Hf. simpl in Hf. split; [done|].
  exists payload, x. split; [done|]. apply base_payload_recorded. intros Hp. by rewrite (Hnone Hp).
Qed.

End Finalization.

(** *** The slot of a stream *)

Section StreamSlot.

Context (self : GovernedCallClient) (args : call_args).
Notation straces := (traces call_allow slot_of undisturbed).

Lemma undisturbed_open ev : undisturbed ev = true → loop_open ev = true.
Proof. by destruct ev as [[] x]. Qed.

Lemma slot_quiet o x : match o with PayloadFn _ | ContentFn _ | PutContent _ | PartialFn | Monotonic => slot_of (existT o x) = None | _ => True end.
Proof. by destruct o. Qed.

Lemma stream_finally_slots cid token started st ok :
  straces (stream_finally self args cid token started st ok) (λ _ t, ∃ w, t = w ++ [Gave token] ∧ Forall (eq Work) w).
Proof.
  unfold stream_finally. eapply (traces_seq _ _ _ _ _ (λ r t, r = Ok tt ∧ Forall (eq Work) t)); [| |by intros ? ? [[=] _]].
  { destruct (l_gen st); [|by apply traces_ret]. apply traces_ignore. refine (traces_call _ _ _ CloseStream _ _). intros log x _ Hf.
    split; [exact Hf|]. by repeat constructor. }
  intros [] w [_ Hw]. eapply (traces_seq _ _ _ _ _ (λ r t, (∃ o, r = Ok o) ∧ t = [])); [| |by intros ? ? [[? [=]] _]].
  { destruct (_ && _); [|by apply traces_ret; eauto]. eapply traces_seq; [apply (or_none_traces _ _ _ (λ t, t = []))| |].
    - refine (traces_call _ _ _ PartialFn _ _). by intros log x Hx _.
    - intros d t [_ ->]. apply traces_ret. eauto.
    - by intros ? ? [[? [=]] _]. }
  intros data t [_ ->]. eapply (traces_seq _ _ _ _ _ (λ r t, r = Ok tt ∧ t = [])); [| |by intros ? ? [[=] _]].
  { eapply traces_mono; [apply finalize_traces; [done|apply slot_quiet]|]. intros r t [-> Ht]. split; [done|].
    destruct (audit_writer self); [|done]. by destruct Ht as (payload & x & -> & _). }
  intros [] t [_ ->]. eapply traces_mono; [apply release_stream_traces, undisturbed_open|]. intros r t ->. exists w. by rewrite !app_nil_l.
Qed.

Lemma call_streaming_slots chunks : straces (call_streaming self args chunks) (λ _ t, one_slot t).
Proof.
  unfold call_streaming. destruct (negb (handled self args)); [by apply traces_ret; left|].
  eapply traces_seq; [apply quiet, calls_id| |]; [|by intros e t ->; left]. intros cid t ->.
  eapply traces_seq; [apply quiet, calls_check; done| |]; [|by intros e t ->; left]. intros [] t ->.
  eapply traces_seq; [apply quiet, calls_cancelled| |]; [|by intros e t ->; left]. intros c t ->. destruct c; [by apply traces_ret; left|].
  eapply traces_seq; [apply acquire_traces| |]; [|by intros e t ->; left]. intros token t ->.
  eapply traces_pbind; [by apply (quiet _ (perform Monotonic))|]. intros started t ->.
  eapply traces_pbind; [apply at_work, calls_try|]. intros [st r] w1 Hw1.
  eapply traces_pbind; [apply quiet, calls_stream_except|]. intros [st' r'] t ->.
  eapply traces_pbind; [apply stream_finally_slots|]. intros f t (w2 & -> & Hw2).
  assert (one_slot ([Took token] ++ w1 ++ w2 ++ [Gave token])) as H.
  { right. exists token, (w1 ++ w2). split; [simpl; by rewrite <- app_assoc|]. by apply Forall_app. }
  destruct f; apply traces_ret; simpl in *; by rewrite app_nil_r.
Qed.

End StreamSlot.

(** C8: a governed call takes at most one slot, does all its work between
    taking and giving it back, and gives it back exactly once, whatever the
    budget, the cancel token, the handler and the observers do and wherever the
    call is cancelled (unless the event loop is closed under it). *)
Theorem call_slot self args r log : call_runs (call self args) r log → forallb loop_open log = true → one_slot (omap slot_of log).
Proof. intros Hr Hf. exact (traces_runs _ _ _ _ _ _ _ (call_traces self args loop_open (λ _ H, H)) Hr Hf). Qed.

(** C9: so does a streaming call, for every stream of chunks, every place
    where the consumer leaves or the handler fails, as long as no cancellation
    arrives while the stream is being closed and recorded. *)
Theorem stream_slot self args chunks r log : call_runs (call_streaming self args chunks) r log → forallb undisturbed log = true →
  one_slot (omap slot_of log).
Proof. intros Hr Hf. exact (traces_runs _ _ _ _ _ _ _ (call_streaming_slots self args chunks) Hr Hf). Qed.

(** *** The record of a stream *)

(** The slot was taken; the result and cost functions answered; a charge was
    attempted; the record was written. *)
Inductive observed :=
  | Entered
  | Resulted (result : json)
  | Costed (result : json) (units : Z)
  | Charged (call_id : string) (units : Z)
  | Audited (event_id : string) (payload : row).

Definition observe (ev : log_entry) : option observed :=
  let '(existT o x) := ev in
  match o return call_ans o → option observed with
  | AcquireSlot _ => λ x, match x with Ok _ => Some Entered | Err _ => None end
  | ResultFn => λ x, match x with Ok v => Some (Resulted v) | Err _ => None end
  | CostFn v => λ x, match x with Ok n => Some (Costed v n) | Err _ => None end
  | OnBudget (ReserveUnits _ id n _ _) => λ _, Some (Charged id n)
  | AppendAudit id p => λ _, Some (Audited id p)
  | _ => λ _, None
  end x.

Definition unobserved (o : call_op) : Prop :=
  match o with AcquireSlot _ | OnBudget (ReserveUnits _ _ _ _ _) | AppendAudit _ _ | ResultFn | CostFn _ => False | _ => True end.

Section StreamRecord.

Context (self : GovernedCallClient) (args : call_args).
Notation otraces := (traces call_allow observe undisturbed).

(** The charge of [n] units is attempted, if there is a budget and a cost. *)
Definition paid (n : Z) : list Z := if bool_decide (budget self ≠ None) && (0 <? n)%Z then [n] else [].

Lemma unseen {A} (p : prog call_ans A) : calls unobserved p → otraces p (λ _ t, t = []).
Proof. apply traces_quiet. by intros [[]| | | | | | | | | | | | | | | | | | | | |] x. Qed.

Lemma calls_balance ledger : calls (λ o, unobserved (OnBudget o)) (balance ledger).
Proof. apply calls_seq; [by apply calls_perform|done]. Qed.

Lemma charge_observed ledger n cid :
  otraces (on_budget (charge ledger n cid)) (λ _ t, t = Charged cid <$> (if (0 <? n)%Z then [n] else [])).
Proof.
  unfold charge. destruct (Z.leb_spec n 0), (Z.ltb_spec 0 n); try lia; [apply unseen, calls_lift, calls_balance|].
  set (k := λ a : Quota.quota_result, (let! b := balance ledger in do! except_exception (perform (RecordCharge (scope ledger) cid n b)) (λ _, ret tt) in ret b) : M budget_ans Z).
  change (otraces (pbind (perform (OnBudget (ReserveUnits (scope ledger) cid n (_max_units ledger * 1000) (_ttl ledger))))
    (λ x : res exn Quota.quota_result, on_budget (match x with Ok a => k a | Err e => Ret (Err e) end))) (λ _ t, t = [Charged cid n])).
  eapply traces_pbind.
  - refine (traces_call _ _ _ (OnBudget (ReserveUnits _ _ _ _ _)) (λ _ t, t = [Charged cid n]) _). done.
  - intros x t ->. eapply traces_mono; [apply unseen, calls_lift|by intros r t ->]. destruct x as [q|e]; [|done].
    apply calls_seq; [apply calls_balance|]. intros b. apply calls_seq; [|done]. apply calls_except; [by apply calls_perform|done].
Qed.

Lemma budget_charge_observed n cid : otraces (budget_charge self n cid) (λ _ t, t = Charged cid <$> paid n).
Proof.
  unfold budget_charge, paid. destruct (budget self) as [ledger|]; [|by apply traces_ret].
  eapply traces_seq; [apply charge_observed| |by intros e t ->]. intros b t ->. apply traces_ret. by rewrite app_nil_r.
Qed.

(** What was computed and charged so far: the last result, the last cost and
    the notes they left.  Every charge follows the cost function, with its
    answer as amount, and the cost function is asked about the last result. *)
Inductive billing (cid : string) : json → option Z → list observed → Prop :=
  | bill_nothing : billing cid JNull None []
  | bill_result v c t v' : billing cid v c t → billing cid v' c (t ++ [Resulted v'])
  | bill_cost v c t n : billing cid v c t → billing cid v (Some n) (t ++ Costed v n :: (Charged cid <$> paid n)).

(** The bill of a stream that was consumed to its end *)
Definition full_bill (cid : string) (v : json) (n : Z) : list observed :=
  (if result_fn args then [Resulted v] else []) ++ Costed v n :: (Charged cid <$> paid n).

(** The locals and the notes [t] after the [try] block, and after [except] *)
Definition tried (cid : string) (st : locals) (r : res exn bool) (t : list observed) : Prop :=
  l_cancelled st = false ∧ l_error st = None ∧ billing cid (l_result st) (l_cost st) t ∧
  (r = Ok true → ∃ n, l_cost st = Some n ∧ t = full_bill cid (l_result st) n) ∧ (r = Ok false → t = []).

Definition excepted (cid : string) (ok : bool) (st : locals) (r : res exn bool) (t : list observed) : Prop :=
  billing cid (l_result st) (l_cost st) t ∧
  (if ok then r = Ok true ∧ l_cancelled st = false ∧ l_error st = None ∧ ∃ n, l_cost st = Some n ∧ t = full_bill cid (l_result st) n
   else r ≠ Ok true) ∧
  (r = Ok false → l_error st = None ∧ (l_cancelled st = true → t = [])).

Lemma calls_try_head chunks : calls unobserved (consume chunks).
Proof.
  induction chunks as [|c chunks IH]; cbn [consume];
    prove_calls_with ltac:(first [exact IH | apply (calls_perform (ans := call_ans)); exact I | exact I]).
Qed.

Lemma result_observed : otraces (perform ResultFn : callM json) (λ r t, t = match r with Ok v => [Resulted v] | Err _ => [] end).
Proof. refine (traces_call _ _ _ ResultFn _ _). by intros log [v|e]. Qed.

Lemma cost_observed v : otraces (perform (CostFn v) : callM Z) (λ r t, t = match r with Ok n => [Costed v n] | Err _ => [] end).
Proof. refine (traces_call _ _ _ (CostFn v) _ _). by intros log [n|e]. Qed.

Lemma or_none_observed {A} (p : callM A) (note : A → observed) :
  otraces p (λ r t, t = match r with Ok v => [note v] | Err _ => [] end) →
  otraces (or_none p) (λ r t, match r with Ok (Some v) => t = [note v] | _ => t = [] end).
Proof.
  intros Hp. unfold or_none, except_exception.
  eapply (traces_catch _ _ _ _ _ (λ r t, match r with Ok (Some v) => t = [note v] | _ => t = [] end)).
  - eapply traces_seq; [exact Hp| |by intros e t ->]. intros a t ->. by apply traces_ret.
  - intros e t Ht. destruct (is_exception e); apply traces_ret; rewrite app_nil_r; exact Ht.
  - by intros [v|] t Ht.
Qed.

Lemma stream_try_observed chunks cid : otraces (stream_try self args chunks cid) (λ '(st, r) t, tried cid st r t).
Proof.
  assert (∀ st r, st = at_start ∨ st = set_gen at_start → r ≠ Ok true → tried cid st r []) as Hfree.
  { intros st r [-> | ->] Hr; split_and!; try done; apply bill_nothing. }
  unfold stream_try, attempt.
  eapply traces_pbind; [apply unseen; by apply calls_perform|]. intros [[]|e] t ->; [|apply traces_ret, Hfree; auto].
  eapply traces_pbind; [apply unseen, calls_try_head|]. intros [b|e] t ->; [|apply traces_ret, Hfree; auto].
  destruct b; [|apply traces_ret, Hfree; auto]. cbn [negb].
  eapply (traces_pbind _ _ _ _ _ (λ r t, match r with
    | Ok v => t = (if result_fn args then [Resulted v] else []) ∧ (result_fn args = false → v = JNull)
    | Err _ => t = [] end)).
  { destruct (result_fn args); [|by apply traces_ret]. eapply traces_mono; [apply result_observed|]. by intros [v|e] t ->. }
  intros [v|e] t; [|intros ->; apply traces_ret, Hfree; auto]. intros [-> Hv].
  assert (billing cid v None (if result_fn args then [Resulted v] else [])) as Hb.
  { destruct (result_fn args); [apply (bill_result cid JNull None []), bill_nothing|rewrite Hv by done; apply bill_nothing]. }
  eapply traces_pbind; [apply cost_observed|]. intros [n|e] t ->; [|apply traces_ret; rewrite ?app_nil_r; by split_and!].
  eapply traces_pbind; [apply budget_charge_observed|]. intros r t ->.
  assert (∀ r', r' ≠ Ok false → tried cid (set_cost n (set_result v (set_gen at_start))) (r' : res exn bool) (full_bill cid v n)) as Hend.
  { intros r' Hne. split_and!; try done; [by apply (bill_cost cid v None)|by eauto]. }
  destruct r as [[]|e]; apply traces_ret; rewrite ?app_nil_r; by apply Hend.
Qed.

Lemma partial_charge_observed cid st t0 : billing cid (l_result st) (l_cost st) t0 →
  otraces (partial_charge self args cid st) (λ '(st', r) t,
    l_cancelled st' = l_cancelled st ∧ l_error st' = l_error st ∧ billing cid (l_result st') (l_cost st') (t0 ++ t)).
Proof.
  intros Hb. unfold partial_charge. destruct (result_fn args); [|apply traces_ret; by rewrite app_nil_r].
  eapply traces_pbind; [apply (or_none_observed _ Resulted), result_observed|]. intros [v|e] t Ht; [|subst t; apply traces_ret; by rewrite app_nil_r].
  set (st1 := match v with Some v => set_result v st | None => st end).
  assert (l_cancelled st1 = l_cancelled st ∧ l_error st1 = l_error st ∧ billing cid (l_result st1) (l_cost st1) (t0 ++ t)) as (E1 & E2 & E3).
  { destruct v as [v|]; subst t; [split_and!; [done..|by eapply bill_result]|by rewrite app_nil_r]. }
  clearbody st1. destruct (bool_decide _); [apply traces_ret; by rewrite !app_nil_r|].
  eapply traces_pbind; [apply (or_none_observed _ (Costed (l_result st1))), cost_observed|].
  intros [[n|]|e] t' Ht'; [|subst t'; apply traces_ret; by rewrite !app_nil_r..].
  eapply traces_pbind.
  - unfold or_none, except_exception. eapply (traces_catch _ _ _ _ _ (λ _ t, t = Charged cid <$> paid n) (λ _ t, t = Charged cid <$> paid n)); [| |done].
    + eapply traces_seq; [apply budget_charge_observed| |done]. intros a u ->. apply traces_ret. by rewrite app_nil_r.
    + intros e u ->. destruct (is_exception e); apply traces_ret; by rewrite app_nil_r.
  - intros r u ->. apply traces_ret. rewrite app_nil_r, Ht', app_assoc. split_and!; [done..|]. by eapply bill_cost.
Qed.

Lemma stream_except_observed cid st r t0 : tried cid st r t0 →
  otraces (stream_except self args cid st r) (λ '(st', r') t, excepted cid (bool_decide (r = Ok true)) st' r' (t0 ++ t)).
Proof.
  intros (Hc & He & Hb & Hok & Hno). unfold stream_except.
  assert (∀ e, otraces (pbind (partial_charge self args cid (set_error e st))
      (λ '(st, r), Ret (st, match r with Ok _ => Err e | Err e' => Err e' end)))
    (λ '(st', r') t, excepted cid false st' (r' : res exn bool) (t0 ++ t))) as Herr.
  { intros e. eapply traces_pbind; [by apply (partial_charge_observed _ _ t0)|]. intros [st' r'] t (E1 & E2 & E3).
    apply traces_ret. rewrite app_nil_r. split_and!; [done|by destruct r'|by destruct r']. }
  destruct r as [[]|e].
  - rewrite bool_decide_true by done. apply traces_ret. rewrite app_nil_r. split_and!; try done. by apply Hok.
  - specialize (Hno eq_refl) as ->. unfold attempt. eapply traces_pbind; [apply unseen; unfold is_cancelled; by destruct (cancel_token args)|].
    intros [c|e] t ->; [|by apply traces_ret]. destruct c; [by apply traces_ret|].
    eapply traces_pbind; [by apply (partial_charge_observed _ _ [])|]. intros [st' r'] t (E1 & E2 & E3).
    apply traces_ret. rewrite app_nil_r. split_and!; [done|by destruct r'|]. intros _. rewrite E1, E2. split; [done|congruence].
  - destruct (decide (e = CancelledError)) as [->|Hne]; [apply traces_ret; rewrite app_nil_r; by split_and!|].
    destruct e; [by apply Herr..|done].
Qed.

Lemma calls_release token : calls unobserved (release_stream self token).
Proof. unfold release_stream. prove_calls_with ltac:(first [apply (calls_perform (ans := call_ans)); exact I | exact I]). Qed.

Lemma observe_quiet o x : match o with PayloadFn _ | ContentFn _ | PutContent _ | PartialFn | Monotonic => observe (existT o x) = None | _ => True end.
Proof. by destruct o. Qed.

Lemma stream_finally_observed cid token started st ok : audit_writer self = true →
  otraces (stream_finally self args cid token started st ok)
    (λ _ t, ∃ payload data, t = [Audited cid payload] ∧ recorded args (stream_ending st ok data) payload).
Proof.
  intros Hw. unfold stream_finally. eapply (traces_seq _ _ _ _ _ (λ r t, r = Ok tt ∧ t = [])); [| |by intros ? ? [[=] _]].
  { destruct (l_gen st); [|by apply traces_ret]. apply traces_ignore. refine (traces_call _ _ _ CloseStream _ _). by intros log x _ Hf. }
  intros [] t [_ ->]. eapply (traces_seq _ _ _ _ _ (λ r t, (∃ o, r = Ok o) ∧ t = [])); [| |by intros ? ? [[? [=]] _]].
  { destruct (_ && _); [|by apply traces_ret; eauto]. eapply traces_seq; [apply (or_none_traces _ _ _ (λ t, t = []))| |].
    - refine (traces_call _ _ _ PartialFn _ _). by intros log x Hx _.
    - intros d t [_ ->]. apply traces_ret. eauto.
    - by intros ? ? [[? [=]] _]. }
  intros data t [_ ->]. eapply (traces_seq _ _ _ _ _ (λ r t, r = Ok tt ∧ ∃ payload, t = [Audited cid payload] ∧ recorded args (stream_ending st ok data) payload));
    [| |by intros ? ? [[=] _]].
  { eapply traces_mono; [apply finalize_traces; [done|apply observe_quiet]|]. rewrite Hw. intros r t [-> (payload & x & -> & Hp)]. eauto. }
  intros [] t [_ (payload & -> & Hp)]. eapply traces_mono; [apply unseen, calls_release|]. intros r t ->. eauto.
Qed.

(** The record of a stream that was consumed to its end, and of another *)
Definition clean_record (payload : row) : Prop :=
  payload_fn args = false → payload !! "cancelled"%string = None ∧ payload !! "interrupted"%string = None ∧ payload !! "error"%string = None.
Definition cancelled_record (payload : row) : Prop := payload !! "cancelled"%string = Some (JBool true).
Definition interrupted_record (payload : row) : Prop := payload !! "interrupted"%string = Some (JBool true).

(** What the notes [t] and the record [payload] say of a stream that ended with [r] *)
Definition accounted (cid : string) (r : res exn bool) (t : list observed) (payload : row) : Prop :=
  ∃ v c, billing cid v c t ∧
    match c with
    | Some n => payload !! "cost_units"%string = Some (JNum n)
    | None => payload_fn args = false → payload !! "cost_units"%string = None
    end ∧
    let whole := clean_record payload ∧ ∃ n, c = Some n ∧ t = full_bill cid v n in
    match r with
    | Ok true => whole
    | Ok false => cancelled_record payload ∧ t = [] ∨ interrupted_record payload
    | Err _ => whole ∨ cancelled_record payload ∨ interrupted_record payload ∨ is_Some (payload !! "error"%string)
    end.

Lemma accounts cid ok st r t payload data : excepted cid ok st r t → recorded args (stream_ending st ok data) payload → accounted cid r t payload.
Proof.
  intros (Hb & Hok & Hfalse) (Rc & Ri & Re & Rn & Rp). cbn [stream_ending e_cancelled e_interrupted e_error e_cost_units] in *.
  exists (l_result st), (l_cost st). split; [done|]. split.
  { destruct (l_cost st) as [n|]; [by apply Rn|]. intros Hf. by apply Rp. }
  destruct ok.
  - destruct Hok as (-> & Hc & He & n & Hn & ->). split; [|by eauto]. intros Hf. destruct (Rp Hf) as (P1 & P2 & P3 & _). split_and!; auto.
  - destruct r as [[]|e]; [done| |].
    + destruct (Hfalse eq_refl) as [He Hc]. destruct (l_cancelled st); [left; split; [by apply Rc|by apply Hc]|right]. apply Ri. by rewrite He.
    + right. destruct (l_cancelled st); [left; by apply Rc|]. destruct (l_error st) as [e'|]; [right; right; by apply Re|right; left; by apply Ri].
Qed.

Lemma accounted_err cid r e t payload : accounted cid r t payload → accounted cid (Err e) t payload.
Proof. intros (v & c & Hb & Hc & H). exists v, c. split; [done|]. split; [done|]. cbv zeta in *. destruct r as [[]|e']; tauto. Qed.

Lemma call_streaming_observed chunks : audit_writer self = true → otraces (call_streaming self args chunks) (λ r t,
  t = [] ∨ ∃ cid bill payload, t = Entered :: bill ++ [Audited cid payload] ∧ accounted cid r bill payload).
Proof.
  intros Hw. unfold call_streaming. destruct (negb (handled self args)); [by apply traces_ret; left|].
  eapply traces_seq; [apply unseen| |]; [unfold the_call_id; by repeat case_match| |by intros e t ->; left]. intros cid t ->.
  eapply traces_seq; [apply unseen| |]; [| |by intros e t ->; left].
  { unfold budget_check. destruct (budget self) as [ledger|]; [|done]. apply calls_lift, calls_seq; [apply calls_balance|]. intros b. by case_match. }
  intros [] t ->. eapply traces_seq; [apply unseen; unfold is_cancelled; by destruct (cancel_token args)| |by intros e t ->; left].
  intros c t ->. destruct c; [by apply traces_ret; left|].
  eapply (traces_seq _ _ _ _ _ (λ r t, t = match r with Ok _ => [Entered] | Err _ => [] end)); [| |by intros e t ->; left].
  { refine (traces_call _ _ _ (AcquireSlot (resource self)) _ _). by intros log [token|e]. }
  intros token t ->. eapply traces_pbind; [by apply (unseen (perform Monotonic))|]. intros started t ->.
  eapply traces_pbind; [apply stream_try_observed|]. intros [st r] t1 H1.
  eapply traces_pbind; [by apply stream_except_observed|]. intros [st' r'] t2 H2.
  eapply traces_pbind; [by apply stream_finally_observed|]. intros f t (payload & data & -> & H3).
  pose proof (accounts _ _ _ _ _ _ _ H2 H3) as Ha.
  destruct f as [[]|e]; apply traces_ret; right; exists cid, (t1 ++ t2), payload; (split; [simpl; by rewrite <- app_assoc|]);
    [done|by eapply accounted_err].
Qed.

End StreamRecord.

(** C10: a stream that entered leaves exactly one audit record, and it is the
    last thing that is written, when there is an audit writer and no
    cancellation arrives while the stream is being closed and recorded and the
    event loop stays open.  Before the record come only the answers of the
    result and cost functions and the charges they led to, all under the id of
    the record: every charge is the amount that the cost function just gave
    for the last result, attempted exactly if there is a budget and the amount
    is positive, and the record tells the last cost.  A stream that was
    consumed to its end is charged what its result costs, exactly once, and
    its record is clean; one that its consumer left is recorded as cancelled,
    and not charged, or as interrupted; one that raises is recorded as
    cancelled, interrupted or failed, unless it had been consumed and charged
    and only giving the slot back raised.  A stream that did not enter is
    neither charged nor recorded. *)
Theorem stream_observed self args chunks r log : audit_writer self = true →
  call_runs (call_streaming self args chunks) r log → forallb undisturbed log = true →
  omap observe log = [] ∨
  ∃ cid bill payload, omap observe log = Entered :: bill ++ [Audited cid payload] ∧ accounted self args cid r bill payload.
Proof. intros Hw Hr Hf. exact (traces_runs _ _ _ _ _ _ _ (call_streaming_observed self args chunks Hw) Hr Hf). Qed.

(** ** Runs *)

Module GovernedCallWitness.

Local Open Scope string_scope.

Definition client : GovernedCallClient :=
  {| resource := "llm"; handler := true; budget := Some {| _root_task_id := "r"; _max_units := 100; _ttl := 60 |};
     audit_writer := true; content_writer := true; parent_task_id := None; execution_id := None |}.
Definition arguments : call_args :=
  {| cancel_token := true; own_handler := false; call_id := Some "c1"; payload_fn := false; content_fn := false; result_fn := true; partial_fn := true |}.

(** The consumer goes on unless it was handed [stop]; the cancel token says
    [flipped]; [closing] is what becomes of [aclose()]; [seen] is the pending
    amount of the budget. *)
Definition answers (flipped : bool) (stop : json) (closing : res exn unit) (seen : list log_entry → Z) (o : call_op) (log : list log_entry) : call_ans o :=
  match o with
  | OnBudget (ReserveUnits _ _ n _ _) => Ok {| Quota.q_ok := true; Quota.q_reason := Quota.Done; Quota.q_current := n; Quota.q_amount := n |}
  | OnBudget (RecordCharge _ _ _ _) => Ok tt
  | OnBudget (GetPendingUnits _) => Ok (seen log)
  | IsCancelled => Ok flipped
  | YieldChunk c => Ok (bool_decide (c ≠ stop))
  | AcquireSlot _ => Ok "t1"
  | StartRelease _ _ => true
  | GetExecuted => existsb (λ ev, match projT1 ev with SetExecuted => true | _ => false end) log
  | CloseStream => closing
  | AwaitRelease | OpenStream | NextChunk | EndOfStream | AppendAudit _ _ => Ok tt
  | RunHandler | ResultFn => Ok (JStr "answer")
  | PutContent d => Ok (JStr d)
  | CostFn _ => Ok 7%Z
  | PayloadFn _ => Ok ∅
  | ContentFn _ | PartialFn => Ok (Some "part")
  | Monotonic => 0%Z
  | NewCallId => "call-0"
  | SetExecuted => tt
  end.

Lemma answers_allowed flipped stop closing seen o log : call_allow o log (answers flipped stop closing seen o log).
Proof. by destruct o. Qed.

Definition run {A} flipped stop closing seen (p : prog call_ans A) : A * list log_entry := play (scripted (answers flipped stop closing seen)) p [].

Definition plain {A} : prog call_ans A → A * list log_entry := run false JNull (Ok tt) (λ _, 0%Z).

(** A call that goes well *)
Lemma call_slot_witness : call_runs (call client arguments) (Ok (JStr "answer")) (plain (call client arguments)).2 ∧
  one_slot (omap slot_of (plain (call client arguments)).2).
Proof.
  assert (call_runs (call client arguments) (Ok (JStr "answer")) (plain (call client arguments)).2) as Hr.
  { assert ((plain (call client arguments)).1 = Ok (JStr "answer")) as <- by (vm_compute; reflexivity). apply scripted_runs. intros o log. apply answers_allowed. }
  split; [exact Hr|]. apply (call_slot client arguments _ _ Hr). vm_compute. reflexivity.
Defined.

(** A stream whose consumer leaves after the first chunk, without a cancellation *)
Definition left_early : res exn bool * list log_entry := run false (JNum 1) (Ok tt) (λ _, 0%Z) (call_streaming client arguments [JNum 1; JNum 2]).

Lemma left_early_runs : call_runs (call_streaming client arguments [JNum 1; JNum 2]) (Ok false) left_early.2.
Proof.
  assert (left_early.1 = Ok false) as <- by (vm_compute; reflexivity). apply scripted_runs. intros o log. apply answers_allowed.
Qed.

Lemma stream_slot_witness : one_slot (omap slot_of left_early.2).
Proof. apply (stream_slot client arguments [JNum 1; JNum 2] _ _ left_early_runs). vm_compute. reflexivity. Defined.

Lemma stream_observed_witness : omap observe left_early.2 = [] ∨
  ∃ cid bill payload, omap observe left_early.2 = Entered :: bill ++ [Audited cid payload] ∧ accounted client arguments cid (Ok false) bill payload.
Proof. apply (stream_observed client arguments [JNum 1; JNum 2] _ _ eq_refl left_early_runs). vm_compute. reflexivity. Defined.

(** A cancellation that arrives while the handler's generator is being closed
    gets out of the [finally] block before the release: the slot stays taken,
    and the stream has no audit record. *)
Definition cancelled_while_closing : res exn bool * list log_entry :=
  run false JNull (Err CancelledError) (λ _, 0%Z) (call_streaming client arguments [JNum 1]).

Example slot_is_leaked :
  call_runs (call_streaming client arguments [JNum 1]) (Err CancelledError) cancelled_while_closing.2 ∧
  omap slot_of cancelled_while_closing.2 = [Took "t1"; Work; Work; Work; Work; Work] ∧ omap observe cancelled_while_closing.2 = [Entered; Resulted (JStr "answer"); Costed (JStr "answer") 7; Charged "c1" 7].
Proof.
  split; [|by vm_compute]. assert (cancelled_while_closing.1 = Err CancelledError) as <- by (vm_compute; reflexivity).
  apply scripted_runs. intros o log. apply answers_allowed.
Qed.

(** The budget runs out between the two checks of a call: the attempt never
    reached the resource, and yet it leaves an audit record. *)
Definition blocked_late : res exn json * list log_entry :=
  run false JNull (Ok tt) (λ log, match log with [] => 0%Z | _ => 100%Z end) (call client arguments).

Example blocked_and_audited : call_runs (call client arguments) (Err BudgetExhausted) blocked_late.2 ∧
  omap slot_of blocked_late.2 = [] ∧ ∃ payload, omap observe blocked_late.2 = [Audited "c1" payload].
Proof.
  split; [|split; [by vm_compute|]]. 2: by eexists; vm_compute.
  assert (blocked_late.1 = Err BudgetExhausted) as <- by (vm_compute; reflexivity). apply scripted_runs. intros o log. apply answers_allowed.
Qed.

End GovernedCallWitness.
