(* ===== verification/Manifest.v ===== *)
(** * The manifest of a stream

    stream/events/payloads.py (the payloads of the events),
    stream/finalizer/manifest.py (the manifest that ends a stream and its
    storage) and stream/client/resolver.py (the client that polls the
    placeholders that a manifest left pending). *)
From Stdlib Require Import ZArith Lia Ascii.
From stdpp Require Import prelude gmap list strings.
From S2P Require Import Prelude Enrich Effects.
Local Open Scope list_scope.

(** ** Event payloads

    A pydantic model is dumped without the fields that have their default
    value; [ext] is left out when it is empty. *)

Inductive DeltaKind := CONTENT | THINKING | REFERENCES.
Definition delta_kind_value (k : DeltaKind) : string :=
  match k with CONTENT => "content" | THINKING => "thinking" | REFERENCES => "references" end.

Inductive ErrorCode := SOURCE_ERROR | ENRICH_ERROR | TIMEOUT | CANCELLED | BACKPRESSURE | UPSTREAM_INTERRUPTED | INTERNAL.
Definition error_code_value (c : ErrorCode) : string :=
  match c with
  | SOURCE_ERROR => "SOURCE_ERROR" | ENRICH_ERROR => "ENRICH_ERROR" | TIMEOUT => "TIMEOUT" | CANCELLED => "CANCELLED"
  | BACKPRESSURE => "BACKPRESSURE" | UPSTREAM_INTERRUPTED => "UPSTREAM_INTERRUPTED" | INTERNAL => "INTERNAL"
  end.

Definition placeholder_state_value (s : PlaceholderState) : string :=
  match s with PENDING => "pending" | RESOLVED => "resolved" | FAILED => "failed" end.

Definition when_dict (m : row) (k : string) (p : row) : row := when (bool_decide (m ≠ ∅)) k (JObj m) p.

Definition make_stream_start (stages : list string) (resume_token : string) (config_echo ext : row) : row :=
  when_dict ext "ext" (when_dict config_echo "config_echo"
    {[ "stages"%string := JArr (JStr <$> stages); "resume_token"%string := JStr resume_token ]}).

Definition make_delta (kind : DeltaKind) (text : option string) (references : option (list json)) (ext : row) : row :=
  when_dict ext "ext" (when_some references "references" JArr (when_some text "text" JStr
    {[ "kind"%string := JStr (delta_kind_value kind) ]})).

Definition make_enrich_marker (placeholder_id context_text : string) (ext : row) : row :=
  when_dict ext "ext" {[ "placeholder_id"%string := JStr placeholder_id; "context_text"%string := JStr context_text ]}.

Definition make_enrich_placeholder (placeholder_id loading_url : string) (char_offset : option Z) (ext : row) : row :=
  when_dict ext "ext" (when_some char_offset "char_offset" JNum
    {[ "placeholder_id"%string := JStr placeholder_id; "loading_url"%string := JStr loading_url ]}).

Definition make_enrich_resolved (placeholder_id url : string) (state : PlaceholderState) (ext : row) : row :=
  when_dict ext "ext"
    {[ "placeholder_id"%string := JStr placeholder_id; "url"%string := JStr url; "state"%string := JStr (placeholder_state_value state) ]}.

Definition StageResultPayload (content : string) (thinking : option string) : row :=
  when_some thinking "thinking" JStr {[ "content"%string := JStr content ]}.

Definition make_stage_end (name content : string) (thinking : option string) (usage : option json) (ext : row) : row :=
  when_dict ext "ext" (when_some usage "usage" (λ u, u)
    {[ "name"%string := JStr name; "result"%string := JObj (StageResultPayload content thinking) ]}).

Definition make_stream_error (code : ErrorCode) (message : string) (retryable : bool) (stage : option string) (ext : row) : row :=
  when_dict ext "ext" (when_some stage "stage" JStr (when retryable "retryable" (JBool true)
    {[ "code"%string := JStr (error_code_value code); "message"%string := JStr message ]})).

Definition make_stream_cancelled (reason : string) (cancelled_at : Z) (partial_content : option string) (ext : row) : row :=
  when_dict ext "ext" (when_some partial_content "partial_content" JStr
    {[ "reason"%string := JStr reason; "cancelled_at"%string := JTime cancelled_at ]}).

Definition make_stream_end (ext : row) : row := when_dict ext "ext" ∅.

Definition make_manifest (stages : row) (placeholders : list row) (usage : option json) (errors : list row) (ext : row) : row :=
  when_dict ext "ext" (when (bool_decide (errors ≠ [])) "errors" (JArr (JObj <$> errors)) (when_some usage "usage" (λ u, u)
    {[ "stages"%string := JObj stages; "placeholders"%string := JArr (JObj <$> placeholders) ]})).

(** ** ManifestBuilder *)

(** What the manifest uses of a [StageOutcome], with its texts as strings *)
Record outcome := { o_content : string; o_thinking : string; o_usage : option json }.

Record StreamResult := { sr_stream_id : string; sr_stages : list (string * outcome); sr_errors : list row }.

(** [s or None] *)
Definition or_absent (s : string) : option string := if bool_decide (s = ""%string) then None else Some s.

Definition stage_result (o : outcome) : row := StageResultPayload (o_content o) (or_absent (o_thinking o)).

Definition stage_entries (results : list (string * StreamResult)) : list (string * outcome) :=
  match results with
  | [(_, only)] => sr_stages only
  | _ => results ≫= λ '(sid, sr), (λ '(name, o), ((sid +:+ ":" +:+ name)%string, o)) <$> sr_stages sr
  end.

Definition stages_payload (results : list (string * StreamResult)) : row :=
  fold_left (λ m '(k, o), <[k := JObj (stage_result o)]> m) (stage_entries results) ∅.

Definition ManifestPlaceholder (rec : PlaceholderRecord) : row :=
  let fallback :=
    match fallback_url rec with
    | Some u => if bool_decide (u = ""%string) then (if decide (state rec = FAILED) then Some (loading_url rec) else None) else Some u
    | None => if decide (state rec = FAILED) then Some (loading_url rec) else None
    end in
  when_some (if decide (state rec = RESOLVED) then url rec else None) "url" JStr
    (when_some fallback "fallback_url" JStr
      (when_some (stage rec) "stage" JStr
        {[ "placeholder_id"%string := JStr (placeholder_id rec); "task_ref"%string := JStr (task_ref rec);
           "state"%string := JStr (placeholder_state_value (state rec)); "char_offset"%string := JNum (char_offset rec) ]})).

Definition manifest_of (results : list (string * StreamResult)) (registry : PlaceholderRegistry) (usage : option json) (ext : row) : row :=
  make_manifest (stages_payload results) (ManifestPlaceholder <$> reg_all registry) usage (results ≫= λ '(_, sr), sr_errors sr) ext.

(** The finalizer hooks by number (a hook that returns nothing returns ∅), and [store.save] *)
Section Builder.

Context {op : Type} {ans : op → Type} (hook : nat → M ans row) (save : string → row → M ans unit).

Fixpoint run_hooks (hooks : list nat) (ext : row) : M ans row :=
  match hooks with
  | [] => ret ext
  | i :: hooks =>
      let! ext := except_exception (let! part := hook i in ret (part ∪ ext)) (λ _, ret ext) in
      run_hooks hooks ext
  end.

Definition build (hooks : list nat) (results : list (string * StreamResult)) (registry : PlaceholderRegistry) (usage : option json) : M ans row :=
  let! ext := run_hooks hooks ∅ in
  let manifest := manifest_of results registry usage ext in
  do! for_each (dkeys results) (λ sid, except_exception (save sid manifest) (λ _, ret tt)) in
  ret manifest.

Lemma calls_build (P : op → Prop) hooks results registry usage : (∀ i, calls P (hook i)) → (∀ sid m, calls P (save sid m)) →
  calls P (build hooks results registry usage).
Proof.
  intros Hh Hs. assert (∀ ext, calls P (run_hooks hooks ext)) as Hr.
  { induction hooks as [|i hooks IH]; intros ext; cbn [run_hooks]; [done|]. apply calls_seq; [|intros e; apply IH].
    apply calls_except; [|done]. by apply calls_seq. }
  apply calls_seq; [apply Hr|]. intros ext. apply calls_seq; [|done]. apply calls_for_each. intros sid _. by apply calls_except.
Qed.

End Builder.

(** The builder as a client of the hooks and the store *)
Inductive fin_op := RunHook (i : nat) | SaveResult (stream_id : string) (manifest : row).
Definition fin_ans (o : fin_op) : Type := match o with RunHook _ => res exn row | SaveResult _ _ => res exn unit end.
Definition fin_build : list nat → list (string * StreamResult) → PlaceholderRegistry → option json → M fin_ans row :=
  build (λ i, perform (RunHook i)) (λ sid m, perform (SaveResult sid m)).

(** ** What the manifest says *)

(** The key of a stage in the manifest *)
Definition stage_key (results : list (string * StreamResult)) (sid name : string) : string :=
  match results with [_] => name | _ => (sid +:+ ":" +:+ name)%string end.

Fixpoint colon_free (s : string) : bool :=
  match s with EmptyString => true | String c s => negb (bool_decide (c = ":"%char)) && colon_free s end.

Lemma colon_key_inj s1 s2 n1 n2 : colon_free s1 = true → colon_free s2 = true →
  (s1 +:+ ":" +:+ n1 = s2 +:+ ":" +:+ n2)%string → s1 = s2 ∧ n1 = n2.
Proof.
  revert s2. induction s1 as [|c s1 IH]; intros [|c2 s2] H1 H2 E; simpl in *; try (injection E as E; subst); try done.
  apply andb_true_iff in H1 as [_ H1]. apply andb_true_iff in H2 as [_ H2]. by destruct (IH s2 H1 H2) as [-> ->].
Qed.

Lemma fold_insert_lookup {A} (f : A → json) (l : list (string * A)) (m : row) k :
  fold_left (λ m '(k, o), <[k := f o]> m) l m !! k = match dget (reverse l) k with Some o => Some (f o) | None => m !! k end.
Proof.
  revert m. induction l as [|[k' o] l IH]; intros m; simpl; [done|]. rewrite IH, reverse_cons.
  assert (∀ d : list (string * A), dget (d ++ [(k', o)]) k = match dget d k with Some v => Some v | None => if decide (k' = k) then Some o else None end) as Happ.
  { intros d. induction d as [|[k2 v2] d IHd]; simpl; [by repeat case_decide|]. destruct (decide (k = k2)), (decide (k2 = k)); try done; congruence. }
  rewrite Happ. destruct (dget (reverse l) k) eqn:E; [done|]. case_decide as Ek; [subst; by rewrite lookup_insert_eq|by rewrite lookup_insert_ne].
Qed.

(** Streams and stages with names of their own *)
Definition well_named (results : list (string * StreamResult)) : Prop :=
  NoDup (dkeys results) ∧ (∀ sid sr, (sid, sr) ∈ results → colon_free sid = true ∧ NoDup (dkeys (sr_stages sr))).

Lemma stage_entries_elem results sid sr name o : (sid, sr) ∈ results → (name, o) ∈ sr_stages sr →
  (stage_key results sid name, o) ∈ stage_entries results.
Proof.
  intros Hr Hs. destruct results as [|[s1 r1] [|[s2 r2] results]]; [by apply elem_of_nil in Hr|by apply list_elem_of_singleton in Hr as [= -> ->]|].
  unfold stage_entries, stage_key. apply list_elem_of_bind. exists (sid, sr). split; [|done]. apply list_elem_of_fmap. by exists (name, o).
Qed.

Lemma stage_entries_keys results : well_named results → NoDup (dkeys (stage_entries results)).
Proof.
  intros [Hnd Hw]. destruct results as [|[s1 r1] [|x2 results]]; [constructor|by apply (Hw s1 r1); left|].
  unfold stage_entries, dkeys. set (l := (s1, r1) :: x2 :: results) in *. clearbody l.
  induction l as [|[sid sr] l IH]; [constructor|]. cbn [mbind list_bind]. rewrite fmap_app. apply NoDup_app. split_and!.
  - destruct (Hw sid sr ltac:(left)) as [_ Hst]. rewrite <- list_fmap_compose.
    rewrite (list_fmap_ext _ ((λ n, (sid +:+ ":" +:+ n)%string) ∘ fst)) by (by intros i [n o]). rewrite list_fmap_compose.
    apply NoDup_fmap_2; [|exact Hst]. intros n1 n2 E. by apply (inj (String.app sid)), (inj (String.app ":")) in E.
  - intros k [[k' o] [-> Hk]]%list_elem_of_fmap (x & Ex & Hx)%list_elem_of_fmap. apply list_elem_of_fmap in Hk as ([n1 o1] & [= -> ->] & Hk).
    apply list_elem_of_bind in Hx as ([sid' sr'] & Hx & Hin). apply list_elem_of_fmap in Hx as ([n2 o2] & -> & Hx). simpl in Ex.
    destruct (colon_key_inj sid sid' n1 n2) as [-> _]; [by apply (Hw sid sr); left|by apply (Hw sid' sr'); right|done|].
    apply NoDup_cons in Hnd as [Hnot _]. apply Hnot, list_elem_of_fmap. by exists (sid', sr').
  - apply IH; [by apply NoDup_cons in Hnd as [_ ?]|]. intros. apply Hw. by right.
Qed.

Lemma stages_lookup results k o : well_named results → (k, o) ∈ stage_entries results → stages_payload results !! k = Some (JObj (stage_result o)).
Proof.
  intros Hw Hk. unfold stages_payload. rewrite (fold_insert_lookup (λ o, JObj (stage_result o))). rewrite (elem_dget _ k o); [done| |by rewrite elem_of_reverse].
  unfold dkeys. rewrite fmap_reverse. rewrite reverse_Permutation. exact (stage_entries_keys results Hw).
Qed.

Lemma stages_only results k v : stages_payload results !! k = Some v → ∃ o, (k, o) ∈ stage_entries results ∧ v = JObj (stage_result o).
Proof.
  unfold stages_payload. rewrite (fold_insert_lookup (λ o, JObj (stage_result o))). destruct (dget _ k) as [o|] eqn:E; [|done]. intros [= <-].
  apply dget_elem in E. rewrite elem_of_reverse in E. eauto.
Qed.

(** *** Reading the manifest, as its client does *)

Definition stage_of (m : row) (key : string) : option row :=
  match m !! "stages"%string with Some (JObj s) => match s !! key with Some (JObj r) => Some r | _ => None end | _ => None end.

Definition placeholders_of (m : row) : list row :=
  match m !! "placeholders"%string with Some (JArr l) => omap (λ j, match j with JObj r => Some r | _ => None end) l | _ => [] end.

(** [ph.get("state") == "pending"] *)
Definition is_pending (ph : row) : bool := bool_decide (ph !! "state"%string = Some (JStr "pending")).
Definition pendings (m : row) : list row := filter (λ ph, is_pending ph = true) (placeholders_of m).

Lemma when_dict_lookup m k p k' : k ≠ k' → when_dict m k p !! k' = p !! k'.
Proof. intros Hk. unfold when_dict. rewrite lookup_when. by rewrite (bool_decide_false (k = k')), andb_false_r. Qed.

Lemma when_some_ne {A} (o : option A) k f (p : row) k' : k ≠ k' → when_some o k f p !! k' = p !! k'.
Proof. intros Hk. rewrite lookup_when_some. destruct o; [|done]. by rewrite bool_decide_false. Qed.

Lemma manifest_lookup results g usage ext k : k = "stages"%string ∨ k = "placeholders"%string →
  manifest_of results g usage ext !! k =
    ({[ "stages"%string := JObj (stages_payload results); "placeholders"%string := JArr (JObj <$> (ManifestPlaceholder <$> reg_all g)) ]} : row) !! k.
Proof.
  intros Hk. unfold manifest_of, make_manifest. rewrite when_dict_lookup by (by destruct Hk as [->| ->]).
  rewrite lookup_when, lookup_when_some. rewrite (bool_decide_false ("errors"%string = k)), andb_false_r by (by destruct Hk as [->| ->]).
  destruct usage; [|done]. by rewrite (bool_decide_false ("usage"%string = k)) by (by destruct Hk as [->| ->]).
Qed.

Lemma placeholders_of_manifest results g usage ext : placeholders_of (manifest_of results g usage ext) = ManifestPlaceholder <$> reg_all g.
Proof.
  unfold placeholders_of. rewrite manifest_lookup by auto. rewrite lookup_insert_ne, lookup_singleton by done.
  generalize (ManifestPlaceholder <$> reg_all g) as l. intros l. induction l as [|r l IH]; [done|]. simpl. by f_equal.
Qed.

Lemma pending_payload rec : is_pending (ManifestPlaceholder rec) = bool_decide (state rec = PENDING).
Proof.
  unfold is_pending, ManifestPlaceholder. rewrite !lookup_when_some. destruct (state rec) eqn:E; repeat (case_match; try done).
Qed.

Lemma stage_entries_inv results k o : (k, o) ∈ stage_entries results →
  ∃ sid sr name, (sid, sr) ∈ results ∧ (name, o) ∈ sr_stages sr ∧ k = stage_key results sid name.
Proof.
  destruct results as [|[s1 r1] [|x2 results]]; [by intros ?%elem_of_nil|intros Hk; exists s1, r1, k; split_and!; [left|done|done]|].
  intros ([sid sr] & Hk & Hin)%list_elem_of_bind. apply list_elem_of_fmap in Hk as ([name o'] & [= -> ->] & Hk). by exists sid, sr, name.
Qed.

Lemma pendings_payload (l : list PlaceholderRecord) : filter (λ ph, is_pending ph = true) (ManifestPlaceholder <$> l) = ManifestPlaceholder <$> filter (λ r, state r = PENDING) l.
Proof.
  induction l as [|r l IH]; [done|]. rewrite fmap_cons, !filter_cons, pending_payload, IH.
  destruct (decide (state r = PENDING)) as [E|E]; [by rewrite decide_True by (by apply bool_decide_eq_true)|].
  rewrite decide_False; [done|]. by rewrite bool_decide_eq_true.
Qed.

(** *** What the entries hold, field by field *)

(** A row that has these fields and no others. *)
Definition has_fields (r : row) (fields : list (string * option json)) : Prop :=
  (∀ k v, (k, v) ∈ fields → r !! k = v) ∧ (∀ k, k ∉ fields.*1 → r !! k = None).

(** The entry of a stage: its content, and its thinking when there is some. *)
Definition stage_told (o : outcome) (r : row) : Prop :=
  has_fields r [("content"%string, Some (JStr (o_content o)));
                ("thinking"%string, if decide (o_thinking o = ""%string) then None else Some (JStr (o_thinking o)))].

(** The entry of a placeholder: a url when it is resolved; the fallback of its
    record, or else, when it has failed, its loading picture. *)
Definition placeholder_told (rec : PlaceholderRecord) (r : row) : Prop :=
  has_fields r
    [("placeholder_id"%string, Some (JStr (placeholder_id rec)));
     ("task_ref"%string, Some (JStr (task_ref rec)));
     ("state"%string, Some (JStr (match state rec with PENDING => "pending" | RESOLVED => "resolved" | FAILED => "failed" end)));
     ("char_offset"%string, Some (JNum (char_offset rec)));
     ("stage"%string, JStr <$> stage rec);
     ("url"%string, match state rec with RESOLVED => JStr <$> url rec | _ => None end);
     ("fallback_url"%string,
        match fallback_url rec, state rec with
        | Some (String c u), _ => Some (JStr (String c u))
        | _, FAILED => Some (JStr (loading_url rec))
        | _, _ => None
        end)].

Lemma stage_result_told o : stage_told o (stage_result o).
Proof.
  unfold stage_told, stage_result, StageResultPayload, or_absent. split.
  - intros k v Hk. repeat (apply elem_of_cons in Hk as [[= -> ->]|Hk]); [| |by apply elem_of_nil in Hk]; rewrite lookup_when_some;
      case_bool_decide; try case_decide; simplify_map_eq; done.
  - intros k Hk. cbn in Hk. rewrite !not_elem_of_cons in Hk. destruct Hk as (H1 & H2 & _). rewrite lookup_when_some.
    case_bool_decide; [by rewrite lookup_singleton_ne|]. rewrite bool_decide_false by done. by rewrite lookup_singleton_ne.
Qed.

Lemma placeholder_is_told rec : placeholder_told rec (ManifestPlaceholder rec).
Proof.
  unfold placeholder_told, ManifestPlaceholder. split.
  - intros k v Hk. repeat (apply elem_of_cons in Hk as [[= -> ->]|Hk]); [.. |by apply elem_of_nil in Hk]; rewrite !lookup_when_some;
      destruct rec as [pid sid [st|] ct lu tr [] [u|] [[|c f]|] co m ca ra er]; cbn; vm_compute; reflexivity.
  - intros k Hk. cbn in Hk. rewrite !not_elem_of_cons in Hk. destruct Hk as (H1 & H2 & H3 & H4 & H5 & H6 & H7 & _).
    rewrite !when_some_ne by done. by rewrite !lookup_insert_ne, lookup_singleton_ne by done.
Qed.

Lemma told_all (l : list PlaceholderRecord) : Forall2 placeholder_told l (ManifestPlaceholder <$> l).
Proof. apply Forall2_fmap_r, Forall_Forall2_diag, Forall_true, placeholder_is_told. Qed.

Lemma manifest_rest results g usage ext :
  manifest_of results g usage ext !! "usage"%string = usage ∧
  manifest_of results g usage ext !! "errors"%string =
    (let errors := results ≫= λ '(_, sr), sr_errors sr in if decide (errors = []) then None else Some (JArr (JObj <$> errors))) ∧
  manifest_of results g usage ext !! "ext"%string = (if decide (ext = ∅) then None else Some (JObj ext)).
Proof.
  unfold manifest_of, make_manifest, when_dict. cbv zeta. generalize (results ≫= λ '(_, sr), sr_errors sr) as errors. intros errors.
  rewrite !lookup_when, !lookup_when_some, !bool_decide_not, !bool_decide_decide.
  destruct (decide (ext = ∅)), (decide (errors = [])), usage; vm_compute; split_and!; reflexivity.
Qed.

(** C20: the manifest tells everything a client needs and nothing else: under its
    key (the name of the stage, or [stream:stage] when there are several
    streams) each stage's content and its thinking, if any, are found, and no
    other key is there; it lists the placeholders of the registry in the order
    of registration, each with its id, task reference, state, position and
    stage, a resolved one with its url and a failed one with a fallback; those
    that it lists as pending are exactly those the registry has pending; usage,
    the errors of all streams and the extensions are there when there are any.
    The names are assumed to be distinct: no stream id twice, no stage twice in
    a stream, no colon in a stream id, without which two stages could share a
    key. *)
Theorem manifest_faithful results g usage ext : well_named results →
  let m := manifest_of results g usage ext in
  (∀ sid sr name o, (sid, sr) ∈ results → (name, o) ∈ sr_stages sr → ∃ r, stage_of m (stage_key results sid name) = Some r ∧ stage_told o r) ∧
  (∀ key r, stage_of m key = Some r → ∃ sid sr name o, (sid, sr) ∈ results ∧ (name, o) ∈ sr_stages sr ∧ key = stage_key results sid name) ∧
  Forall2 placeholder_told (reg_all g) (placeholders_of m) ∧
  Forall2 placeholder_told (reg_pending g) (pendings m) ∧
  m !! "usage"%string = usage ∧
  m !! "errors"%string = (let errors := results ≫= λ '(_, sr), sr_errors sr in if decide (errors = []) then None else Some (JArr (JObj <$> errors))) ∧
  m !! "ext"%string = (if decide (ext = ∅) then None else Some (JObj ext)).
Proof.
  intros Hw m. unfold m at 1 2 3 4. unfold stage_of, pendings. rewrite placeholders_of_manifest, manifest_lookup, lookup_insert_eq by auto. split_and!.
  - intros sid sr name o Hr Hs. exists (stage_result o). split; [|apply stage_result_told].
    by rewrite (stages_lookup _ _ o Hw (stage_entries_elem _ _ _ _ _ Hr Hs)).
  - intros key r Hk. destruct (stages_payload results !! key) as [v|] eqn:E; [|done]. destruct (stages_only _ _ _ E) as (o & Ho & _).
    destruct (stage_entries_inv _ _ _ Ho) as (sid & sr & name & H1 & H2 & H3). by exists sid, sr, name, o.
  - apply told_all.
  - rewrite pendings_payload. apply told_all.
  - apply manifest_rest.
  - apply manifest_rest.
  - apply manifest_rest.
Qed.

(** *** Running the builder *)

Inductive fin_note := Part (ext : row) | Saved (stream_id : string) (manifest : row).

Definition fin_noted (ev : entry_of (ans := fin_ans)) : option fin_note :=
  let '(existT o x) := ev in
  match o return fin_ans o → option fin_note with
  | RunHook _ => λ x, match x with Ok part => Some (Part part) | Err _ => None end
  | SaveResult sid m => λ _, Some (Saved sid m)
  end x.

(** No cancellation *)
Definition fin_fine (ev : entry_of (ans := fin_ans)) : bool :=
  let '(existT o x) := ev in match o return fin_ans o → bool with RunHook _ => uncut | SaveResult _ _ => uncut end x.

Definition anything {op} {ans : op → Type} (o : op) (log : list (entry_of (ans := ans))) (x : ans o) : Prop := True.

(** [ext.update(part)] for one part after the other *)
Definition merged (parts : list row) (ext : row) : row := fold_left (λ e p, p ∪ e) parts ext.

Section Building.

Context {op : Type} {ans : op → Type} (hook : nat → M ans row) (save : string → row → M ans unit).
Context (allow : ∀ o, list (entry_of (ans := ans)) → ans o → Prop) {N : Type} (note : entry_of (ans := ans) → option N) (fine : entry_of (ans := ans) → bool).
Context (part : row → N) (saved : string → row → N).
Notation ftraces := (traces allow note fine).
Context (Hhook : ∀ i, ftraces (hook i) (λ r t, uncut r = true ∧ t = match r with Ok p => [part p] | Err _ => [] end)).
Context (Hsave : ∀ sid m, ftraces (save sid m) (λ r t, uncut r = true ∧ t = [saved sid m])).

Lemma run_hooks_traces hooks ext : ftraces (run_hooks hook hooks ext) (λ r t, ∃ parts, t = part <$> parts ∧ r = Ok (merged parts ext)).
Proof.
  revert ext. induction hooks as [|i hooks IH]; intros ext; cbn [run_hooks]; [apply traces_ret; by exists []|].
  eapply (traces_seq _ _ _ _ _ (λ r t, ∃ parts, t = part <$> parts ∧ r = Ok (merged parts ext))); [| |by intros ? ? (? & _ & [=])].
  - unfold except_exception. eapply traces_catch.
    + eapply (traces_seq _ _ _ _ _ _ (λ r t, uncut r = true ∧ match r with Ok e => ∃ p, t = [part p] ∧ e = p ∪ ext | Err _ => t = [] end)); [apply Hhook| |done].
      intros p t [_ ->]. apply traces_ret. split; [done|]. by exists p.
    + intros e t [He ->]. unfold is_exception. rewrite bool_decide_true by (by intros ->). apply traces_ret. by exists [].
    + intros e t [_ (p & -> & ->)]. by exists [p].
  - intros e t (parts & -> & [= ->]). eapply traces_mono; [apply IH|]. intros r t' (parts' & -> & ->). exists (parts ++ parts').
    split; [by rewrite fmap_app|]. unfold merged. by rewrite fold_left_app.
Qed.

Lemma build_traces hooks results g usage : ftraces (build hook save hooks results g usage) (λ r t, ∃ parts, let m := manifest_of results g usage (merged parts ∅) in
  r = Ok m ∧ t = (part <$> parts) ++ ((λ sid, saved sid m) <$> dkeys results)).
Proof.
  unfold build. eapply traces_seq; [apply run_hooks_traces| |by intros ? ? (? & _ & [=])]. intros ext t (parts & -> & [= ->]).
  set (m := manifest_of _ _ _ _). eapply (traces_seq _ _ _ _ _ (λ r t, r = Ok tt ∧ t = (λ sid, saved sid m) <$> dkeys results)); [| |by intros ? ? [[=] _]].
  - eapply (traces_for_each _ _ _ _ _ (λ sid t, t = [saved sid m])).
    + intros sid _. by apply traces_ignore.
    + intros ts Hts. split; [done|]. induction Hts as [|sid t l ts -> _ IH]; [done|]. simpl. by f_equal.
  - intros [] t [_ ->]. apply traces_ret. exists parts. by rewrite app_nil_r.
Qed.

End Building.

(** However its hooks and the store fail, [build] comes back with the
    manifest (unless it is cancelled): the extensions of the hooks that
    answered are merged, the later over the earlier ones, and this very
    manifest is stored once for each stream. *)
Theorem build_spec hooks results g usage r log :
  runs (logged anything) (fin_build hooks results g usage) [] r log → forallb fin_fine log = true →
  ∃ parts, let m := manifest_of results g usage (merged parts ∅) in
    r = Ok m ∧ omap fin_noted log = (Part <$> parts) ++ ((λ sid, Saved sid m) <$> dkeys results).
Proof.
  intros Hr Hf. refine (traces_runs _ fin_noted _ _ _ _ _ (build_traces _ _ _ _ _ Part Saved _ _ hooks results g usage) Hr Hf).
  - intros i. refine (traces_call _ _ _ (RunHook i) _ _). intros log' x _ Hx. split; [exact Hx|]. by destruct x.
  - intros sid m. refine (traces_call _ _ _ (SaveResult sid m) _ _). by intros log' x _ Hx.
Qed.

(** ** ManifestResolver *)

Inductive res_op :=
  | QueryTask (task_id : string)
  | LoopTime
  | SleepFor (d : Z)
  | OnResolved (placeholder_id : string) (url : option json).

Definition res_ans (o : res_op) : Type :=
  match o with
  | QueryTask _ => res exn (option row)
  | LoopTime => Z
  | SleepFor _ | OnResolved _ _ => res exn unit
  end.
Notation resM := (M res_ans).

(** [tf_query]: a query function was given *)
Record ManifestResolver := { tf_query : bool; poll_interval : Z; max_wait : Z; success_words : gset string; terminal_words : gset string }.

Inductive polled := CONTINUE | POLL_FAILED | Url (u : json).

Definition starts_tf (ref : string) : bool := bool_decide (String.substring 0 3 ref = "tf:"%string).
Definition task_id_of (ref : string) : string := String.substring 3 (String.length ref - 3) ref.

(** [x in words]: an unhashable value raises. *)
Definition in_words (x : option json) (words : gset string) : res exn bool :=
  match x with
  | Some (JStr s) => Ok (bool_decide (s ∈ words))
  | Some (JArr _) | Some (JObj _) => Err TypeError'
  | _ => Ok false
  end.

(** [d.get(k) or e] *)
Definition get_or {A} (d : row) (k : string) (f : json → A) (e : A) : A :=
  match d !! k with Some v => if truthy v then f v else e | None => e end.

Section Resolver.

Context (self : ManifestResolver).

(** What a record says: a result that is no dict has no [get]. *)
Definition judge (data : row) : res exn polled :=
  match in_words (data !! "status"%string) (success_words self) with
  | Err e => Err e
  | Ok true =>
      match get_or data "result" Some None with
      | None => Ok POLL_FAILED
      | Some (JObj result) => Ok (get_or result "url" Url (get_or result "image_oss" Url POLL_FAILED))
      | Some _ => Err (Other "AttributeError")
      end
  | Ok false =>
      match in_words (data !! "status"%string) (terminal_words self) with
      | Err e => Err e
      | Ok b => Ok (if b then POLL_FAILED else CONTINUE)
      end
  end.

Definition _query_once (ref : string) : resM polled :=
  if starts_tf ref && tf_query self then
    let! data := except_exception (let! d := (perform (QueryTask (task_id_of ref)) : resM (option row)) in ret (Some d)) (λ _, ret None) in
    match data with
    | Some (Some data) => Ret (judge data)
    | _ => ret CONTINUE
    end
  else ret POLL_FAILED.

(** [None]: out of fuel *)
Fixpoint poll_loop (fuel : nat) (deadline : Z) (ref : string) : resM (option (option json)) :=
  match fuel with
  | O => ret None
  | S fuel =>
      pbind (perform LoopTime) (λ now : Z,
        if (now <? deadline)%Z then
          let! result := _query_once ref in
          match result with
          | CONTINUE => do! (perform (SleepFor (poll_interval self)) : resM unit) in poll_loop fuel deadline ref
          | POLL_FAILED => ret (Some None)
          | Url u => ret (Some (Some u))
          end
        else ret (Some None))
  end.

Definition _poll_task (fuel : nat) (ref : string) : resM (option (option json)) :=
  pbind (perform LoopTime) (λ now : Z, poll_loop fuel (now + max_wait self)%Z ref).

(** [ph.get(k, "")], for a string *)
Definition get_text (ph : row) (k : string) : string := match ph !! k with Some (JStr s) => s | _ => ""%string end.

Definition _resolve_one (fuel : nat) (ph : row) : resM (option unit) :=
  let! url := _poll_task fuel (get_text ph "task_ref") in
  match url with
  | None => ret None
  | Some url => let! _ := (perform (OnResolved (get_text ph "placeholder_id") url) : resM unit) in ret (Some tt)
  end.

(** The coroutines that [resolve_all] gathers *)
Definition resolve_all (fuel : nat) (manifest : row) : list (resM (option unit)) := _resolve_one fuel <$> pendings manifest.

(** *** The clock, the queries and the callbacks *)

Record client_state := { now_is : Z; asked : list (string * res exn (option row)); told : list (string * option json) }.

(** Time passes at any call; a sleep takes its time unless it is cancelled;
    a task may answer anything. *)
Definition client_step (o : res_op) (s : client_state) : res_ans o → client_state → Prop :=
  match o return res_ans o → client_state → Prop with
  | QueryTask id => λ x s', (now_is s ≤ now_is s')%Z ∧ asked s' = asked s ++ [(id, x)] ∧ told s' = told s
  | LoopTime => λ x s', (now_is s ≤ now_is s')%Z ∧ x = now_is s' ∧ asked s' = asked s ∧ told s' = told s
  | SleepFor d => λ x s', asked s' = asked s ∧ told s' = told s ∧ (x = Ok tt ∧ (now_is s + d ≤ now_is s')%Z ∨ x = Err CancelledError ∧ (now_is s ≤ now_is s')%Z)
  | OnResolved pid u => λ x s', (now_is s ≤ now_is s')%Z ∧ asked s' = asked s ∧ told s' = told s ++ [(pid, u)]
  end.

(** What an answer to a query makes the poll do *)
Definition verdict (x : res exn (option row)) : res exn polled :=
  match x with
  | Ok (Some data) => judge data
  | Ok None => Ok CONTINUE
  | Err e => if is_exception e then Ok CONTINUE else Err e
  end.

(** *** What an answer says

    Read off the record, without the function that the client uses. *)

Definition truthy_at (r : row) (k : string) (v : json) : Prop := r !! k = Some v ∧ truthy v = true.
Definition nothing_at (r : row) (k : string) : Prop := ∀ v, r !! k = Some v → truthy v = false.

Definition has_status (data : row) (w : string) : Prop := data !! "status"%string = Some (JStr w).

(** The status cannot be looked up in a set of words. *)
Definition unhashable (data : row) : Prop := ∃ v, data !! "status"%string = Some v ∧ ((∃ l, v = JArr l) ∨ ∃ m, v = JObj m).

(** Wait: the query failed, there is no such task yet, or its status is
    neither a word of success nor a final one. *)
Definition goes_on (x : res exn (option row)) : Prop :=
  match x with
  | Err e => is_exception e = true
  | Ok None => True
  | Ok (Some data) => ¬ unhashable data ∧ ∀ w, has_status data w → w ∉ success_words self ∧ w ∉ terminal_words self
  end.

(** Success, with a url (or else an image address) in the result *)
Definition gives_url (u : json) (x : res exn (option row)) : Prop :=
  ∃ data w result, x = Ok (Some data) ∧ has_status data w ∧ w ∈ success_words self ∧ data !! "result"%string = Some (JObj result) ∧
    (truthy_at result "url" u ∨ nothing_at result "url" ∧ truthy_at result "image_oss" u).

(** Over without a url: a final status that is no success, or a success
    whose result has none *)
Definition says_over (x : res exn (option row)) : Prop :=
  ∃ data w, x = Ok (Some data) ∧ has_status data w ∧
    (w ∉ success_words self ∧ w ∈ terminal_words self ∨
     w ∈ success_words self ∧
       (nothing_at data "result" ∨
        ∃ result, data !! "result"%string = Some (JObj result) ∧ nothing_at result "url" ∧ nothing_at result "image_oss")).

(** A cancellation, or a record that is malformed *)
Definition breaks (e : exn) (x : res exn (option row)) : Prop :=
  x = Err e ∧ is_exception e = false ∨
  ∃ data, x = Ok (Some data) ∧
    (unhashable data ∧ e = TypeError' ∨
     ∃ w v, has_status data w ∧ w ∈ success_words self ∧ truthy_at data "result" v ∧ (∀ m, v ≠ JObj m) ∧ e = Other "AttributeError").

Lemma get_or_cases {A} (d : row) k (f : json → A) e :
  (∃ v, truthy_at d k v ∧ get_or d k f e = f v) ∨ nothing_at d k ∧ get_or d k f e = e.
Proof.
  unfold get_or, truthy_at, nothing_at. destruct (d !! k) as [v|]; [|by right]. destruct (truthy v) eqn:E; [left; by exists v|].
  right. split; [|done]. by intros ? [= <-].
Qed.

Lemma in_words_cases (data : row) words :
  (∃ w, has_status data w ∧ in_words (data !! "status"%string) words = Ok (bool_decide (w ∈ words))) ∨
  (∀ w, ¬ has_status data w) ∧
    (unhashable data ∧ in_words (data !! "status"%string) words = Err TypeError' ∨
     ¬ unhashable data ∧ in_words (data !! "status"%string) words = Ok false).
Proof.
  unfold has_status, unhashable. destruct (data !! "status"%string) as [[]|] eqn:E; cbn; [.. |left; by eexists| | |];
    right; (split; [done|]); try (left; split; [|done]; by eauto 6); right; (split; [|done]); intros (v & Hv & [[? ->]|[? ->]]); done.
Qed.

(** The verdict of the client is what the answer says. *)
Lemma verdict_meaning x :
  match verdict x with
  | Ok CONTINUE => goes_on x
  | Ok POLL_FAILED => says_over x
  | Ok (Url u) => gives_url u x
  | Err e => breaks e x
  end.
Proof.
  destruct x as [[data|]|e]; cbn [verdict]; [|done|destruct (is_exception e) eqn:E; [done|by left]].
  unfold judge. destruct (in_words_cases data (success_words self)) as [(w & Hw & ->)|[Hn [[Hu ->]|[Hu ->]]]].
  - assert (Hh : ¬ unhashable data) by (unfold has_status in Hw; intros (v & Hv & [[? ->]|[? ->]]); congruence).
    case_bool_decide as Hin.
    + destruct (get_or_cases data "result" Some None) as [(v & Hv & ->)|[Hv ->]].
      * assert ((∃ m, v = JObj m) ∨ ∀ m, v ≠ JObj m) as [[result ->]|Ho] by (destruct v; eauto); cycle 1.
        { assert (breaks (Other "AttributeError") (Ok (Some data))) as Hb by (right; exists data; split; [done|]; right; by exists w, v).
          by destruct v; try exact Hb; destruct (Ho m). }
        destruct (get_or_cases result "url" Url (get_or result "image_oss" Url POLL_FAILED)) as [(u & Hu & ->)|[Hu ->]];
          [exists data, w, result; split_and!; try done; [apply Hv|by left]|].
        destruct (get_or_cases result "image_oss" Url POLL_FAILED) as [(u & Ho & ->)|[Ho ->]];
          [exists data, w, result; split_and!; try done; [apply Hv|by right]|].
        exists data, w. split_and!; [done|done|]. right. split; [done|]. right. exists result. split; [apply Hv|done].
      * exists data, w. split_and!; [done|done|]. right. split; [done|by left].
    + destruct (in_words_cases data (terminal_words self)) as [(w' & Hw' & ->)|[Hn _]]; [|by destruct (Hn w)].
      assert (w' = w) as -> by (unfold has_status in *; congruence). case_bool_decide as Ht.
      * exists data, w. split_and!; [done|done|by left].
      * split; [done|]. intros w' Hw''. assert (w' = w) as -> by (unfold has_status in *; congruence). done.
  - right. exists data. split; [done|by left].
  - destruct (in_words_cases data (terminal_words self)) as [(w' & Hw' & _)|[_ [[? _]|[_ ->]]]]; [by destruct (Hn w')|done|].
    split; [done|]. intros w Hw. by destruct (Hn w).
Qed.

(** The answers that the poll of one task saw *)
Definition seen (id : string) (s s' : client_state) (xs : list (res exn (option row))) : Prop := asked s' = asked s ++ ((id,.) <$> xs).

Lemma query_once_wp ref s : starts_tf ref = true → tf_query self = true →
  wp client_step (_query_once ref) s (λ r s', ∃ x, (now_is s ≤ now_is s')%Z ∧ told s' = told s ∧ seen (task_id_of ref) s s' [x] ∧ r = verdict x).
Proof.
  intros Hr Hq. unfold _query_once. rewrite Hr, Hq. cbn [andb]. unfold except_exception. wp_call. intros x s' (Ht & Ha & Hto). wp_simp.
  assert (seen (task_id_of ref) s s' [x]) by done. unfold verdict.
  destruct x as [[data|]|e]; wp_simp; [by exists (Ok (Some data))|by exists (Ok None)|].
  destruct (is_exception e) eqn:Ee; wp_simp; exists (Err e); by rewrite Ee.
Qed.

Definition ends_with (xs : list (res exn (option row))) (last : res exn (option row) → Prop) : Prop :=
  ∃ ys x, xs = ys ++ [x] ∧ Forall goes_on ys ∧ last x.

(** How a poll that saw the answers [xs] ends: on the first answer that is not
    to wait, or when the time is up. *)
Definition poll_ended (deadline : Z) (time : Z) (xs : list (res exn (option row))) (r : res exn (option (option json))) : Prop :=
  match r with
  | Ok None => False
  | Ok (Some (Some u)) => ends_with xs (gives_url u)
  | Ok (Some None) => ends_with xs says_over ∨ Forall goes_on xs ∧ (deadline ≤ time)%Z
  | Err e => ends_with xs (breaks e) ∨ Forall goes_on xs ∧ e = CancelledError
  end.

Lemma poll_ended_cons deadline time x xs r : goes_on x → poll_ended deadline time xs r → poll_ended deadline time (x :: xs) r.
Proof.
  intros Hx. assert (∀ P, ends_with xs P → ends_with (x :: xs) P) as He.
  { intros v (ys & y & -> & Hys & Hy). exists (x :: ys), y. split_and!; [done|by constructor|done]. }
  destruct r as [[[u|]|]|e]; simpl; [by apply He| |done|]; intros [H|[H1 H2]]; [left; by apply He|right; split; [by constructor|done]|left; by apply He|right; split; [by constructor|done]].
Qed.

Lemma ends_with_one (P : res exn (option row) → Prop) x : P x → ends_with [x] P.
Proof. intros Hx. by exists [], x. Qed.

Lemma poll_ended_mono deadline deadline' time time' xs r : (deadline' ≤ deadline)%Z → (time ≤ time')%Z →
  poll_ended deadline time xs r → poll_ended deadline' time' xs r.
Proof. intros H1 H2. destruct r as [[[u|]|]|e]; simpl; try done. intros [?|[? ?]]; [by left|right]. split; [done|lia]. Qed.

(** One query less than these fits into the time. *)
Definition few (d : Z) (xs : list (res exn (option row))) : Prop := xs = [] ∨ ((Z.of_nat (length xs) - 1) * poll_interval self < d)%Z.

Lemma poll_loop_wp ref deadline fuel s : starts_tf ref = true → tf_query self = true → (1 ≤ poll_interval self)%Z → (1 ≤ fuel)%nat →
  (deadline - now_is s ≤ (Z.of_nat fuel - 1) * poll_interval self)%Z →
  wp client_step (poll_loop fuel deadline ref) s (λ r s', ∃ xs, seen (task_id_of ref) s s' xs ∧ told s' = told s ∧
    poll_ended deadline (now_is s') xs r ∧ few (deadline - now_is s) xs).
Proof.
  intros Hr Hq Hp. revert s. induction fuel as [|fuel IH]; intros s Hf Hd; [lia|]. cbn [poll_loop].
  assert (∀ s', asked s' = asked s → seen (task_id_of ref) s s' []) as Hnone by (intros s' E; unfold seen; by rewrite app_nil_r).
  wp_call. intros now s1 (Ht1 & -> & Ha1 & Hto1). destruct (Z.ltb_spec (now_is s1) deadline) as [Hlt|Hge]; cycle 1.
  { wp_simp. exists []. split_and!; [by apply Hnone|done| |by left]. right. split; [constructor|done]. }
  wp_simp. eapply wp_mono; [by apply query_once_wp|]. intros r s2 (x & Ht2 & Hto2 & Hx & ->).
  assert (seen (task_id_of ref) s s2 [x]) as Hx' by (unfold seen in *; by rewrite Hx, Ha1).
  assert (told s2 = told s) as Hto by congruence. assert (few (deadline - now_is s) [x]) as Hone by (right; simpl; lia).
  pose proof (verdict_meaning x) as Hm. destruct (verdict x) as [[| |u]|e] eqn:Ev; wp_simp.
  - wp_call. intros y s3 (Ha3 & Hto3 & Hy). assert (∀ s' xs, seen (task_id_of ref) s3 s' xs → seen (task_id_of ref) s s' (x :: xs)) as Hcons.
    { intros s' xs Hs. unfold seen in *. rewrite Hs, Ha3, Hx'. simpl. by rewrite <- app_assoc. }
    destruct Hy as [[-> Hy]|[-> Hy]]; wp_simp; cycle 1.
    { exists [x]. split_and!; [by apply (Hcons s3 []); unfold seen; rewrite app_nil_r|congruence| |done]. right. split; [by repeat constructor|done]. }
    destruct fuel as [|fuel]; [nia|]. eapply wp_mono; [apply IH; [lia|nia]|]. intros r s' (xs & Hs & Htold & Hend & Hfew).
    exists (x :: xs). split_and!; [by apply Hcons|congruence|by apply poll_ended_cons|]. right. simpl.
    destruct Hfew as [->|Hfew]; simpl; [lia|nia].
  - exists [x]. split_and!; [done|done| |done]. left. by apply ends_with_one.
  - exists [x]. split_and!; [done|done| |done]. by apply ends_with_one.
  - exists [x]. split_and!; [done|done| |done]. left. by apply ends_with_one.
Qed.

End Resolver.

Lemma task_id_of_ref x : task_id_of ("tf:" +:+ x) = x.
Proof.
  assert (∀ y, String.substring 0 (String.length y) y = y) as Hy by (intros y; induction y as [|c y IH]; [done|]; simpl; by rewrite IH).
  unfold task_id_of. simpl. rewrite Nat.sub_0_r. exact (Hy x).
Qed.

Lemma starts_tf_ref x : starts_tf ("tf:" +:+ x) = true.
Proof. unfold starts_tf. simpl. by destruct x. Qed.

Lemma text_of_placeholder rec : get_text (ManifestPlaceholder rec) "task_ref" = task_ref rec ∧
  get_text (ManifestPlaceholder rec) "placeholder_id" = placeholder_id rec.
Proof. unfold get_text, ManifestPlaceholder. by rewrite !when_some_ne by done. Qed.

(** C21: a placeholder that the manifest left pending gets resolved, by a client
    with a query function: polling its task (the one the enricher was asked to
    run under the id derived from the placeholder) ends after at most
    max_wait / poll_interval + 1 queries, and the callback is told once: the url
    of the first answer that has one, or nothing, when an answer says that the
    task is over without a url or when the time is up; all answers before said
    to wait. Errors of the query do not count as answers; only a cancellation,
    or a record that is malformed, gets out. *)
Theorem pending_resolves self fuel rec s r s' : task_ref rec = _make_task_ref TASKFLOW (placeholder_id rec) →
  tf_query self = true → (1 ≤ poll_interval self)%Z → (0 ≤ max_wait self)%Z → (max_wait self / poll_interval self + 2 ≤ Z.of_nat fuel)%Z →
  runs client_step (_resolve_one self fuel (ManifestPlaceholder rec)) s r s' →
  ∃ xs, seen ("enrich-" +:+ placeholder_id rec) s s' xs ∧ (Z.of_nat (length xs) ≤ max_wait self / poll_interval self + 1)%Z ∧
    match r with
    | Ok None => False
    | Ok (Some _) => ∃ u, told s' = told s ++ [(placeholder_id rec, u)] ∧ poll_ended self (now_is s + max_wait self) (now_is s') xs (Ok (Some u))
    | Err e => poll_ended self (now_is s + max_wait self) (now_is s') xs (Err e) ∧ told s' = told s ∨
        ∃ u, told s' = told s ++ [(placeholder_id rec, u)] ∧ poll_ended self (now_is s + max_wait self) (now_is s') xs (Ok (Some u))
    end.
Proof.
  intros Href Hq Hp Hm Hf. revert r s'. apply wp_runs. destruct (text_of_placeholder rec) as [E1 E2].
  unfold _resolve_one, _poll_task. rewrite E1, E2, Href. set (ref := _make_task_ref _ _).
  assert (ref = "tf:" +:+ ("enrich-" +:+ placeholder_id rec))%string as Eref by done.
  assert (task_id_of ref = "enrich-" +:+ placeholder_id rec)%string as Eid by (rewrite Eref; apply task_id_of_ref).
  pose proof (Z.div_pos (max_wait self) (poll_interval self) ltac:(lia) ltac:(lia)) as Hdiv.
  wp_call. intros now s1 (Ht1 & -> & Ha1 & Hto1). eapply wp_mono; [apply poll_loop_wp; [rewrite Eref; apply starts_tf_ref|done|done|lia|]|].
  { pose proof (Z.div_mod (max_wait self) (poll_interval self) ltac:(lia)). pose proof (Z.mod_pos_bound (max_wait self) (poll_interval self) ltac:(lia)).
    assert ((max_wait self / poll_interval self + 1) * poll_interval self ≤ (Z.of_nat fuel - 1) * poll_interval self)%Z by (apply Z.mul_le_mono_nonneg_r; lia). lia. }
  intros r s2 (xs & Hs & Hto & Hend & Hfew). rewrite Eid in Hs. assert (seen ("enrich-" +:+ placeholder_id rec) s s2 xs) as Hs' by (unfold seen in *; by rewrite Hs, Ha1).
  assert (Z.of_nat (length xs) ≤ max_wait self / poll_interval self + 1)%Z as Hlen.
  { destruct Hfew as [->|Hfew]; [simpl; lia|]. assert (Z.of_nat (length xs) - 1 ≤ max_wait self / poll_interval self)%Z; [|lia].
    apply Z.div_le_lower_bound; lia. }
  destruct r as [[u|]|e]; wp_simp; [|done|].
  - wp_call. intros y s3 (Ht3 & Ha3 & Hto3). assert (seen ("enrich-" +:+ placeholder_id rec) s s3 xs) by (unfold seen in *; congruence).
    assert (told s3 = told s ++ [(placeholder_id rec, u)]) by congruence.
    assert (poll_ended self (now_is s + max_wait self) (now_is s3) xs (Ok (Some u))) by (eapply poll_ended_mono; [| |exact Hend]; lia).
    destruct y as [[]|e]; wp_simp; exists xs; (split; [done|]; split; [done|]); [by exists u|]. right. by exists u.
  - exists xs. split; [done|]. split; [done|]. left. split; [|congruence]. eapply poll_ended_mono; [| |exact Hend]; lia.
Qed.

(** ** Runs *)

Module ManifestWitness.

Local Open Scope string_scope.

Definition told_story : outcome := {| o_content := "once"; o_thinking := "hm"; o_usage := None |}.
Definition results : list (string * StreamResult) :=
  [("s_1", {| sr_stream_id := "s_1"; sr_stages := [("draft", told_story); ("final", told_story)]; sr_errors := [] |});
   ("s_2", {| sr_stream_id := "s_2"; sr_stages := [("draft", told_story)]; sr_errors := [{[ "code" := JStr "INTERNAL" ]}] |})].
Definition picture : PlaceholderRecord :=
  {| placeholder_id := "ph_1"; stream_id := "s_1"; stage := Some "draft"; context_text := "a cat"; loading_url := "loading"; task_ref := "tf:enrich-ph_1";
     state := PENDING; url := None; fallback_url := None; char_offset := 4; meta := ∅; created_at := 0; resolved_at := None; error := None |}.

Lemma results_named : well_named results.
Proof.
  split; [by apply (bool_decide_unpack _)|]. intros sid sr Hin.
  repeat (apply elem_of_cons in Hin as [Hin|Hin]; [injection Hin as -> ->; split; [reflexivity|by apply (bool_decide_unpack _)]|]). by apply elem_of_nil in Hin.
Qed.

Lemma faithful_witness : well_named results ∧ 
  (∃ r, stage_of (manifest_of results [("ph_1", picture)] None ∅) "s_1:final" = Some r ∧ stage_told told_story r) ∧
  Forall2 placeholder_told [picture] (pendings (manifest_of results [("ph_1", picture)] None ∅)).
Proof.
  split; [exact results_named|]. destruct (manifest_faithful results [("ph_1", picture)] None ∅ results_named) as (H1 & _ & _ & H3 & _). split; [|exact H3].
  apply (H1 "s_1" {| sr_stream_id := "s_1"; sr_stages := [("draft", told_story); ("final", told_story)]; sr_errors := [] |} "final" told_story); [left|right; left].
Defined.

(** Two hooks, of which the first fails, and a store that fails *)
Definition fin_answers (o : fin_op) (log : list (entry_of (ans := fin_ans))) : fin_ans o :=
  match o with
  | RunHook 0 => Err (Other "hook")
  | RunHook _ => Ok {[ "category" := JStr "story" ]}
  | SaveResult _ _ => Err (Other "store")
  end.

Definition built : res exn row * list (entry_of (ans := fin_ans)) := play (scripted fin_answers) (fin_build [0; 1]%nat results [("ph_1", picture)] None) [].

Lemma build_witness : ∃ parts, let m := manifest_of results [("ph_1", picture)] None (merged parts ∅) in
  built.1 = Ok m ∧ omap fin_noted built.2 = ((Part <$> parts) ++ [Saved "s_1" m; Saved "s_2" m])%list.
Proof.
  apply (build_spec [0; 1]%nat results [("ph_1", picture)] None built.1 built.2); [|vm_compute; reflexivity]. by apply scripted_runs.
Defined.

(** *** A poll: the store is down, the task runs, the task has succeeded. *)

Definition resolver : ManifestResolver :=
  {| tf_query := true; poll_interval := 1000; max_wait := 10000; success_words := {[ "succeeded" ]}; terminal_words := {[ "succeeded"; "failed"; "cancelled" ]} |}.

Definition task_says (n : nat) : res exn (option row) :=
  match n with
  | O => Err TimeoutError
  | 1%nat => Ok (Some {[ "status" := JStr "running" ]})
  | _ => Ok (Some {[ "status" := JStr "succeeded"; "result" := JObj {[ "url" := JStr "cat.png" ]} ]})
  end.

Definition client_call (o : res_op) (s : client_state) : res_ans o * client_state :=
  match o return res_ans o * client_state with
  | QueryTask id => (task_says (length (asked s)), {| now_is := now_is s; asked := (asked s ++ [(id, task_says (length (asked s)))])%list; told := told s |})
  | LoopTime => (now_is s, s)
  | SleepFor d => (Ok tt, {| now_is := now_is s + d; asked := asked s; told := told s |}%Z)
  | OnResolved pid u => (Ok tt, {| now_is := now_is s; asked := asked s; told := (told s ++ [(pid, u)])%list |})
  end.

Lemma client_call_step o s : client_step o s (client_call o s).1 (client_call o s).2.
Proof. destruct o; simpl; split_and!; try done; try lia. left. split; [done|lia]. Qed.

Definition waiting : client_state := {| now_is := 0; asked := []; told := [] |}.
Definition resolved : res exn (option unit) * client_state := play client_call (_resolve_one resolver 12 (ManifestPlaceholder picture)) waiting.

Example resolved_is : told resolved.2 = [("ph_1", Some (JStr "cat.png"))] ∧ length (asked resolved.2) = 3%nat.
Proof. by vm_compute. Qed.

Lemma resolves_witness : ∃ xs, seen "enrich-ph_1" waiting resolved.2 xs ∧ (Z.of_nat (length xs) ≤ 11)%Z ∧
    match resolved.1 with
    | Ok None => False
    | Ok (Some _) => ∃ u, told resolved.2 = (told waiting ++ [("ph_1", u)])%list ∧ poll_ended resolver (0 + 10000) (now_is resolved.2) xs (Ok (Some u))
    | Err e => poll_ended resolver (0 + 10000) (now_is resolved.2) xs (Err e) ∧ told resolved.2 = told waiting ∨
        ∃ u, told resolved.2 = (told waiting ++ [("ph_1", u)])%list ∧ poll_ended resolver (0 + 10000) (now_is resolved.2) xs (Ok (Some u))
    end.
Proof.
  apply (pending_resolves resolver 12 picture waiting resolved.1 resolved.2); [reflexivity|reflexivity|simpl; lia|simpl; lia|vm_compute; discriminate|].
  apply exec_runs. intros _ o s. apply client_call_step.
Defined.

(** A task that succeeded with a result that is no dict: the poll raises, outside
    of the handler that protects the other placeholders of [resolve_all]. *)
Example malformed_result_escapes : judge resolver {[ "status" := JStr "succeeded"; "result" := JStr "cat.png" ]} = Err (Other "AttributeError").
Proof. by vm_compute. Qed.

End ManifestWitness.
