(* ===== verification/Runner.v ===== *)
(** * The stream runner

    stream/runner/stream.py (the stages of one substream) and
    stream/runner/runner.py (the life of a request): the producer that runs the
    substreams, settles the placeholders, builds the manifest and ends the
    streams; the consumer that forwards the events of the multiplexer; and
    [cancel]. *)
From Stdlib Require Import ZArith Lia.
From stdpp Require Import prelude gmap list strings.
From S2P Require Import Prelude Mux Disconnect Enrich Effects Manifest.
Local Open Scope list_scope.

Abbreviation event := (@EventEnvelope row Z * EventType)%type.

(** ** Calls

    [RunExecutors] is the gathering of the substreams with their outcomes;
    [NextEvent], [EndOfEvents] and [YieldEvent] are the generator of the
    multiplexer and the one of [run]; [AwaitProducer] and [WaitProducer] await
    the producer, the latter for a bounded time. *)

Inductive run_op :=
  | NewStreamId
  | NewResumeToken
  | CallHook (method stream_id : string)
  | RegisterStream (stream_id : string)
  | Emit (stream_id : string) (ty : EventType) (stage : option string) (data : row)
  | CloseStream (stream_id : string)
  | RunExecutors (stream_ids : list string)
  | SettleEnrich
  | ReadRegistry
  | OnFin (o : fin_op)
  | StartProducer
  | ProducerDone
  | AwaitProducer
  | WaitProducer
  | CancelExecutors
  | GatherCancelled
  | ForceClose
  | CloseMonitor
  | NextEvent
  | EndOfEvents
  | AddPartial (stream_id text : string)
  | IsTokenCancelled (stream_id : string)
  | ShouldBuffer
  | BufferPut (ev : event)
  | YieldEvent (ev : event)
  | OnHit (stream_id stage : string) (hit : json)
  | StageResult (stage : string)
  | GatherStages (stages : list string).

Definition run_ans (o : run_op) : Type :=
  match o with
  | NewStreamId | NewResumeToken => string
  | CallHook _ _ | Emit _ _ _ _ | CloseStream _ | SettleEnrich | AwaitProducer | WaitProducer | GatherCancelled | ForceClose | CloseMonitor
  | NextEvent | EndOfEvents | BufferPut _ | OnHit _ _ _ => res exn unit
  | RegisterStream _ | StartProducer | CancelExecutors | AddPartial _ _ => unit
  | RunExecutors _ => res exn (list (res exn StreamResult))
  | ReadRegistry => PlaceholderRegistry
  | OnFin o => fin_ans o
  | ProducerDone | IsTokenCancelled _ | ShouldBuffer => bool
  | YieldEvent _ => res exn bool
  | StageResult _ => res exn outcome
  | GatherStages _ => res exn (list outcome)
  end.
Notation runM := (M run_ans).

Definition emit_event (sid : string) (ty : EventType) (data : row) : runM unit := perform (Emit sid ty None data).

(** ** StreamExecutor *)

Inductive signal := OnText (text : string) | OnThinking (text : string) | OnReferences (refs : list json) | OnMarker (hit : json).

(** The callbacks of a stage *)
Definition on_signal (sid stage : string) (s : signal) : runM unit :=
  match s with
  | OnText t => perform (Emit sid STREAM_DELTA (Some stage) (make_delta CONTENT (Some t) None ∅))
  | OnThinking t => perform (Emit sid STREAM_DELTA (Some stage) (make_delta THINKING (Some t) None ∅))
  | OnReferences refs => perform (Emit sid STREAM_DELTA (Some stage) (make_delta REFERENCES None (Some refs) ∅))
  | OnMarker hit => perform (OnHit sid stage hit)
  end.

(** [signals]: what the stage runner calls its callbacks with *)
Definition _run_stage (signals : string → list signal) (sid stage : string) : runM outcome :=
  do! for_each (signals stage) (on_signal sid stage) in
  let! o := (perform (StageResult stage) : runM outcome) in
  do! (perform (Emit sid STAGE_END (Some stage) (make_stage_end stage (o_content o) (or_absent (o_thinking o)) (o_usage o) ∅)) : runM unit) in
  ret o.

Fixpoint run_serial (signals : string → list signal) (sid : string) (stages : list string) (acc : list (string * outcome)) : runM (list (string * outcome)) :=
  match stages with
  | [] => ret acc
  | stage :: stages => let! o := _run_stage signals sid stage in run_serial signals sid stages (dset acc stage o)
  end.

(** The stages with whether they are serial; [errors] stays empty here. *)
Definition executor_run (signals : string → list signal) (sid : string) (stages : list (string * bool)) : runM StreamResult :=
  let serial := (filter (λ s, s.2 = true) stages).*1 in
  let parallel := (filter (λ s, s.2 = false) stages).*1 in
  let! acc := run_serial signals sid serial [] in
  let! acc := (if bool_decide (parallel = []) then ret acc
               else let! outcomes := (perform (GatherStages parallel) : runM (list outcome)) in
                    ret (fold_left (λ acc '(s, o), dset acc s o) (zip parallel outcomes) acc)) in
  ret {| sr_stream_id := sid; sr_stages := acc; sr_errors := [] |}.

(** ** StreamRunner *)

Section Runner.

(** [str(e)]; whether an exception is a StructuredStreamError, and its
    [retryable]; whether it is a StreamTruncatedError *)
Context (str_exn : exn → string) (structured : exn → option bool) (truncated : exn → bool).
(** The hooks object is given; the finalizer hooks *)
Context (hooks : bool) (finalizers : list nat).

Definition _call_hook (method sid : string) : runM unit :=
  if hooks then except_exception (perform (CallHook method sid)) (λ _, ret tt) else ret tt.

Definition failed_result (sid code message : string) : StreamResult :=
  {| sr_stream_id := sid; sr_stages := []; sr_errors := [{[ "code"%string := JStr code; "message"%string := JStr message ]}] |}.

Definition failure_code (e : exn) : ErrorCode * bool :=
  match structured e with
  | Some retryable => (INTERNAL, retryable)
  | None => if truncated e then (UPSTREAM_INTERRUPTED, false) else (INTERNAL, false)
  end.

(** An error event whose emission may fail *)
Definition emit_error (sid : string) (code : ErrorCode) (message : string) (retryable : bool) : runM unit :=
  except_exception (emit_event sid STREAM_ERROR (make_stream_error code message retryable None ∅)) (λ _, ret tt).

(** The result of one substream *)
Definition substream_result (sid : string) (r : res exn StreamResult) : StreamResult :=
  match r with
  | Ok sr => sr
  | Err CancelledError => failed_result sid "CANCELLED" "stream cancelled"
  | Err e => failed_result sid (error_code_value (failure_code e).1) (str_exn e)
  end.

Definition report (sid : string) (r : res exn StreamResult) : runM unit :=
  match r with
  | Ok _ | Err CancelledError => ret tt
  | Err e =>
      do! emit_error sid (failure_code e).1 (str_exn e) (failure_code e).2 in
      _call_hook "on_error" sid
  end.

Fixpoint collect_results (l : list (string * res exn StreamResult)) (acc : list (string * StreamResult)) : runM (list (string * StreamResult)) :=
  match l with
  | [] => ret acc
  | (sid, r) :: l => do! report sid r in collect_results l (dset acc sid (substream_result sid r))
  end.

(** The [try] block of [_produce] *)
Definition produce_try (sids : list string) : runM unit :=
  let! results := (perform (RunExecutors sids) : runM (list (res exn StreamResult))) in
  let! stream_results := collect_results (zip sids results) [] in
  do! (perform SettleEnrich : runM unit) in
  pbind (perform ReadRegistry) (λ registry,
    let! manifest := build (λ i, perform (OnFin (RunHook i))) (λ sid m, perform (OnFin (SaveResult sid m))) finalizers stream_results registry None in
    do! for_each sids (λ sid, emit_event sid STREAM_MANIFEST manifest) in
    for_each sids (λ sid, do! emit_event sid STREAM_END (make_stream_end ∅) in _call_hook "on_stream_end" sid)).

Definition produce_except (sids : list string) (e : exn) : runM unit :=
  for_each sids (λ sid, do! emit_error sid INTERNAL (str_exn e) false in _call_hook "on_error" sid).

Definition produce_finally (sids : list string) : runM unit :=
  for_each sids (λ sid, except_exception (perform (CloseStream sid)) (λ _, ret tt)).

Definition _produce (sids : list string) : runM unit :=
  finally (except_exception (produce_try sids) (produce_except sids)) (produce_finally sids).

(** *** [run] *)

Definition _on_cancel : runM unit :=
  pbind (perform CancelExecutors) (λ _, do! (perform GatherCancelled : runM unit) in (perform ForceClose : runM unit)).

Definition terminal_signal (ty : EventType) : bool :=
  match ty with STREAM_CANCELLED | STREAM_MANIFEST | STREAM_END => true | _ => false end.

(** The text of a content delta *)
Definition content_delta (ev : event) : option string :=
  if decide (ev.2 = STREAM_DELTA) then
    if bool_decide (env_data ev.1 !! "kind"%string = Some (JStr "content")) then Some (get_text (env_data ev.1) "text") else None
  else None.

Definition forward (ev : event) : runM bool :=
  pbind (match content_delta ev with Some text => (perform (AddPartial (env_stream_id ev.1) text) : prog run_ans unit) | None => Ret tt end) (λ _ : unit,
  pbind (perform (IsTokenCancelled (env_stream_id ev.1))) (λ cancelled : bool,
    if cancelled && negb (terminal_signal ev.2) then ret true
    else
      pbind (perform ShouldBuffer) (λ buffering : bool,
        if buffering then do! (perform (BufferPut ev) : runM unit) in ret true
        else (perform (YieldEvent ev) : runM bool)))).

(** [events]: what the multiplexer delivers until it stops.  [false]: the
    consumer closed the generator. *)
Fixpoint consume_events (events : list event) : runM bool :=
  match events with
  | [] => do! (perform EndOfEvents : runM unit) in ret true
  | ev :: events =>
      do! (perform NextEvent : runM unit) in
      let! goes_on := forward ev in
      if goes_on then consume_events events else ret false
  end.

Definition run_finally : runM unit :=
  pbind (perform ProducerDone) (λ finished : bool,
    do! (if finished then (perform AwaitProducer : runM unit)
         else
           do! _on_cancel in
           catch (perform WaitProducer : runM unit) (λ e, match e with TimeoutError | CancelledError => ret tt | e => raise e end)) in
    (perform CloseMonitor : runM unit)).

Fixpoint register_streams (n : nat) : runM (list string) :=
  match n with
  | O => ret []
  | S n =>
      pbind (perform NewStreamId) (λ sid : string,
        pbind (perform (RegisterStream sid)) (λ _,
          do! _call_hook "on_stream_start" sid in
          let! sids := register_streams n in ret (sid :: sids)))
  end.

Definition run (started : bool) (max_id : nat) (stages : list string) (config_echo : row) (events : list event) : runM bool :=
  if started then raise (Other "RuntimeError")
  else
    let! sids := register_streams max_id in
    pbind (perform NewResumeToken) (λ resume_token : string,
      do! for_each sids (λ sid, emit_event sid STREAM_START (make_stream_start stages resume_token config_echo ∅)) in
      pbind (perform StartProducer) (λ _,
        finally (consume_events events) run_finally)).

End Runner.

(** ** What a substream shows *)

Inductive stage_note := Shown (stage : option string) (ty : EventType) (data : row) | Hit (stage : string) (hit : json).

Definition shown (ev : entry_of (ans := run_ans)) : option stage_note :=
  let '(existT o x) := ev in
  match o return run_ans o → option stage_note with
  | Emit _ ty stage data => λ _, Some (Shown stage ty data)
  | OnHit _ stage hit => λ _, Some (Hit stage hit)
  | _ => λ _, None
  end x.

(** The events of one signal, and of a stage with its outcome *)
Definition signal_note (stage : string) (s : signal) : stage_note :=
  match s with
  | OnText t => Shown (Some stage) STREAM_DELTA (make_delta CONTENT (Some t) None ∅)
  | OnThinking t => Shown (Some stage) STREAM_DELTA (make_delta THINKING (Some t) None ∅)
  | OnReferences refs => Shown (Some stage) STREAM_DELTA (make_delta REFERENCES None (Some refs) ∅)
  | OnMarker hit => Hit stage hit
  end.

Definition stage_notes (signals : string → list signal) (stage : string) (o : outcome) : list stage_note :=
  (signal_note stage <$> signals stage) ++
  [Shown (Some stage) STAGE_END (when_some (o_usage o) "usage" (λ u, u) {[ "name"%string := JStr stage; "result"%string := JObj (stage_result o) ]})].

Section Executing.

Context (signals : string → list signal) (sid : string).
Notation xtraces := (traces anything shown (λ _, true)).

(** Of what is shown until a failure nothing is claimed. *)
Definition shows {A} (p : runM A) (T : A → list stage_note → Prop) : Prop := xtraces p (λ r t, match r with Ok a => T a t | Err _ => True end).

Lemma shows_seq {A B} (p : runM A) (f : A → runM B) T1 T : shows p T1 → (∀ a t1, T1 a t1 → shows (f a) (λ b t2, T b (t1 ++ t2))) → shows (seq p f) T.
Proof. intros Hp Hf. eapply traces_seq; [exact Hp|exact Hf|done]. Qed.

Lemma shows_call o (T : run_ans o → list stage_note → Prop) : (∀ x, T x (option_list (shown (existT o x)))) → xtraces (perform o) T.
Proof. intros HT. refine (traces_call _ _ _ o _ _). by intros log x _ _. Qed.

Lemma signal_shows stage s : shows (on_signal sid stage s) (λ _ t, t = [signal_note stage s]).
Proof. destruct s; (eapply traces_mono; [refine (shows_call _ (λ _ t, t = [_]) _); intros x; reflexivity|]); by intros [[]|e] t ->. Qed.

Lemma signals_show stage l : shows (for_each l (on_signal sid stage)) (λ _ t, t = signal_note stage <$> l).
Proof.
  induction l as [|s l IH]; cbn [for_each]; [by apply traces_ret|]. eapply shows_seq; [apply signal_shows|]. intros [] t ->.
  eapply traces_mono; [exact IH|]. intros [[]|e] t Ht; [by subst|done].
Qed.

Lemma stage_shows stage : shows (_run_stage signals sid stage) (λ o t, t = stage_notes signals stage o).
Proof.
  eapply shows_seq; [apply signals_show|]. intros [] t ->. eapply (shows_seq _ _ (λ _ t, t = [])).
  { eapply traces_mono; [apply (shows_call (StageResult stage) (λ _ t, t = [])); done|]. by intros [o|e] t. }
  intros o t ->. eapply (shows_seq _ _ (λ _ t, t = [Shown (Some stage) STAGE_END (make_stage_end stage (o_content o) (or_absent (o_thinking o)) (o_usage o) ∅)])).
  { set (d := make_stage_end _ _ _ _ _). eapply traces_mono; [apply (shows_call (Emit sid STAGE_END (Some stage) d) (λ _ t, t = [Shown (Some stage) STAGE_END d])); done|].
    by intros [[]|e] t. }
  intros [] t ->. by apply traces_ret.
Qed.

Lemma serial_shows stages acc : NoDup (dkeys acc ++ stages) → shows (run_serial signals sid stages acc) (λ res t, ∃ os, length os = length stages ∧
  res = acc ++ zip stages os ∧ t = mjoin (zip_with (stage_notes signals) stages os)).
Proof.
  revert acc. induction stages as [|stage stages IH]; intros acc Hnd; cbn [run_serial].
  { apply traces_ret. exists []. by rewrite app_nil_r. }
  assert (stage ∉ dkeys acc) as Hs. { intros Hin. apply NoDup_app in Hnd as (_ & Hd & _). apply (Hd stage Hin). left. }
  eapply shows_seq; [apply stage_shows|]. intros o t ->. rewrite dset_fresh by (by apply dget_None). eapply traces_mono; [apply IH|].
  - unfold dkeys in *. by rewrite fmap_app, <- app_assoc.
  - intros [res|e] t; [|done]. intros (os & Hl & -> & ->). exists (o :: os). split_and!; [simpl; lia|by rewrite <- app_assoc|done].
Qed.

End Executing.

(** ** What is sent *)

Inductive emission := Sent (stream_id : string) (ty : EventType) (data : row) | Closing (stream_id : string).

Definition emitted (ev : entry_of (ans := run_ans)) : option emission :=
  let '(existT o x) := ev in
  match o return run_ans o → option emission with
  | Emit sid ty _ data => λ x, match x with Ok _ => Some (Sent sid ty data) | Err _ => None end
  | CloseStream sid => λ _, Some (Closing sid)
  | _ => λ _, None
  end x.

(** No cancellation while the streams are being closed *)
Definition closes (ev : entry_of (ans := run_ans)) : bool :=
  let '(existT o x) := ev in match o return run_ans o → bool with CloseStream _ => uncut | _ => λ _, true end x.

Definition is_error (e : emission) : Prop := match e with Sent _ STREAM_ERROR _ => True | _ => False end.
Definition sent_manifest (m : row) (sid : string) : emission := Sent sid STREAM_MANIFEST m.
Definition sent_end (sid : string) : emission := Sent sid STREAM_END (make_stream_end ∅).

(** Calls that send nothing but errors *)
Definition harmless (o : run_op) : Prop := match o with Emit _ STREAM_ERROR _ _ => True | Emit _ _ _ _ | CloseStream _ => False | _ => True end.

Section Sending.

Context (str_exn : exn → string) (structured : exn → option bool) (truncated : exn → bool) (hooks : bool) (finalizers : list nat).
Context (fine : entry_of (ans := run_ans) → bool).
Notation etraces := (traces anything emitted fine).

Lemma harmless_traces {A} (p : prog run_ans A) : calls harmless p → etraces p (λ _ t, Forall is_error t).
Proof. apply traces_calls. intros [] x Ho; try done. destruct x; [|done]. by destruct ty. Qed.

Lemma calls_hook (P : run_op → Prop) method sid : (∀ m s, P (CallHook m s)) → calls P (_call_hook hooks method sid).
Proof. intros HP. unfold _call_hook. destruct hooks; [|done]. by apply calls_except; [apply calls_perform|]. Qed.

Lemma calls_emit_error sid code msg b : calls harmless (emit_error sid code msg b).
Proof. apply calls_except; [|done]. by apply (calls_perform (ans := run_ans)). Qed.

Lemma calls_collect l acc : calls harmless (collect_results str_exn structured truncated hooks l acc).
Proof.
  revert acc. induction l as [|[sid r] l IH]; intros acc; cbn [collect_results]; [done|]. apply calls_seq; [|intros _; apply IH].
  unfold report. destruct r as [sr|[]]; try done; (apply calls_seq; [apply calls_emit_error|intros _; by apply calls_hook]).
Qed.

Lemma calls_except_clause sids e : calls harmless (produce_except str_exn hooks sids e).
Proof. apply calls_for_each. intros sid _. apply calls_seq; [apply calls_emit_error|intros _; by apply calls_hook]. Qed.

(** A loop that sends one thing for each element, until it fails *)
Definition sends (f : runM unit) (n : emission) : Prop :=
  etraces f (λ r t, match r with Ok _ => t = [n] | Err e => t = [] ∨ t = [n] ∧ e = CancelledError end).

Lemma sends_all {A} (l : list A) (f : A → runM unit) (n : A → emission) : (∀ a, sends (f a) (n a)) →
  etraces (for_each l f) (λ r t, ∃ k, k `prefix_of` l ∧ t = n <$> k ∧ match r with Ok _ => k = l | Err e => k = l → e = CancelledError end).
Proof.
  intros Hf. induction l as [|a l IH]; cbn [for_each]; [apply traces_ret; exists []; by split_and!|].
  eapply traces_seq; [apply Hf| |].
  - intros [] t ->. eapply traces_mono; [exact IH|]. intros r t (k & Hk & -> & Hr). exists (a :: k).
    split_and!; [by apply prefix_cons|done|]. destruct r; [by subst|]. intros [= ->]. by apply Hr.
  - intros e t [->|[-> ->]]; [exists []; split_and!; [apply prefix_nil|done|done]|exists [a]]. split_and!; [|done|done].
    apply prefix_cons, prefix_nil.
Qed.

Lemma sends_event sid ty data : sends (emit_event sid ty data) (Sent sid ty data).
Proof. refine (traces_call _ _ _ (Emit sid ty None data) _ _). intros log [[]|e] _ _; [done|by left]. Qed.

Lemma sends_end sid : sends (do! emit_event sid STREAM_END (make_stream_end ∅) in _call_hook hooks "on_stream_end" sid) (sent_end sid).
Proof.
  eapply traces_seq; [apply sends_event| |by intros e t [->|[-> ->]]; auto]. intros [] t ->.
  eapply (traces_mono _ _ _ _ (λ r t, t = [] ∧ (uncut r = true → r = Ok tt))).
  - unfold _call_hook. destruct hooks; [|by apply traces_ret].
    eapply (traces_catch _ _ _ _ _ (λ _ t, t = [])); [by refine (traces_call _ _ _ (CallHook _ _) _ _)| |by intros [] t ->].
    intros e t ->. unfold is_exception. case_bool_decide; apply traces_ret; [done|]. split; [done|]. by destruct e.
  - intros r t [-> Hr]. destruct r as [[]|e]; [done|]. right. split; [done|]. destruct e; try (by specialize (Hr eq_refl)); done.
Qed.

(** What the [try] block sends *)
Definition try_sent (sids : list string) (r : res exn unit) (t : list emission) : Prop :=
  ∃ errs m ms es, t = errs ++ (sent_manifest m <$> ms) ++ (sent_end <$> es) ∧ Forall is_error errs ∧
    ms `prefix_of` sids ∧ es `prefix_of` sids ∧ (es ≠ [] → ms = sids) ∧
    match r with Ok _ => ms = sids ∧ es = sids | Err e => es = sids → sids ≠ [] → e = CancelledError end.

Lemma try_errors sids e t : Forall is_error t → try_sent sids (Err e) t.
Proof.
  intros Ht. exists t, ∅, [], []. split_and!; [by rewrite !app_nil_r|done|apply prefix_nil..|done|]. by intros <-.
Qed.

Lemma ending_sent sids m errs : Forall is_error errs →
  etraces (do! for_each sids (λ sid, emit_event sid STREAM_MANIFEST m) in
           for_each sids (λ sid, do! emit_event sid STREAM_END (make_stream_end ∅) in _call_hook hooks "on_stream_end" sid))
    (λ r t, try_sent sids r (errs ++ t)).
Proof.
  intros He. eapply traces_seq; [apply (sends_all _ _ (sent_manifest m)); intros sid; apply sends_event| |].
  - intros [] t (ms & _ & -> & ->). eapply traces_mono; [apply (sends_all _ _ sent_end sends_end)|]. intros r t (es & Hes & -> & Hr).
    exists errs, m, sids, es. split_and!; [done..|]. destruct r; [done|]. auto.
  - intros e t (ms & Hms & -> & _). exists errs, m, ms, []. split_and!; [by rewrite app_nil_r|done|done|apply prefix_nil|done|]. by intros <-.
Qed.

Lemma produce_try_sent sids : etraces (produce_try str_exn structured truncated hooks finalizers sids) (try_sent sids).
Proof.
  unfold produce_try.
  eapply traces_seq; [apply harmless_traces, (calls_perform (ans := run_ans)); exact I| |intros; by apply try_errors]. intros results t1 H1.
  eapply traces_seq; [apply harmless_traces, calls_collect| |intros; apply try_errors; by apply Forall_app]. intros sr t2 H2.
  eapply traces_seq; [apply harmless_traces, (calls_perform (ans := run_ans)); exact I| |intros; apply try_errors; by rewrite !Forall_app]. intros [] t3 H3.
  eapply traces_pbind; [apply harmless_traces, (calls_perform (ans := run_ans)); exact I|]. intros g t4 H4.
  eapply traces_seq; [apply harmless_traces, calls_build; intros; by apply (calls_perform (ans := run_ans))| |intros; apply try_errors; by rewrite !Forall_app]. intros m t5 H5.
  eapply traces_mono; [apply (ending_sent sids m (t1 ++ t2 ++ t3 ++ t4 ++ t5)); by rewrite !Forall_app|]. intros r t H. simpl in H. by rewrite <- !app_assoc in H.
Qed.

Context (Hcloses : ∀ ev, fine ev = true → closes ev = true).

Lemma finally_sent sids : etraces (produce_finally sids) (λ r t, r = Ok tt ∧ t = Closing <$> sids).
Proof.
  eapply (traces_for_each _ _ _ _ _ (λ sid t, t = [Closing sid])).
  - intros sid _. apply traces_ignore. refine (traces_call _ _ _ (CloseStream sid) _ _). intros log x _ Hx. apply Hcloses in Hx. by split.
  - intros ts Hts. split; [done|]. induction Hts as [|sid t l ts -> _ IH]; [done|]. simpl. by f_equal.
Qed.

(** What the producer sends: errors, manifests, ends, and more errors if it failed *)
Definition produced (sids : list string) (t : list emission) : Prop :=
  ∃ errs m ms es late, t = errs ++ (sent_manifest m <$> ms) ++ (sent_end <$> es) ++ late ++ (Closing <$> sids) ∧
    Forall is_error errs ∧ Forall is_error late ∧ ms `prefix_of` sids ∧ es `prefix_of` sids ∧ (es ≠ [] → ms = sids) ∧ (es = sids → sids ≠ [] → late = []).

Lemma produce_sent sids : etraces (_produce str_exn structured truncated hooks finalizers sids) (λ _ t, produced sids t).
Proof.
  unfold _produce, finally. eapply (traces_pbind _ _ _ _ _ (λ _ t, ∃ errs m ms es late, t = errs ++ (sent_manifest m <$> ms) ++ (sent_end <$> es) ++ late ∧
    Forall is_error errs ∧ Forall is_error late ∧ ms `prefix_of` sids ∧ es `prefix_of` sids ∧ (es ≠ [] → ms = sids) ∧ (es = sids → sids ≠ [] → late = []))).
  - unfold except_exception. eapply traces_catch; [apply produce_try_sent| |].
    + intros e t (errs & m & ms & es & -> & He & Hms & Hes & Hall & Hr). unfold is_exception. case_bool_decide as Ee.
      * eapply traces_mono; [apply (traces_calls _ _ _ harmless is_error)|].
        -- intros [] x Ho; try done. destruct x; [|done]. by destruct ty.
        -- apply calls_except_clause.
        -- intros r late Hlate. exists errs, m, ms, es, late. split_and!; [by rewrite <- !app_assoc|done..|]. intros Hs Hne. by destruct Ee; apply Hr.
      * apply traces_ret. exists errs, m, ms, es, []. split_and!; [by rewrite !app_nil_r|done|constructor|done..].
    + intros [] t (errs & m & ms & es & -> & He & Hms & Hes & Hall & Hr). exists errs, m, ms, es, []. split_and!; [by rewrite !app_nil_r|done|constructor|done..].
  - intros r t (errs & m & ms & es & late & -> & H). eapply traces_pbind; [apply finally_sent|]. intros r' t' [-> ->].
    apply traces_ret. rewrite app_nil_r. exists errs, m, ms, es, late. split; [by rewrite <- !app_assoc|done].
Qed.

End Sending.

(** ** A producer that nothing disturbs *)

Inductive progress_note :=
  | Ran (results : list (res exn StreamResult))
  | Settled
  | Looked (registry : PlaceholderRegistry)
  | Fin (n : fin_note)
  | Did (e : emission).

Definition noticed (ev : entry_of (ans := run_ans)) : option progress_note :=
  let '(existT o x) := ev in
  match o return run_ans o → option progress_note with
  | RunExecutors _ => λ x, match x with Ok l => Some (Ran l) | Err _ => None end
  | SettleEnrich => λ _, Some Settled
  | ReadRegistry => λ g, Some (Looked g)
  | OnFin o => λ x, Fin <$> fin_noted (existT o x)
  | Emit sid ty _ data => λ _, Some (Did (Sent sid ty data))
  | CloseStream sid => λ _, Some (Did (Closing sid))
  | _ => λ _, None
  end x.

Definition is_okay {E A} (x : res E A) : bool := match x with Ok _ => true | Err _ => false end.

(** The multiplexer takes every event, the substreams have been gathered and
    the placeholders settled; hooks and stores may fail, but nothing is
    cancelled. *)
Definition smooth (ev : entry_of (ans := run_ans)) : bool :=
  let '(existT o x) := ev in
  match o return run_ans o → bool with
  | RunExecutors sids => λ x, match x with Ok l => bool_decide (length l = length sids) | Err _ => false end
  | SettleEnrich => is_okay
  | Emit _ _ _ _ => is_okay
  | CloseStream _ => uncut
  | CallHook _ _ => uncut
  | OnFin o => λ x, fin_fine (existT o x)
  | _ => λ _, true
  end x.

Section Smooth.

Context (str_exn : exn → string) (structured : exn → option bool) (truncated : exn → bool) (hooks : bool) (finalizers : list nat).
Notation ptraces := (traces anything noticed smooth).
Notation result_of := (substream_result str_exn structured truncated).
Notation code_of := (failure_code structured truncated).

Lemma hook_smooth method sid : ptraces (_call_hook hooks method sid) (λ r t, r = Ok tt ∧ t = []).
Proof.
  unfold _call_hook. destruct hooks; [|by apply traces_ret]. apply traces_ignore.
  refine (traces_call _ _ _ (CallHook method sid) _ _). intros log x _ Hx. by split.
Qed.

Lemma emit_smooth sid ty data : ptraces (emit_event sid ty data) (λ r t, r = Ok tt ∧ t = [Did (Sent sid ty data)]).
Proof. refine (traces_call _ _ _ (Emit sid ty None data) _ _). intros log x _ Hx. by destruct x as [[]|]. Qed.

(** The error event of a substream that failed *)
Definition error_event (sid : string) (r : res exn StreamResult) : list progress_note :=
  match r with
  | Ok _ | Err CancelledError => []
  | Err e => [Did (Sent sid STREAM_ERROR (make_stream_error (code_of e).1 (str_exn e) (code_of e).2 None ∅))]
  end.

Lemma emit_error_smooth sid code msg b :
  ptraces (emit_error sid code msg b) (λ r t, r = Ok tt ∧ t = [Did (Sent sid STREAM_ERROR (make_stream_error code msg b None ∅))]).
Proof. apply traces_ignore. eapply traces_mono; [apply emit_smooth|]. by intros r t [-> ->]. Qed.

Lemma report_smooth sid r : ptraces (report str_exn structured truncated hooks sid r) (λ a t, a = Ok tt ∧ t = error_event sid r).
Proof.
  unfold report, error_event. destruct r as [sr|e]; [by apply traces_ret|]. destruct (decide (e = CancelledError)) as [->|He]; [by apply traces_ret|].
  assert (ptraces (do! emit_error sid (code_of e).1 (str_exn e) (code_of e).2 in _call_hook hooks "on_error" sid) (λ a t, a = Ok tt ∧
    t = [Did (Sent sid STREAM_ERROR (make_stream_error (code_of e).1 (str_exn e) (code_of e).2 None ∅))])) as H; [|by destruct e].
  eapply traces_seq; [apply emit_error_smooth| |by intros ? ? [[=] _]]. intros [] t [_ ->]. eapply traces_mono; [apply hook_smooth|]. by intros r t [-> ->].
Qed.

Lemma collect_smooth l acc : ptraces (collect_results str_exn structured truncated hooks l acc) (λ r t,
  r = Ok (fold_left (λ acc '(sid, r), dset acc sid (result_of sid r)) l acc) ∧ t = l ≫= λ '(sid, r), error_event sid r).
Proof.
  revert acc. induction l as [|[sid r] l IH]; intros acc; cbn [collect_results]; [by apply traces_ret|].
  eapply traces_seq; [apply report_smooth| |by intros ? ? [[=] _]]. intros [] t [_ ->]. eapply traces_mono; [apply IH|]. by intros a t [-> ->].
Qed.

Lemma each_smooth {A} (l : list A) (f : A → runM unit) (n : A → progress_note) : (∀ a, ptraces (f a) (λ r t, r = Ok tt ∧ t = [n a])) →
  ptraces (for_each l f) (λ r t, r = Ok tt ∧ t = n <$> l).
Proof.
  intros Hf. eapply (traces_for_each _ _ _ _ _ (λ a t, t = [n a])); [by intros a _|].
  intros ts Hts. split; [done|]. induction Hts as [|a t l ts -> _ IH]; [done|]. simpl. by f_equal.
Qed.

(** The results, by stream *)
Definition results_of (sids : list string) (l : list (res exn StreamResult)) : list (string * StreamResult) :=
  zip_with (λ sid r, (sid, result_of sid r)) sids l.

Lemma collected_results sids l acc : length l = length sids → NoDup (dkeys acc ++ sids) →
  fold_left (λ acc '(sid, r), dset acc sid (result_of sid r)) (zip sids l) acc = acc ++ results_of sids l.
Proof.
  revert l acc. induction sids as [|sid sids IH]; intros [|r l] acc Hl Hnd; simpl in *; [by rewrite app_nil_r|done|done|].
  assert (sid ∉ dkeys acc) as Hsid. { intros Hin. apply NoDup_app in Hnd as (_ & Hd & _). apply (Hd sid Hin). left. }
  rewrite dset_fresh by (by apply dget_None). rewrite IH; [by rewrite <- app_assoc|lia|]. unfold dkeys in *. by rewrite fmap_app, <- app_assoc.
Qed.

Lemma results_keys sids l : length l = length sids → dkeys (results_of sids l) = sids.
Proof.
  unfold dkeys, results_of. revert l. induction sids as [|sid sids IH]; intros [|r l] Hl; simpl in *; try done. f_equal. apply IH. lia.
Qed.

(** Everything an undisturbed producer does before it closes the streams *)
Definition produced_all (sids : list string) (t : list progress_note) : Prop :=
  ∃ l g parts, let m := manifest_of (results_of sids l) g None (merged parts ∅) in
    length l = length sids ∧
    t = [Ran l] ++ (zip sids l ≫= λ '(sid, r), error_event sid r) ++ [Settled; Looked g] ++
        (Fin <$> (Part <$> parts) ++ ((λ sid, Saved sid m) <$> sids)) ++
        ((λ sid, Did (sent_manifest m sid)) <$> sids) ++ ((λ sid, Did (sent_end sid)) <$> sids).

Lemma build_smooth results g : ptraces (build (λ i, perform (OnFin (RunHook i))) (λ sid m, perform (OnFin (SaveResult sid m))) finalizers results g None)
  (λ r t, ∃ parts, r = Ok (manifest_of results g None (merged parts ∅)) ∧
    t = Fin <$> (Part <$> parts) ++ ((λ sid, Saved sid (manifest_of results g None (merged parts ∅))) <$> dkeys results)).
Proof.
  eapply traces_mono; [apply (build_traces _ _ _ _ _ (λ p, Fin (Part p)) (λ sid m, Fin (Saved sid m)))|].
  - intros i. refine (traces_call _ _ _ (OnFin (RunHook i)) _ _). intros log x _ Hx. split; [exact Hx|]. by destruct x.
  - intros sid m. refine (traces_call _ _ _ (OnFin (SaveResult sid m)) _ _). by intros log x _ Hx.
  - intros r t (parts & -> & ->). exists parts. split; [done|]. by rewrite fmap_app, <- !list_fmap_compose.
Qed.

Lemma produce_try_smooth sids : NoDup sids →
  ptraces (produce_try str_exn structured truncated hooks finalizers sids) (λ r t, r = Ok tt ∧ produced_all sids t).
Proof.
  intros Hnd. unfold produce_try.
  eapply (traces_seq _ _ _ _ _ (λ r t, ∃ l, r = Ok l ∧ length l = length sids ∧ t = [Ran l])); [| |by intros ? ? (? & [=] & _)].
  { refine (traces_call _ _ _ (RunExecutors sids) _ _). intros log [l|e] _ Hx; [|done]. exists l. split_and!; [done|by apply bool_decide_eq_true in Hx|done]. }
  intros results t (l & [= ->] & Hl & ->).
  eapply traces_seq; [apply collect_smooth| |by intros ? ? [[=] _]]. intros sr t [[= ->] ->]. rewrite (collected_results sids l []) by done.
  eapply (traces_seq _ _ _ _ _ (λ r t, r = Ok tt ∧ t = [Settled])); [| |by intros ? ? [[=] _]].
  { refine (traces_call _ _ _ SettleEnrich _ _). by intros log [[]|e] _ Hx. }
  intros [] t [_ ->]. eapply (traces_pbind _ _ _ _ _ (λ g t, t = [Looked g])); [by refine (traces_call _ _ _ ReadRegistry _ _)|]. intros g t ->.
  eapply traces_seq; [apply build_smooth| |by intros ? ? (? & [=] & _)]. intros m t (parts & [= ->] & ->). rewrite app_nil_l, results_keys by done.
  set (m := manifest_of _ _ _ _).
  eapply traces_seq; [apply (each_smooth _ _ (λ sid, Did (sent_manifest m sid))); intros sid; apply emit_smooth| |by intros ? ? [[=] _]]. intros [] t [_ ->].
  eapply traces_mono; [apply (each_smooth _ _ (λ sid, Did (sent_end sid)))|].
  - intros sid. eapply traces_seq; [apply emit_smooth| |by intros ? ? [[=] _]]. intros [] t [_ ->]. eapply traces_mono; [apply hook_smooth|]. by intros r t [-> ->].
  - intros r t [-> ->]. split; [done|]. by exists l, g, parts.
Qed.

Lemma produce_smooth sids : NoDup sids → ptraces (_produce str_exn structured truncated hooks finalizers sids)
  (λ r t, r = Ok tt ∧ ∃ t0, produced_all sids t0 ∧ t = t0 ++ ((λ sid, Did (Closing sid)) <$> sids)).
Proof.
  intros Hnd. unfold _produce, finally. eapply traces_pbind.
  - eapply traces_catch; [by apply produce_try_smooth|by intros ? ? [[=] _]|]. intros a t H. exact H.
  - intros r t [-> Ht]. eapply (traces_pbind _ _ _ _ _ (λ r t, r = Ok tt ∧ t = (λ sid, Did (Closing sid)) <$> sids)).
    + apply (each_smooth _ _ (λ sid, Did (Closing sid))). intros sid. apply traces_ignore. refine (traces_call _ _ _ (CloseStream sid) _ _). by intros log x _ Hx.
    + intros r t' [-> ->]. apply traces_ret. split; [done|]. exists t. by rewrite app_nil_r.
Qed.

End Smooth.

(** In a smooth run the emissions are those noticed. *)
Definition done_emission (n : progress_note) : option emission := match n with Did e => Some e | _ => None end.

Lemma smooth_emitted log : forallb smooth log = true → omap emitted log = omap done_emission (omap noticed log).
Proof.
  induction log as [|[o x] log IH]; [done|]. simpl. intros [Hx Hl]%andb_true_iff. specialize (IH Hl).
  destruct o; simpl in *; first [exact IH | f_equal; exact IH | destruct o, x; exact IH | destruct x as [?|?]; simpl in *; first [done | exact IH | f_equal; exact IH]].
Qed.

Lemma omap_done {A} (f : A → emission) (l : list A) : omap done_emission ((λ a, Did (f a)) <$> l) = f <$> l.
Proof. induction l as [|a l IH]; [done|]. simpl. f_equal. exact IH. Qed.

Lemma omap_fins l : omap done_emission (Fin <$> l) = [].
Proof. by induction l. Qed.

Lemma omap_errors str_exn structured truncated (l : list (string * res exn StreamResult)) :
  Forall is_error (omap done_emission (l ≫= λ '(sid, r), error_event str_exn structured truncated sid r)).
Proof.
  induction l as [|[sid [sr|e]] l IH]; [constructor|exact IH|]. rewrite bind_cons, omap_app. apply Forall_app. split; [|exact IH].
  destruct e; by repeat constructor.
Qed.

(** ** What the consumer of [run] sees *)

Inductive seen_note := Kept (stream_id text : string) | Token (stream_id : string) (cancelled : bool) | Out (ev : event).

Definition looked (ev : entry_of (ans := run_ans)) : option seen_note :=
  let '(existT o x) := ev in
  match o return run_ans o → option seen_note with
  | AddPartial sid text => λ _, Some (Kept sid text)
  | IsTokenCancelled sid => λ b, Some (Token sid b)
  | BufferPut ev | YieldEvent ev => λ _, Some (Out ev)
  | _ => λ _, None
  end x.

(** What becomes of one event, with what the cancellation token said *)
Definition handled_event (ev : event) (cancelled : bool) : list seen_note :=
  match content_delta ev with Some text => [Kept (env_stream_id ev.1) text] | None => [] end ++
  [Token (env_stream_id ev.1) cancelled] ++ (if cancelled && negb (terminal_signal ev.2) then [] else [Out ev]).

(** The start, the end and what happens to the producer *)
Inductive life_note := Begun | Finished (b : bool) | Stopping | Forced | Joined | MonitorClosed.

Definition lived (ev : entry_of (ans := run_ans)) : option life_note :=
  let '(existT o x) := ev in
  match o return run_ans o → option life_note with
  | StartProducer => λ _, Some Begun
  | ProducerDone => λ b, Some (Finished b)
  | CancelExecutors => λ _, Some Stopping
  | ForceClose => λ _, Some Forced
  | AwaitProducer | WaitProducer => λ _, Some Joined
  | CloseMonitor => λ _, Some MonitorClosed
  | _ => λ _, None
  end x.

(** The producer has not raised, and no cancellation arrives while the runner cleans up. *)
Definition cleanly (ev : entry_of (ans := run_ans)) : bool :=
  let '(existT o x) := ev in
  match o return run_ans o → bool with
  | AwaitProducer => is_okay
  | GatherCancelled => is_okay
  | ForceClose => is_okay
  | WaitProducer => λ x, match x with Ok _ | Err TimeoutError | Err CancelledError => true | _ => false end
  | _ => λ _, true
  end x.

Definition life (t : list life_note) : Prop :=
  t = [] ∨ t = [Begun; Finished true; Joined; MonitorClosed] ∨ t = [Begun; Finished false; Stopping; Forced; Joined; MonitorClosed].

Section Consuming.

Context (hooks : bool).
Notation ctraces := (traces anything looked (λ _, true)).
Notation ltraces := (traces anything lived cleanly).

Lemma forward_traces ev : ctraces (forward ev) (λ _ t, ∃ b, t = handled_event ev b).
Proof.
  unfold forward, handled_event. eapply (traces_pbind _ _ _ _ _ (λ _ t, t = match content_delta ev with Some text => [Kept (env_stream_id ev.1) text] | None => [] end)).
  { destruct (content_delta ev) as [text|]; [|by apply traces_ret]. by refine (traces_call _ _ _ (AddPartial _ _) _ _). }
  intros [] t ->. eapply (traces_pbind _ _ _ _ _ (λ b t, t = [Token (env_stream_id ev.1) b])); [by refine (traces_call _ _ _ (IsTokenCancelled _) _ _)|].
  intros b t ->. destruct (b && negb (terminal_signal ev.2)) eqn:Eb; [apply traces_ret; exists b; by rewrite Eb|].
  eapply (traces_pbind _ _ _ _ _ (λ _ t, t = [])); [by refine (traces_call _ _ _ ShouldBuffer _ _)|]. intros buffering t ->.
  eapply (traces_mono _ _ _ _ (λ _ t, t = [Out ev])); [|intros r t ->; exists b; by rewrite Eb].
  destruct buffering; [|by refine (traces_call _ _ _ (YieldEvent ev) _ _)].
  eapply (traces_seq _ _ _ _ _ (λ _ t, t = [Out ev])); [by refine (traces_call _ _ _ (BufferPut ev) _ _)|by intros [] t ->; apply traces_ret|done].
Qed.

Definition forwarded (events : list event) (r : res exn bool) (t : list seen_note) : Prop :=
  ∃ done rest bs, events = done ++ rest ∧ length bs = length done ∧ t = mjoin (zip_with handled_event done bs) ∧ (r = Ok true → rest = []).

Lemma forwarded_nothing events r : r ≠ Ok true → forwarded events r [].
Proof. intros Hr. exists [], events, []. by split_and!. Qed.

Lemma consume_traces events : ctraces (consume_events events) (forwarded events).
Proof.
  induction events as [|ev events IH]; cbn [consume_events].
  - eapply (traces_seq _ _ _ _ _ (λ _ t, t = [])); [by refine (traces_call _ _ _ EndOfEvents _ _)| |by intros e t ->; apply forwarded_nothing].
    intros [] t ->. apply traces_ret. exists [], [], []. by split_and!.
  - eapply (traces_seq _ _ _ _ _ (λ _ t, t = [])); [by refine (traces_call _ _ _ NextEvent _ _)| |by intros e t ->; apply forwarded_nothing].
    intros [] t ->. eapply traces_seq; [apply forward_traces| |].
    + intros goes_on t [b ->]. destruct goes_on.
      * eapply traces_mono; [exact IH|]. intros r t (done & rest & bs & -> & Hl & -> & Hr). exists (ev :: done), rest, (b :: bs). split_and!; [done|simpl; lia|done|done].
      * apply traces_ret. exists [ev], events, [b]. by split_and!.
    + intros e t [b ->]. exists [ev], events, [b]. split_and!; [done|done|simpl; by rewrite app_nil_r|done].
Qed.

(** The beginning of [run], up to the producer *)
Definition preliminary (o : run_op) : Prop :=
  match o with NewStreamId | NewResumeToken | CallHook _ _ | RegisterStream _ | Emit _ _ _ _ => True | _ => False end.

Lemma calls_register n : calls preliminary (register_streams hooks n).
Proof.
  induction n as [|n IH]; cbn [register_streams]; [done|]. do 2 (apply calls_pbind; [by apply (calls_perform (ans := run_ans))|]; intros ?).
  apply calls_seq; [by apply calls_hook|]. intros _. by apply calls_seq.
Qed.

Lemma calls_start stages token echo sids : calls preliminary (for_each sids (λ sid, emit_event sid STREAM_START (make_stream_start stages token echo ∅))).
Proof. apply calls_for_each. intros sid _. by apply (calls_perform (ans := run_ans)). Qed.

Lemma calls_finally : calls (λ o, match o with AddPartial _ _ | IsTokenCancelled _ | BufferPut _ | YieldEvent _ => False | _ => True end) run_finally.
Proof. unfold run_finally, _on_cancel. prove_calls_with ltac:(first [apply (calls_perform (ans := run_ans)); exact I | exact I]). Qed.

Lemma run_traces started n stages echo events : ctraces (run hooks started n stages echo events) (forwarded events).
Proof.
  assert (∀ A (p : prog run_ans A), calls preliminary p → ctraces p (λ _ t, t = [])) as Hpre by (intros A p; apply traces_quiet; by intros []).
  unfold run. destruct started; [by apply traces_ret, forwarded_nothing|].
  eapply traces_seq; [apply Hpre, calls_register| |by intros e t ->; apply forwarded_nothing]. intros sids t ->.
  eapply traces_pbind; [by apply Hpre, (calls_perform (ans := run_ans))|]. intros token t ->.
  eapply traces_seq; [apply Hpre, calls_start| |by intros e t ->; apply forwarded_nothing]. intros [] t ->.
  eapply (traces_pbind _ _ _ _ _ (λ _ t, t = [])); [by refine (traces_call _ _ _ StartProducer _ _)|]. intros [] t ->. unfold finally.
  eapply traces_pbind; [apply consume_traces|]. intros r t Hr.
  eapply (traces_pbind _ _ _ _ _ (λ _ t, t = [])); [eapply traces_quiet; [|apply calls_finally]; by intros []|]. intros r' t' ->.
  destruct r'; apply traces_ret; rewrite !app_nil_l, !app_nil_r; [done|]. destruct Hr as (done & rest & bs & H1 & H2 & H3 & _). by exists done, rest, bs.
Qed.

Lemma quiet_life events : ltraces (consume_events events) (λ _ t, t = []).
Proof.
  apply (traces_quiet _ _ _ (λ o, match o with NextEvent | EndOfEvents | AddPartial _ _ | IsTokenCancelled _ | ShouldBuffer | BufferPut _ | YieldEvent _ => True | _ => False end)).
  - by intros [].
  - induction events as [|ev events IH]; cbn [consume_events]; unfold forward;
      prove_calls_with ltac:(first [exact IH | apply (calls_perform (ans := run_ans)); exact I | exact I]).
Qed.

Lemma on_cancel_life : ltraces _on_cancel (λ r t, r = Ok tt ∧ t = [Stopping; Forced]).
Proof.
  eapply (traces_pbind _ _ _ _ _ (λ _ t, t = [Stopping])); [by refine (traces_call _ _ _ CancelExecutors _ _)|]. intros [] t ->.
  eapply (traces_seq _ _ _ _ _ (λ r t, r = Ok tt ∧ t = [])); [| |by intros ? ? [[=] _]].
  { refine (traces_call _ _ _ GatherCancelled _ _). by intros log [[]|e] _ Hx. }
  intros [] t [_ ->]. refine (traces_call _ _ _ ForceClose _ _). by intros log [[]|e] _ Hx.
Qed.

Lemma finally_life : ltraces run_finally (λ _ t, t = [Finished true; Joined; MonitorClosed] ∨ t = [Finished false; Stopping; Forced; Joined; MonitorClosed]).
Proof.
  unfold run_finally. eapply (traces_pbind _ _ _ _ _ (λ b t, t = [Finished b])); [by refine (traces_call _ _ _ ProducerDone _ _)|]. intros b t ->.
  eapply (traces_seq _ _ _ _ _ (λ r t, r = Ok tt ∧ t = if b then [Joined] else [Stopping; Forced; Joined])); [| |by intros ? ? [[=] _]].
  - destruct b; [refine (traces_call _ _ _ AwaitProducer _ _); by intros log [[]|e] _ Hx|].
    eapply traces_seq; [apply on_cancel_life| |by intros ? ? [[=] _]]. intros [] t [_ ->].
    eapply (traces_catch _ _ _ _ _ (λ r t, t = [Joined] ∧ match r with Ok _ | Err TimeoutError | Err CancelledError => True | _ => False end)).
    + refine (traces_call _ _ _ WaitProducer _ _). intros log x _ Hx. split; [done|]. by destruct x as [|[]].
    + intros e t [-> He]. destruct e; try done; by apply traces_ret.
    + by intros [] t [-> _].
  - intros [] t [_ ->]. refine (traces_call _ _ _ CloseMonitor _ _). intros log x _ _. destruct b; [by left|by right].
Qed.

Lemma run_life started n stages echo events : ltraces (run hooks started n stages echo events) (λ _ t, life t).
Proof.
  assert (∀ A (p : prog run_ans A), calls preliminary p → ltraces p (λ _ t, t = [])) as Hpre by (intros A p; apply traces_quiet; by intros []).
  unfold run. destruct started; [by apply traces_ret; left|].
  eapply traces_seq; [apply Hpre, calls_register| |by intros e t ->; left]. intros sids t ->.
  eapply traces_pbind; [by apply Hpre, (calls_perform (ans := run_ans))|]. intros token t ->.
  eapply traces_seq; [apply Hpre, calls_start| |by intros e t ->; left]. intros [] t ->.
  eapply (traces_pbind _ _ _ _ _ (λ _ t, t = [Begun])); [by refine (traces_call _ _ _ StartProducer _ _)|]. intros [] t ->. unfold finally.
  eapply traces_pbind; [apply quiet_life|]. intros r t ->. eapply traces_pbind; [apply finally_life|]. intros r' t Ht.
  destruct r'; apply traces_ret; right; destruct Ht as [->| ->]; auto.
Qed.

End Consuming.

(** ** [cancel]

    Nothing in [cancel] waits, so it is a function on the state that it shares
    with [run]: the tokens, the partial texts, the multiplexer and the tasks of
    the executors. *)

Record runner_state := {
  cancel_tokens : list (string * CancellationToken);
  partial_contents : list (string * string);
  mux : @StreamMux row;
  executor_tasks : list (string * bool);
  cancelled_tasks : list string
}.

Definition with_tokens (d : list (string * CancellationToken)) (s : runner_state) : runner_state :=
  {| cancel_tokens := d; partial_contents := partial_contents s; mux := mux s; executor_tasks := executor_tasks s; cancelled_tasks := cancelled_tasks s |}.
Definition with_mux (m : @StreamMux row) (s : runner_state) : runner_state :=
  {| cancel_tokens := cancel_tokens s; partial_contents := partial_contents s; mux := m; executor_tasks := executor_tasks s; cancelled_tasks := cancelled_tasks s |}.
Definition with_cancelled (l : list string) (s : runner_state) : runner_state :=
  {| cancel_tokens := cancel_tokens s; partial_contents := partial_contents s; mux := mux s; executor_tasks := executor_tasks s; cancelled_tasks := l |}.

(** [x or "cancelled by user"] *)
Definition reason_or (r : option string) : string := match r with Some r => if bool_decide (r = ""%string) then "cancelled by user" else r | None => "cancelled by user" end.

Definition get_partial_content (sid : string) (s : runner_state) : string := default ""%string (dget (partial_contents s) sid).

Definition cancelled_item (now : Z) (sid : string) (s : runner_state) : @QueuedItem row :=
  let token := default token_init (dget (cancel_tokens s) sid) in
  {| q_stream_id := sid; q_stage := None; q_event_type := STREAM_CANCELLED;
     q_data := make_stream_cancelled (reason_or (token_reason token)) (default now (cancelled_at token)) (Some (get_partial_content sid s)) ∅ |}.

Definition _emit_cancelled_event (now : Z) (sid : string) (s : runner_state) : runner_state :=
  if closed (mux s) then s
  else if full (mux s) then s
  else with_mux (with_queue (queue (mux s) ++ [Some (cancelled_item now sid s)]) (mux s)) s.

Definition _force_cancel_executor (sid : string) (s : runner_state) : runner_state :=
  with_cancelled (cancelled_tasks s ++ (filter (λ t, t.1 = sid ∧ t.2 = false) (executor_tasks s)).*1) s.

Definition cancel_token (now : Z) (reason sid : string) (s : runner_state) : runner_state :=
  match dget (cancel_tokens s) sid with
  | Some token => with_tokens (dset (cancel_tokens s) sid (token_cancel now (Some reason) token)) s
  | None => s
  end.

Definition cancel_one (now : Z) (reason : string) (force : bool) (sid : string) (s : runner_state) : runner_state :=
  let s := _emit_cancelled_event now sid (cancel_token now reason sid s) in
  if force then _force_cancel_executor sid s else s.

Definition target_sids (stream_id : option string) (s : runner_state) : list string :=
  match stream_id with
  | Some sid => if dmem (cancel_tokens s) sid then [sid] else []
  | None => dkeys (cancel_tokens s)
  end.

Definition cancel (now : Z) (stream_id reason : option string) (force : bool) (s : runner_state) : list (string * string) * runner_state :=
  fold_left (λ '(partials, s) sid, (dset partials sid (get_partial_content sid s), cancel_one now (reason_or reason) force sid s))
    (target_sids stream_id s) ([], s).

(** *** The multiplexer during a cancellation *)

Lemma mux_run_trans {D TS} f f' (m : @StreamMux D) (tr : list (@mux_event D TS)) m1 tr' m2 :
  mux_run f m tr m1 → mux_run f' m1 tr' m2 → mux_run (f || f') m (tr ++ tr') m2.
Proof.
  intros H1 H2. revert H1. induction H2 as [m1|f1 f2 m1 tr1 m' evs m'' _ IH Hs]; intros H1; [by rewrite orb_false_r, app_nil_r|].
  rewrite orb_assoc, app_assoc. eapply run_snoc; [by apply IH|done].
Qed.

(** [put_nowait] is an [emit] that does not wait. *)
Lemma put_nowait_run {D TS} (m : @StreamMux D) it : closed m = false → full m = false →
  mux_run (TS := TS) false m [Put (Some it)] (with_queue (queue m ++ [Some it]) m).
Proof.
  intros Hc Hf. destruct (backpressure m) eqn:Eb.
  - change [Put (Some it)] with (([] ++ []) ++ [@Put D TS (Some it)]). change false with ((false || false) || false).
    eapply run_snoc; [eapply run_snoc; [apply run_nil|apply (step_emit m it (with_pending (pending m ++ [Some it]) m) [])]|].
    + unfold emit. by rewrite Hc, Eb.
    + replace (with_queue (queue m ++ [Some it]) m)
        with (with_queue (queue m ++ [Some it]) (with_pending (pending m ++ []) (with_pending (pending m ++ [Some it]) m))) by (rewrite app_nil_r; by destruct m).
      by apply (step_enter (with_pending (pending m ++ [Some it]) m) (pending m) (Some it) []).
  - change [Put (Some it)] with ([] ++ [@Put D TS (Some it)]). change false with (false || false). eapply run_snoc; [apply run_nil|].
    apply (step_emit m it). unfold emit. by rewrite Hc, Eb, Hf.
Qed.

(** How many of the cancellation events find room *)
Definition fitting {D} (m : @StreamMux D) (l : list string) : list string :=
  if closed m then [] else if (maxsize m =? 0)%nat then l else take (maxsize m - length (queue m)) l.

Section Cancel.

Context (now : Z) (reason : string) (force : bool).

(** The event for a stream, once its token is cancelled *)
Definition cancellation (sid : string) (s : runner_state) : @QueuedItem row := cancelled_item now sid (cancel_token now reason sid s).

Lemma cancel_token_same sid s : partial_contents (cancel_token now reason sid s) = partial_contents s ∧ mux (cancel_token now reason sid s) = mux s ∧
  executor_tasks (cancel_token now reason sid s) = executor_tasks s ∧ cancelled_tasks (cancel_token now reason sid s) = cancelled_tasks s.
Proof. unfold cancel_token. by destruct (dget _ sid). Qed.

Lemma emit_cancelled_same sid s : partial_contents (_emit_cancelled_event now sid s) = partial_contents s ∧
  cancel_tokens (_emit_cancelled_event now sid s) = cancel_tokens s ∧
  executor_tasks (_emit_cancelled_event now sid s) = executor_tasks s ∧ cancelled_tasks (_emit_cancelled_event now sid s) = cancelled_tasks s.
Proof. unfold _emit_cancelled_event. by destruct (closed (mux s)), (full (mux s)). Qed.

Definition killed (l : list string) (s : runner_state) : list string :=
  if force then l ≫= λ sid, (filter (λ t, t.1 = sid ∧ t.2 = false) (executor_tasks s)).*1 else [].

Lemma cancel_one_fields sid s : let s' := cancel_one now reason force sid s in
  partial_contents s' = partial_contents s ∧ executor_tasks s' = executor_tasks s ∧ cancelled_tasks s' = cancelled_tasks s ++ killed [sid] s ∧
  cancel_tokens s' = cancel_tokens (cancel_token now reason sid s) ∧ mux s' = mux (_emit_cancelled_event now sid (cancel_token now reason sid s)).
Proof.
  cbv zeta. unfold cancel_one, killed. destruct (cancel_token_same sid s) as (A1 & A2 & A3 & A4).
  destruct (emit_cancelled_same sid (cancel_token now reason sid s)) as (B1 & B2 & B3 & B4).
  destruct force; simpl; split_and!; try congruence; rewrite ?app_nil_r; congruence.
Qed.

Lemma cancel_token_get sid s sid' : dget (cancel_tokens (cancel_token now reason sid s)) sid' =
  if decide (sid = sid') then token_cancel now (Some reason) <$> dget (cancel_tokens s) sid' else dget (cancel_tokens s) sid'.
Proof.
  unfold cancel_token. destruct (decide (sid = sid')) as [<-|Hne]; destruct (dget (cancel_tokens s) sid) eqn:E; simpl; rewrite ?E; try done;
    by rewrite ?dget_dset_eq, ?dget_dset_ne.
Qed.

Lemma cancellation_other sid sid' s : sid ≠ sid' → cancellation sid' (cancel_one now reason force sid s) = cancellation sid' s.
Proof.
  intros Hne. destruct (cancel_one_fields sid s) as (F1 & _ & _ & F4 & _). unfold cancellation, cancelled_item, get_partial_content.
  destruct (cancel_token_same sid' (cancel_one now reason force sid s)) as (-> & _). destruct (cancel_token_same sid' s) as (-> & _).
  by rewrite !cancel_token_get, !decide_True, F1, F4, cancel_token_get, decide_False by done.
Qed.

Lemma cancel_one_mux {TS} sid s l : ∃ tr : list (@mux_event row TS),
  let s' := cancel_one now reason force sid s in
  mux_run false (mux s) tr (mux s') ∧ delivered tr = [] ∧
  ∃ k, puts tr = (λ x, Some (cancellation x s)) <$> k ∧ fitting (mux s) (sid :: l) = k ++ fitting (mux s') l.
Proof.
  destruct (cancel_one_fields sid s) as (_ & _ & _ & _ & F5). cbv zeta. rewrite F5. unfold _emit_cancelled_event.
  destruct (cancel_token_same sid s) as (_ & -> & _). unfold fitting. destruct (closed (mux s)) eqn:Ec.
  { exists []. destruct (cancel_token_same sid s) as (_ & -> & _). split_and!; [constructor|done|]. exists []. by rewrite Ec. }
  destruct (full (mux s)) eqn:Ef.
  { exists []. destruct (cancel_token_same sid s) as (_ & -> & _). split_and!; [constructor|done|]. exists []. rewrite Ec. split; [done|].
    unfold full in Ef. apply andb_true_iff in Ef as [H1%Nat.ltb_lt H2%Nat.leb_le]. destruct (Nat.eqb_spec (maxsize (mux s)) 0); [lia|].
    by replace (maxsize (mux s) - length (queue (mux s)))%nat with 0%nat by lia. }
  exists [Put (Some (cancellation sid s))]. split_and!; [by apply put_nowait_run|done|]. exists [sid]. split; [done|].
  cbn [mux with_mux closed with_queue maxsize queue]. rewrite Ec. destruct (Nat.eqb_spec (maxsize (mux s)) 0) as [E0|E0]; [done|].
  unfold full in Ef. rewrite length_app. simpl length. destruct (Nat.ltb_spec 0 (maxsize (mux s))); [|lia]. apply Nat.leb_gt in Ef.
  by replace (maxsize (mux s) - length (queue (mux s)))%nat with (S (maxsize (mux s) - (length (queue (mux s)) + 1)))%nat by lia.
Qed.

(** What a cancellation of the streams [l] does *)
Record cancelled_all (l : list string) (s s' : runner_state) : Prop := {
  ca_partials : partial_contents s' = partial_contents s;
  ca_tasks : cancelled_tasks s' = cancelled_tasks s ++ killed l s;
  ca_tokens : ∀ sid, dget (cancel_tokens s') sid =
    if decide (sid ∈ l) then token_cancel now (Some reason) <$> dget (cancel_tokens s) sid else dget (cancel_tokens s) sid;
  ca_mux : ∃ tr : list (@mux_event row Z), mux_run false (mux s) tr (mux s') ∧ delivered tr = [] ∧
    puts tr = (λ sid, Some (cancellation sid s)) <$> fitting (mux s) l
}.

Lemma cancel_all l s : NoDup l → cancelled_all l s (fold_left (λ s sid, cancel_one now reason force sid s) l s).
Proof.
  revert s. induction l as [|sid l IH]; intros s Hnd; simpl.
  { split; [done|unfold killed; simpl; destruct force; by rewrite app_nil_r|done|]. exists []. split_and!; [constructor|done|].
    unfold fitting. destruct (closed (mux s)), (maxsize (mux s) =? 0)%nat; try done. by rewrite take_nil. }
  apply NoDup_cons in Hnd as [Hsid Hnd]. destruct (cancel_one_fields sid s) as (F1 & F2 & F3 & F4 & _).
  destruct (IH (cancel_one now reason force sid s) Hnd) as [C1 C2 C3 (tr2 & M1 & M2 & M3)].
  destruct (cancel_one_mux (TS := Z) sid s l) as (tr1 & N1 & N2 & k & N3 & N4). split.
  - congruence.
  - rewrite C2, F3. unfold killed. rewrite F2. destruct force; simpl; [|by rewrite !app_nil_r]. by rewrite app_nil_r, <- app_assoc.
  - intros sid'. rewrite C3, F4, cancel_token_get. destruct (decide (sid = sid')) as [<-|Hne].
    + rewrite (decide_False (P := sid ∈ l)), decide_True by (done || left). done.
    + by destruct (decide (sid' ∈ l)) as [Hin|Hin]; [rewrite decide_True by (by right)|rewrite decide_False by (by intros [?|?]%elem_of_cons)].
  - exists (tr1 ++ tr2). split_and!; [by apply (mux_run_trans false false _ _ (mux (cancel_one now reason force sid s)))| |].
    + unfold delivered in *. by rewrite omap_app, N2, M2.
    + unfold puts in *. rewrite omap_app, N3, M3, N4, fmap_app. f_equal. apply list_fmap_ext. intros i x Hx. f_equal. apply cancellation_other.
      intros ->. apply list_elem_of_lookup_2 in Hx. unfold fitting in Hx. destruct (closed _); [by apply elem_of_nil in Hx|].
      destruct (Nat.eqb _ _); [done|]. apply Hsid. by apply elem_of_take in Hx as (? & ?%list_elem_of_lookup_2 & _).
Qed.

End Cancel.

Lemma cancel_fold now reason force l s0 s ps : partial_contents s = partial_contents s0 → NoDup (dkeys ps ++ l) →
  fold_left (λ '(ps, s) sid, (dset ps sid (get_partial_content sid s), cancel_one now reason force sid s)) l (ps, s) =
  (ps ++ ((λ sid, (sid, get_partial_content sid s0)) <$> l), fold_left (λ s sid, cancel_one now reason force sid s) l s).
Proof.
  revert s ps. induction l as [|sid l IH]; intros s ps Hp Hnd; simpl; [by rewrite app_nil_r|].
  assert (sid ∉ dkeys ps) as Hsid. { intros Hin. apply NoDup_app in Hnd as (_ & Hd & _). apply (Hd sid Hin). left. }
  rewrite dset_fresh by (by apply dget_None). rewrite IH.
  - unfold get_partial_content. by rewrite <- app_assoc, Hp.
  - destruct (cancel_one_fields now reason force sid s) as (-> & _). done.
  - unfold dkeys in *. by rewrite fmap_app, <- app_assoc.
Qed.

(** ** Claims *)

Section Claims.

Context (str_exn : exn → string) (structured : exn → option bool) (truncated : exn → bool) (hooks : bool) (finalizers : list nat).

(** A substream of serial stages with names of their own runs them in their
    order: the signals of a stage become its events, in order and under its
    name, followed by one end event that carries the very result which the
    substream returns for the stage, and which the manifest will show. *)
Theorem stages_in_order signals sid stages sr log : NoDup stages →
  runs (logged anything) (executor_run signals sid ((λ s, (s, true)) <$> stages)) [] (Ok sr) log →
  ∃ os, length os = length stages ∧ sr_stages sr = zip stages os ∧ omap shown log = mjoin (zip_with (stage_notes signals) stages os).
Proof.
  intros Hnd Hr. refine (traces_runs _ _ (λ _, true) _ (λ r t, match r with Ok sr => ∃ os, length os = length stages ∧ sr_stages sr = zip stages os ∧
    t = mjoin (zip_with (stage_notes signals) stages os) | Err _ => True end) _ _ _ Hr _); [|clear Hr; by induction log].
  unfold executor_run. assert (filter (λ s : string * bool, s.2 = true) ((λ s, (s, true)) <$> stages) = (λ s, (s, true)) <$> stages) as ->.
  { apply list_filter_all_in. by intros x (s & -> & _)%list_elem_of_fmap. }
  assert (filter (λ s : string * bool, s.2 = false) ((λ s, (s, true)) <$> stages) = []) as ->.
  { apply list_filter_none_in. by intros x (s & -> & _)%list_elem_of_fmap. }
  rewrite <- list_fmap_compose. rewrite (list_fmap_ext _ id) by done. rewrite list_fmap_id.
  eapply shows_seq; [by apply (serial_shows signals sid stages [])|]. intros acc t (os & Hl & -> & ->). apply traces_ret. exists os.
  split_and!; [done|done|by rewrite app_nil_r].
Qed.

(** C15: what the producer sends (for distinct streams, the closing not being
    cancelled).  Whatever goes wrong, it sends errors of substreams, then
    manifests, then ends, then errors of its own, and finally closes every
    stream once; the manifests and the ends are sent to the streams in their
    order, as far as the multiplexer took them, no stream ends before all
    have the manifest, and there is no error of its own when every stream was
    ended.  (A stream that was ended does get such an error when a later one
    could not be: [error_after_end].)  And it does all of it unless a call
    failed: if the substreams were gathered, the placeholders settled, every
    event taken and no hook or store cancelled, then it returns normally,
    every stream got the one manifest that is built from the results and the
    registry, after an error for each substream that failed and before its end,
    and nothing else was sent. *)
Theorem produce_discipline sids r log : NoDup sids →
  runs (logged anything) (_produce str_exn structured truncated hooks finalizers sids) [] r log → forallb closes log = true →
  ∃ errs m ms es late, omap emitted log = errs ++ (sent_manifest m <$> ms) ++ (sent_end <$> es) ++ late ++ (Closing <$> sids) ∧
    Forall is_error errs ∧ Forall is_error late ∧ ms `prefix_of` sids ∧ es `prefix_of` sids ∧ (es ≠ [] → ms = sids) ∧ (es = sids → sids ≠ [] → late = []) ∧
    (forallb smooth log = true → r = Ok tt ∧ ms = sids ∧ es = sids ∧ late = [] ∧
       ∃ t, produced_all str_exn structured truncated sids t ∧ omap noticed log = t ++ ((λ sid, Did (Closing sid)) <$> sids)).
Proof.
  intros Hnd Hr Hf.
  destruct (forallb smooth log) eqn:Hs.
  - destruct (traces_runs _ _ _ _ _ _ _ (produce_smooth str_exn structured truncated hooks finalizers sids Hnd) Hr Hs) as (-> & t & Ht & E).
    assert (∃ errs m, omap done_emission t = errs ++ (sent_manifest m <$> sids) ++ (sent_end <$> sids) ∧ Forall is_error errs) as (errs & m & Et & He).
    { destruct Ht as (l & g & parts & _ & ->). generalize (manifest_of (results_of str_exn structured truncated sids l) g None (merged parts ∅)).
      intros m. eexists _, m. split; [|apply (omap_errors str_exn structured truncated (zip sids l))].
      rewrite !omap_app, omap_fins, !omap_done. done. }
    exists errs, m, sids, sids, []. split; [by rewrite (smooth_emitted log Hs), E, omap_app, Et, omap_done, <- !app_assoc|].
    split_and!; [done|constructor|done..|]. intros _. split_and!; try done. by eexists.
  - destruct (traces_runs _ _ _ _ _ _ _ (produce_sent str_exn structured truncated hooks finalizers closes (λ _ H, H) sids) Hr Hf)
      as (errs & m & ms & es & late & E & H1 & H2 & H3 & H4 & H5 & H6). exists errs, m, ms, es, late. by split_and!.
Qed.

(** When the multiplexer takes the events and nothing is cancelled, the
    producer does all of it: it reports each substream that failed, settles the
    placeholders, and builds from the results (with an error entry for each
    substream that failed or was cancelled) and from the registry as it is then
    one manifest, which it stores, sends to every stream before it ends them,
    and closes them; failing hooks and stores do not change this. *)
Theorem produce_delivers sids r log : NoDup sids →
  runs (logged anything) (_produce str_exn structured truncated hooks finalizers sids) [] r log → forallb smooth log = true →
  r = Ok tt ∧ ∃ t, produced_all str_exn structured truncated sids t ∧ omap noticed log = t ++ ((λ sid, Did (Closing sid)) <$> sids).
Proof. intros Hnd Hr Hf. exact (traces_runs _ _ _ _ _ _ _ (produce_smooth str_exn structured truncated hooks finalizers sids Hnd) Hr Hf). Qed.

(** C16: [run] forwards what the multiplexer delivers: in order, every event of
    the part it consumed is yielded or put into the grace buffer, except those
    of a stream whose token says cancelled, of which only the terminal signals
    get through; the partial content of a stream collects its content deltas,
    also those held back.  A run that ended normally consumed all. *)
Theorem run_forwards started n stages echo events r log :
  runs (logged anything) (run hooks started n stages echo events) [] r log → forwarded events r (omap looked log).
Proof.
  intros Hr. refine (traces_runs _ _ (λ _, true) _ _ _ _ (run_traces hooks started n stages echo events) Hr _). clear Hr. by induction log.
Qed.

(** A run that started its producer joins it before it closes the
    disconnect monitor, whether its consumer read to the end, left, or failed;
    if the producer was still working, its executors are cancelled and the
    multiplexer is closed by force first. *)
Theorem run_cleans started n stages echo events r log :
  runs (logged anything) (run hooks started n stages echo events) [] r log → forallb cleanly log = true → life (omap lived log).
Proof. intros Hr Hf. exact (traces_runs _ _ _ _ _ _ _ (run_life hooks started n stages echo events) Hr Hf). Qed.

(** [cancel] returns the partial content of exactly the streams it was asked
    to cancel (none for an unknown one) and cancels exactly their tokens,
    whatever the state of the multiplexer, which it never waits for: it gets one
    cancellation event for each of them as far as there is room; the executors
    are cancelled only by force, and only those that still run. *)
Theorem stream_cancel_spec now stream_id reason force s : NoDup (dkeys (cancel_tokens s)) →
  let targets := target_sids stream_id s in
  (cancel now stream_id reason force s).1 = (λ sid, (sid, get_partial_content sid s)) <$> targets ∧
  cancelled_all now (reason_or reason) force targets s (cancel now stream_id reason force s).2.
Proof.
  intros Hnd. cbv zeta. assert (NoDup (target_sids stream_id s)) as Ht.
  { unfold target_sids. destruct stream_id as [sid|]; [|done]. destruct (dmem _ sid); [apply NoDup_singleton|constructor]. }
  unfold cancel. rewrite (cancel_fold _ _ _ _ s) by done. split; [done|]. by apply cancel_all.
Qed.

End Claims.

(** ** Runs *)

Module RunnerWitness.

Local Open Scope string_scope.

Definition show (e : exn) : string := "failed".
Definition plain_error (e : exn) : option bool := None.
Definition cut_off (e : exn) : bool := false.

Definition finished : StreamResult := {| sr_stream_id := "s_1"; sr_stages := [("draft", {| o_content := "text"; o_thinking := ""; o_usage := None |})]; sr_errors := [] |}.
Definition an_event (sid : string) (ty : EventType) (data : row) : event :=
  ({| env_v := PROTOCOL_VERSION; env_stream_id := sid; env_stage := None; env_seq := 1; env_ts := 0%Z; env_data := data |}, ty).

(** The second substream fails; the multiplexer refuses what [refuses] says;
    the consumer stops at what [stops] says; [done] is the producer's state. *)
Definition answers (refuses : string → EventType → bool) (stops : event → bool) (done : bool) (o : run_op) (log : list (entry_of (ans := run_ans))) : run_ans o :=
  match o with
  | NewStreamId => "s_1"
  | NewResumeToken => "rt"
  | Emit sid ty _ _ => if refuses sid ty then Err (Other "BackpressureError") else Ok tt
  | RunExecutors sids => Ok (Ok finished :: (const (Err (Other "boom")) <$> tail sids))
  | OnFin (RunHook _) => Err (Other "hook")
  | OnFin (SaveResult _ _) => Ok tt
  | ReadRegistry => []
  | ProducerDone => done
  | IsTokenCancelled _ | ShouldBuffer => false
  | YieldEvent ev => Ok (negb (stops ev))
  | StageResult _ => Err KeyError
  | GatherStages _ => Err KeyError
  | RegisterStream _ | StartProducer | CancelExecutors | AddPartial _ _ => tt
  | _ => Ok tt
  end.

Definition play_with {A} refuses stops done (p : prog run_ans A) : A * list (entry_of (ans := run_ans)) := play (scripted (answers refuses stops done)) p [].
Definition producer (sids : list string) : runM unit := _produce show plain_error cut_off true [0]%nat sids.

Lemma scripted_any {A} refuses stops done (p : prog run_ans A) :
  runs (logged anything) p [] (play_with refuses stops done p).1 (play_with refuses stops done p).2.
Proof. by apply scripted_runs. Qed.

Definition smooth_run : res exn unit * list (entry_of (ans := run_ans)) := play_with (λ _ _, false) (λ _, false) true (producer ["s_1"; "s_2"]).

Lemma delivers_witness : smooth_run.1 = Ok tt ∧ ∃ t, produced_all show plain_error cut_off ["s_1"; "s_2"] t ∧
  omap noticed smooth_run.2 = (t ++ [Did (Closing "s_1"); Did (Closing "s_2")])%list.
Proof.
  apply (produce_delivers show plain_error cut_off true [0]%nat ["s_1"; "s_2"] smooth_run.1 smooth_run.2);
    [by apply (bool_decide_unpack _)|apply scripted_any|vm_compute; reflexivity].
Defined.

(** The multiplexer is full when the second stream is to be ended: the first
    stream, which has been ended, gets an error event after its end. *)
Definition refused : res exn unit * list (entry_of (ans := run_ans)) :=
  play_with (λ sid ty, bool_decide (sid = "s_2" ∧ ty = STREAM_END)) (λ _, false) true (producer ["s_1"; "s_2"]).

Definition types_for (sid : string) (t : list emission) : list EventType :=
  omap (λ e, match e with Sent s ty _ => if decide (s = sid) then Some ty else None | _ => None end) t.

Example error_after_end :
  types_for "s_1" (omap emitted refused.2) = [STREAM_MANIFEST; STREAM_END; STREAM_ERROR] ∧
  types_for "s_2" (omap emitted refused.2) = [STREAM_ERROR; STREAM_MANIFEST; STREAM_ERROR].
Proof. by vm_compute. Qed.

Lemma produce_discipline_witness : forallb smooth smooth_run.2 = true ∧
  ∃ errs m, omap emitted smooth_run.2 = (errs ++ (sent_manifest m <$> ["s_1"; "s_2"]) ++ (sent_end <$> ["s_1"; "s_2"]) ++ (Closing <$> ["s_1"; "s_2"]))%list ∧ Forall is_error errs.
Proof.
  split; [vm_compute; reflexivity|].
  destruct (produce_discipline show plain_error cut_off true [0]%nat ["s_1"; "s_2"] smooth_run.1 smooth_run.2) as (errs & m & ms & es & late & E & H1 & _ & _ & _ & _ & _ & Hs);
    [by apply (bool_decide_unpack _)|apply scripted_any|vm_compute; reflexivity|].
  destruct Hs as (_ & -> & -> & -> & _); [vm_compute; reflexivity|]. by exists errs, m.
Defined.

(** One stage that says two things *)
Definition says (stage : string) : list signal := [OnText "te"; OnText "xt"].
Definition stage_answers (o : run_op) (log : list (entry_of (ans := run_ans))) : run_ans o :=
  match o with
  | StageResult _ => Ok {| o_content := "text"; o_thinking := ""; o_usage := None |}
  | o => answers (λ _ _, false) (λ _, false) true o log
  end.
Definition staged : res exn StreamResult * list (entry_of (ans := run_ans)) := play (scripted stage_answers) (executor_run says "s_1" [("draft", true)]) [].

Lemma stages_witness : ∃ os, length os = 1%nat ∧ sr_stages finished = zip ["draft"] os ∧ omap shown staged.2 = mjoin (zip_with (stage_notes says) ["draft"] os).
Proof.
  apply (stages_in_order says "s_1" ["draft"] finished staged.2); [by apply (bool_decide_unpack _)|].
  assert (staged.1 = Ok finished) as <- by (vm_compute; reflexivity). by apply scripted_runs.
Defined.

(** A consumer that leaves at the end of the first stage *)
Definition delta (text : string) : event := an_event "s_1" STREAM_DELTA (make_delta CONTENT (Some text) None ∅).
Definition some_events : list event := [an_event "s_1" STREAM_START ∅; delta "a"; delta "b"; an_event "s_1" STAGE_END ∅; delta "c"].
Definition left_run : res exn bool * list (entry_of (ans := run_ans)) :=
  play_with (λ _ _, false) (λ ev, bool_decide (ev.2 = STAGE_END)) false (run true false 1 ["draft"] ∅ some_events).

Example left_run_is : left_run.1 = Ok false ∧ length (omap looked left_run.2) = 10%nat.
Proof. by vm_compute. Qed.

Lemma forwards_witness : forwarded some_events left_run.1 (omap looked left_run.2).
Proof. apply (run_forwards true false 1 ["draft"] ∅ some_events left_run.1 left_run.2). apply scripted_any. Defined.

Lemma cleans_witness : life (omap lived left_run.2).
Proof. apply (run_cleans true false 1 ["draft"] ∅ some_events left_run.1 left_run.2); [apply scripted_any|vm_compute; reflexivity]. Defined.

(** Two streams, one of them cancelled already; room for one event *)
Definition two_streams : runner_state :=
  {| cancel_tokens := [("s_1", token_init); ("s_2", token_cancel 5 (Some "why") token_init)];
     partial_contents := [("s_1", "ab")]; mux := mux_init 1 BLOCK; executor_tasks := [("s_1", false); ("s_2", true)]; cancelled_tasks := [] |}.

Example cancel_both : (cancel 9 None None true two_streams).1 = [("s_1", "ab"); ("s_2", "")] ∧
  cancelled_tasks (cancel 9 None None true two_streams).2 = ["s_1"] ∧ length (queue (mux (cancel 9 None None true two_streams).2)) = 1%nat.
Proof. by vm_compute. Qed.

Lemma stream_cancel_witness : (cancel 9 None None true two_streams).1 = [("s_1", "ab"); ("s_2", "")] ∧
  cancelled_all 9 "cancelled by user" true ["s_1"; "s_2"] two_streams (cancel 9 None None true two_streams).2.
Proof. apply (stream_cancel_spec 9 None None true two_streams). by apply (bool_decide_unpack _). Defined.

End RunnerWitness.
