(* ===== verification/UiReader.v ===== *)
(** * Reading a trace bundle

    adapter-ui/reader.py: the directory that the local adapter writes, read by a
    user interface that knows only the data form: the text of a file is cut into
    lines, the lines are parsed, their rows normalized, folded and queried.  The
    local adapter's own way from its files to rows and back (_common.py
    append_envelope, iter_envelopes) is here too: the two readers cut a file
    into lines differently.  The files are text (their UTF-8 form is Wire.v's
    matter), and [json.dumps] and [json.loads] are the class [JsonText]. *)
From Stdlib Require Import ZArith Lia.
From stdpp Require Import prelude gmap strings list.
From S2P Require Import Prelude Text Wire Mechanism SnapshotModel Traversal MemorySnapshot MemoryParts LocalSnapshot LocalParts.
Local Open Scope string_scope.
Local Open Scope list_scope.
Local Open Scope Z_scope.

(** What a view raises: what the adapters raise, and the ValueError or
    TypeError of an expiry that is no instant. *)
Inductive view_error : Type := ViewError (e : write_error) | BadExpiry.

Definition adapt {A} (r : res write_error A) : res view_error A := match r with Ok a => Ok a | Err e => Err (ViewError e) end.

(** [[d for d in l if f(d)]] *)
Fixpoint filter_res {E A} (f : A → res E bool) (l : list A) : res E (list A) :=
  match l with
  | [] => Ok []
  | a :: l => (let? b := f a in let? l := filter_res f l in Ok (if (b : bool) then a :: l else l))%py
  end.

Section Reader.

Context `{IsoTime, JsonText}.
(** [datetime.isoformat] *)
Context (isoformat : Z → string).

(** ** Loading *)

Definition _normalize_dt (value : json) : json := match value with JTime t => JStr (isoformat t) | _ => value end.

Definition normalized_keys : list string := ["created_at"; "updated_at"; "expire_at"; "registered_at"; "ts"].
Definition _normalize_row (data : row) : row := fold_left (λ d k, alter _normalize_dt k d) normalized_keys data.

(** *** The stream files of the local adapter *)

(** _common.py append_envelope: the row of one operation, and the line that
    is appended to the file; [ts] is the time of writing. *)
Definition envelope_row (ts op : string) (d : row) : row :=
  {[ "v" := JNum 1; "op" := JStr op; "ts" := JStr ts; "data" := JObj d ]}.

Definition append_line (file : text) (ts op : string) (d : row) : text := file ++ dumps (envelope_row ts op d) ++ [LF].

(** One line: blank lines, unparsable ones and what has no data object are
    skipped. *)
Definition parse_line (line : text) : option row :=
  let line := Text.strip line in
  if decide (line = []) then None
  else match loads line with
       | Some (JObj r) => match r !! "data" with Some (JObj _) => Some r | _ => None end
       | _ => None
       end.

(** _common.py iter_envelopes: the lines of an open text file end at newlines
    only (what [split_on] puts after the last newline is blank). *)
Definition iter_envelopes (file : option text) : list row :=
  match file with None => [] | Some s => omap parse_line (split_on LF (read_text s)) end.

(** The envelopes that the adapter's parts see in these rows. *)
Definition row_data (r : row) : row := match r !! "data" with Some (JObj d) => d | _ => ∅ end.
Definition row_envelope (r : row) : envelope := mkEnv (get_str r "op" "") (row_data r).

(** *** The reader's way *)

(** The files of a bundle: a file that is not there is [None]. *)
Record bundle := { b_snapshots : option text; b_audits : option text; b_edges : option text; b_results : list (string * row) }.

Definition read_line (line : text) : option row := (λ r, _normalize_row (row_data r)) <$> parse_line line.

(** [read_text().splitlines()] *)
Definition _read_ndjson (file : option text) : list row :=
  match file with None => [] | Some s => omap read_line (splitlines (read_text s)) end.

Record TraceBundleReader := { _snapshots : list row; _audits : list row; _edges : list row; _results : list (string * row) }.

Definition _load (b : bundle) : TraceBundleReader :=
  {| _snapshots := _read_ndjson (b_snapshots b); _audits := _read_ndjson (b_audits b); _edges := _read_ndjson (b_edges b); _results := b_results b |}.

(** [seed]: [None] when a date is malformed; the views share the rows of the reader. *)
Definition seed_field (k : string) (data : option row) : option row :=
  d ← data;
  match d !! k with
  | Some (JStr s) => t ← from_iso s; Some (<[k := JTime t]> d)
  | _ => Some d
  end.

Definition seed_row (keys : list string) (raw : row) : option row := _normalize_row <$> fold_left (λ d k, seed_field k d) keys (Some raw).

Definition seed_snapshots (fixtures : list row) (rows : list row) : option (list row) :=
  new ← mapM (seed_row ["expire_at"; "created_at"; "updated_at"]) fixtures; Some (rows ++ new).

Definition seed_edges (fixtures : list row) (rows : list row) : option (list row) :=
  new ← mapM (seed_row ["registered_at"]) fixtures; Some (rows ++ new).

Definition seed (snapshots edges : list row) (self : TraceBundleReader) : option TraceBundleReader :=
  s ← seed_snapshots snapshots (_snapshots self); e ← seed_edges edges (_edges self);
  Some {| _snapshots := s; _audits := _audits self; _edges := e; _results := _results self |}.

(** ** SnapshotView *)

Definition view_alive (now : Z) (d : row) : res view_error bool :=
  match d !! "expire_at" with
  | None | Some JNull => Ok true
  | Some (JStr s) => match from_iso s with Some t => Ok (t >? now) | None => Err BadExpiry end
  | Some (JTime t) => Ok (t >? now)
  | Some _ => Err BadExpiry
  end.

Definition group_row (grouped : list (snapshot_key * list row)) (d : row) : list (snapshot_key * list row) :=
  dset grouped (row_key d) (with_default [] (dget grouped (row_key d)) ++ [d]).

Definition view_fold (rows : list row) : list (snapshot_key * row) := omap fold_group (fold_left group_row rows []).

Definition view_alive_rows (now : Z) (rows : list row) : res view_error (list row) := filter_res (view_alive now) (dvalues (view_fold rows)).

Definition view_get (now : Z) (rows : list row) (task_id step : string) (execution_id : option string) : res view_error (option TaskSnapshot) :=
  (let? candidates := filter_res (view_alive now)
     (filter (λ kv : snapshot_key * row, kv.1.1.1 = task_id ∧ kv.1.1.2 = step ∧ opt_match execution_id kv.1.2 = true) (view_fold rows)).*2 in
   match last (isort (λ a b, String.leb (get_str a "created_at" "") (get_str b "created_at" "")) candidates) with
   | None => Ok None
   | Some d => match snapshot_validate_with now d with Some s => Ok (Some s) | None => Err (ViewError PydanticValidationError) end
   end)%py.

Definition view_get_tree (now : Z) (rows : list row) (root_task_id : string) (max_depth : option Z) (latest_only : bool)
  : res view_error (list TaskSnapshot) :=
  (let? alive := view_alive_rows now rows in adapt (validate_all now (tree_rows alive root_task_id max_depth latest_only)))%py.

Definition view_query (now : Z) (rows : list row) (status parent : option string) (tr : option TimeRange) (page : option Page) (sort : option Sort)
  : res view_error (list TaskSnapshot) :=
  (let? sort := adapt (_validate_sort sort) in
   let? alive := view_alive_rows now rows in
   let rows := _latest_per_node alive in
   let rows := filter (λ d, opt_match (JStr <$> status) (with_default JNull (d !! "status")) = true) rows in
   let rows := filter (λ d, opt_match (Some <$> parent) (parent_of d) = true) rows in
   let rows := filter (λ d, row_in_range tr d = true) rows in
   let page := with_default default_page page in
   adapt (validate_all now (page_slice (pg_offset page) (pg_limit page) (sort_candidates sort rows))))%py.

Definition view_aggregate (fadd : Z → Z → Z) (fzero : Z) (now : Z) (rows : list row) (group_by : string) (parent : option string)
  : res view_error (list (string * agg_bucket)) :=
  if decide (group_by ∈ GROUP_BY_FIELDS_snapshot) then
    (let? alive := view_alive_rows now rows in
     let rows := filter (λ d, opt_match (Some <$> parent) (parent_of d) = true) (_latest_per_node alive) in
     Ok (fold_left (local_agg_step fadd fzero group_by) rows []))%py
  else Err (ViewError (Contract InvalidQueryError)).

(** ** DependencyView, AuditView, ResultView *)

(** [_edges]: [None] is a validation error. *)
Definition view_edges (now : Z) (rows : list row) : option (list DependencyEdge) := mapM (LocalDependency.edge_validate now) rows.

Definition view_read_graph (iter_set : gset string → list string) (now : Z) (rows : list row) (root_task_id : string) : option DependencyGraph :=
  edges ← view_edges now rows; Dependency.graph_of iter_set (Dependency.edge_key <$> edges) edges root_task_id.

Definition view_children_of (now : Z) (rows : list row) (parent_task_id : string) : option (list string) :=
  edges ← view_edges now rows; Some (sorted_strings (de_child_id <$> filter (λ e, de_parent_id e = parent_task_id) edges)).

Definition view_parents_of (now : Z) (rows : list row) (child_task_id : string) : option (list string) :=
  edges ← view_edges now rows; Some (sorted_strings (de_parent_id <$> filter (λ e, de_child_id e = child_task_id) edges)).

Definition view_audit_query (now : Z) (rows : list row) (task_id scope event_type : option string) (tr : option TimeRange)
    (page : option Page) (sort : option Sort) : res write_error (list AuditEvent) :=
  let rows := filter (λ d, opt_match (Some <$> (JStr <$> task_id)) (d !! "task_id") = true) rows in
  let rows := filter (λ d, opt_match (Some <$> (JStr <$> scope)) (d !! "scope") = true) rows in
  let rows := filter (λ d, opt_match (Some <$> (JStr <$> event_type)) (d !! "event_type") = true) rows in
  let rows := filter (λ d, row_in_range tr d = true) rows in
  let sort := with_default default_sort sort in
  if decide (so_field sort ∈ SORT_FIELDS_audit) then
    let page := with_default default_page page in
    match mapM (LocalAudit.audit_validate now) (page_slice (pg_offset page) (pg_limit page) (isort (LocalAudit.row_le sort) rows)) with
    | Some l => Ok l
    | None => Err PydanticValidationError
    end
  else Err (Contract InvalidQueryError).

(** [None]: the expiry is malformed *)
Definition view_result_get (now : Z) (results : list (string * row)) (stream_id : string) : option (option row) :=
  match dget results stream_id with
  | None => Some None
  | Some doc =>
      let manifest := match doc !! "manifest" with Some (JObj m) => Some m | _ => None end in
      match doc !! "expire_at" with
      | None | Some JNull => Some manifest
      | Some (JStr s) => t ← from_iso s; Some (if now >? t then None else manifest)
      | Some _ => None
      end
  end.

(** ** The bundle that the local adapter writes *)

(** What the adapter has written: one line per operation, stamped in turn. *)
Fixpoint written_text (stamp : nat → string) (n : nat) (file : text) (es : list (string * row)) : text :=
  match es with [] => file | (op, d) :: es => written_text stamp (S n) (append_line file (stamp n) op d) es end.

Definition snapshot_ops (store : LocalFileStore) : list (string * row) := (λ e, (env_op e, env_data e)) <$> ls_snapshot store.
Definition audit_ops (store : LocalFileStore) : list (string * row) := (λ d, ("append", d)) <$> ls_audit store.
Definition edge_ops (store : LocalFileStore) : list (string * row) := (λ d, ("write_dependency", d)) <$> ls_dependency store.

Definition bundle_of (stamp : nat → string) (store : LocalFileStore) (results : list (string * row)) : bundle :=
  {| b_snapshots := Some (written_text stamp 0 [] (snapshot_ops store));
     b_audits := Some (written_text stamp 0 [] (audit_ops store));
     b_edges := Some (written_text stamp 0 [] (edge_ops store));
     b_results := results |}.

(** Every row can be written as JSON. *)
Definition writable (stamp : nat → string) (es : list (string * row)) : Prop :=
  ∀ n op d, es !! n = Some (op, d) → encodable (envelope_row (stamp n) op d).

(** No text in a row has a line boundary of [str.splitlines] that JSON leaves
    unescaped: U+0085, U+2028 or U+2029. *)
Definition plain (stamp : nat → string) (es : list (string * row)) : Prop :=
  ∀ n op d, es !! n = Some (op, d) → one_line (dumps (envelope_row (stamp n) op d)).

Fixpoint rows_from (stamp : nat → string) (n : nat) (es : list (string * row)) : list row :=
  match es with [] => [] | (op, d) :: es => envelope_row (stamp n) op d :: rows_from stamp (S n) es end.

Lemma written_text_lines stamp n file es : written_text stamp n file es = file ++ unlines (dumps <$> rows_from stamp n es).
Proof.
  revert n file. induction es as [|[op d] es IH]; intros n file; cbn [written_text]; [by rewrite app_nil_r|].
  rewrite IH. unfold append_line. cbn [rows_from]. rewrite fmap_cons. unfold unlines. rewrite fmap_cons.
  cbn [mjoin list_join]. by rewrite <- !app_assoc.
Qed.

Lemma rows_from_lines (P : row → Prop) stamp k es :
  (∀ n op d, es !! n = Some (op, d) → P (envelope_row (stamp (k + n)%nat) op d)) → Forall P (rows_from stamp k es).
Proof.
  revert k. induction es as [|[op d] es IH]; intros k Hes; [constructor|]. cbn [rows_from]. constructor.
  - specialize (Hes 0%nat op d eq_refl). by rewrite Nat.add_0_r in Hes.
  - apply IH. intros n op' d' Hn. specialize (Hes (S n) op' d' Hn). by rewrite Nat.add_succ_r in Hes.
Qed.

Lemma parse_dumps r d : encodable r → r !! "data" = Some (JObj d) → parse_line (dumps r) = Some r.
Proof.
  intros Hr Hd. unfold parse_line. rewrite strip_dumps, decide_False by (done || by apply dumps_nonempty).
  by rewrite loads_dumps, Hd.
Qed.

Lemma envelope_row_data ts op d : envelope_row ts op d !! "data" = Some (JObj d).
Proof. unfold envelope_row. by rewrite !lookup_insert_ne, lookup_singleton by done. Qed.

Lemma envelope_row_back ts op d : row_envelope (envelope_row ts op d) = mkEnv op d.
Proof.
  unfold row_envelope, row_data. by rewrite envelope_row_data.
Qed.

(** The lines that the adapter writes are lines for the adapter, *)
Lemma iter_written stamp es : writable stamp es → iter_envelopes (Some (written_text stamp 0 [] es)) = rows_from stamp 0 es.
Proof.
  intros Hw. pose proof (rows_from_lines encodable stamp 0 es Hw) as Hr. unfold iter_envelopes. rewrite written_text_lines.
  change ([] ++ ?x) with x. set (rows := rows_from stamp 0 es) in *.
  assert (Hb : ∀ l, l ∈ dumps <$> rows → no_break l).
  { intros l (r & -> & Hin)%list_elem_of_fmap. apply dumps_no_break. by eapply Forall_forall in Hr. }
  rewrite read_unlines, split_unlines by done. rewrite omap_app. cbn [omap list_omap]. rewrite app_nil_r.
  assert (Hd : Forall (λ r, ∃ d, r !! "data" = Some (JObj d)) rows)
    by (apply rows_from_lines; intros n op d _; exists d; apply envelope_row_data).
  clear Hb Hw. clearbody rows. induction Hr as [|r rows Hr Hrs IH]; [done|]. apply Forall_cons in Hd as [[d Hd] Hds].
  cbn [fmap list_fmap omap list_omap]. rewrite (parse_dumps _ d) by done. by rewrite IH.
Qed.

(** and, when no text has one of the other line boundaries, for the reader. *)
Lemma read_written stamp es : writable stamp es → plain stamp es →
  _read_ndjson (Some (written_text stamp 0 [] es)) = (λ e, _normalize_row e.2) <$> es.
Proof.
  intros Hw Hp. pose proof (rows_from_lines encodable stamp 0 es Hw) as Hr. pose proof (rows_from_lines (λ r, one_line (dumps r)) stamp 0 es Hp) as Hl.
  unfold _read_ndjson. rewrite written_text_lines. change ([] ++ ?x) with x.
  assert (Hb : ∀ l, l ∈ dumps <$> rows_from stamp 0 es → no_break l).
  { intros l (r & -> & Hin)%list_elem_of_fmap. apply dumps_no_break. by eapply Forall_forall in Hr. }
  rewrite read_unlines by done. rewrite splitlines_unlines.
  2:{ intros l (r & -> & Hin)%list_elem_of_fmap. by eapply Forall_forall in Hl. }
  clear Hb Hw Hp Hl. revert Hr. generalize 0%nat as n. induction es as [|[op d] es IH]; intros n Hr; [done|].
  cbn [rows_from fmap list_fmap omap list_omap] in *. apply Forall_cons in Hr as [Hr Hrs]. unfold read_line at 1.
  rewrite (parse_dumps _ d) by (done || apply envelope_row_data). cbn [fmap option_fmap option_map]. unfold row_data.
  rewrite envelope_row_data. f_equal. by apply (IH (S n)).
Qed.

(** Rows without datetime objects *)
Definition textual (d : row) : Prop := ∀ k t, k ∈ normalized_keys → d !! k ≠ Some (JTime t).

Lemma alter_textual (d : row) k : (∀ t, d !! k ≠ Some (JTime t)) → alter _normalize_dt k d = d.
Proof.
  intros Hd. apply map_eq. intros k'. destruct (decide (k = k')) as [<-|Hne]; [|by rewrite lookup_alter_ne].
  rewrite lookup_alter_eq. destruct (d !! k) as [v|] eqn:E; [|done]. simpl. f_equal. destruct v; try done. by destruct (Hd us).
Qed.

Lemma normalize_textual d : textual d → _normalize_row d = d.
Proof.
  intros Hd. unfold _normalize_row. assert (∀ ks, (∀ k, k ∈ ks → k ∈ normalized_keys) → fold_left (λ d k, alter _normalize_dt k d) ks d = d) as Hks; [|by apply Hks].
  induction ks as [|k ks IH]; intros Hin; [done|]. simpl. rewrite alter_textual; [apply IH; intros k' Hk'; apply Hin; by right|].
  intros t. apply Hd, Hin. left.
Qed.

Lemma textual_drop_none d : textual d → textual (drop_none d).
Proof.
  intros Hd k t Hk E. unfold drop_none in E. apply map_lookup_filter_Some in E as [E _]. by eapply Hd.
Qed.

Lemma snapshot_textual s : textual (to_payload s).
Proof.
  apply textual_drop_none. intros k t Hk E. unfold snapshot_dict, enc_time, json_codec in E.
  repeat (apply elem_of_cons in Hk as [->|Hk]; [simplify_map_eq; destruct (ts_expire_at s); simplify_map_eq|]). by apply elem_of_nil in Hk.
Qed.

Lemma view_alive_payload now s : view_alive now (to_payload s) = Ok (local_alive now (to_payload s)).
Proof.
  destruct (snapshot_dict_present s) as (_&_&_&_&_&_&_&_&_&_&_&_& H13). unfold local_alive, view_alive. rewrite lookup_to_payload, H13.
  destruct (ts_expire_at s) as [t|]; simpl; [|done]. by rewrite from_iso_iso.
Qed.

Lemma filter_res_ok {E A} (f : A → res E bool) (g : A → bool) l : (∀ a, a ∈ l → f a = Ok (g a)) → filter_res f l = Ok (filter (λ a, g a = true) l).
Proof.
  induction l as [|a l IH]; intros Hf; [done|]. simpl. rewrite Hf by left. simpl. rewrite IH by (intros b Hb; apply Hf; by right). simpl.
  rewrite filter_cons. by destruct (g a) eqn:E'.
Qed.

Lemma view_fold_file file : view_fold (env_data <$> file) = (_fold file).1.
Proof.
  unfold view_fold, _fold. simpl. f_equal. generalize (@nil (snapshot_key * list row)) as g. induction file as [|e file IH]; intros g; [done|]. simpl. by rewrite IH.
Qed.

(** Everything folded from a written file is the payload of a snapshot. *)
Lemma folded_payload file : local_written file → ∀ kv, kv ∈ (_fold file).1 → ∃ s, kv.2 = to_payload s.
Proof.
  intros Hw kv Hkv. destruct (local_written_encode file Hw) as [es ->]. rewrite fold_rows in Hkv.
  apply list_elem_of_fmap in Hkv as ([k s] & -> & _). by exists s.
Qed.

Lemma view_alive_file now file : local_written file → view_alive_rows now (env_data <$> file) = Ok (local_alive_rows now file).
Proof.
  intros Hw. unfold view_alive_rows, local_alive_rows. rewrite view_fold_file. apply filter_res_ok. intros d Hd.
  apply list_elem_of_fmap in Hd as (kv & -> & Hkv). destruct (folded_payload file Hw kv Hkv) as [s ->]. apply view_alive_payload.
Qed.

Lemma normalized_rows (op : string) (rows : list row) : Forall textual rows →
  (λ e : string * row, _normalize_row e.2) <$> ((λ d, (op, d)) <$> rows) = rows.
Proof.
  induction 1 as [|d rows Hd Hrs IH]; [done|]. cbn [fmap list_fmap]. cbn [snd]. rewrite normalize_textual by done. by rewrite IH.
Qed.

Lemma loaded_snapshots stamp store : local_written (ls_snapshot store) → writable stamp (snapshot_ops store) → plain stamp (snapshot_ops store) →
  _read_ndjson (Some (written_text stamp 0 [] (snapshot_ops store))) = env_data <$> ls_snapshot store.
Proof.
  intros Hw He Hp. rewrite read_written by done. unfold snapshot_ops.
  assert (Hall : Forall (λ e, textual (env_data e)) (ls_snapshot store)).
  { destruct (local_written_encode _ Hw) as [es ->]. apply Forall_fmap, Forall_true. intros e. apply snapshot_textual. }
  clear Hw He Hp. induction Hall as [|e es He Hes IH]; [done|]. cbn [fmap list_fmap snd]. rewrite normalize_textual by done. by f_equal.
Qed.

Lemma iter_snapshots stamp store : writable stamp (snapshot_ops store) →
  row_envelope <$> iter_envelopes (Some (written_text stamp 0 [] (snapshot_ops store))) = ls_snapshot store.
Proof.
  intros He. rewrite iter_written by done. unfold snapshot_ops. clear He. generalize 0%nat as n.
  induction (ls_snapshot store) as [|[op d] es IH]; intros n; [done|].
  cbn [fmap list_fmap rows_from]. rewrite envelope_row_back. f_equal. apply (IH (S n)).
Qed.

Lemma adapt_bind {A B} (r : res write_error A) (k : A → res write_error B) : adapt (res_bind r k) = res_bind (adapt r) (λ a, adapt (k a)).
Proof. by destruct r. Qed.

Lemma audit_textual e : textual (LocalAudit.audit_payload e).
Proof.
  apply textual_drop_none. intros k t Hk E.
  repeat (apply elem_of_cons in Hk as [->|Hk]; [simplify_map_eq|]). by apply elem_of_nil in Hk.
Qed.

Lemma edge_textual e : textual (LocalDependency.edge_payload e).
Proof.
  intros k t Hk E. unfold LocalDependency.edge_payload in E. repeat (apply elem_of_cons in Hk as [->|Hk]; [simplify_map_eq|]). by apply elem_of_nil in Hk.
Qed.

Lemma audit_filters (task_id scope event_type : option string) (tr : option TimeRange) (rows : list row) :
  filter (λ d, row_in_range tr d = true) (filter (λ d, opt_match (Some <$> (JStr <$> event_type)) (d !! "event_type") = true)
    (filter (λ d, opt_match (Some <$> (JStr <$> scope)) (d !! "scope") = true) (filter (λ d, opt_match (Some <$> (JStr <$> task_id)) (d !! "task_id") = true) rows))) =
  filter (λ d, LocalAudit.row_selected task_id scope event_type tr d = true) rows.
Proof.
  rewrite !list_filter_filter. apply list_filter_iff. intros d. unfold LocalAudit.row_selected. rewrite !andb_true_iff. tauto.
Qed.

(** C19: a user interface that opens the bundle of a local store sees the store's
    snapshots. From the text of the snapshot file, whatever times it is stamped
    with, the local adapter reads back the envelopes it has written, and every
    query of the view answers what the local adapter answers on them, record for
    record and error for error. The file is one the adapter wrote, with rows that
    JSON can write; and no text in them has one of the characters U+0085, U+2028
    and U+2029, at which only the reader ends a line: a record that has one
    vanishes from the view. *)
Theorem snapshot_view_refines now stamp store results :
  local_written (ls_snapshot store) → writable stamp (snapshot_ops store) → plain stamp (snapshot_ops store) →
  let b := bundle_of stamp store results in
  let rows := _snapshots (_load b) in
  let file := row_envelope <$> iter_envelopes (b_snapshots b) in
  file = ls_snapshot store ∧
  (∀ task_id step execution_id, view_get now rows task_id step execution_id = adapt (local_get now file task_id step execution_id)) ∧
  (∀ root max_depth latest_only, view_get_tree now rows root max_depth latest_only = adapt (local_get_tree now file root max_depth latest_only)) ∧
  (∀ status parent tr page sort, view_query now rows status parent tr page sort = adapt (local_query now file status parent tr page sort)) ∧
  (∀ fadd fzero group_by parent, view_aggregate fadd fzero now rows group_by parent = adapt (local_aggregate fadd fzero now file group_by parent None)).
Proof.
  intros Hw He Hp. cbv zeta. cbn [bundle_of b_snapshots _load _snapshots]. rewrite loaded_snapshots, iter_snapshots by done.
  set (file := ls_snapshot store) in *. split; [done|]. split_and!.
  - intros task_id step execution_id. unfold view_get, local_get. rewrite view_fold_file.
    rewrite (filter_res_ok _ (local_alive now)); [simpl; by repeat case_match|].
    intros d Hd. apply list_elem_of_fmap in Hd as (kv & -> & Hkv). apply list_elem_of_filter in Hkv as [_ Hkv].
    destruct (folded_payload file Hw kv Hkv) as [s ->]. apply view_alive_payload.
  - intros root max_depth latest_only. unfold view_get_tree. by rewrite (view_alive_file _ _ Hw).
  - intros status parent tr page sort. unfold view_query, local_query. rewrite adapt_bind, (view_alive_file _ _ Hw). done.
  - intros fadd fzero group_by parent. unfold view_aggregate, local_aggregate. rewrite (view_alive_file _ _ Hw).
    destruct (decide _); [|done]. simpl. f_equal. f_equal. symmetry. by apply list_filter_all_in.
Qed.

(** So it does for the audit trail, the dependency graph and the results,
    under the same conditions on their files: the queries of the audit view and
    the graph, children and parents of the dependency view are those of the
    local adapter, and a stored result is shown until it expires. *)
Theorem other_views_refine now iter_set stamp store results :
  LocalAudit.audit_written (ls_audit store) → LocalDependency.dep_written now (ls_dependency store) →
  writable stamp (audit_ops store) → plain stamp (audit_ops store) →
  writable stamp (edge_ops store) → plain stamp (edge_ops store) →
  let r := _load (bundle_of stamp store results) in
  (∀ task_id scope event_type tr page sort, view_audit_query now (_audits r) task_id scope event_type tr page sort =
     LocalAudit.local_audit_query now (ls_audit store) task_id scope event_type tr page sort) ∧
  (∀ id, view_read_graph iter_set now (_edges r) id = LocalDependency.local_read_graph iter_set now (ls_dependency store) id ∧
     view_children_of now (_edges r) id = LocalDependency.local_children_of now (ls_dependency store) id ∧
     view_parents_of now (_edges r) id = LocalDependency.local_parents_of now (ls_dependency store) id) ∧
  (∀ id expire manifest, dget results id = Some {[ "manifest" := JObj manifest; "expire_at" := JStr (iso expire) ]} →
     view_result_get now (_results r) id = Some (if now <=? expire then Some manifest else None)).
Proof.
  intros Ha Hd Hea Hpa Hed Hpd. destruct (LocalAudit.audit_written_events _ Ha) as [es Ees]. destruct (LocalDependency.dep_written_edges _ _ Hd) as [ds Eds].
  assert (_read_ndjson (Some (written_text stamp 0 [] (audit_ops store))) = ls_audit store) as Ra.
  { rewrite read_written by done. apply normalized_rows. rewrite Ees. apply Forall_fmap, Forall_true, audit_textual. }
  assert (_read_ndjson (Some (written_text stamp 0 [] (edge_ops store))) = ls_dependency store) as Rd.
  { rewrite read_written by done. apply normalized_rows. rewrite Eds. apply Forall_fmap, Forall_true, edge_textual. }
  cbv zeta. cbn [bundle_of b_audits b_edges b_results _load _audits _edges _results]. rewrite Ra, Rd. split_and!.
  - intros. unfold view_audit_query, LocalAudit.local_audit_query. by rewrite audit_filters.
  - intros id. unfold view_read_graph, view_children_of, view_parents_of, LocalDependency.local_read_graph, LocalDependency.local_children_of,
      LocalDependency.local_parents_of, LocalDependency.dep_all, view_edges. by destruct (mapM _ (ls_dependency store)).
  - intros id expire manifest E. unfold view_result_get. rewrite E. simplify_map_eq. rewrite from_iso_iso. simpl. f_equal.
    destruct (Z.leb_spec now expire), (now >? expire) eqn:Eg; try done; lia.
Qed.

End Reader.

(** ** On the reference instances *)

Module UiReaderWitness.

Definition store : LocalFileStore :=
  {| ls_content := LocalContent.mkLocalContent ∅ ∅; ls_audit := demo_audit_file; ls_result := ∅; ls_snapshot := demo_file; ls_dependency := demo_dep_file |}.

(** Every line is stamped alike. *)
Definition stamp (n : nat) : string := "".

Definition demo_ops : list (string * row) := snapshot_ops store ++ audit_ops store ++ edge_ops store.
Definition demo_rows : list row := (λ e, envelope_row (stamp 0) e.1 e.2) <$> demo_ops.
Definition demo_json : JsonText := table_json demo_rows.

Lemma demo_writable es : es ⊆ demo_ops → @writable demo_json stamp es.
Proof.
  intros Hs n op d Hn. apply list_elem_of_fmap. exists (op, d). split; [reflexivity|]. apply Hs. by eapply list_elem_of_lookup_2.
Qed.

(** Digits and braces. *)
Lemma demo_plain es : es ⊆ demo_ops → @plain demo_json stamp es.
Proof.
  intros Hs n op d Hn c. cbn [dumps demo_json table_json]. unfold table_dumps, table_text.
  generalize (position (envelope_row (stamp n) op d) demo_rows) as k. intros k.
  intros [->|[Hc|Hc]%elem_of_app]%elem_of_cons; [done| |by apply list_elem_of_singleton in Hc as ->].
  destruct (str_of_N_spec (N.of_nat k)) as (Hd & _). rewrite Forall_forall in Hd. apply Hd in Hc.
  unfold is_dec in Hc. unfold line_boundary. lia.
Qed.

Lemma snapshots_in : snapshot_ops store ⊆ demo_ops.
Proof. unfold demo_ops. intros x Hx. apply elem_of_app. by left. Qed.
Lemma audits_in : audit_ops store ⊆ demo_ops.
Proof. unfold demo_ops. intros x Hx. rewrite !elem_of_app. by right; left. Qed.
Lemma edges_in : edge_ops store ⊆ demo_ops.
Proof. unfold demo_ops. intros x Hx. rewrite !elem_of_app. by right; right. Qed.

Definition opened : TraceBundleReader := @_load demo_json demo_iso_text (@bundle_of demo_json stamp store []).

Lemma snapshot_view_witness : @view_get demo_iso 0 (_snapshots opened) "t1" "s" (Some "e1") = Ok (Some demo_open).
Proof.
  destruct (@snapshot_view_refines demo_iso demo_json demo_iso_text 0 stamp store [] demo_file_written
    (demo_writable _ snapshots_in) (demo_plain _ snapshots_in)) as (Hf & H1 & _).
  etransitivity; [apply H1|]. rewrite Hf. vm_compute. reflexivity.
Defined.

Lemma other_views_witness : @view_children_of demo_iso 0 (_edges opened) "a" = Some ["b"].
Proof.
  destruct (@other_views_refine demo_iso demo_json demo_iso_text 0 elements stamp store [] demo_audit_written demo_dep_written
    (demo_writable _ audits_in) (demo_plain _ audits_in) (demo_writable _ edges_in) (demo_plain _ edges_in)) as (_ & H2 & _).
  etransitivity; [apply (H2 "a")|]. vm_compute. reflexivity.
Defined.

(** A record with U+0085 in one of its texts: JSON leaves the character as it
    is, the local adapter reads the record, the reader cuts its line in two and
    skips both halves. *)
Definition next_line_text : string := String (Ascii.ascii_of_nat 133) EmptyString.
Definition cut_row : row := envelope_row "" "save" (<["error" := JStr next_line_text]> (@to_payload demo_iso demo_open)).
Definition cut_text : text := (lit "{" ++ lit next_line_text ++ lit "}")%list.

Definition cut_dumps (r : row) : text := cut_text.
Definition cut_loads (t : text) : option json := if decide (t = cut_text) then Some (JObj cut_row) else None.

Lemma cut_loads_dumps : ∀ r, r = cut_row → cut_loads (cut_dumps r) = Some (JObj r).
Proof. by intros r ->. Qed.
Lemma cut_printable : ∀ r c, r = cut_row → c ∈ cut_dumps r → (32 ≤ c)%N.
Proof.
  intros r c _ Hc. change (cut_dumps r) with ([123; 133; 125]%N) in Hc.
  repeat (apply elem_of_cons in Hc as [->|Hc]; [done|]). by apply not_elem_of_nil in Hc.
Qed.
Lemma cut_braces : ∀ r, r = cut_row → ∃ t, cut_dumps r = 123%N :: t ++ [125%N].
Proof. intros r _. by exists (lit next_line_text). Qed.

Definition cut_json : JsonText :=
  {| dumps := cut_dumps; loads := cut_loads; encodable := λ r, r = cut_row;
     loads_dumps := cut_loads_dumps; dumps_printable := cut_printable; dumps_braces := cut_braces |}.

Definition cut_file : text := @append_line cut_json [] "" "save" (row_data cut_row).

Example record_vanishes :
  @iter_envelopes cut_json (Some cut_file) = [cut_row] ∧ @_read_ndjson cut_json demo_iso_text (Some cut_file) = [].
Proof. by vm_compute. Qed.

(** [seed] is said to be idempotent; edges that are seeded twice are there twice. *)
Definition edge_fixture : row := @LocalDependency.edge_payload demo_iso (mkEdge "b" "a" true 0).
Example seeded_twice :
  (rows ← @seed_edges demo_iso demo_iso_text [edge_fixture] []; @view_children_of demo_iso 0 rows "a") = Some ["b"] ∧
  (rows ← @seed_edges demo_iso demo_iso_text [edge_fixture] []; rows ← @seed_edges demo_iso demo_iso_text [edge_fixture] rows;
   @view_children_of demo_iso 0 rows "a") = Some ["b"; "b"].
Proof. by vm_compute. Qed.

(** A row whose expiry is not readable is alive for the local adapter, and
    makes every query of the view raise. *)
Definition unreadable : row := <["expire_at" := JNum 7]> (@to_payload demo_iso demo_open).
Example unreadable_expiry : @local_alive demo_iso 0 unreadable = true ∧ @view_alive_rows demo_iso 0 [unreadable] = Err BadExpiry.
Proof. by vm_compute. Qed.

End UiReaderWitness.
