(* ===== verification/Actions.v ===== *)
(** * Actions and recovery

    flow/actions/models.py and dispatcher.py, flow/recovery/service.py and
    adapter-ui/action.py and queue.py: commands travel from a user interface
    through a queue to the dispatcher, which cancels, reruns or resumes tasks. *)
From Stdlib Require Import ZArith Lia.
From stdpp Require Import prelude gmap list strings pretty.
From S2P Require Import Prelude Effects.
Local Open Scope list_scope.

(** ** Bounded recency windows

    The [OrderedDict]s of the dispatcher (ids seen) and of the queue (receipts):
    a key that is written or read moves to the end, and the oldest goes when
    the window is full. *)

Section Window.

Context {K V : Type} `{EqDecision K}.
Implicit Types (d : list (K * V)) (k : K) (v : V).

(** [d.move_to_end(k); d[k] = v] *)
Definition to_end d k v : list (K * V) := ddel d k ++ [(k, v)].

(** ... and evict the oldest *)
Definition lru_put (cap : nat) d k v : list (K * V) :=
  let d := to_end d k v in if (cap <? length d)%nat then tail d else d.

(** The latest value of each key, the most recent first *)
Fixpoint recent (l : list (K * V)) : list (K * V) :=
  match l with [] => [] | (k, v) :: l => (k, v) :: ddel (recent l) k end.

Lemma ddel_keys d k : dkeys (ddel d k) = filter (λ k', k' ≠ k) (dkeys d).
Proof.
  unfold ddel, dkeys. induction d as [|[k' v'] d IH]; [done|]. rewrite filter_cons, fmap_cons, filter_cons. simpl.
  repeat case_decide; try done; simpl; by f_equal.
Qed.

Lemma recent_NoDup l : NoDup (dkeys (recent l)).
Proof.
  induction l as [|[k v] l IH]; simpl; [constructor|]. apply NoDup_cons. rewrite ddel_keys. split; [by intros [? _]%list_elem_of_filter|]. by apply NoDup_filter.
Qed.

Lemma ddel_fresh d k : k ∉ dkeys d → ddel d k = d.
Proof.
  intros Hk. apply list_filter_all_in. intros [k' v'] Hin E. simpl in E. apply Hk, list_elem_of_fmap. by exists (k', v').
Qed.

(** Deleting one key from a list without repetitions leaves room for one more. *)
Lemma take_ddel n d k : NoDup (dkeys d) →
  take n (ddel d k) = if decide (k ∈ dkeys (take (S n) d)) then ddel (take (S n) d) k else take n d.
Proof.
  revert n. induction d as [|[k' v'] d IH]; intros n Hnd; [unfold ddel; simpl; rewrite take_nil; by destruct n|].
  apply NoDup_cons in Hnd as [Hk' Hnd]. unfold ddel. rewrite filter_cons. fold (ddel d k). simpl. destruct (decide (k' ≠ k)) as [Hne|Heq].
  - destruct n as [|n]; simpl.
    + destruct (decide (k ∈ [k'])) as [Hin|]; [|done]. apply list_elem_of_singleton in Hin. congruence.
    + rewrite IH by done. unfold dkeys at 2. simpl. destruct (decide (k ∈ dkeys (take (S n) d))) as [Hin|Hin].
      * rewrite decide_True by (by right). by rewrite filter_cons_True.
      * rewrite decide_False; [done|]. intros [->|?]%elem_of_cons; done.
  - apply dec_stable in Heq. subst k'. unfold dkeys at 1. simpl. rewrite decide_True by left. rewrite filter_cons_False by (simpl; auto).
    fold (ddel (take n d) k). assert (k ∉ dkeys d) as Hk by exact Hk'. rewrite !ddel_fresh; [done| |done]. intros Hin. apply Hk. unfold dkeys in *.
    rewrite fmap_take in Hin. by apply elem_of_take in Hin as (i & Hi%list_elem_of_lookup_2 & _).
Qed.

Definition window (cap : nat) (l : list (K * V)) : list (K * V) := fold_left (λ d kv, lru_put cap d kv.1 kv.2) l [].

Lemma ddel_reverse d k : ddel (reverse d) k = reverse (ddel d k).
Proof. unfold ddel. apply filter_reverse'. Qed.

Lemma ddel_length d k : k ∈ dkeys d → (length (ddel d k) < length d)%nat.
Proof.
  intros ([k' v'] & -> & Hin)%list_elem_of_fmap. unfold ddel. induction d as [|[k2 v2] d IH]; [by apply elem_of_nil in Hin|].
  rewrite filter_cons. simpl. assert (length (filter (λ kv : K * V, kv.1 ≠ k') d) ≤ length d)%nat by apply length_filter.
  case_decide; simpl; [|lia]. apply elem_of_cons in Hin as [[= -> ->]|Hin]; [done|]. specialize (IH Hin). simpl in IH. lia.
Qed.

Lemma lru_put_window n U k v : NoDup (dkeys U) → lru_put (S n) (reverse (take (S n) U)) k v = reverse (take (S n) ((k, v) :: ddel U k)).
Proof.
  intros Hnd. unfold lru_put, to_end. rewrite ddel_reverse. simpl take. rewrite reverse_cons, (take_ddel n U k Hnd).
  set (X := take (S n) U). assert (length X ≤ S n)%nat by (unfold X; rewrite length_take; lia). rewrite length_app, length_reverse. simpl length.
  destruct (decide (k ∈ dkeys X)) as [Hin|Hin].
  - pose proof (ddel_length X k Hin). rewrite (proj2 (Nat.ltb_ge _ _)) by lia. done.
  - rewrite (ddel_fresh X k Hin). destruct (U !! n) as [x|] eqn:Ex.
    + assert (X = take n U ++ [x]) as -> by (by apply take_S_r). rewrite length_app, length_take. apply lookup_lt_Some in Ex.
      rewrite (proj2 (Nat.ltb_lt _ _)) by (simpl; lia). by rewrite reverse_app.
    + apply lookup_ge_None in Ex. unfold X. rewrite !take_ge by lia. by rewrite (proj2 (Nat.ltb_ge _ _)) by lia.
Qed.

Lemma window_recent cap l : (1 ≤ cap)%nat → window cap l = reverse (take cap (recent (reverse l))).
Proof.
  intros Hcap. destruct cap as [|n]; [lia|]. induction l as [|[k v] l IH] using rev_ind; [done|].
  unfold window in *. rewrite fold_left_app, IH, reverse_snoc. simpl fold_left. apply lru_put_window, recent_NoDup.
Qed.

End Window.

(** ** Commands *)

Inductive ActionType := PAUSE | RETRY | RESUME.
Definition action_type_value (t : ActionType) : string := match t with PAUSE => "pause" | RETRY => "retry" | RESUME => "resume" end.
#[global] Instance ActionType_eq_dec : EqDecision ActionType.
Proof. solve_decision. Defined.

Record ActionCommand := {
  action_id : string;
  action_type : ActionType;
  target_task_id : string;
  root_task_id : option string;
  scope : list string;
  actor : string;
  created_at : Z;
  params : row
}.

Record ActionReceipt := { accepted : bool; receipt_action_id : string; receipt_detail : string }.

(** *** MemoryActionQueue *)

Record MemoryActionQueue := { q_commands : list ActionCommand; q_max_receipts : nat; q_receipts : list (string * row) }.

Definition enqueue (c : ActionCommand) (q : MemoryActionQueue) : MemoryActionQueue :=
  {| q_commands := q_commands q ++ [c]; q_max_receipts := q_max_receipts q; q_receipts := q_receipts q |}.

(** [None]: the wait timed out. *)
Definition dequeue (q : MemoryActionQueue) : option ActionCommand * MemoryActionQueue :=
  match q_commands q with
  | [] => (None, q)
  | c :: cs => (Some c, {| q_commands := cs; q_max_receipts := q_max_receipts q; q_receipts := q_receipts q |})
  end.

Definition get_receipt (id : string) (q : MemoryActionQueue) : option row * MemoryActionQueue :=
  match dget (q_receipts q) id with
  | None => (None, q)
  | Some r => (Some r, {| q_commands := q_commands q; q_max_receipts := q_max_receipts q; q_receipts := to_end (q_receipts q) id r |})
  end.

Definition write_receipt (id : string) (r : row) (q : MemoryActionQueue) : MemoryActionQueue :=
  {| q_commands := q_commands q; q_max_receipts := q_max_receipts q; q_receipts := lru_put (q_max_receipts q) (q_receipts q) id r |}.

(** ** Calls *)

Inductive ReuseDecision := REUSE | RERUN.
#[global] Instance ReuseDecision_eq_dec : EqDecision ReuseDecision.
Proof. solve_decision. Defined.

Inductive act_op :=
  | NewActionId
  | Now
  | Enqueue (c : ActionCommand)
  | AuditAppend (event_id task_id event_type : string) (payload : row)
  | OrchestratorCancel (task_id : string)
  | WriteReceipt (id : string) (r : row)
  | ReaderGet (task_id step : string)
  | ReaderTree (root_task_id : string)
  | GetTask (task_id : string)
  | Monotonic
  | IsBusy (task_id : string)
  | SleepFor (d : Z)
  | ReopenTask (task_id : string)
  | InvalidateExempt (task_id : string)
  | TaskFactory (task_id : string)
  | StartExecute (task_id : string).

(** [ReaderGet] answers the status of the latest generation; [IsBusy] whether
    the executor still runs or finalizes. *)
Definition act_ans (o : act_op) : Type :=
  match o with
  | NewActionId => string
  | Now => Z
  | Enqueue _ | AuditAppend _ _ _ _ | WriteReceipt _ _ | SleepFor _ | ReopenTask _ | InvalidateExempt _ | TaskFactory _ => res exn unit
  | OrchestratorCancel _ => res exn bool
  | ReaderGet _ _ => res exn (option string)
  | ReaderTree _ => res exn (list string)
  | GetTask _ => res exn row
  | Monotonic => Z
  | IsBusy _ => bool
  | StartExecute _ => unit
  end.
Notation actM := (M act_ans).

(** ** ActionSinkAdapter *)

Definition _submit (audit : bool) (str_exn : exn → string) (ty : ActionType) (target : string) (root : option string) (scope : list string)
    (actor : string) (params : option row) : actM ActionReceipt :=
  pbind (perform NewActionId) (λ id : string,
  pbind (perform Now) (λ now : Z,
    let command := {| action_id := id; action_type := ty; target_task_id := target; root_task_id := root; scope := scope; actor := actor; created_at := now; params := default ∅ params |} in
    let! failed := except_exception (do! (perform (Enqueue command) : actM unit) in ret None) (λ e, ret (Some (str_exn e))) in
    match failed with
    | Some detail => ret {| accepted := false; receipt_action_id := id; receipt_detail := detail |}
    | None =>
        let jopt {A} (f : A → json) (o : option A) := match o with Some a => f a | None => JNull end in
        do! (if audit then
               except_exception (perform (AuditAppend id target ("action_" +:+ action_type_value ty)%string
                 {[ "action_type"%string := JStr (action_type_value ty); "target"%string := JStr target; "root"%string := jopt JStr root;
                    "scope"%string := (if bool_decide (scope = []) then JNull else JArr (JStr <$> sorted_strings scope)); "actor"%string := JStr actor;
                    "params"%string := jopt JObj params ]})) (λ _, ret tt)
             else ret tt) in
        ret {| accepted := true; receipt_action_id := id; receipt_detail := ""%string |}
    end)).

Definition pause_node (audit : bool) str_exn (task_id actor : string) : actM ActionReceipt := _submit audit str_exn PAUSE task_id None [] actor None.
Definition retry_node (audit : bool) str_exn (task_id root_task_id actor : string) : actM ActionReceipt :=
  _submit audit str_exn RETRY task_id (Some root_task_id) [task_id] actor None.
Definition retry_scope (audit : bool) str_exn (root_task_id : string) (scope : list string) (actor : string) : actM ActionReceipt :=
  _submit audit str_exn RETRY root_task_id (Some root_task_id) scope actor None.
Definition resume_tree (audit : bool) str_exn (root_task_id actor : string) : actM ActionReceipt :=
  _submit audit str_exn RESUME root_task_id (Some root_task_id) [] actor None.

(** ** RecoveryService *)

Section Recovery.

Context (reuse_words : gset string) (has_governor : bool).

Definition decide_node (task_id : string) : actM ReuseDecision :=
  let! snap := except_exception (let! s := (perform (ReaderGet task_id "execute") : actM (option string)) in ret (Some s)) (λ _, ret None) in
  match snap with
  | Some (Some status) =>
      if bool_decide (status ∈ reuse_words) then
        let! rec := except_exception (perform (GetTask task_id) : actM row) (λ _, ret ∅) in
        ret (if bool_decide (is_Some (rec !! "result"%string)) then REUSE else RERUN)
      else ret RERUN
  | _ => ret RERUN
  end.

(** The wait for the previous generation: a poll every 20 ms for five
    seconds; [false]: out of fuel. *)
Fixpoint await_idle (fuel : nat) (deadline : Z) (task_id : string) : actM bool :=
  match fuel with
  | O => ret false
  | S fuel =>
      pbind (perform Monotonic) (λ now : Z,
        if (now <? deadline)%Z then
          pbind (perform (IsBusy task_id)) (λ busy : bool,
            if busy then do! (perform (SleepFor 20000) : actM unit) in await_idle fuel deadline task_id else ret true)
        else ret true)
  end.

Definition drain_fuel : nat := 251.

Definition _rerun_node (task_id : string) : actM unit :=
  pbind (perform Monotonic) (λ now : Z,
    do! await_idle drain_fuel (now + 5000000)%Z task_id in
    do! (perform (ReopenTask task_id) : actM unit) in
    do! (if has_governor then except_exception (perform (InvalidateExempt task_id)) (λ _, ret tt) else ret tt) in
    do! (perform (TaskFactory task_id) : actM unit) in
    pbind (perform (StartExecute task_id)) (λ _, ret tt)).

Definition _dispatch (tree_ids : list string) (plan : list (string * ReuseDecision)) : actM unit :=
  for_each tree_ids (λ tid,
    if decide (dget plan tid = Some RERUN) then except_exception (_rerun_node tid) (λ _, ret tt) else ret tt).

(** [plan[tid] = choose(tid)] for each node *)
Fixpoint make_plan (choose : string → actM ReuseDecision) (tree_ids : list string) (plan : list (string * ReuseDecision)) : actM (list (string * ReuseDecision)) :=
  match tree_ids with
  | [] => ret plan
  | tid :: tree_ids => let! d := choose tid in make_plan choose tree_ids (dset plan tid d)
  end.

Definition recover (choose : string → actM ReuseDecision) (root_task_id : string) : actM (list (string * ReuseDecision)) :=
  let! tree_ids := (perform (ReaderTree root_task_id) : actM (list string)) in
  let! plan := make_plan choose tree_ids [] in
  do! _dispatch tree_ids plan in
  ret plan.

Definition resume (root_task_id : string) : actM (list (string * ReuseDecision)) := recover decide_node root_task_id.

Definition rerun (root_task_id : string) (scope : list string) : actM (list (string * ReuseDecision)) :=
  recover (λ tid, if decide (tid ∈ scope) then ret RERUN else decide_node tid) root_task_id.

(** ** ActionDispatcher *)

Definition _mark_seen (cap : nat) (id : string) (seen : list (string * unit)) : bool * list (string * unit) :=
  match dget seen id with
  | Some _ => (true, to_end seen id tt)
  | None => (false, let d := seen ++ [(id, tt)] in if (cap <? length d)%nat then tail d else d)
  end.

Definition count_of (d : ReuseDecision) (plan : list (string * ReuseDecision)) : string := pretty (length (filter (λ e, e.2 = d) plan)).

Definition make_receipt (c : ActionCommand) (status : string) (detail : string) : row :=
  {[ "action_id"%string := JStr (action_id c); "action_type"%string := JStr (action_type_value (action_type c)); "status"%string := JStr status; "detail"%string := JStr detail ]}.

(** What a command does, with the status and the detail of its receipt *)
Definition act_on (c : ActionCommand) : actM (string * string) :=
  match action_type c with
  | PAUSE =>
      let! ok := (perform (OrchestratorCancel (target_task_id c)) : actM bool) in
      ret (if ok then ("executed", "cancelled") else ("rejected", "task not found or already terminal"))%string
  | RETRY =>
      match root_task_id c with
      | None => ret ("rejected", "retry requires root_task_id")%string
      | Some root => 
          let! plan := rerun root (if bool_decide (scope c = []) then [target_task_id c] else scope c) in
          ret ("executed", "rerun=" +:+ count_of RERUN plan +:+ " of " +:+ pretty (length plan))%string
      end
  | RESUME =>
      let! plan := resume (target_task_id c) in
      ret ("executed", "reuse=" +:+ count_of REUSE plan +:+ ", rerun=" +:+ count_of RERUN plan)%string
  end.

(** A command that is not a repetition, and its receipt; [has_receipts]: the
    queue keeps receipts. *)
Definition carry_out (has_receipts : bool) (str_exn : exn → string) (c : ActionCommand) : actM unit :=
  let! outcome := except_exception (act_on c) (λ e, ret ("failed"%string, str_exn e)) in
  if has_receipts then except_exception (perform (WriteReceipt (action_id c) (make_receipt c outcome.1 outcome.2))) (λ _, ret tt) else ret tt.

Definition _execute (has_receipts : bool) (cap : nat) (str_exn : exn → string) (c : ActionCommand) (seen : list (string * unit)) : actM (list (string * unit)) :=
  let '(dup, seen) := _mark_seen cap (action_id c) seen in
  if dup then ret seen else do! carry_out has_receipts str_exn c in ret seen.

(** The commands that the loop dequeues, one after the other *)
Fixpoint dispatch_loop (has_receipts : bool) (cap : nat) (str_exn : exn → string) (cs : list ActionCommand) (seen : list (string * unit)) : actM (list (string * unit)) :=
  match cs with
  | [] => ret seen
  | c :: cs => let! seen := _execute has_receipts cap str_exn c seen in dispatch_loop has_receipts cap str_exn cs seen
  end.

End Recovery.

(** ** Recovery: what is run again *)

Definition answered {A} (x : res exn A) : bool := match x with Ok _ => true | Err _ => false end.

(** The calls that do something, and the answers to those that read *)
Inductive rec_note :=
  | Walked (root_task_id : string) (tree : res exn (list string))
  | Asked (task_id step : string) (status : res exn (option string))
  | Fetched (task_id : string) (record : res exn row)
  | Tried (task_id : string) (reopened : bool)
  | Invalidated (task_id : string)
  | Made (task_id : string) (made : bool)
  | Executed (task_id : string)
  | Cancelled (task_id : string) (x : res exn bool)
  | Receipt (action_id : string) (r : row) (written : bool).

Definition rec_noted (ev : entry_of (ans := act_ans)) : option rec_note :=
  let '(existT o x) := ev in
  match o return act_ans o → option rec_note with
  | ReaderTree id => λ x, Some (Walked id x)
  | ReaderGet id step => λ x, Some (Asked id step x)
  | GetTask id => λ x, Some (Fetched id x)
  | ReopenTask id => λ x, Some (Tried id (answered x))
  | InvalidateExempt id => λ _, Some (Invalidated id)
  | TaskFactory id => λ x, Some (Made id (answered x))
  | StartExecute id => λ _, Some (Executed id)
  | OrchestratorCancel id => λ x, Some (Cancelled id x)
  | WriteReceipt id r => λ x, Some (Receipt id r (answered x))
  | _ => λ _, None
  end x.

(** Nothing is cancelled, and a sleep comes back. *)
Definition act_fine (ev : entry_of (ans := act_ans)) : bool :=
  let '(existT o x) := ev in
  match o return act_ans o → bool with
  | Enqueue _ | AuditAppend _ _ _ _ | WriteReceipt _ _ | ReopenTask _ | InvalidateExempt _ | TaskFactory _ => uncut
  | SleepFor _ => answered
  | OrchestratorCancel _ => uncut
  | ReaderGet _ _ => uncut
  | ReaderTree _ => uncut
  | GetTask _ => uncut
  | _ => λ _, true
  end x.

(** *** Plans: the decisions [l] taken one after the other *)

Notation choices := (list (string * ReuseDecision)).

(** The nodes in the order of their first occurrence; the last decision for a node *)
Definition firsts (l : list string) : list string := fold_left (λ acc k, if decide (k ∈ acc) then acc else acc ++ [k]) l [].
Definition last_choice (l : choices) (id : string) : option ReuseDecision :=
  last (omap (λ e : string * ReuseDecision, if decide (e.1 = id) then Some e.2 else None) l).

(** A plan has one entry for each node, with the last decision taken for it. *)
Definition plan_made (l plan : choices) : Prop := dkeys plan = firsts l.*1 ∧ ∀ id, dget plan id = last_choice l id.

Lemma firsts_snoc l k : firsts (l ++ [k]) = if decide (k ∈ firsts l) then firsts l else firsts l ++ [k].
Proof. unfold firsts. by rewrite fold_left_app. Qed.

Lemma firsts_spec l : NoDup (firsts l) ∧ ∀ k, k ∈ firsts l ↔ k ∈ l.
Proof.
  induction l as [|k l [Hnd Hin]] using rev_ind; [split; [constructor|done]|]. rewrite firsts_snoc. destruct (decide (k ∈ firsts l)) as [Hk|Hk].
  - split; [done|]. intros x. rewrite elem_of_app, list_elem_of_singleton, Hin. rewrite Hin in Hk. naive_solver.
  - split.
    + apply NoDup_app. split; [done|]. split; [|apply NoDup_singleton]. by intros x Hx ->%list_elem_of_singleton.
    + intros x. by rewrite !elem_of_app, !list_elem_of_singleton, Hin.
Qed.

Lemma plan_step l plan id d : plan_made l plan → plan_made (l ++ [(id, d)]) (dset plan id d).
Proof.
  intros [Hk Hg]. split.
  - rewrite fmap_app. simpl. rewrite firsts_snoc, <- Hk. destruct (decide (id ∈ dkeys plan)); [by apply dkeys_dset_in|by apply dkeys_dset_notin].
  - intros id'. rewrite dget_dset. unfold last_choice. rewrite omap_app. simpl. destruct (decide (id = id')); [by rewrite last_snoc|].
    rewrite app_nil_r. apply Hg.
Qed.

Lemma plan_made_NoDup l plan : plan_made l plan → NoDup (dkeys plan).
Proof. intros [-> _]. apply firsts_spec. Qed.

Lemma list_filter_in {A} (P Q : A → Prop) `{∀ x, Decision (P x), ∀ x, Decision (Q x)} (l : list A) :
  (∀ x, x ∈ l → P x ↔ Q x) → filter P l = filter Q l.
Proof.
  induction l as [|a l IH]; intros HPQ; [done|]. rewrite !filter_cons. rewrite IH by (intros; apply HPQ; by right).
  rewrite (decide_ext (P a) (Q a)) by (apply HPQ; left). done.
Qed.

(** How many nodes were decided [d] *)
Definition times (l : choices) (d : ReuseDecision) : nat := length (filter (λ id, last_choice l id = Some d) (firsts l.*1)).

Lemma keys_with (plan : choices) (d : ReuseDecision) : NoDup (dkeys plan) →
  length (filter (λ e, e.2 = d) plan) = length (filter (λ id, dget plan id = Some d) (dkeys plan)).
Proof.
  induction plan as [|[k v] plan IH]; [done|]. intros [Hk Hnd]%NoDup_cons. rewrite filter_cons. unfold dkeys. rewrite fmap_cons. fold (dkeys plan).
  rewrite filter_cons. simpl. rewrite (decide_True (P := k = k)) by done.
  rewrite (list_filter_in (λ id, (if decide (k = id) then Some v else dget plan id) = Some d) (λ id, dget plan id = Some d)).
  - rewrite (decide_ext (Some v = Some d) (v = d)) by (split; congruence). destruct (decide (v = d)); simpl; by rewrite IH.
  - intros id Hin. rewrite decide_False; [done|]. by intros ->.
Qed.

Lemma plan_times l plan d : plan_made l plan → length (filter (λ e, e.2 = d) plan) = times l d ∧ length plan = length (firsts l.*1).
Proof.
  intros Hp. pose proof (plan_made_NoDup _ _ Hp) as Hnd. destruct Hp as [Hk Hg]. split; [|rewrite <- Hk; unfold dkeys; by rewrite length_fmap].
  rewrite keys_with by done. unfold times. rewrite Hk. f_equal. apply list_filter_iff. intros id. by rewrite Hg.
Qed.

Section RerunTraces.

(** Whatever the answers are *)
Context (allow : ∀ o, list (entry_of (ans := act_ans)) → act_ans o → Prop) (reuse_words : gset string) (has_governor : bool).

Notation gtraces := (traces allow rec_noted act_fine).

Lemma drain_traces fuel deadline id : gtraces (await_idle fuel deadline id) (λ r t, (∃ b, r = Ok b) ∧ t = []).
Proof.
  induction fuel as [|fuel IH]; cbn [await_idle]; [apply traces_ret; by eauto|].
  eapply (traces_pbind _ _ _ _ _ (λ _ t, t = [])); [by refine (traces_call _ _ _ Monotonic _ _)|]. intros now t ->.
  destruct (now <? deadline)%Z; [|apply traces_ret; by eauto].
  eapply (traces_pbind _ _ _ _ _ (λ _ t, t = [])); [by refine (traces_call _ _ _ (IsBusy id) _ _)|]. intros busy t ->.
  destruct busy; [|apply traces_ret; by eauto].
  eapply (traces_seq _ _ _ _ _ (λ r t, r = Ok tt ∧ t = [])); [| |by intros ? ? [[=] _]].
  { refine (traces_call _ _ _ (SleepFor 20000) _ _). by intros log [[]|e] _ Hf. }
  intros [] t [_ ->]. exact IH.
Qed.

(** The rerun of one node: it is reopened; if it was, its cached exemptions are
    invalidated and a new task is made for it; if it was, it is executed. *)
Definition rerun_notes (id : string) (t : list rec_note) : Prop :=
  t = [Tried id false] ∨
  ∃ made, t = [Tried id true] ++ (if has_governor then [Invalidated id] else []) ++ [Made id made] ++ (if made : bool then [Executed id] else []).

Lemma rerun_traces id : gtraces (except_exception (_rerun_node has_governor id) (λ _, ret tt)) (λ r t, r = Ok tt ∧ rerun_notes id t).
Proof.
  apply traces_ignore. unfold _rerun_node. eapply (traces_pbind _ _ _ _ _ (λ _ t, t = [])); [by refine (traces_call _ _ _ Monotonic _ _)|]. intros now t ->.
  eapply traces_seq; [apply drain_traces| |by intros ? ? [[? [=]] _]]. intros b t [_ ->].
  eapply (traces_seq _ _ _ _ _ (λ r t, uncut r = true ∧ t = [Tried id (answered r)])).
  { refine (traces_call _ _ _ (ReopenTask id) _ _). by intros log x _ Hf. }
  2: { intros e t [He ->]. split; [done|]. by left. }
  intros [] t [_ ->]. eapply (traces_seq _ _ _ _ _ (λ r t, r = Ok tt ∧ t = if has_governor then [Invalidated id] else [])); [| |by intros ? ? [[=] _]].
  { destruct has_governor; [|by apply traces_ret]. apply traces_ignore. refine (traces_call _ _ _ (InvalidateExempt id) _ _). by intros log x _ Hf. }
  intros [] t [_ ->]. eapply (traces_seq _ _ _ _ _ (λ r t, uncut r = true ∧ t = [Made id (answered r)])).
  { refine (traces_call _ _ _ (TaskFactory id) _ _). by intros log x _ Hf. }
  2: { intros e t [He ->]. split; [done|]. right. by exists false. }
  intros [] t [_ ->]. eapply (traces_pbind _ _ _ _ _ (λ _ t, t = [Executed id])); [by refine (traces_call _ _ _ (StartExecute id) _ _)|].
  intros [] t ->. apply traces_ret. split; [done|]. right. exists true. by rewrite app_nil_r.
Qed.

(** The decision for a node, from the answers it is based on: the node is
    reused when its latest generation has a status among [reuse_words] and its
    record, which was fetched then, has a result. *)
Definition decided (id : string) (d : ReuseDecision) (t : list rec_note) : Prop :=
  ∃ a, match a with
       | Ok (Some status) =>
           if bool_decide (status ∈ reuse_words) then
             ∃ x, t = [Asked id "execute" a; Fetched id x] ∧ (d = REUSE ↔ ∃ r v, x = Ok r ∧ r !! "result"%string = Some v)
           else t = [Asked id "execute" a] ∧ d = RERUN
       | _ => t = [Asked id "execute" a] ∧ d = RERUN
       end.

(** [try: p except Exception: h] *)
Lemma traces_default {A} (p : actM A) (h : A) (Q : res exn A → list rec_note → Prop) : gtraces p (λ r t, uncut r = true ∧ Q r t) →
  gtraces (except_exception p (λ _, ret h)) (λ r t, ∃ x, Q x t ∧ r = Ok (match x with Ok a => a | Err _ => h end)).
Proof.
  intros Hp. unfold except_exception. eapply traces_catch; [exact Hp| |].
  - intros e t [He Ht]. unfold is_exception. rewrite bool_decide_true by (by intros ->). apply traces_ret. rewrite app_nil_r. by exists (Err e).
  - intros a t [_ Ht]. by exists (Ok a).
Qed.

Lemma decide_traces id : gtraces (decide_node reuse_words id) (λ r t, ∃ d, r = Ok d ∧ decided id d t).
Proof.
  unfold decide_node. eapply (traces_seq _ _ _ _ _ (λ r t, ∃ a : res exn (option string), t = [Asked id "execute" a] ∧
    r = Ok (match a with Ok s => Some s | Err _ => None end))); [| |by intros ? ? (? & _ & [=])].
  - eapply traces_mono; [apply (traces_default _ None (λ r t, ∃ a, t = [Asked id "execute" a] ∧ r = res_map Some a))|].
    + eapply (traces_seq _ _ _ _ _ (λ r t, uncut r = true ∧ t = [Asked id "execute" r])).
      * refine (traces_call _ _ _ (ReaderGet id "execute") _ _). by intros log x _ Hf.
      * intros s t [_ ->]. apply traces_ret. split; [done|]. by exists (Ok s).
      * intros e t [He ->]. split; [done|]. by exists (Err e).
    + intros r t (x & (a & -> & ->) & ->). exists a. by destruct a.
  - intros snap t (a & -> & [= ->]). unfold decided. destruct a as [[status|]|e]; [|apply traces_ret; eexists; split; [done|by eexists (Ok None)]|apply traces_ret; eexists; split; [done|by eexists (Err e)]].
    destruct (bool_decide (status ∈ reuse_words)) eqn:Eb; [|apply traces_ret; eexists; split; [done|]; exists (Ok (Some status)); by rewrite Eb].
    eapply (traces_seq _ _ _ _ _ (λ r t, ∃ x, t = [Fetched id x] ∧ r = Ok (match x with Ok rec => rec | Err _ => ∅ end))); [| |by intros ? ? (? & _ & [=])].
    { eapply traces_mono; [apply (traces_default _ ∅ (λ r t, t = [Fetched id r]))|].
      - refine (traces_call _ _ _ (GetTask id) _ _). by intros log x _ Hf.
      - intros r t (x & -> & ->). by exists x. }
    intros rec t (x & -> & [= ->]). apply traces_ret. eexists. split; [done|]. exists (Ok (Some status)). rewrite Eb. exists x. split; [done|].
    destruct x as [r|e]; [|rewrite lookup_empty, bool_decide_false by (by intros [? ?]); split; [done|by intros (? & ? & [=] & _)]].
    destruct (r !! "result"%string) as [v|] eqn:Ev.
    + rewrite bool_decide_true by (by exists v). split; [|done]. by exists r, v.
    + rewrite bool_decide_false by (by intros [? ?]). split; [done|]. intros (r' & v & [= <-] & Ev'). congruence.
Qed.

(** What a recovery leaves that decides each node by [N] *)
Definition walked (N : string → ReuseDecision → list rec_note → Prop) (ids : list string) (l : choices) (t : list rec_note) : Prop :=
  ∃ ds reads reruns, l = zip ids ds ∧ Forall3 N ids ds reads ∧
    Forall2 rerun_notes (filter (λ id, last_choice l id = Some RERUN) ids) reruns ∧ t = mjoin reads ++ mjoin reruns.

Lemma make_plan_traces choose N ids l plan : (∀ id, gtraces (choose id) (λ r t, ∃ d, r = Ok d ∧ N id d t)) → plan_made l plan →
  gtraces (make_plan choose ids plan) (λ r t, ∃ plan' ds reads, r = Ok plan' ∧ plan_made (l ++ zip ids ds) plan' ∧ Forall3 N ids ds reads ∧ t = mjoin reads).
Proof.
  intros Hc. revert l plan. induction ids as [|id ids IH]; intros l plan Hp; cbn [make_plan].
  { apply traces_ret. exists plan, [], []. rewrite app_nil_r. split_and!; [done..|constructor|done]. }
  eapply traces_seq; [apply Hc| |by intros ? ? (? & [=] & _)]. intros d t (? & [= <-] & Hd).
  eapply traces_mono; [apply (IH (l ++ [(id, d)])), plan_step, Hp|]. intros r t' (plan' & ds & reads & -> & Hp' & Hf & ->).
  exists plan', (d :: ds), (t :: reads). rewrite <- app_assoc in Hp'. split_and!; [done..|by constructor|done].
Qed.

Lemma dispatch_traces l plan ids : plan_made l plan →
  gtraces (_dispatch has_governor ids plan) (λ r t, r = Ok tt ∧ ∃ reruns,
    Forall2 rerun_notes (filter (λ id, last_choice l id = Some RERUN) ids) reruns ∧ t = mjoin reruns).
Proof.
  intros [_ Hg]. unfold _dispatch. eapply (traces_for_each _ _ _ _ _ (λ id t, if decide (last_choice l id = Some RERUN) then rerun_notes id t else t = [])).
  - intros id Hid. rewrite Hg. destruct (decide (last_choice l id = Some RERUN)); [apply rerun_traces|by apply traces_ret].
  - intros ts Hts. split; [done|]. clear -Hts. induction Hts as [|id t ids ts Ht _ (us & Hus & Hj)]; [exists []; by split|].
    rewrite filter_cons. destruct (decide (last_choice l id = Some RERUN)).
    + exists (t :: us). split; [by constructor|]. simpl. by rewrite Hj.
    + subst t. by exists us.
Qed.

(** A recovery fails exactly when the tree cannot be read. *)
Lemma recover_traces choose N (T : res exn (list string) → Prop) root : (∀ log x, allow (ReaderTree root) log x → T x) → (∀ id, gtraces (choose id) (λ r t, ∃ d, r = Ok d ∧ N id d t)) →
  gtraces (recover has_governor choose root) (λ r t, ∃ tree t', t = Walked root tree :: t' ∧ uncut r = true ∧ T tree ∧
    match tree with
    | Ok ids => ∃ plan l, r = Ok plan ∧ plan_made l plan ∧ walked N ids l t'
    | Err e => r = Err e ∧ t' = []
    end).
Proof.
  intros HT Hc. unfold recover. eapply (traces_seq _ _ _ _ _ (λ r t, uncut r = true ∧ T r ∧ t = [Walked root r])).
  - refine (traces_call _ _ _ (ReaderTree root) _ _). intros log x Hx Hf. split_and!; [done|by eapply HT|done].
  - intros ids t (_ & HTx & ->). eapply traces_seq; [by apply (make_plan_traces choose N ids [])| |by intros ? ? (? & ? & ? & [=] & _)].
    intros plan t (? & ds & reads & [= <-] & Hp & Hf & ->).
    eapply traces_seq; [by apply (dispatch_traces _ plan ids Hp)| |by intros ? ? [[=] _]]. intros [] t [_ (reruns & Hr & ->)]. apply traces_ret.
    exists (Ok ids). eexists. split; [done|]. split; [done|]. split; [done|]. exists plan, (zip ids ds). split_and!; [done..|]. exists ds, reads, reruns.
    rewrite app_nil_r. by split_and!.
  - intros e t (He & HTx & ->). exists (Err e), []. by split_and!.
Qed.

(** The decision for a node when a [scope] is forced *)
Definition forced_or_decided (scope : list string) (id : string) (d : ReuseDecision) (t : list rec_note) : Prop :=
  if decide (id ∈ scope) then d = RERUN ∧ t = [] else decided id d t.

Lemma rerun_choice scope id :
  gtraces (if decide (id ∈ scope) then ret RERUN else decide_node reuse_words id) (λ r t, ∃ d, r = Ok d ∧ forced_or_decided scope id d t).
Proof. unfold forced_or_decided. destruct (decide (id ∈ scope)); [apply traces_ret; by exists RERUN|apply decide_traces]. Qed.

(** What a command does, with the status and the detail of its receipt.  A walk
    of a tree: its nodes are read, each is decided, and those that were
    decided so are run again. *)
Definition command_work (str_exn : exn → string) (c : ActionCommand) (u : list rec_note) (outcome : string * string) : Prop :=
  let walk root (N : string → ReuseDecision → list rec_note → Prop) (detail : choices → string) :=
    ∃ tree t, u = Walked root tree :: t ∧
      match tree with
      | Ok ids => ∃ l, walked N ids l t ∧ outcome = ("executed"%string, detail l)
      | Err e => t = [] ∧ outcome = ("failed"%string, str_exn e)
      end in
  match action_type c with
  | PAUSE => ∃ x, u = [Cancelled (target_task_id c) x] ∧
      outcome = match x with
                | Ok true => ("executed", "cancelled")
                | Ok false => ("rejected", "task not found or already terminal")
                | Err e => ("failed", str_exn e)
                end%string
  | RETRY =>
      match root_task_id c with
      | Some root => walk root (forced_or_decided (if bool_decide (scope c = []) then [target_task_id c] else scope c))
          (λ l, "rerun=" +:+ pretty (times l RERUN) +:+ " of " +:+ pretty (length (firsts l.*1)))%string
      | None => u = [] ∧ outcome = ("rejected", "retry requires root_task_id")%string
      end
  | RESUME => walk (target_task_id c) decided
      (λ l, "reuse=" +:+ pretty (times l REUSE) +:+ ", rerun=" +:+ pretty (times l RERUN))%string
  end.

Lemma act_on_traces str_exn c : gtraces (act_on reuse_words has_governor c)
  (λ r t, uncut r = true ∧ command_work str_exn c t (match r with Ok x => x | Err e => ("failed"%string, str_exn e) end)).
Proof.
  unfold act_on, command_work. destruct (action_type c).
  - eapply (traces_seq _ _ _ _ _ (λ r t, uncut r = true ∧ t = [Cancelled (target_task_id c) r])).
    + refine (traces_call _ _ _ (OrchestratorCancel (target_task_id c)) _ _). by intros log x _ Hf.
    + intros ok t [_ ->]. apply traces_ret. split; [by destruct ok|]. exists (Ok ok). by destruct ok.
    + intros e t [He ->]. split; [done|]. by eexists (Err e).
  - destruct (root_task_id c) as [root|]; [|by apply traces_ret].
    eapply traces_seq; [apply (recover_traces _ (forced_or_decided (if bool_decide (scope c = []) then [target_task_id c] else scope c)) (λ _, True) root); [done|apply (rerun_choice (if bool_decide (scope c = []) then [target_task_id c] else scope c))]| |].
    + intros plan t (tree & t' & -> & _ & _ & Htree). apply traces_ret. rewrite app_nil_r. split; [done|]. exists tree, t'. split; [done|].
      destruct tree as [ids|e]; [|by destruct Htree]. destruct Htree as (? & l & [= <-] & Hp & Hw). exists l. split; [done|].
      unfold count_of. destruct (plan_times l plan RERUN Hp) as [-> ->]. done.
    + intros e t (tree & t' & -> & He & _ & Htree). split; [done|]. exists tree, t'. split; [done|].
      destruct tree as [ids|e']; [by destruct Htree as (? & ? & [=] & _)|]. by destruct Htree as [[= <-] ->].
  - eapply traces_seq; [apply (recover_traces _ decided (λ _, True) (target_task_id c)); [done|apply decide_traces]| |].
    + intros plan t (tree & t' & -> & _ & _ & Htree). apply traces_ret. rewrite app_nil_r. split; [done|]. exists tree, t'. split; [done|].
      destruct tree as [ids|e]; [|by destruct Htree]. destruct Htree as (? & l & [= <-] & Hp & Hw). exists l. split; [done|].
      unfold count_of. destruct (plan_times l plan RERUN Hp) as [-> _], (plan_times l plan REUSE Hp) as [-> _]. done.
    + intros e t (tree & t' & -> & He & _ & Htree). split; [done|]. exists tree, t'. split; [done|].
      destruct tree as [ids|e']; [by destruct Htree as (? & ? & [=] & _)|]. by destruct Htree as [[= <-] ->].
Qed.

(** ... and the one attempt to write the receipt itself *)
Definition command_notes (has_receipts : bool) (str_exn : exn → string) (c : ActionCommand) (t : list rec_note) : Prop :=
  ∃ u status detail, command_work str_exn c u (status, detail) ∧
    if has_receipts then
      ∃ written, t = u ++ [Receipt (action_id c) {[ "action_id" := JStr (action_id c); "action_type" := JStr (action_type_value (action_type c));
                                                   "status" := JStr status; "detail" := JStr detail ]}%string written]
    else t = u.

Lemma carry_out_traces has_receipts str_exn c :
  gtraces (carry_out reuse_words has_governor has_receipts str_exn c) (λ r t, r = Ok tt ∧ command_notes has_receipts str_exn c t).
Proof.
  unfold carry_out. eapply (traces_seq _ _ _ _ _ (λ r t, ∃ o, r = Ok o ∧ command_work str_exn c t o)); [| |by intros ? ? (? & [=] & _)].
  - unfold except_exception. eapply traces_catch; [apply (act_on_traces str_exn)| |].
    + intros e t [He Ht]. unfold is_exception. rewrite bool_decide_true by (by intros ->). apply traces_ret. rewrite app_nil_r. by eexists.
    + intros o t [_ Ht]. by exists o.
  - intros o t (? & [= <-] & Ht). destruct o as [status detail]. unfold command_notes. destruct has_receipts.
    + eapply (traces_mono _ _ _ _ (λ r u, r = Ok tt ∧ ∃ written, u = [Receipt (action_id c) (make_receipt c status detail) written])).
      * apply traces_ignore. refine (traces_call _ _ _ (WriteReceipt (action_id c) (make_receipt c status detail)) _ _). intros log x _ Hf. split; [done|]. by eexists.
      * intros r u [-> (written & ->)]. split; [done|]. exists t, status, detail. split; [done|]. by exists written.
    + apply traces_ret. split; [done|]. rewrite app_nil_r. by exists t, status, detail.
Qed.

End RerunTraces.

Section RecoveryProofs.

Context (reuse_words : gset string) (has_governor : bool).
(** What the snapshots, the records and the trees say while the recovery reads them *)
Context (snapshot_of : string → res exn (option string)) (record_of : string → res exn row) (tree_of : string → res exn (list string)).

Definition act_allow (o : act_op) (log : list (entry_of (ans := act_ans))) : act_ans o → Prop :=
  match o return act_ans o → Prop with
  | ReaderGet id _ => λ x, x = snapshot_of id
  | GetTask id => λ x, x = record_of id
  | ReaderTree root => λ x, x = tree_of root
  | _ => λ _, True
  end.

Notation rtraces := (traces act_allow rec_noted act_fine).

(** The decision for a node *)
Definition decision (id : string) : ReuseDecision :=
  match snapshot_of id with
  | Ok (Some status) =>
      if bool_decide (status ∈ reuse_words) then
        match record_of id with Ok r => if bool_decide (is_Some (r !! "result"%string)) then REUSE else RERUN | Err _ => RERUN end
      else RERUN
  | _ => RERUN
  end.

(** The notes of the calls that only read *)
Definition is_read (n : rec_note) : Prop := match n with Asked _ _ _ | Fetched _ _ => True | _ => False end.

Lemma or_else_traces {A} (p : actM A) (h : A) (x : res exn A) : rtraces p (λ r t, uncut r = true ∧ r = x ∧ Forall is_read t) →
  rtraces (except_exception p (λ _, ret h)) (λ r t, r = Ok (match x with Ok a => a | Err _ => h end) ∧ Forall is_read t).
Proof.
  intros Hp. eapply traces_mono; [apply (traces_default _ p h (λ r t, r = x ∧ Forall is_read t)), Hp|]. by intros r t (? & [-> Ht] & ->).
Qed.

Lemma decision_traces id : rtraces (decide_node reuse_words id) (λ r t, ∃ d, r = Ok d ∧ d = decision id ∧ Forall is_read t).
Proof.
  unfold decide_node. eapply traces_seq; [apply (or_else_traces _ None (res_map Some (snapshot_of id)))| |by intros ? ? [[=] _]].
  - eapply (traces_seq _ _ _ _ _ (λ r t, uncut r = true ∧ r = snapshot_of id ∧ Forall is_read t)).
    + refine (traces_call _ _ _ (ReaderGet id "execute") _ _). intros log x Hx Hf. split_and!; [done..|by repeat constructor].
    + intros s t (_ & E & Ht). apply traces_ret. rewrite <- E, app_nil_r. by split_and!.
    + intros e t (He & E & Ht). by rewrite <- E.
  - intros snap t [[= ->] Ht]. unfold decision. destruct (snapshot_of id) as [[status|]|e]; simpl; [|apply traces_ret; rewrite app_nil_r; by eexists..].
    destruct (bool_decide (status ∈ reuse_words)); [|apply traces_ret; rewrite app_nil_r; by eexists].
    eapply traces_seq; [apply (or_else_traces _ ∅ (record_of id))| |by intros ? ? [[=] _]].
    + refine (traces_call _ _ _ (GetTask id) _ _). intros log x Hx Hf. split_and!; [done..|by repeat constructor].
    + intros r t' [[= ->] Ht']. apply traces_ret. rewrite app_nil_r. eexists. split; [done|]. split; [|by apply Forall_app].
      destruct (record_of id) as [r|e]; [done|]. rewrite lookup_empty. by rewrite bool_decide_false by (by intros [? ?]).
Qed.

(** The choice of [rerun] *)
Definition forced (scope : list string) (id : string) : ReuseDecision := if decide (id ∈ scope) then RERUN else decision id.

Lemma last_choice_fun choice ids id : id ∈ ids → last_choice ((λ id, (id, choice id)) <$> ids) id = Some (choice id).
Proof.
  unfold last_choice. induction ids as [|x ids IH] using rev_ind; [by intros ?%elem_of_nil|]. rewrite fmap_app, omap_app. simpl.
  destruct (decide (x = id)) as [->|Hne]; [by rewrite last_snoc|]. rewrite app_nil_r. intros [Hin| ->%list_elem_of_singleton]%elem_of_app; [by apply IH|done].
Qed.

Lemma plan_fun (plan : choices) choice : NoDup (dkeys plan) → (∀ id, id ∈ dkeys plan → dget plan id = Some (choice id)) →
  plan = (λ id, (id, choice id)) <$> dkeys plan.
Proof.
  induction plan as [|[k d] plan IH]; [done|]. intros [Hk Hnd]%NoDup_cons Hg. unfold dkeys in *. rewrite !fmap_cons. simpl. f_equal.
  - specialize (Hg k ltac:(by left)). simpl in Hg. rewrite decide_True in Hg by done. by injection Hg as ->.
  - apply IH; [done|]. intros id Hid. specialize (Hg id ltac:(by right)). simpl in Hg. rewrite decide_False in Hg; [done|]. by intros ->.
Qed.

(** What a recovery with the decisions [choice] leaves: it reads, and then
    runs again each occurrence of a node that is to be run again. *)
Definition recovered (choice : string → ReuseDecision) (ids : list string) (t : list rec_note) : Prop :=
  ∃ reads reruns, t = reads ++ mjoin reruns ∧ Forall is_read reads ∧
    Forall2 (rerun_notes has_governor) (filter (λ id, choice id = RERUN) ids) reruns.

Lemma walked_recovered choice ids l plan t : plan_made l plan →
  walked has_governor (λ id d t, d = choice id ∧ Forall is_read t) ids l t → plan = (λ id, (id, choice id)) <$> firsts ids ∧ recovered choice ids t.
Proof.
  intros Hp (ds & reads & reruns & -> & Hf & Hr & ->).
  assert (zip ids ds = (λ id, (id, choice id)) <$> ids ∧ Forall is_read (mjoin reads)) as [El Hreads].
  { clear -Hf. induction Hf as [|id d t ids ds ts [-> Ht] _ [IH1 IH2]]; [by split|]. simpl. split; [by rewrite IH1|by apply Forall_app]. }
  rewrite El in *. pose proof (plan_made_NoDup _ _ Hp) as Hnd. destruct Hp as [Hk Hg]. rewrite <- list_fmap_compose in Hk.
  rewrite (list_fmap_ext _ id) in Hk by done. rewrite list_fmap_id in Hk. split.
  - rewrite <- Hk. apply plan_fun; [done|]. intros id Hid. rewrite Hg. apply last_choice_fun. rewrite Hk in Hid. by apply firsts_spec.
  - exists (mjoin reads), reruns. split_and!; [done..|].
    rewrite <- (list_filter_in (λ id, last_choice ((λ id, (id, choice id)) <$> ids) id = Some RERUN) (λ id, choice id = RERUN)); [done|].
    intros id Hid. rewrite last_choice_fun by done. split; congruence.
Qed.

Lemma recover_with choose choice root ids : (∀ id, rtraces (choose id) (λ r t, ∃ d, r = Ok d ∧ d = choice id ∧ Forall is_read t)) → tree_of root = Ok ids →
  rtraces (recover has_governor choose root) (λ r t, r = Ok ((λ id, (id, choice id)) <$> firsts ids) ∧ ∃ t', t = Walked root (Ok ids) :: t' ∧ recovered choice ids t').
Proof.
  intros Hc Ht. eapply traces_mono.
  { apply (recover_traces act_allow has_governor choose (λ id d t, d = choice id ∧ Forall is_read t) (λ x, x = tree_of root) root); [by intros log x Hx|exact Hc]. }
  intros r t (tree & t' & -> & _ & -> & H). rewrite Ht in *. destruct H as (plan & l & -> & Hp & Hw).
  destruct (walked_recovered choice ids l plan t' Hp Hw) as [-> Hrec]. split; [done|]. by exists t'.
Qed.

(** C18: [resume] and [rerun] decide for every node of the tree: a node is
    reused when its latest generation ended well and its record still has a
    result (and, for [rerun], it is not in the scope), and run again otherwise.
    They answer one decision for each node, in the order of first occurrence.
    After all decisions are taken, the nodes to run again are tried in the
    order of the tree, once for each time the tree names them (a task with two
    steps is named twice and so tried twice, see [started_twice]); a failure of
    one does not keep the others from it; a try reopens the node, and if that
    succeeded invalidates its exemptions (with a governor), makes its task
    anew, and, if that succeeded, executes it; no other node is touched.  This
    is for a tree that can be read, answers that do not change while they are
    read, and a recovery that is not cancelled. *)
Theorem recovery_spec root ids scope r log : tree_of root = Ok ids →
  (runs (logged act_allow) (resume reuse_words has_governor root) [] r log → forallb act_fine log = true →
     r = Ok ((λ id, (id, decision id)) <$> firsts ids) ∧ ∃ t, omap rec_noted log = Walked root (Ok ids) :: t ∧ recovered decision ids t) ∧
  (runs (logged act_allow) (rerun reuse_words has_governor root scope) [] r log → forallb act_fine log = true →
     r = Ok ((λ id, (id, forced scope id)) <$> firsts ids) ∧ ∃ t, omap rec_noted log = Walked root (Ok ids) :: t ∧ recovered (forced scope) ids t).
Proof.
  intros Ht. split; intros Hr Hf.
  - exact (traces_runs _ _ _ _ _ _ _ (recover_with (decide_node reuse_words) decision root ids decision_traces Ht) Hr Hf).
  - refine (traces_runs _ _ _ _ _ _ _ (recover_with _ (forced scope) root ids _ Ht) Hr Hf).
    intros id. unfold forced. destruct (decide (id ∈ scope)); [|apply decision_traces]. apply traces_ret. by exists RERUN.
Qed.

End RecoveryProofs.

(** ** The dispatcher: at most once *)

Definition ids_of (l : list string) : list (string * unit) := (λ id, (id, tt)) <$> l.

(** The ids that the window remembers after [prev], the latest first *)
Definition remembered (cap : nat) (prev : list string) : list string := take cap (dkeys (recent (reverse (ids_of prev)))).

(** The commands that are carried out, after those with the ids [prev] *)
Fixpoint executed (cap : nat) (prev : list string) (cs : list ActionCommand) : list ActionCommand :=
  match cs with
  | [] => []
  | c :: cs => (if decide (action_id c ∈ remembered cap prev) then [] else [c]) ++ executed cap (prev ++ [action_id c]) cs
  end.

Lemma mark_seen_lru cap id seen : (1 ≤ cap)%nat → (length seen ≤ cap)%nat → NoDup (dkeys seen) →
  _mark_seen cap id seen = (bool_decide (id ∈ dkeys seen), lru_put cap seen id tt).
Proof.
  intros Hcap Hlen Hnd. unfold _mark_seen, lru_put. destruct (dget seen id) as [[]|] eqn:E.
  - apply dget_elem in E as Hin. assert (id ∈ dkeys seen) as Hid by (apply list_elem_of_fmap; by exists (id, tt)).
    rewrite bool_decide_true by done. f_equal. pose proof (ddel_length seen id Hid). unfold to_end. rewrite length_app. simpl length.
    by rewrite (proj2 (Nat.ltb_ge _ _)) by lia.
  - apply dget_None in E. rewrite bool_decide_false by done. unfold to_end. by rewrite ddel_fresh.
Qed.

Lemma window_dkeys cap prev : (1 ≤ cap)%nat → dkeys (window cap (ids_of prev)) = reverse (remembered cap prev).
Proof. intros Hcap. rewrite window_recent by done. unfold dkeys, remembered. rewrite fmap_reverse. unfold dkeys. by rewrite fmap_take. Qed.

Lemma remembered_NoDup cap prev : NoDup (remembered cap prev).
Proof. unfold remembered. eapply sublist_NoDup; [|apply sublist_take]. apply recent_NoDup. Qed.

Lemma mark_seen_window cap prev id : (1 ≤ cap)%nat →
  _mark_seen cap id (window cap (ids_of prev)) = (bool_decide (id ∈ remembered cap prev), window cap (ids_of (prev ++ [id]))).
Proof.
  intros Hcap. assert (dkeys (window cap (ids_of prev)) = reverse (remembered cap prev)) as E by (by apply window_dkeys).
  rewrite mark_seen_lru; [|done| |].
  - rewrite E. f_equal; [by apply bool_decide_ext; rewrite elem_of_reverse|]. unfold ids_of. rewrite fmap_app. unfold window. by rewrite fold_left_app.
  - rewrite window_recent by done. rewrite length_reverse, length_take. lia.
  - rewrite E, reverse_Permutation. apply remembered_NoDup.
Qed.

Lemma elem_of_recent (l : list (string * unit)) k : k ∈ dkeys (recent l) ↔ k ∈ dkeys l.
Proof.
  induction l as [|[k' v'] l IH]; [done|]. change (k ∈ k' :: dkeys (ddel (recent l) k') ↔ k ∈ k' :: dkeys l). rewrite ddel_keys, !elem_of_cons, list_elem_of_filter, IH.
  destruct (decide (k = k')); naive_solver.
Qed.

Lemma remembered_all cap prev k : (size (list_to_set prev : gset string) ≤ cap)%nat → k ∈ remembered cap prev ↔ k ∈ prev.
Proof.
  intros Hsize. unfold remembered. assert (∀ x, x ∈ dkeys (recent (reverse (ids_of prev))) ↔ x ∈ prev) as Hin.
  { intros x. rewrite elem_of_recent. unfold dkeys, ids_of. rewrite fmap_reverse, elem_of_reverse, <- list_fmap_compose. by rewrite list_fmap_id. }
  rewrite take_ge; [apply Hin|]. pose proof (recent_NoDup (reverse (ids_of prev))) as Hnd.
  rewrite <- (size_list_to_set (C := gset string) (dkeys (recent (reverse (ids_of prev))))) by done.
  replace (list_to_set (dkeys (recent (reverse (ids_of prev)))) : gset string) with (list_to_set prev : gset string); [done|].
  apply set_eq. intros x. rewrite !elem_of_list_to_set. symmetry. apply Hin.
Qed.

Lemma executed_once cap prev cs : (size (list_to_set (prev ++ (action_id <$> cs)) : gset string) ≤ cap)%nat →
  NoDup (action_id <$> executed cap prev cs) ∧ (∀ id, id ∈ action_id <$> executed cap prev cs ↔ id ∈ action_id <$> cs ∧ id ∉ prev).
Proof.
  revert prev. induction cs as [|c cs IH]; intros prev Hsize; simpl; [split; [constructor|set_solver]|].
  assert (size (list_to_set prev : gset string) ≤ cap)%nat as Hp.
  { etransitivity; [|exact Hsize]. apply subseteq_size. rewrite list_to_set_app_L. set_solver. }
  destruct (IH (prev ++ [action_id c])) as [Hnd Hin]; [by rewrite <- app_assoc|]. pose proof (remembered_all cap prev (action_id c) Hp) as Hr.
  destruct (decide (action_id c ∈ remembered cap prev)) as [Hrem|Hrem]; simpl.
  - split; [done|]. intros id. rewrite Hin. set_solver.
  - split; [apply NoDup_cons; split; [rewrite Hin; set_solver|done]|].
    intros id. rewrite !elem_of_cons, Hin. destruct (decide (id = action_id c)); set_solver.
Qed.

Section DispatchProofs.

Context (allow : ∀ o, list (entry_of (ans := act_ans)) → act_ans o → Prop) (reuse_words : gset string) (has_governor has_receipts : bool) (str_exn : exn → string).

Notation dtraces := (traces allow rec_noted act_fine).

Lemma loop_traces cap prev cs : (1 ≤ cap)%nat →
  dtraces (dispatch_loop reuse_words has_governor has_receipts cap str_exn cs (window cap (ids_of prev)))
    (λ r t, r = Ok (window cap (ids_of (prev ++ (action_id <$> cs)))) ∧ ∃ ts, Forall2 (command_notes reuse_words has_governor has_receipts str_exn) (executed cap prev cs) ts ∧ t = mjoin ts).
Proof.
  intros Hcap. revert prev. induction cs as [|c cs IH]; intros prev; cbn [dispatch_loop executed fmap list_fmap].
  { apply traces_ret. rewrite app_nil_r. split; [done|]. by exists []. }
  assert (prev ++ action_id c :: (action_id <$> cs) = (prev ++ [action_id c]) ++ (action_id <$> cs)) as -> by (by rewrite <- app_assoc).
  unfold _execute. rewrite mark_seen_window by done. destruct (decide (action_id c ∈ remembered cap prev)) as [Hin|Hin].
  - rewrite bool_decide_true by done. eapply (traces_seq _ _ _ _ _ (λ r t, r = Ok (window cap (ids_of (prev ++ [action_id c]))) ∧ t = [])); [by apply traces_ret| |by intros ? ? [[=] _]].
    intros seen t [[= ->] ->]. apply IH.
  - rewrite bool_decide_false by done. eapply (traces_seq _ _ _ _ _ (λ r t, r = Ok (window cap (ids_of (prev ++ [action_id c]))) ∧ command_notes reuse_words has_governor has_receipts str_exn c t)); [| |by intros ? ? [[=] _]].
    { eapply traces_seq; [apply carry_out_traces| |by intros ? ? [[=] _]]. intros [] t [_ Ht]. apply traces_ret. by rewrite app_nil_r. }
    intros seen t [[= ->] Ht]. eapply traces_mono; [apply IH|]. intros r t' (-> & ts & Hts & ->). split; [done|]. exists (t :: ts). split; [by constructor|done].
Qed.

(** C17: commands are carried out at most once within the window of the
    dispatcher, as long as it is not cancelled ([stop] does that): a command is
    carried out exactly when its id is not among the [dedup_capacity] ids that
    were seen last, in the order of the queue, and a repeated command does
    nothing; when the queue carries at most [dedup_capacity] different ids, each
    of them is carried out exactly once.  What carrying out means: PAUSE
    cancels the target; RETRY without a root is rejected and touches nothing;
    RETRY reads the tree of the root and runs again every node of the command's
    scope (of the target, when there is none), and every other node that is
    not fit for reuse; RESUME reads the tree of the target and runs again the
    nodes that are not fit for reuse (the last status among the reuse words, and
    a result in the record).  Afterwards, whatever happened, there is one
    attempt to write its receipt, which says executed, rejected or failed, as it
    went, with the counts of the plan; a receipt that the queue does not take
    is lost. *)
Theorem dispatch_at_most_once cap cs r log : (1 ≤ cap)%nat →
  runs (logged allow) (dispatch_loop reuse_words has_governor has_receipts cap str_exn cs []) [] r log → forallb act_fine log = true →
  (∃ ts, Forall2 (command_notes reuse_words has_governor has_receipts str_exn) (executed cap [] cs) ts ∧ omap rec_noted log = mjoin ts) ∧
  ((size (list_to_set (action_id <$> cs) : gset string) ≤ cap)%nat →
     NoDup (action_id <$> executed cap [] cs) ∧ ∀ id, id ∈ action_id <$> executed cap [] cs ↔ id ∈ action_id <$> cs).
Proof.
  intros Hcap Hr Hf. split; [by destruct (traces_runs _ _ _ _ _ _ _ (loop_traces cap [] cs Hcap) Hr Hf) as [_ ?]|].
  intros Hsize. destruct (executed_once cap [] cs Hsize) as [Hnd Hin]. split; [done|]. intros id. rewrite Hin. set_solver.
Qed.

End DispatchProofs.

(** ** The wait for the previous generation *)

Definition slept (log : list (entry_of (ans := act_ans))) : nat :=
  length (omap (λ ev : entry_of (ans := act_ans), match projT1 ev with SleepFor _ => Some tt | _ => None end) log).

(** A clock that is at least at [t0] and that a sleep moves on by what was asked *)
Definition clocked (t0 : Z) (o : act_op) (log : list (entry_of (ans := act_ans))) : act_ans o → Prop :=
  match o return act_ans o → Prop with
  | Monotonic => λ now, (t0 + 20000 * Z.of_nat (slept log) ≤ now)%Z
  | SleepFor _ => λ x, x = Ok tt
  | _ => λ _, True
  end.

Lemma slept_snoc log o x : slept (log ++ [existT o x]) = (slept log + match o with SleepFor _ => 1 | _ => 0 end)%nat.
Proof. unfold slept. rewrite omap_app, length_app. f_equal. by destruct o. Qed.

Lemma drain_wp t0 fuel deadline id log : (deadline ≤ t0 + 20000 * (Z.of_nat (slept log) + Z.of_nat fuel))%Z →
  wp (logged (clocked t0)) (await_idle (S fuel) deadline id) log (λ r log', r = Ok true ∧ (slept log' ≤ slept log + fuel)%nat).
Proof.
  revert log. induction fuel as [|fuel IH]; intros log Hd; cbn [await_idle].
  - rewrite wp_bind, wp_perform. intros now log1 [-> Hnow]. simpl in Hnow. rewrite (proj2 (Z.ltb_ge _ _)) by lia.
    rewrite wp_ret, slept_snoc. split; [done|lia].
  - rewrite wp_bind, wp_perform. intros now log1 [-> Hnow]. destruct (now <? deadline)%Z.
    2: { rewrite wp_ret, slept_snoc. split; [done|lia]. }
    rewrite wp_bind, wp_perform. intros busy log2 [-> _]. destruct busy.
    2: { rewrite wp_ret, !slept_snoc. split; [done|lia]. }
    rewrite wp_seq. intros x log3 [-> Hx]. simpl in Hx. subst x. eapply (proj2 (wp_ret _ _ _ _)). cbv beta iota. eapply wp_mono; [apply IH; rewrite !slept_snoc; lia|].
    intros r log' [-> Hs]. rewrite !slept_snoc in Hs. split; [done|lia].
Qed.

(** Before a node is reopened, the wait for its previous generation ends:
    it asks for the state of the executor until that is idle or five seconds
    have passed, which takes at most 250 sleeps of 20 ms. *)
Theorem drain_ends id now log r log' :
  runs (logged (clocked (now - 20000 * Z.of_nat (slept log)))) (await_idle drain_fuel (now + 5000000) id) log r log' →
  r = Ok true ∧ (slept log' ≤ slept log + 250)%nat.
Proof.
  intros Hr. refine (proj1 (wp_runs _ _ _ (λ r log', r = Ok true ∧ (slept log' ≤ slept log + 250)%nat)) _ r log' Hr).
  apply drain_wp. lia.
Qed.

(** ** Receipts *)

(** The calls on the receipts of a queue *)
Inductive receipt_call := QWrite (id : string) (r : row) | QRead (id : string).

Definition receipt_step (q : MemoryActionQueue) (c : receipt_call) : MemoryActionQueue :=
  match c with QWrite id r => write_receipt id r q | QRead id => (get_receipt id q).2 end.

Definition written_ids (cs : list receipt_call) : list string := omap (λ c, match c with QWrite id _ => Some id | QRead _ => None end) cs.

(** The last receipt that was written for an id *)
Definition last_receipt (cs : list receipt_call) (id : string) : option row :=
  last (omap (λ c, match c with QWrite id' r => if decide (id' = id) then Some r else None | QRead _ => None end) cs).

Lemma dget_to_end {V} (d : list (string * V)) k v k' : dget (to_end d k v) k' = if decide (k = k') then Some v else dget d k'.
Proof.
  unfold to_end. induction d as [|[k2 v2] d IH]; [simpl; by destruct (decide (k = k'))|]. unfold ddel. rewrite filter_cons. simpl.
  destruct (decide (k2 ≠ k)) as [Hne|Heq].
  - simpl. destruct (decide (k2 = k')) as [->|]; [by rewrite decide_False by congruence|exact IH].
  - apply dec_stable in Heq. subst k2. etransitivity; [exact IH|]. by destruct (decide (k = k')).
Qed.

Lemma to_end_keys {V} (d : list (string * V)) k v : NoDup (dkeys d) → NoDup (dkeys (to_end d k v)) ∧ ∀ x, x ∈ dkeys (to_end d k v) ↔ x = k ∨ x ∈ dkeys d.
Proof.
  intros Hnd. assert (dkeys (to_end d k v) = filter (λ k', k' ≠ k) (dkeys d) ++ [k]) as ->.
  { unfold to_end. rewrite <- ddel_keys. unfold dkeys. by rewrite fmap_app. }
  split.
  - apply NoDup_app. split; [by apply NoDup_filter|]. split; [|apply NoDup_singleton]. by intros x [Hx _]%list_elem_of_filter ->%list_elem_of_singleton.
  - intros x. rewrite elem_of_app, list_elem_of_filter, list_elem_of_singleton. destruct (decide (x = k)); naive_solver.
Qed.

Lemma keys_bound {V} (d : list (string * V)) (l : list string) : NoDup (dkeys d) → (∀ x, x ∈ dkeys d → x ∈ l) → (length d ≤ size (list_to_set l : gset string))%nat.
Proof.
  intros Hnd Hin. transitivity (length (dkeys d)); [unfold dkeys; by rewrite length_fmap|]. rewrite <- (size_list_to_set (C := gset string)) by done.
  apply subseteq_size. intros x. rewrite !elem_of_list_to_set. apply Hin.
Qed.

(** What a queue that has room for every id holds after the calls [cs] *)
Definition holds_receipts (cap : nat) (cs : list receipt_call) (q : MemoryActionQueue) : Prop :=
  q_max_receipts q = cap ∧ NoDup (dkeys (q_receipts q)) ∧ (∀ x, x ∈ dkeys (q_receipts q) → x ∈ written_ids cs) ∧
  ∀ id, dget (q_receipts q) id = last_receipt cs id.

Lemma receipt_step_holds cap cs c q : (size (list_to_set (written_ids (cs ++ [c])) : gset string) ≤ cap)%nat →
  holds_receipts cap cs q → holds_receipts cap (cs ++ [c]) (receipt_step q c).
Proof.
  intros Hcap (Hmax & Hnd & Hin & Hget). unfold holds_receipts, last_receipt, written_ids in *. rewrite omap_app in *. setoid_rewrite omap_app.
  destruct c as [id r|id]; simpl in *.
  - unfold lru_put. destruct (to_end_keys (q_receipts q) id r Hnd) as [Hnd' Hkeys].
    assert (∀ x, x ∈ dkeys (to_end (q_receipts q) id r) → x ∈ omap (λ c, match c with QWrite id _ => Some id | QRead _ => None end) cs ++ [id]) as Hin'.
    { intros x. rewrite Hkeys, elem_of_app, list_elem_of_singleton. intros [->|Hx]; [by right|left; by apply Hin]. }
    pose proof (keys_bound _ _ Hnd' Hin'). rewrite (proj2 (Nat.ltb_ge _ _)) by lia. split_and!; [done..|].
    intros x. rewrite dget_to_end. simpl. destruct (decide (id = x)); [by rewrite last_snoc|]. by rewrite app_nil_r.
  - rewrite app_nil_r. unfold get_receipt. destruct (dget (q_receipts q) id) as [r|] eqn:E; simpl.
    + destruct (to_end_keys (q_receipts q) id r Hnd) as [Hnd' Hkeys]. split_and!; [done..| |].
      * intros x. rewrite Hkeys. intros [->|Hx]; [|by apply Hin]. apply Hin. apply dget_elem in E. apply list_elem_of_fmap. by exists (id, r).
      * intros x. rewrite dget_to_end, app_nil_r. destruct (decide (id = x)) as [<-|]; [|done]. by rewrite <- Hget.
    + split_and!; [done..|]. intros x. by rewrite app_nil_r.
Qed.

(** As long as the ids with a receipt fit into the queue, reading a
    receipt is exact, however reads and writes are interleaved: it answers
    the last receipt that was written for the id, and none when there was none. *)
Theorem receipts_exact cap cs id : (size (list_to_set (written_ids cs) : gset string) ≤ cap)%nat →
  (get_receipt id (fold_left receipt_step cs {| q_commands := []; q_max_receipts := cap; q_receipts := [] |})).1 = last_receipt cs id.
Proof.
  intros Hcap. assert (holds_receipts cap cs (fold_left receipt_step cs {| q_commands := []; q_max_receipts := cap; q_receipts := [] |})) as (_ & _ & _ & Hget).
  { induction cs as [|c cs IH] using rev_ind; [split_and!; [done|constructor|by intros ? ?%elem_of_nil|done]|].
    rewrite fold_left_app. apply receipt_step_holds; [done|]. apply IH. etransitivity; [|exact Hcap]. apply subseteq_size.
    unfold written_ids. rewrite omap_app, list_to_set_app_L. set_solver. }
  rewrite <- Hget. unfold get_receipt. by destruct (dget _ id).
Qed.

(** ** Submission *)

(** An action that is submitted is answered by a receipt with a new id,
    and it is accepted exactly when its command, under that id, could be put into
    the queue; only an accepted command is audited, under the same id, and a
    failure of the audit changes nothing. *)
Theorem submit_spec allow audit str_exn ty target root scope actor params r log :
  runs (logged allow) (_submit audit str_exn ty target root scope actor params) [] r log →
  forallb act_fine log = true →
  ∃ id now x, let c := {| action_id := id; action_type := ty; target_task_id := target; root_task_id := root; scope := scope;
                        actor := actor; created_at := now; params := default ∅ params |} in
    log = [existT NewActionId id; existT Now now; existT (Enqueue c) x] ++ drop 3 log ∧
    match x with
    | Ok _ => r = Ok {| accepted := true; receipt_action_id := id; receipt_detail := ""%string |} ∧
              if audit then ∃ payload y, drop 3 log = [existT (AuditAppend id target ("action_" +:+ action_type_value ty)%string payload) y] else drop 3 log = []
    | Err e => r = Ok {| accepted := false; receipt_action_id := id; receipt_detail := str_exn e |} ∧ drop 3 log = []
    end.
Proof.
  intros Hr Hf. revert Hf. refine (proj1 (wp_runs _ _ _ (λ r log, forallb act_fine log = true → _)) _ r log Hr). clear Hr r log.
  unfold _submit. rewrite wp_bind, wp_perform. intros id ? [-> _]. rewrite wp_bind, wp_perform. intros now ? [-> _].
  unfold except_exception. wp_call. intros x ? [-> _]. simpl app.
  destruct x as [[]|e].
  - wp_simp. destruct audit.
    + wp_call. intros y ? [-> _]. destruct y as [[]|e]; wp_simp.
      * intros _. exists id, now, (Ok tt). split_and!; [done..|]. by eexists _, (Ok tt).
      * destruct (is_exception e) eqn:He; wp_simp.
        -- intros _. exists id, now, (Ok tt). split_and!; [done..|]. by eexists _, (Err e).
        -- unfold is_exception in He. apply bool_decide_eq_false, dec_stable in He. by subst e.
    + wp_simp. intros _. by exists id, now, (Ok tt).
  - destruct (is_exception e) eqn:He; wp_simp.
    + intros _. by exists id, now, (Err e).
    + unfold is_exception in He. apply bool_decide_eq_false, dec_stable in He. by subst e.
Qed.

Module ActionsWitness.

Local Open Scope string_scope.

(** A tree of three nodes: [a] is done and has its result, [b] failed, the
    result of [c] is gone. *)
Definition snapshot0 (id : string) : res exn (option string) := Ok (Some (if decide (id = "b") then "failed" else "success")).
Definition record0 (id : string) : res exn row := Ok (if decide (id = "a") then {[ "result" := JNull ]} else ∅).
Definition tree0 (root : string) : res exn (list string) := if decide (root = "root") then Ok ["a"; "b"; "c"] else Err KeyError.

(** The state of the executor is [busy], one node cannot be reopened. *)
Definition answers (busy : bool) (o : act_op) (log : list (entry_of (ans := act_ans))) : act_ans o :=
  match o with
  | NewActionId => "act-1"
  | Now => 0%Z
  | Monotonic => (20000 * Z.of_nat (slept log))%Z
  | IsBusy _ => busy
  | ReaderGet id _ => snapshot0 id
  | GetTask id => record0 id
  | ReaderTree root => tree0 root
  | ReopenTask id => if decide (id = "b") then Err (Other "TaskNotFound") else Ok tt
  | OrchestratorCancel _ => Ok true
  | StartExecute _ => tt
  | _ => Ok tt
  end.

Definition play_with {A} (busy : bool) (p : prog act_ans A) : A * list (entry_of (ans := act_ans)) := play (scripted (answers busy)) p [].

Lemma allowed0 o log : act_allow snapshot0 record0 tree0 o log (answers false o log).
Proof. by destruct o. Qed.

Definition the_resume : res exn (list (string * ReuseDecision)) * list (entry_of (ans := act_ans)) := play_with false (resume {["success"]} true "root").
Definition the_rerun : res exn (list (string * ReuseDecision)) * list (entry_of (ans := act_ans)) := play_with false (rerun {["success"]} true "root" ["a"]).

Example resumed : omap rec_noted the_resume.2 =
  [Walked "root" (Ok ["a"; "b"; "c"]); Asked "a" "execute" (snapshot0 "a"); Fetched "a" (record0 "a"); Asked "b" "execute" (snapshot0 "b");
   Asked "c" "execute" (snapshot0 "c"); Fetched "c" (record0 "c"); Tried "b" false; Tried "c" true; Invalidated "c"; Made "c" true; Executed "c"].
Proof. by vm_compute. Qed.

Lemma recovery_witness :
  (the_resume.1 = Ok [("a", REUSE); ("b", RERUN); ("c", RERUN)] ∧ ∃ t, omap rec_noted the_resume.2 = Walked "root" (Ok ["a"; "b"; "c"]) :: t ∧ recovered true (decision {["success"]} snapshot0 record0) ["a"; "b"; "c"] t) ∧
  (the_rerun.1 = Ok [("a", RERUN); ("b", RERUN); ("c", RERUN)] ∧ ∃ t, omap rec_noted the_rerun.2 = Walked "root" (Ok ["a"; "b"; "c"]) :: t ∧ recovered true (forced {["success"]} snapshot0 record0 ["a"]) ["a"; "b"; "c"] t).
Proof.
  assert (tree0 "root" = Ok ["a"; "b"; "c"]) as Ht by done. split.
  - refine (proj1 (recovery_spec {["success"]} true snapshot0 record0 tree0 "root" ["a"; "b"; "c"] [] the_resume.1 the_resume.2 Ht) _ _);
      [apply scripted_runs, allowed0|by vm_compute].
  - refine (proj2 (recovery_spec {["success"]} true snapshot0 record0 tree0 "root" ["a"; "b"; "c"] ["a"] the_rerun.1 the_rerun.2 Ht) _ _);
      [apply scripted_runs, allowed0|by vm_compute].
Defined.

(** A node with two steps is twice in its tree, and is started twice. *)
Definition two_steps (o : act_op) (log : list (entry_of (ans := act_ans))) : act_ans o :=
  match o return act_ans o with ReaderTree _ => Ok ["c"; "c"] | o => answers false o log end.

Example started_twice :
  drop 5 (omap rec_noted (play (scripted two_steps) (resume {["success"]} true "root") []).2) =
    [Tried "c" true; Invalidated "c"; Made "c" true; Executed "c"; Tried "c" true; Invalidated "c"; Made "c" true; Executed "c"].
Proof. by vm_compute. Qed.

Definition command (id : string) (ty : ActionType) (target : string) : ActionCommand :=
  {| action_id := id; action_type := ty; target_task_id := target; root_task_id := Some "root"; scope := []; actor := ""; created_at := 0%Z; params := ∅ |}.
Definition commands0 : list ActionCommand := [command "1" PAUSE "a"; command "2" RETRY "c"; command "1" PAUSE "a"; command "3" RESUME "nowhere"].
Definition show (e : exn) : string := "error".
Definition the_loop : res exn (list (string * unit)) * list (entry_of (ans := act_ans)) :=
  play_with false (dispatch_loop {["success"]} true true 3 show commands0 []).

Lemma dispatch_witness :
  (∃ ts, Forall2 (command_notes {["success"]} true true show) [command "1" PAUSE "a"; command "2" RETRY "c"; command "3" RESUME "nowhere"] ts ∧ omap rec_noted the_loop.2 = mjoin ts) ∧
  (NoDup (action_id <$> executed 3 [] commands0) ∧ ∀ id, id ∈ action_id <$> executed 3 [] commands0 ↔ id ∈ action_id <$> commands0).
Proof.
  assert (1 ≤ 3)%nat as Hcap by lia.
  destruct (dispatch_at_most_once (λ _ _ _, True) {["success"]} true true show 3 commands0 the_loop.1 the_loop.2 Hcap) as [Hw Honce];
    [by apply scripted_runs|by vm_compute|]. split; [exact Hw|apply Honce; apply (bool_decide_unpack _); by vm_compute].
Defined.

(** With a window of one, the repeated command is carried out again. *)
Example forgotten : action_id <$> executed 1 [] commands0 = ["1"; "2"; "1"; "3"].
Proof. by vm_compute. Qed.

Definition the_wait : res exn bool * list (entry_of (ans := act_ans)) := play_with true (await_idle drain_fuel (0 + 5000000) "a").

Lemma drain_witness : the_wait.1 = Ok true ∧ (slept the_wait.2 ≤ 250)%nat.
Proof.
  apply (drain_ends "a" 0 [] the_wait.1 the_wait.2). apply scripted_runs. intros [] log; first [done | simpl; lia].
Defined.

Example waits : slept the_wait.2 = 250.
Proof. by vm_compute. Qed.

Definition r_ (s : string) : row := {[ "status" := JStr s ]}.
Definition calls0 : list receipt_call := [QWrite "1" (r_ "executed"); QWrite "2" (r_ "failed"); QRead "1"; QWrite "2" (r_ "executed")].

Lemma receipts_witness :
  (get_receipt "2" (fold_left receipt_step calls0 {| q_commands := []; q_max_receipts := 2; q_receipts := [] |})).1 = Some (r_ "executed").
Proof. apply (receipts_exact 2 calls0 "2"). apply (bool_decide_unpack _). by vm_compute. Defined.

Definition the_submission : res exn ActionReceipt * list (entry_of (ans := act_ans)) := play_with false (retry_node true show "b" "root" "user").

Lemma submission_witness : ∃ id now x, let c := {| action_id := id; action_type := RETRY; target_task_id := "b"; root_task_id := Some "root"; scope := ["b"];
                        actor := "user"; created_at := now; params := ∅ |} in
    the_submission.2 = ([existT NewActionId id; existT Now now; existT (Enqueue c) x] ++ drop 3 the_submission.2)%list ∧
    match x with
    | Ok _ => the_submission.1 = Ok {| accepted := true; receipt_action_id := id; receipt_detail := "" |} ∧
              ∃ payload y, drop 3 the_submission.2 = [existT (AuditAppend id "b" "action_retry" payload) y]
    | Err e => the_submission.1 = Ok {| accepted := false; receipt_action_id := id; receipt_detail := show e |} ∧ drop 3 the_submission.2 = []
    end.
Proof.
  apply (submit_spec (λ _ _ _, True) true show RETRY "b" (Some "root") ["b"] "user" None the_submission.1 the_submission.2); [by apply scripted_runs|by vm_compute].
Defined.

End ActionsWitness.
