(* ===== verification/DepTools.v ===== *)
(** * Offline tools of the dependency governance

    flow/governance/tools.py: the search of the whole dependency graph for
    cycles, and the reconstruction of the counters from the cold store. *)
From Stdlib Require Import ZArith Lia.
From stdpp Require Import prelude gmap list strings relations.
From S2P Require Import Prelude Mechanism Redis TaskDb Effects TaskStorage Lifecycle RefStore Governance.
Local Open Scope list_scope.

(** ** scan_dependency_cycles *)

(** [children.setdefault(edge.child_id, []).append(edge.parent_id)] *)
Definition add_parent (d : list (string * list string)) (e : DependencyEdge) : list (string * list string) :=
  dset d (de_child_id e) (default [] (dget d (de_child_id e)) ++ [de_parent_id e]).

Definition parents_by_child (edges : list DependencyEdge) : list (string * list string) := fold_left add_parent edges [].

Definition edge_nodes (edges : list DependencyEdge) : gset string := list_to_set (edges ≫= λ e, [de_child_id e; de_parent_id e]).

Record scan_state := { cycles : list (list string); seen_cycles : list (list string); visited : gset string; in_stack : gset string }.

(** A frame: the node, the path to it, the parents its iterator still has *)
Definition frame : Type := string * list string * list string.

(** [path[path.index(parent):]]; [None]: ValueError *)
Fixpoint path_from (parent : string) (path : list string) : option (list string) :=
  match path with
  | [] => None
  | x :: path' => if decide (x = parent) then Some path else path_from parent path'
  end.

Definition record_cycle (cycle : list string) (st : scan_state) : scan_state :=
  let canonical := sorted_strings (elements (list_to_set cycle : gset string)) in
  if decide (canonical ∈ seen_cycles st) then st
  else {| cycles := cycles st ++ [cycle]; seen_cycles := canonical :: seen_cycles st; visited := visited st; in_stack := in_stack st |}.

(** The loop over the iterator of the top frame: the parent it enters, with
    what the iterator has left *)
Fixpoint advance (path : list string) (parents : list string) (st : scan_state) : option (option (string * list string) * scan_state) :=
  match parents with
  | [] => Some (None, st)
  | p :: parents =>
      if decide (p ∈ in_stack st) then
        c ← path_from p path;
        advance path parents (record_cycle (c ++ [p]) st)
      else if decide (p ∈ visited st) then advance path parents st
      else Some (Some (p, parents), {| cycles := cycles st; seen_cycles := seen_cycles st; visited := visited st; in_stack := {[p]} ∪ in_stack st |})
  end.

Definition scan_step (children : list (string * list string)) (top : frame) (stack : list frame) (st : scan_state) : option (list frame * scan_state) :=
  let '(node, path, parents) := top in
  x ← advance path parents st;
  Some (match x.1 with
        | Some (p, rest) => ((p, path ++ [p], default [] (dget children p)) :: (node, path, rest) :: stack, x.2)
        | None => (stack, {| cycles := cycles x.2; seen_cycles := seen_cycles x.2; visited := {[node]} ∪ visited x.2; in_stack := in_stack x.2 ∖ {[node]} |})
        end).

Fixpoint scan_loop (children : list (string * list string)) (fuel : nat) (stack : list frame) (st : scan_state) : option scan_state :=
  match stack with
  | [] => Some st
  | top :: stack =>
      match fuel with
      | O => None
      | S fuel => x ← scan_step children top stack st; scan_loop children fuel x.1 x.2
      end
  end.

(** Every node is entered and left at most once. *)
Definition scan_fuel (nodes : gset string) : nat := 2 * size nodes.

Fixpoint scan_roots (children : list (string * list string)) (fuel : nat) (roots : list string) (st : scan_state) : option scan_state :=
  match roots with
  | [] => Some st
  | root :: roots =>
      if decide (root ∈ visited st) then scan_roots children fuel roots st
      else
        st ← scan_loop children fuel [(root, [root], default [] (dget children root))]
               {| cycles := cycles st; seen_cycles := seen_cycles st; visited := visited st; in_stack := {[root]} ∪ in_stack st |};
        scan_roots children fuel roots st
  end.

(** [None]: out of fuel, or an exception *)
Definition scan_dependency_cycles (edges : list DependencyEdge) : option (list (list string)) :=
  cycles <$> scan_roots (parents_by_child edges) (scan_fuel (edge_nodes edges)) (sorted_strings (elements (edge_nodes edges)))
    {| cycles := []; seen_cycles := []; visited := ∅; in_stack := ∅ |}.

(** *** What is a cycle *)

Section Scan.

Context (edges : list DependencyEdge).

(** [x] waits for [y]. *)
Definition waits (x y : string) : Prop := ∃ e, e ∈ edges ∧ de_child_id e = x ∧ de_parent_id e = y.

Fixpoint chain (l : list string) : Prop :=
  match l with
  | x :: (y :: _) as l' => waits x y ∧ chain l'
  | _ => True
  end.

Definition is_cycle (c : list string) : Prop := chain c ∧ ∃ x l, c = x :: l ++ [x].

Lemma parents_by_child_get l x :
  default [] (dget (fold_left add_parent l []) x) = de_parent_id <$> filter (λ e, de_child_id e = x) l.
Proof.
  induction l as [|e l IH] using rev_ind; [done|]. rewrite fold_left_app, filter_app, fmap_app, <- IH. cbn [fold_left]. unfold add_parent at 1.
  rewrite dget_dset, filter_cons, filter_nil. destruct (decide (de_child_id e = x)) as [->|]; simpl; [done|by rewrite app_nil_r].
Qed.

Lemma elem_of_parents x y : y ∈ default [] (dget (parents_by_child edges) x) ↔ waits x y.
Proof.
  unfold parents_by_child. rewrite parents_by_child_get, list_elem_of_fmap. unfold waits. split.
  - intros (e & -> & [? ?]%list_elem_of_filter). by exists e.
  - intros (e & ? & ? & <-). exists e. split; [done|]. by apply list_elem_of_filter.
Qed.

Lemma waits_nodes x y : waits x y → x ∈ edge_nodes edges ∧ y ∈ edge_nodes edges.
Proof.
  intros (e & He & <- & <-). unfold edge_nodes. rewrite !elem_of_list_to_set. split; apply list_elem_of_bind; exists e; (split; [set_solver|done]).
Qed.

Lemma chain_app l1 x l2 : chain (l1 ++ x :: l2) ↔ chain (l1 ++ [x]) ∧ chain (x :: l2).
Proof.
  induction l1 as [|a l1 IH]; [simpl; by tauto|]. destruct l1 as [|b l1]; [simpl; by tauto|].
  change (waits a b ∧ chain ((b :: l1) ++ x :: l2) ↔ (waits a b ∧ chain ((b :: l1) ++ [x])) ∧ chain (x :: l2)). rewrite IH. tauto.
Qed.

Lemma path_from_elem p path : p ∈ path → ∃ l1 l2, path = l1 ++ p :: l2 ∧ path_from p path = Some (p :: l2).
Proof.
  induction path as [|x path IH]; [by intros ?%elem_of_nil|]. intros Hp. simpl. destruct (decide (x = p)) as [->|Hne].
  - by exists [], path.
  - apply elem_of_cons in Hp as [->|Hp]; [done|]. destruct (IH Hp) as (l1 & l2 & -> & ->). by exists (x :: l1), l2.
Qed.

(** *** The search *)

Definition covered (C : list (list string)) (x y : string) : Prop := ∃ c, c ∈ C ∧ x ∈ c ∧ y ∈ c.

(** [fin]: the nodes that were left, the last one first; what a node waits
    for was left before it, or a cycle goes through both. *)
Fixpoint ordered (C : list (list string)) (fin : list string) : Prop :=
  match fin with
  | [] => True
  | x :: fin => x ∉ fin ∧ (∀ y, waits x y → y ∈ fin ∨ covered C x y) ∧ ordered C fin
  end.

Definition canonical (c : list string) : list string := sorted_strings (elements (list_to_set c : gset string)).

(** The cycles found so far are cycles, and no two have the same nodes. *)
Definition found (st : scan_state) : Prop :=
  Forall is_cycle (cycles st) ∧ NoDup (canonical <$> cycles st) ∧ ∀ k, k ∈ seen_cycles st ↔ k ∈ canonical <$> cycles st.

Definition nodes_of (stack : list frame) : list string := (λ f : frame, f.1.1) <$> stack.

(** The frames of the stack, below the node [above] *)
Fixpoint stack_ok (C : list (list string)) (fin : list string) (above : option string) (stack : list frame) : Prop :=
  match stack with
  | [] => True
  | (node, path, parents) :: rest =>
      path = reverse (node :: nodes_of rest) ∧
      (∀ y, y ∈ parents → waits node y) ∧
      (∀ y, waits node y → y ∈ parents ∨ above = Some y ∨ y ∈ fin ∨ covered C node y) ∧
      (∀ f, head rest = Some f → waits f.1.1 node) ∧
      stack_ok C fin (Some node) rest
  end.

Record scanning (stack : list frame) (fin : list string) (st : scan_state) : Prop := {
  sc_stack : in_stack st = list_to_set (nodes_of stack);
  sc_once : NoDup (nodes_of stack ++ fin);
  sc_known : ∀ x, x ∈ nodes_of stack ++ fin → x ∈ edge_nodes edges;
  sc_visited : visited st = list_to_set fin;
  sc_ordered : ordered (cycles st) fin;
  sc_frames : stack_ok (cycles st) fin None stack;
  sc_found : found st
}.

Lemma covered_mono C C' x y : (∀ c, c ∈ C → c ∈ C') → covered C x y → covered C' x y.
Proof. intros HC (c & Hc & Hx & Hy). exists c. auto. Qed.

Lemma ordered_mono C C' fin : (∀ c, c ∈ C → c ∈ C') → ordered C fin → ordered C' fin.
Proof.
  intros HC. induction fin as [|x fin IH]; [done|]. intros (Hx & Hy & Hfin). split_and!; [done| |by apply IH].
  intros y Hw. destruct (Hy y Hw); [by left|right; by eapply covered_mono].
Qed.

(** The stack stays well-formed as cycles are found and nodes are left. *)
Lemma stack_ok_mono C C' fin fin' above above' stack : (∀ c, c ∈ C → c ∈ C') → (∀ x, x ∈ fin → x ∈ fin') →
  (∀ x, above = Some x → above' = Some x ∨ x ∈ fin') → stack_ok C fin above stack → stack_ok C' fin' above' stack.
Proof.
  intros HC Hfin. revert above above'. induction stack as [|[[node path] parents] rest IH]; intros above above' Ha; [done|].
  intros (-> & Hp & Hw & Hh & Hr). split_and!; [done|done| |done|eapply IH; [|exact Hr]; auto].
  intros y Hy. destruct (Hw y Hy) as [?|[?|[?|?]]]; [by left|destruct (Ha y); auto|auto|]. right; right; right. by eapply covered_mono.
Qed.

Lemma stack_chain C fin above stack : stack_ok C fin above stack → chain (reverse (nodes_of stack)).
Proof.
  revert above. induction stack as [|[[node path] parents] rest IH]; intros above; [done|]. intros (_ & _ & _ & Hh & Hr). specialize (IH _ Hr).
  simpl. rewrite reverse_cons. destruct rest as [|[[node' path'] parents'] rest]; [done|]. simpl in *. rewrite reverse_cons in *. rewrite <- app_assoc. simpl.
  rewrite chain_app. split; [done|]. simpl. split; [|done]. exact (Hh _ eq_refl).
Qed.

Lemma record_cycle_found c st : is_cycle c → found st →
  found (record_cycle c st) ∧ visited (record_cycle c st) = visited st ∧ in_stack (record_cycle c st) = in_stack st ∧
  (∀ c', c' ∈ cycles st → c' ∈ cycles (record_cycle c st)) ∧ ∃ c', c' ∈ cycles (record_cycle c st) ∧ ∀ x, x ∈ c → x ∈ c'.
Proof.
  intros Hc (Hall & Hnd & Hseen). unfold record_cycle. fold (canonical c). destruct (decide (canonical c ∈ seen_cycles st)) as [Hin|Hin].
  - split_and!; [done..|]. apply Hseen in Hin. apply list_elem_of_fmap in Hin as (c' & E & Hc'). exists c'. split; [done|]. intros x Hx.
    assert (x ∈ canonical c) as Hx' by (unfold canonical, sorted_strings; rewrite elem_of_isort, elem_of_elements, elem_of_list_to_set; done).
    rewrite E in Hx'. unfold canonical, sorted_strings in Hx'. by rewrite elem_of_isort, elem_of_elements, elem_of_list_to_set in Hx'.
  - rewrite Hseen in Hin. unfold found. simpl. split_and!; try done.
    + apply Forall_app. split; [done|by constructor].
    + rewrite fmap_app. apply NoDup_app. split_and!; [done| |apply NoDup_singleton]. by intros k Hk ->%list_elem_of_singleton.
    + intros k. rewrite elem_of_cons, Hseen, fmap_app, elem_of_app. simpl. rewrite list_elem_of_singleton. tauto.
    + intros c' Hc'. apply elem_of_app. by left.
    + exists c. split; [|done]. apply elem_of_app. right. by apply list_elem_of_singleton.
Qed.

(** The cycle that an edge back into the stack closes *)
Lemma closes C fin above node path parents rest p c : stack_ok C fin above ((node, path, parents) :: rest) → waits node p →
  path_from p path = Some c → p ∈ path → is_cycle (c ++ [p]) ∧ node ∈ c ++ [p] ∧ p ∈ c ++ [p].
Proof.
  intros Hs Hw Hc Hp. pose proof (stack_chain _ _ _ _ Hs) as Hchain. destruct Hs as (Hpath & _). change (nodes_of ((node, path, parents) :: rest)) with (node :: nodes_of rest) in Hchain.
  rewrite <- Hpath in Hchain. destruct (path_from_elem p path Hp) as (l1 & l2 & E & E'). rewrite E' in Hc. injection Hc as <-.
  rewrite E, chain_app in Hchain. destruct Hchain as [_ Hchain]. rewrite reverse_cons in Hpath. rewrite Hpath in E.
  assert (∃ l, p :: l2 = l ++ [node]) as [l El].
  { destruct l2 as [|z l2 _] using rev_ind.
    - apply app_inj_tail in E as [_ ->]. by exists [].
    - rewrite app_comm_cons, app_assoc in E. apply app_inj_tail in E as [_ ->]. by exists (p :: l2). }
  split_and!.
  - split; [|by exists p, l2]. rewrite El, <- app_assoc. simpl. rewrite chain_app, <- El. split; [done|by split].
  - rewrite El. set_solver.
  - set_solver.
Qed.

Definition left_behind (C : list (list string)) (fin : list string) (x y : string) : Prop := y ∈ fin ∨ covered C x y.

Lemma advance_ok fin node path parents0 rest parents st C0 above : (∀ y, y ∈ parents → waits node y) →
  stack_ok C0 fin above ((node, path, parents0) :: rest) →
  in_stack st = list_to_set (node :: nodes_of rest) → visited st = list_to_set fin → found st →
  ∃ o st', advance path parents st = Some (o, st') ∧ found st' ∧ visited st' = visited st ∧ (∀ c, c ∈ cycles st → c ∈ cycles st') ∧
    match o with
    | None => in_stack st' = in_stack st ∧ ∀ y, y ∈ parents → left_behind (cycles st') fin node y
    | Some (p, more) => in_stack st' = {[p]} ∪ in_stack st ∧ p ∉ in_stack st ∧ p ∉ fin ∧
        ∃ done, parents = done ++ p :: more ∧ ∀ y, y ∈ done → left_behind (cycles st') fin node y
    end.
Proof.
  intros Hw Hs. revert st. induction parents as [|p parents IH]; intros st Hst Hv Hf; cbn [advance].
  { exists None, st. split_and!; try done. by intros y ?%elem_of_nil. }
  assert (Hw' : ∀ y, y ∈ parents → waits node y) by (intros y Hy; apply Hw; by right). specialize (IH Hw').
  destruct (decide (p ∈ in_stack st)) as [Hin|Hin].
  - assert (p ∈ path) as Hpath by (destruct Hs as (-> & _); rewrite elem_of_reverse; rewrite Hst, elem_of_list_to_set in Hin; done).
    destruct (path_from_elem p path Hpath) as (l1 & l2 & _ & Ec). rewrite Ec. cbn [mbind option_bind]. change (advance path parents (record_cycle (p :: l2 ++ [p]) st)) with (advance path parents (record_cycle ((p :: l2) ++ [p]) st)).
    destruct (closes _ _ _ _ _ _ _ p _ Hs (Hw p ltac:(by left)) Ec Hpath) as (Hc & Hnc & Hpc).
    destruct (record_cycle_found _ st Hc Hf) as (Hf1 & Hv1 & Hs1 & Hmono1 & c' & Hc' & Hcov).
    destruct (IH (record_cycle ((p :: l2) ++ [p]) st)) as (o & st' & -> & Hf2 & Hv2 & Hmono2 & Ho); [congruence|congruence|done|].
    exists o, st'. split_and!; [done|done|congruence|by auto|]. assert (covered (cycles st') node p) as Hcv by (exists c'; split_and!; auto).
    destruct o as [[q more]|]; [destruct Ho as (E & Hq & Hqf & done & -> & Hdone)|destruct Ho as [E Hdone]].
    + rewrite Hs1 in *. split_and!; [done..|]. exists (p :: done). split; [done|]. intros y [->|Hy]%elem_of_cons; [by right|by apply Hdone].
    + split; [congruence|]. intros y [->|Hy]%elem_of_cons; [by right|by apply Hdone].
  - destruct (decide (p ∈ visited st)) as [Hvis|Hvis].
    + destruct (IH st Hst Hv Hf) as (o & st' & -> & Hf2 & Hv2 & Hmono2 & Ho). exists o, st'. split_and!; try done.
      assert (p ∈ fin) as Hpf by (by rewrite Hv, elem_of_list_to_set in Hvis).
      destruct o as [[q more]|]; [destruct Ho as (E & Hq & Hqf & done & -> & Hdone)|destruct Ho as [E Hdone]].
      * split_and!; [done..|]. exists (p :: done). split; [done|]. intros y [->|Hy]%elem_of_cons; [by left|by apply Hdone].
      * split; [done|]. intros y [->|Hy]%elem_of_cons; [by left|by apply Hdone].
    + eexists (Some (p, parents)), _. split; [done|]. simpl. split_and!; try done.
      * by rewrite Hv, elem_of_list_to_set in Hvis.
      * exists []. split; [done|]. by intros y ?%elem_of_nil.
Qed.

(** Twice the nodes not yet entered, and those to leave *)
Definition work (stack : list frame) (fin : list string) : nat := 2 * (size (edge_nodes edges) - length (nodes_of stack ++ fin)) + length stack.

Lemma known_length stack fin st : scanning stack fin st → (length (nodes_of stack ++ fin) ≤ size (edge_nodes edges))%nat.
Proof.
  intros []. rewrite <- (size_list_to_set (C := gset string)) by done. apply subseteq_size. intros x. rewrite elem_of_list_to_set. auto.
Qed.

Lemma scan_step_ok node path parents stack fin st : scanning ((node, path, parents) :: stack) fin st →
  ∃ stack' st' fin', scan_step (parents_by_child edges) (node, path, parents) stack st = Some (stack', st') ∧ scanning stack' fin' st' ∧
    (work stack' fin' < work ((node, path, parents) :: stack) fin)%nat ∧ ∀ x, x ∈ nodes_of ((node, path, parents) :: stack) ++ fin → x ∈ nodes_of stack' ++ fin'.
Proof.
  intros Hsc. pose proof (known_length _ _ _ Hsc) as Hlen. destruct Hsc as [Hst Hnd Hkn Hv Ho Hs Hf].
  destruct (Hs) as (Hpath & Hps & Hws & Hh & Hrest).
  destruct (advance_ok fin node path parents stack parents st (cycles st) None Hps Hs Hst Hv Hf) as (o & st' & Ea & Hf' & Hv' & Hmono & Hres).
  unfold scan_step. rewrite Ea. cbn [mbind option_bind fst snd]. destruct o as [[p more]|].
  - destruct Hres as (Hst' & Hp & Hpf & done & -> & Hdone). assert (waits node p) as Hwp by (apply Hps; set_solver).
    eexists _, st', fin. split; [done|]. rewrite Hst, elem_of_list_to_set in Hp. change (nodes_of ((node, path, done ++ p :: more) :: stack)) with (node :: nodes_of stack) in *.
    assert (p ∉ (node :: nodes_of stack) ++ fin) as Hfresh by (rewrite elem_of_app; tauto).
    split; [constructor; simpl|split].
    + rewrite Hst', Hst. done.
    + by apply NoDup_cons.
    + intros x [->|Hx]%elem_of_cons; [by apply (waits_nodes node)|by apply Hkn].
    + congruence.
    + by eapply ordered_mono.
    + split_and!.
      * rewrite Hpath. by rewrite (reverse_cons (node :: nodes_of stack) p).
      * intros y. by rewrite elem_of_parents.
      * intros y Hy. left. by rewrite elem_of_parents.
      * by intros f [= <-].
      * done.
      * intros y Hy. apply Hps. set_solver.
      * intros y Hy. destruct (Hws y Hy) as [Hin|[[=]|[?|?]]]; [|by auto|right; right; right; by eapply covered_mono].
        rewrite elem_of_app, elem_of_cons in Hin. destruct Hin as [Hd|[->|Hm]]; [|by auto..]. right; right. by apply Hdone.
      * done.
      * apply (stack_ok_mono (cycles st) _ fin _ (Some node)); by auto.
    + done.
    + unfold work. simpl. simpl in Hlen. destruct (decide (length (p :: node :: nodes_of stack ++ fin) ≤ size (edge_nodes edges)))%nat as [Hle|Hgt]; [simpl in Hle; lia|].
      exfalso. apply Hgt. rewrite <- (size_list_to_set (C := gset string)) by (by apply NoDup_cons). apply subseteq_size. intros x. rewrite elem_of_list_to_set.
      intros [->|Hx]%elem_of_cons; [by apply (waits_nodes node)|by apply Hkn].
    + intros x Hx. by right.
  - destruct Hres as [Hst' Hdone]. eexists stack, _, (node :: fin). split; [done|]. change (nodes_of ((node, path, parents) :: stack)) with (node :: nodes_of stack) in *.
    assert ((node :: nodes_of stack) ++ fin ≡ₚ nodes_of stack ++ node :: fin) as Hperm by (simpl; apply Permutation_middle).
    split; [constructor; simpl|split].
    + rewrite Hst', Hst. simpl in Hnd. apply NoDup_cons in Hnd as [Hnot _]. rewrite elem_of_app in Hnot. rewrite list_to_set_cons. apply set_eq. intros x. set_solver.
    + by rewrite <- Hperm.
    + intros x Hx. apply Hkn. by rewrite Hperm.
    + rewrite Hv', Hv. done.
    + split_and!; [|intros y Hy|by eapply ordered_mono].
      * simpl in Hnd. apply NoDup_cons in Hnd as [Hnot _]. rewrite elem_of_app in Hnot. tauto.
      * destruct (Hws y Hy) as [Hin|[[=]|[?|?]]]; [by apply Hdone|by left|right; by eapply covered_mono].
    + apply (stack_ok_mono (cycles st) _ fin _ (Some node)); [done|by right| |done]. intros x [= ->]. right. by left.
    + done.
    + pose proof (Permutation_length Hperm) as El. unfold work. change (nodes_of ((node, path, parents) :: stack)) with (node :: nodes_of stack). rewrite El. simpl length. lia.
    + intros x. by rewrite Hperm.
Qed.

Lemma scan_loop_ok fuel stack fin st : scanning stack fin st → (work stack fin ≤ fuel)%nat →
  ∃ st' fin', scan_loop (parents_by_child edges) fuel stack st = Some st' ∧ scanning [] fin' st' ∧ ∀ x, x ∈ nodes_of stack ++ fin → x ∈ fin'.
Proof.
  revert stack fin st. induction fuel as [|fuel IH]; intros stack fin st Hsc Hw; destruct stack as [|[[node path] parents] stack]; cbn [scan_loop].
  1, 3: by exists st, fin.
  - unfold work in Hw. simpl in Hw. lia.
  - destruct (scan_step_ok _ _ _ _ _ _ Hsc) as (stack' & st1 & fin1 & -> & Hsc1 & Hw1 & Hin1). cbn [mbind option_bind fst snd].
    destruct (IH stack' fin1 st1 Hsc1) as (st' & fin' & -> & Hsc' & Hin'); [apply Nat.lt_succ_r; eapply Nat.lt_le_trans; [exact Hw1|exact Hw]|]. exists st', fin'. split_and!; [done..|]. intros x Hx. by apply Hin', Hin1.
Qed.

Lemma scan_roots_ok roots fin st : (∀ x, x ∈ roots → x ∈ edge_nodes edges) → scanning [] fin st →
  ∃ st' fin', scan_roots (parents_by_child edges) (scan_fuel (edge_nodes edges)) roots st = Some st' ∧ scanning [] fin' st' ∧ ∀ x, x ∈ roots ∨ x ∈ fin → x ∈ fin'.
Proof.
  revert fin st. induction roots as [|root roots IH]; intros fin st Hr Hsc; cbn [scan_roots].
  { exists st, fin. split_and!; [done..|]. intros x [?%elem_of_nil|?]; done. }
  assert (∀ x, x ∈ roots → x ∈ edge_nodes edges) as Hr' by (intros x Hx; apply Hr; by right).
  destruct (decide (root ∈ visited st)) as [Hv|Hv].
  - destruct (IH fin st Hr' Hsc) as (st' & fin' & -> & Hsc' & Hin). exists st', fin'. split_and!; [done..|].
    destruct Hsc. rewrite sc_visited0, elem_of_list_to_set in Hv. intros x [[->|Hx]%elem_of_cons|Hx]; auto.
  - destruct (scan_loop_ok (scan_fuel (edge_nodes edges)) [(root, [root], default [] (dget (parents_by_child edges) root))] fin
      {| cycles := cycles st; seen_cycles := seen_cycles st; visited := visited st; in_stack := {[root]} ∪ in_stack st |}) as (st1 & fin1 & -> & Hsc1 & Hin1).
    + destruct Hsc as [Hst Hnd Hkn Hvis Ho _ Hf]. rewrite Hvis, elem_of_list_to_set in Hv. constructor; simpl; try done.
      * by rewrite Hst.
      * by apply NoDup_cons.
      * intros x [->|Hx]%elem_of_cons; [apply Hr; left|by apply Hkn].
      * split_and!; [done| | |done|done]; intros y; rewrite elem_of_parents; by auto.
    + unfold work, scan_fuel. simpl. assert (root ∈ edge_nodes edges) as Hroot by (apply Hr; left).
      assert (size (edge_nodes edges) ≠ 0)%nat by (intros E%size_empty_inv; set_solver). lia.
    + cbn [mbind option_bind]. destruct (IH fin1 st1 Hr' Hsc1) as (st' & fin' & -> & Hsc' & Hin'). exists st', fin'. split_and!; [done..|].
      intros x [[->|Hx]%elem_of_cons|Hx]; apply Hin'; [right; apply Hin1; by left|by left|right; apply Hin1; by right].
Qed.

(** *** What it finds *)

Lemma chain_rtc x l y : chain (x :: l ++ [y]) → tc waits x y.
Proof.
  revert x. induction l as [|z l IH]; intros x; simpl; [intros [? _]; by apply tc_once|]. intros [Hxz Hc]. eapply tc_l; [exact Hxz|]. by apply IH.
Qed.

Lemma is_cycle_tc c : is_cycle c → ∃ x, tc waits x x.
Proof. intros (Hc & x & l & ->). exists x. by apply (chain_rtc x l x). Qed.

Lemma ordered_next C fin x y : ordered C fin → x ∈ fin → waits x y → y ∈ fin ∨ covered C x y.
Proof.
  induction fin as [|z fin IH]; [by intros _ ?%elem_of_nil|]. intros (_ & Hz & Ho) [->|Hx]%elem_of_cons Hw.
  - destruct (Hz y Hw); [left; by right|by right].
  - destruct (IH Ho Hx Hw); [left; by right|by right].
Qed.

(** A dependency that a cycle found covers, on the way from [x] to [y] *)
Definition covered_on_way (C : list (list string)) (x y : string) : Prop := ∃ u v, rtc waits x u ∧ waits u v ∧ rtc waits v y ∧ covered C u v.

Lemma ordered_way C fin x y : ordered C fin → x ∈ fin → rtc waits x y → y ∈ fin ∨ covered_on_way C x y.
Proof.
  intros Ho Hx Hr. induction Hr as [x|x z y Hxz Hzy IH]; [by left|]. destruct (ordered_next _ _ _ _ Ho Hx Hxz) as [Hz|Hc].
  - destruct (IH Hz) as [?|(u & v & Hu & Huv & Hv & Hc)]; [by left|]. right. exists u, v. split_and!; [by eapply rtc_l|done..].
  - right. exists x, z. by split_and!.
Qed.

Lemma ordered_cycle C fin x : ordered C fin → x ∈ fin → tc waits x x → covered_on_way C x x.
Proof.
  induction fin as [|z fin IH]; [by intros _ ?%elem_of_nil|]. intros (Hz & Hn & Ho) [->|Hx]%elem_of_cons Hc; [|by apply IH].
  assert (∃ y, waits z y ∧ rtc waits y z) as (y & Hzy & Hyz) by (inversion Hc; subst; eauto using tc_rtc, rtc_refl).
  destruct (Hn y Hzy) as [Hy|Hcov]; [|exists z, y; by split_and!]. destruct (ordered_way _ _ _ _ Ho Hy Hyz) as [?|(u & v & Hu & Huv & Hv & Hcv)]; [done|].
  exists u, v. split_and!; [by eapply rtc_l|done..].
Qed.

End Scan.

(** C30: the offline scan always returns, and it is exact: every list it reports
    is a cycle of dependencies, no two have the same tasks, and every task that
    waits for itself, at any distance, does so through a dependency between two tasks
    of a reported cycle; in particular the scan reports nothing exactly when the
    graph has no cycle. *)
Theorem scan_cycles_exact edges : ∃ cs, scan_dependency_cycles edges = Some cs ∧
  Forall (is_cycle edges) cs ∧ NoDup (canonical <$> cs) ∧
  (∀ x, tc (waits edges) x x → covered_on_way edges cs x x) ∧
  (cs = [] ↔ ∀ x, ¬ tc (waits edges) x x).
Proof.
  destruct (scan_roots_ok edges (sorted_strings (elements (edge_nodes edges))) [] {| cycles := []; seen_cycles := []; visited := ∅; in_stack := ∅ |})
    as (st & fin & E & Hsc & Hin).
  { intros x. unfold sorted_strings. by rewrite elem_of_isort, elem_of_elements. }
  { constructor; simpl; try done; [constructor|by intros ? ?%elem_of_nil|]. split_and!; [constructor..|]. intros k. by rewrite !elem_of_nil. }
  unfold scan_dependency_cycles. rewrite E. simpl. exists (cycles st). destruct Hsc as [_ _ _ _ Ho _ (Hall & Hnd & _)].
  assert (∀ x, tc (waits edges) x x → covered_on_way edges (cycles st) x x) as Hcov.
  { intros x Hx. apply (ordered_cycle _ _ fin); [done| |done]. apply Hin. left. unfold sorted_strings. rewrite elem_of_isort, elem_of_elements.
    inversion Hx; subst; eapply proj1, waits_nodes; eassumption. }
  split_and!; try done. split.
  - intros E' x Hx. destruct (Hcov x Hx) as (u & v & _ & _ & _ & c & Hc & _). rewrite E' in Hc. by apply elem_of_nil in Hc.
  - intros Hno. destruct (cycles st) as [|c cs]; [done|]. exfalso. apply Forall_cons in Hall as [Hc _]. apply is_cycle_tc in Hc as [x Hx]. by apply (Hno x).
Qed.

(** ** rebuild_dep_counters *)

Record rebuild_stats := {
  rebuilt : nat;
  skipped : nat;
  skipped_children : list string;
  cancelled : list string;
  pending_cancel : list string;
  errors : nat
}.

Section Rebuild.

Context (success_words terminal_words : list string) (has_lifecycle : bool).

(** The loop over the parents of [child]: the parents that run and whether the
    votes reached the threshold; [None]: a parent has no record *)
Fixpoint count_parents (child : string) (threshold : Z) (parents : list string) (running : Z) (reached : bool) : storeM (option (Z * bool)) :=
  match parents with
  | [] => ret (Some (running, reached))
  | p :: parents =>
      let! rec := call (GetTask p) in
      if bool_decide (rec = ∅) then ret None
      else if bool_decide (status_text rec ∈ terminal_words) then
        if bool_decide (status_text rec ∈ success_words) then count_parents child threshold parents running reached
        else let! hit := call (VoteAndCheck child p threshold) in count_parents child threshold parents running (reached || hit)
      else
        do! call (SaddActiveChild p child) in
        count_parents child threshold parents (running + 1)%Z reached
  end.

Definition with_errors (st : rebuild_stats) : rebuild_stats :=
  {| rebuilt := rebuilt st; skipped := skipped st; skipped_children := skipped_children st; cancelled := cancelled st; pending_cancel := pending_cancel st; errors := S (errors st) |}.
Definition with_skipped (st : rebuild_stats) : rebuild_stats :=
  {| rebuilt := rebuilt st; skipped := S (skipped st); skipped_children := skipped_children st; cancelled := cancelled st; pending_cancel := pending_cancel st; errors := errors st |}.
Definition with_skipped_child (child : string) (st : rebuild_stats) : rebuild_stats :=
  {| rebuilt := rebuilt st; skipped := skipped st; skipped_children := skipped_children st ++ [child]; cancelled := cancelled st; pending_cancel := pending_cancel st; errors := errors st |}.
Definition with_rebuilt (st : rebuild_stats) : rebuild_stats :=
  {| rebuilt := S (rebuilt st); skipped := skipped st; skipped_children := skipped_children st; cancelled := cancelled st; pending_cancel := pending_cancel st; errors := errors st |}.
Definition with_cancelled (child : string) (st : rebuild_stats) : rebuild_stats :=
  {| rebuilt := rebuilt st; skipped := skipped st; skipped_children := skipped_children st; cancelled := cancelled st ++ [child]; pending_cancel := pending_cancel st; errors := errors st |}.
Definition with_pending (child : string) (st : rebuild_stats) : rebuild_stats :=
  {| rebuilt := rebuilt st; skipped := skipped st; skipped_children := skipped_children st; cancelled := cancelled st; pending_cancel := pending_cancel st ++ [child]; errors := errors st |}.

(** [except Exception]: the counts made so far are kept. *)
Definition counting {A} (st : rebuild_stats) (p : storeM A) (k : A → storeM rebuild_stats) : storeM rebuild_stats :=
  pbind p (λ r, match r with Ok a => k a | Err e => if is_exception e then ret (with_errors st) else raise e end).

Definition rebuild_child (child : string) (parents : list string) (st : rebuild_stats) : storeM rebuild_stats :=
  counting st (call (GetTask child)) (λ rec : row,
    if bool_decide (rec = ∅) then ret (with_skipped st)
    else
      counting st (count_parents child (Z.of_nat (length parents)) parents 0 false) (λ counted,
        match counted with
        | None => ret (with_skipped_child child st)
        | Some (running, reached) =>
            counting st (call (SetRemainingDeps child running)) (λ _,
              let st := with_rebuilt st in
              if reached then
                if has_lifecycle then counting st (Lifecycle.cancel child) (λ _, ret (with_cancelled child st))
                else ret (with_pending child st)
              else ret st)
        end)).

Fixpoint rebuild_loop (l : list (string * list string)) (st : rebuild_stats) : storeM rebuild_stats :=
  match l with
  | [] => ret st
  | (child, parents) :: l => let! st := rebuild_child child parents st in rebuild_loop l st
  end.

Definition no_stats : rebuild_stats := {| rebuilt := 0; skipped := 0; skipped_children := []; cancelled := []; pending_cancel := []; errors := 0 |}.

(** [edges]: what [dep_graph_store.all_edges] answers *)
Definition rebuild_dep_counters (edges : list DependencyEdge) : storeM rebuild_stats := rebuild_loop (parents_by_child edges) no_stats.

End Rebuild.

Section RebuildProofs.

Context (success_words terminal_words : list string).
Implicit Types (s : ref_store) (c p : string).

Definition runs_on s p : bool := negb (bool_decide (status_text (task_of s p) ∈ terminal_words)).
Definition failed_on s p : bool := bool_decide (status_text (task_of s p) ∈ terminal_words) && negb (bool_decide (status_text (task_of s p) ∈ success_words)).

Definition running_parents s (ps : list string) : list string := filter (λ p, runs_on s p = true) ps.
Definition failed_parents s (ps : list string) : list string := filter (λ p, failed_on s p = true) ps.

(** Nothing about [c] has changed. *)
Definition untouched c s s' : Prop :=
  remaining s' !! c = remaining s !! c ∧ (∀ p, c ∈ active_of s' p ↔ c ∈ active_of s p) ∧ votes_of s' c = votes_of s c.

#[local] Instance untouched_preorder c : PreOrder (untouched c).
Proof. split; [done|]. intros s1 s2 s3 (E1 & A1 & V1) (E2 & A2 & V2). split_and!; [congruence|intros p; by rewrite A2, A1|congruence]. Qed.

Lemma status_of_tasks s s' p : tasks s' = tasks s → task_of s' p = task_of s p.
Proof. intros E. unfold task_of. by rewrite E. Qed.

Lemma running_parents_ext s s' ps : tasks s' = tasks s → running_parents s' ps = running_parents s ps ∧ failed_parents s' ps = failed_parents s ps.
Proof. intros E. split; apply list_filter_iff; intros p; unfold runs_on, failed_on; by rewrite (status_of_tasks s s') by done. Qed.

(** What counting the parents of [c] leaves *)
Definition counted_parents c (n : Z) s (ps : list string) (running : Z) (reached : bool) (x : res exn (option (Z * bool))) s' : Prop :=
  tasks s' = tasks s ∧ remaining s' = remaining s ∧ (∀ c', c' ≠ c → untouched c' s s') ∧
  if decide (Exists (λ p, task_of s p = ∅) ps) then x = Ok None
  else x = Ok (Some (running + Z.of_nat (length (running_parents s ps)), reached || bool_decide (failed_parents s ps ≠ []) && (n <=? Z.of_nat (size (votes_of s' c))))%Z) ∧
       (∀ p, c ∈ active_of s' p ↔ c ∈ active_of s p ∨ p ∈ running_parents s ps) ∧
       votes_of s' c = list_to_set (failed_parents s ps) ∪ votes_of s c.

Lemma votes_after s c v c' : votes_of (set_votes <[c := v]> s) c' = if decide (c' = c) then v else votes_of s c'.
Proof.
  unfold votes_of. simpl. destruct (decide (c' = c)) as [->|Hne]; [by rewrite lookup_insert_eq|by rewrite lookup_insert_ne].
Qed.

Lemma active_after s q c p : active_of (set_active <[q := {[c]} ∪ active_of s q]> s) p = if decide (p = q) then {[c]} ∪ active_of s p else active_of s p.
Proof.
  unfold active_of at 1. simpl. destruct (decide (p = q)) as [->|Hne]; [by rewrite lookup_insert_eq|by rewrite lookup_insert_ne].
Qed.

Lemma count_parents_ok c n ps s running reached :
  let '(x, s') := run (count_parents success_words terminal_words c n ps running reached) s in counted_parents c n s ps running reached x s'.
Proof.
  revert s running reached. induction ps as [|p ps IH]; intros s running reached; cbn [count_parents].
  { unfold ret. rewrite play_ret. unfold counted_parents. rewrite decide_False by (by inversion 1). simpl. rewrite Z.add_0_r, orb_false_r.
    split_and!; [done..|intros q; set_solver|set_solver]. }
  rewrite play_seq, (run_store (GetTask p)). cbn [ref_call]. destruct (decide (task_of s p = ∅)) as [Hp|Hp].
  { rewrite bool_decide_true by done. unfold ret. rewrite play_ret. unfold counted_parents. rewrite decide_True by (by left). by split_and!. }
  rewrite bool_decide_false by done.
  assert (∀ s1 x s', tasks s1 = tasks s → remaining s1 = remaining s → (∀ c', c' ≠ c → untouched c' s s1) →
    ∀ running1 reached1, counted_parents c n s1 ps running1 reached1 x s' →
    (∀ q, c ∈ active_of s1 q ↔ c ∈ active_of s q ∨ (q = p ∧ runs_on s p = true)) →
    votes_of s1 c = (if failed_on s p then {[p]} else ∅) ∪ votes_of s c →
    running1 = (running + if runs_on s p then 1 else 0)%Z → reached1 = reached || failed_on s p && (n <=? Z.of_nat (size (votes_of s1 c)))%Z →
    counted_parents c n s (p :: ps) running reached x s') as Hstep.
  { intros s1 x s' Ht Hr Hu running1 reached1 (Ht' & Hr' & Hu' & Hx) Ha Hv -> ->. unfold counted_parents.
    split_and!; [congruence|congruence|intros c' Hc'; transitivity s1; auto|].
    assert (Exists (λ p, task_of s p = ∅) (p :: ps) ↔ Exists (λ p, task_of s1 p = ∅) ps) as Hex.
    { rewrite Exists_cons, !Exists_exists. setoid_rewrite (status_of_tasks s s1); [|done..]. tauto. }
    rewrite (decide_ext _ _ _ _ Hex). destruct (decide (Exists (λ p, task_of s1 p = ∅) ps)); [done|]. destruct Hx as (-> & Hact & Hvot).
    destruct (running_parents_ext s s1 ps Ht) as [Er Ef]. rewrite Er, Ef in *.
    assert (running_parents s (p :: ps) = (if runs_on s p then [p] else []) ++ running_parents s ps) as ->.
    { unfold running_parents. rewrite filter_cons. by destruct (runs_on s p). }
    assert (failed_parents s (p :: ps) = (if failed_on s p then [p] else []) ++ failed_parents s ps) as ->.
    { unfold failed_parents. rewrite filter_cons. by destruct (failed_on s p). }
    split_and!.
    - f_equal. f_equal. f_equal; [destruct (runs_on s p); simpl; lia|]. destruct reached; [done|]. simpl. destruct (failed_on s p) eqn:Efail; simpl; [|done].
      destruct (n <=? Z.of_nat (size (votes_of s1 c)))%Z eqn:E; simpl.
      + symmetry. apply Z.leb_le in E. apply Z.leb_le. assert (size (votes_of s1 c) ≤ size (votes_of s' c))%nat by (apply subseteq_size; rewrite Hvot; set_solver). lia.
      + destruct (decide (failed_parents s ps = [])) as [E'|E']; [|by rewrite bool_decide_true].
        rewrite bool_decide_false by tauto. assert (votes_of s' c = votes_of s1 c) as -> by (rewrite Hvot, E'; set_solver). by rewrite E.
    - intros q. rewrite Hact, Ha, elem_of_app. destruct (runs_on s p); set_solver.
    - rewrite Hvot, Hv. destruct (failed_on s p); simpl; set_solver. }
  destruct (bool_decide (status_text (task_of s p) ∈ terminal_words)) eqn:Et.
  - destruct (bool_decide (status_text (task_of s p) ∈ success_words)) eqn:Es.
    + specialize (IH s running reached). destruct (run _ s) as [x s'].
      assert (runs_on s p = false ∧ failed_on s p = false) as [R F] by (unfold runs_on, failed_on; by rewrite Et, Es).
      eapply (Hstep s); [done..|exact IH| | | |]; rewrite ?R, ?F; [intros q; split; [by left|by intros [?|[_ [=]]]]|set_solver|lia|by rewrite orb_false_r].
    + rewrite play_seq, (run_store (VoteAndCheck c p n)). cbn [ref_call].
      assert (runs_on s p = false ∧ failed_on s p = true) as [R F] by (unfold runs_on, failed_on; by rewrite Et, Es).
      set (v := {[p]} ∪ votes_of s c). specialize (IH (set_votes <[c := v]> s) running (reached || (n <=? Z.of_nat (size v))%Z)).
      destruct (run _ (set_votes <[c := v]> s)) as [x s'].
      eapply (Hstep (set_votes <[c := v]> s)); [done|done| |exact IH| | | |]; rewrite ?R, ?F, ?votes_after, ?decide_True by done; try done.
      * intros c' Hne. split_and!; [done..|]. by rewrite votes_after, decide_False.
      * intros q. change (active_of (set_votes <[c:=v]> s) q) with (active_of s q). split; [by left|by intros [?|[_ [=]]]].
      * lia.
  - rewrite play_seq, (run_store (SaddActiveChild p c)). cbn [ref_call].
    assert (runs_on s p = true ∧ failed_on s p = false) as [R F] by (unfold runs_on, failed_on; by rewrite Et).
    set (s1 := set_active <[p := {[c]} ∪ active_of s p]> s). specialize (IH s1 (running + 1)%Z reached). destruct (run _ s1) as [x s'].
    eapply (Hstep s1); [done|done| |exact IH| | | |]; rewrite ?R, ?F; try done.
    + intros c' Hne. split_and!; [done| |done]. intros q. unfold s1. rewrite active_after. destruct (decide (q = p)); set_solver.
    + intros q. unfold s1. rewrite active_after. destruct (decide (q = p)); set_solver.
    + change (votes_of s1 c) with (votes_of s c). set_solver.
    + by rewrite orb_false_r.
Qed.

(** What is found out about a child *)
Inductive verdict := NoRecord | NoParent | Counted (running : list string) (reached : bool).

Definition verdict_of s c (ps : list string) : verdict :=
  if decide (task_of s c = ∅) then NoRecord
  else if decide (Exists (λ p, task_of s p = ∅) ps) then NoParent
  else Counted (running_parents s ps)
         (bool_decide (failed_parents s ps ≠ []) && (Z.of_nat (length ps) <=? Z.of_nat (size (list_to_set (failed_parents s ps) ∪ votes_of s c)))%Z).

(** ... the statistics it adds to *)
Definition tally (st : rebuild_stats) c (v : verdict) : rebuild_stats :=
  match v with
  | NoRecord => with_skipped st
  | NoParent => with_skipped_child c st
  | Counted _ reached => if reached then with_pending c (with_rebuilt st) else with_rebuilt st
  end.

(** ... and what is left for it *)
Definition left_for s c (ps : list string) s' : Prop :=
  match verdict_of s c ps with
  | NoRecord => untouched c s s'
  | NoParent => remaining s' !! c = remaining s !! c
  | Counted running _ =>
      remaining s' !! c = Some (Z.of_nat (length running)) ∧ (∀ p, c ∈ active_of s' p ↔ c ∈ active_of s p ∨ p ∈ running) ∧
      votes_of s' c = list_to_set (failed_parents s ps) ∪ votes_of s c
  end.

Lemma play_counting {A} st (p : storeM A) k s :
  run (counting st p k) s = let '(r, s1) := run p s in match r with Ok a => run (k a) s1 | Err e => run (if is_exception e then ret (with_errors st) else raise e) s1 end.
Proof. unfold counting. rewrite play_bind. by destruct (run p s) as [[a|e] s1]. Qed.

Lemma rebuild_child_ok c ps st s :
  let '(r, s') := run (rebuild_child success_words terminal_words false c ps st) s in
  r = Ok (tally st c (verdict_of s c ps)) ∧ tasks s' = tasks s ∧ (∀ c', c' ≠ c → untouched c' s s') ∧ left_for s c ps s'.
Proof.
  unfold rebuild_child, left_for, verdict_of. rewrite play_counting, (run_store (GetTask c)). cbn [ref_call].
  destruct (decide (task_of s c = ∅)) as [Hc|Hc]; [rewrite bool_decide_true by done; by split_and!|]. rewrite bool_decide_false by done.
  rewrite play_counting. pose proof (count_parents_ok c (Z.of_nat (length ps)) ps s 0 false) as H. destruct (run _ s) as [x s1]. destruct H as (Ht & Hr & Hu & Hx).
  destruct (decide (Exists (λ p, task_of s p = ∅) ps)); [subst x; split_and!; [done..|by rewrite Hr]|].
  destruct Hx as (-> & Ha & Hv). rewrite play_counting, (run_store (SetRemainingDeps c _)). cbn [ref_call].
  assert (tasks (set_remaining <[c := (0 + Z.of_nat (length (running_parents s ps)))%Z]> s1) = tasks s) as Ht' by done. rewrite <- Hv in *.
  destruct (_ || _) eqn:E; simpl orb in E; rewrite E; (split_and!; [done|done| |simpl; by rewrite lookup_insert_eq|done|done]).
  all: intros c' Hne; destruct (Hu c' Hne) as (E1 & E2 & E3); split_and!; [simpl; by rewrite lookup_insert_ne|done|done].
Qed.

Lemma verdict_untouched s s' c ps : tasks s' = tasks s → votes_of s' c = votes_of s c → verdict_of s' c ps = verdict_of s c ps.
Proof.
  intros Ht Hv. unfold verdict_of. destruct (running_parents_ext s s' ps Ht) as [-> ->]. rewrite Hv, (status_of_tasks s s' c Ht).
  destruct (decide (task_of s c = ∅)); [done|]. assert (Exists (λ p, task_of s' p = ∅) ps ↔ Exists (λ p, task_of s p = ∅) ps) as Hex.
  { rewrite !Exists_exists. setoid_rewrite (status_of_tasks s s'); [|done]. done. }
  by rewrite (decide_ext _ _ _ _ Hex).
Qed.

(** What is left for a child does not depend on what was done for others. *)
Lemma left_for_frame s s1 s2 s' c ps : tasks s1 = tasks s → untouched c s s1 → left_for s1 c ps s2 → untouched c s2 s' → left_for s c ps s'.
Proof.
  intros Ht (E1 & A1 & V1) H (E2 & A2 & V2). unfold left_for in *. rewrite (verdict_untouched s s1) in H by done. destruct (running_parents_ext s s1 ps Ht) as [_ Ef].
  destruct (verdict_of s c ps) as [| |running reached].
  - destruct H as (E3 & A3 & V3). split_and!; [congruence|intros p; by rewrite A2, A3, A1|congruence].
  - congruence.
  - destruct H as (E3 & A3 & V3). split_and!; [congruence|intros p; by rewrite A2, A3, A1|by rewrite V2, V3, Ef, V1].
Qed.

Lemma rebuild_loop_ok l st s : NoDup (dkeys l) →
  let '(r, s') := run (rebuild_loop success_words terminal_words false l st) s in
  r = Ok (fold_left (λ st cp, tally st cp.1 (verdict_of s cp.1 cp.2)) l st) ∧ tasks s' = tasks s ∧
  (∀ c ps, (c, ps) ∈ l → left_for s c ps s') ∧ (∀ c, c ∉ dkeys l → untouched c s s').
Proof.
  revert st s. induction l as [|[c ps] l IH]; intros st s Hnd; cbn [rebuild_loop].
  { unfold ret. rewrite play_ret. split_and!; [done..|by intros ? ? ?%elem_of_nil|done]. }
  apply NoDup_cons in Hnd as [Hc Hnd]. rewrite play_seq. pose proof (rebuild_child_ok c ps st s) as H. destruct (run _ s) as [r s1]. destruct H as (-> & Ht & Hu & Hl).
  specialize (IH (tally st c (verdict_of s c ps)) s1 Hnd). destruct (run _ s1) as [r s']. destruct IH as (-> & Ht' & Hl' & Hu').
  assert (∀ c' ps', (c', ps') ∈ l → c' ≠ c) as Hne. { intros c' ps' Hin ->. apply Hc. apply list_elem_of_fmap. by exists (c, ps'). }
  split_and!; [|congruence| |].
  - f_equal. cbn [fold_left fst snd]. set (st1 := tally st c (verdict_of s c ps)). clearbody st1. clear -Hne Hu Ht. revert st1.
    induction l as [|[c' ps'] l IH]; intros st1; [done|]. cbn [fold_left fst snd]. rewrite (verdict_untouched s s1 c' ps'); [|done|].
    + apply IH. intros c2 ps2 Hin. apply (Hne c2 ps2). by right.
    + apply Hu. apply (Hne c' ps'). left.
  - intros c' ps' [[= -> ->]|Hin]%elem_of_cons.
    + eapply (left_for_frame s s s1); [done|done|exact Hl|]. by apply Hu'.
    + eapply (left_for_frame s s1 s'); [done|apply Hu; by eapply Hne|by apply Hl'|done].
  - intros c' Hin. cbn [dkeys fmap list_fmap fst] in Hin. apply not_elem_of_cons in Hin as [Hn Hin]. transitivity s1; auto.
Qed.

Lemma parents_by_child_NoDup edges : NoDup (dkeys (parents_by_child edges)).
Proof.
  unfold parents_by_child. assert (∀ d, NoDup (dkeys d) → NoDup (dkeys (fold_left add_parent edges d))) as H; [|apply H; constructor].
  induction edges as [|e edges IH]; intros d Hd; [done|]. apply IH. by apply dset_NoDup.
Qed.

End RebuildProofs.

(** C31: rebuilding the counters from the cold edges (without a lifecycle to
    cancel with) is exact on a store that only loses counters: a child whose
    record and parents are all there gets a counter equal to the parents that
    are not over, becomes an active child of exactly those besides, and gets the
    votes of the failed ones, so that it is ready exactly when no parent runs; it is
    reported for cancellation exactly when the votes reach all its parents; a child with a missing
    parent record keeps its counter and is reported, and no record is changed. *)
Theorem rebuild_exact success_words terminal_words edges s :
  let '(r, s') := run (rebuild_dep_counters success_words terminal_words false edges) s in
  r = Ok (fold_left (λ st cp, tally st cp.1 (verdict_of success_words terminal_words s cp.1 cp.2)) (parents_by_child edges) no_stats) ∧
  tasks s' = tasks s ∧
  (∀ c ps, (c, ps) ∈ parents_by_child edges → left_for success_words terminal_words s c ps s') ∧
  (∀ c ps running reached w, (c, ps) ∈ parents_by_child edges → verdict_of success_words terminal_words s c ps = Counted running reached →
     c ∈ ready_in w s' ↔ running = [] ∧ text_of (task_of s c) "status" = Some w) ∧
  (∀ c, c ∉ dkeys (parents_by_child edges) → untouched c s s').
Proof.
  unfold rebuild_dep_counters. pose proof (rebuild_loop_ok success_words terminal_words (parents_by_child edges) no_stats s (parents_by_child_NoDup edges)) as H.
  destruct (run _ s) as [r s']. destruct H as (-> & Ht & Hl & Hu). split_and!; [done..| |done].
  intros c ps running reached w Hin Hv. specialize (Hl c ps Hin). unfold left_for in Hl. rewrite Hv in Hl. destruct Hl as (Er & _).
  rewrite ready_elem, Er, (status_of_tasks s s' c Ht). split.
  - intros (n & [= <-] & Hn & Hw). split; [|done]. destruct running; [done|simpl in Hn; lia].
  - intros [-> Hw]. exists 0%Z. by split_and!.
Qed.

Module DepToolsWitness.

Local Open Scope string_scope.

Definition edge (c p : string) : DependencyEdge := {| de_child_id := c; de_parent_id := p; de_is_primary := false; de_registered_at := 0 |}.

(** Two cycles through [a], which share it, and a task that only waits *)
Example two_cycles : scan_dependency_cycles [edge "a" "b"; edge "b" "a"; edge "z" "a"; edge "a" "c"; edge "c" "a"] = Some [["a"; "b"; "a"]; ["a"; "c"; "a"]].
Proof. by vm_compute. Qed.

Example no_cycle : scan_dependency_cycles [edge "c" "b"; edge "b" "a"; edge "c" "a"] = Some [].
Proof. by vm_compute. Qed.

Definition rec_of (status : string) : row := {[ "status" := JStr status ]}.
(** A store that has lost its counters *)
Definition restarted : ref_store :=
  {| tasks := {[ "p" := rec_of "succeeded"; "q" := rec_of "running"; "f" := rec_of "failed"; "c" := rec_of "pending"; "d" := rec_of "pending"; "e" := rec_of "pending" ]};
     kids := ∅; active := ∅; remaining := ∅; votes := ∅; consumers := ∅ |}.

Example restored :
  let '(r, s) := run (rebuild_dep_counters ["succeeded"] ["succeeded"; "failed"; "cancelled"] false
    [edge "c" "p"; edge "c" "q"; edge "d" "f"; edge "e" "gone"; edge "nobody" "p"]) restarted in
  r = Ok {| rebuilt := 2; skipped := 1; skipped_children := ["e"]; cancelled := []; pending_cancel := ["d"]; errors := 0 |} ∧
  remaining s !! "c" = Some 1%Z ∧ remaining s !! "d" = Some 0%Z ∧ remaining s !! "e" = None ∧ "c" ∈ active_of s "q".
Proof. vm_compute. by split_and!. Qed.

End DepToolsWitness.
