(* ===== verification/Schedulers.v ===== *)
(** * Schedulers

    flow/scheduler/*.py: tasks by priority, by dependency, by cron expression,
    and the delayed scheduler, which only keeps timers. *)
From Stdlib Require Import ZArith Lia Sorting.Sorted.
From stdpp Require Import prelude gmap list strings sorting.
From S2P Require Import Prelude.
Local Open Scope list_scope.

(** ** PriorityScheduler *)

Module Priority.

(** [heapq] on pairs of a priority and an id: a push adds an element and a pop
    takes the least one away, in the order of tuples.  The queue is kept in
    the order in which it would be popped. *)
Definition entry : Type := Z * string.
Definition entry_leb (a b : entry) : bool := (a.1 <? b.1)%Z || (a.1 =? b.1)%Z && String.leb a.2 b.2.
Definition heappush (e : entry) (q : list entry) : list entry := insert_by entry_leb e q.

Record PriorityScheduler := { _queue : list entry; _cancelled : gset string }.

Definition init : PriorityScheduler := {| _queue := []; _cancelled := ∅ |}.

Definition schedule (task_id : string) (priority : Z) (s : PriorityScheduler) : PriorityScheduler :=
  {| _queue := heappush (priority, task_id) (_queue s); _cancelled := _cancelled s ∖ {[task_id]} |}.

Definition cancel (task_id : string) (s : PriorityScheduler) : PriorityScheduler :=
  {| _queue := _queue s; _cancelled := {[task_id]} ∪ _cancelled s |}.

(** The loop: [ready] so far, the queue is popped from its head. *)
Fixpoint pop_ready (limit : Z) (q : list entry) (cancelled : gset string) (ready : list string) : list string * PriorityScheduler :=
  match q with
  | [] => (ready, {| _queue := []; _cancelled := cancelled |})
  | (_, task_id) :: q' =>
      if (Z.of_nat (length ready) <? limit)%Z then
        if decide (task_id ∈ cancelled) then pop_ready limit q' (cancelled ∖ {[task_id]}) ready
        else pop_ready limit q' cancelled (ready ++ [task_id])
      else (ready, {| _queue := q; _cancelled := cancelled |})
  end.

Definition get_ready_tasks (limit : Z) (s : PriorityScheduler) : list string * PriorityScheduler := pop_ready limit (_queue s) (_cancelled s) [].

Definition mark_completed (task_id : string) (s : PriorityScheduler) : PriorityScheduler := s.
Definition size (s : PriorityScheduler) : nat := length (_queue s).

(** *** What it promises: a waiting line, the most urgent task first *)

Definition waiting_line (s : PriorityScheduler) : list entry := filter (λ e, e.2 ∉ _cancelled s) (_queue s).

Definition queue_ok (s : PriorityScheduler) : Prop := StronglySorted (λ a b, entry_leb a b = true) (_queue s) ∧ NoDup (_queue s).*2.

Lemma entry_leb_total a b : entry_leb a b = false → entry_leb b a = true.
Proof.
  unfold entry_leb. intros [H1 H2]%orb_false_iff. apply Z.ltb_ge in H1. destruct (Z.eqb_spec a.1 b.1) as [E|E].
  - simpl in H2. apply string_leb_total in H2. rewrite E, Z.eqb_refl, H2. apply orb_true_r.
  - apply orb_true_iff. left. apply Z.ltb_lt. lia.
Qed.

Lemma entry_leb_trans a b c : entry_leb a b = true → entry_leb b c = true → entry_leb a c = true.
Proof.
  unfold entry_leb. rewrite !orb_true_iff, !andb_true_iff, !Z.ltb_lt, !Z.eqb_eq. intros [H1|[E1 H1]] [H2|[E2 H2]]; [left; lia..|].
  right. split; [congruence|]. by eapply string_leb_trans.
Qed.

Lemma push_ok e s : queue_ok s → e.2 ∉ (_queue s).*2 → queue_ok {| _queue := heappush e (_queue s); _cancelled := _cancelled s |}.
Proof.
  intros [Hs Hn] He. unfold queue_ok, heappush. simpl. split.
  - apply insert_by_sorted; [apply entry_leb_total|apply entry_leb_trans|done].
  - rewrite insert_by_perm. by apply NoDup_cons.
Qed.

Lemma insert_filter {A} (le : A → A → bool) (P : A → Prop) `{∀ a, Decision (P a)} x l :
  (∀ a b, le a b = false → le b a = true) → (∀ a b c, le a b = true → le b c = true → le a c = true) →
  StronglySorted (λ a b, le a b = true) l → P x → filter P (insert_by le x l) = insert_by le x (filter P l).
Proof.
  intros Htot Htr Hs Hx. induction Hs as [|y l Hs IH Hall]; simpl; [by rewrite filter_cons_True|]. destruct (le x y) eqn:E.
  - rewrite filter_cons_True by done. rewrite filter_cons. destruct (decide (P y)); simpl; [by rewrite E|].
    destruct (filter P l) as [|z l'] eqn:El; [done|]. simpl. assert (z ∈ l) as Hz.
    { assert (z ∈ filter P l) as Hz by (rewrite El; left). by apply list_elem_of_filter in Hz as [_ ?]. }
    rewrite Forall_forall in Hall. by rewrite (Htr x y z E (Hall z Hz)).
  - rewrite !filter_cons. destruct (decide (P y)); simpl; [rewrite E; by f_equal|done].
Qed.

Lemma filter_iff_in {A} (P Q : A → Prop) `{∀ a, Decision (P a)} `{∀ a, Decision (Q a)} (l : list A) : (∀ a, a ∈ l → P a ↔ Q a) → filter P l = filter Q l.
Proof.
  induction l as [|x l IH]; intros Hl; [done|]. rewrite !filter_cons, IH by (intros a Ha; apply Hl; by right). specialize (Hl x ltac:(by left)).
  destruct (decide (P x)), (decide (Q x)); tauto.
Qed.

Lemma sorted_filter {A} (R : A → A → Prop) (P : A → Prop) `{∀ a, Decision (P a)} l : StronglySorted R l → StronglySorted R (filter P l).
Proof.
  induction 1 as [|x l Hs IH Hall]; [constructor|]. rewrite filter_cons. destruct (decide (P x)); [|done]. constructor; [done|].
  rewrite Forall_forall in *. intros y [_ Hy]%list_elem_of_filter. auto.
Qed.

(** What is popped: [popped] goes, without the cancelled ones it is the answer. *)
Lemma pop_ready_spec limit q cancelled ready : NoDup q.*2 → (Z.of_nat (length ready) ≤ limit)%Z →
  let line := filter (λ e : entry, e.2 ∉ cancelled) q in
  let n := Z.to_nat (limit - Z.of_nat (length ready)) in
  (pop_ready limit q cancelled ready).1 = ready ++ (take n line).*2 ∧
  waiting_line (pop_ready limit q cancelled ready).2 = drop n line ∧
  (∃ popped, q = popped ++ _queue (pop_ready limit q cancelled ready).2) ∧
  (∀ x, x ∈ _cancelled (pop_ready limit q cancelled ready).2 → x ∈ cancelled).
Proof.
  revert cancelled ready. induction q as [|[pr id] q IH]; intros cancelled ready Hnd Hl; cbn [pop_ready].
  { cbv zeta. rewrite filter_nil, take_nil, drop_nil. simpl. rewrite app_nil_r. split_and!; [done..|by exists []|done]. }
  rewrite fmap_cons in Hnd. apply NoDup_cons in Hnd as [Hid Hnd]. destruct (Z.ltb_spec (Z.of_nat (length ready)) limit) as [Hlt|Hge].
  - destruct (decide (id ∈ cancelled)) as [Hc|Hc].
    + destruct (IH (cancelled ∖ {[id]}) ready Hnd ltac:(lia)) as (H1 & H2 & [popped H3] & H4).
      assert (filter (λ e : entry, e.2 ∉ cancelled ∖ {[id]}) q = filter (λ e : entry, e.2 ∉ cancelled) ((pr, id) :: q)) as E.
      { rewrite filter_cons_False by (simpl; tauto). apply filter_iff_in. intros e He. assert (e.2 ∈ q.*2) by (by apply list_elem_of_fmap_2). set_solver. }
      rewrite E in H1, H2. split_and!; [done..| |].
      * exists ((pr, id) :: popped). exact (f_equal (cons _) H3).
      * intros x Hx. specialize (H4 x Hx). set_solver.
    + destruct (IH cancelled (ready ++ [id]) Hnd) as (H1 & H2 & [popped H3] & H4); [rewrite length_app; simpl; lia|].
      rewrite filter_cons_True by done. rewrite length_app in H1, H2. simpl length in *.
      replace (Z.to_nat (limit - Z.of_nat (length ready))) with (S (Z.to_nat (limit - Z.of_nat (length ready + 1)))) by lia.
      split_and!; [by rewrite H1, <- app_assoc|done| |done]. exists ((pr, id) :: popped). exact (f_equal (cons _) H3).
  - replace (Z.to_nat (limit - Z.of_nat (length ready))) with 0%nat by lia. rewrite take_0, drop_0, app_nil_r. split_and!; [done..|by exists []|done].
Qed.

End Priority.

(** The priority scheduler is a waiting line: as long as an id is
    scheduled only when it is not queued, scheduling puts the task where its
    priority belongs (ties in the order of the ids), cancelling takes it out, and
    the ready tasks are the first [limit] of the line, which leave it; a task
    that was not cancelled is handed out exactly once. *)
Theorem priority_line s task_id priority limit : Priority.queue_ok s → (0 ≤ limit)%Z →
  (task_id ∉ (Priority._queue s).*2 →
     Priority.queue_ok (Priority.schedule task_id priority s) ∧
     Priority.waiting_line (Priority.schedule task_id priority s) = insert_by Priority.entry_leb (priority, task_id) (Priority.waiting_line s)) ∧
  (Priority.queue_ok (Priority.cancel task_id s) ∧
     Priority.waiting_line (Priority.cancel task_id s) = filter (λ e, e.2 ≠ task_id) (Priority.waiting_line s)) ∧
  (Priority.queue_ok (Priority.get_ready_tasks limit s).2 ∧
     (Priority.get_ready_tasks limit s).1 = (take (Z.to_nat limit) (Priority.waiting_line s)).*2 ∧
     Priority.waiting_line (Priority.get_ready_tasks limit s).2 = drop (Z.to_nat limit) (Priority.waiting_line s) ∧
     StronglySorted (λ a b, Priority.entry_leb a b = true) (Priority.waiting_line s)).
Proof.
  intros [Hs Hnd] Hl. split_and!.
  - intros Hid. split; [apply (Priority.push_ok (priority, task_id) {| Priority._queue := Priority._queue s; Priority._cancelled := Priority._cancelled s ∖ {[task_id]} |}); [by split|done]|].
    unfold Priority.waiting_line, Priority.schedule, Priority.heappush. simpl.
    rewrite (Priority.insert_filter Priority.entry_leb); [|apply Priority.entry_leb_total|apply Priority.entry_leb_trans|done|simpl; set_solver].
    f_equal. apply Priority.filter_iff_in. intros e He. assert (e.2 ∈ (Priority._queue s).*2) by (by apply list_elem_of_fmap_2). set_solver.
  - by split.
  - unfold Priority.waiting_line, Priority.cancel. simpl. rewrite list_filter_filter. apply list_filter_iff. intros e. set_solver.
  - destruct (Priority.pop_ready_spec limit (Priority._queue s) (Priority._cancelled s) [] Hnd Hl) as (_ & _ & [popped E] & _).
    unfold Priority.queue_ok, Priority.get_ready_tasks. rewrite E in Hs, Hnd. split; [|rewrite fmap_app in Hnd; by apply NoDup_app in Hnd as (_ & _ & ?)].
    by apply StronglySorted_app_1_r in Hs.
  - destruct (Priority.pop_ready_spec limit (Priority._queue s) (Priority._cancelled s) [] Hnd Hl) as (E & _). unfold Priority.get_ready_tasks. rewrite E. simpl. by rewrite Z.sub_0_r.
  - destruct (Priority.pop_ready_spec limit (Priority._queue s) (Priority._cancelled s) [] Hnd Hl) as (_ & E & _). unfold Priority.get_ready_tasks. rewrite E. simpl. by rewrite Z.sub_0_r.
  - by apply Priority.sorted_filter.
Qed.

(** ** DependencyScheduler *)

Module ByDependency.

Record DependencyScheduler := { _dependencies : list (string * gset string); _completed : gset string; _cancelled : gset string }.

Definition init : DependencyScheduler := {| _dependencies := []; _completed := ∅; _cancelled := ∅ |}.

Definition schedule (task_id : string) (dependencies : option (list string)) (s : DependencyScheduler) : DependencyScheduler :=
  {| _dependencies := dset (_dependencies s) task_id (list_to_set (default [] dependencies)); _completed := _completed s; _cancelled := _cancelled s ∖ {[task_id]} |}.

Definition cancel (task_id : string) (s : DependencyScheduler) : DependencyScheduler :=
  {| _dependencies := ddel (_dependencies s) task_id; _completed := _completed s; _cancelled := {[task_id]} ∪ _cancelled s |}.

Definition over (s : DependencyScheduler) (task_id : string) : bool := bool_decide (task_id ∈ _completed s) || bool_decide (task_id ∈ _cancelled s).

Fixpoint ready_loop (limit : Z) (s : DependencyScheduler) (items : list (string * gset string)) (ready : list string) : list string :=
  match items with
  | [] => ready
  | (task_id, deps) :: items =>
      if (limit <=? Z.of_nat (length ready))%Z then ready
      else if over s task_id then ready_loop limit s items ready
      else ready_loop limit s items (if bool_decide (deps ⊆ _completed s) then ready ++ [task_id] else ready)
  end.

Definition get_ready_tasks (limit : Z) (s : DependencyScheduler) : list string := ready_loop limit s (_dependencies s) [].

Definition mark_completed (task_id : string) (s : DependencyScheduler) : DependencyScheduler :=
  {| _dependencies := _dependencies s; _completed := {[task_id]} ∪ _completed s; _cancelled := _cancelled s |}.

Definition get_dependencies (task_id : string) (s : DependencyScheduler) : gset string := default ∅ (dget (_dependencies s) task_id).

Definition get_waiting_tasks (s : DependencyScheduler) : list string :=
  (filter (λ td : string * gset string, over s td.1 = false ∧ ¬ td.2 ⊆ _completed s) (_dependencies s)).*1.

(** *** Reachable states *)

Inductive reachable : DependencyScheduler → Prop :=
  | R_init : reachable init
  | R_schedule t ds s : reachable s → reachable (schedule t ds s)
  | R_cancel t s : reachable s → reachable (cancel t s)
  | R_complete t s : reachable s → reachable (mark_completed t s).

Lemma reachable_inv s : reachable s → NoDup (dkeys (_dependencies s)) ∧ ∀ t, t ∈ dkeys (_dependencies s) → t ∉ _cancelled s.
Proof.
  induction 1 as [|t ds s _ [Hnd Hc]|t s _ [Hnd Hc]|t s _ [Hnd Hc]]; simpl.
  - split; [constructor|by intros ? ?%elem_of_nil].
  - split; [by apply dset_NoDup|]. intros u Hu. destruct (decide (u = t)) as [->|Hne]; [set_solver|]. apply not_elem_of_difference. left. apply Hc.
    destruct (decide (t ∈ dkeys (_dependencies s))) as [Hin|Hin]; [by rewrite dkeys_dset_in in Hu|].
    rewrite dkeys_dset_notin, elem_of_app, list_elem_of_singleton in Hu by done. by destruct Hu.
  - split; [by apply ddel_NoDup|]. intros u Hu. apply list_elem_of_fmap in Hu as ([u' d] & -> & Hin). apply list_elem_of_filter in Hin as [Hne Hin]. simpl in *.
    assert (u' ∈ dkeys (_dependencies s)) by (apply list_elem_of_fmap; by exists (u', d)). set_solver.
  - done.
Qed.

Definition ready_now (s : DependencyScheduler) : list string :=
  (filter (λ td : string * gset string, over s td.1 = false ∧ td.2 ⊆ _completed s) (_dependencies s)).*1.

Lemma ready_loop_spec limit s items ready :
  ready_loop limit s items ready =
    ready ++ take (Z.to_nat (limit - Z.of_nat (length ready))) (filter (λ td : string * gset string, over s td.1 = false ∧ td.2 ⊆ _completed s) items).*1.
Proof.
  revert ready. induction items as [|[t d] items IH]; intros ready; cbn [ready_loop]; [rewrite filter_nil; simpl; by rewrite take_nil, app_nil_r|].
  destruct (Z.leb_spec limit (Z.of_nat (length ready))) as [Hle|Hlt].
  { replace (Z.to_nat (limit - Z.of_nat (length ready))) with 0%nat by lia. by rewrite take_0, app_nil_r. }
  rewrite filter_cons. simpl fst. simpl snd. destruct (over s t) eqn:Eo.
  { rewrite decide_False by naive_solver. apply IH. }
  destruct (decide (d ⊆ _completed s)) as [Hd|Hd].
  - rewrite bool_decide_true, decide_True by done. rewrite IH, length_app. simpl length. rewrite fmap_cons. simpl fst.
    replace (Z.to_nat (limit - Z.of_nat (length ready))) with (S (Z.to_nat (limit - Z.of_nat (length ready + 1)))) by lia. by rewrite <- app_assoc.
  - rewrite bool_decide_false, decide_False by (try naive_solver; done). apply IH.
Qed.

Lemma reachable_over s t : reachable s → t ∈ dkeys (_dependencies s) → over s t = bool_decide (t ∈ _completed s).
Proof. intros [_ Hc]%reachable_inv Ht. unfold over. rewrite (bool_decide_false (t ∈ _cancelled s)) by auto. apply orb_false_r. Qed.

Lemma scheduled_with s (P : gset string → Prop) (Q : string * gset string → Prop) `{∀ td, Decision (Q td)} t :
  reachable s → (∀ td, Q td ↔ over s td.1 = false ∧ P td.2) →
  t ∈ (filter Q (_dependencies s)).*1 ↔ t ∈ dkeys (_dependencies s) ∧ t ∉ _completed s ∧ P (get_dependencies t s).
Proof.
  intros Hr HQ. destruct (reachable_inv s Hr) as [Hnd Hc]. rewrite list_elem_of_fmap. split.
  - intros ([t' d] & -> & Ht). apply list_elem_of_filter in Ht as [[Ho Hd]%HQ Ht]. simpl in *.
    assert (t' ∈ dkeys (_dependencies s)) as Hk by (apply list_elem_of_fmap; by exists (t', d)).
    rewrite reachable_over in Ho by done. apply bool_decide_eq_false in Ho. split_and!; [done..|].
    unfold get_dependencies. by rewrite (elem_dget _ _ d).
  - intros (Hk & Ho & Hd). assert (over s t = false) as Ho' by (rewrite reachable_over; [by apply bool_decide_eq_false|done..]).
    apply list_elem_of_fmap in Hk as ([t' d] & -> & Ht). exists (t', d). split; [done|]. apply list_elem_of_filter. simpl in *.
    unfold get_dependencies in Hd. rewrite (elem_dget _ _ d) in Hd by done. split; [|done]. by apply HQ.
Qed.

(** The least element of a list for a rank *)
Lemma least_rank (rank : string → nat) (P : string → Prop) `{∀ x, Decision (P x)} l : Exists P l → ∃ x, x ∈ l ∧ P x ∧ ∀ y, y ∈ l → P y → (rank x ≤ rank y)%nat.
Proof.
  induction l as [|a l IH]; [by inversion 1|]. intros [Ha|Hl]%Exists_cons.
  - destruct (decide (Exists P l)) as [Hl|Hl].
    + destruct (IH Hl) as (x & Hx & HPx & Hmin). destruct (decide (rank a ≤ rank x)%nat).
      * exists a. split_and!; [left|done|]. intros y [->|Hy]%elem_of_cons HPy; [done|]. specialize (Hmin y Hy HPy). lia.
      * exists x. split_and!; [by right|done|]. intros y [->|Hy]%elem_of_cons HPy; [lia|by apply Hmin].
    + exists a. split_and!; [left|done|]. intros y [->|Hy]%elem_of_cons HPy; [done|]. exfalso. apply Hl, Exists_exists. by exists y.
  - destruct (IH Hl) as (x & Hx & HPx & Hmin). destruct (decide (P a)) as [Ha|Ha].
    + destruct (decide (rank a ≤ rank x)%nat).
      * exists a. split_and!; [left|done|]. intros y [->|Hy]%elem_of_cons HPy; [done|]. specialize (Hmin y Hy HPy). lia.
      * exists x. split_and!; [by right|done|]. intros y [->|Hy]%elem_of_cons HPy; [lia|by apply Hmin].
    + exists x. split_and!; [by right|done|]. intros y [->|Hy]%elem_of_cons HPy; [done|by apply Hmin].
Qed.

End ByDependency.

(** In every reachable state of the dependency scheduler each scheduled
    task is exactly one of completed, ready and waiting: it is ready exactly when
    all its dependencies are completed; the answer is a prefix of the ready tasks
    in the order of scheduling with at most [limit] of them; and the scheduler makes
    progress: when the dependencies can be ranked (they have no cycle) and each is
    scheduled or completed, some task is ready as long as not all are completed. *)
Theorem dependency_scheduler_ready s limit : ByDependency.reachable s → (0 ≤ limit)%Z →
  ByDependency.get_ready_tasks limit s = take (Z.to_nat limit) (ByDependency.ready_now s) ∧
  (∀ t, t ∈ ByDependency.ready_now s ↔ t ∈ dkeys (ByDependency._dependencies s) ∧ t ∉ ByDependency._completed s ∧ ByDependency.get_dependencies t s ⊆ ByDependency._completed s) ∧
  (∀ t, t ∈ ByDependency.get_waiting_tasks s ↔ t ∈ dkeys (ByDependency._dependencies s) ∧ t ∉ ByDependency._completed s ∧ ¬ ByDependency.get_dependencies t s ⊆ ByDependency._completed s) ∧
  (∀ rank : string → nat,
     (∀ t d, t ∈ dkeys (ByDependency._dependencies s) → d ∈ ByDependency.get_dependencies t s →
        (rank d < rank t)%nat ∧ (d ∈ dkeys (ByDependency._dependencies s) ∨ d ∈ ByDependency._completed s)) →
     (∃ t, t ∈ dkeys (ByDependency._dependencies s) ∧ t ∉ ByDependency._completed s) → ByDependency.ready_now s ≠ []).
Proof.
  intros Hr Hl.
  split_and!.
  - unfold ByDependency.get_ready_tasks. rewrite ByDependency.ready_loop_spec. simpl. by rewrite Z.sub_0_r.
  - intros t. apply (ByDependency.scheduled_with s (λ d, d ⊆ ByDependency._completed s)); [done|done].
  - intros t. apply (ByDependency.scheduled_with s (λ d, ¬ d ⊆ ByDependency._completed s)); [done|done].
  - intros rank Hrank [t [Ht Hto]].
    destruct (ByDependency.least_rank rank (λ x, x ∉ ByDependency._completed s) (dkeys (ByDependency._dependencies s))) as (x & Hx & Hxo & Hmin).
    { apply Exists_exists. by exists t. }
    intros E. assert (x ∈ ByDependency.ready_now s) as Hrx; [|rewrite E in Hrx; by apply elem_of_nil in Hrx].
    apply (ByDependency.scheduled_with s (λ d, d ⊆ ByDependency._completed s)); [done|done|]. split_and!; [done..|]. intros d Hd. destruct (Hrank x d Hx Hd) as [Hlt [Hk|Hk]]; [|done].
    destruct (decide (d ∈ ByDependency._completed s)) as [|Hdo]; [done|]. specialize (Hmin d Hk Hdo). lia.
Qed.

(** ** CronScheduler *)

Module Cron.

Section Cron.

(** [croniter(expr, now).get_next(datetime)]; [None]: it raises *)
Context (get_next : string → Z → option Z).

(** [_jobs]: the expression and the next run of each task *)
Notation CronScheduler := (list (string * (string * Z))).

(** [None]: ValueError *)
Definition schedule (now : Z) (task_id cron_expr : string) (jobs : CronScheduler) : option CronScheduler :=
  next_run ← get_next cron_expr now;
  Some (dset jobs task_id (cron_expr, next_run)).

Definition cancel (task_id : string) (jobs : CronScheduler) : CronScheduler := ddel jobs task_id.

(** The loop over the items as they were; an exception leaves the updates
    made before it. *)
Fixpoint due_loop (limit now : Z) (items : CronScheduler) (due_tasks : list string) (jobs : CronScheduler) : option (list string) * CronScheduler :=
  match items with
  | [] => (Some due_tasks, jobs)
  | (task_id, (cron_expr, next_run)) :: items =>
      if (limit <=? Z.of_nat (length due_tasks))%Z then (Some due_tasks, jobs)
      else if (next_run <=? now)%Z then
        match get_next cron_expr now with
        | None => (None, jobs)
        | Some next_run => due_loop limit now items (due_tasks ++ [task_id]) (dset jobs task_id (cron_expr, next_run))
        end
      else due_loop limit now items due_tasks jobs
  end.

Definition get_ready_tasks (limit now : Z) (jobs : CronScheduler) : option (list string) * CronScheduler := due_loop limit now jobs [] jobs.
Definition get_due_tasks : Z → Z → CronScheduler → option (list string) * CronScheduler := get_ready_tasks.

Definition mark_completed (task_id : string) (jobs : CronScheduler) : CronScheduler := jobs.
Definition get_next_run (task_id : string) (jobs : CronScheduler) : option Z := snd <$> dget jobs task_id.

(** *** What is due *)

Definition due (now : Z) (jobs : CronScheduler) : list string := (filter (λ j : string * (string * Z), (j.2.2 ≤ now)%Z) jobs).*1.

(** The jobs after those in [ran] were handed out at [now] *)
Definition advanced (now : Z) (ran : list string) (jobs : CronScheduler) : CronScheduler :=
  (λ j, if decide (j.1 ∈ ran) then (j.1, (j.2.1, default j.2.2 (get_next j.2.1 now))) else j) <$> jobs.

(** The expressions can be continued, and the next run comes later. *)
Definition continues (now : Z) (jobs : CronScheduler) : Prop := Forall (λ j, ∃ t, get_next j.2.1 now = Some t ∧ (now < t)%Z) jobs.

Lemma advanced_keys now ran jobs : dkeys (advanced now ran jobs) = dkeys jobs.
Proof.
  unfold dkeys, advanced. rewrite <- list_fmap_compose. apply list_fmap_ext. intros i [k v] _. simpl. by destruct (decide (k ∈ ran)).
Qed.

Lemma advanced_nil now jobs : advanced now [] jobs = jobs.
Proof. unfold advanced. rewrite <- (list_fmap_id jobs) at 2. apply list_fmap_ext. intros i j _. by rewrite decide_False by (by intros ?%elem_of_nil). Qed.

Lemma advanced_snoc now ran id e n t jobs : NoDup (dkeys jobs) → (id, (e, n)) ∈ jobs → id ∉ ran → get_next e now = Some t →
  dset (advanced now ran jobs) id (e, t) = advanced now (ran ++ [id]) jobs.
Proof.
  intros Hnd Hin Hran Ht. induction jobs as [|[k [e' n']] jobs IH]; [by apply elem_of_nil in Hin|]. apply NoDup_cons in Hnd as [Hk Hnd].
  cbn [advanced fmap list_fmap fst snd]. fold (advanced now ran jobs) (advanced now (ran ++ [id]) jobs). apply elem_of_cons in Hin as [[= <- <- <-]|Hin].
  - rewrite (decide_False (P := id ∈ ran)) by done. rewrite decide_True by set_solver. rewrite Ht. cbn [dset]. rewrite decide_True by done. f_equal.
    unfold advanced. apply list_fmap_ext. intros i j Hj. apply list_elem_of_lookup_2 in Hj. assert (j.1 ≠ id) as Hne.
    { intros E. apply Hk. simpl. rewrite <- E. apply list_elem_of_fmap. by exists j. }
    destruct (decide (j.1 ∈ ran)) as [H1|H1], (decide (j.1 ∈ ran ++ [id])) as [H2|H2]; try done; exfalso; set_solver.
  - assert (k ≠ id) as Hne. { intros ->. apply Hk. apply list_elem_of_fmap. by exists (id, (e, n)). }
    destruct (decide (k ∈ ran)) as [H1|H1]; [rewrite decide_True by set_solver|rewrite decide_False by set_solver];
      cbn [dset]; rewrite decide_False by done; f_equal; by apply IH.
Qed.

Lemma due_loop_spec limit now items jobs0 ran : NoDup (dkeys jobs0) → continues now jobs0 →
  (∃ before, jobs0 = before ++ items ∧ ∀ t, t ∈ ran → t ∈ dkeys before) →
  let n := Z.to_nat (limit - Z.of_nat (length ran)) in
  due_loop limit now items ran (advanced now ran jobs0) = (Some (ran ++ take n (due now items)), advanced now (ran ++ take n (due now items)) jobs0).
Proof.
  intros Hnd Hc. revert ran. induction items as [|[id [e nx]] items IH]; intros ran (before & E & Hran); cbn [due_loop].
  { unfold due. rewrite filter_nil. simpl. by rewrite take_nil, app_nil_r. }
  assert (∀ ran' : list string, (∀ t, t ∈ ran' → t ∈ dkeys before ∨ t = id) → ∃ before', jobs0 = before' ++ items ∧ ∀ t, t ∈ ran' → t ∈ dkeys before') as Hnext.
  { intros ran' H. exists (before ++ [(id, (e, nx))]). split; [by rewrite <- app_assoc|]. intros t Ht. unfold dkeys in *. rewrite fmap_app, elem_of_app. simpl. rewrite list_elem_of_singleton. auto. }
  destruct (Z.leb_spec limit (Z.of_nat (length ran))) as [Hle|Hlt].
  { replace (Z.to_nat (limit - Z.of_nat (length ran))) with 0%nat by lia. rewrite take_0, app_nil_r. done. }
  unfold due. rewrite filter_cons. simpl snd. fold (due now items). destruct (Z.leb_spec nx now) as [Hd|Hd].
  - rewrite decide_True by done. rewrite fmap_cons. simpl fst. fold (due now items).
    assert ((id, (e, nx)) ∈ jobs0) as Hin by (rewrite E; set_solver). unfold continues in Hc. rewrite Forall_forall in Hc. destruct (Hc _ Hin) as (t & Ht & Hlater). simpl in Ht.
    rewrite Ht. assert (id ∉ ran) as Hid.
    { intros Hr%Hran. rewrite E in Hnd. unfold dkeys in *. rewrite fmap_app in Hnd. apply NoDup_app in Hnd as (_ & H & _). apply (H id Hr). simpl. left. }
    rewrite (advanced_snoc _ _ _ _ nx) by done. rewrite IH.
    + rewrite length_app. simpl length. replace (Z.to_nat (limit - Z.of_nat (length ran))) with (S (Z.to_nat (limit - Z.of_nat (length ran + 1)))) by lia.
      simpl take. by rewrite <- app_assoc.
    + apply Hnext. intros u. rewrite elem_of_app, list_elem_of_singleton. intros [?|?]; auto.
  - rewrite decide_False by (simpl; lia). fold (due now items). apply IH, Hnext. auto.
Qed.

Lemma advanced_ext now ran ran' jobs : (∀ t, t ∈ dkeys jobs → t ∈ ran ↔ t ∈ ran') → advanced now ran jobs = advanced now ran' jobs.
Proof.
  intros H. unfold advanced. apply list_fmap_ext. intros i j Hj%list_elem_of_lookup_2. assert (j.1 ∈ dkeys jobs) as Hk by (apply list_elem_of_fmap; by exists j).
  by rewrite (decide_ext _ _ _ _ (H j.1 Hk)).
Qed.

Lemma due_keys now jobs t : t ∈ due now jobs → t ∈ dkeys jobs.
Proof. intros (j & -> & [_ Hj]%list_elem_of_filter)%list_elem_of_fmap. apply list_elem_of_fmap. by exists j. Qed.

Lemma due_advanced now n jobs : NoDup (dkeys jobs) → continues now jobs → due now (advanced now (take n (due now jobs)) jobs) = drop n (due now jobs).
Proof.
  revert n. induction jobs as [|[id [e nx]] jobs IH]; intros n Hnd Hc; [unfold due; rewrite filter_nil; simpl; by rewrite drop_nil|].
  apply NoDup_cons in Hnd as [Hid Hnd]. apply Forall_cons in Hc as [(t & Ht & Hlater) Hc]. simpl in Ht.
  assert (id ∉ due now jobs) as Hnot by (by intros ?%due_keys).
  assert (∀ l, id ∉ l → due now (advanced now l ((id, (e, nx)) :: jobs)) = (if decide (nx ≤ now)%Z then [id] else []) ++ due now (advanced now l jobs)) as Hkeep.
  { intros l Hl. unfold advanced. rewrite fmap_cons. simpl fst. rewrite decide_False by done. unfold due. rewrite filter_cons. simpl snd. by destruct (decide (nx ≤ now)%Z). }
  assert (due now ((id, (e, nx)) :: jobs) = (if decide (nx ≤ now)%Z then [id] else []) ++ due now jobs) as E by (unfold due; rewrite filter_cons; simpl snd; by destruct (decide (nx ≤ now)%Z)).
  rewrite E. destruct (decide (nx ≤ now)%Z) as [Hd|Hd]; simpl app.
  - destruct n as [|n]; [by rewrite take_0, drop_0, advanced_nil, E|]. cbn [take drop firstn skipn].
    assert (advanced now (id :: take n (due now jobs)) ((id, (e, nx)) :: jobs) = (id, (e, t)) :: advanced now (id :: take n (due now jobs)) jobs) as ->.
    { unfold advanced. rewrite fmap_cons. cbn [fst snd]. rewrite decide_True by left. by rewrite Ht. }
    unfold due at 1. rewrite filter_cons_False by (simpl; lia). fold (due now (advanced now (id :: take n (due now jobs)) jobs)).
    etransitivity; [|by apply IH]. f_equal. apply advanced_ext. intros u Hu. rewrite elem_of_cons. split; [|by right]. intros [->|?]; done.
  - rewrite Hkeep by (intros Hin; apply Hnot; by eapply elem_of_take in Hin as (i & Hi%list_elem_of_lookup_2 & _)). by apply IH.
Qed.

Lemma advanced_get now ran jobs t : t ∉ ran → dget (advanced now ran jobs) t = dget jobs t.
Proof.
  intros Ht. induction jobs as [|[k [e n]] jobs IH]; [done|]. unfold advanced. rewrite fmap_cons. simpl fst. fold (advanced now ran jobs).
  destruct (decide (k ∈ ran)) as [Hk|Hk]; simpl; destruct (decide (k = t)) as [->|]; done.
Qed.

End Cron.

End Cron.

(** Asking the cron scheduler hands out the first [limit] tasks whose next
    run has come, in the order of scheduling; each of them is moved to its next
    run after now, so it is not due again at this instant, and all others keep
    their next run, so that what the limit left over is handed out next. *)
Theorem cron_due get_next limit now jobs : NoDup (dkeys jobs) → Cron.continues get_next now jobs → (0 ≤ limit)%Z →
  let ran := take (Z.to_nat limit) (Cron.due now jobs) in
  Cron.get_ready_tasks get_next limit now jobs = (Some ran, Cron.advanced get_next now ran jobs) ∧
  Cron.due now (Cron.advanced get_next now ran jobs) = drop (Z.to_nat limit) (Cron.due now jobs) ∧
  ∀ t, t ∉ ran → Cron.get_next_run t (Cron.advanced get_next now ran jobs) = Cron.get_next_run t jobs.
Proof.
  intros Hnd Hc Hl ran. split_and!.
  - unfold Cron.get_ready_tasks. rewrite <- (Cron.advanced_nil get_next now jobs) at 2. rewrite Cron.due_loop_spec; [simpl; by rewrite Z.sub_0_r|done..|].
    exists []. split; [done|]. by intros t ?%elem_of_nil.
  - by apply Cron.due_advanced.
  - intros t Ht. unfold Cron.get_next_run. by rewrite Cron.advanced_get.
Qed.

(** ** DelayedScheduler *)

Module Delayed.

(** [_tasks]: the timer of each id; [live]: the timers that neither expired nor
    were cancelled; timers are numbered. *)
Record DelayedScheduler := { _tasks : list (string * nat); live : gset nat; next_timer : nat }.

Definition init : DelayedScheduler := {| _tasks := []; live := ∅; next_timer := 0 |}.

Definition cancel_timer (task_id : string) (s : DelayedScheduler) : gset nat :=
  match dget (_tasks s) task_id with Some n => live s ∖ {[n]} | None => live s end.

Definition schedule (task_id : string) (s : DelayedScheduler) : DelayedScheduler :=
  {| _tasks := dset (_tasks s) task_id (next_timer s); live := {[next_timer s]} ∪ cancel_timer task_id s; next_timer := S (next_timer s) |}.

Definition schedule_at (now run_at : Z) (task_id : string) (s : DelayedScheduler) : DelayedScheduler :=
  if (now <? run_at)%Z then schedule task_id s else s.

Definition cancel (task_id : string) (s : DelayedScheduler) : DelayedScheduler :=
  {| _tasks := ddel (_tasks s) task_id; live := cancel_timer task_id s; next_timer := next_timer s |}.

(** The delay is over: a warning is logged. *)
Definition expire (n : nat) (s : DelayedScheduler) : DelayedScheduler :=
  {| _tasks := _tasks s; live := live s ∖ {[n]}; next_timer := next_timer s |}.

Definition get_ready_tasks (limit : Z) (s : DelayedScheduler) : list string := [].

Inductive reachable : DelayedScheduler → Prop :=
  | D_init : reachable init
  | D_schedule t s : reachable s → reachable (schedule t s)
  | D_schedule_at now run_at t s : reachable s → reachable (schedule_at now run_at t s)
  | D_cancel t s : reachable s → reachable (cancel t s)
  | D_expire n s : reachable s → reachable (expire n s).

(** Every live timer is the timer of an id, and of one only. *)
Definition timers_ok (s : DelayedScheduler) : Prop :=
  (∀ n, n ∈ live s → ∃ t, dget (_tasks s) t = Some n) ∧
  (∀ t t' n, dget (_tasks s) t = Some n → dget (_tasks s) t' = Some n → t = t') ∧
  (∀ t n, dget (_tasks s) t = Some n → (n < next_timer s)%nat).

Lemma schedule_timers t s : timers_ok s → timers_ok (schedule t s).
Proof.
  intros (H1 & H2 & H3). split_and!; simpl.
  - intros n [->%elem_of_singleton|Hn]%elem_of_union; [exists t; apply dget_dset_eq|]. unfold cancel_timer in Hn.
    destruct (dget (_tasks s) t) as [m|] eqn:E.
    + destruct (H1 n) as [t' Ht']; [set_solver|]. exists t'. rewrite dget_dset_ne; [done|]. intros <-. assert (m = n) by congruence. set_solver.
    + destruct (H1 n) as [t' Ht']; [done|]. exists t'. rewrite dget_dset_ne; [done|]. intros <-. congruence.
  - intros t1 t2 n. rewrite !dget_dset. destruct (decide (t = t1)) as [<-|], (decide (t = t2)) as [<-|]; [done|..].
    + intros [= <-] Hn. apply H3 in Hn. lia.
    + intros Hn [= <-]. apply H3 in Hn. lia.
    + apply H2.
  - intros t1 n. rewrite dget_dset. destruct (decide (t = t1)) as [<-|]; [intros [= <-]; lia|]. intros Hn%H3. lia.
Qed.

Lemma cancel_timers t s : timers_ok s → timers_ok (cancel t s).
Proof.
  intros (H1 & H2 & H3). split_and!; simpl.
  - intros n Hn. unfold cancel_timer in Hn. destruct (dget (_tasks s) t) as [m|] eqn:E.
    + destruct (H1 n) as [t' Ht']; [set_solver|]. exists t'. rewrite dget_ddel, decide_False; [done|]. intros <-. assert (m = n) by congruence. set_solver.
    + destruct (H1 n) as [t' Ht']; [done|]. exists t'. rewrite dget_ddel, decide_False; [done|]. intros <-. congruence.
  - intros t1 t2 n. rewrite !dget_ddel. destruct (decide (t = t1)), (decide (t = t2)); [done..|]. apply H2.
  - intros t1 n. rewrite dget_ddel. destruct (decide (t = t1)); [done|]. apply H3.
Qed.

(** Rescheduling and cancelling leave no timer running behind. *)
Lemma reachable_timers s : reachable s → timers_ok s.
Proof.
  induction 1 as [|t s _ IH|now run_at t s _ IH|t s _ IH|n s _ (H1 & H2 & H3)].
  - split_and!; [by intros n ?%not_elem_of_empty|done|done].
  - by apply schedule_timers.
  - unfold schedule_at. destruct (now <? run_at)%Z; [by apply schedule_timers|done].
  - by apply cancel_timers.
  - split_and!; [|exact H2|exact H3]. intros m Hm. apply H1. set_solver.
Qed.

End Delayed.

Module SchedulersWitness.

Local Open Scope string_scope.

Definition queued : Priority.PriorityScheduler :=
  Priority.cancel "c" (Priority.schedule "b" 1 (Priority.schedule "c" 0 (Priority.schedule "a" 5 Priority.init))).

Lemma priority_witness : (Priority.get_ready_tasks 1 queued).1 = ["b"] ∧ Priority.waiting_line (Priority.get_ready_tasks 1 queued).2 = [(5%Z, "a")].
Proof.
  assert (Priority.queue_ok queued) as Hq.
  { split; [|apply (bool_decide_unpack _); by vm_compute]. vm_compute. repeat constructor. }
  destruct (priority_line queued "d" 0 1 Hq ltac:(lia)) as (_ & _ & _ & H1 & H2 & _). split; [etransitivity; [exact H1|]|etransitivity; [exact H2|]]; vm_compute; reflexivity.
Defined.

(** A task that is cancelled and scheduled again is handed out twice, and one
    that is scheduled twice survives its cancellation. *)
Example handed_out_twice :
  (Priority.get_ready_tasks 10 (Priority.schedule "a" 1 (Priority.cancel "a" (Priority.schedule "a" 5 Priority.init)))).1 = ["a"; "a"] ∧
  (Priority.get_ready_tasks 10 (Priority.cancel "a" (Priority.schedule "a" 1 (Priority.schedule "a" 5 Priority.init)))).1 = ["a"].
Proof. by vm_compute. Qed.

(** [b] waits for [a], which is done; [c] waits for both. *)
Definition graph : ByDependency.DependencyScheduler :=
  ByDependency.mark_completed "a" (ByDependency.schedule "c" (Some ["a"; "b"]) (ByDependency.schedule "b" (Some ["a"]) (ByDependency.schedule "a" None ByDependency.init))).

Lemma dependency_witness : ByDependency.get_ready_tasks 10 graph = ["b"] ∧ "c" ∈ ByDependency.get_waiting_tasks graph ∧ ByDependency.ready_now graph ≠ [].
Proof.
  assert (ByDependency.reachable graph) as Hr by (repeat constructor).
  destruct (dependency_scheduler_ready graph 10 Hr ltac:(lia)) as (H1 & _ & H3 & H4). split_and!.
  - etransitivity; [exact H1|]. vm_compute. reflexivity.
  - apply H3. split_and!; apply (bool_decide_unpack _); by vm_compute.
  - apply (H4 (λ t, if decide (t = "a") then 0%nat else if decide (t = "b") then 1%nat else 2%nat)).
    + assert (ByDependency._dependencies graph = [("a", ∅); ("b", {["a"]}); ("c", {["a"; "b"]})]) as E by (vm_compute; reflexivity).
      intros t d Ht. unfold ByDependency.get_dependencies. rewrite E in *. unfold dkeys in Ht. simpl in Ht. rewrite !elem_of_cons, elem_of_nil in Ht.
      destruct Ht as [->|[->|[->|[]]]]; simpl; [by intros ?%not_elem_of_empty|intros ->%elem_of_singleton|intros [->%elem_of_singleton| ->%elem_of_singleton]%elem_of_union];
        (split; [simpl; lia|left; unfold dkeys; simpl; set_solver]).
    + exists "b". split; apply (bool_decide_unpack _); by vm_compute.
Defined.

(** A job that runs every ten units *)
Definition every_ten (e : string) (now : Z) : option Z := Some (10 * (now / 10 + 1))%Z.
Definition jobs0 : list (string * (string * Z)) := [("a", ("*/10", 10%Z)); ("b", ("*/10", 30%Z)); ("c", ("*/10", 20%Z))].

Lemma cron_witness : Cron.get_ready_tasks every_ten 1 25 jobs0 = (Some ["a"], [("a", ("*/10", 30%Z)); ("b", ("*/10", 30%Z)); ("c", ("*/10", 20%Z))]) ∧
  Cron.due 25 (Cron.get_ready_tasks every_ten 1 25 jobs0).2 = ["c"].
Proof.
  assert (Cron.continues every_ten 25 jobs0) as Hc by (repeat (constructor; [exists 30%Z; split; [reflexivity|lia]|]); constructor).
  destruct (cron_due every_ten 1 25 jobs0 ltac:(by apply (bool_decide_unpack _)) Hc ltac:(lia)) as (H1 & H2 & _). split; [exact H1|]. rewrite H1. exact H2.
Defined.

End SchedulersWitness.
