(* ===== verification/OpenAi.v ===== *)
(** * The bridge to language-model endpoints

    bridge-openai/client.py: the request body, the translation of an endpoint's
    event stream into source chunks with its termination discipline, and what
    goes into the audit record.  The governed call around it is
    [GovernedCall]; HTTP is a parameter: the lines that the response delivers,
    and how they end. *)
From Stdlib Require Import ZArith Lia.
From stdpp Require Import prelude gmap list strings.
From S2P Require Import Prelude Effects Text.
Local Open Scope list_scope.

(** ** Requests *)

(** [d.get(k)] when it counts as true *)
Definition truth_at (d : row) (k : string) : option json :=
  match d !! k with Some v => if truthy v then Some v else None | None => None end.

Definition json_of {A} (f : A → json) (o : option A) : json := match o with Some a => f a | None => JNull end.

Section Client.

(** [self._model]; [self._api_key] *)
Context (default_model api_key : option string).

Definition not_none (kv : string * json) : Prop := kv.2 ≠ JNull.

Definition _payload (stream include_usage : bool) (kwargs : row) : row :=
  let body : row := filter not_none kwargs in
  let body := match default_model with
              | Some m => if bool_decide (m = ""%string) || bool_decide (is_Some (body !! "model"%string)) then body else <["model"%string := JStr m]> body
              | None => body
              end in
  if stream then
    let body := <["stream"%string := JBool true]> body in
    if include_usage then
      match body !! "stream_options"%string with
      | Some _ => body
      | None => <["stream_options"%string := JObj {[ "include_usage"%string := JBool true ]}]> body
      end
    else body
  else body.

(** The body of a streaming request: the keywords of [_payload] may not come
    twice. *)
Definition stream_body (request : option row) (messages : option (list json)) (model : option string) (include_usage : bool) (kwargs : row) : res exn row :=
  let payload := default ∅ request in
  let payload := match messages with Some m => <["messages"%string := JArr m]> payload | None => payload end in
  let payload := match model with Some m => <["model"%string := JStr m]> payload | None => payload end in
  let payload := kwargs ∪ payload in
  if bool_decide (is_Some (payload !! "stream"%string)) || bool_decide (is_Some (payload !! "include_usage"%string)) || bool_decide (is_Some (payload !! "self"%string))
  then Err TypeError' else Ok (_payload true include_usage payload).

(** The body of [chat]: [stream] and [include_usage] may be among the keywords
    and are then arguments of [_payload]. *)
Definition chat_body (messages : option (list json)) (model : option string) (kwargs : row) : row :=
  let flag k d := match kwargs !! k with Some v => truthy v | None => d end in
  _payload (flag "stream"%string false) (flag "include_usage"%string true)
    (<["messages"%string := json_of JArr messages]> (<["model"%string := json_of JStr model]> (delete "stream"%string (delete "include_usage"%string kwargs)))).

Definition _headers : list (string * string) :=
  ("Content-Type", "application/json")%string ::
  match api_key with Some k => if bool_decide (k = ""%string) then [] else [("Authorization", "Bearer " +:+ k)]%string | None => [] end.

End Client.

(** ** The stream *)

(** The chunks of [SourceChunk] that the bridge makes *)
Inductive source_chunk := Thinking (v : json) | Content (v : json) | Finish.

Record gen_state := { holder : row; partial : list json; completed : bool; chunks : nat }.

Definition gen_init : gen_state := {| holder := ∅; partial := []; completed := false; chunks := 0 |}.

Definition hold (k : string) (v : json) (st : gen_state) : gen_state :=
  {| holder := <[k := v]> (holder st); partial := partial st; completed := completed st; chunks := chunks st |}.
Definition count_chunk (st : gen_state) : gen_state :=
  {| holder := holder st; partial := partial st; completed := completed st; chunks := S (chunks st) |}.
Definition add_partial (v : json) (st : gen_state) : gen_state :=
  {| holder := holder st; partial := partial st ++ [v]; completed := completed st; chunks := chunks st |}.
Definition set_completed (st : gen_state) : gen_state :=
  {| holder := holder st; partial := partial st; completed := true; chunks := chunks st |}.

Definition on_delta (delta : row) (st : gen_state) : list source_chunk * gen_state :=
  let '(out, st) :=
    match match truth_at delta "reasoning_content" with Some v => Some v | None => truth_at delta "reasoning" end with
    | Some v => ([Thinking v], add_partial v st)
    | None => ([], st)
    end in
  match truth_at delta "content" with
  | Some v => (out ++ [Content v], add_partial v st)
  | None => (out, st)
  end.

(** [choices[0]]; the list counts as true *)
Definition first_choice (choices : json) : res exn json :=
  match choices with
  | JArr (c :: _) => Ok c
  | JArr [] => Err (Other "IndexError")
  | JStr s => Ok (JStr (String.substring 0 1 s))
  | JObj _ => Err KeyError
  | _ => Err TypeError'
  end.

(** [.get] *)
Definition as_dict (v : json) : res exn row := match v with JObj m => Ok m | _ => Err (Other "AttributeError") end.

Definition on_choice (choice : row) (st : gen_state) : list source_chunk * gen_state * option exn :=
  let st := match truth_at choice "finish_reason" with Some f => set_completed (hold "finish_reason" f st) | None => st end in
  match truth_at choice "delta" with
  | None => (on_delta ∅ st, None)
  | Some d => match as_dict d with Ok delta => (on_delta delta st, None) | Err e => ([], st, Some e) end
  end.

Definition on_object (obj : json) (st : gen_state) : list source_chunk * gen_state * option exn :=
  let st := count_chunk st in
  match as_dict obj with
  | Err e => ([], st, Some e)
  | Ok obj =>
      let st := match obj !! "usage"%string with Some JNull | None => st | Some usage => hold "usage" usage st end in
      let st := match truth_at obj "model" with Some m => hold "model" m st | None => st end in
      match truth_at obj "choices" with
      | None => ([], st, None)
      | Some choices =>
          match first_choice choices with
          | Err e => ([], st, Some e)
          | Ok c => match as_dict c with Err e => ([], st, Some e) | Ok c => on_choice c st end
          end
      end
  end.

Definition DATA : text := lit "data:".
Definition DONE : text := lit "[DONE]".

Section Gen.

(** [json.loads]; [None]: JSONDecodeError *)
Context (loads : text → option json).

(** How the loop over the lines was left *)
Inductive left_by := Sentinel | Exhausted | Raised (e : exn).

Fixpoint gen_lines (lines : list text) (st : gen_state) : list source_chunk * gen_state * left_by :=
  match lines with
  | [] => ([], st, Exhausted)
  | line :: lines =>
      if starts_with DATA line then
        let data := strip (drop 5 line) in
        if bool_decide (data = DONE) then ([], set_completed st, Sentinel)
        else
          match loads data with
          | None => gen_lines lines st
          | Some obj =>
              let '(out, st, raised) := on_object obj st in
              match raised with
              | Some e => (out, st, Raised e)
              | None => let '(out', st, how) := gen_lines lines st in (out ++ out', st, how)
              end
          end
      else gen_lines lines st
  end.

Definition STREAM_EMPTY : exn := Other "StreamEmptyError".
Definition STREAM_TRUNCATED : exn := Other "StreamTruncatedError".

Definition gen_end (st : gen_state) : list source_chunk * gen_state * res exn unit :=
  let st' := hold "stream_chunks" (JNum (Z.of_nat (chunks st))) (hold "termination" (JStr (if completed st then "completed" else "truncated")) st) in
  if completed st then ([Finish], st', Ok tt)
  else ([], st', Err (if bool_decide (chunks st = 0%nat) then STREAM_EMPTY else STREAM_TRUNCATED)).

(** [status]: what [raise_for_status] raises; [broken]: what the iteration
    over the lines raises at its end. *)
Definition _gen (status : option exn) (lines : list text) (broken : option exn) : list source_chunk * gen_state * res exn unit :=
  match status with
  | Some e => ([], gen_init, Err e)
  | None =>
      let '(out, st, how) := gen_lines lines gen_init in
      match how with
      | Raised e => (out, st, Err e)
      | Exhausted => match broken with Some e => (out, st, Err e) | None => let '(fin, st, r) := gen_end st in (out ++ fin, st, r) end
      | Sentinel => let '(fin, st, r) := gen_end st in (out ++ fin, st, r)
      end
  end.

End Gen.

(** ** What is recorded *)

(** [result_fn] *)
Definition stream_result (holder : row) : option row :=
  match holder !! "usage"%string with Some JNull | None => None | Some _ => Some holder end.

(** [choices[0].get("finish_reason")] of a response; [None] is a [None] or an
    exception, which the audit swallows with the whole payload. *)
Definition nested_finish (result : row) : res exn (option json) :=
  match result !! "choices"%string with
  | Some (JArr (c :: _)) => match as_dict c with Ok c => Ok (truth_at c "finish_reason") | Err e => Err e end
  | _ => Ok None
  end.

Definition _audit_payload (result : json) : res exn row :=
  match result with
  | JObj result =>
      let finish := match truth_at result "finish_reason" with Some f => Ok (Some f) | None => nested_finish result end in
      match finish with
      | Err e => Err e
      | Ok finish =>
          let out : row := match truth_at result "model" with Some m => {[ "model"%string := m ]} | None => ∅ end in
          let out := match result !! "usage"%string with Some (JObj u) => <["usage"%string := JObj u]> out | _ => out end in
          let out := match finish with Some f => <["finish_reason"%string := f]> out | None => out end in
          let out := match truth_at result "termination" with Some t => <["termination"%string := t]> out | None => out end in
          Ok (match result !! "stream_chunks"%string with Some JNull | None => out | Some n => <["stream_chunks"%string := n]> out end)
      end
  | _ => Ok ∅
  end.

(** [payload_fn] of a stream: [result_holder or r] *)
Definition stream_audit (holder : row) (r : json) : res exn row := _audit_payload (if bool_decide (holder = ∅) then r else JObj holder).

(** The default cost; [int_of] is [int] on what the endpoint reports *)
Definition _tokens_cost (int_of : json → res exn Z) (result : json) : res exn Z :=
  match result with
  | JObj result =>
      match truth_at result "usage" with
      | None => Ok 0%Z
      | Some (JObj usage) => match usage !! "total_tokens"%string with None => Ok 0%Z | Some n => int_of n end
      | Some _ => Err (Other "AttributeError")
      end
  | _ => Ok 0%Z
  end.

(** ** The stream as a whole

    The objects of a stream up to the sentinel, and whether the sentinel came *)

Section GenProofs.

Context (loads : text → option json).

Fixpoint frames (lines : list text) : list json * bool :=
  match lines with
  | [] => ([], false)
  | line :: lines =>
      if starts_with DATA line then
        if bool_decide (strip (drop 5 line) = DONE) then ([], true)
        else let '(objs, done) := frames lines in (option_list (loads (strip (drop 5 line))) ++ objs, done)
      else frames lines
  end.

Definition dict_of (v : json) : row := match v with JObj m => m | _ => ∅ end.
Definition choice_of (obj : row) : option row := match truth_at obj "choices" with Some (JArr (c :: _)) => Some (dict_of c) | _ => None end.

(** An object with choices that are choices and a delta that is a delta *)
Definition well_formed (v : json) : Prop :=
  match v with
  | JObj obj =>
      match truth_at obj "choices" with
      | None => True
      | Some (JArr (JObj c :: _)) => match truth_at c "delta" with Some (JObj _) | None => True | Some _ => False end
      | Some _ => False
      end
  | _ => False
  end.

(** What an object contributes *)
Definition finish_of (v : json) : option json := choice_of (dict_of v) ≫= λ c, truth_at c "finish_reason".
Definition usage_of (v : json) : option json := match dict_of v !! "usage"%string with Some JNull | None => None | Some u => Some u end.
Definition model_of (v : json) : option json := truth_at (dict_of v) "model".
Definition thoughts (delta : row) : option json := match truth_at delta "reasoning_content" with Some v => Some v | None => truth_at delta "reasoning" end.
Definition delta_chunks (v : json) : list source_chunk :=
  match choice_of (dict_of v) with
  | None => []
  | Some c =>
      let delta := match truth_at c "delta" with Some d => dict_of d | None => ∅ end in
      option_list (Thinking <$> thoughts delta) ++ option_list (Content <$> truth_at delta "content")
  end.

(** The holder after the objects *)
Definition held (k : string) (o : option json) (h : row) : row := match o with Some v => <[k := v]> h | None => h end.
Definition held_after (v : json) (h : row) : row := held "finish_reason" (finish_of v) (held "model" (model_of v) (held "usage" (usage_of v) h)).

Lemma on_delta_out delta st : (on_delta delta st).1 = option_list (Thinking <$> thoughts delta) ++ option_list (Content <$> truth_at delta "content") ∧
  holder (on_delta delta st).2 = holder st ∧ completed (on_delta delta st).2 = completed st ∧ chunks (on_delta delta st).2 = chunks st.
Proof. unfold on_delta, thoughts. destruct (truth_at delta "reasoning_content"), (truth_at delta "reasoning"), (truth_at delta "content"); by split_and!. Qed.

Lemma on_object_ok v st : well_formed v →
  ∃ st', on_object v st = (delta_chunks v, st', None) ∧ holder st' = held_after v (holder st) ∧ chunks st' = S (chunks st) ∧
    completed st' = completed st || bool_decide (is_Some (finish_of v)).
Proof.
  intros Hv. unfold on_object, held_after, delta_chunks, finish_of, usage_of, model_of, choice_of. destruct v as [| | | | | | |obj]; try done. simpl in *.
  set (st1 := match obj !! "usage"%string with Some JNull | None => count_chunk st | Some usage => hold "usage" usage (count_chunk st) end).
  assert (holder st1 = held "usage" (usage_of (JObj obj)) (holder st) ∧ chunks st1 = S (chunks st) ∧ completed st1 = completed st) as (Eh & Ec & Ed).
  { unfold st1, usage_of. simpl. by destruct (obj !! "usage"%string) as [[]|]. }
  unfold usage_of in Eh. simpl in Eh.
  set (st2 := match truth_at obj "model" with Some m => hold "model" m st1 | None => st1 end).
  assert (holder st2 = held "model" (truth_at obj "model") (holder st1) ∧ chunks st2 = S (chunks st) ∧ completed st2 = completed st) as (Eh2 & Ec2 & Ed2).
  { unfold st2. by destruct (truth_at obj "model"). }
  rewrite <- Eh, <- Eh2. clearbody st1 st2. clear -Hv Ec2 Ed2.
  destruct (truth_at obj "choices") as [[| | | | | |[|c l]|]|]; try done.
  - destruct c as [| | | | | | |c]; try done. simpl. unfold on_choice.
    set (st3 := match truth_at c "finish_reason" with Some f => set_completed (hold "finish_reason" f st2) | None => st2 end).
    assert (holder st3 = held "finish_reason" (truth_at c "finish_reason") (holder st2) ∧ chunks st3 = S (chunks st) ∧
            completed st3 = completed st || bool_decide (is_Some (truth_at c "finish_reason"))) as (Eh3 & Ec3 & Ed3).
    { unfold st3. destruct (truth_at c "finish_reason"); simpl; [by rewrite orb_true_r|]. by rewrite Ec2, Ed2, orb_false_r. }
    clearbody st3. destruct (truth_at c "delta") as [d|].
    + destruct d as [| | | | | | |d]; try done. simpl. destruct (on_delta_out d st3) as (E1 & E2 & E3 & E4). destruct (on_delta d st3) as [out st4]. simpl in *.
      exists st4. split_and!; congruence.
    + destruct (on_delta_out ∅ st3) as (E1 & E2 & E3 & E4). destruct (on_delta ∅ st3) as [out st4]. simpl in *. exists st4. split_and!; congruence.
  - exists st2. split_and!; [done..|]. by rewrite Ed2, orb_false_r.
Qed.

Lemma gen_lines_ok lines st : Forall well_formed (frames lines).1 →
  ∃ st', gen_lines loads lines st = ((frames lines).1 ≫= delta_chunks, st', if (frames lines).2 then Sentinel else Exhausted) ∧
    holder st' = fold_left (λ h v, held_after v h) (frames lines).1 (holder st) ∧ chunks st' = (chunks st + length (frames lines).1)%nat ∧
    completed st' = completed st || existsb (λ v, bool_decide (is_Some (finish_of v))) (frames lines).1 || (frames lines).2.
Proof.
  revert st. induction lines as [|line lines IH]; intros st Hw; cbn [gen_lines frames].
  { exists st. simpl. split_and!; [done..|lia|]. by rewrite !orb_false_r. }
  cbn [frames] in Hw. destruct (starts_with DATA line); [|by apply IH]. destruct (bool_decide (strip (drop 5 line) = DONE)).
  { exists (set_completed st). simpl. split_and!; [done..|lia|]. by rewrite orb_true_r. }
  destruct (frames lines) as [objs done] eqn:Ef. simpl in *. destruct (loads (strip (drop 5 line))) as [v|]; simpl in *; [|by apply IH].
  apply Forall_cons in Hw as [Hv Hw]. destruct (on_object_ok v st Hv) as (st1 & -> & Eh & Ec & Ed).
  destruct (IH st1 Hw) as (st' & -> & Eh' & Ec' & Ed'). exists st'. split_and!; [done|by rewrite Eh', Eh|lia|]. by rewrite Ed', Ed, !orb_assoc.
Qed.

(** The last of the values that the objects hold under a key *)
Lemma held_last (k : string) (f : json → option json) (g : json → row → row) objs h :
  (∀ v h, g v h !! k = match f v with Some x => Some x | None => h !! k end) →
  fold_left (λ h v, g v h) objs h !! k = match last (omap f objs) with Some x => Some x | None => h !! k end.
Proof.
  intros Hg. induction objs as [|v objs IH] using rev_ind; [done|]. rewrite fold_left_app, omap_app. simpl. rewrite Hg.
  destruct (f v) as [x|] eqn:E; simpl; [by rewrite last_snoc|]. by rewrite app_nil_r.
Qed.

Lemma held_after_at v h :
  held_after v h !! "finish_reason"%string = match finish_of v with Some x => Some x | None => h !! "finish_reason"%string end ∧
  held_after v h !! "model"%string = match model_of v with Some x => Some x | None => h !! "model"%string end ∧
  held_after v h !! "usage"%string = match usage_of v with Some x => Some x | None => h !! "usage"%string end.
Proof. unfold held_after, held. destruct (finish_of v), (model_of v), (usage_of v); split_and!; by simplify_map_eq. Qed.

(** The holder at the end of a stream *)
Definition final_holder (objs : list json) (complete : bool) : row :=
  <["stream_chunks"%string := JNum (Z.of_nat (length objs))]> (<["termination"%string := JStr (if complete then "completed" else "truncated")]>
    (fold_left (λ h v, held_after v h) objs ∅)).

(** A stream is complete when the sentinel came or a choice gave a reason to finish. *)
Definition is_complete (lines : list text) : bool := existsb (λ v, bool_decide (is_Some (finish_of v))) (frames lines).1 || (frames lines).2.

Lemma gen_whole lines broken : Forall well_formed (frames lines).1 → broken = None ∨ (frames lines).2 = true →
  ∃ st, _gen loads None lines broken =
    (((frames lines).1 ≫= delta_chunks) ++ (if is_complete lines then [Finish] else []), st,
     if is_complete lines then Ok tt else Err (if bool_decide ((frames lines).1 = []) then STREAM_EMPTY else STREAM_TRUNCATED)) ∧
    holder st = final_holder (frames lines).1 (is_complete lines).
Proof.
  intros Hw Hb. unfold _gen. destruct (gen_lines_ok lines gen_init Hw) as (st & -> & Eh & Ec & Ed). simpl in Eh, Ec, Ed. fold (is_complete lines) in Ed.
  assert (∃ st', (let '(fin, st', r) := gen_end st in (((frames lines).1 ≫= delta_chunks) ++ fin, st', r)) =
    (((frames lines).1 ≫= delta_chunks) ++ (if is_complete lines then [Finish] else []), st',
     if is_complete lines then Ok tt else Err (if bool_decide ((frames lines).1 = []) then STREAM_EMPTY else STREAM_TRUNCATED)) ∧
    holder st' = final_holder (frames lines).1 (is_complete lines)) as H.
  { unfold gen_end. rewrite Ed, Ec. unfold final_holder. rewrite <- Eh. destruct (is_complete lines); [by eexists|].
    eexists. split; [by rewrite (bool_decide_ext _ _ (length_zero_iff_nil _))|done]. }
  destruct (frames lines).2; [exact H|]. destruct Hb as [->|[=]]. exact H.
Qed.

Lemma truth_at_truthy d k v : truth_at d k = Some v → truthy v = true.
Proof. unfold truth_at. destruct (d !! k) as [x|]; [|done]. destruct (truthy x) eqn:E; [|done]. by intros [= <-]. Qed.

Lemma last_truthy (f : json → option json) objs x : (∀ v y, f v = Some y → truthy y = true) → last (omap f objs) = Some x → truthy x = true.
Proof. intros Hf Hl. apply last_Some_elem_of, list_elem_of_omap in Hl as (v & _ & Hv). by eapply Hf. Qed.

(** What the audit record of a stream says *)
Definition audited (objs : list json) (complete : bool) (p : row) : Prop :=
  p !! "termination"%string = Some (JStr (if complete then "completed" else "truncated")) ∧
  p !! "stream_chunks"%string = Some (JNum (Z.of_nat (length objs))) ∧
  p !! "finish_reason"%string = last (omap finish_of objs) ∧
  p !! "model"%string = last (omap model_of objs) ∧
  p !! "usage"%string = match last (omap usage_of objs) with Some (JObj u) => Some (JObj u) | _ => None end.

Lemma truth_at_some (d : row) k o : d !! k = o → (∀ v, o = Some v → truthy v = true) → truth_at d k = o.
Proof. intros <- Ho. unfold truth_at. destruct (d !! k) as [v|]; [|done]. by rewrite Ho. Qed.

Lemma final_audit objs complete : ∃ p, _audit_payload (JObj (final_holder objs complete)) = Ok p ∧ audited objs complete p.
Proof.
  set (h := final_holder objs complete).
  assert (h !! "stream_chunks"%string = Some (JNum (Z.of_nat (length objs))) ∧ h !! "termination"%string = Some (JStr (if complete then "completed" else "truncated"))) as [Es Et]
    by (unfold h, final_holder; by simplify_map_eq).
  assert (∀ k f, k ≠ "stream_chunks"%string → k ≠ "termination"%string → (∀ v h, held_after v h !! k = match f v with Some x => Some x | None => h !! k end) → h !! k = last (omap f objs)) as Hk.
  { intros k f H1 H2 Hf. unfold h, final_holder. rewrite !lookup_insert_ne by done. rewrite (held_last k f held_after objs ∅ Hf), lookup_empty. by destruct (last _). }
  pose proof (Hk "finish_reason"%string finish_of ltac:(done) ltac:(done) ltac:(intros; apply held_after_at)) as Ef.
  pose proof (Hk "model"%string model_of ltac:(done) ltac:(done) ltac:(intros; apply held_after_at)) as Em.
  pose proof (Hk "usage"%string usage_of ltac:(done) ltac:(done) ltac:(intros; apply held_after_at)) as Eu.
  assert (h !! "choices"%string = None) as Ec.
  { rewrite (Hk "choices"%string (λ _, None)); [clear; by induction objs|done|done|]. intros v h0. unfold held_after, held. destruct (finish_of v), (model_of v), (usage_of v); by simplify_map_eq. }
  assert (truth_at h "finish_reason" = last (omap finish_of objs)) as Ef'.
  { apply truth_at_some; [done|]. intros x. apply last_truthy. intros v y. unfold finish_of. destruct (choice_of _); [|done]. apply truth_at_truthy. }
  assert (truth_at h "model" = last (omap model_of objs)) as Em' by (apply truth_at_some; [done|]; intros x; apply last_truthy; intros v y; apply truth_at_truthy).
  assert (truth_at h "termination" = Some (JStr (if complete then "completed" else "truncated"))) as Et' by (apply truth_at_some; [done|]; intros v [= <-]; by destruct complete).
  clearbody h. unfold _audit_payload. rewrite Ef', Em', Et', Es, Eu. unfold nested_finish. rewrite Ec.
  destruct (last (omap finish_of objs)) as [f|] eqn:E1, (last (omap model_of objs)) as [m|] eqn:E2, (last (omap usage_of objs)) as [[| | | | | | |u]|] eqn:E3;
    (eexists; split; [done|]; unfold audited; rewrite E1, E2, E3; split_and!; by simplify_map_eq).
Qed.

End GenProofs.

(** C32: the bridge never passes a partial body as a completed stream: when the
    lines were read to the end (or to the sentinel) and the objects are well
    formed, the chunks are the thoughts and contents of the deltas in order, and the
    stream ends with exactly one finish chunk when the sentinel or a finish
    reason was seen, and otherwise raises (one error when nothing came, another
    when the body was cut off) without a finish chunk; a connection that breaks raises its
    own error, without a finish chunk; the audit record tells which, with the number of
    objects and the last finish reason, model and usage. *)
Theorem openai_stream_discipline loads lines broken : Forall well_formed (frames loads lines).1 →
  let objs := (frames loads lines).1 in
  let complete := is_complete loads lines in
  match broken, (frames loads lines).2 with
  | Some e, false => (_gen loads None lines broken).1.1 = objs ≫= delta_chunks ∧ (_gen loads None lines broken).2 = Err e
  | _, _ => ∃ st, _gen loads None lines broken =
      ((objs ≫= delta_chunks) ++ (if complete then [Finish] else []), st,
       if complete then Ok tt else Err (if bool_decide (objs = []) then STREAM_EMPTY else STREAM_TRUNCATED)) ∧
      ∀ r, ∃ p, stream_audit (holder st) r = Ok p ∧ audited objs complete p
  end.
Proof.
  intros Hw objs complete. assert (broken = None ∨ (frames loads lines).2 = true → ∃ st, _gen loads None lines broken =
      ((objs ≫= delta_chunks) ++ (if complete then [Finish] else []), st,
       if complete then Ok tt else Err (if bool_decide (objs = []) then STREAM_EMPTY else STREAM_TRUNCATED)) ∧
      ∀ r, ∃ p, stream_audit (holder st) r = Ok p ∧ audited objs complete p) as H.
  { intros Hb. destruct (gen_whole loads lines broken Hw Hb) as (st & E & Eh). exists st. split; [exact E|]. intros r. unfold stream_audit. rewrite Eh, bool_decide_false.
    - apply final_audit.
    - intros Ee. apply (f_equal (lookup "stream_chunks"%string)) in Ee. unfold final_holder in Ee. by simplify_map_eq. }
  destruct broken as [e|]; [|by apply H; left]. destruct (frames loads lines).2 eqn:Ed; [by apply H; right|].
  unfold _gen. destruct (gen_lines_ok loads lines gen_init Hw) as (st & -> & _). by rewrite Ed.
Qed.

(** What of a value goes into a body *)
Definition sent (o : option json) : option json := match o with Some JNull | None => None | Some v => Some v end.

Lemma filter_sent (kw : row) k : (filter not_none kw : row) !! k = sent (kw !! k).
Proof.
  destruct (kw !! k) as [v|] eqn:E; simpl.
  - destruct (decide (v = JNull)) as [->|Hv]; [apply map_lookup_filter_None; right; intros v E' Hn; rewrite E in E'; injection E' as <-; by apply Hn|].
    assert ((filter not_none kw : row) !! k = Some v) as -> by (by apply map_lookup_filter_Some). by destruct v.
  - apply map_lookup_filter_None. by left.
Qed.

(** The body of a request: what the caller gives is sent as it is, except
    what is [None]; the model of the client is a default, the stream flag is set,
    and usage is asked for unless the caller decides otherwise. *)
Theorem openai_payload default_model stream include_usage kwargs k :
  _payload default_model stream include_usage kwargs !! k =
    if decide (k = "stream"%string ∧ stream = true) then Some (JBool true)
    else match sent (kwargs !! k) with
         | Some v => Some v
         | None =>
             if decide (k = "model"%string) then match default_model with Some m => if decide (m = ""%string) then None else Some (JStr m) | None => None end
             else if decide (k = "stream_options"%string ∧ stream = true ∧ include_usage = true) then Some (JObj {[ "include_usage"%string := JBool true ]})
             else None
         end.
Proof.
  unfold _payload. set (body := filter not_none kwargs : row).
  set (body2 := match default_model with Some m => _ | None => _ end).
  assert (∀ k, body2 !! k = match sent (kwargs !! k) with
         | Some v => Some v
         | None => if decide (k = "model"%string) then match default_model with Some m => if decide (m = ""%string) then None else Some (JStr m) | None => None end else None
         end) as H2.
  { intros j. unfold body2. destruct default_model as [m|].
    - destruct (decide (m = ""%string)) as [->|Hm]; simpl.
      + unfold body. rewrite filter_sent. destruct (sent _); [done|]. by destruct (decide (j = _)).
      + rewrite bool_decide_false by done. simpl. case_bool_decide as Hb.
        * unfold body in *. rewrite filter_sent in *. destruct (sent (kwargs !! j)) eqn:E; [done|]. destruct (decide (j = _)) as [->|]; [|done]. rewrite E in Hb. by destruct Hb.
        * destruct (decide (j = "model"%string)) as [->|Hj].
          -- rewrite lookup_insert_eq. unfold body in Hb. rewrite filter_sent in Hb. destruct (sent _); [by destruct Hb|done].
          -- rewrite lookup_insert_ne by done. unfold body. rewrite filter_sent. by destruct (sent _).
    - unfold body. rewrite filter_sent. destruct (sent _); [done|]. by destruct (decide (j = _)). }
  clearbody body2. destruct stream.
  2: { rewrite decide_False by (intros [_ ?]; done). rewrite H2. destruct (sent (kwargs !! k)); [done|]. destruct (decide (k = "model"%string)); [done|]. rewrite decide_False by (intros (_ & ? & _); done). done. }
  destruct (decide (k = "stream"%string ∧ true = true)) as [[-> _]|Hk].
  { destruct include_usage; [|by rewrite lookup_insert_eq]. rewrite lookup_insert_ne by done. destruct (body2 !! _); [by rewrite lookup_insert_eq|].
    by rewrite lookup_insert_ne, lookup_insert_eq. }
  assert ("stream"%string ≠ k) as Hs by (intros <-; by apply Hk).
  destruct include_usage.
  - rewrite (lookup_insert_ne _ "stream"%string "stream_options"%string) by done. destruct (body2 !! "stream_options"%string) as [o|] eqn:Eo.
    + rewrite lookup_insert_ne by done. rewrite H2. destruct (sent (kwargs !! k)) eqn:E; [done|]. destruct (decide (k = "model"%string)); [done|].
      destruct (decide _) as [(-> & _)|]; [|done]. rewrite H2, E in Eo. done.
    + destruct (decide (k = "stream_options"%string)) as [->|Hn].
      * rewrite lookup_insert_eq. rewrite H2 in Eo. destruct (sent _); [done|]. done.
      * rewrite !lookup_insert_ne by done. rewrite H2. destruct (sent _); [done|]. destruct (decide (k = "model"%string)); [done|]. by rewrite decide_False by (by intros [? _]).
  - rewrite lookup_insert_ne by done. rewrite H2. destruct (sent _); [done|]. destruct (decide (k = "model"%string)); [done|]. by rewrite decide_False by (by intros (_ & _ & ?)).
Qed.

Module OpenAiWitness.

Local Open Scope string_scope.

Definition delta_obj (k v : string) (finish : json) : json :=
  JObj {[ "choices" := JArr [JObj {[ "delta" := JObj {[ k := JStr v ]}; "finish_reason" := finish ]}] ]}.
Definition usage_obj : json := JObj {[ "choices" := JArr []; "model" := JStr "m"; "usage" := JObj {[ "total_tokens" := JNum 7 ]} ]}.

(** What the texts of the lines stand for *)
Definition demo_loads (t : text) : option json :=
  if decide (t = lit "1") then Some (delta_obj "reasoning" "hm" JNull)
  else if decide (t = lit "2") then Some (delta_obj "content" "hello" (JStr "stop"))
  else if decide (t = lit "3") then Some usage_obj else None.

Definition lines0 : list text := [lit ": ping"; lit "data: 1"; lit "data: oops"; lit "data: 2"; lit "data:3"].

Lemma stream_discipline_witness : ∃ st, _gen demo_loads None lines0 None = ([Thinking (JStr "hm"); Content (JStr "hello"); Finish], st, Ok tt) ∧
  ∀ r, ∃ p, stream_audit (holder st) r = Ok p ∧ audited [delta_obj "reasoning" "hm" JNull; delta_obj "content" "hello" (JStr "stop"); usage_obj] true p.
Proof.
  assert (Forall well_formed (frames demo_loads lines0).1) as Hw by (vm_compute; repeat (apply List.Forall_cons; [exact I|]); apply List.Forall_nil).
  destruct (openai_stream_discipline demo_loads lines0 None Hw) as (st & E & Hp). exists st. split; [etransitivity; [exact E|]; vm_compute; reflexivity|].
  intros r. destruct (Hp r) as (p & Hr & Ha). exists p. split; [exact Hr|]. exact Ha.
Defined.

(** The same stream, cut off before the reason to finish *)
Example cut_off : (_gen demo_loads None [lit "data: 1"] None).2 = Err STREAM_TRUNCATED ∧ (_gen demo_loads None [lit ": ping"] None).2 = Err STREAM_EMPTY.
Proof. by vm_compute. Qed.

(** A request whose payload says [stream] is refused before anything is sent. *)
Example stream_in_payload : stream_body None (Some {[ "stream" := JBool true ]}) None None true ∅ = Err TypeError'.
Proof. by vm_compute. Qed.

End OpenAiWitness.
