(* ===== verification/Lineage.v ===== *)
(** * Lineage of tasks

    flow/core/lineage.py: the tree of a task, the path from its root, and
    statistics, assembled from the records and the child index of the store. *)
From Stdlib Require Import ZArith Lia.
From stdpp Require Import prelude gmap list strings relations.
From S2P Require Import Prelude Redis TaskDb Effects TaskStorage Lifecycle RefStore.
Local Open Scope list_scope.

Definition _MAX_LINEAGE_DEPTH : nat := 32.

Inductive cut_reason := depth_limit_reached | cycle_detected.

(** A node is the dict of a task without its [children], or the mark of a
    place where the walk was cut. *)
Inductive lineage_node :=
  | Node (task_id : string) (fields : row) (children : list lineage_node)
  | Cut (task_id : string) (error : cut_reason).

Definition get_or_none (r : row) (k : string) : json := default JNull (r !! k).

Definition node_fields (extra_fields : list string) (task_id : string) (record : row) : row :=
  delete "children"%string
    (fold_left (λ (node : row) (field : string), match record !! field with Some v => <[field := v]> node | None => node end) extra_fields
      {[ "task_id" := JStr task_id; "status" := get_or_none record "status"; "resource" := get_or_none record "resource";
         "cancel_requested" := default (JBool false) (record !! "cancel_requested") ]}%string).

(** The children in order, with the one set of visited tasks *)
Fixpoint visit_all (f : string → gset string → storeM (lineage_node * gset string)) (ids : list string) (visited : gset string) : storeM (list lineage_node * gset string) :=
  match ids with
  | [] => ret ([], visited)
  | c :: ids => let! x := f c visited in let! y := visit_all f ids x.2 in ret (x.1 :: y.1, y.2)
  end.

(** [fuel]: the levels that are left, [_MAX_LINEAGE_DEPTH - depth] *)
Fixpoint _build_node (extra_fields : list string) (fuel : nat) (task_id : string) (visited : gset string) : storeM (lineage_node * gset string) :=
  match fuel with
  | O => ret (Cut task_id depth_limit_reached, visited)
  | S fuel =>
      if decide (task_id ∈ visited) then ret (Cut task_id cycle_detected, visited)
      else
        let! record := call (GetTask task_id) in
        let! children_ids := call (ListChildren task_id) in
        let! kids := visit_all (_build_node extra_fields fuel) children_ids ({[task_id]} ∪ visited) in
        ret (Node task_id (node_fields extra_fields task_id record) kids.1, kids.2)
  end.

Definition build_tree (root_task_id : string) (include_fields : option (list string)) : storeM lineage_node :=
  let! x := _build_node (default [] include_fields) _MAX_LINEAGE_DEPTH root_task_id ∅ in ret x.1.

(** *** The path *)

(** A parent is a task id; anything else that is not [None] is no id. *)
Definition parent_of (record : row) : option string := match record !! "parent_task_id"%string with Some (JStr p) => Some p | _ => None end.

Fixpoint path_loop (fuel : nat) (path : list string) (visited : gset string) (current : string) : storeM (list string) :=
  match fuel with
  | O => ret path
  | S fuel =>
      pbind (call (GetTask current)) (λ r,
        match r with
        | Err e => if is_exception e then ret path else raise e
        | Ok record =>
            match parent_of record with
            | None => ret path
            | Some parent => if decide (parent ∈ visited) then ret path else path_loop fuel (parent :: path) ({[parent]} ∪ visited) parent
            end
        end)
  end.

Definition get_lineage_path (task_id : string) : storeM (list string) := path_loop _MAX_LINEAGE_DEPTH [task_id] {[task_id]} task_id.

(** *** Statistics *)

Record tree_stats := { total : nat; by_status : list (json * nat); by_resource : list (json * nat) }.

Definition bump (k : json) (d : list (json * nat)) : list (json * nat) := dset d k (S (default 0%nat (dget d k))).

Definition count_node (fields : row) (st : tree_stats) : tree_stats :=
  let status := match fields !! "status"%string with Some v => if truthy v then v else JStr "unknown" | None => JStr "unknown" end in
  {| total := S (total st); by_status := bump status (by_status st);
     by_resource := match fields !! "resource"%string with Some v => if truthy v then bump v (by_resource st) else by_resource st | None => by_resource st end |}.

(** [_walk]: a cut node has neither status nor resource nor children. *)
Fixpoint walk_stats (n : lineage_node) (st : tree_stats) : tree_stats :=
  match n with
  | Cut _ _ => count_node ∅ st
  | Node _ fields kids => fold_left (λ st k, walk_stats k st) kids (count_node fields st)
  end.

Definition get_tree_stats (root_task_id : string) : storeM tree_stats :=
  let! tree := build_tree root_task_id None in
  ret (walk_stats tree {| total := 0; by_status := []; by_resource := [] |}).

(** ** What a tree says *)

Section Trees.

Context (s : ref_store) (extra : list string).

(** The same walk, as a function of the store *)
Fixpoint visit_in (f : string → gset string → lineage_node * gset string) (ids : list string) (visited : gset string) : list lineage_node * gset string :=
  match ids with
  | [] => ([], visited)
  | c :: ids => let x := f c visited in let y := visit_in f ids x.2 in (x.1 :: y.1, y.2)
  end.

Fixpoint tree_in (fuel : nat) (id : string) (visited : gset string) : lineage_node * gset string :=
  match fuel with
  | O => (Cut id depth_limit_reached, visited)
  | S fuel =>
      if decide (id ∈ visited) then (Cut id cycle_detected, visited)
      else let kids := visit_in (tree_in fuel) (children_of s id) ({[id]} ∪ visited) in (Node id (node_fields extra id (task_of s id)) kids.1, kids.2)
  end.

Lemma run_visit f g ids V : (∀ c V, run (f c V) s = (Ok (g c V), s)) → run (visit_all f ids V) s = (Ok (visit_in g ids V), s).
Proof.
  intros Hf. revert V. induction ids as [|c ids IH]; intros V; cbn [visit_all visit_in]; [done|]. rewrite play_seq, Hf, play_seq, IH. done.
Qed.

Lemma run_build fuel id V : run (_build_node extra fuel id V) s = (Ok (tree_in fuel id V), s).
Proof.
  revert id V. induction fuel as [|fuel IH]; intros id V; cbn [_build_node tree_in]; [done|]. destruct (decide (id ∈ V)); [done|].
  rewrite play_seq, (run_store (GetTask id)). cbn [ref_call]. rewrite play_seq, (run_store (ListChildren id)). cbn [ref_call].
  rewrite play_seq, (run_visit _ (tree_in fuel)) by done. done.
Qed.

(** The tasks of a tree in the order of the walk, and the places where it was cut *)
Fixpoint ids_of (n : lineage_node) : list string := match n with Node id _ kids => id :: concat (map ids_of kids) | Cut _ _ => [] end.
Fixpoint cuts_of (n : lineage_node) : list (string * cut_reason) := match n with Node _ _ kids => concat (map cuts_of kids) | Cut id e => [(id, e)] end.
Definition id_of (n : lineage_node) : string := match n with Node id _ _ => id | Cut id _ => id end.

(** What a node tells of the record of its task: the id, the status and the
    resource (or None), whether a cancellation was requested (or False), the
    fields that were asked for, and nothing else; the children stand apart. *)
Definition tells (id : string) (fields : row) : Prop :=
  let record := task_of s id in
  ("task_id"%string ∉ extra → fields !! "task_id"%string = Some (JStr id)) ∧
  fields !! "status"%string = Some (default JNull (record !! "status"%string)) ∧
  fields !! "resource"%string = Some (default JNull (record !! "resource"%string)) ∧
  fields !! "cancel_requested"%string = Some (default (JBool false) (record !! "cancel_requested"%string)) ∧
  (∀ k v, k ∈ extra → k ≠ "children"%string → record !! k = Some v → fields !! k = Some v) ∧
  (∀ k, k ∉ ["task_id"; "status"; "resource"; "cancel_requested"]%string → k ∉ extra ∨ record !! k = None → fields !! k = None).

Lemma extra_fields_lookup (record node : row) (l : list string) k :
  fold_left (λ (node : row) (field : string), match record !! field with Some v => <[field := v]> node | None => node end) l node !! k =
  if decide (k ∈ l) then match record !! k with Some v => Some v | None => node !! k end else node !! k.
Proof.
  revert node. induction l as [|f l IH]; intros node; cbn [fold_left]; [by rewrite decide_False by apply not_elem_of_nil|].
  rewrite IH. destruct (decide (k = f)) as [->|Hne].
  - rewrite (decide_True (P := f ∈ f :: l)) by left. destruct (record !! f) as [v|]; [rewrite lookup_insert_eq|]; by destruct (decide (f ∈ l)).
  - assert (match record !! f with Some v => <[f := v]> node | None => node end !! k = node !! k) as ->.
    { destruct (record !! f); [by rewrite lookup_insert_ne|done]. }
    destruct (decide (k ∈ l)); [by rewrite decide_True by (by right)|]. by rewrite decide_False by (by intros [?|?]%elem_of_cons).
Qed.

Lemma node_tells id : tells id (node_fields extra id (task_of s id)).
Proof.
  unfold tells, node_fields, get_or_none. generalize (task_of s id) as record. intros record. split_and!.
  - intros Hx. rewrite lookup_delete_ne by done. rewrite extra_fields_lookup, decide_False by done. by simplify_map_eq.
  - rewrite lookup_delete_ne by done. rewrite extra_fields_lookup. case_decide; destruct (record !! "status"%string); by simplify_map_eq.
  - rewrite lookup_delete_ne by done. rewrite extra_fields_lookup. case_decide; destruct (record !! "resource"%string); by simplify_map_eq.
  - rewrite lookup_delete_ne by done. rewrite extra_fields_lookup. case_decide; destruct (record !! "cancel_requested"%string); by simplify_map_eq.
  - intros k v Hk Hc Hv. rewrite lookup_delete_ne by done. by rewrite extra_fields_lookup, decide_True, Hv by done.
  - intros k Hk Hx. rewrite !not_elem_of_cons in Hk. destruct Hk as (H1 & H2 & H3 & H4 & _).
    destruct (decide (k = "children"%string)) as [->|Hc]; [by rewrite lookup_delete_eq|]. rewrite lookup_delete_ne by done. rewrite extra_fields_lookup.
    rewrite !lookup_insert_ne, lookup_singleton_ne by done. case_decide; [|done]. destruct Hx as [?| ->]; done.
Qed.

(** Every node tells what the record says, and has the children of the index. *)
Fixpoint faithful (n : lineage_node) : Prop :=
  match n with
  | Cut _ _ => True
  | Node id fields kids => tells id fields ∧ map id_of kids = children_of s id ∧ fold_right (λ k P, faithful k ∧ P) True kids
  end.

Definition child_of (p c : string) : Prop := c ∈ children_of s p.
Definition below : string → string → Prop := rtc child_of.

(** What a walk from [V] to [V'] that visits [ids] is *)
Definition walked (V V' : gset string) (ids : list string) : Prop := NoDup ids ∧ (∀ x, x ∈ ids → x ∉ V) ∧ V' = list_to_set ids ∪ V.

Lemma walked_nil V : walked V V [].
Proof. split_and!; [constructor|by intros ? ?%elem_of_nil|set_solver]. Qed.

Lemma walked_app V V1 V2 l1 l2 : walked V V1 l1 → walked V1 V2 l2 → walked V V2 (l1 ++ l2).
Proof.
  intros (N1 & D1 & ->) (N2 & D2 & ->). split_and!.
  - apply NoDup_app. split_and!; [done| |done]. intros x Hx1 Hx2. specialize (D2 x Hx2). set_solver.
  - intros x [Hx|Hx]%elem_of_app; [by apply D1|]. specialize (D2 x Hx). set_solver.
  - rewrite list_to_set_app_L. set_solver.
Qed.

Lemma visit_sound (f : string → gset string → lineage_node * gset string) ids V :
  (∀ c V, c ∈ ids → walked V (f c V).2 (ids_of (f c V).1) ∧ faithful (f c V).1 ∧ id_of (f c V).1 = c ∧ ∀ x, x ∈ ids_of (f c V).1 → below c x) →
  walked V (visit_in f ids V).2 (concat (map ids_of (visit_in f ids V).1)) ∧ map id_of (visit_in f ids V).1 = ids ∧
  fold_right (λ k P, faithful k ∧ P) True (visit_in f ids V).1 ∧ ∀ x, x ∈ concat (map ids_of (visit_in f ids V).1) → ∃ c, c ∈ ids ∧ below c x.
Proof.
  revert V. induction ids as [|c ids IH]; intros V Hf; cbn [visit_in].
  { split_and!; [apply walked_nil|done|done|by intros x ?%elem_of_nil]. }
  destruct (Hf c V ltac:(by left)) as (W1 & F1 & I1 & B1). destruct (f c V) as [n V1]. cbn [fst snd] in *.
  destruct (IH V1) as (W2 & I2 & F2 & B2); [intros c' V' Hc'; apply Hf; by right|]. destruct (visit_in f ids V1) as [ns V2]. cbn [fst snd map concat fold_right] in *.
  split_and!; [by eapply walked_app|by rewrite I1, I2|done|done|]. intros x [Hx|Hx]%elem_of_app.
  - exists c. split; [left|by apply B1].
  - destruct (B2 x Hx) as (c' & Hc' & Hb). exists c'. split; [by right|done].
Qed.

Lemma tree_sound fuel id V :
  walked V (tree_in fuel id V).2 (ids_of (tree_in fuel id V).1) ∧ faithful (tree_in fuel id V).1 ∧ id_of (tree_in fuel id V).1 = id ∧
  ∀ x, x ∈ ids_of (tree_in fuel id V).1 → below id x.
Proof.
  revert id V. induction fuel as [|fuel IH]; intros id V; cbn [tree_in]; [split_and!; [apply walked_nil|done|done|by intros x ?%elem_of_nil]|].
  destruct (decide (id ∈ V)) as [Hin|Hin]; [split_and!; [apply walked_nil|done|done|by intros x ?%elem_of_nil]|].
  destruct (visit_sound (tree_in fuel) (children_of s id) ({[id]} ∪ V)) as (W & I & F & B); [intros c V' _; apply IH|].
  destruct (visit_in _ _ _) as [ns V1]. cbn [fst snd ids_of faithful id_of] in *. split_and!; [|apply node_tells|done..|].
  - apply (walked_app V ({[id]} ∪ V) V1 [id]); [|done]. split_and!; [apply NoDup_singleton|by intros x ->%list_elem_of_singleton|set_solver].
  - intros x [->|Hx]%elem_of_cons; [apply rtc_refl|]. destruct (B x Hx) as (c & Hc & Hb). by eapply rtc_l.
Qed.

(** *** Forests: a task has one parent, and the tree is not too deep *)

Record forest (rank : string → nat) : Prop := {
  fo_rank : ∀ p c, child_of p c → (rank c < rank p)%nat;
  fo_parent : ∀ p q c, child_of p c → child_of q c → p = q;
  fo_once : ∀ p, NoDup (children_of s p)
}.

Lemma below_rank rank p x : forest rank → below p x → (rank x ≤ rank p)%nat.
Proof. intros Hf. induction 1 as [|p c x Hpc _ IH]; [done|]. apply (fo_rank _ Hf) in Hpc. lia. Qed.

(** The ancestors of a task are on one line. *)
Lemma below_line rank a b x : forest rank → below a x → below b x → below a b ∨ below b a.
Proof.
  intros Hf Ha. revert b. revert x Ha. apply (rtc_ind_r (λ x, ∀ b, below b x → below a b ∨ below b a)); [by right|]. intros y z Hay Hyz IH b Hb.
  apply rtc_inv_r in Hb as [->|(z' & Hb & Hz')]; [left; by eapply rtc_r|]. rewrite (fo_parent _ Hf _ _ _ Hz' Hyz) in Hb. by apply IH.
Qed.

Lemma siblings_apart rank p c1 c2 x : forest rank → child_of p c1 → child_of p c2 → c1 ≠ c2 → below c1 x → below c2 x → False.
Proof.
  intros Hf H1 H2 Hne Hx1 Hx2.
  assert (∀ a b, child_of p a → child_of p b → a ≠ b → below a b → False) as H.
  { intros a b Ha Hb Hab Hr. apply rtc_inv_r in Hr as [->|(q & Hq & Hqb)]; [done|]. rewrite (fo_parent _ Hf _ _ _ Hqb Hb) in Hq.
    apply (below_rank rank) in Hq; [|done]. apply (fo_rank _ Hf) in Ha. lia. }
  destruct (below_line rank c1 c2 x Hf Hx1 Hx2); [by apply (H c1 c2)|apply (H c2 c1); auto].
Qed.

Lemma visit_complete rank fuel p ids V : forest rank → NoDup ids → (∀ c, c ∈ ids → child_of p c) → (∀ c x, c ∈ ids → below c x → x ∉ V) →
  (∀ c V, (rank c < fuel)%nat → (∀ x, below c x → x ∉ V) → cuts_of (tree_in fuel c V).1 = [] ∧ ∀ x, below c x → x ∈ ids_of (tree_in fuel c V).1) →
  (rank p ≤ fuel)%nat →
  concat (map cuts_of (visit_in (tree_in fuel) ids V).1) = [] ∧ ∀ c x, c ∈ ids → below c x → x ∈ concat (map ids_of (visit_in (tree_in fuel) ids V).1).
Proof.
  intros Hf Hnd Hc HV Ht Hr. revert V HV. induction ids as [|c ids IH]; intros V HV; cbn [visit_in]; [split; [done|by intros ? ? ?%elem_of_nil]|].
  apply NoDup_cons in Hnd as [Hcn Hnd]. assert (rank c < fuel)%nat as Hrc by (assert (child_of p c) as H%(fo_rank _ Hf) by (apply Hc; by left); lia).
  destruct (Ht c V Hrc) as [E1 I1]; [intros x; apply HV; by left|]. destruct (tree_sound fuel c V) as ((N1 & D1 & EV) & _ & _ & B1).
  destruct (IH Hnd) with (V := (tree_in fuel c V).2) as [E2 I2]; [intros c' Hc'; apply Hc; by right| |].
  - intros c' x Hc' Hx. rewrite EV. intros [Hin%elem_of_list_to_set|Hin]%elem_of_union.
    + apply (siblings_apart rank p c c' x Hf); [apply Hc; by left|apply Hc; by right|by intros ->|by apply B1|done].
    + apply (HV c' x); [by right|done..].
  - destruct (tree_in fuel c V) as [n V1]. cbn [fst snd] in *. destruct (visit_in _ ids V1) as [ns V2]. cbn [fst snd map concat] in *.
    split; [by rewrite E1|]. intros c' x [->|Hc']%elem_of_cons Hx; apply elem_of_app; [left; by apply I1|right; by apply (I2 c')].
Qed.

Lemma tree_complete rank fuel id V : forest rank → (rank id < fuel)%nat → (∀ x, below id x → x ∉ V) →
  cuts_of (tree_in fuel id V).1 = [] ∧ ∀ x, below id x → x ∈ ids_of (tree_in fuel id V).1.
Proof.
  intros Hf. revert id V. induction fuel as [|fuel IH]; intros id V Hr HV; [lia|]. cbn [tree_in]. rewrite decide_False by (apply HV, rtc_refl).
  assert (∀ c x, c ∈ children_of s id → below c x → x ∉ {[id]} ∪ V) as HV'.
  { intros c x Hc Hx [->%elem_of_singleton|Hin]%elem_of_union; [|apply (HV x); [by eapply rtc_l|done]]. apply (below_rank rank) in Hx; [|done].
    apply (fo_rank _ Hf) in Hc. lia. }
  destruct (visit_complete rank fuel id (children_of s id) ({[id]} ∪ V) Hf (fo_once _ Hf id) ltac:(done) HV' IH ltac:(lia)) as [E I].
  destruct (visit_in _ _ _) as [ns V1]. cbn [fst snd ids_of cuts_of] in *. split; [done|]. intros x Hx. apply rtc_inv in Hx as [->|(c & Hc & Hx)]; [left|].
  right. by apply (I c).
Qed.

End Trees.

(** *** Paths *)

Section Paths.

Context (s : ref_store).

(** From the top of a path each task is the parent of the next. *)
Fixpoint line (path : list string) : Prop :=
  match path with
  | p :: (c :: _) as path' => parent_of (task_of s c) = Some p ∧ line path'
  | _ => True
  end.

(** The path goes up to a task without a parent, or to one whose parent is on it. *)
Definition top_reached (path : list string) : Prop :=
  ∃ top, head path = Some top ∧ match parent_of (task_of s top) with None => True | Some p => p ∈ path end.

Lemma path_loop_ok fuel path current : head path = Some current → line path → NoDup path →
  ∃ path', run (path_loop fuel path (list_to_set path) current) s = (Ok path', s) ∧ line path' ∧ NoDup path' ∧ (∃ up, path' = up ++ path) ∧
    (length path' ≤ length path + fuel)%nat ∧ ((length path' < length path + fuel)%nat → top_reached path').
Proof.
  revert path current. induction fuel as [|fuel IH]; intros path current Hh Hl Hnd; cbn [path_loop].
  { exists path. split_and!; [done..|by exists []|lia|lia]. }
  rewrite play_bind, (run_store (GetTask current)). cbn [ref_call]. destruct (parent_of (task_of s current)) as [p|] eqn:Ep.
  - destruct (decide (p ∈ list_to_set path)) as [Hp|Hp].
    + exists path. split_and!; [done..|by exists []|lia|]. intros _. exists current. split; [done|]. rewrite Ep. by apply elem_of_list_to_set in Hp.
    + rewrite elem_of_list_to_set in Hp. destruct path as [|c path]; [done|]. injection Hh as ->.
      destruct (IH (p :: current :: path) p) as (path' & E & Hl' & Hnd' & [up Eup] & Hlen & Htop); [done|by split|by apply NoDup_cons|].
      exists path'. split_and!; [exact E|done|done| |simpl in *; lia|intros Hlt; apply Htop; simpl in *; lia].
      exists (up ++ [p]). by rewrite <- app_assoc.
  - exists path. split_and!; [done..|by exists []|lia|]. intros _. exists current. split; [done|]. by rewrite Ep.
Qed.

End Paths.

(** *** Statistics *)

Section NodeInd.

Context (P : lineage_node → Prop) (HCut : ∀ id e, P (Cut id e)) (HNode : ∀ id fields kids, Forall P kids → P (Node id fields kids)).

Fixpoint lineage_node_rect' (n : lineage_node) : P n :=
  match n with
  | Cut id e => HCut id e
  | Node id fields kids =>
      HNode id fields kids ((fix go (l : list lineage_node) : Forall P l :=
        match l with [] => Forall_nil_2 _ | k :: l => Forall_cons_2 _ _ _ (lineage_node_rect' k) (go l) end) kids)
  end.

End NodeInd.

(** The fields of the nodes in the order of the walk *)
Fixpoint fields_of (n : lineage_node) : list row :=
  match n with Node _ fields kids => fields :: concat (map fields_of kids) | Cut _ _ => [∅] end.

(** A figure that grows by [hit] at every node *)
Lemma walk_counts (count : tree_stats → nat) (hit : row → nat) n st : (∀ f st, count (count_node f st) = (count st + hit f)%nat) →
  count (walk_stats n st) = (count st + sum_list (hit <$> fields_of n))%nat.
Proof.
  intros Hc. revert st. induction n as [id e|id fields kids IH] using lineage_node_rect'; intros st; cbn [walk_stats fields_of]; [rewrite Hc; simpl; lia|].
  assert (∀ st1, count (fold_left (λ st k, walk_stats k st) kids st1) = (count st1 + sum_list (hit <$> concat (map fields_of kids)))%nat) as ->.
  { induction IH as [|k kids Hk _ IHk]; intros st1; simpl; [lia|]. rewrite IHk, Hk, fmap_app, sum_list_with_app. lia. }
  rewrite Hc, fmap_cons. generalize (hit <$> concat (map fields_of kids)). intros l. simpl. lia.
Qed.

Lemma bump_count k v (d : list (json * nat)) : default 0%nat (dget (bump k d) v) = (default 0 (dget d v) + if decide (k = v) then 1 else 0)%nat.
Proof. unfold bump. rewrite dget_dset. destruct (decide (k = v)) as [->|]; simpl; lia. Qed.

(** The word under which a record is counted *)
Definition status_word (s : ref_store) (id : string) : json :=
  match task_of s id !! "status"%string with Some v => if truthy v then v else JStr "unknown" | None => JStr "unknown" end.
Definition has_resource (s : ref_store) (v : json) (id : string) : Prop := task_of s id !! "resource"%string = Some v ∧ truthy v = true.
#[local] Instance has_resource_dec s v id : Decision (has_resource s v id).
Proof. unfold has_resource. apply _. Defined.

Definition node_word (f : row) : json := match f !! "status"%string with Some v => if truthy v then v else JStr "unknown" | None => JStr "unknown" end.
Definition node_resource (v : json) (f : row) : nat :=
  match f !! "resource"%string with Some r => if truthy r then (if decide (r = v) then 1 else 0)%nat else 0%nat | None => 0%nat end.

Lemma count_hits (P : string → Prop) `{∀ x, Decision (P x)} (hit : row → nat) s extra n :
  faithful s extra n → cuts_of n = [] → (∀ id f, tells s extra id f → hit f = if decide (P id) then 1%nat else 0%nat) →
  sum_list (hit <$> fields_of n) = length (filter P (ids_of n)).
Proof.
  intros Hf Hc Hh. revert Hf Hc. induction n as [id e|id fields kids IH] using lineage_node_rect'; [done|].
  cbn [faithful cuts_of fields_of ids_of]. intros (Ht & _ & Hk) Hc. rewrite fmap_cons. cbn [sum_list]. rewrite filter_cons, (Hh id) by done.
  assert (sum_list (hit <$> concat (map fields_of kids)) = length (filter P (concat (map ids_of kids)))) as Hkids.
  { clear Ht. induction IH as [|k kids Hk1 _ IHk]; [done|]. cbn [map concat fold_right] in *. apply app_eq_nil in Hc as [Hc1 Hc2]. destruct Hk as [Hk Hks].
    rewrite fmap_app, sum_list_with_app, filter_app, length_app, Hk1, IHk by done. done. }
  rewrite Hkids. destruct (decide (P id)); simpl; lia.
Qed.

(** The statistics of a tree without cuts *)
Lemma stats_of_tree s n : faithful s [] n → cuts_of n = [] →
  let st := walk_stats n {| total := 0; by_status := []; by_resource := [] |} in
  total st = length (ids_of n) ∧
  (∀ v, default 0%nat (dget (by_status st) v) = length (filter (λ x, status_word s x = v) (ids_of n))) ∧
  (∀ v, default 0%nat (dget (by_resource st) v) = length (filter (has_resource s v) (ids_of n))).
Proof.
  intros Hf Hc st. unfold st. split_and!.
  - rewrite (walk_counts total (λ _, 1%nat)) by (intros; simpl; lia). rewrite (count_hits (λ _, True) _ s []) by done. simpl. f_equal.
    by apply list_filter_all_in.
  - intros v. rewrite (walk_counts (λ st, default 0%nat (dget (by_status st) v)) (λ f, if decide (node_word f = v) then 1 else 0)%nat) by (intros; apply bump_count).
    rewrite (count_hits (λ x, status_word s x = v) _ s []); [done|done|done|]. intros id f (_ & Hs & _). unfold node_word, status_word. rewrite Hs.
    destruct (task_of s id !! "status"%string) as [w|]; done.
  - intros v. rewrite (walk_counts (λ st, default 0%nat (dget (by_resource st) v)) (node_resource v)).
    + rewrite (count_hits (has_resource s v) _ s []); [done|done|done|]. intros id f (_ & _ & Hr & _). unfold node_resource. rewrite Hr.
      destruct (decide (has_resource s v id)) as [[-> H2]|H]; simpl; [by rewrite H2, decide_True|].
      destruct (task_of s id !! "resource"%string) as [w|] eqn:E; simpl; [|done]. destruct (truthy w) eqn:Ew; [|done].
      rewrite decide_False; [done|]. intros ->. by apply H.
    + intros f st'. cbn [count_node by_resource]. unfold node_resource. destruct (f !! "resource"%string) as [w|]; [|lia]. destruct (truthy w); [apply bump_count|lia].
Qed.

#[local] Opaque _MAX_LINEAGE_DEPTH.

Lemma run_build_tree root include_fields s :
  run (build_tree root include_fields) s = (Ok (tree_in s (default [] include_fields) _MAX_LINEAGE_DEPTH root ∅).1, s).
Proof. unfold build_tree. rewrite play_seq, run_build. generalize (tree_in s (default [] include_fields) _MAX_LINEAGE_DEPTH root ∅). reflexivity. Qed.

Lemma run_tree_stats root s :
  run (get_tree_stats root) s = (Ok (walk_stats (tree_in s [] _MAX_LINEAGE_DEPTH root ∅).1 {| total := 0; by_status := []; by_resource := [] |}), s).
Proof. unfold get_tree_stats. rewrite play_seq, run_build_tree. cbn [default]. generalize (tree_in s [] _MAX_LINEAGE_DEPTH root ∅). reflexivity. Qed.

(** C33: the tree of a recorded task is faithful: each node tells the id, status,
    resource and cancellation flag of the record of its task and the fields that
    were asked for, and has the children of the index in order, no task occurs
    twice, and only descendants occur; reading changes nothing. When every task
    has one parent and the ranks of the tasks are below the depth limit, no
    branch is cut and every descendant is in the tree; the statistics then count
    each of them once, and for every status word (unknown for none) and every
    resource the tasks that have it. The docstring promises TaskNotFoundError for a
    missing root, which this store never raises: the missing task counts as an
    empty record, so the theorem is about roots that are recorded. *)
Theorem lineage_tree root include_fields s : is_Some (tasks s !! root) → ∃ t,
  run (build_tree root include_fields) s = (Ok t, s) ∧
  id_of t = root ∧ faithful s (default [] include_fields) t ∧ NoDup (ids_of t) ∧ (∀ x, x ∈ ids_of t → below s root x) ∧
  ∀ rank, forest s rank → (rank root < _MAX_LINEAGE_DEPTH)%nat →
    cuts_of t = [] ∧ (∀ x, below s root x → x ∈ ids_of t) ∧
    ∃ st, run (get_tree_stats root) s = (Ok st, s) ∧ total st = length (ids_of t) ∧
      (∀ v, default 0%nat (dget (by_status st) v) = length (filter (λ x, status_word s x = v) (ids_of t))) ∧
      (∀ v, default 0%nat (dget (by_resource st) v) = length (filter (has_resource s v) (ids_of t))).
Proof.
  intros _. exists (tree_in s (default [] include_fields) _MAX_LINEAGE_DEPTH root ∅).1.
  destruct (tree_sound s (default [] include_fields) _MAX_LINEAGE_DEPTH root ∅) as ((Hnd & _) & Hf & Hi & Hb).
  split; [apply run_build_tree|]. split; [exact Hi|]. split; [exact Hf|]. split; [exact Hnd|]. split; [exact Hb|]. intros rank Hfo Hr.
  destruct (tree_complete s (default [] include_fields) rank _MAX_LINEAGE_DEPTH root ∅ Hfo Hr) as [Hc Hall]; [intros x _; apply not_elem_of_empty|].
  destruct (tree_complete s [] rank _MAX_LINEAGE_DEPTH root ∅ Hfo Hr) as [Hc' Hall']; [intros x _; apply not_elem_of_empty|].
  destruct (tree_sound s [] _MAX_LINEAGE_DEPTH root ∅) as ((Hnd' & _) & Hf' & _ & Hb').
  split; [exact Hc|]. split; [exact Hall|]. eexists. split; [apply run_tree_stats|].
  assert (ids_of (tree_in s (default [] include_fields) _MAX_LINEAGE_DEPTH root ∅).1 ≡ₚ ids_of (tree_in s [] _MAX_LINEAGE_DEPTH root ∅).1) as Hperm.
  { apply NoDup_Permutation; [exact Hnd|exact Hnd'|]. intros x. split; [intros Hx; apply Hall', Hb, Hx|intros Hx; apply Hall, Hb', Hx]. }
  destruct (stats_of_tree s _ Hf' Hc') as (S1 & S2 & S3). split; [by rewrite Hperm|]. split; intros v; by rewrite Hperm.
Qed.

#[local] Transparent _MAX_LINEAGE_DEPTH.

(** The lineage path of a task ends with the task, each entry is the parent
    of the next, no task occurs twice, it has at most 33 entries, and
    when it has fewer it begins with a task that has no parent (or whose parent
    is already on the path). *)
Theorem lineage_path task_id s : ∃ path, run (get_lineage_path task_id) s = (Ok path, s) ∧
  last path = Some task_id ∧ line s path ∧ NoDup path ∧ (length path ≤ 33)%nat ∧ ((length path < 33)%nat → top_reached s path).
Proof.
  destruct (path_loop_ok s _MAX_LINEAGE_DEPTH [task_id] task_id) as (path & E & Hl & Hnd & [up ->] & Hlen & Htop); [done|done|apply NoDup_singleton|].
  exists (up ++ [task_id]). unfold get_lineage_path. replace ({[task_id]} : gset string) with (list_to_set [task_id] : gset string) by set_solver.
  split_and!; [exact E|apply last_snoc|done|done|simpl in *; unfold _MAX_LINEAGE_DEPTH in *; lia|]. intros H. apply Htop. simpl. unfold _MAX_LINEAGE_DEPTH. lia.
Qed.

Module LineageWitness.

Local Open Scope string_scope.

Definition task (parent : option string) : row := match parent with Some p => {[ "status" := JStr "running"; "parent_task_id" := JStr p ]} | None => {[ "status" := JStr "running" ]} end.
Definition family : ref_store :=
  {| tasks := {[ "r" := task None; "a" := task (Some "r"); "b" := task (Some "r"); "c" := task (Some "a") ]};
     kids := {[ "r" := ["a"; "b"]; "a" := ["c"] ]}; active := ∅; remaining := ∅; votes := ∅; consumers := ∅ |}.

Example family_tree : ids_of <$> (match (run (build_tree "r" None) family).1 with Ok t => Some t | Err _ => None end) = Some ["r"; "a"; "c"; "b"].
Proof. by vm_compute. Qed.

Example family_path : (run (get_lineage_path "c") family).1 = Ok ["r"; "a"; "c"].
Proof. by vm_compute. Qed.

(** The tree of a task that does not exist has one node, and no error. *)
Example missing_root : match (run (build_tree "nobody" None) family).1 with Ok (Node id _ []) => id = "nobody" | _ => False end.
Proof. by vm_compute. Qed.

(** The family is a forest, of a depth below the limit. *)
Definition family_rank (id : string) : nat := if decide (id = "r") then 2 else if decide (id = "a") then 1 else 0.

Lemma family_children p c : child_of family p c → p = "r" ∧ (c = "a" ∨ c = "b") ∨ p = "a" ∧ c = "c".
Proof.
  unfold child_of, children_of. simpl. destruct (decide (p = "r")) as [->|Hr]; [rewrite lookup_insert_eq; simpl; rewrite !elem_of_cons, elem_of_nil; naive_solver|].
  rewrite lookup_insert_ne by done. destruct (decide (p = "a")) as [->|Ha]; [rewrite lookup_singleton_eq; simpl; rewrite elem_of_cons, elem_of_nil; naive_solver|].
  rewrite lookup_singleton_ne by done. by intros ?%elem_of_nil.
Qed.

Example family_forest : forest family family_rank ∧ (family_rank "r" < _MAX_LINEAGE_DEPTH)%nat.
Proof.
  split; [|by apply (bool_decide_unpack _)]. constructor.
  - intros p c [[-> [-> | ->]]|[-> ->]]%family_children; unfold family_rank; simpl; lia.
  - intros p q c [[-> [-> | ->]]|[-> ->]]%family_children [[-> [? | ?]]|[-> ?]]%family_children; congruence.
  - intros p. unfold children_of. simpl. destruct (decide (p = "r")) as [->|Hr]; [by apply (bool_decide_unpack _)|].
    rewrite lookup_insert_ne by done. destruct (decide (p = "a")) as [->|Ha]; [by apply (bool_decide_unpack _)|]. rewrite lookup_singleton_ne by done. constructor.
Qed.

Lemma lineage_tree_witness : ∃ t st, run (build_tree "r" (Some ["error"])) family = (Ok t, family) ∧ ids_of t ≡ₚ ["r"; "a"; "c"; "b"] ∧
  run (get_tree_stats "r") family = (Ok st, family) ∧ total st = 4%nat ∧ dget (by_status st) (JStr "running") = Some 4%nat.
Proof.
  destruct (lineage_tree "r" (Some ["error"]) family ltac:(by eexists)) as (t & Et & _ & _ & Hnd & _ & Hf).
  destruct family_forest as [Hfo Hr]. destruct (Hf family_rank Hfo Hr) as (_ & _ & st & Es & _ & _).
  exists t, st. vm_compute in Et, Es. injection Et as <-. injection Es as <-. split_and!; reflexivity.
Defined.

End LineageWitness.
