(* ===== verification/Limits.v ===== *)
(** * Limiter registry, decorator, governors, cancellation token

    core/limiter/registry.py and decorators.py, core/task/cancel.py,
    flow/governor/manager.py, factory.py and unlimited.py, and
    stream/governor/manager.py, which is the same manager. *)
From Stdlib Require Import ZArith Lia.
From stdpp Require Import prelude gmap list strings.
From S2P Require Import Prelude Effects.
Local Open Scope list_scope.

(** ** LimiterRegistry *)

Record AsyncLeaseSemaphore := { sem_name : string; sem_limit : Z; lease_time : Z }.
Record AsyncTokenBucket := { bucket_name : string; capacity : Z; refill_amount : Z; refill_frequency : Z }.

Record LimiterRegistry := { _semaphores : list (string * AsyncLeaseSemaphore); _buckets : list (string * AsyncTokenBucket) }.

Definition no_limiters : LimiterRegistry := {| _semaphores := []; _buckets := [] |}.

(** The instance, and the registry after the call *)
Definition register_semaphore (name : string) (limit lease : Z) (g : LimiterRegistry) : AsyncLeaseSemaphore * LimiterRegistry :=
  match dget (_semaphores g) name with
  | Some existing => (existing, g)
  | None =>
      let sem := {| sem_name := name; sem_limit := limit; lease_time := lease |} in
      (sem, {| _semaphores := dset (_semaphores g) name sem; _buckets := _buckets g |})
  end.

Definition register_bucket (name : string) (cap amount frequency : Z) (g : LimiterRegistry) : AsyncTokenBucket * LimiterRegistry :=
  match dget (_buckets g) name with
  | Some existing => (existing, g)
  | None =>
      let b := {| bucket_name := name; capacity := cap; refill_amount := amount; refill_frequency := frequency |} in
      (b, {| _semaphores := _semaphores g; _buckets := dset (_buckets g) name b |})
  end.

Definition get_semaphore (name : string) (g : LimiterRegistry) : res exn AsyncLeaseSemaphore :=
  match dget (_semaphores g) name with Some x => Ok x | None => Err KeyError end.
Definition get_bucket (name : string) (g : LimiterRegistry) : res exn AsyncTokenBucket :=
  match dget (_buckets g) name with Some x => Ok x | None => Err KeyError end.
Definition has_semaphore (name : string) (g : LimiterRegistry) : bool := dmem (_semaphores g) name.
Definition has_bucket (name : string) (g : LimiterRegistry) : bool := dmem (_buckets g) name.
Definition get_semaphore_limit (name : string) (g : LimiterRegistry) : res exn Z := res_map sem_limit (get_semaphore name g).
Definition clear (g : LimiterRegistry) : LimiterRegistry := no_limiters.

(** ** Status queries *)

(** What is asked of the semaphores and of a governor *)
Inductive status_op :=
  | InUse (sem : AsyncLeaseSemaphore)
  | GetLimit (resource : string)
  | GetUsage (resource : string)
  | ListResources.

Definition status_ans (o : status_op) : Type :=
  match o with InUse _ | GetLimit _ | GetUsage _ => res exn Z | ListResources => res exn (list string) end.
Notation statusM := (M status_ans).

Record resource_status := { rs_name : string; rs_limit : Z; rs_usage : Z; rs_available : Z; rs_utilization : string }.

Section Status.

(** [f"{usage / limit * 100:.1f}%"] *)
Context (percent : Z → Z → string).

Definition _format_status (resource : string) (limit usage : Z) : resource_status :=
  {| rs_name := resource; rs_limit := limit; rs_usage := usage; rs_available := Z.max 0 (limit - usage);
     rs_utilization := if (0 <? limit)%Z then percent usage limit else "0.0%" |}.

Definition get_semaphore_usage (name : string) (g : LimiterRegistry) : statusM Z :=
  match get_semaphore name g with Ok sem => perform (InUse sem) | Err e => raise e end.

Definition get_semaphore_status (name : string) (g : LimiterRegistry) : statusM resource_status :=
  match get_semaphore name g with
  | Err e => raise e
  | Ok sem => let! usage := (perform (InUse sem) : statusM Z) in ret (_format_status name (sem_limit sem) usage)
  end.

(** [for name in names: result[name] = ...] *)
Fixpoint collect_status (status : string → statusM resource_status) (names : list string) (result : list (string * resource_status)) : statusM (list (string * resource_status)) :=
  match names with
  | [] => ret result
  | name :: names => let! st := status name in collect_status status names (dset result name st)
  end.

Definition get_all_semaphore_status (g : LimiterRegistry) : statusM (list (string * resource_status)) :=
  collect_status (λ name, get_semaphore_status name g) (dkeys (_semaphores g)) [].

(** *** GovernorManager, StreamGovernorManager *)

(** A governor may lack [get_limit] and [list_resources]. *)
Record governor := { has_get_limit : bool; has_list_resources : bool }.
Record GovernorManager := { registry : option LimiterRegistry; gm_governor : option governor }.

Definition ask_governor (self : GovernorManager) (resource : string) : statusM resource_status :=
  match gm_governor self with
  | Some gov =>
      if has_get_limit gov then
        let! limit := (perform (GetLimit resource) : statusM Z) in
        let! usage := (perform (GetUsage resource) : statusM Z) in
        ret (_format_status resource limit usage)
      else raise ValueError
  | None => raise ValueError
  end.

Definition get_resource_status (self : GovernorManager) (resource : string) : statusM resource_status :=
  match registry self with
  | Some g => if has_semaphore resource g then get_semaphore_status resource g else ask_governor self resource
  | None => ask_governor self resource
  end.

Fixpoint add_resources (self : GovernorManager) (names : list string) (result : list (string * resource_status)) : statusM (list (string * resource_status)) :=
  match names with
  | [] => ret result
  | name :: names =>
      if dmem result name then add_resources self names result
      else let! st := get_resource_status self name in add_resources self names (dset result name st)
  end.

Definition registered_status (self : GovernorManager) : statusM (list (string * resource_status)) :=
  match registry self with Some g => get_all_semaphore_status g | None => ret [] end.

Definition get_all_resources (self : GovernorManager) : statusM (list (string * resource_status)) :=
  let! result := registered_status self in
  match gm_governor self with
  | Some gov => if has_list_resources gov then let! names := (perform ListResources : statusM (list string)) in add_resources self names result else ret result
  | None => ret result
  end.

(** *** What they answer *)

(** The answers while the queries run *)
Context (in_use : AsyncLeaseSemaphore → Z) (limit_of usage_of : string → Z) (names_of : list string).

Definition answers_as (o : status_op) (s : unit) : status_ans o * unit :=
  (match o return status_ans o with InUse sem => Ok (in_use sem) | GetLimit r => Ok (limit_of r) | GetUsage r => Ok (usage_of r) | ListResources => Ok names_of end, s).

Notation asks := (play answers_as).

Lemma ask_semaphore name g sem : dget (_semaphores g) name = Some sem → asks (get_semaphore_status name g) tt = (Ok (_format_status name (sem_limit sem) (in_use sem)), tt).
Proof. intros E. unfold get_semaphore_status, get_semaphore. rewrite E, play_seq. done. Qed.

Lemma ask_collect (status : string → statusM resource_status) f names result : (∀ n, n ∈ names → asks (status n) tt = (Ok (f n), tt)) → NoDup names → (∀ n, n ∈ names → n ∉ dkeys result) →
  asks (collect_status status names result) tt = (Ok (result ++ ((λ n, (n, f n)) <$> names)), tt).
Proof.
  revert result. induction names as [|n names IH]; intros result Hf Hnd Hr; cbn [collect_status]; [by rewrite app_nil_r|]. apply NoDup_cons in Hnd as [Hn Hnd].
  rewrite play_seq, Hf by left. rewrite dset_fresh by (apply dget_None, Hr; left). rewrite IH; [by rewrite <- app_assoc|intros m Hm; apply Hf; by right|done|].
  intros m Hm. unfold dkeys. rewrite fmap_app, elem_of_app. simpl. rewrite list_elem_of_singleton. intros [Hin| ->]; [by apply (Hr m); [right|]|done].
Qed.

(** The status of a resource: the semaphore of that name, or what the governor
    says *)
Definition status_of (self : GovernorManager) (name : string) : option resource_status :=
  match registry self ≫= λ g, dget (_semaphores g) name with
  | Some sem => Some (_format_status name (sem_limit sem) (in_use sem))
  | None => match gm_governor self with
            | Some gov => if has_get_limit gov then Some (_format_status name (limit_of name) (usage_of name)) else None
            | None => None
            end
  end.

Lemma ask_resource self name : asks (get_resource_status self name) tt = (match status_of self name with Some st => Ok st | None => Err ValueError end, tt).
Proof.
  assert (asks (ask_governor self name) tt = (match match gm_governor self with
            | Some gov => if has_get_limit gov then Some (_format_status name (limit_of name) (usage_of name)) else None
            | None => None end with Some st => Ok st | None => Err ValueError end, tt)) as H.
  { unfold ask_governor. destruct (gm_governor self) as [gov|]; [|done]. by destruct (has_get_limit gov). }
  unfold get_resource_status, status_of. destruct (registry self) as [g|]; [|exact H]. simpl. unfold has_semaphore, dmem. destruct (dget (_semaphores g) name) as [sem|] eqn:E; [|exact H].
  by apply ask_semaphore.
Qed.

(** The names of the governor that are not known yet *)
Fixpoint new_names (known names : list string) : list string :=
  match names with
  | [] => []
  | n :: names => if decide (n ∈ known) then new_names known names else n :: new_names (known ++ [n]) names
  end.

Lemma ask_add self names result : (∀ n, n ∈ names → is_Some (status_of self n)) →
  asks (add_resources self names result) tt = (Ok (result ++ omap (λ n, (λ st, (n, st)) <$> status_of self n) (new_names (dkeys result) names)), tt).
Proof.
  revert result. induction names as [|n names IH]; intros result Hs; cbn [add_resources new_names]; [by rewrite app_nil_r|].
  assert (∀ m, m ∈ names → is_Some (status_of self m)) as Hs' by (intros m Hm; apply Hs; by right).
  unfold dmem. destruct (dget result n) as [x|] eqn:E.
  - rewrite decide_True; [by apply IH|]. apply dget_elem in E. apply list_elem_of_fmap. by exists (n, x).
  - apply dget_None in E as E'. rewrite decide_False by done. rewrite play_seq, ask_resource. destruct (Hs n ltac:(by left)) as [st Hst]. rewrite Hst.
    rewrite dset_fresh by done. rewrite IH by done. unfold dkeys. rewrite fmap_app. simpl. rewrite Hst. simpl. by rewrite <- app_assoc.
Qed.

End Status.

(** A manager reports every semaphore of the registry and then every
    resource that the governor lists and the registry does not have, each once,
    with the limit and usage of its source; what is available is never negative
    and never more than a non-negative limit minus usage says; the status of
    one resource is the entry that it has in the list, and a resource that
    neither source knows is a [ValueError]. *)
Theorem all_resources percent in_use limit_of usage_of names_of self name :
  NoDup (match registry self with Some g => dkeys (_semaphores g) | None => [] end) →
  let known := match registry self with Some g => dkeys (_semaphores g) | None => [] end in
  let status := status_of percent in_use limit_of usage_of self in
  let listed := match gm_governor self with Some gov => if has_list_resources gov && has_get_limit gov then new_names known names_of else [] | None => [] end in
  (∀ gov, gm_governor self = Some gov → has_list_resources gov = true → has_get_limit gov = true) →
  (play (answers_as in_use limit_of usage_of names_of) (get_all_resources percent self) tt).1 = Ok (omap (λ n, (λ st, (n, st)) <$> status n) (known ++ listed)) ∧
  (∀ n, n ∈ known ++ listed → is_Some (status n)) ∧
  (play (answers_as in_use limit_of usage_of names_of) (get_resource_status percent self name) tt).1 = match status name with Some st => Ok st | None => Err ValueError end ∧
  (∀ st, status name = Some st → rs_name st = name ∧ (0 ≤ rs_available st)%Z ∧ (rs_usage st ≤ rs_limit st → rs_available st = rs_limit st - rs_usage st)%Z).
Proof.
  intros Hnd known status listed Hgov.
  assert (∀ n, n ∈ known → is_Some (status n)) as Hknown.
  { intros n Hn. unfold known in Hn. unfold status, status_of. destruct (registry self) as [g|]; [|by apply elem_of_nil in Hn]. simpl.
    destruct (dget (_semaphores g) n) eqn:E; [by eexists|]. by apply dget_None in E. }
  assert (∀ gov n, gm_governor self = Some gov → has_get_limit gov = true → is_Some (status n)) as Hgovn.
  { intros gov n Eg El. unfold status, status_of. destruct (_ ≫= _); [by eexists|]. rewrite Eg, El. by eexists. }
  assert (∃ start, play (answers_as in_use limit_of usage_of names_of) (registered_status percent self) tt = (Ok start, tt) ∧
    dkeys start = known ∧ start = omap (λ n, (λ st, (n, st)) <$> status n) known) as (start & E1 & E2 & E3).
  { unfold known, status, status_of, registered_status. destruct (registry self) as [g|]; [|by exists []]. simpl.
    set (f := λ n, match dget (_semaphores g) n with Some sem => _format_status percent n (sem_limit sem) (in_use sem) | None => _format_status percent n 0 0 end).
    exists ((λ n, (n, f n)) <$> dkeys (_semaphores g)). assert (∀ n, n ∈ dkeys (_semaphores g) → ∃ sem, dget (_semaphores g) n = Some sem) as Hs.
    { intros n Hn. destruct (dget (_semaphores g) n) eqn:E; [by eexists|]. by apply dget_None in E. }
    split_and!.
    - unfold get_all_semaphore_status. rewrite (ask_collect in_use limit_of usage_of names_of _ f); [done| |done|by intros n _ ?%elem_of_nil].
      intros n Hn. destruct (Hs n Hn) as [sem E]. unfold f. rewrite E. by apply ask_semaphore.
    - unfold dkeys at 1. rewrite <- list_fmap_compose. apply list_fmap_id.
    - clear -Hs. induction (dkeys (_semaphores g)) as [|n l IH]; [done|]. simpl. destruct (Hs n ltac:(by left)) as [sem E]. rewrite E. simpl. f_equal; [unfold f; by rewrite E|].
      apply IH. intros m Hm. apply Hs. by right. }
  split_and!.
  - unfold get_all_resources. rewrite play_seq, E1. unfold listed. destruct (gm_governor self) as [gov|] eqn:Eg; [|rewrite app_nil_r; cbn; by rewrite E3].
    destruct (has_list_resources gov) eqn:El; [|rewrite app_nil_r; cbn; by rewrite E3]. rewrite (Hgov gov eq_refl El). rewrite play_seq. cbn [perform play exec answers_as].
    change (let '(r, s1) := (Ok names_of, tt) in _) with (play (answers_as in_use limit_of usage_of names_of) (add_resources percent self names_of start) tt).
    rewrite ask_add by (intros n _; apply (Hgovn gov n); [done|by apply Hgov]). cbn [fst]. rewrite omap_app, <- E3, E2. done.
  - intros n [Hn|Hn]%elem_of_app; [by apply Hknown|]. unfold listed in Hn. destruct (gm_governor self) as [gov|] eqn:Eg; [|by apply elem_of_nil in Hn].
    destruct (has_list_resources gov && has_get_limit gov) eqn:El; [|by apply elem_of_nil in Hn]. apply andb_true_iff in El as [_ El]. by apply (Hgovn gov).
  - by rewrite ask_resource.
  - intros st Hst. assert (∃ l u, st = _format_status percent name l u) as (l & u & ->).
    { unfold status, status_of in Hst. destruct (_ ≫= _) as [sem|]; [injection Hst as <-; by eauto|]. destruct (gm_governor self) as [gov|]; [|done].
      destruct (has_get_limit gov); [|done]. injection Hst as <-. by eauto. }
    simpl. split_and!; [done|lia|lia].
Qed.

(** *** The first registration wins *)

Definition registration : Type := string * (Z * Z).
Definition register_all (l : list registration) (g : LimiterRegistry) : LimiterRegistry :=
  fold_left (λ g r, (register_semaphore r.1 r.2.1 r.2.2 g).2) l g.

Lemma register_get name limit lease g n :
  dget (_semaphores (register_semaphore name limit lease g).2) n =
    match dget (_semaphores g) n with Some sem => Some sem | None => if decide (name = n) then Some {| sem_name := name; sem_limit := limit; lease_time := lease |} else None end.
Proof.
  unfold register_semaphore. destruct (dget (_semaphores g) name) as [sem|] eqn:E; simpl.
  - destruct (dget (_semaphores g) n) eqn:E'; [done|]. destruct (decide (name = n)) as [->|]; congruence.
  - rewrite dget_dset. destruct (decide (name = n)) as [->|]; [by rewrite E|]. by destruct (dget (_semaphores g) n).
Qed.

(** Registering is idempotent and the first registration of a name wins:
    after any sequence of registrations, a semaphore has the limit and the lease
    time of its first registration, registering answers the instance that is in
    the registry, and a name that was never registered is a [KeyError]. *)
Theorem first_registration_wins l name limit lease :
  get_semaphore name (register_all l no_limiters) =
    match dget l name with Some (lim, le) => Ok {| sem_name := name; sem_limit := lim; lease_time := le |} | None => Err KeyError end ∧
  get_semaphore name (register_semaphore name limit lease (register_all l no_limiters)).2 = Ok (register_semaphore name limit lease (register_all l no_limiters)).1 ∧
  NoDup (dkeys (_semaphores (register_all l no_limiters))).
Proof.
  assert (∀ l g, dget (_semaphores (register_all l g)) name =
    match dget (_semaphores g) name with Some sem => Some sem | None => (λ p, {| sem_name := name; sem_limit := p.1; lease_time := p.2 |}) <$> dget l name end) as H.
  { induction l0 as [|[n [lim le]] l0 IH]; intros g; [simpl; by destruct (dget _ _)|]. unfold register_all. cbn [fold_left fst snd]. fold (register_all l0 (register_semaphore n lim le g).2).
    rewrite IH, register_get. destruct (dget (_semaphores g) name); [done|]. simpl. destruct (decide (n = name)) as [->|]; done. }
  split_and!.
  - unfold get_semaphore. rewrite H. simpl. by destruct (dget l name) as [[lim le]|].
  - unfold get_semaphore at 1. rewrite register_get. unfold register_semaphore. destruct (dget (_semaphores (register_all l no_limiters)) name); [done|]. by rewrite decide_True.
  - assert (∀ l g, NoDup (dkeys (_semaphores g)) → NoDup (dkeys (_semaphores (register_all l g)))) as Hnd; [|apply Hnd; constructor].
    induction l0 as [|[n [lim le]] l0 IH]; intros g Hg; [done|]. apply IH. unfold register_semaphore. destruct (dget _ _); [done|]. simpl. by apply dset_NoDup.
Qed.

(** ** TaskbaseGovernorAdapter *)

Record LeaseToken := { lt_resource : string; lt_value : string; acquired_at : Z }.

Inductive lim_op :=
  | SemAcquire (resource : string) (timeout : option Z)
  | SemTryAcquire (resource : string)
  | SemRelease (token : LeaseToken)
  | SemInUse (resource : string)
  | BucketAcquire (resource : string) (max_sleep : Z)
  | BucketTryAcquire (resource : string)
  | Func
  | StartRelease (token : LeaseToken)
  | AwaitRelease
  | Monotonic
  | NewToken.

(** [StartRelease]: whether a task could be created for it *)
Definition lim_ans (o : lim_op) : Type :=
  match o with
  | SemAcquire _ _ => res exn LeaseToken
  | SemTryAcquire _ => res exn (option LeaseToken)
  | SemRelease _ | AwaitRelease | BucketAcquire _ _ => res exn unit
  | SemInUse _ => res exn Z
  | BucketTryAcquire _ => res exn bool
  | Func => res exn json
  | StartRelease _ => bool
  | Monotonic => Z
  | NewToken => string
  end.
Notation limM := (M lim_ans).

Section Adapter.

Context (g : LimiterRegistry).

(** [_tokens] *)
Notation tokens := (list (string * LeaseToken)).

Definition registered (resource : string) : limM unit := if has_semaphore resource g then ret tt else raise KeyError.

Definition adapter_acquire (resource : string) (timeout : option Z) (ts : tokens) : limM (string * tokens) :=
  do! registered resource in
  let! token := (perform (SemAcquire resource timeout) : limM LeaseToken) in
  ret (lt_value token, dset ts (lt_value token) token).

Definition adapter_try_acquire (resource : string) (ts : tokens) : limM (option string * tokens) :=
  do! registered resource in
  let! token := (perform (SemTryAcquire resource) : limM (option LeaseToken)) in
  ret (match token with None => (None, ts) | Some t => (Some (lt_value t), dset ts (lt_value t) t) end).

(** The table is changed even when the release fails: it is answered with
    the result. *)
Definition adapter_release (resource token : string) (ts : tokens) : prog lim_ans (res exn unit * tokens) :=
  if has_semaphore resource g then
    match dget ts token with
    | Some lease => pbind (perform (SemRelease lease) : limM unit) (λ r : res exn unit, Ret (r, ddel ts token))
    | None =>
        pbind (perform Monotonic) (λ now : Z,
          pbind (perform (SemRelease {| lt_resource := resource; lt_value := token; acquired_at := now |}) : limM unit) (λ r : res exn unit, Ret (r, ts)))
    end
  else Ret (Err KeyError, ts).

Definition adapter_get_usage (resource : string) : limM Z :=
  catch (do! registered resource in (perform (SemInUse resource) : limM Z)) (λ e, if bool_decide (e = KeyError) then ret 0%Z else raise e).

End Adapter.

(** UnlimitedGovernor *)
Definition unlimited_acquire (resource : string) : limM string := pbind (perform NewToken) (λ u : string, ret ("unlimited-" +:+ resource +:+ "-" +:+ u)%string).
Definition unlimited_try_acquire (resource : string) : limM (option string) := let! t := unlimited_acquire resource in ret (Some t).
Definition unlimited_release (resource token : string) : limM unit := ret tt.
Definition unlimited_get_usage (resource : string) : limM Z := ret 0%Z.

(** ** The decorator *)

Inductive wait_mode := Wait | Reject.
Inductive resource_kind := KSemaphore | KBucket.

Section Limited.

Context (g : LimiterRegistry) (resource : string) (mode : wait_mode) (timeout : option Z) (kind : resource_kind).

Definition ACQUIRE_TIMEOUT : exn := Other "AcquireTimeoutError".

(** Microseconds of [999999.0] *)
Definition HUGE_SLEEP : Z := 999999000000.

Definition release_shielded (token : LeaseToken) : limM unit :=
  pbind (perform (StartRelease token)) (λ started : bool, if started then (perform AwaitRelease : limM unit) else ret tt).

Definition take_slot : limM LeaseToken :=
  match mode with
  | Wait => perform (SemAcquire resource timeout)
  | Reject =>
      let! token := (perform (SemTryAcquire resource) : limM (option LeaseToken)) in
      match token with Some t => ret t | None => raise ACQUIRE_TIMEOUT end
  end.

Definition take_rate : limM unit :=
  match mode with
  | Wait => perform (BucketAcquire resource (default HUGE_SLEEP timeout))
  | Reject => let! ok := (perform (BucketTryAcquire resource) : limM bool) in if (ok : bool) then ret tt else raise ACQUIRE_TIMEOUT
  end.

(** [wrapper] *)
Definition limited : limM json :=
  match kind with
  | KSemaphore =>
      if has_semaphore resource g then
        let! token := take_slot in
        finally (perform Func) (release_shielded token)
      else raise KeyError
  | KBucket =>
      if has_bucket resource g then do! take_rate in perform Func else raise KeyError
  end.

End Limited.

(** *** Its discipline *)

(** [Gave t false]: no event loop is left to run the release *)
Inductive lim_note := Took (t : LeaseToken) | Paid | Ran | Gave (t : LeaseToken) (started : bool).

Definition lim_noted (ev : entry_of (ans := lim_ans)) : option lim_note :=
  let '(existT o x) := ev in
  match o return lim_ans o → option lim_note with
  | SemAcquire _ _ => λ x, match x with Ok t => Some (Took t) | Err _ => None end
  | SemTryAcquire _ => λ x, match x with Ok (Some t) => Some (Took t) | _ => None end
  | BucketAcquire _ _ => λ x, match x with Ok _ => Some Paid | Err _ => None end
  | BucketTryAcquire _ => λ x, match x with Ok true => Some Paid | _ => None end
  | Func => λ _, Some Ran
  | StartRelease t => λ started, Some (Gave t started)
  | _ => λ _, None
  end x.

Definition any_answer (o : lim_op) (log : list (entry_of (ans := lim_ans))) (x : lim_ans o) : Prop := True.
Definition every_event (ev : entry_of (ans := lim_ans)) : bool := true.

Notation ltraces := (traces any_answer lim_noted every_event).

Lemma take_slot_traces resource mode timeout : ltraces (take_slot resource mode timeout) (λ r t, match r with Ok tok => t = [Took tok] | Err _ => t = [] end).
Proof.
  destruct mode; simpl.
  - refine (traces_call _ _ _ (SemAcquire resource timeout) _ _). by intros log [tok|e] _ _.
  - unfold take_slot. eapply (traces_seq _ _ _ _ _ (λ r t, match r with Ok (Some tok) => t = [Took tok] | _ => t = [] end)).
    + refine (traces_call _ _ _ (SemTryAcquire resource) _ _). by intros log [[tok|]|e] _ _.
    + intros [tok|] t ->; by apply traces_ret.
    + by intros e t ->.
Qed.

Lemma take_rate_traces resource mode timeout : ltraces (take_rate resource mode timeout) (λ r t, match r with Ok _ => t = [Paid] | Err _ => t = [] end).
Proof.
  destruct mode; simpl.
  - refine (traces_call _ _ _ (BucketAcquire resource _) _ _). by intros log [[]|e] _ _.
  - unfold take_rate. eapply (traces_seq _ _ _ _ _ (λ r t, match r with Ok true => t = [Paid] | _ => t = [] end)).
    + refine (traces_call _ _ _ (BucketTryAcquire resource) _ _). by intros log [[]|e] _ _.
    + intros [] t ->; by apply traces_ret.
    + by intros e t ->.
Qed.

(** C34: a function under [limited] runs exactly once and only after its
    resource was had, or not at all (the resource is unknown, the wait timed
    out, the call was rejected or cancelled); the release of a slot that was
    taken is started exactly once, after the function is over, however it ended,
    and is skipped only when no event loop is left to run it; a rate reservation
    is never given back. *)
Theorem limited_discipline g resource mode timeout kind r log :
  runs (logged any_answer) (limited g resource mode timeout kind) [] r log →
  match kind with
  | KSemaphore => omap lim_noted log = [] ∧ is_ok r = false ∨ ∃ token started, omap lim_noted log = [Took token; Ran; Gave token started]
  | KBucket => omap lim_noted log = [] ∧ is_ok r = false ∨ omap lim_noted log = [Paid; Ran]
  end.
Proof.
  intros Hr. assert (ltraces (limited g resource mode timeout kind) (λ r t, match kind with
    | KSemaphore => t = [] ∧ is_ok r = false ∨ ∃ token started, t = [Took token; Ran; Gave token started]
    | KBucket => t = [] ∧ is_ok r = false ∨ t = [Paid; Ran] end)) as Ht.
  { unfold limited. destruct kind.
    - destruct (has_semaphore resource g); [|apply traces_ret; by left]. eapply traces_seq; [apply take_slot_traces| |by intros e t ->; left].
      intros token t ->. unfold finally. eapply (traces_pbind _ _ _ _ _ (λ _ t, t = [Ran])); [by refine (traces_call _ _ _ Func _ _)|]. intros x t ->.
      eapply (traces_pbind _ _ _ _ _ (λ _ t, ∃ started, t = [Gave token started])).
      + unfold release_shielded. eapply (traces_pbind _ _ _ _ _ (λ started t, t = [Gave token started])); [by refine (traces_call _ _ _ (StartRelease token) _ _)|].
        intros started t ->. destruct started; [|apply traces_ret; by exists false]. refine (traces_call _ _ _ AwaitRelease _ _). intros log' y _ _. by exists true.
      + intros y t [started ->]. destruct y; apply traces_ret; right; by exists token, started.
    - destruct (has_bucket resource g); [|apply traces_ret; by left]. eapply traces_seq; [apply take_rate_traces| |by intros e t ->; left].
      intros [] t ->. refine (traces_call _ _ _ Func _ _). intros log' x _ _. by right. }
  refine (traces_runs _ _ _ _ _ _ _ Ht Hr _). clear. by induction log.
Qed.

(** ** CancellationToken *)

Inductive tok_op := TokClock | TokGetTask.
Definition tok_ans (o : tok_op) : Type := match o with TokClock => Z | TokGetTask => res exn (gmap string json) end.

Record CancellationToken := { _cached_result : option bool; _cached_at : Z }.
Definition new_token : CancellationToken := {| _cached_result := None; _cached_at := 0 |}.

Section Token.

Context (_min_interval : Z).

(** [get_task], and the token after it *)
Definition query (self : CancellationToken) : M tok_ans (bool * CancellationToken) :=
  let! rec := (perform TokGetTask : M tok_ans (gmap string json)) in
  let result := truthy (default (JBool false) (rec !! "cancel_requested"%string)) in
  if (0 <? _min_interval)%Z then pbind (perform TokClock) (λ t : Z, ret (result, {| _cached_result := Some result; _cached_at := t |}))
  else ret (result, self).

Definition is_cancelled (self : CancellationToken) : M tok_ans (bool * CancellationToken) :=
  match (if (0 <? _min_interval)%Z then _cached_result self else None) with
  | Some cached => pbind (perform TokClock) (λ t : Z, if (t - _cached_at self <? _min_interval)%Z then ret (cached, self) else query self)
  | None => query self
  end.

Definition raise_if_cancelled (self : CancellationToken) : M tok_ans CancellationToken :=
  let! r := is_cancelled self in if (r : bool * CancellationToken).1 then raise (Other "CancelledByUser") else ret r.2.

(** A process that polls [n] times, whether or not the store answers *)
Fixpoint polls (n : nat) (self : CancellationToken) : prog tok_ans (list bool * CancellationToken) :=
  match n with
  | O => Ret ([], self)
  | S n => pbind (is_cancelled self) (λ r : res exn (bool * CancellationToken),
      match r with
      | Ok (b, self) => pbind (polls n self) (λ q, Ret (b :: q.1, q.2))
      | Err _ => polls n self
      end)
  end.

(** The time, when the cancellation was requested, when the record was last
    read: a request is never taken back, and the record outlives the polls. *)
Record watched := { at_ : Z; requested : option Z; read_at : Z }.

Definition passes (w w' : watched) : Prop :=
  (at_ w ≤ at_ w')%Z ∧ (requested w' = requested w ∨ requested w = None ∧ ∃ t, requested w' = Some t ∧ at_ w ≤ t ≤ at_ w')%Z.

Definition tok_step (o : tok_op) : watched → tok_ans o → watched → Prop :=
  match o with
  | TokClock => λ w x w', passes w w' ∧ x = at_ w' ∧ read_at w' = read_at w
  | TokGetTask => λ w x w', passes w w' ∧
      match x with
      | Ok rec => truthy (default (JBool false) (rec !! "cancel_requested"%string)) = bool_decide (is_Some (requested w')) ∧ read_at w' = at_ w'
      | Err _ => read_at w' = read_at w
      end
  end.

(** What an answer says of the requests *)
Definition answers (b : bool) (w : watched) : Prop :=
  if b then is_Some (requested w) else ∀ t, requested w = Some t → (read_at w ≤ t)%Z.

Definition token_ok (self : CancellationToken) (w : watched) : Prop :=
  match _cached_result self with Some b => (0 < _min_interval)%Z ∧ answers b w ∧ (read_at w ≤ at_ w)%Z | None => True end.

Lemma runs_bind {op} {ans : op → Type} {S} (step : ∀ o, S → ans o → S → Prop) {A B} (p : prog ans A) (f : A → prog ans B) s b s' :
  runs step (pbind p f) s b s' → ∃ a s1, runs step p s a s1 ∧ runs step (f a) s1 b s'.
Proof.
  revert s. induction p as [a|o k IH]; intros s Hr; [by exists a, s|]. destruct Hr as (x & s1 & Hs & Hr). apply IH in Hr as (a & s2 & H1 & H2).
  exists a, s2. split; [by exists x, s1|done].
Qed.

Lemma passes_requested w w' : passes w w' → is_Some (requested w) → is_Some (requested w').
Proof. intros [_ [->|[-> _]]]; [done|by intros []%is_Some_None]. Qed.

Lemma passes_answers b w w' : passes w w' → read_at w' = read_at w → (read_at w ≤ at_ w)%Z → answers b w → answers b w'.
Proof.
  intros Hp Hr Hle. destruct b; simpl; [by apply passes_requested|]. rewrite Hr. intros H t Ht.
  destruct Hp as [_ [E|(_ & t' & E & Hb)]]; [by apply H; rewrite <- E|]. rewrite E in Ht. injection Ht as <-. lia.
Qed.

Lemma passes_token self w w' : passes w w' → read_at w' = read_at w → token_ok self w → token_ok self w'.
Proof.
  intros Hp Hr. unfold token_ok. destruct (_cached_result self) as [b|]; [|done]. intros (Hm & Ha & Hle). split_and!; [done|by eapply passes_answers|]. rewrite Hr. destruct Hp. lia.
Qed.

Lemma query_spec self w r w' : runs tok_step (query self) w r w' → token_ok self w →
  (is_Some (requested w) → is_Some (requested w')) ∧
  match r with
  | Ok (b, self') => token_ok self' w' ∧ answers b w' ∧ (is_Some (requested w) → b = true)
  | Err _ => token_ok self w'
  end.
Proof.
  unfold query. cbn. intros (x & w1 & [Hp Hx] & Hr) Hok. destruct x as [rec|e].
  - destruct Hx as [Ht Hre]. cbn in Hr. rewrite Ht in Hr. set (b := bool_decide (is_Some (requested w1))) in *.
    assert (answers b w1) as Hb. { unfold b. case_bool_decide as E; [done|]. intros t Et. by destruct E; eexists. }
    assert (is_Some (requested w) → b = true) as Hw. { intros Hs. apply bool_decide_eq_true. by eapply passes_requested. }
    destruct (Z.ltb_spec 0 _min_interval) as [Hm|Hm].
    + destruct Hr as (t & w2 & (Hp' & -> & Hre') & -> & ->). assert (answers b w2) as Hb2 by (eapply passes_answers; [done..|lia|done]).
      split_and!; [intros Hs; by eapply passes_requested, passes_requested| |done|done]. split_and!; [done..|]. rewrite Hre', Hre. by destruct Hp'.
    + destruct Hr as [-> ->]. split_and!; [intros Hs; by eapply passes_requested| |done|done]. unfold token_ok in *. destruct (_cached_result self); [|done]. lia.
  - destruct Hr as [-> ->]. split; [by apply passes_requested|]. by eapply passes_token.
Qed.

Lemma is_cancelled_spec self w r w' : runs tok_step (is_cancelled self) w r w' → token_ok self w →
  (is_Some (requested w) → is_Some (requested w')) ∧
  match r with
  | Ok (b, self') => token_ok self' w' ∧ answers b w' ∧ (is_Some (requested w) → (_cached_at self + _min_interval ≤ at_ w)%Z → b = true)
  | Err _ => token_ok self w'
  end.
Proof.
  unfold is_cancelled. intros Hr Hok.
  assert (∀ w1, runs tok_step (query self) w1 r w' → token_ok self w1 → (is_Some (requested w) → is_Some (requested w1)) → (is_Some (requested w) → is_Some (requested w')) ∧
    match r with Ok (b, self') => token_ok self' w' ∧ answers b w' ∧ (is_Some (requested w) → (_cached_at self + _min_interval ≤ at_ w)%Z → b = true) | Err _ => token_ok self w' end) as Hq.
  { intros w1 Hq Hok1 Hw. apply query_spec in Hq as [Hs Hq]; [|done]. split; [by auto|]. destruct r as [[b self']|e]; [|done]. destruct Hq as (? & ? & ?). by auto. }
  destruct (if (0 <? _min_interval)%Z then _cached_result self else None) as [b|] eqn:E; [|by apply (Hq w)].
  destruct (Z.ltb_spec 0 _min_interval) as [Hm|]; [|done]. destruct Hr as (t & w1 & (Hp & -> & Hre) & Hr). cbn [pbind] in Hr. assert (token_ok self w1) as Hok1 by by eapply passes_token.
  destruct (Z.ltb_spec (at_ w1 - _cached_at self) _min_interval) as [Hlt|_]; [|apply (Hq w1); [done|done|by apply passes_requested]].
  destruct Hr as [-> ->]. split; [by apply passes_requested|]. split_and!; [done| |].
  - unfold token_ok in Hok1. rewrite E in Hok1. by destruct Hok1 as (_ & ? & _).
  - intros _ Hle. destruct Hp. lia.
Qed.

Lemma polls_ok n self w r w' : runs tok_step (polls n self) w r w' → token_ok self w → token_ok r.2 w' ∧ (true ∈ r.1 → is_Some (requested w')) ∧ (is_Some (requested w) → is_Some (requested w')).
Proof.
  revert self w r w'. induction n as [|n IH]; intros self w r w' Hr Hok; cbn [polls] in Hr.
  { destruct Hr as [-> ->]. split_and!; [done| |done]. by intros ?%elem_of_nil. }
  apply runs_bind in Hr as (x & w1 & Hx & Hr). apply is_cancelled_spec in Hx as [Hs Hx]; [|done]. destruct x as [[b self1]|e].
  - destruct Hx as (Hok1 & Hb & _). apply runs_bind in Hr as (q & w2 & Hq & -> & ->). destruct (IH _ _ _ _ Hq Hok1) as (H1 & H2 & H3). split_and!; [done| |by auto].
    simpl. intros [<-|H]%elem_of_cons; [apply H3; exact Hb|by apply H2].
  - destruct (IH _ _ _ _ Hr Hx) as (H1 & H2 & H3). by auto.
Qed.

(** C35: however often a token is polled, and whichever polls the store failed
    to answer, a poll that says cancelled is right; one that says not cancelled
    is wrong at most about requests made after the record was last read; a
    request is reported by every poll that starts when the answer kept by the
    token is older than the interval. With an interval of 0 no answer is kept. *)
Theorem token_never_misses n w0 bs self w1 b self' w2 :
  runs tok_step (polls n new_token) w0 (bs, self) w1 →
  runs tok_step (is_cancelled self) w1 (Ok (b, self')) w2 →
  (b = true → is_Some (requested w2)) ∧
  (b = false → ∀ t, requested w2 = Some t → (read_at w2 ≤ t)%Z) ∧
  (is_Some (requested w1) → (_cached_at self + _min_interval ≤ at_ w1)%Z ∨ (_min_interval ≤ 0)%Z → b = true).
Proof.
  intros Hp Hr. apply polls_ok in Hp as (Hok & _ & _); [|done]. simpl in Hok. pose proof Hr as Hr'. apply is_cancelled_spec in Hr as [_ (_ & Hb & Hlate)]; [|done].
  split_and!; [by intros ->|by intros ->|]. intros Hs [Hle|Hle]; [by apply Hlate|]. unfold is_cancelled in Hr'. destruct (Z.ltb_spec 0 _min_interval); [lia|].
  apply query_spec in Hr' as [_ (_ & _ & H')]; [|done]. by apply H'.
Qed.

End Token.

Module LimitsWitness.

Definition two : LimiterRegistry := register_all [("llm", (2, 60)); ("gpu", (1, 30)); ("llm", (9, 9))]%Z no_limiters.
Definition show_percent (u l : Z) : string := "x".
Definition manager : GovernorManager := {| registry := Some two; gm_governor := Some {| has_get_limit := true; has_list_resources := true |} |}.

Lemma all_resources_witness :
  (play (answers_as (λ _, 1%Z) (λ _, 5%Z) (λ _, 7%Z) ["gpu"; "db"]) (get_all_resources show_percent manager) tt).1
    = Ok (omap (λ n, (λ st, (n, st)) <$> status_of show_percent (λ _, 1%Z) (λ _, 5%Z) (λ _, 7%Z) manager n) (["llm"; "gpu"] ++ ["db"]))%Z.
Proof.
  apply (all_resources show_percent (λ _, 1%Z) (λ _, 5%Z) (λ _, 7%Z) ["gpu"; "db"] manager "db")%Z; [by apply (bool_decide_unpack _)|].
  intros gov H _. by injection H as <-.
Defined.

Definition lease : LeaseToken := {| lt_resource := "llm"; lt_value := "v"; acquired_at := 3 |}.
(** A function that raises, and an event loop that is still there *)
Definition fails (o : lim_op) (log : list (entry_of (ans := lim_ans))) : lim_ans o :=
  match o with
  | SemAcquire _ _ => Ok lease
  | SemTryAcquire _ => Ok None
  | SemRelease _ | AwaitRelease | BucketAcquire _ _ => Ok tt
  | SemInUse _ => Ok 0%Z
  | BucketTryAcquire _ => Ok false
  | Func => Err ValueError
  | StartRelease _ => true
  | Monotonic => 0%Z
  | NewToken => "u"
  end.

Definition held : res exn json * list (entry_of (ans := lim_ans)) := play (scripted fails) (limited two "llm" Wait None KSemaphore) [].

Lemma limited_witness : held.1 = Err ValueError ∧ (omap lim_noted held.2 = [] ∧ is_ok held.1 = false ∨ ∃ token started, omap lim_noted held.2 = [Took token; Ran; Gave token started]).
Proof.
  split; [vm_compute; reflexivity|]. apply (limited_discipline two "llm" Wait None KSemaphore held.1 held.2). by apply scripted_runs.
Defined.

Example rejected : play (scripted fails) (limited two "llm" Reject None KSemaphore) [] = (Err ACQUIRE_TIMEOUT, [existT (SemTryAcquire "llm") (Ok None)]).
Proof. by vm_compute. Qed.

(** A poll at 10, a request at 50, a poll that the store does not answer, and
    one at 200 *)
Definition start_ : watched := {| at_ := 0; requested := None; read_at := 0 |}.
Definition first_ : watched := {| at_ := 10; requested := None; read_at := 10 |}.
Definition later : watched := {| at_ := 200; requested := Some 50%Z; read_at := 10 |}.
Definition last_ : watched := {| at_ := 200; requested := Some 50%Z; read_at := 200 |}.
Definition asked (b : bool) : gmap string json := {[ "cancel_requested" := JBool b ]}.

Lemma token_witness : (10 + 100 ≤ at_ later)%Z ∧ is_Some (requested last_).
Proof.
  split; [done|]. apply (token_never_misses 100 2 start_ [false] {| _cached_result := Some false; _cached_at := 10 |} later true {| _cached_result := Some true; _cached_at := 200 |} last_).
  - exists (Ok (asked false)), first_. split; [split; [split; [done|by left]|done]|]. exists 10%Z, first_. split; [split; [split; [done|by left]|done]|].
    exists 200%Z, later. split; [split; [split; [done|right; split; [done|by exists 50%Z]]|done]|].
    exists (Err (Other "RedisError")), later. split; [split; [split; [done|by left]|done]|]. done.
  - exists 200%Z, later. split; [split; [split; [done|by left]|done]|].
    exists (Ok (asked true)), last_. split; [split; [split; [done|by left]|done]|]. exists 200%Z, last_. split; [split; [split; [done|by left]|done]|]. done.
  - done.
Defined.

End LimitsWitness.
