(* ===== verification/Conformance.v ===== *)
(** * The conformance kit

    protocol/capabilities.py and protocol/conformance: the capability
    declarations, the profiles, the runner and its cases, and the fixtures of
    the consumer profile.  The cases are written against an interface that the
    parts of the three adapters implement. *)
From Stdlib Require Import ZArith Lia Ascii.
From stdpp Require Import prelude gmap strings list pretty.
From S2P Require Import Prelude Mechanism SnapshotModel Traversal MemorySnapshot MemoryParts LocalSnapshot LocalParts UiReader.
Local Open Scope string_scope.
Local Open Scope list_scope.
Local Open Scope Z_scope.

(** ** Capabilities *)

Inductive concurrency := process | database | distributed.

Record CapabilitySet := {
  content_sink : bool; content_query : bool;
  audit_sink : bool; audit_query : bool;
  result_sink : bool; result_query : bool;
  snapshot_sink : bool; snapshot_query : bool;
  dependency_sink : bool; dependency_query : bool;
  protocol_compat : string;
  concurrency_domain : concurrency
}.

Definition no_capabilities : CapabilitySet :=
  {| content_sink := false; content_query := false; audit_sink := false; audit_query := false; result_sink := false; result_query := false;
     snapshot_sink := false; snapshot_query := false; dependency_sink := false; dependency_query := false;
     protocol_compat := ">=0.1,<0.2"; concurrency_domain := process |}.

(** What a case or the runner may raise *)
Inductive failure :=
  | ContractFailure (e : ContractError)
  | AssertionError
  | UnknownName
  | Broken.

#[global] Instance failure_eq_dec : EqDecision failure.
Proof. solve_decision. Defined.
#[global] Instance res_failure_eq_dec {A} `{EqDecision A} : EqDecision (res failure A).
Proof. solve_decision. Defined.

(** [getattr(self, half_domain)], a [ValueError] for an unknown name *)
Definition supports (caps : CapabilitySet) (half_domain : string) : res failure bool :=
  match dget [("content_sink", content_sink caps); ("content_query", content_query caps); ("audit_sink", audit_sink caps); ("audit_query", audit_query caps);
              ("result_sink", result_sink caps); ("result_query", result_query caps); ("snapshot_sink", snapshot_sink caps); ("snapshot_query", snapshot_query caps);
              ("dependency_sink", dependency_sink caps); ("dependency_query", dependency_query caps)] half_domain with
  | Some b => Ok b
  | None => Err UnknownName
  end.

(** ** The adapter under test *)

(** A call at an instant, on the state of the adapter *)
Definition call_on (S A : Type) : Type := Z → S → res failure A * S.

Class Adapter (S : Type) := {
  capabilities : CapabilitySet;
  seed_hook : option (list row → list row → call_on S unit);
  ad_put : string → option string → option row → call_on S TaskPointer;
  ad_content : TaskPointer → call_on S string;
  ad_metadata : TaskPointer → call_on S row;
  ad_exists : TaskPointer → call_on S bool;
  ad_append : AuditEvent → call_on S unit;
  ad_events : option string → option TimeRange → option Page → option Sort → call_on S (list AuditEvent);
  ad_save_result : string → row → Z → call_on S unit;
  ad_result : string → call_on S (option row);
  ad_save : TaskSnapshot → call_on S unit;
  ad_save_terminal : TaskSnapshot → call_on S unit;
  ad_get : string → string → call_on S (option TaskSnapshot);
  ad_versions : string → string → option Sort → call_on S (list TaskSnapshot);
  ad_query : option string → option string → option Sort → call_on S (list TaskSnapshot);
  ad_aggregate : string → option string → call_on S (list (string * agg_bucket));
  ad_tree : string → bool → call_on S (list TaskSnapshot);
  ad_write_edge : DependencyEdge → call_on S unit;
  ad_edges : call_on S (list DependencyEdge);
  ad_graph : string → call_on S DependencyGraph;
  ad_children : string → call_on S (list string);
  ad_parents : string → call_on S (list string)
}.

(** A method that the part does not have *)
Definition absent {S A} : call_on S A := λ _ s, (Err Broken, s).
Definition answer {S A} (f : Z → S → A) : call_on S A := λ now s, (Ok (f now s), s).
Definition answer_or {S A} (f : Z → S → option A) : call_on S A := λ now s, (match f now s with Some a => Ok a | None => Err Broken end, s).
Definition answer_res {E S A} (e : E → failure) (f : Z → S → res E A) : call_on S A := λ now s, (match f now s with Ok a => Ok a | Err x => Err (e x) end, s).
Definition change {E S} (e : E → failure) (f : Z → S → res E S) : call_on S unit := λ now s, match f now s with Ok s' => (Ok tt, s') | Err x => (Err (e x), s) end.

(** *** Cases as programs: the clock moves on at every reading *)

Section Kit.

Context {S : Type} `{!Adapter S}.
(** The step of the clock *)
Context (tick : Z).
(** The floats of the cases, and [abs(total - 0.3) <= 0.3 * 1e-9] *)
Context (f01 f02 f05 : Z) (near_03 : Z → bool).

Record bench := { clock : Z; under_test : S }.
Definition caseM (A : Type) : Type := bench → res failure A * bench.

Definition done_with {A} (a : A) : caseM A := λ b, (Ok a, b).
Definition fails_with {A} (e : failure) : caseM A := λ b, (Err e, b).
Definition then_ {A B} (p : caseM A) (k : A → caseM B) : caseM B := λ b, match p b with (Ok a, b') => k a b' | (Err e, b') => (Err e, b') end.
Notation "'await' x := p 'in' k" := (then_ p (λ x, k)) (at level 10, x pattern, p at level 100, k at level 200).
Notation "'await_' p 'in' k" := (then_ p (λ _, k)) (at level 10, p at level 100, k at level 200).

Definition now_utc : caseM Z := λ b, (Ok (clock b), {| clock := clock b + tick; under_test := under_test b |}).
Definition on {A} (c : call_on S A) : caseM A := λ b, let '(r, s) := c (clock b) (under_test b) in (r, {| clock := clock b + tick; under_test := s |}).
Definition assert (c : bool) : caseM unit := if c then done_with tt else fails_with AssertionError.
Definition can (half_domain : string) : caseM bool := λ b, (supports capabilities half_domain, b).

(** [if not adapter.capabilities.supports(...): return] *)
Definition when_can (half_domain : string) (p : caseM unit) : caseM unit := await yes := can half_domain in if (yes : bool) then p else done_with tt.

(** [try: p except E: return], then [raise AssertionError] *)
Definition expects {A} (e : failure → bool) (p : caseM A) : caseM unit :=
  λ b, match p b with (Ok _, b') => (Err AssertionError, b') | (Err x, b') => if e x then (Ok tt, b') else (Err x, b') end.

Definition is_failure (e : ContractError) (x : failure) : bool := bool_decide (x = ContractFailure e).
Definition is_not_found (x : failure) : bool := match x with ContractFailure (ContentNotFoundError _) => true | _ => false end.

(** [for x in l: await f(x)] *)
Fixpoint each {A} (l : list A) (f : A → caseM unit) : caseM unit := match l with [] => done_with tt | x :: l => await_ f x in each l f end.

Definition SECOND : Z := 1000000.
Definition MINUTE : Z := 60 * SECOND.
Definition HOUR : Z := 60 * MINUTE.

(** *** Content *)

Definition OCTETS : string := "orditect-conformance-" +:+ String (ascii_of_nat 0) (String (ascii_of_nat 1) (String (ascii_of_nat 2) "")).

Definition pointer_round_trip : caseM unit :=
  await ptr := on (ad_put OCTETS (Some "application/octet-stream") None) in
  await_ assert (negb (bool_decide (tp_backend ptr = "")) && negb (bool_decide (tp_key ptr = ""))) in
  await got := on (ad_content ptr) in
  assert (bool_decide (got = OCTETS)).

Definition content_immutable_under_pointer : caseM unit :=
  await p1 := on (ad_put "first" None None) in
  await p2 := on (ad_put "second" None None) in
  await a := on (ad_content p1) in
  await_ assert (bool_decide (a = "first")) in
  await b := on (ad_content p2) in
  assert (bool_decide (b = "second")).

Definition metadata_round_trip : caseM unit :=
  when_can "content_query" (
    let meta : row := {[ "content_type" := JStr "text/plain"; "origin" := JStr "cf-ctt-004" ]} in
    await ptr := on (ad_put "with-meta" None (Some meta)) in
    await got := on (ad_metadata ptr) in
    each (map_to_list meta) (λ kv, assert (bool_decide (got !! kv.1 = Some kv.2)))).

Definition missing_pointer_semantics : caseM unit :=
  when_can "content_query" (
    let ghost := mkPointer "mem" "cf-ctt-005/never-written" None in
    await e := on (ad_exists ghost) in
    await_ assert (negb e) in
    expects is_not_found (on (ad_content ghost))).

(** *** Audit *)

(** [AuditEvent(event_id=..., task_id=..., payload=...)]: [created_at] defaults to now. *)
Definition new_event (id tid : string) (payload : row) : caseM AuditEvent :=
  await now := now_utc in done_with (mkAudit id tid None "" "" payload now).

Definition duplicate_append_deduplicated : caseM unit :=
  await ev := new_event "cf-aud-001" "t" {[ "a" := JNum 1 ]} in
  await_ on (ad_append ev) in
  await_ on (ad_append ev) in
  await q := can "audit_query" in
  if (q : bool) then await rows := on (ad_events (Some "t") None None None) in assert (bool_decide (length rows = 1%nat)) else done_with tt.

Definition same_key_different_payload_conflicts : caseM unit :=
  await e1 := new_event "cf-aud-002" "t" {[ "v" := JNum 1 ]} in
  await_ on (ad_append e1) in
  expects (is_failure IdempotencyConflictError) (await e2 := new_event "cf-aud-002" "t" {[ "v" := JNum 2 ]} in on (ad_append e2)).

Definition audit_sort_field_outside_whitelist_rejected : caseM unit :=
  when_can "audit_query" (expects (is_failure InvalidQueryError) (on (ad_events None None None (Some (mkSort "payload" DESC))))).

Definition page_boundaries : caseM unit :=
  when_can "audit_query" (
    await_ each ["0"; "1"; "2"] (λ i, await e := new_event ("cf-aud-003-" +:+ i) "cf-aud-003-t" ∅ in on (ad_append e)) in
    await none := on (ad_events (Some "cf-aud-003-t") None (Some (mkPage 10 99)) None) in
    await_ assert (bool_decide (none = [])) in
    await first := on (ad_events (Some "cf-aud-003-t") None (Some (mkPage 1 0)) None) in
    await_ assert (bool_decide (length first = 1%nat)) in
    await rest := on (ad_events (Some "cf-aud-003-t") None (Some (mkPage 10 1)) None) in
    assert (bool_decide (length rest = 2%nat))).

Definition time_range_interval_semantics : caseM unit :=
  when_can "audit_query" (
    await now := now_utc in
    await_ on (ad_append (mkAudit "cf-aud-004-a" "cf-aud-004-t" None "" "" ∅ now)) in
    await rows := on (ad_events (Some "cf-aud-004-t") (Some (mkRange (Some now) (Some (now + SECOND)))) None None) in
    await_ assert (bool_decide (length rows = 1%nat)) in
    await rows2 := on (ad_events (Some "cf-aud-004-t") (Some (mkRange (Some (now - SECOND)) (Some now))) None None) in
    assert (bool_decide (rows2 = []))).

(** *** Results *)

Definition expired_read_returns_none : caseM unit :=
  when_can "result_query" (
    await now := now_utc in
    await_ on (ad_save_result "cf-rst-002" {[ "k" := JStr "v" ]} (now - SECOND)) in
    await got := on (ad_result "cf-rst-002") in
    assert (bool_decide (got = None))).

(** The eight writers that are gathered *)
Definition eight : list nat := [0; 1; 2; 3; 4; 5; 6; 7]%nat.

Definition concurrent_save_single_record : caseM unit :=
  when_can "result_query" (
    await_ each eight (λ i, await now := now_utc in on (ad_save_result "cf-rst-003" {[ "n" := JNum (Z.of_nat i) ]} (now + HOUR))) in
    await got := on (ad_result "cf-rst-003") in
    assert (match got with Some r => match r !! "n" with Some (JNum _) => true | _ => false end | None => false end)).

(** *** Snapshots *)

Definition snap_at (now : Z) (tid step eid status : string) : TaskSnapshot := mkSnapshot tid step eid None status None None None None None now now None.

Definition _snap (tid step eid status : string) : caseM TaskSnapshot := await now := now_utc in done_with (snap_at now tid step eid status).

Definition with_parent (p : string) (s : TaskSnapshot) : TaskSnapshot :=
  mkSnapshot (ts_task_id s) (ts_step s) (ts_execution_id s) (Some p) (ts_status s) (ts_input_pointer s) (ts_output_pointer s) (ts_error s) (ts_cost s) (ts_model s)
    (ts_created_at s) (ts_updated_at s) (ts_expire_at s).
Definition with_cost (c : gmap string Z) (s : TaskSnapshot) : TaskSnapshot :=
  mkSnapshot (ts_task_id s) (ts_step s) (ts_execution_id s) (ts_parent_task_id s) (ts_status s) (ts_input_pointer s) (ts_output_pointer s) (ts_error s) (Some c) (ts_model s)
    (ts_created_at s) (ts_updated_at s) (ts_expire_at s).
Definition with_error (e : string) (s : TaskSnapshot) : TaskSnapshot :=
  mkSnapshot (ts_task_id s) (ts_step s) (ts_execution_id s) (ts_parent_task_id s) (ts_status s) (ts_input_pointer s) (ts_output_pointer s) (Some e) (ts_cost s) (ts_model s)
    (ts_created_at s) (ts_updated_at s) (ts_expire_at s).
Definition with_model (m : string) (s : TaskSnapshot) : TaskSnapshot :=
  mkSnapshot (ts_task_id s) (ts_step s) (ts_execution_id s) (ts_parent_task_id s) (ts_status s) (ts_input_pointer s) (ts_output_pointer s) (ts_error s) (ts_cost s) (Some m)
    (ts_created_at s) (ts_updated_at s) (ts_expire_at s).
Definition with_expiry (t : Z) (s : TaskSnapshot) : TaskSnapshot :=
  mkSnapshot (ts_task_id s) (ts_step s) (ts_execution_id s) (ts_parent_task_id s) (ts_status s) (ts_input_pointer s) (ts_output_pointer s) (ts_error s) (ts_cost s) (ts_model s)
    (ts_created_at s) (ts_updated_at s) (Some t).

Definition same_generation_resave_idempotent : caseM unit :=
  await s := _snap "t-snp-002" "step" "e1" "running" in
  await_ on (ad_save s) in
  on (ad_save s).

Definition mutation_after_terminal_rejected : caseM unit :=
  await s := _snap "t-snp-003" "step" "e1" "done" in
  await_ on (ad_save_terminal s) in
  expects (is_failure TerminalStateViolationError) (await s := _snap "t-snp-003" "step" "e1" "running" in on (ad_save s)).

Definition new_generation_always_permitted : caseM unit :=
  await s1 := _snap "t-snp-005" "step" "e1" "done" in
  await_ on (ad_save_terminal s1) in
  await s2 := _snap "t-snp-005" "step" "e2" "running" in
  on (ad_save s2).

Definition concurrent_same_key_single_winner : caseM unit :=
  await_ each eight (λ i, await s := _snap "t-snp-006" "step" ("e" +:+ pretty i) "running" in on (ad_save s)) in
  when_can "snapshot_query" (
    await versions := on (ad_versions "t-snp-006" "step" None) in
    await_ assert (bool_decide (length versions = 8%nat)) in
    each versions (λ v, assert (negb (bool_decide (ts_task_id v = "")) && negb (bool_decide (ts_execution_id v = ""))))).

Definition expired_snapshots_invisible : caseM unit :=
  when_can "snapshot_query" (
    await past := now_utc in
    await s := _snap "t-snp-004" "step" "e1" "running" in
    await_ on (ad_save (with_expiry (past - SECOND) s)) in
    await got := on (ad_get "t-snp-004" "step") in
    assert (bool_decide (got = None))).

Definition ids_set (l : list TaskSnapshot) : gset string := list_to_set (ts_task_id <$> l).

Definition query_filters_and_combined : caseM unit :=
  when_can "snapshot_query" (
    await a := _snap "cf-007-a" "s" "e1" "running" in
    await_ on (ad_save a) in
    await b := _snap "cf-007-b" "s" "e1" "done" in
    await_ on (ad_save b) in
    await saved := on (ad_get "cf-007-b" "s") in
    match saved with
    | None => fails_with AssertionError
    | Some saved =>
        await_ on (ad_save (with_parent "cf-007-a" saved)) in
        await rows := on (ad_query (Some "done") (Some "cf-007-a") None) in
        assert (bool_decide (ids_set rows = {[ "cf-007-b" ]}))
    end).

Definition list_versions_ordering : caseM unit :=
  when_can "snapshot_query" (
    await e1 := _snap "cf-008" "s" "e1" "" in
    await_ on (ad_save e1) in
    await e2 := _snap "cf-008" "s" "e2" "" in
    await_ on (ad_save e2) in
    await asc := on (ad_versions "cf-008" "s" (Some (mkSort "created_at" ASC))) in
    await desc := on (ad_versions "cf-008" "s" (Some (mkSort "created_at" DESC))) in
    await_ assert (bool_decide (ts_execution_id <$> asc = ["e1"; "e2"])) in
    assert (bool_decide (ts_execution_id <$> desc = ["e2"; "e1"]))).

Definition aggregate_empty_and_single : caseM unit :=
  when_can "snapshot_query" (
    await empty := on (ad_aggregate "status" (Some "cf-009-nothing")) in
    await_ assert (bool_decide (length empty = 0%nat)) in
    await s := _snap "cf-009" "s" "e1" "running" in
    await_ on (ad_save (with_parent "cf-009-root" s)) in
    await out := on (ad_aggregate "status" (Some "cf-009-root")) in
    await_ assert (bool_decide (list_to_set (dkeys out) = ({[ "running" ]} : gset string))) in
    assert (match dget out "running" with Some b => b_count b =? 1 | None => false end)).

Definition aggregate_precision_bound : caseM unit :=
  when_can "snapshot_query" (
    await a := _snap "cf-010-a" "s" "e1" "x" in
    await b := _snap "cf-010-b" "s" "e1" "x" in
    await_ on (ad_save (with_parent "cf-010-root" (with_cost {[ "usd" := f01 ]} a))) in
    await_ on (ad_save (with_parent "cf-010-root" (with_cost {[ "usd" := f02 ]} b))) in
    await out := on (ad_aggregate "status" (Some "cf-010-root")) in
    match dget out "x" ≫= λ b, b_cost b !! "usd" with
    | Some total => assert (near_03 total)
    | None => fails_with Broken
    end).

Definition sort_field_outside_whitelist_rejected : caseM unit :=
  when_can "snapshot_query" (expects (is_failure InvalidQueryError) (on (ad_query None None (Some (mkSort "cost" DESC))))).

Definition group_by_outside_whitelist_rejected : caseM unit :=
  when_can "snapshot_query" (expects (is_failure InvalidQueryError) (on (ad_aggregate "cost" None))).

Definition got_with (check : TaskSnapshot → bool) (tid step : string) : caseM unit :=
  await got := on (ad_get tid step) in
  assert (match got with Some s => check s | None => false end).

Definition non_state_fields_merge_into_terminal_generation : caseM unit :=
  when_can "snapshot_query" (
    await full := _snap "t-snp-013" "step" "e1" "running" in
    await_ on (ad_save (with_cost {[ "usd" := f05 ]} full)) in
    await closed := _snap "t-snp-013" "step" "e1" "done" in
    await_ on (ad_save_terminal (with_cost {[ "usd" := f05 ]} closed)) in
    await sparse := _snap "t-snp-013" "step" "e1" "done" in
    await_ on (ad_save sparse) in
    got_with (λ s, bool_decide (ts_status s = "done") && bool_decide (ts_cost s = Some {[ "usd" := f05 ]})) "t-snp-013" "step").

Definition sparse_save_without_status_preserves_record : caseM unit :=
  when_can "snapshot_query" (
    await first := _snap "t-snp-014" "step" "e1" "running" in
    await_ on (ad_save (with_cost {[ "usd" := f01 ]} first)) in
    await sparse := _snap "t-snp-014" "step" "e1" "" in
    await_ on (ad_save (with_error "boom" sparse)) in
    await_ got_with (λ s, bool_decide (ts_status s = "running") && bool_decide (ts_cost s = Some {[ "usd" := f01 ]}) && bool_decide (ts_error s = Some "boom")
                          && (ts_created_at s =? ts_created_at first) && (ts_updated_at sparse <=? ts_updated_at s)) "t-snp-014" "step" in
    await closed := _snap "t-snp-014" "step" "e1" "done" in
    await_ on (ad_save_terminal (with_error "boom" (with_cost {[ "usd" := f01 ]} closed))) in
    await late := _snap "t-snp-014" "step" "e1" "" in
    await_ on (ad_save (with_model "m1" late)) in
    got_with (λ s, bool_decide (ts_status s = "done") && bool_decide (ts_model s = Some "m1")) "t-snp-014" "step").

Definition of_case_015 (l : list TaskSnapshot) : list string := filter (λ id, String.prefix "cf-015-" id = true) (ts_task_id <$> l).

Definition sort_by_expire_at_mixed_none : caseM unit :=
  when_can "snapshot_query" (
    await n1 := now_utc in
    await n2 := now_utc in
    await a := _snap "cf-015-a" "s" "e1" "" in
    await_ on (ad_save (with_expiry (n1 + HOUR) a)) in
    await b := _snap "cf-015-b" "s" "e1" "" in
    await_ on (ad_save (with_expiry (n2 + MINUTE) b)) in
    await c := _snap "cf-015-c" "s" "e1" "" in
    await_ on (ad_save c) in
    await asc := on (ad_query None None (Some (mkSort "expire_at" ASC))) in
    await_ assert (bool_decide (of_case_015 asc = ["cf-015-b"; "cf-015-a"; "cf-015-c"])) in
    await desc := on (ad_query None None (Some (mkSort "expire_at" DESC))) in
    assert (bool_decide (of_case_015 desc = ["cf-015-c"; "cf-015-a"; "cf-015-b"]))).

(** *** Dependencies *)

Definition _edge (child parent : string) (primary : bool) : caseM DependencyEdge := await now := now_utc in done_with (mkEdge child parent primary now).
Definition save_edge (child parent : string) (primary : bool) : caseM unit := await e := _edge child parent primary in on (ad_write_edge e).

Definition write_read_roundtrip : caseM unit :=
  when_can "dependency_query" (
    await_ save_edge "cf-dep-001-c" "cf-dep-001-p" true in
    await edges := on ad_edges in
    assert (existsb (λ e, bool_decide (de_child_id e = "cf-dep-001-c") && bool_decide (de_parent_id e = "cf-dep-001-p") && de_is_primary e) edges)).

Definition rewrite_same_edge_idempotent : caseM unit :=
  when_can "dependency_query" (
    await e := _edge "cf-dep-002-c" "cf-dep-002-p" true in
    await_ on (ad_write_edge e) in
    await_ on (ad_write_edge e) in
    await edges := on ad_edges in
    assert (bool_decide (length (filter (λ e, de_child_id e = "cf-dep-002-c" ∧ de_parent_id e = "cf-dep-002-p") edges) = 1%nat))).

Definition same_key_different_primary_conflicts : caseM unit :=
  await_ save_edge "cf-dep-003-c" "cf-dep-003-p" true in
  expects (is_failure IdempotencyConflictError) (save_edge "cf-dep-003-c" "cf-dep-003-p" false).

Definition has_all (want got : list string) : bool := forallb (λ x, bool_decide (x ∈ got)) want.

Definition read_graph_closure_cycle_safe : caseM unit :=
  when_can "dependency_query" (
    await_ save_edge "cf-dep-004-c" "cf-dep-004-b" false in
    await_ save_edge "cf-dep-004-b" "cf-dep-004-a" false in
    await_ save_edge "cf-dep-004-c" "cf-dep-004-d" false in
    await_ save_edge "cf-dep-004-x" "cf-dep-004-y" false in
    await_ save_edge "cf-dep-004-y" "cf-dep-004-x" false in
    await graph := on (ad_graph "cf-dep-004-a") in
    await_ assert (has_all ["cf-dep-004-a"; "cf-dep-004-b"; "cf-dep-004-c"; "cf-dep-004-d"] (dg_task_ids graph)) in
    await cycle := on (ad_graph "cf-dep-004-x") in
    await_ assert (has_all ["cf-dep-004-x"; "cf-dep-004-y"] (dg_task_ids cycle)) in
    await rootless := on (ad_graph "cf-dep-004-lonely") in
    assert (bool_decide (dg_task_ids rootless = ["cf-dep-004-lonely"]))).

Definition same_set (a b : list string) : bool := bool_decide (list_to_set a = (list_to_set b : gset string)).

Definition neighbor_direction_correct : caseM unit :=
  when_can "dependency_query" (
    await_ save_edge "cf-dep-005-c1" "cf-dep-005-p" false in
    await_ save_edge "cf-dep-005-c2" "cf-dep-005-p" false in
    await_ save_edge "cf-dep-005-p" "cf-dep-005-gp" false in
    await c := on (ad_children "cf-dep-005-p") in
    await_ assert (same_set c ["cf-dep-005-c1"; "cf-dep-005-c2"]) in
    await p := on (ad_parents "cf-dep-005-p") in
    await_ assert (bool_decide (p = ["cf-dep-005-gp"])) in
    await g := on (ad_children "cf-dep-005-gp") in
    assert (same_set g ["cf-dep-005-p"])).

(** [{e.parent_id: e.is_primary for e in ...}]: the last edge of a parent wins. *)
Definition primary_of (parent : string) (edges : list DependencyEdge) : option bool :=
  last (de_is_primary <$> filter (λ e, de_child_id e = "cf-dep-006-c" ∧ de_parent_id e = parent) edges).

Definition is_primary_flag_preserved : caseM unit :=
  when_can "dependency_query" (
    await_ save_edge "cf-dep-006-c" "cf-dep-006-p1" true in
    await_ save_edge "cf-dep-006-c" "cf-dep-006-p2" false in
    await edges := on ad_edges in
    await_ assert (bool_decide (primary_of "cf-dep-006-p1" edges = Some true)) in
    assert (bool_decide (primary_of "cf-dep-006-p2" edges = Some false))).

(** *** Views *)

Definition node_ids (l : list TaskSnapshot) : list (string * string) := (λ s, (ts_task_id s, ts_execution_id s)) <$> l.

Definition tree_latest_vs_all_generations : caseM unit :=
  when_can "snapshot_query" (
    await latest := on (ad_tree "cv-root" true) in
    await_ assert (bool_decide (("cv-a", "e2") ∈ node_ids latest)) in
    await_ assert (bool_decide (("cv-a", "e1") ∉ node_ids latest)) in
    await_ assert (bool_decide (("cv-root", "e1") ∈ node_ids latest)) in
    await full := on (ad_tree "cv-root" false) in
    await_ assert (bool_decide (("cv-a", "e1") ∈ node_ids full)) in
    assert (bool_decide (("cv-a", "e2") ∈ node_ids full))).

Definition expired_invisible_to_readers : caseM unit :=
  when_can "snapshot_query" (
    await got := on (ad_get "cv-expired" "execute") in
    await_ assert (bool_decide (got = None)) in
    await rows := on (ad_query None None None) in
    assert (bool_decide ("cv-expired" ∉ ts_task_id <$> rows))).

Definition graph_closure_and_neighbors : caseM unit :=
  when_can "dependency_query" (
    await graph := on (ad_graph "cv-root") in
    await_ assert (has_all ["cv-root"; "cv-a"; "cv-b"; "cv-a1"] (dg_task_ids graph)) in
    await children := on (ad_children "cv-root") in
    await_ assert (has_all ["cv-a"; "cv-b"] children) in
    await parents := on (ad_parents "cv-a") in
    assert (bool_decide ("cv-root" ∈ parents))).

(** [out.get(word, {}).get("count", 0)] *)
Definition count_of_bucket (out : list (string * agg_bucket)) (word : string) : Z := match dget out word with Some b => b_count b | None => 0 end.

Definition status_filter_and_aggregate : caseM unit :=
  when_can "snapshot_query" (
    await rows := on (ad_query (Some "running") None None) in
    await_ assert (negb (bool_decide (length rows = 0%nat))) in
    await_ assert (forallb (λ s, bool_decide (ts_status s = "running")) rows) in
    await_ assert (bool_decide ("cv-expired" ∉ ts_task_id <$> rows)) in
    await out := on (ad_aggregate "status" None) in
    await_ assert (count_of_bucket out "done" =? 2) in
    await_ assert (count_of_bucket out "failed" =? 1) in
    assert (count_of_bucket out "running" =? 1)).

(** ** The runner *)

Record _Case := { case_id : string; half_domain : string; fn : caseM unit }.
Definition of_domain (d : string) (l : list (string * caseM unit)) : list _Case := (λ c, {| case_id := c.1; half_domain := d; fn := c.2 |}) <$> l.

Definition VIEW_DOMAIN : string := "view".

(** The lists [CASES], in the order in which the decorator fills them *)
Definition cases_content : list _Case := of_domain "content_sink"
  [("CF-CTT-001", pointer_round_trip); ("CF-CTT-003", content_immutable_under_pointer); ("CF-CTT-004", metadata_round_trip); ("CF-CTT-005", missing_pointer_semantics)].
Definition cases_audit : list _Case := of_domain "audit_sink"
  [("CF-AUD-001", duplicate_append_deduplicated); ("CF-AUD-002", same_key_different_payload_conflicts); ("CF-AUD-005", audit_sort_field_outside_whitelist_rejected);
   ("CF-AUD-003", page_boundaries); ("CF-AUD-004", time_range_interval_semantics)].
Definition cases_result : list _Case := of_domain "result_sink"
  [("CF-RST-002", expired_read_returns_none); ("CF-RST-003", concurrent_save_single_record)].
Definition cases_snapshot : list _Case := of_domain "snapshot_sink"
  [("CF-SNP-002", same_generation_resave_idempotent); ("CF-SNP-003", mutation_after_terminal_rejected); ("CF-SNP-005", new_generation_always_permitted);
   ("CF-SNP-006", concurrent_same_key_single_winner); ("CF-SNP-004", expired_snapshots_invisible); ("CF-SNP-007", query_filters_and_combined);
   ("CF-SNP-008", list_versions_ordering); ("CF-SNP-009", aggregate_empty_and_single); ("CF-SNP-010", aggregate_precision_bound);
   ("CF-SNP-011", sort_field_outside_whitelist_rejected); ("CF-SNP-012", group_by_outside_whitelist_rejected); ("CF-SNP-013", non_state_fields_merge_into_terminal_generation); ("CF-SNP-014", sparse_save_without_status_preserves_record);
   ("CF-SNP-015", sort_by_expire_at_mixed_none)].
Definition cases_dependency : list _Case := of_domain "dependency_sink"
  [("CF-DEP-001", write_read_roundtrip); ("CF-DEP-002", rewrite_same_edge_idempotent); ("CF-DEP-003", same_key_different_primary_conflicts);
   ("CF-DEP-004", read_graph_closure_cycle_safe); ("CF-DEP-005", neighbor_direction_correct); ("CF-DEP-006", is_primary_flag_preserved)].
Definition cases_view : list _Case := of_domain VIEW_DOMAIN
  [("CF-VIEW-001", tree_latest_vs_all_generations); ("CF-VIEW-002", expired_invisible_to_readers); ("CF-VIEW-003", graph_closure_and_neighbors);
   ("CF-VIEW-004", status_filter_and_aggregate); ("CF-VIEW-005", sort_field_outside_whitelist_rejected); ("CF-VIEW-006", group_by_outside_whitelist_rejected)].

Definition _all_cases : list _Case := cases_content ++ cases_audit ++ cases_result ++ cases_snapshot ++ cases_dependency ++ cases_view.

Definition SINK_DOMAINS : list string := ["content_sink"; "audit_sink"; "result_sink"; "snapshot_sink"; "dependency_sink"].
Definition PROFILE_SINKS : list (string * list string) := [("full", SINK_DOMAINS); ("producer", SINK_DOMAINS); ("consumer", [])].
Definition PROFILE_REQUIRES_PAIRING : list (string * bool) := [("full", true); ("producer", false); ("consumer", false)].
Definition PROFILES : list string := dkeys PROFILE_SINKS.

(** The fixtures; [past]: the text of the instant [_PAST] *)
Definition fixture_snapshot (tid eid status : string) (parent : option string) : row :=
  let r : row := {[ "task_id" := JStr tid; "step" := JStr "execute"; "execution_id" := JStr eid; "status" := JStr status ]} in
  match parent with Some p => <["parent_task_id" := JStr p]> r | None => r end.
Definition consumer_snapshots (past : string) : list row :=
  [fixture_snapshot "cv-root" "e1" "done" None; fixture_snapshot "cv-a" "e1" "done" (Some "cv-root"); fixture_snapshot "cv-a" "e2" "running" (Some "cv-root");
   fixture_snapshot "cv-a1" "e1" "done" (Some "cv-a"); fixture_snapshot "cv-b" "e1" "failed" (Some "cv-root");
   <["expire_at" := JStr past]> (fixture_snapshot "cv-expired" "e1" "running" (Some "cv-root"))].
Definition consumer_edges : list row :=
  (λ e : string * string * bool, {[ "child_id" := JStr e.1.1; "parent_id" := JStr e.1.2; "is_primary" := JBool e.2 ]}) <$>
    [("cv-a", "cv-root", true); ("cv-b", "cv-root", false); ("cv-a1", "cv-a", false)].

Inductive case_status := passed | failed (e : failure) | skipped.
#[global] Instance case_status_eq_dec : EqDecision case_status.
Proof. solve_decision. Defined.
Record ConformanceResult := { cr_case : string; cr_domain : string; cr_status : case_status }.
Record ConformanceReport := { results : list ConformanceResult; rp_profile : string; eligibility_error : option string }.

Definition is_passed (r : ConformanceResult) : bool := match cr_status r with passed => true | _ => false end.
Definition is_failed (r : ConformanceResult) : bool := match cr_status r with failed _ => true | _ => false end.
Definition is_skipped (r : ConformanceResult) : bool := match cr_status r with skipped => true | _ => false end.
Definition count_results (p : ConformanceResult → bool) (rep : ConformanceReport) : nat := length (filter (λ r, p r = true) (results rep)).

(** The half that is declared without the other *)
Fixpoint check_pairs (caps : CapabilitySet) (domains : list string) : res failure (option string) :=
  match domains with
  | [] => Ok None
  | d :: domains =>
      match supports caps (d +:+ "_sink"), supports caps (d +:+ "_query") with
      | Ok s, Ok q => if bool_decide (s = q) then check_pairs caps domains else Ok (Some (if s then d +:+ "_sink" else d +:+ "_query"))
      | Err e, _ | _, Err e => Err e
      end
  end.
Definition _check_pairing (caps : CapabilitySet) : res failure (option string) := check_pairs caps ["content"; "audit"; "result"; "snapshot"; "dependency"].

Definition record_ (c : _Case) (st : case_status) : ConformanceResult := {| cr_case := case_id c; cr_domain := half_domain c; cr_status := st |}.

(** One turn of the loop; [None]: the case does not belong to the profile. *)
Definition run_case (profile : string) (seeded : bool) (c : _Case) : caseM (option ConformanceResult) :=
  let attempt : caseM (option ConformanceResult) := λ b, match fn c b with
    | (Ok _, b') => (Ok (Some (record_ c passed)), b')
    | (Err e, b') => (Ok (Some (record_ c (failed e))), b')
    end in
  if bool_decide (half_domain c = VIEW_DOMAIN) then
    if negb (bool_decide (profile = "consumer")) then done_with None
    else if negb seeded then done_with (Some (record_ c skipped))
    else attempt
  else if negb (bool_decide (half_domain c ∈ default [] (dget PROFILE_SINKS profile))) then done_with None
  else
    await yes := can (half_domain c) in
    if (yes : bool) then attempt else done_with (Some (record_ c skipped)).

Fixpoint run_cases (profile : string) (seeded : bool) (cases : list _Case) : caseM (list ConformanceResult) :=
  match cases with
  | [] => done_with []
  | c :: cases =>
      await r := run_case profile seeded c in
      await rs := run_cases profile seeded cases in
      done_with (option_list r ++ rs)
  end.

(** [seed(consumer_fixtures())]; whether it was called *)
Definition seed_adapter (past : string) (profile : string) : caseM bool :=
  if bool_decide (profile = "consumer") then
    match seed_hook with
    | Some seed => await_ on (seed (consumer_snapshots past) consumer_edges) in done_with true
    | None => done_with false
    end
  else done_with false.

Definition _run_all (past : string) (profile : string) : caseM ConformanceReport :=
  await pairing := (if default false (dget PROFILE_REQUIRES_PAIRING profile) then (λ b, (_check_pairing capabilities, b)) else done_with None) in
  match pairing with
  | Some e => done_with {| results := []; rp_profile := profile; eligibility_error := Some e |}
  | None =>
      await seeded := seed_adapter past profile in
      await rs := run_cases profile seeded _all_cases in
      done_with {| results := rs; rp_profile := profile; eligibility_error := None |}
  end.

Definition run_conformance (past : string) (profile : string) : caseM ConformanceReport :=
  if bool_decide (profile ∈ PROFILES) then _run_all past profile else fails_with UnknownName.

End Kit.

(** ** What a report says *)

Section Report.

Context {S : Type} `{!Adapter S} (tick f01 f02 f05 : Z) (near_03 : Z → bool).

Notation cases := (_all_cases tick f01 f02 f05 near_03).

(** Both halves of every domain, or none *)
Definition paired (caps : CapabilitySet) : bool :=
  bool_decide (content_sink caps = content_query caps) && bool_decide (audit_sink caps = audit_query caps) &&
  bool_decide (result_sink caps = result_query caps) && bool_decide (snapshot_sink caps = snapshot_query caps) &&
  bool_decide (dependency_sink caps = dependency_query caps).

(** The half-domains with cases of their own *)
Definition declared (caps : CapabilitySet) (d : string) : bool :=
  bool_decide (d = "content_sink") && content_sink caps || bool_decide (d = "audit_sink") && audit_sink caps ||
  bool_decide (d = "result_sink") && result_sink caps || bool_decide (d = "snapshot_sink") && snapshot_sink caps ||
  bool_decide (d = "dependency_sink") && dependency_sink caps.

(** The cases of a profile: the seeded ones of the consumer, all others for
    the other two *)
Definition in_profile (profile : string) (c : _Case (S := S)) : bool :=
  bool_decide (half_domain c = VIEW_DOMAIN ↔ profile = "consumer").

(** Those that are tried *)
Definition is_tried (seeded : bool) (c : _Case (S := S)) : bool :=
  if bool_decide (half_domain c = VIEW_DOMAIN) then seeded else declared capabilities (half_domain c).

(** The report of a case that is run on [b] and leaves [b'] *)
Definition case_report (seeded : bool) (c : _Case (S := S)) (b : bench (S := S)) (r : ConformanceResult) (b' : bench (S := S)) : Prop :=
  cr_case r = case_id c ∧ cr_domain r = half_domain c ∧
  if is_tried seeded c then
    match fn c b with
    | (Ok _, b1) => cr_status r = passed ∧ b' = b1
    | (Err e, b1) => cr_status r = failed e ∧ b' = b1
    end
  else cr_status r = skipped ∧ b' = b.

(** The report of some cases: each is run on the adapter as the one before left it. *)
Fixpoint reported (seeded : bool) (cs : list (_Case (S := S))) (b : bench (S := S)) (rs : list ConformanceResult) (b' : bench (S := S)) : Prop :=
  match cs, rs with
  | [], [] => b' = b
  | c :: cs, r :: rs => ∃ b1, case_report seeded c b r b1 ∧ reported seeded cs b1 rs b'
  | _, _ => False
  end.

Lemma supports_declared caps d : d ∈ SINK_DOMAINS → supports caps d = Ok (declared caps d).
Proof.
  unfold SINK_DOMAINS. rewrite !elem_of_cons, elem_of_nil. unfold supports, declared.
  intros [->|[->|[->|[->|[->|[]]]]]]; simpl; by rewrite ?orb_false_r.
Qed.

Lemma run_case_spec profile seeded c b : profile ∈ PROFILES → (half_domain c = VIEW_DOMAIN ∨ half_domain c ∈ SINK_DOMAINS) →
  ∃ r b', run_case profile seeded c b = (Ok r, b') ∧
    if in_profile profile c then ∃ x, r = Some x ∧ case_report seeded c b x b' else r = None ∧ b' = b.
Proof.
  intros Hp Hd. unfold run_case, in_profile, case_report, is_tried. case_bool_decide as Hv.
  - destruct (decide (profile = "consumer")) as [Hc|Hc]; cycle 1.
    { rewrite (bool_decide_eq_false_2 (profile = _)) by done. simpl. eexists _, _. split; [reflexivity|]. by rewrite bool_decide_eq_false_2 by tauto. }
    rewrite (bool_decide_eq_true_2 (profile = _)), bool_decide_eq_true_2 by tauto. simpl. destruct seeded; simpl; [|eexists _, _; split; [done|by eexists]].
    destruct (fn c b) as [[[]|e] b'] eqn:E; (eexists _, _; split; [reflexivity|]); (eexists; split; [reflexivity|]); by split_and!.
  - destruct Hd as [|Hd]; [done|]. destruct (decide (profile = "consumer")) as [->|Hc]; simpl.
    { eexists _, _. split; [reflexivity|]. by rewrite bool_decide_eq_false_2 by tauto. }
    assert (half_domain c ∈ default [] (dget PROFILE_SINKS profile)) as Hin.
    { unfold PROFILES in Hp. simpl in Hp. rewrite !elem_of_cons, elem_of_nil in Hp. by destruct Hp as [->|[->|[->|[]]]]. }
    rewrite (bool_decide_eq_true_2 _ Hin), bool_decide_eq_true_2 by tauto. simpl. unfold then_, can. rewrite supports_declared by done.
    destruct (declared _ _); [|eexists _, _; split; [done|by eexists]].
    destruct (fn c b) as [[[]|e] b'] eqn:E; (eexists _, _; split; [reflexivity|]); (eexists; split; [reflexivity|]); by split_and!.
Qed.

Lemma run_cases_spec profile seeded cs b : profile ∈ PROFILES → Forall (λ c, half_domain c = VIEW_DOMAIN ∨ half_domain c ∈ SINK_DOMAINS) cs →
  ∃ rs b', run_cases profile seeded cs b = (Ok rs, b') ∧ reported seeded (filter (λ c, in_profile profile c = true) cs) b rs b'.
Proof.
  intros Hp Hcs. revert b. induction Hcs as [|c cs Hc _ IH]; intros b; [by eexists _, _|]. cbn [run_cases]. unfold then_ at 1.
  destruct (run_case_spec profile seeded c b Hp Hc) as (r & b1 & E & Hr). rewrite E. unfold then_. destruct (IH b1) as (rs & b2 & E2 & Hrs). rewrite E2.
  eexists _, _. split; [reflexivity|]. rewrite filter_cons. destruct (in_profile profile c).
  - destruct Hr as (x & -> & Hx). rewrite decide_True by done. by exists b1.
  - destruct Hr as [-> ->]. by rewrite decide_False.
Qed.

Lemma cases_domains : Forall (λ c, half_domain c = VIEW_DOMAIN ∨ half_domain c ∈ SINK_DOMAINS) cases.
Proof.
  unfold _all_cases, cases_content, cases_audit, cases_result, cases_snapshot, cases_dependency, cases_view, of_domain.
  rewrite !Forall_app, !Forall_fmap. split_and!; apply Forall_true; intros x; simpl; unfold SINK_DOMAINS; rewrite ?elem_of_cons; tauto.
Qed.

Lemma check_pairs_total caps ds : Forall (λ d, ∃ s q, supports caps (d +:+ "_sink") = Ok s ∧ supports caps (d +:+ "_query") = Ok q) ds →
  ∃ o, check_pairs caps ds = Ok o ∧
    (o = None ↔ Forall (λ d, supports caps (d +:+ "_sink") = supports caps (d +:+ "_query")) ds).
Proof.
  induction 1 as [|d ds (s & q & Es & Eq) _ IH]; [by exists None|]. cbn [check_pairs]. rewrite Es, Eq. case_bool_decide as E.
  - subst q. destruct IH as (o & -> & Ho). exists o. split; [done|]. rewrite Forall_cons, Ho, Es, Eq. tauto.
  - eexists. split; [done|]. rewrite Forall_cons. split; [done|]. intros [H _]. congruence.
Qed.

Lemma pairing_total caps : ∃ o, _check_pairing caps = Ok o ∧
  (o = None ↔ Forall (λ d, supports caps (d +:+ "_sink") = supports caps (d +:+ "_query")) ["content"; "audit"; "result"; "snapshot"; "dependency"]).
Proof. apply check_pairs_total. repeat constructor; by eexists _, _. Qed.

Lemma pairing_paired caps : Forall (λ d, supports caps (d +:+ "_sink") = supports caps (d +:+ "_query")) ["content"; "audit"; "result"; "snapshot"; "dependency"] ↔ paired caps = true.
Proof.
  rewrite !Forall_cons, Forall_nil. unfold paired. rewrite !andb_true_iff, !bool_decide_eq_true. unfold supports. simpl.
  split; [intros (E1 & E2 & E3 & E4 & E5 & _); by simplify_eq|intros ((((-> & ->) & ->) & ->) & ->); done].
Qed.

(** Whether the adapter is seeded *)
Lemma seed_adapter_seeded past profile b seeded b' : seed_adapter tick past profile b = (Ok seeded, b') →
  seeded = bool_decide (profile = "consumer") && bool_decide (is_Some seed_hook) ∧ (seeded = false → b' = b).
Proof.
  unfold seed_adapter. case_bool_decide; [|by intros [= <- <-]]. destruct seed_hook as [f|]; [|by intros [= <- <-]].
  unfold then_, on. destruct (f _ _ _ _) as [[u|e] s']; [|done]. by intros [= <- <-].
Qed.

(** C25: whatever the adapter, a run under one of the three profiles gives a
    report, unless seeding the adapter fails. The full profile rejects exactly
    the adapters that declare one half of a domain without the other. Otherwise
    the report has the cases of the profile, each once and in order, every case
    run on the adapter as the one before left it and reported with the outcome
    that it had there; a case is skipped exactly when its sink is not declared or,
    for the seeded cases, when the adapter cannot be seeded. An unknown profile is
    an error. The consumer profile has the seeded cases only: that every declared
    half-domain is verified under any profile, as the runner and conformance.md
    promise, does not hold (consumer_tests_no_sink). *)
Theorem conformance_report past profile (b : bench (S := S)) :
  match run_conformance tick f01 f02 f05 near_03 past profile b with
  | (Err e, _) => profile ∉ PROFILES ∧ e = UnknownName ∨ profile = "consumer" ∧ ∃ b', seed_adapter tick past profile b = (Err e, b')
  | (Ok rep, b2) =>
      rp_profile rep = profile ∧ profile ∈ ["full"; "producer"; "consumer"] ∧
      if bool_decide (profile = "full") && negb (paired capabilities)
      then is_Some (eligibility_error rep) ∧ results rep = [] ∧ b2 = b
      else eligibility_error rep = None ∧ ∃ seeded b1, seed_adapter tick past profile b = (Ok seeded, b1) ∧
             seeded = bool_decide (profile = "consumer") && bool_decide (is_Some seed_hook) ∧ (seeded = false → b1 = b) ∧
             reported seeded (filter (λ c, in_profile profile c = true) cases) b1 (results rep) b2
  end.
Proof.
  unfold run_conformance. case_bool_decide as Hp; [|left; by split]. unfold _run_all. destruct (pairing_total capabilities) as (o & Eo & Ho).
  rewrite pairing_paired in Ho. set (pairing := if default false _ then _ else _).
  assert (pairing b = (Ok (if bool_decide (profile = "full") then o else None), b)) as Epair.
  { unfold pairing. unfold PROFILES in Hp. simpl in Hp. rewrite !elem_of_cons, elem_of_nil in Hp. destruct Hp as [->|[->|[->|[]]]]; simpl; [by rewrite Eo|done|done]. }
  unfold then_ at 1. rewrite Epair. clear Epair pairing.
  assert (o = None ∨ (∃ e, o = Some e) ∧ paired capabilities = false) as Hcases.
  { destruct o as [e|]; [right|by left]. split; [by eexists|]. apply not_true_iff_false. intros Hpd. by apply Ho in Hpd. }
  destruct (bool_decide (profile = "full") && negb (paired capabilities)) eqn:Ebad.
  { apply andb_true_iff in Ebad as [-> Hn]. destruct Hcases as [->|[[e ->] _]]; [|by split_and!].
    by rewrite (proj1 Ho eq_refl) in Hn. }
  assert ((if bool_decide (profile = "full") then o else None) = None) as ->.
  { destruct (bool_decide (profile = "full")); [|done]. destruct Hcases as [->|[_ Hn]]; [done|]. by rewrite Hn in Ebad. }
  unfold then_ at 1. destruct (seed_adapter tick past profile b) as [[seeded|e] b1] eqn:Eseed.
  - unfold then_. destruct (run_cases_spec profile seeded cases b1 Hp cases_domains) as (rs & b2 & -> & Hrs).
    destruct (seed_adapter_seeded _ _ _ _ _ Eseed) as [Hs1 Hs2]. split_and!; [done..|]. by exists seeded, b1.
  - right. unfold seed_adapter in Eseed. case_bool_decide; [|done]. split; [done|]. by exists b1.
Qed.

End Report.
