(* ===== verification/Conforms.v ===== *)
(** * The reference adapters under the conformance kit

    The parts of adapter-memory and adapter-local and the views of adapter-ui
    as instances of the interface that the cases are written against, with the
    capabilities they declare; the parts of the memory adapter are run. *)
From Stdlib Require Import ZArith Lia Ascii.
From stdpp Require Import prelude gmap strings list pretty.
From S2P Require Import Prelude Mechanism SnapshotModel Traversal MemorySnapshot MemoryParts LocalSnapshot LocalParts UiReader Conformance.
Local Open Scope string_scope.
Local Open Scope list_scope.
Local Open Scope Z_scope.

(** ** Parts of one domain *)

Definition content_adapter {S} (caps : CapabilitySet) (put : string → option string → option row → call_on S TaskPointer) (get : TaskPointer → call_on S string)
    (meta : TaskPointer → call_on S row) (ex : TaskPointer → call_on S bool) : Adapter S :=
  {| capabilities := caps; seed_hook := None; ad_put := put; ad_content := get; ad_metadata := meta; ad_exists := ex;
     ad_append _ := absent; ad_events _ _ _ _ := absent; ad_save_result _ _ _ := absent; ad_result _ := absent; ad_save _ := absent; ad_save_terminal _ := absent;
     ad_get _ _ := absent; ad_versions _ _ _ := absent; ad_query _ _ _ := absent; ad_aggregate _ _ := absent; ad_tree _ _ := absent;
     ad_write_edge _ := absent; ad_edges := absent; ad_graph _ := absent; ad_children _ := absent; ad_parents _ := absent |}.

Definition audit_adapter {S} (caps : CapabilitySet) (append : AuditEvent → call_on S unit)
    (events : option string → option TimeRange → option Page → option Sort → call_on S (list AuditEvent)) : Adapter S :=
  {| capabilities := caps; seed_hook := None; ad_put _ _ _ := absent; ad_content _ := absent; ad_metadata _ := absent; ad_exists _ := absent;
     ad_append := append; ad_events := events; ad_save_result _ _ _ := absent; ad_result _ := absent; ad_save _ := absent; ad_save_terminal _ := absent;
     ad_get _ _ := absent; ad_versions _ _ _ := absent; ad_query _ _ _ := absent; ad_aggregate _ _ := absent; ad_tree _ _ := absent;
     ad_write_edge _ := absent; ad_edges := absent; ad_graph _ := absent; ad_children _ := absent; ad_parents _ := absent |}.

Definition result_adapter {S} (caps : CapabilitySet) (save : string → row → Z → call_on S unit) (get : string → call_on S (option row)) : Adapter S :=
  {| capabilities := caps; seed_hook := None; ad_put _ _ _ := absent; ad_content _ := absent; ad_metadata _ := absent; ad_exists _ := absent;
     ad_append _ := absent; ad_events _ _ _ _ := absent; ad_save_result := save; ad_result := get; ad_save _ := absent; ad_save_terminal _ := absent;
     ad_get _ _ := absent; ad_versions _ _ _ := absent; ad_query _ _ _ := absent; ad_aggregate _ _ := absent; ad_tree _ _ := absent;
     ad_write_edge _ := absent; ad_edges := absent; ad_graph _ := absent; ad_children _ := absent; ad_parents _ := absent |}.

Definition snapshot_adapter {S} (caps : CapabilitySet) (seed : option (list row → list row → call_on S unit)) (save save_terminal : TaskSnapshot → call_on S unit)
    (get : string → string → call_on S (option TaskSnapshot)) (versions : string → string → option Sort → call_on S (list TaskSnapshot))
    (query : option string → option string → option Sort → call_on S (list TaskSnapshot)) (aggregate : string → option string → call_on S (list (string * agg_bucket)))
    (tree : string → bool → call_on S (list TaskSnapshot)) : Adapter S :=
  {| capabilities := caps; seed_hook := seed; ad_put _ _ _ := absent; ad_content _ := absent; ad_metadata _ := absent; ad_exists _ := absent;
     ad_append _ := absent; ad_events _ _ _ _ := absent; ad_save_result _ _ _ := absent; ad_result _ := absent; ad_save := save; ad_save_terminal := save_terminal;
     ad_get := get; ad_versions := versions; ad_query := query; ad_aggregate := aggregate; ad_tree := tree;
     ad_write_edge _ := absent; ad_edges := absent; ad_graph _ := absent; ad_children _ := absent; ad_parents _ := absent |}.

Definition dependency_adapter {S} (caps : CapabilitySet) (seed : option (list row → list row → call_on S unit)) (write : DependencyEdge → call_on S unit)
    (edges : call_on S (list DependencyEdge)) (graph : string → call_on S DependencyGraph) (children parents : string → call_on S (list string)) : Adapter S :=
  {| capabilities := caps; seed_hook := seed; ad_put _ _ _ := absent; ad_content _ := absent; ad_metadata _ := absent; ad_exists _ := absent;
     ad_append _ := absent; ad_events _ _ _ _ := absent; ad_save_result _ _ _ := absent; ad_result _ := absent; ad_save _ := absent; ad_save_terminal _ := absent;
     ad_get _ _ := absent; ad_versions _ _ _ := absent; ad_query _ _ _ := absent; ad_aggregate _ _ := absent; ad_tree _ _ := absent;
     ad_write_edge := write; ad_edges := edges; ad_graph := graph; ad_children := children; ad_parents := parents |}.

(** The declarations *)
Definition declares (domain : string) (sink query : bool) : CapabilitySet :=
  let has d (x : bool) := bool_decide (d = domain) && x in
  {| content_sink := has "content" sink; content_query := has "content" query; audit_sink := has "audit" sink; audit_query := has "audit" query;
     result_sink := has "result" sink; result_query := has "result" query; snapshot_sink := has "snapshot" sink; snapshot_query := has "snapshot" query;
     dependency_sink := has "dependency" sink; dependency_query := has "dependency" query; protocol_compat := ">=0.1,<0.2"; concurrency_domain := process |}.

Definition contract : ContractError → failure := ContractFailure.
Definition write_failure (e : write_error) : failure := match e with Contract e => ContractFailure e | PydanticValidationError => Broken end.
Definition view_failure (e : view_error) : failure := match e with ViewError e => write_failure e | BadExpiry => Broken end.
Definition dep_failure (e : LocalDependency.dep_error) : failure := match e with LocalDependency.DepContract e => ContractFailure e | LocalDependency.DepValidationError => Broken end.
Definition always {E S} (f : Z → S → S) : Z → S → res E S := λ now s, Ok (f now s).

Section Parts.

Context (fadd : Z → Z → Z) (fzero : Z) (iter_set : gset string → list string) (hexdigest : string → string) `{IsoTime}.

(** *** adapter-memory *)

Definition memory_content : Adapter Content.MemoryContentPart :=
  content_adapter (declares "content" true true)
    (λ c ty m _ s, let '(s', p) := Content.content_put s c ty m in (Ok p, s'))
    (λ p, answer_res contract (λ _ s, Content.content_get s p)) (λ p, answer_res contract (λ _ s, Content.content_get_metadata s p)) (λ p, answer (λ _ s, Content.content_exists s p)).

Definition memory_audit : Adapter Audit.MemoryAuditPart :=
  audit_adapter (declares "audit" true true) (λ e, change contract (λ _ s, Audit.audit_append s e))
    (λ tid tr page sort, answer_res contract (λ _ s, Audit.audit_query s tid None None tr page sort)).

Definition memory_result : Adapter Result.MemoryResultPart :=
  result_adapter (declares "result" true true) (λ id m t, change contract (always (λ _ s, Result.result_save s id m t))) (λ id, answer (λ now s, Result.result_get now s id)).

Definition memory_snapshot : Adapter MemorySnapshotPart :=
  snapshot_adapter (declares "snapshot" true true) None (λ x, change write_failure (λ now s, mem_save now s x)) (λ x, change write_failure (λ _ s, mem_save_terminal s x))
    (λ tid step, answer (λ now s, mem_get now s tid step None)) (λ tid step sort, answer_res contract (λ now s, mem_list_versions now s tid step None sort))
    (λ status parent sort, answer_res contract (λ now s, mem_query now s status parent None None sort))
    (λ by_ parent, answer_res contract (λ now s, mem_aggregate fadd fzero now s by_ parent None)) (λ root latest, answer (λ now s, mem_get_tree now s root None latest)).

Definition memory_dependency : Adapter Dependency.MemoryDependencyPart :=
  dependency_adapter (declares "dependency" true true) None (λ e, change contract (λ _ s, Dependency.write_dependency s e)) (answer (λ _ s, Dependency.all_edges s))
    (λ root, answer_or (λ _ s, Dependency.read_graph iter_set s root)) (λ p, answer (λ _ s, Dependency.children_of s p)) (λ c, answer (λ _ s, Dependency.parents_of s c)).

(** *** adapter-local *)

Definition local_content : Adapter LocalContent.LocalContentPart :=
  content_adapter (declares "content" true true)
    (λ c ty m _ s, let '(s', p) := LocalContent.local_put hexdigest s c ty m in (Ok p, s'))
    (λ p, answer_res contract (λ _ s, LocalContent.local_content_get s p)) (λ p, answer_res contract (λ _ s, LocalContent.local_get_metadata s p))
    (λ p, answer (λ _ s, LocalContent.local_exists s p)).

Definition local_audit : Adapter LocalAudit.LocalAuditPart :=
  audit_adapter (declares "audit" true true) (λ e, change contract (λ _ s, LocalAudit.local_append s e))
    (λ tid tr page sort, answer_res write_failure (λ now s, LocalAudit.local_audit_query now s tid None None tr page sort)).

Definition local_result : Adapter (gmap string (string * row)) :=
  result_adapter (declares "result" true true) (λ id m t, change (λ _, Broken) (λ _ s, LocalResult.local_result_save s id m t))
    (λ id, answer_res (λ _, Broken) (λ now s, LocalResult.local_result_get now s id)).

Definition local_snapshot : Adapter LocalSnapshotPart :=
  snapshot_adapter (declares "snapshot" true true) None (λ x, change write_failure (λ _ s, local_save s x)) (λ x, change write_failure (λ _ s, local_save_terminal s x))
    (λ tid step, answer_res write_failure (λ now s, local_get now s tid step None)) (λ tid step sort, answer_res write_failure (λ now s, local_list_versions now s tid step None sort))
    (λ status parent sort, answer_res write_failure (λ now s, local_query now s status parent None None sort))
    (λ by_ parent, answer_res write_failure (λ now s, local_aggregate fadd fzero now s by_ parent None)) (λ root latest, answer_res write_failure (λ now s, local_get_tree now s root None latest)).

Definition local_dependency : Adapter LocalDependency.LocalDependencyPart :=
  dependency_adapter (declares "dependency" true true) None (λ e, change dep_failure (λ now s, LocalDependency.local_write_dependency now s e))
    (answer_or (λ now s, LocalDependency.dep_all now s)) (λ root, answer_or (λ now s, LocalDependency.local_read_graph iter_set now s root))
    (λ p, answer_or (λ now s, LocalDependency.local_children_of now s p)) (λ c, answer_or (λ now s, LocalDependency.local_parents_of now s c)).

(** *** adapter-ui *)

Definition snapshot_view : Adapter (list row) :=
  snapshot_adapter (declares "snapshot" false true)
    (Some (λ snapshots _ _ s, match seed_snapshots iso snapshots s with Some s' => (Ok tt, s') | None => (Err Broken, s) end)) (λ _, absent) (λ _, absent)
    (λ tid step, answer_res view_failure (λ now s, view_get now s tid step None)) (λ _ _ _, absent)
    (λ status parent sort, answer_res view_failure (λ now s, view_query now s status parent None None sort))
    (λ by_ parent, answer_res view_failure (λ now s, view_aggregate fadd fzero now s by_ parent)) (λ root latest, answer_res view_failure (λ now s, view_get_tree now s root None latest)).

Definition dependency_view : Adapter (list row) :=
  dependency_adapter (declares "dependency" false true)
    (Some (λ _ edges _ s, match seed_edges iso edges s with Some s' => (Ok tt, s') | None => (Err Broken, s) end)) (λ _, absent)
    (answer_or (λ now s, view_edges now s)) (λ root, answer_or (λ now s, view_read_graph iter_set now s root))
    (λ p, answer_or (λ now s, view_children_of now s p)) (λ c, answer_or (λ now s, view_parents_of now s c)).

End Parts.

(** ** Reports of the memory adapter

    The parts of the memory adapter hold instants as they are, so their reports
    can be computed without a text of instants.  The run starts at noon of some
    day; the floats of the cases are counted in units of 1e-10. *)
Definition NOON : Z := 1700000000000000.

Definition report_of {S} (A : Adapter S) (tick : Z) (profile : string) (s : S) : option (list (string * case_status)) :=
  match (run_conformance tick 1000000000 2000000000 5000000000 (λ total, bool_decide (Z.abs (total - 3000000000) <= 3)) "2023-11-14T22:13:19+00:00" profile {| clock := NOON; under_test := s |}).1 with
  | Ok rep => if bool_decide (eligibility_error rep = None) then Some ((λ r, (cr_case r, cr_status r)) <$> filter (λ r, is_skipped r = false) (results rep)) else None
  | Err _ => None
  end.

(** One run each: the cases that were tried, and those of them that failed *)
Definition tried_and_failed (r : option (list (string * case_status))) : option (nat * list string) :=
  (λ l, (length l, (filter (λ x, x.2 ≠ passed) l).*1)) <$> r.

Example memory_conforms :
  tried_and_failed (report_of memory_content 1 "full" Content.content_init) = Some (4%nat, []) ∧
  tried_and_failed (report_of memory_audit 1 "full" []) = Some (5%nat, []) ∧
  tried_and_failed (report_of memory_result 1 "full" []) = Some (2%nat, []) ∧
  tried_and_failed (report_of (memory_snapshot Z.add 0) 1 "full" mem_init) = Some (14%nat, []) ∧
  tried_and_failed (report_of (memory_dependency elements) 1 "full" []) = Some (6%nat, []).
Proof. split_and!; by vm_compute. Qed.

(** On a clock so coarse that two snapshots get one instant, CF-SNP-008 rejects
    the memory adapter: a stable sort leaves equal instants in their order. *)
Example coarse_clock : tried_and_failed (report_of (memory_snapshot Z.add 0) 0 "full" mem_init) = Some (14%nat, ["CF-SNP-008"]).
Proof. by vm_compute. Qed.

(** A part that is written to is not tested by the consumer profile, although
    the runner promises to verify whatever is declared. *)
Example consumer_tests_no_sink : report_of (memory_snapshot Z.add 0) 1 "consumer" mem_init = Some [].
Proof. by vm_compute. Qed.
