(* ===== verification/ResultStores.v ===== *)
(** * Where the manifests of the streams are kept

    stream/protocols/store.py and its three implementations: store/memory.py,
    store/adapter.py over the result domain of a protocol adapter, and
    TaskflowResultStore of adapters/taskflow.py over the task store of the core
    package; with TaskflowEnricher of the same file. *)
From Stdlib Require Import ZArith Lia.
From stdpp Require Import prelude gmap list strings.
From S2P Require Import Prelude Mechanism MemorySnapshot MemoryParts Redis TaskDb Effects TaskStorage.
Local Open Scope list_scope.
Local Open Scope Z_scope.

(** ** ResultStoreProtocol *)

(** A method is a function of the clock and of the state; [ttl] is in seconds,
    and a second of the store's clock has [per_second] units. *)
Class ResultStore (S : Type) := {
  per_second : Z;
  store_save : Z → string → row → Z → S → res exn unit * S;
  store_get : Z → string → S → res exn (option json) * S
}.

(** What a get at an instant answers *)
Definition seen {S} `{ResultStore S} (t : Z) (id : string) (s : S) : res exn (option json) := (store_get t id s).1.

(** The promise of the protocol: what is saved is read back until its time is over, and no save
    or get disturbs another stream. *)
Class Keeps (S : Type) `{ResultStore S} := {
  sound : Z → S → Prop;
  nameable : string → Prop;
  fits : Z → Z → Prop;
  reads : row → json;
  sound_later : ∀ t t' s, t ≤ t' → sound t s → sound t' s;
  save_keeps : ∀ t id m ttl s, sound t s → nameable id → 0 < ttl → fits t ttl → ∃ s', store_save t id m ttl s = (Ok tt, s') ∧ sound t s' ∧
    (∀ t', t ≤ t' → t' < t + ttl * per_second → seen t' id s' = Ok (Some (reads m))) ∧
    (∀ t', t + ttl * per_second < t' → seen t' id s' = Ok None) ∧
    (∀ j t', nameable j → j ≠ id → t ≤ t' → seen t' j s' = seen t' j s);
  get_keeps : ∀ t id s, sound t s → nameable id → sound t (store_get t id s).2 ∧
    (∀ j t', nameable j → t ≤ t' → seen t' j (store_get t id s).2 = seen t' j s)
}.

(** *** A client: any sequence of saves and gets *)

Section Client.

Context {S : Type} `{Keeps S}.

Inductive store_event := ESave (t : Z) (id : string) (m : row) (ttl : Z) | EGet (t : Z) (id : string).
Definition time_of (e : store_event) : Z := match e with ESave t _ _ _ | EGet t _ => t end.
Definition event_ok (e : store_event) : Prop := match e with ESave t id _ ttl => nameable id ∧ 0 < ttl ∧ fits t ttl | EGet _ id => nameable id end.

Definition do_event (s : S) (e : store_event) : S := match e with ESave t id m ttl => (store_save t id m ttl s).2 | EGet t id => (store_get t id s).2 end.

(** Events in the order of their times, from [t] on *)
Fixpoint timely (t : Z) (es : list store_event) : Prop := match es with [] => True | e :: es => t ≤ time_of e ∧ event_ok e ∧ timely (time_of e) es end.

Fixpoint end_time (t : Z) (es : list store_event) : Z := match es with [] => t | e :: es => end_time (time_of e) es end.

(** The last save of a stream *)
Fixpoint last_save (id : string) (es : list store_event) (acc : option (Z * row * Z)) : option (Z * row * Z) :=
  match es with
  | [] => acc
  | ESave t j m ttl :: es => last_save id es (if decide (j = id) then Some (t, m, ttl) else acc)
  | EGet _ _ :: es => last_save id es acc
  end.

(** What is expected of a get at [t] *)
Definition expected (id : string) (t : Z) (old : res exn (option json)) (last : option (Z * row * Z)) (x : res exn (option json)) : Prop :=
  match last with
  | None => x = old
  | Some (t0, m, ttl) => (t < t0 + ttl * per_second → x = Ok (Some (reads m))) ∧ (t0 + ttl * per_second < t → x = Ok None)
  end.

Lemma timely_end t es : timely t es → t ≤ end_time t es.
Proof. revert t. induction es as [|e es IH]; intros t; simpl; [lia|]. intros (H1 & _ & H2). specialize (IH _ H2). lia. Qed.

Lemma play_events id es : nameable id → ∀ t s (old : Z → res exn (option json)) acc, sound t s → timely t es →
  (∀ t', t ≤ t' → expected id t' (old t') acc (seen t' id s)) →
  sound (end_time t es) (foldl do_event s es) ∧
  ∀ t', end_time t es ≤ t' → expected id t' (old t') (last_save id es acc) (seen t' id (foldl do_event s es)).
Proof.
  intros Hid. induction es as [|e es IH]; intros t s old acc Hs Ht Hacc; [by split|]. simpl in Ht. destruct Ht as (Hle & He & Hes).
  pose proof (sound_later _ _ _ Hle Hs) as Hs1. cbn [foldl end_time]. destruct e as [t1 j m ttl|t1 j]; cbn [time_of event_ok last_save do_event] in *.
  - destruct He as (Hj & Hpos & Hfit). destruct (save_keeps t1 j m ttl s Hs1 Hj Hpos Hfit) as (s' & E & Hs' & Hin & Hout & Hother). rewrite E. cbn [snd].
    apply IH; [done|done|]. intros t' Ht'. destruct (decide (j = id)) as [->|Hne]; [by split; [apply Hin|apply Hout]|].
    rewrite Hother by done. apply Hacc. lia.
  - destruct (get_keeps t1 j s Hs1 He) as [Hs' Hother]. apply IH; [done|done|]. intros t' Ht'. rewrite Hother by done. apply Hacc. lia.
Qed.

End Client.

(** After any sequence of saves and gets a get answers what the promise of the
    protocol says. *)
Lemma promise_kept {S : Type} `{Keeps S} (t0 t : Z) (s : S) (es : list store_event) (id : string) :
  sound t0 s → timely t0 es → nameable id → end_time t0 es ≤ t →
  expected id t (seen t id s) (last_save id es None) (seen t id (foldl do_event s es)).
Proof. intros Hs Hes Hid Ht. by apply (play_events id es Hid t0 s (λ t, seen t id s) None Hs Hes). Qed.

(** Events in the order of their times, from [t] on *)
Fixpoint in_order (t : Z) (es : list store_event) : Prop := match es with [] => True | e :: es => t ≤ time_of e ∧ in_order (time_of e) es end.

Definition all_events (P : store_event → Prop) (es : list store_event) : Prop := ∀ e, e ∈ es → P e.
Definition has_ttl (e : store_event) : Prop := match e with ESave _ _ _ ttl => 0 < ttl | EGet _ _ => True end.

Lemma timely_intro {S : Type} `{Keeps S} t es : in_order t es → all_events event_ok es → timely t es.
Proof.
  revert t. induction es as [|e es IH]; intros t Ho Ha; [done|]. destruct Ho as [H1 H2]. split_and!; [done|apply Ha; left|].
  apply IH; [done|]. intros x Hx. apply Ha. by right.
Qed.

Lemma foldl_events {S : Type} `{ResultStore S} (step : S → store_event → S) s es :
  (∀ s e, do_event s e = step s e) → foldl do_event s es = foldl step s es.
Proof. intros Hs. revert s. induction es as [|e es IH]; intros s; [done|]. cbn [foldl]. by rewrite Hs. Qed.

(** ** MemoryResultStore *)

Definition MICRO : Z := 1000000.

(** [_data]; no expiry is [float("inf")] *)
Definition MemoryResultStore : Type := list (string * (row * option Z)).

Definition memory_store_save (now : Z) (stream_id : string) (manifest : row) (ttl : Z) (s : MemoryResultStore) : MemoryResultStore :=
  dset s stream_id (manifest, if 0 <? ttl then Some (now + ttl * MICRO) else None).

Definition memory_store_get (now : Z) (stream_id : string) (s : MemoryResultStore) : option row * MemoryResultStore :=
  match dget s stream_id with
  | None => (None, s)
  | Some (manifest, expire_at) => if match expire_at with Some t => t <? now | None => false end then (None, ddel s stream_id) else (Some manifest, s)
  end.

#[export] Instance memory_store : ResultStore MemoryResultStore := {
  per_second := MICRO;
  store_save t id m ttl s := (Ok tt, memory_store_save t id m ttl s);
  store_get t id s := let '(r, s) := memory_store_get t id s in (Ok (JObj <$> r), s)
}.

Lemma memory_seen t id (s : MemoryResultStore) : seen t id s = Ok (match dget s id with
  | Some (m, Some x) => if x <? t then None else Some (JObj m)
  | Some (m, None) => Some (JObj m)
  | None => None end).
Proof. unfold seen, store_get. simpl. unfold memory_store_get. destruct (dget s id) as [[m [x|]]|]; [|done|done]. by destruct (x <? t). Qed.

#[export] Instance memory_store_keeps : Keeps MemoryResultStore.
Proof.
  refine {| sound _ _ := True; nameable _ := True; fits _ _ := True; reads := JObj |}; [done| |].
  - intros t id m ttl s _ _ Hpos _. eexists. split; [reflexivity|]. split; [done|]. unfold memory_store_save. simpl. rewrite (proj2 (Z.ltb_lt 0 ttl)) by done. split_and!.
    + intros t' Ht Hlt. rewrite memory_seen, dget_dset_eq. by destruct (Z.ltb_spec (t + ttl * MICRO) t'); [lia|].
    + intros t' Hlt. rewrite memory_seen, dget_dset_eq. by rewrite (proj2 (Z.ltb_lt _ _)).
    + intros j t' _ Hj _. by rewrite !memory_seen, dget_dset_ne.
  - intros t id s _ _. split; [done|]. intros j t' _ Ht. rewrite !memory_seen. simpl. unfold memory_store_get. destruct (dget s id) as [[m [x|]]|] eqn:E; [|done|done].
    destruct (Z.ltb_spec x t); [|done]. simpl. rewrite dget_ddel. destruct (decide (id = j)) as [<-|]; [|done]. rewrite E. by rewrite (proj2 (Z.ltb_lt _ _)) by lia.
Defined.

(** ** ProtocolResultStore, over the result part of the memory adapter *)

Definition protocol_store_save (now : Z) (stream_id : string) (manifest : row) (ttl : Z) (s : Result.MemoryResultPart) : res exn unit * Result.MemoryResultPart :=
  let expire_at := if 0 <? ttl then now + ttl * MICRO else datetime_max in
  if datetime_max <? expire_at then (Err (Other "OverflowError"), s) else (Ok tt, Result.result_save s stream_id manifest expire_at).

#[export] Instance protocol_store : ResultStore Result.MemoryResultPart := {
  per_second := MICRO;
  store_save := protocol_store_save;
  store_get t id s := (Ok (JObj <$> Result.result_get t s id), s)
}.

#[export] Instance protocol_store_keeps : Keeps Result.MemoryResultPart.
Proof.
  refine {| sound _ _ := True; nameable _ := True; fits t ttl := t + ttl * MICRO ≤ datetime_max; reads := JObj |}; [done| |done].
  intros t id m ttl s _ _ Hpos Hfit. unfold store_save, protocol_store. unfold protocol_store_save. rewrite (proj2 (Z.ltb_lt 0 ttl)) by done.
  destruct (Z.ltb_spec datetime_max (t + ttl * MICRO)); [lia|]. eexists. split; [reflexivity|]. split; [done|].
  unfold seen, store_get. simpl. unfold Result.result_get, Result.result_save. rewrite dget_dset_eq. split_and!.
  - intros t' Ht Hlt. by destruct (Z.gtb_spec t' (t + ttl * MICRO)); [lia|].
  - intros t' Hlt. by destruct (Z.gtb_spec t' (t + ttl * MICRO)); [|lia].
  - intros j t' _ Hj _. by rewrite dget_dset_ne.
Defined.

(** ** TaskflowResultStore, over the task store of the core package *)

Section Taskflow.

Context `{Redis} `{Cjson} (d : TaskRedisDB).
(** The timestamp of a record and the identity of its generation *)
Context (now_str : Z → string) (fresh : Z → string → string).

Definition MANIFEST : string := "manifest".

Definition taskflow_save (t : Z) (stream_id : string) (manifest : row) (ttl : Z) (db : DB) : res exn unit * DB :=
  let '(db, created) := initialize_task d t (now_str t) (fresh t stream_id) stream_id (Some ttl) MANIFEST true None db in
  match created with
  | None => (Err (Other "ResponseError"), db)
  | Some _ =>
      let '(db, r) := update_task d t t t (λ db, db) stream_id {[ MANIFEST := JObj manifest ]} (Some ttl) true db in
      (match r with Ok _ => Ok tt | Err e => Err (Core e) end, db)
  end.

Definition taskflow_get (t : Z) (stream_id : string) (db : DB) : option json := get_task d t stream_id db !! MANIFEST.

Definition taskflow_store : ResultStore DB :=
  {| per_second := 1000; store_save := taskflow_save; store_get t id db := (Ok (taskflow_get t id db), db) |}.

Context (Hkeys : keys_apart d).

(** Only plain ids are used, and a task key holds a record. *)
Record taskflow_sound (t : Z) (db : DB) : Prop := {
  tf_ok : store_ok d t db;
  tf_plain : ∀ j r, record_at d t j db = Some r → plain_id j;
  tf_record : ∀ j, plain_id j → exists_key t (_task_key d j) db = true → is_Some (record_at d t j db)
}.

Lemma taskflow_seen t id db : @seen _ taskflow_store t id db = Ok (record_at d t id db ≫= λ r, r.1 !! MANIFEST).
Proof.
  unfold seen. simpl. unfold taskflow_get, get_task, record_at, get. destruct (at_ t (_task_key d id) db) as [[[[| r|]| | |] x]|]; done.
Qed.

Lemma record_same t t' j db db' : t ≤ t' → at_ t (_task_key d j) db' = at_ t (_task_key d j) db → record_at d t' j db' = record_at d t' j db.
Proof. intros Ht E. unfold record_at. by rewrite !(at_later t t'), E by done. Qed.

Lemma taskflow_later t t' db : t ≤ t' → taskflow_sound t db → taskflow_sound t' db.
Proof.
  intros Ht [Hok Hpl Hr]. split; [by eapply store_ok_later| |].
  - intros j [r x] E. apply (record_later d t t') in E as [E _]; [|done]. by eapply Hpl.
  - intros j Hj He. specialize (Hr j Hj). unfold exists_key, record_at in *. rewrite (at_later t t') in He |- * by done.
    destruct (at_ t (_task_key d j) db) as [e|]; [|done]. destruct (Hr eq_refl) as [y Hy]. destruct e as [[[| r|]| | |] [x|]]; simpl in *; try done; destruct (decide (t' < x)); try done; by eexists.
Qed.

Lemma initialize_keeps t id ttl db : taskflow_sound t db → plain_id id → 0 < ttl →
  ∃ db' c, initialize_task d t (now_str t) (fresh t id) id (Some ttl) MANIFEST true None db = (db', Some c) ∧ taskflow_sound t db' ∧
    is_Some (record_at d t id db') ∧ ∀ j, j ≠ id → at_ t (_task_key d j) db' = at_ t (_task_key d j) db.
Proof.
  intros [Hok Hpl Hr] Hid Hpos. destruct (exists_key t (_task_key d id) db) eqn:Ex.
  - exists db, false. split; [|split; [done|split; [by apply Hr|done]]]. unfold initialize_task, task_init. by rewrite Ex.
  - pose proof (initialize_record d Hkeys t (now_str t) (fresh t id) id (Some ttl) MANIFEST true None db Hok Ex Hpos) as Hi.
    destruct (initialize_task _ _ _ _ _ _ _ _ _ _) as [db' r] eqn:Ei. destruct Hi as (-> & Hok' & rec & Hrec & _).
    assert (∀ j, j ≠ id → at_ t (_task_key d j) db' = at_ t (_task_key d j) db) as Hother.
    { intros j Hj. unfold initialize_task, task_init in Ei. rewrite Ex in Ei. simpl in Ei. destruct (Z.leb_spec ttl 0); [lia|]. injection Ei as <-.
      rewrite bump_ttl_ne, at_zadd_ne, at_set_ne; [done| | |]; [by intros E%task_key_inj|intros E; by eapply (task_status_apart d Hkeys)..]. }
    exists db', true. split; [done|]. split; [|split; [by eexists|done]]. split; [done| |].
    + intros j r E. destruct (decide (j = id)) as [->|Hj]; [done|]. rewrite (record_same t t j db db') in E by (try lia; by apply Hother). by eapply Hpl.
    + intros j Hj He. destruct (decide (j = id)) as [->|Hne]; [by eexists|]. rewrite (record_same t t j db db') by (try lia; by apply Hother). apply Hr; [done|].
      unfold exists_key in *. by rewrite Hother in He.
Qed.

Lemma follow_plain t id ex db j : plain_id j → at_ t (_task_key d j) (_follow_attached_keys_ttl d t id ex db) = at_ t (_task_key d j) db.
Proof.
  intros Hj. unfold _follow_attached_keys_ttl. set (e := if ex <? 0 then _ else _). destruct (Z.leb_spec e 0) as [|He]; [done|].
  apply (expires_at d t e id attached_suffixes db He). intros suffix Hin E. rewrite attached_is_key in E. apply task_key_inj in E. by apply (Hj id suffix).
Qed.

Lemma update_keeps t id m ttl db : taskflow_sound t db → plain_id id → 0 < ttl → is_Some (record_at d t id db) →
  ∃ db' r, update_task d t t t (λ db, db) id {[ MANIFEST := JObj m ]} (Some ttl) true db = (db', Ok tt) ∧ taskflow_sound t db' ∧
    record_at d t id db' = Some (r, Some (t + ttl * 1000)) ∧ r !! MANIFEST = Some (recode (JObj m)) ∧
    ∀ j, plain_id j → j ≠ id → at_ t (_task_key d j) db' = at_ t (_task_key d j) db.
Proof.
  intros [Hok Hpl Hr] Hid Hpos [[cur x] Hrec]. destruct (sok_word _ _ _ Hok _ _ _ Hrec) as (w & X & Hw & ->).
  set (u := {[ MANIFEST := JObj m ]} : row). assert (u !! "status"%string = None) as Hus by (unfold u; by apply lookup_singleton_ne).
  assert (words_only u) as Hu by (intros v Hv; by rewrite Hus in Hv).
  rewrite update_task_checked. unfold checked. rewrite Hus.
  destruct (task_update_record d t id u ttl (terminal_statuses d) (default_expire_time d) db cur (Some X) w Hu Hrec Hw) as [Eq Hst].
  assert (new_word u w = w) as Ew by (unfold new_word; by rewrite Hus). rewrite Ew in *. cbv zeta in Eq.
  assert (resolve_expiry t (_task_key d id) ttl (default_expire_time d) db = ttl) as Ee by (unfold resolve_expiry; by destruct (Z.ltb_spec ttl 0); [lia|]). rewrite Ee in Eq.
  rewrite decide_False in Eq by naive_solver. rewrite decide_False in Eq by lia. rewrite (decide_False (P := w ≠ w ∧ w ≠ ""%string)) in Eq by naive_solver.
  simpl default. rewrite Eq. pose proof (update_script_ok d Hkeys t db id u ttl _ _ Hok Hu Eq) as Hok2.
  set (r := recode <$> u ∪ cur) in *. destruct (move_at d Hkeys t db id r ttl None w Hpos ltac:(done)) as (Hself & Hother & _).
  set (db2 := move d t id r ttl None w db) in *.
  assert (∀ j, plain_id j → record_at d t j (_follow_attached_keys_ttl d t id ttl db2) = record_at d t j db2) as Hfr by (intros j Hj; unfold record_at; by rewrite follow_plain).
  assert (∀ j r, record_at d t j db2 = Some r → plain_id j) as Hpl2.
  { intros j r' E. destruct (decide (j = id)) as [->|Hj]; [done|]. unfold record_at in E. rewrite Hother in E by done. by eapply Hpl. }
  pose proof (others_follow d Hkeys id t db2 t id ttl Hpl2 ltac:(lia)) as Hf. pose proof (redis_others_sound d Hkeys _ _ _ (Build_redis_sound d (t, db2) Hok2 Hpl2) Hf) as [Hok3 Hpl3].
  eexists _, r. split; [reflexivity|]. split_and!.
  - split; [exact Hok3|exact Hpl3|]. intros j Hj He. rewrite Hfr by done. unfold exists_key in He. rewrite follow_plain in He by done.
    destruct (decide (j = id)) as [->|Hne]; [by eexists|]. unfold record_at. rewrite Hother in He |- * by done. by apply Hr.
  - by rewrite Hfr.
  - unfold r, u. rewrite lookup_fmap, lookup_union_l'; [|by eexists; apply lookup_singleton_eq]. by rewrite lookup_singleton_eq.
  - intros j Hj Hne. rewrite follow_plain by done. by apply Hother.
Qed.

Lemma taskflow_save_keeps t id m ttl db : taskflow_sound t db → plain_id id → 0 < ttl →
  ∃ db' r, taskflow_save t id m ttl db = (Ok tt, db') ∧ taskflow_sound t db' ∧
    record_at d t id db' = Some (r, Some (t + ttl * 1000)) ∧ r !! MANIFEST = Some (recode (JObj m)) ∧
    ∀ j, plain_id j → j ≠ id → at_ t (_task_key d j) db' = at_ t (_task_key d j) db.
Proof.
  intros Hs Hid Hpos. destruct (initialize_keeps t id ttl db Hs Hid Hpos) as (db1 & c & Ei & Hs1 & Hr1 & Ho1).
  destruct (update_keeps t id m ttl db1 Hs1 Hid Hpos Hr1) as (db2 & r & Eu & Hs2 & Hr2 & Hm & Ho2).
  exists db2, r. unfold taskflow_save. rewrite Ei, Eu. split_and!; [done..|]. intros j Hj Hne. rewrite Ho2 by done. by apply Ho1.
Qed.

Definition taskflow_keeps : @Keeps DB taskflow_store.
Proof.
  refine (@Build_Keeps DB taskflow_store taskflow_sound plain_id (λ _ _, True) (λ m, recode (JObj m)) taskflow_later _ _).
  - intros t id m ttl db Hs Hid Hpos _. destruct (taskflow_save_keeps t id m ttl db Hs Hid Hpos) as (db' & r & E & Hs' & Hr & Hm & Ho).
    exists db'. split; [exact E|]. split; [done|]. cbn [per_second taskflow_store]. split_and!.
    + intros t' Ht Hlt. rewrite taskflow_seen. assert (record_at d t' id db' = Some (r, Some (t + ttl * 1000))) as ->; [|simpl; by rewrite Hm].
      apply (record_later d t t'); [done|]. split; [done|]. by intros X [= <-].
    + intros t' Hlt. rewrite taskflow_seen. destruct (record_at d t' id db') as [[r' x]|] eqn:E'; [|done]. apply (record_later d t t') in E' as [E' Hx]; [|lia].
      rewrite Hr in E'. injection E' as <- <-. specialize (Hx _ eq_refl). lia.
    + intros j t' Hj Hne Ht. rewrite !taskflow_seen. by rewrite (record_same t t' j db db') by auto.
  - by intros t id db Hs Hid.
Defined.

End Taskflow.

Lemma taskflow_empty `{Redis} d t db : (∀ k, entry db k = None) → taskflow_sound d t db.
Proof.
  intros He. split; [by apply store_ok_empty| |].
  - intros j r. unfold record_at, at_. by rewrite He.
  - intros j _. unfold exists_key, at_. by rewrite He.
Qed.

(** ** The manifests that the three stores keep *)

Section Kept.

Context `{Redis} `{Cjson} (d : TaskRedisDB) (now_str : Z → string) (fresh : Z → string → string).

Definition memory_event (s : MemoryResultStore) (e : store_event) : MemoryResultStore :=
  match e with ESave t id m ttl => memory_store_save t id m ttl s | EGet t id => (memory_store_get t id s).2 end.

Definition protocol_event (s : Result.MemoryResultPart) (e : store_event) : Result.MemoryResultPart :=
  match e with ESave t id m ttl => (protocol_store_save t id m ttl s).2 | EGet _ _ => s end.

Definition taskflow_event (db : DB) (e : store_event) : DB :=
  match e with ESave t id m ttl => (taskflow_save d now_str fresh t id m ttl db).2 | EGet _ _ => db end.

(** What a get at [t] answers: [last] is the last save of the stream, [second]
    a second of the clock, [old] the answer when nothing was saved. *)
Definition kept_answer {A} (second : Z) (value : row → A) (t : Z) (last : option (Z * row * Z)) (old answer : option A) : Prop :=
  match last with
  | None => answer = old
  | Some (t0, m, ttl) => (t < t0 + ttl * second → answer = Some (value m)) ∧ (t0 + ttl * second < t → answer = None)
  end.

Definition fits_calendar (e : store_event) : Prop := match e with ESave t _ _ ttl => t + ttl * MICRO ≤ datetime_max | EGet _ _ => True end.
Definition plain_event (e : store_event) : Prop := match e with ESave _ id _ _ | EGet _ id => plain_id id end.

(** C24: after any sequence of saves and gets of any streams, in the order of
    their times and with positive times to live, a get answers the manifest that
    was saved last for its stream as long as its time to live is not over,
    nothing once it is over, and what it answered at the beginning when the
    stream was not saved: in the memory store; in the protocol store, when no
    expiry lies beyond the last datetime; and in the task store, where the
    manifest has gone through the JSON encoder of the script ([recode]), for
    stream ids that do not end like the attached keys of a task, from a database
    whose task keys hold records (as the empty one). *)
Theorem manifests_kept t0 t es id : in_order t0 es → all_events has_ttl es → end_time t0 es ≤ t →
  (∀ s : MemoryResultStore,
     kept_answer MICRO (λ m, m) t (last_save id es None) (memory_store_get t id s).1 (memory_store_get t id (foldl memory_event s es)).1) ∧
  (∀ s : Result.MemoryResultPart, all_events fits_calendar es →
     kept_answer MICRO (λ m, m) t (last_save id es None) (Result.result_get t s id) (Result.result_get t (foldl protocol_event s es) id)) ∧
  (∀ db, keys_apart d → taskflow_sound d t0 db → plain_id id → all_events plain_event es →
     kept_answer 1000 (λ m, recode (JObj m)) t (last_save id es None) (taskflow_get d t id db) (taskflow_get d t id (foldl taskflow_event db es))).
Proof.
  intros Ho Ha Ht. split_and!.
  - intros s. pose proof (promise_kept (S := MemoryResultStore) t0 t s es id I) as Hp.
    rewrite (foldl_events memory_event) in Hp by (intros s' [t' j m ttl|t' j]; [done|cbn; by destruct (memory_store_get t' j s')]).
    assert (all_events (event_ok (S := MemoryResultStore)) es) as Hok by (intros e He; specialize (Ha e He); destruct e; [by split_and!|done]).
    specialize (Hp (timely_intro t0 es Ho Hok) I Ht). revert Hp. unfold expected, kept_answer, seen. cbn.
    destruct (memory_store_get t id s) as [x s1], (memory_store_get t id (foldl memory_event s es)) as [y s2]. cbn.
    destruct (last_save id es None) as [[[t1 m] ttl]|]; [intros [H1 H2]; split; intros Hc; [specialize (H1 Hc)|specialize (H2 Hc)]; by destruct y; simplify_eq|].
    by destruct x, y; intros; simplify_eq.
  - intros s Hc. pose proof (promise_kept (S := Result.MemoryResultPart) t0 t s es id I) as Hp.
    rewrite (foldl_events protocol_event) in Hp by (by intros s' [t' j m ttl|t' j]).
    assert (all_events (event_ok (S := Result.MemoryResultPart)) es) as Hok by (intros e He; specialize (Ha e He); specialize (Hc e He); destruct e; [by split_and!|done]).
    specialize (Hp (timely_intro t0 es Ho Hok) I Ht). revert Hp. unfold expected, kept_answer, seen. cbn.
    generalize (Result.result_get t s id) as x, (Result.result_get t (foldl protocol_event s es) id) as y. intros x y.
    destruct (last_save id es None) as [[[t1 m] ttl]|]; [intros [H1 H2]; split; intros Hc'; [specialize (H1 Hc')|specialize (H2 Hc')]; by destruct y; simplify_eq|].
    by destruct x, y; intros; simplify_eq.
  - intros db Hk Hs Hid Hp.
    pose proof (promise_kept (H0 := taskflow_keeps d now_str fresh Hk) t0 t db es id Hs) as Hpk.
    rewrite (foldl_events (H := taskflow_store d now_str fresh) taskflow_event) in Hpk by (by intros s' [t' j m ttl|t' j]).
    assert (all_events (event_ok (H0 := taskflow_keeps d now_str fresh Hk)) es) as Hok.
    { intros e He. specialize (Ha e He). specialize (Hp e He). destruct e; [by split_and!|done]. }
    specialize (Hpk (timely_intro t0 es Ho Hok) Hid Ht). revert Hpk. unfold expected, kept_answer, seen. cbn.
    destruct (last_save id es None) as [[[t1 m] ttl]|]; [intros [H1 H2]; split; intros Hc; [specialize (H1 Hc)|specialize (H2 Hc)]; congruence|congruence].
Qed.

End Kept.

(** ** TaskflowEnricher *)

Record EnrichRequest := { placeholder_id : string }.

Inductive enrich_op := SubmitTask (task_id : string) | WaitTerminal (task_id : string).
Definition enrich_ans (o : enrich_op) : Type := match o with SubmitTask _ => res exn unit | WaitTerminal _ => res exn row end.

Definition ENRICH_ERROR : exn := Other "EnrichError".

(** The terminal record of the task as an [EnrichResult]: its url *)
Definition enrich_result (record : row) : res exn json :=
  if bool_decide (record !! "status"%string = Some (JStr "succeeded")) then
    match match record !! "result"%string with Some (JObj result) => result !! "url"%string | _ => None end with
    | Some url => if truthy url then Ok url else Err ENRICH_ERROR
    | None => Err ENRICH_ERROR
    end
  else Err ENRICH_ERROR.

Definition resolve (request : EnrichRequest) : M enrich_ans json :=
  let task_id := ("enrich-" +:+ placeholder_id request)%string in
  do! (perform (SubmitTask task_id) : M enrich_ans unit) in
  let! record := (perform (WaitTerminal task_id) : M enrich_ans row) in
  match enrich_result record with Ok url => ret url | Err e => raise e end.

Module ResultStoresWitness.

Local Open Scope string_scope.

Definition a_manifest : row := {[ "stages" := JArr [JStr "draft"] ]}.
Definition b_manifest : row := {[ "stages" := JArr [] ]}.

(** Two saves of one stream and one of another, in a Redis database *)
Definition day : list store_event := [ESave 0 "s" b_manifest 10; EGet 3 "s"; ESave 4 "q" b_manifest 1; ESave 5000 "s" a_manifest 10]%Z.

Notation redis_store := (taskflow_store (H := redis_map) (H0 := TaskWitness.plain_cjson) TaskWitness.store (λ _, "now") (λ _ _, "exec-1")).

Lemma plain_short id : String.length id = 1%nat → plain_id id.
Proof.
  intros Hl j suffix Hin ->. assert (∀ a b, String.length (a +:+ b) = (String.length a + String.length b)%nat) as Happ.
  { intros a b. induction a as [|c a IH]; [done|]. change (S (String.length (a +:+ b)) = S (String.length a + String.length b)). by rewrite IH. }
  rewrite !Happ in Hl. unfold attached_suffixes in Hin. rewrite !elem_of_cons, elem_of_nil in Hin. destruct Hin as [->|[->|[->|[->|[]]]]]; simpl in Hl; lia.
Qed.

Lemma every_event (P : store_event → Prop) es : Forall P es → all_events P es.
Proof. intros Hf e He. by eapply Forall_forall in Hf. Qed.

Lemma day_ordered : in_order 0 day ∧ all_events has_ttl day ∧ all_events plain_event day ∧ all_events fits_calendar day.
Proof.
  split; [simpl; lia|]. split; [apply every_event; repeat constructor|]. split; apply every_event; [repeat constructor; by apply plain_short|].
  repeat constructor; vm_compute; discriminate.
Qed.

(** The last save is answered by all three stores. *)
Lemma manifests_witness :
  (memory_store_get 9000 "s" (foldl memory_event [] day)).1 = Some a_manifest ∧
  Result.result_get 9000 (foldl protocol_event [] day) "s" = Some a_manifest ∧
  taskflow_get (H := redis_map) TaskWitness.store 9000 "s"
    (foldl (taskflow_event (H := redis_map) (H0 := TaskWitness.plain_cjson) TaskWitness.store (λ _, "now") (λ _ _, "exec-1")) ∅ day)
    = Some (recode (Cjson := TaskWitness.plain_cjson) (JObj a_manifest)).
Proof.
  destruct day_ordered as (D1 & D2 & D3 & D4).
  destruct (manifests_kept (H := redis_map) (H0 := TaskWitness.plain_cjson) TaskWitness.store (λ _, "now") (λ _ _, "exec-1") 0 9000 day "s" D1 D2 ltac:(simpl; lia))
    as (M1 & M2 & M3).
  split_and!.
  - apply (M1 []). vm_compute. reflexivity.
  - apply (M2 [] D4). vm_compute. reflexivity.
  - apply (M3 ∅ TaskWitness.store_apart); [by apply taskflow_empty|by apply plain_short|exact D3|vm_compute; reflexivity].
Defined.

(** A time to live of 0: the memory store keeps the manifest for ever, the task
    store refuses it. *)
Example zero_ttl : seen 1000000000 "s" (store_save 0 "s" a_manifest 0 ([] : MemoryResultStore)).2 = Ok (Some (JObj a_manifest)) ∧
  (@store_save _ redis_store 0 "s" a_manifest 0 ∅).1 = Err (Other "ResponseError").
Proof. by vm_compute. Qed.

(** A time to live beyond the year 9999 is an error of the protocol store only. *)
Example long_ttl : (store_save 0 "s" a_manifest 300000000000 ([] : Result.MemoryResultPart)).1 = Err (Other "OverflowError") ∧
  (store_save 0 "s" a_manifest 300000000000 ([] : MemoryResultStore)).1 = Ok tt.
Proof. by vm_compute. Qed.

End ResultStoresWitness.
