(* ===== verification/DeadLetters.v ===== *)
(** * The dead-letter queue

    flow/retry/dlq.py over [Redis]: a record per failed task with a lifetime, and
    an index of their ids. *)
From Stdlib Require Import ZArith Lia.
From stdpp Require Import prelude gmap list strings.
From S2P Require Import Prelude Redis Effects.
Local Open Scope list_scope.
Local Open Scope Z_scope.

Section Queue.

Context `{Redis}.
(** [self.key_prefix], [self.ttl], and the order in which the client lists the
    members of a set *)
Context (key_prefix : string) (lifetime : Z) (iter_set : gset string → list string).

Definition _make_key (task_id : string) : string := (key_prefix +:+ ":task:" +:+ task_id)%string.
Definition _make_index_key : string := (key_prefix +:+ ":index")%string.

(** The record; [args], [kwargs]: their [repr] *)
Definition letter (task_id func_name func_module args kwargs error error_type : string) (timestamp : json) : row :=
  {[ "task_id" := JStr task_id; "func_name" := JStr func_name; "func_module" := JStr func_module; "args" := JStr args; "kwargs" := JStr kwargs;
     "error" := JStr error; "error_type" := JStr error_type; "timestamp" := timestamp ]}%string.

(** The three commands are one transaction. *)
Definition add (now : Z) (task_id : string) (data : row) (db : DB) : DB :=
  let db := set now (_make_key task_id) (SJson data) (Some lifetime) db in
  let db := sadd now _make_index_key task_id db in
  expire now _make_index_key lifetime db.

Definition get_letter (now : Z) (task_id : string) (db : DB) : option row :=
  match get now (_make_key task_id) db with Some (SJson r) => Some r | _ => None end.

Definition list_letters (now : Z) (limit offset : Z) (db : DB) : list row :=
  let task_ids := page_slice offset limit (iter_set (smembers now _make_index_key db)) in
  omap (λ tid, get_letter now tid db) task_ids.

Definition delete_letter (now : Z) (task_id : string) (db : DB) : DB * bool :=
  (srem now _make_index_key task_id (del now (_make_key task_id) db), true).

Definition retry (now : Z) (task_id : string) (db : DB) : DB * res exn unit :=
  match get_letter now task_id db with
  | None => (db, Err ValueError)
  | Some _ => ((delete_letter now task_id db).1, Ok tt)
  end.

Definition clear_letters (now : Z) (db : DB) : DB * Z :=
  let task_ids := smembers now _make_index_key db in
  if bool_decide (task_ids = ∅) then (db, 0)
  else (del now _make_index_key (fold_left (λ db tid, del now (_make_key tid) db) (iter_set task_ids) db), Z.of_nat (size task_ids)).

(** ** What the queue holds *)

Inductive dlq_op := Add (task_id : string) (data : row) | Delete (task_id : string) | Retry (task_id : string) | Clear.

Definition dlq_do (now : Z) (o : dlq_op) (db : DB) : DB :=
  match o with
  | Add id data => add now id data db
  | Delete id => (delete_letter now id db).1
  | Retry id => (retry now id db).1
  | Clear => (clear_letters now db).1
  end.

(** The letters and when they end *)
Definition held : Type := gmap string (row * Z).
Definition held_do (now : Z) (o : dlq_op) (m : gmap string (row * Z)) : gmap string (row * Z) :=
  match o with
  | Add id data => <[id := (data, now + lifetime * 1000)]> m
  | Delete id | Retry id => delete id m
  | Clear => ∅
  end.

Fixpoint dlq_run (l : list (Z * dlq_op)) (db : DB) : DB := match l with [] => db | (t, o) :: l => dlq_run l (dlq_do t o db) end.
Fixpoint held_run (l : list (Z * dlq_op)) (m : gmap string (row * Z)) : gmap string (row * Z) := match l with [] => m | (t, o) :: l => held_run l (held_do t o m) end.

Fixpoint in_time (t : Z) (l : list (Z * dlq_op)) : Prop := match l with [] => True | (t', _) :: l => t ≤ t' ∧ in_time t' l end.
Fixpoint over_at (t : Z) (l : list (Z * dlq_op)) : Z := match l with [] => t | (t', _) :: l => over_at t' l end.

Context (Hlife : 0 < lifetime) (Hiter : ∀ X x, x ∈ iter_set X ↔ x ∈ X).

Lemma make_key_inj a b : _make_key a = _make_key b → a = b.
Proof. unfold _make_key. intros E. by do 2 apply (inj (String.append _)) in E. Qed.

Lemma key_not_index a : _make_key a ≠ _make_index_key.
Proof. unfold _make_key, _make_index_key. intros E. by apply (inj (String.append _)) in E. Qed.

(** The entry of a letter *)
Definition entry_for (t : Z) (x : option (row * Z)) : option rentry :=
  match x with Some (r, e) => if decide (t < e) then Some {| rval := VStr (SJson r); rexp := Some e |} else None | None => None end.

Record queue_ok (t : Z) (m : gmap string (row * Z)) (db : DB) : Prop := {
  qo_letter : ∀ id, at_ t (_make_key id) db = entry_for t (m !! id);
  qo_index : ∀ id r x, m !! id = Some (r, x) → t < x → id ∈ smembers t _make_index_key db ∧ ∃ y, exp_of (at_ t _make_index_key db) = Some y ∧ x ≤ y;
  qo_bound : ∀ id r x, m !! id = Some (r, x) → x ≤ t + lifetime * 1000
}.

Lemma queue_later t t' m db : t ≤ t' → queue_ok t m db → queue_ok t' m db.
Proof.
  intros Ht [Hl Hi Hb]. split.
  - intros id. rewrite (at_later t t'), Hl by done. destruct (m !! id) as [[r x]|]; [|done]. simpl. destruct (decide (t < x)); simpl; [done|]. by rewrite decide_False by lia.
  - intros id r x E Hx. destruct (Hi id r x E ltac:(lia)) as (Hin & y & Hy & Hle). unfold smembers in *. rewrite (at_later t t') by done.
    destruct (at_ t _make_index_key db) as [[v [y'|]]|]; [|done|done]. simpl in Hy. injection Hy as ->. simpl. rewrite decide_True by lia. split; [done|]. by exists y.
  - intros id r x E. specialize (Hb id r x E). lia.
Qed.

Lemma add_ok t id data m db : queue_ok t m db → queue_ok t (held_do t (Add id data) m) (add t id data db).
Proof.
  intros [Hl Hi Hb]. simpl. unfold add. pose proof (key_not_index id) as Hk. split.
  - intros j. rewrite at_expire_ne, at_sadd_ne by (intros E; symmetry in E; by apply key_not_index in E). destruct (decide (id = j)) as [<-|Hne].
    + rewrite lookup_insert_eq, at_set_ex by done. simpl. by rewrite decide_True by lia.
    + rewrite lookup_insert_ne, at_set_ne by (try done; by intros ?%make_key_inj). apply Hl.
  - intros j r x E Hx. assert (x ≤ t + lifetime * 1000) as Hxb.
    { destruct (decide (id = j)) as [<-|Hne]; [rewrite lookup_insert_eq in E; injection E as <- <-; lia|]. rewrite lookup_insert_ne in E by done. by eapply Hb. }
    unfold smembers. rewrite at_expire, at_sadd by done. unfold set_entry. rewrite decide_False by set_solver. simpl. split; [|by eexists].
    destruct (decide (id = j)) as [<-|Hne]; [set_solver|]. rewrite lookup_insert_ne in E by done. destruct (Hi j r x E Hx) as [Hin _].
    apply elem_of_union_r. unfold smembers in *. by rewrite at_set_ne.
  - intros j r x E. destruct (decide (id = j)) as [<-|Hne]; [rewrite lookup_insert_eq in E; injection E as <- <-; lia|]. rewrite lookup_insert_ne in E by done. by eapply Hb.
Qed.

Lemma delete_ok t id m db : queue_ok t m db → queue_ok t (delete id m) (delete_letter t id db).1.
Proof.
  intros [Hl Hi Hb]. unfold delete_letter. cbn [fst]. pose proof (key_not_index id) as Hk. split.
  - intros j. rewrite at_srem_ne by (intros E; symmetry in E; by apply key_not_index in E). destruct (decide (id = j)) as [<-|Hne]; [by rewrite lookup_delete_eq, at_del|].
    rewrite lookup_delete_ne, at_del_ne by (try done; by intros ?%make_key_inj). apply Hl.
  - intros j r x E Hx. apply lookup_delete_Some in E as [Hne E]. destruct (Hi j r x E Hx) as (Hin & y & Hy & Hle).
    unfold smembers. rewrite at_srem. unfold smembers in *. rewrite at_del_ne by done. unfold set_entry. rewrite decide_False by set_solver. simpl. split; [set_solver|]. by exists y.
  - intros j r x E. apply lookup_delete_Some in E as [Hne E]. by eapply Hb.
Qed.

Lemma dels_at t l db k : at_ t k (fold_left (λ db tid, del t (_make_key tid) db) l db) = if decide (k ∈ _make_key <$> l) then None else at_ t k db.
Proof.
  revert db. induction l as [|a l IH]; intros db; cbn [fold_left]; [by rewrite decide_False by apply not_elem_of_nil|]. rewrite IH, fmap_cons.
  destruct (decide (k ∈ _make_key <$> l)); [by rewrite decide_True by (by right)|]. destruct (decide (k = _make_key a)) as [->|Hne].
  - rewrite at_del, decide_True by left. done.
  - rewrite at_del_ne by done. rewrite decide_False; [done|]. by intros [?|?]%elem_of_cons.
Qed.

Lemma clear_ok t m db : queue_ok t m db → queue_ok t ∅ (clear_letters t db).1.
Proof.
  intros [Hl Hi Hb]. split; [|by intros id r x; rewrite lookup_empty|by intros id r x; rewrite lookup_empty]. intros id. rewrite lookup_empty. cbn [entry_for].
  assert (id ∉ smembers t _make_index_key db → at_ t (_make_key id) db = None) as Hout.
  { intros Hn. rewrite Hl. destruct (m !! id) as [[r x]|] eqn:E; [|done]. simpl. destruct (decide (t < x)) as [Hx|]; [|done]. by destruct Hn; destruct (Hi id r x E Hx). }
  unfold clear_letters. case_bool_decide as He; cbn [fst]; [apply Hout; rewrite He; apply not_elem_of_empty|].
  rewrite at_del_ne by (intros E; symmetry in E; by apply key_not_index in E). rewrite dels_at. destruct (decide _) as [|Hn]; [done|]. apply Hout.
  intros Hin. apply Hn, list_elem_of_fmap. exists id. by rewrite Hiter.
Qed.

Lemma get_ok t id m db : queue_ok t m db → get_letter t id db = match m !! id with Some (r, x) => if decide (t < x) then Some r else None | None => None end.
Proof. intros [Hl _ _]. unfold get_letter, get. rewrite Hl. destruct (m !! id) as [[r x]|]; [|done]. simpl. by destruct (decide (t < x)). Qed.

Lemma retry_ok t id m db : queue_ok t m db → queue_ok t (delete id m) (retry t id db).1.
Proof.
  intros Hq. unfold retry. destruct (get_letter t id db) eqn:E; [by apply delete_ok|]. rewrite (get_ok _ _ _ _ Hq) in E. destruct Hq as [Hl Hi Hb]. split.
  - intros j. simpl. rewrite Hl. destruct (decide (id = j)) as [<-|Hne]; [|by rewrite lookup_delete_ne]. rewrite lookup_delete_eq.
    destruct (m !! id) as [[r x]|]; [|done]. simpl. by destruct (decide (t < x)).
  - intros j r x Ej. apply lookup_delete_Some in Ej as [_ Ej]. by apply (Hi j r).
  - intros j r x Ej. apply lookup_delete_Some in Ej as [_ Ej]. by eapply Hb.
Qed.

Lemma run_ok l t m db : queue_ok t m db → in_time t l → queue_ok (over_at t l) (held_run l m) (dlq_run l db).
Proof.
  revert t m db. induction l as [|[t' o] l IH]; intros t m db Hq Ht; [done|]. destruct Ht as [Hle Ht]. cbn [over_at held_run dlq_run]. apply IH; [|done].
  apply (queue_later t t') in Hq; [|done]. destruct o; [by apply add_ok|by apply delete_ok|by apply retry_ok|by eapply clear_ok].
Qed.

End Queue.

(** C40: the dead-letter queue is a map of letters with a lifetime. From an empty
    store, after any additions, deletions, retries and clearings in the order of
    their times, a letter is read exactly when it was added less than its (positive)
    lifetime ago and not removed since, with what was added last; a listing from
    the beginning whose limit is not below the size of the index (which may still
    count letters that have expired) has exactly these letters; a retry of a
    letter that is not there is a [ValueError]. *)
Theorem dead_letters `{Redis} key_prefix lifetime iter_set (l : list (Z * dlq_op)) t0 t db :
  0 < lifetime → (∀ X x, x ∈ iter_set X ↔ x ∈ X) → (∀ k, entry db k = None) → in_time t0 l → over_at t0 l ≤ t →
  let db' := dlq_run key_prefix lifetime iter_set l db in
  let alive id := match held_run lifetime l ∅ !! id with Some (r, x) => if decide (t < x) then Some r else None | None => None end in
  (∀ id, get_letter key_prefix t id db' = alive id) ∧
  (∀ limit r, Z.of_nat (length (iter_set (smembers t (_make_index_key key_prefix) db'))) ≤ limit →
     r ∈ list_letters key_prefix iter_set t limit 0 db' ↔ ∃ id, alive id = Some r) ∧
  (∀ id, (retry key_prefix t id db').2 = if alive id then Ok tt else Err ValueError).
Proof.
  intros Hlife Hiter Hempty Hl Ht db' alive. assert (queue_ok key_prefix lifetime t0 ∅ db) as H0.
  { split; [|by intros id r x; rewrite lookup_empty|by intros id r x; rewrite lookup_empty]. intros id. rewrite lookup_empty. unfold at_. by rewrite Hempty. }
  pose proof (queue_later _ _ _ _ _ _ Ht (run_ok key_prefix lifetime iter_set Hlife Hiter l t0 ∅ db H0 Hl)) as Hq. fold db' in Hq.
  assert (∀ id, get_letter key_prefix t id db' = alive id) as Hget by (intros id; by apply (get_ok key_prefix lifetime)). split_and!; [done| |].
  - intros limit r Hlim. unfold list_letters, page_slice. rewrite drop_0, take_ge by lia. rewrite list_elem_of_omap. split.
    + intros (id & _ & E). exists id. by rewrite <- Hget.
    + intros [id E]. exists id. split; [|by rewrite Hget]. apply Hiter. unfold alive in E. destruct (held_run lifetime l ∅ !! id) as [[r' x]|] eqn:Em; [|done].
      destruct (decide (t < x)) as [Hx|]; [|done]. by destruct (qo_index _ _ _ _ _ Hq id r' x Em Hx).
  - intros id. unfold retry. rewrite Hget. by destruct (alive id).
Qed.

Module DeadLettersWitness.

Local Open Scope string_scope.

Definition mail (id : string) : row := letter id "run" "tasks" "()" "{}" "boom" "ValueError" (JNum 0).
Definition week : Z := 604800.
(** The second letter comes in the last second of the first. *)
Definition two : list (Z * dlq_op) := [(0, Add "a" (mail "a")); (604799000, Add "b" (mail "b")); (604799500, Retry "b"); (604799600, Add "b" (mail "b"))]%Z.
Definition mails : @DB redis_map := dlq_run (H := redis_map) "dlq" week elements two ∅.

Lemma dead_letters_witness : get_letter (H := redis_map) "dlq" 604800000 "a" mails = None ∧ get_letter (H := redis_map) "dlq" 604800000 "b" mails = Some (mail "b").
Proof.
  assert (∀ id, get_letter (H := redis_map) "dlq" 604800000 id mails =
    match held_run week two ∅ !! id with Some (r, x) => if decide (604800000 < x) then Some r else None | None => None end) as Hg.
  { apply (dead_letters (H := redis_map) "dlq" week elements two 0 604800000 ∅); [done|intros X x; apply elem_of_elements|done|by simpl|done]. }
  split; rewrite Hg; by vm_compute.
Defined.

(** The index keeps the ids of letters that are gone: a page may be empty while
    a letter is left, and clearing counts them. *)
Example stale_index : list_letters (H := redis_map) "dlq" elements 604800000 1 0 mails = [] ∧
  length (list_letters (H := redis_map) "dlq" elements 604800000 2 0 mails) = 1%nat ∧ (clear_letters (H := redis_map) "dlq" elements 604800000 mails).2 = 2.
Proof. by vm_compute. Qed.

(** Deleting what is not there answers [True]. *)
Example nothing_deleted : (delete_letter (H := redis_map) "dlq" 0 "x" ∅).2 = true.
Proof. done. Qed.

End DeadLettersWitness.
